(* ===== verification/_CoqProject ===== *)
-Q . S2P
Prelude.v
Errors.v
Tasks.v
Config.v
Proofs.v
InMemory.v
Offchain.v
OffchainConcurrent.v
RocksDb.v
StoreHistory.v
State.v
Authorities.v
Concrete.v
EventGossip.v
Gossip.v
Witness.v
BlockImport.v
Pallet.v
Runtime.v
RuntimeApi.v
RuntimeServices.v
PalletTesting.v
NodeBenchmarking.v
Validate.v
Server.v
Node.v
GossipChannel.v
Network.v
Ledger.v
NodeTasks.v
ChainCluster.v
Delivery.v
OnChainLedger.v
TpsBenchmark.v
ChainSpec.v
Rpc.v
Service.v
Command.v
