(* ===== verification/Prelude.v ===== *)
(** * Verification of Validated Streams

    Validated Streams is a Substrate node that lets the authorities of a chain
    vouch for events of the outside world.  A trusted client hands an event id
    to its node (gRPC); the node signs it and gossips the signature; every node
    collects signatures, and once an event has signatures by [2n/3 + 1] of the
    [n] authorities it goes to the transaction pool and into a block.  With the
    feature [off-chain-proofs] the block import of every node checks a block's
    events against its own store of signatures; without it the signatures
    travel in the extrinsic and the pallet checks them.

    ** The files

    - [Prelude]: Rust's [Result], panics and non-termination ([outcome]), the
      state-and-error monad [M] of methods on shared objects, machine integers,
      [H256], and the lemmas, tactics and hints that the components share.
    - [Errors]: [consensus/src/errors.rs], and [std::sync::Mutex] with
      poisoning.
    - [Tasks]: asynchronous tasks as trees of accesses to a shared state, systems
      that interleave any number of them, and the rely/guarantee logic [wp] that
      the proofs about them use.
    - [Config]: [consensus/src/config.rs], ports and offsets, their text form,
      and the adjustment of multiaddresses.
    - [Proofs]: [consensus/src/proofs/mod.rs], the trait [EventProofsTrait] as a
      class, and its contract [EventProofsSpec]: an invariant, a view (which
      signature an event and a key have) and what each method does to the view.
      [InMemory], [Offchain] and [RocksDb] are the three implementations, each
      with the instance that discharges the contract.  Clients are proved
      against the contract, so their theorems hold for all three.
      [StoreHistory] compares the three with a set of signers.
    - [State]: the state that [consensus/src/node.rs] shares between components
      ([node_state]: authority cache, proofs, transaction pool, channel to the
      gossip service), and the interfaces to sr25519, the LRU cache, the client
      and the pool.  [Concrete] has small executable instances of them.
    - [Authorities]: [consensus/src/events/mod.rs], authority lists, the check of
      a witnessed event's origin, the target, the cache and
      [verify_events_validity].
    - [EventGossip]: [consensus/src/events/gossip.rs], the handler of gossip
      messages in both feature modes (the parameter [off_chain_proofs]).
    - [Gossip]: [consensus/src/gossip/mod.rs], the actor between the orders of
      the node and the libp2p swarm, as functions ([run_loop]) and as a step
      relation with every interleaving ([actor_step]), and the creation of the
      swarm ([create_swarm]).
    - [OffchainConcurrent]: the two writing methods of the off-chain store as
      threads that touch the storage one call at a time ([add_step],
      [purge_step]), and any number of them interleaved ([sys_step]).
    - [Witness]: [consensus/src/events/witness.rs], signing and publishing.
    - [BlockImport]: [consensus/src/block_import.rs].
    - [Pallet]: [pallet/src/lib.rs] in both modes, behind the interface
      [PalletMode] with the contract [PalletSpec].
    - [Runtime]: the [ValidatedStreamsApi] of [runtime/src/lib.rs], its calls and
      extrinsics and its constants.
    - [RuntimeApi]: the runtime's configuration of the pallet and the API methods
      that bear on events, over interfaces to [pallet_aura] and
      [frame_executive]; the way from the node to the chain and back.
    - [RuntimeServices]: the other APIs of [runtime/src/lib.rs], over interfaces to
      the FRAME pallets that they call: session keys, fees, inherents, benchmarks
      and try-runtime.
    - [PalletTesting]: [pallet/src/weights.rs], [pallet/src/benchmarking.rs] and
      [pallet/src/mock.rs].
    - [NodeBenchmarking]: [node/src/benchmarking.rs], the signed extrinsics of
      the benchmark commands.
    - [Validate]: [consensus/src/events/validate.rs], the wait for finality as a
      sequence of views of the chain.
    - [Server]: [consensus/src/server.rs], the two remote calls and the server
      task.
    - [Node]: [consensus/src/node.rs], the tasks, the start of the gossip, and a
      running node as a transition system ([node_step]) over all the components.
    - [GossipChannel]: the channel between the node and its gossip service with its
      bound, the calls that wait for it, and the gossip task of [start], poll by
      poll ([gossip_step]).
    - [Network]: any number of running nodes and the messages between them
      ([net_step]); the network may lose, delay, repeat and reorder messages and
      send any bytes, but no signature of a key that is not Byzantine is forged.
    - [Ledger]: the abstract specification of the whole system: authorities attest
      events, nodes record events that a quorum has attested ([ledger_step]).
    - [NodeTasks]: the gossip service and its handler, the witnessing and the block
      import of [Gossip], [EventGossip], [Witness] and [BlockImport] as tasks of
      any number of nodes; each access to the client, the cache, the store, the
      pool, the channel, the swarm or the inner import is one step
      ([cluster_step]).
    - [ChainCluster]: these nodes with their chains, with off-chain proofs: blocks
      that the block import has handed over are executed by the runtime
      ([chain_step]).
    - [Delivery]: the way of an event from the clients that witness it to the clients
      that listen, through all the components.
    - [OnChainLedger]: chains with on-chain proofs, which execute any block
      ([proof_step]).
    - [TpsBenchmark]: [samples/tps-benchmark/src/main.rs].
    - [ChainSpec]: [node/src/chain_spec.rs] and [load_spec].
    - [Rpc]: [node/src/rpc.rs], the RPC modules.
    - [Service]: [node/src/service.rs], the order of starting and the objects that
      the parts of a node share.
    - [Command]: [node/src/cli.rs] and [node/src/command.rs], the subcommands and
      what [run] does for each.

    ** What the theorems show

    The system: with off-chain proofs every run of the network, with all its
    tasks interleaved access by access, is a run of the ledger
    ([network_refines_ledger]), so no two conflicting events are on chains
    ([chain_safety]).  With on-chain proofs the chains alone implement the same
    ledger, whoever makes the blocks ([on_chain_refines_ledger]).
    The other direction: an event witnessed by a quorum is submitted by every node
    that their messages reach ([quorum_reaches_pool]), and then imported, recorded
    and delivered to the listening clients ([witnessed_event_is_delivered]).

    Tasks: under every interleaving the tasks keep the invariant of the cluster,
    do not panic, do not block each other and end ([interleavings_safe]); blocks
    handed over never conflict ([interleaved_imports_agree]); a task that runs
    alone is the sequential call of the component's file ([tasks_refine_calls]).

    Calls: [quorum_intersection] and [target_minimal] justify the target;
    [import_block_correct] and [imported_block_witnessed] say what the block
    import lets through, and [network_safety] what that means when calls do not
    overlap.  The two ways around the check of the block import are stated too
    ([import_block_unchecked]).

    Gossip: the handler returns on any input and keeps the invariant of the node
    ([handle_safe], [node_invariant]); it records exactly what it should
    ([handle_accepts], [handle_rejects]) and submits only with a quorum
    ([handle_submits_with_quorum]); nodes that have received the same messages
    agree, whatever the order, the repetitions and the stores
    ([gossip_agreement]); what one node witnesses every node records
    ([witness_event_correct], [witness_then_handle]); the actor loses, repeats
    and reorders nothing ([run_loop_delivery], [actor_run_fifo]), and neither does
    the bounded channel ([channel_refines_actor], [channel_bounded]), which locks
    no call out of a running service ([publish_returns]).  The service itself
    starts exactly when the orders queued by then fit the buffer
    ([start_serves_iff]), and never when 64 events were published before
    ([flooded_start_blocks]).

    Stores: each implementation does what the trait promises
    ([offchain_last_signature_wins], [offchain_purge_exact],
    [rocksdb_store_correct], and the instances of [EventProofsSpec]), but a purge
    of the RocksDB store also reaches the events behind its own.  Any history of
    additions and purges ends on each store with the signers of a reference set,
    on RocksDB up to those purges ([stores_refine_reference]); the cache of
    authorities never changes an answer
    ([get_authorities_list_transparent]).

    Concurrent writers of the off-chain store: a thread alone is the sequential
    method ([solo_refines_call]); under every schedule the writers end
    ([writers_terminate]) and lose and invent nothing ([concurrent_history]); the
    index lists every signer as long as no two purges of one event overlap
    ([exclusive_purges_keep_index]), and can lose one for good if they do
    ([overlapping_purges_lose_signer]).  The node purges in its gossip task only,
    one message at a time.

    Chain: events are validated at most once ([pallet_validates_once]) and, with
    on-chain proofs, only with enough proofs ([on_chain_validate_event_correct],
    [on_chain_events_proved]).  A block records the events that the block import
    has checked, no others ([block_records_its_ids]), so with off-chain proofs
    every event on the chain of a node was witnessed by a quorum of the
    authorities ([imported_block_records_witnessed]); with on-chain proofs what
    the handler submits is recorded ([submitted_event_is_recorded]),
    at no cost ([event_extrinsic_free]).  Session keys that a validator generates
    decode to the keys of its keystore ([generated_keys_decode]).

    Clients: finalized events are delivered once the block is finalized, and
    never before ([get_finalized_block_events_correct]); the stream has no gap,
    no repetition and can be resumed ([stream_items_correct], [stream_resumes]).

    Start: a started node runs its tasks once each ([new_full_correct]), and all ways
    of a block into its chain go through one block import over the store that the
    gossip handler fills ([new_full_wiring]).

    Tools: the mock runtime accepts exactly the numbers of proofs that the
    pallet's tests sample ([mock_validates_exactly]); the on-chain benchmark
    measures a path that the call does not take ([bench_measures_other_path],
    [bench_target_at_most]); the extrinsics of the node's benchmarks are valid
    for their era ([builders_valid], [mortal_period_correct]); a subcommand runs
    one command and nothing of a node ([run_correct]), and two of them cannot
    work with off-chain proofs ([import_commands_panic]); the TPS benchmark counts
    the probe of its own start-up as an event of the measurement, and in a build
    with overflow checks panics when it receives it ([probe_breaks_benchmark]).

    ** How the code is modelled

    A method on [&self] that returns a [Result] is a function of type
    [M S Error A]: it takes the state of the shared object to a result and a new
    state, keeps the writes made before an error, and may panic.  In these
    functions an [async] call is sequential: between two awaits of one handler no
    other task runs.  [node_step], [actor_step] and [net_step] interleave whole
    calls; [gossip_step] interleaves polls of the calls that wait for the channel.
    In the other files the channel has no bound, which [channel_refines_actor]
    justifies.  The same handlers with any other task of any node running
    between two accesses are in [NodeTasks], and the single storage calls of the
    off-chain store in [OffchainConcurrent].  [cfg] features and the overflow
    checks of a build are boolean parameters.  Code of other crates is an
    interface (a class) with its documented behaviour as laws; each set of laws
    has a concrete instance, which the witnesses of the theorems use.

    Recursion: the compare-and-set loops of [Offchain] have the fuel [cas_fuel]
    of one iteration, which is enough because no other writer runs between their
    read and their write; [pop_to_port] has one iteration for each component of
    the address and one more; both facts are proved where the loops are used.
    The loops that never end in the code ([run_loop], the stream of the server,
    the wait for finality) are functions of the inputs they have received so far;
    [Diverge] is the outcome of a call that still waits.

    The threads of [OffchainConcurrent] need no fuel: their termination under
    every schedule is [writers_terminate], and [solo] has enough fuel from a
    number of steps on that depends on the signers listed ([solo_refines_call]).

    ** What is assumed

    Signatures of keys that are not Byzantine are not forged: a message, an
    extrinsic or a block that verifies under such a key carries what that key has
    signed.  The theorems about several chains take one list of authorities, as
    the runtime has no session pallet and nothing changes the list of Aura after
    the genesis; and no call of [pallet_sudo], which can write any storage.  With
    off-chain proofs they also ask that no node is in a major synchronisation when
    it imports, because the block import then skips its check; that this is needed
    is [import_block_unchecked].  They also ask that the runtime API answers at the
    blocks that a node knows: the block import takes a failing call for a block
    without events.  The inner block import returns; what it returns
    is arbitrary.

    ** What is not modelled

    The gRPC transport, the objects that the Substrate framework
    builds, the associated types that configure the FRAME pallets other than this
    one, and the build scripts: calls of libraries, or code that other tools
    generate.  RocksDB and the RPC modules of Substrate are interfaces. *)

From stdpp Require Import base decidable countable list gmap strings numbers.
From Stdlib Require Import Strings.Byte.
From Stdlib Require Import ZArith Lia.

(** ** Notation scope, hint database *)

Declare Scope vs_scope.
Delimit Scope vs_scope with vs.
Create HintDb vs.

(** ** Rust's [Result] *)

Inductive result (E A : Type) : Type :=
| Ok (a : A)
| Err (e : E).

Arguments Ok {E A} a.
Arguments Err {E A} e.

#[export] Instance result_ret E : MRet (result E) := @Ok E.
#[export] Instance result_bind E : MBind (result E) := λ A B f r,
  match r with
  | Ok a => f a
  | Err e => Err e
  end.
#[export] Instance result_fmap E : FMap (result E) := λ A B f r,
  match r with
  | Ok a => Ok (f a)
  | Err e => Err e
  end.

#[export] Instance result_eq_dec {E A} `{EqDecision E, EqDecision A} :
  EqDecision (result E A).
Proof. solve_decision. Defined.

(** [Result::map_err] *)
Definition map_err {E F A} (f : E → F) (r : result E A) : result F A :=
  match r with
  | Ok a => Ok a
  | Err e => Err (f e)
  end.

(** [Result::ok] *)
Definition ok {E A} (r : result E A) : option A :=
  match r with
  | Ok a => Some a
  | Err _ => None
  end.

(** [Option::ok_or] *)
Definition ok_or {E A} (o : option A) (e : E) : result E A :=
  match o with
  | Some a => Ok a
  | None => Err e
  end.

(** [Result::unwrap_or_default] at a type whose default is [d]. *)
Definition unwrap_or {E A} (d : A) (r : result E A) : A :=
  match r with
  | Ok a => a
  | Err _ => d
  end.

(** Collecting an iterator of results into a result of a list: the first
    error wins ([FromIterator for Result]). *)
Fixpoint collect_results {E A} (l : list (result E A)) : result E (list A) :=
  match l with
  | [] => Ok []
  | Ok a :: rest =>
      match collect_results rest with
      | Ok xs => Ok (a :: xs)
      | Err e => Err e
      end
  | Err e :: _ => Err e
  end.

(** ** Calls that may panic or not return

    [Diverge] is what a loop gives when its fuel runs out. *)

Inductive outcome (A : Type) : Type :=
| Ret (a : A)
| Panic
| Diverge.

Arguments Ret {A} a.
Arguments Panic {A}.
Arguments Diverge {A}.

#[export] Instance outcome_ret : MRet outcome := @Ret.
#[export] Instance outcome_bind : MBind outcome := λ A B f o,
  match o with
  | Ret a => f a
  | Panic => Panic
  | Diverge => Diverge
  end.

(** [Option::unwrap] *)
Definition unwrap_option {A} (o : option A) : outcome A :=
  match o with
  | Some a => Ret a
  | None => Panic
  end.

(** [Result::unwrap] *)
Definition unwrap_result {E A} (r : result E A) : outcome A :=
  match r with
  | Ok a => Ret a
  | Err _ => Panic
  end.

(** Running a panicking closure over every element of an iterator, in
    order: the first panic stops the iteration. *)
Fixpoint outcome_map {A B} (f : A → outcome B) (l : list A) : outcome (list B) :=
  match l with
  | [] => Ret []
  | a :: rest => b ← f a; bs ← outcome_map f rest; Ret (b :: bs)
  end.

(** ** Stateful methods returning a [Result]

    A method on [&self] (with interior mutability) that returns
    [Result<A, E>] takes the state of its object to a new state.  An [Err]
    keeps the mutations that happened before it; a panic has no result. *)
Definition M (S E A : Type) : Type := S → outcome (result E A * S).

#[export] Instance M_ret S E : MRet (M S E) := λ A a s, Ret (Ok a, s).
#[export] Instance M_bind S E : MBind (M S E) := λ A B f m s,
  '(r, s') ← m s;
  match r with
  | Ok a => f a s'
  | Err e => Ret (Err e, s')
  end.

(** The [?] operator on a value that is already there. *)
Definition lift {S E A} (r : result E A) : M S E A := λ s, Ret (r, s).

Definition throw {S E A} (e : E) : M S E A := λ s, Ret (Err e, s).

(** A closure that panics instead of returning. *)
Definition lift_outcome {S E A} (o : outcome A) : M S E A := λ s,
  a ← o; Ret (Ok a, s).

Definition get_state {S E} : M S E S := λ s, Ret (Ok s, s).
Definition put_state {S E} (s' : S) : M S E unit := λ _, Ret (Ok tt, s').

(** Running a method of a field of the object. *)
Definition zoom {S T E A} (proj : S → T) (upd : T → S → S) (m : M T E A) : M S E A := λ s,
  '(r, t) ← m (proj s); Ret (r, upd t s).

(** Catching the error of a call: [match call.await { Err(e) => .., Ok(x) => .. }]. *)
Definition catch {S E F A} (m : M S E A) : M S F (result E A) := λ s,
  '(r, s') ← m s; Ret (Ok r, s').

Definition M_map_err {S E F A} (f : E → F) (m : M S E A) : M S F A := λ s,
  '(r, s') ← m s; Ret (map_err f r, s').

(** [for x in l { body }] where the body may fail with [?]. *)
Fixpoint M_for {S E A} (l : list A) (body : A → M S E unit) : M S E unit :=
  match l with
  | [] => mret tt
  | x :: rest => body x ≫= λ _, M_for rest body
  end.

(** ** Total correctness of a stateful call

    [runs m s Q]: started in [s], the call returns (it neither panics nor
    diverges), and its result and final state satisfy [Q]. *)
Definition runs {S E A} (m : M S E A) (s : S) (Q : result E A → S → Prop) : Prop :=
  match m s with
  | Ret (r, s') => Q r s'
  | Panic | Diverge => False
  end.

(** ** Machine integers *)

Definition u16_max : Z := 65535.
Definition u32_max : Z := 4294967295.
Definition i16_min : Z := -32768.
Definition i16_max : Z := 32767.

(** [x as u16] on an unsigned value: the low sixteen bits. *)
Definition as_u16 (x : Z) : Z := x mod 65536.

(** [len() as u16] *)
Definition len_as_u16 {A} (l : list A) : Z := as_u16 (Z.of_nat (length l)).

(** ** Bytes and 256-bit hashes *)

#[export] Instance byte_eq_dec : EqDecision byte := Byte.byte_eq_dec.
#[export] Program Instance byte_countable : Countable byte :=
  inj_countable Byte.to_N Byte.of_N _.
Next Obligation. intros b. apply Byte.of_to_N. Qed.

(** [sp_core::H256], an array of 32 bytes. *)
Record H256 := mkH256 {
  as_bytes : list byte;
  as_bytes_len : Nat.eqb (length as_bytes) 32 = true
}.

(** [H256::from_slice] is only defined on slices of exactly 32 bytes. *)
Definition h256_of_list (l : list byte) : option H256 :=
  (if Nat.eqb (length l) 32 as b return (Nat.eqb (length l) 32 = b → option H256)
   then λ H, Some (mkH256 l H)
   else λ _, None) eq_refl.

Definition from_slice (l : list byte) : outcome H256 := unwrap_option (h256_of_list l).

(** [H256::repeat_byte] *)
Definition repeat_byte (b : byte) : H256 := mkH256 (replicate 32 b) eq_refl.

Lemma h256_ext (h1 h2 : H256) : as_bytes h1 = as_bytes h2 → h1 = h2.
Proof.
  destruct h1 as [l1 H1], h2 as [l2 H2]; simpl. intros ->.
  f_equal. apply (Eqdep_dec.UIP_dec Bool.bool_dec).
Qed.

#[export] Instance as_bytes_inj : Inj (=) (=) as_bytes.
Proof. intros h1 h2. apply h256_ext. Qed.

#[export] Instance h256_eq_dec : EqDecision H256.
Proof.
  intros h1 h2. destruct (decide (as_bytes h1 = as_bytes h2)) as [E|E].
  - left. by apply h256_ext.
  - right. by intros ->.
Defined.

Lemma as_bytes_length (h : H256) : length (as_bytes h) = 32.
Proof. apply Nat.eqb_eq, as_bytes_len. Qed.

Lemma h256_of_list_Some (l : list byte) (H : length l = 32) :
  ∃ h, h256_of_list l = Some h ∧ as_bytes h = l.
Proof.
  unfold h256_of_list.
  assert (∀ b (e : Nat.eqb (length l) 32 = b), b = true →
    ∃ h, (if b as b return (Nat.eqb (length l) 32 = b → option H256)
          then λ H, Some (mkH256 l H) else λ _, None) e = Some h ∧ as_bytes h = l) as G.
  { intros [] e Hb; [|done]. by eexists. }
  apply G. by apply Nat.eqb_eq.
Qed.

Lemma h256_of_list_None (l : list byte) (H : length l ≠ 32) : h256_of_list l = None.
Proof.
  unfold h256_of_list.
  assert (∀ b (e : Nat.eqb (length l) 32 = b), b = false →
    (if b as b return (Nat.eqb (length l) 32 = b → option H256)
     then λ H, Some (mkH256 l H) else λ _, None) e = None) as G.
  { by intros [] e Hb. }
  apply G. by apply Nat.eqb_neq.
Qed.

Lemma h256_of_as_bytes (h : H256) : h256_of_list (as_bytes h) = Some h.
Proof.
  destruct (h256_of_list_Some (as_bytes h) (as_bytes_length h)) as (h' & -> & E).
  f_equal. by apply h256_ext.
Qed.

#[export] Program Instance h256_countable : Countable H256 :=
  inj_countable as_bytes h256_of_list _.
Next Obligation. intros h. apply h256_of_as_bytes. Qed.

Lemma result_ok_bind {E A B} (a : A) (f : A → result E B) : Ok a ≫= f = f a.
Proof. done. Qed.

(** ** Rules for [runs] *)

Section Runs.
Context {S E : Type}.

Lemma runs_ret {A} (a : A) (s : S) (Q : result E A → S → Prop) :
  Q (Ok a) s → runs (mret a) s Q.
Proof. done. Qed.

Lemma runs_throw {A} (e : E) (s : S) (Q : result E A → S → Prop) :
  Q (Err e) s → runs (throw e) s Q.
Proof. done. Qed.

Lemma runs_lift {A} (r : result E A) (s : S) (Q : result E A → S → Prop) :
  Q r s → runs (lift r) s Q.
Proof. done. Qed.

Lemma runs_bind {A B} (m : M S E A) (f : A → M S E B) (s : S) (Q : result E B → S → Prop) :
  runs m s (λ r s', match r with
                    | Ok a => runs (f a) s' Q
                    | Err e => Q (Err e) s'
                    end) →
  runs (m ≫= f) s Q.
Proof.
  unfold runs, mbind, M_bind. by destruct (m s) as [[[a|e] s']| |].
Qed.

Lemma runs_mono {A} (m : M S E A) (s : S) (P Q : result E A → S → Prop) :
  runs m s P → (∀ r s', P r s' → Q r s') → runs m s Q.
Proof. unfold runs. destruct (m s) as [[r s']| |]; eauto. Qed.

Lemma runs_and {A} (m : M S E A) (s : S) (P Q : result E A → S → Prop) :
  runs m s P → runs m s Q → runs m s (λ r s', P r s' ∧ Q r s').
Proof. unfold runs. by destruct (m s) as [[r s']| |]. Qed.

(** A call that is known to succeed in a given state. *)
Lemma runs_eq {A} (m : M S E A) (s s' : S) (r : result E A) (Q : result E A → S → Prop) :
  m s = Ret (r, s') → Q r s' → runs m s Q.
Proof. unfold runs. by intros ->. Qed.

Lemma runs_inv {A} (m : M S E A) (s s' : S) (r : result E A) (Q : result E A → S → Prop) :
  m s = Ret (r, s') → runs m s Q → Q r s'.
Proof. unfold runs. by intros ->. Qed.

Lemma runs_returns {A} (m : M S E A) (s : S) (Q : result E A → S → Prop) :
  runs m s Q → ∃ r s', m s = Ret (r, s') ∧ Q r s'.
Proof. unfold runs. destruct (m s) as [[r s']| |]; [eauto|done..]. Qed.

Lemma M_bind_ok {A B} (m : M S E A) (f : A → M S E B) s s' a :
  m s = Ret (Ok a, s') → (m ≫= f) s = f a s'.
Proof. unfold mbind, M_bind. by intros ->. Qed.

Lemma M_bind_err {A B} (m : M S E A) (f : A → M S E B) s s' e :
  m s = Ret (Err e, s') → (m ≫= f) s = Ret (Err e, s').
Proof. unfold mbind, M_bind. by intros ->. Qed.

(** Inversion of a sequence that ended well. *)
Lemma M_bind_ok_inv {A B} (m : M S E A) (f : A → M S E B) s s' b :
  (m ≫= f) s = Ret (Ok b, s') →
  ∃ a s1, m s = Ret (Ok a, s1) ∧ f a s1 = Ret (Ok b, s').
Proof.
  unfold mbind, M_bind. destruct (m s) as [[[a|e] s1]| |] eqn:Em; [|done..].
  intros Hf. by exists a, s1.
Qed.

(** Inversion of a sequence that returned. *)
Lemma M_bind_ret_inv {A B} (m : M S E A) (f : A → M S E B) s s' r :
  (m ≫= f) s = Ret (r, s') →
  (∃ a s1, m s = Ret (Ok a, s1) ∧ f a s1 = Ret (r, s')) ∨
  (∃ e, m s = Ret (Err e, s') ∧ r = Err e).
Proof.
  unfold mbind, M_bind. destruct (m s) as [[[a|e] s1]| |] eqn:Em; [..|done|done].
  - intros Hf. left. by exists a, s1.
  - intros [= <- <-]. right. by exists e.
Qed.

(** The [?] operator: continue with the value or return the error. *)
Lemma M_lift_bind {A B} (r : result E A) (f : A → M S E B) s :
  (lift r ≫= f) s = match r with Ok a => f a s | Err e => Ret (Err e, s) end.
Proof. by destruct r. Qed.

Lemma lift_ret {A} (r : result E A) (s s' : S) (r' : result E A) :
  lift r s = Ret (r', s') → r' = r ∧ s' = s.
Proof. by intros [= <- <-]. Qed.

End Runs.

Lemma runs_zoom {S T E A} (proj : S → T) (upd : T → S → S) (m : M T E A) (s : S)
    (Q : result E A → S → Prop) :
  runs m (proj s) (λ r t, Q r (upd t s)) → runs (zoom proj upd m) s Q.
Proof. unfold runs, zoom. by destruct (m (proj s)) as [[r t]| |]. Qed.

Lemma zoom_ret_inv {S T E A} (proj : S → T) (upd : T → S → S) (m : M T E A) s s' r :
  zoom proj upd m s = Ret (r, s') →
  ∃ t, m (proj s) = Ret (r, t) ∧ s' = upd t s.
Proof.
  unfold zoom. destruct (m (proj s)) as [[r' t]| |]; [|done..].
  intros [= <- <-]. by exists t.
Qed.

Lemma zoom_eq {S T E A} (proj : S → T) (upd : T → S → S) (m : M T E A) s t r :
  m (proj s) = Ret (r, t) → zoom proj upd m s = Ret (r, upd t s).
Proof. unfold zoom. by intros ->. Qed.

(** Stepping through a monadic call whose continuation is known. *)
Ltac m_step :=
  match goal with
  | |- runs (mret _) _ _ => apply runs_ret
  | |- runs (throw _) _ _ => apply runs_throw
  | |- runs (lift _) _ _ => apply runs_lift
  | |- runs (_ ≫= _) _ _ => apply runs_bind
  | |- runs (zoom _ _ _) _ _ => apply runs_zoom
  end.

(** Taking apart an equation [m s = Ret (r, s')] of a sequence of calls. *)
Ltac m_inv H :=
  lazymatch type of H with
  | (_ ≫= _) _ = Ret (Ok _, _) =>
      let a := fresh "a" in let s1 := fresh "s1" in
      let H1 := fresh H in let H2 := fresh H in
      apply M_bind_ok_inv in H as (a & s1 & H1 & H2)
  | (_ ≫= _) _ = Ret (_, _) =>
      let a := fresh "a" in let s1 := fresh "s1" in
      let H1 := fresh H in let H2 := fresh H in
      apply M_bind_ret_inv in H as [(a & s1 & H1 & H2) | (a & H1 & H2)]
  | zoom _ _ _ _ = Ret (_, _) =>
      let t := fresh "t" in let H1 := fresh H in let H2 := fresh H in
      apply zoom_ret_inv in H as (t & H1 & H2)
  | lift _ _ = Ret (_, _) =>
      let H1 := fresh H in let H2 := fresh H in
      apply lift_ret in H as [H1 H2]
  end.

(** Linear arithmetic with divisions by constants. *)
Ltac zdiv := zify; Z.to_euclidean_division_equations; lia.

#[export] Hint Resolve runs_ret runs_throw runs_lift : vs.

(** ** Machine integers *)

Lemma as_u16_range x : (0 ≤ as_u16 x ≤ u16_max)%Z.
Proof. unfold as_u16, u16_max. pose proof (Z.mod_pos_bound x 65536). lia. Qed.

Lemma as_u16_small x : (0 ≤ x ≤ u16_max)%Z → as_u16 x = x.
Proof. unfold as_u16, u16_max. intros. apply Z.mod_small. lia. Qed.

Lemma as_u16_le x : (0 ≤ x)%Z → (as_u16 x ≤ x)%Z.
Proof. unfold as_u16. intros. apply Z.mod_le; lia. Qed.

(** ** Lists *)

Lemma outcome_map_Forall2 {A B} (f : A → outcome B) l l' :
  outcome_map f l = Ret l' ↔ Forall2 (λ a b, f a = Ret b) l l'.
Proof.
  revert l'. induction l as [|a l IH]; intros l'; simpl.
  { split; [by intros [= <-] | by inversion 1]. }
  unfold mbind, outcome_bind. split.
  - destruct (f a) as [b| |] eqn:Ea; [|done..].
    destruct (outcome_map f l) as [bs| |]; [|done..].
    intros [= <-]. constructor; [done|]. by apply IH.
  - inversion 1 as [|? b' ? bs' Hb Hbs]; subst. rewrite Hb.
    apply IH in Hbs. by rewrite Hbs.
Qed.

Lemma outcome_ret_bind {A B} (a : A) (f : A → outcome B) : Ret a ≫= f = f a.
Proof. done. Qed.

Lemma unwrap_result_Ok {E A} (a : A) : unwrap_result (Ok a : result E A) = Ret a.
Proof. done. Qed.

(** A total closure never panics the iteration. *)
Lemma outcome_map_total {A B} (f : A → outcome B) l :
  Forall (λ a, ∃ b, f a = Ret b) l → ∃ l', outcome_map f l = Ret l'.
Proof.
  induction 1 as [|a l [b Hb] _ [l' IH]]; simpl; [by eexists|].
  exists (b :: l'). unfold mbind, outcome_bind. by rewrite Hb, IH.
Qed.

(** Inputs and outputs of an iteration that returned. *)
Lemma outcome_map_elem_l {A B} (f : A → outcome B) l l' a :
  outcome_map f l = Ret l' → a ∈ l → ∃ b, b ∈ l' ∧ f a = Ret b.
Proof.
  rewrite outcome_map_Forall2. induction 1; [by intros ?%elem_of_nil|]. set_solver.
Qed.

Lemma outcome_map_elem_r {A B} (f : A → outcome B) l l' b :
  outcome_map f l = Ret l' → b ∈ l' → ∃ a, a ∈ l ∧ f a = Ret b.
Proof.
  rewrite outcome_map_Forall2. induction 1; [by intros ?%elem_of_nil|]. set_solver.
Qed.

Lemma outcome_map_ret {A B} (f : A → B) l :
  outcome_map (λ a, Ret (f a)) l = Ret (f <$> l).
Proof. apply outcome_map_Forall2, Forall2_fmap_r, Forall_Forall2_diag, Forall_true. done. Qed.

Lemma filter_nil_Forall {A} (P : A → Prop) `{∀ x, Decision (P x)} (l : list A) :
  filter (λ x, ¬ P x) l = [] ↔ Forall P l.
Proof.
  induction l as [|x l IH]; [done|]. rewrite filter_cons, Forall_cons_iff, <- IH.
  destruct (decide (P x)); [rewrite decide_False by tauto; tauto|].
  rewrite decide_True by done. split; [done|tauto].
Qed.

(** A function that is total and injective on a list without duplicates. *)
Lemma omap_NoDup {A B} (f : A → option B) (l : list A) :
  NoDup l → (∀ a, a ∈ l → is_Some (f a)) →
  (∀ a a' b, a ∈ l → a' ∈ l → f a = Some b → f a' = Some b → a = a') →
  NoDup (omap f l) ∧ length (omap f l) = length l.
Proof.
  induction 1 as [|a l Ha _ IH]; intros Htot Hinj; [split; [constructor|done]|].
  destruct (Htot a ltac:(by left)) as [b Hb].
  destruct IH as [IH1 IH2]; [intros; apply Htot; by right|intros; eapply Hinj; eauto; by right|].
  cbn [omap list_omap]. rewrite Hb. split; [|by cbn; rewrite <- IH2]. constructor; [|done].
  rewrite list_elem_of_omap. intros (a' & Ha' & Hb'). destruct Ha.
  rewrite (Hinj a a' b); [done|by left|by right|done..].
Qed.

(** Sizes of sets given by duplicate-free lists. *)
Lemma size_list_to_set_NoDup {A} `{Countable A} (l : list A) :
  NoDup l → size (list_to_set l : gset A) = length l.
Proof.
  induction 1 as [|x l Hx _ IH]; [done|]. simpl.
  rewrite size_union, size_singleton, IH; [done|]. set_solver.
Qed.

Lemma sum_list_with_insert {A} (f : A → nat) l i x y :
  l !! i = Some x → sum_list_with f (<[i := y]> l) + f x = sum_list_with f l + f y.
Proof.
  revert i. induction l as [|z l IH]; intros [|i]; simpl; try done.
  - intros [= ->]. lia.
  - intros Hi. specialize (IH i Hi). lia.
Qed.

Lemma size_list_to_set_le {A} `{Countable A} (l : list A) :
  size (list_to_set l : gset A) ≤ length l.
Proof.
  induction l as [|x l IH]; [done|]. simpl.
  rewrite size_union_alt, size_singleton.
  assert (size ((list_to_set l : gset A) ∖ {[x]}) ≤ size (list_to_set l : gset A)).
  { apply subseteq_size. set_solver. }
  lia.
Qed.

(** Collecting key-value pairs into a [HashMap]: a later pair replaces an
    earlier one with the same key. *)
Definition collect_map {K V} `{Countable K} (l : list (K * V)) : gmap K V :=
  foldl (λ m kv, <[kv.1 := kv.2]> m) ∅ l.

(** When equal keys carry equal values the order does not matter. *)
Lemma lookup_collect_map {K V} `{Countable K} (l : list (K * V)) (f : K → option V) k :
  (∀ k v, (k, v) ∈ l → f k = Some v) →
  collect_map l !! k = if bool_decide (k ∈ l.*1) then f k else None.
Proof.
  unfold collect_map. induction l as [|[k' v'] l IH] using rev_ind; intros Hf; [done|].
  rewrite foldl_app, fmap_app. cbn.
  assert (f k' = Some v') as Hk' by (apply Hf; set_solver).
  destruct (decide (k' = k)) as [->|Hne].
  - rewrite lookup_insert_eq, bool_decide_eq_true_2 by set_solver. done.
  - rewrite lookup_insert_ne, IH by (done || set_solver).
    repeat case_bool_decide; set_solver.
Qed.

(** Every collected pair comes from the list, and every key is collected. *)
Lemma collect_map_elem_of {K V} `{Countable K} (l : list (K * V)) k v :
  collect_map l !! k = Some v → (k, v) ∈ l.
Proof.
  unfold collect_map. induction l as [|[k' v'] l IH] using rev_ind; [done|].
  rewrite foldl_app. cbn. rewrite lookup_insert_Some. set_solver.
Qed.

Lemma collect_map_is_Some {K V} `{Countable K} (l : list (K * V)) k v :
  (k, v) ∈ l → is_Some (collect_map l !! k).
Proof.
  unfold collect_map. induction l as [|[k' v'] l IH] using rev_ind; [by intros ?%elem_of_nil|].
  rewrite foldl_app. cbn. rewrite lookup_insert_is_Some'. set_solver.
Qed.

(** Collecting what a partial function gives on a list of keys. *)
Lemma lookup_collect_omap {K V} `{Countable K} (f : K → option V) (ks : list K) k :
  collect_map (omap (λ a, (λ s, (a, s)) <$> f a) ks) !! k =
  if bool_decide (k ∈ ks) then f k else None.
Proof.
  rewrite (lookup_collect_map _ f).
  - assert (k ∈ (omap (λ a, (λ s, (a, s)) <$> f a) ks).*1 ↔ k ∈ ks ∧ is_Some (f k)) as Hk.
    { rewrite list_elem_of_fmap. setoid_rewrite list_elem_of_omap. split.
      - intros ([k' s] & -> & k'' & Hin & E). apply fmap_Some in E as (s' & Es & [= -> ->]).
        cbn. eauto.
      - intros [Hin [s Hs]]. exists (k, s). split; [done|]. exists k. by rewrite Hs. }
    rewrite (bool_decide_ext _ _ Hk).
    repeat case_bool_decide; try tauto.
    destruct (f k) eqn:E; [|done]. exfalso. naive_solver.
  - intros k' s. rewrite list_elem_of_omap. intros (k'' & _ & E).
    by apply fmap_Some in E as (s' & Es & [= -> ->]).
Qed.
