(* ===== verification/Errors.v ===== *)
(** * Error values of the consensus crate

    [consensus/src/errors.rs]: the [Error] enum, its [Display] text, and the
    conversions that the [?] operator applies.  The errors of other crates
    (bincode, the keystore, the runtime API, RocksDB) are opaque types of
    which the code only uses the [Display] text. *)

From stdpp Require Import base strings.
From S2P Require Import Prelude.

(** Rust's [Display] trait, as [to_string]. *)
Class Display (E : Type) := to_string : E → string.

Inductive Error : Type :=
| LockFail (r : string)
| BadWitnessedEventSignature (source : string)
| SerilizationFailure (reason : string)
| SigningFailure (reason : string)
| Database (reason : string)
| NotAValidator
| Other (reason : string).

#[export] Instance error_eq_dec : EqDecision Error.
Proof. solve_decision. Defined.

Definition error_fmt (e : Error) : string :=
  match e with
  | LockFail r => "Failed locking resource " +:+ r
  | BadWitnessedEventSignature source =>
      "Received bad witnessed event signature from " +:+ source
  | SerilizationFailure reason => "Serialization failed due to " +:+ reason
  | SigningFailure reason => "Signing failed due to " +:+ reason
  | Database reason => "Database error, " +:+ reason
  | NotAValidator => "Not a validator"
  | Other reason => reason
  end.

#[export] Instance error_display : Display Error := error_fmt.

(** [impl From<Box<bincode::ErrorKind>> for Error] *)
Definition from_bincode {E} `{Display E} (e : E) : Error :=
  SerilizationFailure (to_string e).

(** [impl From<sp_keystore::Error> for Error] *)
Definition from_keystore {E} `{Display E} (e : E) : Error :=
  SigningFailure (to_string e).

(** [impl From<sp_api::ApiError> for Error] *)
Definition from_api {E} `{Display E} (e : E) : Error :=
  Other (to_string e).

(** [impl From<rocksdb::Error> for Error] ([into_string]) *)
Definition from_rocksdb {E} `{Display E} (e : E) : Error :=
  Database (to_string e).

(** ** [std::sync::Mutex]

    A mutex is poisoned once a thread panicked while holding it; [lock] then
    fails.  The [Display] text of [PoisonError] is the standard library's. *)
Record Mutex (A : Type) : Type := mkMutex {
  poisoned : bool;
  guarded : A
}.

Arguments mkMutex {A} _ _.
Arguments poisoned {A} _.
Arguments guarded {A} _.

Definition poison_display : string := "poisoned lock: another task failed inside".

(** [impl From<std::sync::PoisonError<T>> for Error] *)
Definition from_poison : Error := LockFail ("PoisonError: " +:+ poison_display).

(** [m.lock()?] with the error [e], then a body that works on the guarded
    value. *)
Definition with_lock {A B : Type} (e : Error) (body : A → result Error B * A) :
    M (Mutex A) Error B := λ m,
  if poisoned m then Ret (Err e, m)
  else let '(r, a') := body (guarded m) in Ret (r, mkMutex (poisoned m) a').

Lemma with_lock_poisoned {A B} e (body : A → result Error B * A) m :
  poisoned m = true → with_lock e body m = Ret (Err e, m).
Proof. unfold with_lock. by intros ->. Qed.

Lemma with_lock_healthy {A B} e (body : A → result Error B * A) m :
  poisoned m = false →
  with_lock e body m = Ret ((body (guarded m)).1, mkMutex false (body (guarded m)).2).
Proof.
  unfold with_lock. intros E. rewrite E. by destruct (body (guarded m)).
Qed.

