(* ===== verification/Tasks.v ===== *)
(** * Tasks that interleave

    A node runs several asynchronous tasks over the same shared objects: the
    gossip service, the remote calls of the trusted clients, the block import.
    Between any two accesses of one task to a shared object the others may run.
    This file has the tasks (trees of accesses), what a task does when it runs
    alone, systems in which any number of tasks interleave, and the logic in
    which properties of all interleavings are proved: each access is checked in
    every state that the other tasks may have produced. *)

From stdpp Require Import base decidable list relations.
From S2P Require Import Prelude Errors.

(** ** Tasks *)

(** A task is finished, or makes an access to the shared state and goes on with
    its answer.  An access that does not return in a state waits there. *)
Inductive task (S A : Type) : Type :=
| Done (a : A)
| Access {B : Type} (m : S → outcome (B * S)) (k : B → task S A).

Arguments Done {S A} a.
Arguments Access {S A B} m k.

Fixpoint task_bind {S A B} (t : task S A) (f : A → task S B) : task S B :=
  match t with
  | Done a => f a
  | Access m k => Access m (λ b, task_bind (k b) f)
  end.

(** Asynchronous functions that return a [Result]. *)
Definition T (S E A : Type) : Type := task S (result E A).

#[export] Instance T_ret S E : MRet (T S E) := λ A a, Done (Ok a).
#[export] Instance T_bind S E : MBind (T S E) := λ A B f t,
  task_bind t (λ r, match r with
                    | Ok a => f a
                    | Err e => Done (Err e)
                    end).

(** One call on a shared object. *)
Definition access {S E A} (m : M S E A) : T S E A := Access m Done.

(** The [?] operator on a value of the task's own. *)
Definition t_lift {S E A} (r : result E A) : T S E A := Done r.

(** Forgetting the result of a task, as the caller of a spawned task does. *)
Definition t_ignore {S A} (t : task S A) : task S unit := task_bind t (λ _, Done tt).

(** ** A task that runs alone *)

Fixpoint run_alone {S A} (t : task S A) (s : S) : outcome (A * S) :=
  match t with
  | Done a => Ret (a, s)
  | Access m k => '(b, s') ← m s; run_alone (k b) s'
  end.

(** ** Systems of tasks *)

Section System.
Context {S : Type}.

(** What happens without a task ([env]), and which tasks are started, with the
    change of the state that goes with it ([spawn]). *)
Context (env : S → S → Prop) (spawn : S → task S unit → S → Prop).

Abbreviation system := (S * list (task S unit))%type.

(** A task makes its next access. *)
Inductive task_moves : S → task S unit → S → task S unit → Prop :=
| TaskMoves B (m : S → outcome (B * S)) k s b s' :
    m s = Ret (b, s') → task_moves s (Access m k) s' (k b).

Inductive sys_step : system → system → Prop :=
| SysTask s ts j t s' t' :
    ts !! j = Some t → task_moves s t s' t' → sys_step (s, ts) (s', <[j := t']> ts)
| SysSpawn s ts t s' :
    spawn s t s' → sys_step (s, ts) (s', ts ++ [t])
| SysEnv s ts s' :
    env s s' → sys_step (s, ts) (s', ts).

(** The next access of a task panics. *)
Definition panics (s : S) (t : task S unit) : Prop :=
  match t with
  | Done _ => False
  | Access m _ => m s = Panic
  end.

Definition finished (t : task S unit) : bool :=
  match t with
  | Done _ => true
  | Access _ _ => false
  end.

(** One of the tasks moves, in whatever state the others have left. *)
Definition moves (ts ts' : list (task S unit)) : Prop :=
  ∃ j t t' s s', ts !! j = Some t ∧ task_moves s t s' t' ∧ ts' = <[j := t']> ts.

End System.

(** ** The logic *)

Section Logic.
Context {S : Type}.

(** The invariant of the shared state, how the state evolves, what a task itself
    may do to it, and the states in which an access may have to wait. *)
Context (Inv : S → Prop) (R : relation S) `{!PreOrder R}.
Context (G : relation S) `{!Reflexive G} `{!subrelation G R} (Wait : S → Prop).

(** [wp t Q s0]: from any state that evolved from [s0], every access of the task
    keeps the invariant, does only what a task may, does not panic and waits only
    where it may; and when it is finished, [Q] holds of its result from then on. *)
Fixpoint wp {A} (t : task S A) (Q : A → S → Prop) (s0 : S) : Prop :=
  match t with
  | Done a => ∀ s, R s0 s → Inv s → Q a s
  | Access m k => ∀ s, R s0 s → Inv s →
      match m s with
      | Ret (b, s') => G s s' ∧ Inv s' ∧ wp (k b) Q s'
      | Panic => False
      | Diverge => Wait s
      end
  end.

(** The rules look only at later states. *)
Lemma wp_later {A} (t : task S A) Q s0 :
  (∀ s, R s0 s → Inv s → wp t Q s) → wp t Q s0.
Proof. destruct t as [a|B m k]; intros Hwp s Hs HI; by apply (Hwp s Hs HI s). Qed.

Lemma wp_evolve {A} (t : task S A) Q s0 s : wp t Q s0 → R s0 s → wp t Q s.
Proof. destruct t as [a|B m k]; intros Hwp Hs s1 Hs1 HI; (apply Hwp; [by transitivity s|done]). Qed.

Lemma wp_mono {A} (t : task S A) (P Q : A → S → Prop) s0 :
  wp t P s0 → (∀ a s, R s0 s → Inv s → P a s → Q a s) → wp t Q s0.
Proof.
  revert s0. induction t as [a|B m k IH]; intros s0 Hwp HPQ s Hs HI; [by apply HPQ, Hwp|].
  specialize (Hwp s Hs HI). destruct (m s) as [[b s']| |]; [|done..].
  destruct Hwp as (HG & HI' & Hk). split_and!; [done..|]. apply IH; [done|].
  intros a s1 Hs1. apply HPQ. transitivity s; [done|]. transitivity s'; [|done].
  by apply (subrelation0 s s').
Qed.

Lemma wp_task_bind {A B} (t : task S A) (f : A → task S B) Q s0 :
  wp t (λ a s, wp (f a) Q s) s0 → wp (task_bind t f) Q s0.
Proof.
  revert s0. induction t as [a|C m k IH]; intros s0 Hwp; [by apply wp_later|].
  intros s Hs HI. specialize (Hwp s Hs HI). cbn [task_bind].
  destruct (m s) as [[c s']| |]; [|done..]. destruct Hwp as (HR & HI' & Hk).
  split_and!; [done..|]. by apply IH.
Qed.

(** What holds of a result holds from then on. *)
Lemma wp_closed {A} (t : task S A) Q s0 :
  wp t Q s0 → wp t (λ a s, ∀ s', R s s' → Inv s' → Q a s') s0.
Proof.
  revert s0. induction t as [a|B m k IH]; intros s0 Hwp s Hs HI.
  { intros s' Hs'. apply Hwp. by etrans. }
  specialize (Hwp s Hs HI). destruct (m s) as [[b s']| |]; [|done..].
  destruct Hwp as (HR & HI' & Hk). split_and!; [done..|]. by apply IH.
Qed.

(** Sequencing with [?]: an error ends the task. *)
Lemma wp_bind {E A B} (t : T S E A) (f : A → T S E B) Q s0 :
  wp t (λ r s, match r with Ok a => wp (f a) Q s | Err e => Q (Err e) s end) s0 →
  wp (t ≫= f) Q s0.
Proof.
  intros Hwp%wp_closed. apply wp_task_bind. eapply wp_mono; [exact Hwp|].
  intros [a|e] s Hs HI Hc; [by apply wp_later|exact Hc].
Qed.

Lemma wp_ret {E A} (a : A) (Q : result E A → S → Prop) s0 :
  (∀ s, R s0 s → Inv s → Q (Ok a) s) → wp (mret a : T S E A) Q s0.
Proof. done. Qed.

Lemma wp_lift {E A} (r : result E A) (Q : result E A → S → Prop) s0 :
  (∀ s, R s0 s → Inv s → Q r s) → wp (t_lift r) Q s0.
Proof. done. Qed.

(** A single access. *)
Lemma wp_access {E A} (m : M S E A) (Q : result E A → S → Prop) s0 :
  (∀ s, R s0 s → Inv s →
     match m s with
     | Ret (r, s') => G s s' ∧ Inv s' ∧ ∀ s1, R s' s1 → Inv s1 → Q r s1
     | Panic => False
     | Diverge => Wait s
     end) →
  wp (access m) Q s0.
Proof. done. Qed.

(** An access that returns in every state of the invariant. *)
Lemma wp_access_ret {E A} (m : M S E A) (Q : result E A → S → Prop) s0 :
  (∀ s, R s0 s → Inv s → ∃ r s', m s = Ret (r, s') ∧ G s s' ∧ Inv s' ∧
     ∀ s1, R s' s1 → Inv s1 → Q r s1) →
  wp (access m) Q s0.
Proof. intros Hm s Hs HI. by destruct (Hm s Hs HI) as (r & s' & -> & ?). Qed.

(** An access that only reads. *)
Lemma wp_read {E A} (f : S → result E A) (Q : result E A → S → Prop) s0 :
  (∀ s, R s0 s → Inv s → ∀ s1, R s s1 → Inv s1 → Q (f s) s1) →
  wp (access (λ s, Ret (f s, s))) Q s0.
Proof. intros Hf. apply wp_access_ret. intros s Hs HI. exists (f s), s. by split_and!; [| |auto|auto]. Qed.

Lemma wp_ignore {A} (t : task S A) Q s0 : wp t Q s0 → wp (t_ignore t) (λ _ _, True) s0.
Proof. intros Hwp. apply wp_task_bind. by eapply wp_mono. Qed.

(** ** From the logic to every interleaving *)

Context (env : S → S → Prop) (spawn : S → task S unit → S → Prop).

Abbreviation safe_in s := (λ t, wp t (λ _ _, True) s).

(** The environment and the start of a task respect the invariant, and a task is
    started where it is safe. *)
Context (env_ok : ∀ s s', env s s' → Inv s → R s s' ∧ Inv s').
Context (spawn_ok : ∀ s t s', spawn s t s' → Inv s → R s s' ∧ Inv s' ∧ safe_in s' t).

Lemma safe_evolve (ts : list (task S unit)) s s' : Forall (safe_in s) ts → R s s' → Forall (safe_in s') ts.
Proof. intros Hts HR. eapply Forall_impl; [exact Hts|]. intros t Ht. exact (wp_evolve t _ s s' Ht HR). Qed.

Definition sys_ok (x : S * list (task S unit)) : Prop := Inv x.1 ∧ Forall (safe_in x.1) x.2.

Lemma sys_step_ok x x' : sys_step env spawn x x' → sys_ok x → sys_ok x' ∧ R x.1 x'.1.
Proof.
  intros [s ts j t s' t' Hj Hmove|s ts t s' Hspawn|s ts s' Henv] [HI Hts]; cbn in *.
  - destruct Hmove as [B m k s b s' Hm]. pose proof (Forall_lookup_1 _ _ _ _ Hts Hj s) as Ht.
    rewrite Hm in Ht. destruct Ht as (HG & HI' & Hk); [done..|].
    assert (R s s') as HR by by apply (subrelation0 s s'). split; [|done]. split; [done|]. cbn.
    apply Forall_insert; [|done]. by eapply safe_evolve.
  - destruct (spawn_ok _ _ _ Hspawn HI) as (HR & HI' & Ht). split; [|done]. split; [done|]. cbn.
    apply Forall_app. split; [|by constructor].
    by eapply safe_evolve.
  - destruct (env_ok _ _ Henv HI) as [HR HI']. split; [|done]. split; [done|]. cbn.
    by eapply safe_evolve.
Qed.

(** What one step does to the shared state. *)
Lemma sys_step_does x x' :
  sys_step env spawn x x' → sys_ok x →
  G x.1 x'.1 ∨ env x.1 x'.1 ∨ ∃ t, spawn x.1 t x'.1.
Proof.
  intros [s ts j t s' t' Hj Hmove|s ts t s' Hspawn|s ts s' Henv] [HI Hts]; cbn in *; [|by eauto..].
  left. destruct Hmove as [B m k s b s' Hm]. pose proof (Forall_lookup_1 _ _ _ _ Hts Hj s) as Ht.
  rewrite Hm in Ht. by destruct Ht.
Qed.

Lemma sys_steps_ok x x' : rtc (sys_step env spawn) x x' → sys_ok x → sys_ok x' ∧ R x.1 x'.1.
Proof.
  induction 1 as [|x y x' Hstep _ IH]; intros Hok; [done|].
  destruct (sys_step_ok _ _ Hstep Hok) as [Hy HR]. destruct (IH Hy) as [? ?]. split; [done|]. by etrans.
Qed.

(** In every reachable state the invariant holds, no task is about to panic, and
    each is finished, can make its next access, or waits where it may. *)
Lemma sys_progress x x' :
  rtc (sys_step env spawn) x x' → sys_ok x →
  Inv x'.1 ∧
  Forall (λ t, ¬ panics x'.1 t ∧
    (finished t ∨ (∃ s' t', task_moves x'.1 t s' t') ∨ Wait x'.1)) x'.2.
Proof.
  intros Hsteps Hok. destruct (sys_steps_ok _ _ Hsteps Hok) as [[HI Hts] _]. split; [done|].
  eapply Forall_impl; [exact Hts|]. intros [a|B m k] Ht; cbn; [by auto|].
  specialize (Ht x'.1 (reflexivity _) HI). destruct (m x'.1) as [[b s']| |] eqn:Em; [|done|by auto].
  split; [done|]. right; left. exists s', (k b). by constructor.
Qed.

End Logic.

(** ** Every schedule of a number of tasks ends *)

Section Termination.
Context {S : Type}.
Implicit Types (t : task S unit) (ts : list (task S unit)).

Abbreviation one_moves := (λ t' t, ∃ s s', task_moves (S := S) s t s' t').

Lemma task_moves_acc t : Acc one_moves t.
Proof.
  induction t as [a|B m k IH]; constructor; intros t' (s & s' & Hmove); [by inversion Hmove|].
  remember (Access m k) as t eqn:Et. destruct Hmove as [C m' k' s c s' _].
  pose proof (f_equal (λ t, match t with Done _ => True | @Access _ _ B _ k => ∀ b : B, Acc one_moves (k b) end) Et)
    as E. cbn in E. revert c. by rewrite E.
Qed.

Lemma moves_acc ts : Acc (flip moves) ts.
Proof.
  induction ts as [|t ts IH]; [constructor; intros ts' (j & t & t' & s & s' & Hj & _); by rewrite lookup_nil in Hj|].
  revert ts IH. induction (task_moves_acc t) as [t _ IHt]. intros ts Hts.
  induction Hts as [ts Hacc IHts]. constructor. intros ts' (j & u & u' & s & s' & Hj & Hmove & ->).
  destruct j as [|j]; cbn in *.
  - injection Hj as ->. apply IHt; [by exists s, s'|by constructor].
  - apply IHts. by exists j, u, u', s, s'.
Qed.

End Termination.

(** ** Running alone is a morphism to the sequential calls *)

Section Alone.
Context {S : Type}.

Lemma run_alone_task_bind {A B} (t : task S A) (f : A → task S B) s :
  run_alone (task_bind t f) s = '(a, s') ← run_alone t s; run_alone (f a) s'.
Proof.
  revert s. induction t as [a|C m k IH]; intros s; [done|]. cbn [task_bind run_alone].
  destruct (m s) as [[c s']| |]; [|done..]. cbn. apply IH.
Qed.

Context {E : Type}.

Lemma run_alone_bind {A B} (t : T S E A) (f : A → T S E B) s :
  run_alone (t ≫= f) s = ((run_alone t : M S E A) ≫= λ a, (run_alone (f a) : M S E B)) s.
Proof.
  unfold mbind at 1, T_bind. rewrite run_alone_task_bind. unfold mbind, M_bind, outcome_bind.
  by destruct (run_alone t s) as [[[a|e] s']| |].
Qed.

Lemma run_alone_access {A} (m : M S E A) s : run_alone (access m) s = m s.
Proof. cbn. by destruct (m s) as [[r s']| |]. Qed.

(** One of the interleavings: a task of a system runs to its end without the
    others. *)
Lemma run_alone_steps env spawn (ts : list (task S unit)) j t s a s' :
  ts !! j = Some t → run_alone t s = Ret (a, s') →
  rtc (sys_step env spawn) (s, ts) (s', <[j := Done a]> ts).
Proof.
  revert ts s. induction t as [a1|B m k IH]; cbn [run_alone]; intros ts s Hj Hrun.
  { injection Hrun as <- <-. rewrite list_insert_id by done. apply rtc_refl. }
  destruct (m s) as [[b s1]| |] eqn:Em; [|done..]. rewrite outcome_ret_bind in Hrun.
  eapply rtc_l; [exact (SysTask env spawn s ts j _ _ _ Hj (TaskMoves B m k s b s1 Em))|].
  rewrite <- (list_insert_insert_eq ts j (Done a) (k b)). apply (IH b); [|done].
  apply list_lookup_insert_eq. by eapply lookup_lt_Some.
Qed.

End Alone.
