(* ===== verification/Config.v ===== *)
(** * Network configuration of a Validated Streams node

    [consensus/src/config.rs]: [PortOrOffset], its application to a port and
    to a [Multiaddr], its [Display] text and its parser.  The integer parser
    and the [Display] text of integers are the standard library's.  A
    [libp2p::Multiaddr] is an interface: [pop] and [push] work at the end of
    its sequence of protocols. *)

From stdpp Require Import base list strings numbers pretty.
From Stdlib Require Import Ascii Strings.Byte ZArith Lia.
From S2P Require Import Prelude.
Local Open Scope Z_scope.

(** ** [i16::from_str] and [u16::from_str] *)

Inductive IntErrorKind : Type := Empty | InvalidDigit | PosOverflow | NegOverflow.

#[export] Instance int_error_eq_dec : EqDecision IntErrorKind.
Proof. solve_decision. Defined.

(** [char::to_digit(10)] *)
Definition to_digit (c : Ascii.ascii) : option Z :=
  let n := Z.of_N (Ascii.N_of_ascii c) in
  if (48 <=? n) && (n <=? 57) then Some (n - 48) else None.

Fixpoint digits_pos (max acc : Z) (s : string) : result IntErrorKind Z :=
  match s with
  | EmptyString => Ok acc
  | String c rest =>
      match to_digit c with
      | None => Err InvalidDigit
      | Some d =>
          if max <? acc * 10 then Err PosOverflow
          else if max <? acc * 10 + d then Err PosOverflow
          else digits_pos max (acc * 10 + d) rest
      end
  end.

Fixpoint digits_neg (min acc : Z) (s : string) : result IntErrorKind Z :=
  match s with
  | EmptyString => Ok acc
  | String c rest =>
      match to_digit c with
      | None => Err InvalidDigit
      | Some d =>
          if acc * 10 <? min then Err NegOverflow
          else if acc * 10 - d <? min then Err NegOverflow
          else digits_neg min (acc * 10 - d) rest
      end
  end.

Definition int_from_str (signed : bool) (min max : Z) (s : string) : result IntErrorKind Z :=
  match s with
  | EmptyString => Err Empty
  | String c EmptyString =>
      if bool_decide (c = "+"%char ∨ c = "-"%char) then Err InvalidDigit
      else digits_pos max 0 s
  | String c rest =>
      if bool_decide (c = "+"%char) then digits_pos max 0 rest
      else if signed && bool_decide (c = "-"%char) then digits_neg min 0 rest
      else digits_pos max 0 s
  end.

Definition i16_from_str : string → result IntErrorKind Z := int_from_str true i16_min i16_max.
Definition u16_from_str : string → result IntErrorKind Z := int_from_str false 0 u16_max.

(** ** [PortOrOffset] *)

Inductive PortOrOffset : Type :=
| Port (port : Z)
| Offset (offset : Z).

#[export] Instance port_or_offset_eq_dec : EqDecision PortOrOffset.
Proof. solve_decision. Defined.

(** The fields are a [u16] and an [i16]. *)
Definition wf_port_or_offset (p : PortOrOffset) : Prop :=
  match p with
  | Port port => 0 ≤ port ≤ u16_max
  | Offset offset => i16_min ≤ offset ≤ i16_max
  end.

(** [u16::saturating_add_signed] *)
Definition saturating_add_signed (x offset : Z) : Z :=
  Z.max 0 (Z.min u16_max (x + offset)).

Definition adjust_port (self : PortOrOffset) (port : Z) : Z :=
  match self with
  | Port port' => port'
  | Offset offset => saturating_add_signed port offset
  end.

(** Unary minus on an [i16]: with overflow checks (a debug build) the
    negation of [i16::MIN] panics, without them (a release build) it wraps. *)
Definition neg_i16 (overflow_checks : bool) (x : Z) : outcome Z :=
  if x =? i16_min then if overflow_checks then Panic else Ret i16_min
  else Ret (- x).

Definition port_or_offset_fmt (overflow_checks : bool) (self : PortOrOffset) : outcome string :=
  match self with
  | Port port => Ret (pretty port)
  | Offset offset =>
      if 0 <=? offset then Ret ("+" +:+ pretty offset)
      else n ← neg_i16 overflow_checks offset; Ret ("-" +:+ pretty n)
  end.

Definition port_or_offset_from_str (overflow_checks : bool) (s : string) :
    outcome (result IntErrorKind PortOrOffset) :=
  match s with
  | String "+"%char chars => Ret (Offset <$> i16_from_str chars)
  | String "-"%char chars =>
      match i16_from_str chars with
      | Ok n => n' ← neg_i16 overflow_checks n; Ret (Ok (Offset n'))
      | Err e => Ret (Err e)
      end
  | _ => Ret (Port <$> u16_from_str s)
  end.

(** ** [Multiaddr]

    The components of an address: the transport ports and the peer id that
    the code looks at; every other protocol is kept as its encoding. *)
Inductive Protocol : Type :=
| Udp (port : Z)
| Tcp (port : Z)
| P2p (peer : list byte)
| OtherProtocol (encoding : list byte).

#[export] Instance protocol_eq_dec : EqDecision Protocol.
Proof. solve_decision. Defined.

(** [Multiaddr::iter], [Multiaddr::pop] and [Multiaddr::push]. *)
Class MultiaddrOps (Addr : Type) := {
  addr_iter : Addr → list Protocol;
  addr_pop : Addr → option Protocol * Addr;
  addr_push : Protocol → Addr → Addr
}.

Class MultiaddrLaws (Addr : Type) `{MultiaddrOps Addr} : Prop := {
  addr_iter_push p a : addr_iter (addr_push p a) = addr_iter a ++ [p];
  addr_pop_nil a : addr_iter a = [] → (addr_pop a).1 = None ∧ addr_iter (addr_pop a).2 = [];
  addr_pop_snoc a l p : addr_iter a = l ++ [p] →
    (addr_pop a).1 = Some p ∧ addr_iter (addr_pop a).2 = l
}.

Section AdjustMultiaddr.
Context {Addr : Type} `{MultiaddrOps Addr}.

(** The [loop] of [adjust_multiaddr]: the components popped so far, and the
    address that is left. *)
Fixpoint pop_to_port (fuel : nat) (self : PortOrOffset) (addr : Addr) (protocols : list Protocol) :
    list Protocol * Addr :=
  match fuel with
  | O => (protocols, addr)
  | S fuel' =>
      match addr_pop addr with
      | (Some (Udp port), addr') => (protocols ++ [Udp (adjust_port self port)], addr')
      | (Some (Tcp port), addr') => (protocols ++ [Tcp (adjust_port self port)], addr')
      | (Some protocol, addr') => pop_to_port fuel' self addr' (protocols ++ [protocol])
      | (None, addr') => (protocols, addr')
      end
  end.

Definition adjust_multiaddr (self : PortOrOffset) (addr : Addr) : Addr :=
  let '(protocols, addr') := pop_to_port (S (length (addr_iter addr))) self addr [] in
  foldl (λ a protocol, addr_push protocol a) addr' protocols.

End AdjustMultiaddr.

(** A [Multiaddr] as its sequence of protocols. *)
#[export] Instance list_multiaddr_ops : MultiaddrOps (list Protocol) := {|
  addr_iter a := a;
  addr_pop a := (last a, take (pred (length a)) a);
  addr_push p a := a ++ [p]
|}.

(** ** Printing and parsing integers *)

Lemma to_digit_pretty_N_char (d : N) :
  (d < 10)%N → to_digit (pretty_N_char d) = Some (Z.of_N d).
Proof.
  intros Hd.
  assert (d = 0 ∨ d = 1 ∨ d = 2 ∨ d = 3 ∨ d = 4 ∨ d = 5 ∨ d = 6 ∨ d = 7 ∨ d = 8 ∨ d = 9)%N
    as Hcases by lia.
  by destruct Hcases as [->|[->|[->|[->|[->|[->|[->|[->|[->| ->]]]]]]]]].
Qed.

Lemma digits_pos_pretty_go (max : Z) (x : N) (s : string) :
  Z.of_N x ≤ max → digits_pos max 0 (pretty_N_go x s) = digits_pos max (Z.of_N x) s.
Proof.
  revert s. induction (N.lt_wf_0 x) as [x _ IH]; intros s Hx.
  assert (x = 0 ∨ 0 < x)%N as [->|Hpos] by lia.
  { by rewrite pretty_N_go_0. }
  rewrite pretty_N_go_step by done.
  pose proof (N.div_mod x 10 ltac:(done)) as Hdm.
  pose proof (N.mod_lt x 10 ltac:(done)) as Hm.
  pose proof (N2Z.is_nonneg (x `mod` 10)) as Hm0.
  pose proof (N2Z.is_nonneg (x `div` 10)) as Hd0.
  rewrite IH; [|by apply N.div_lt|lia]. cbn [digits_pos].
  rewrite to_digit_pretty_N_char by done.
  replace (Z.of_N (x `div` 10) * 10 + Z.of_N (x `mod` 10)) with (Z.of_N x) by lia.
  destruct (Z.ltb_spec max (Z.of_N (x `div` 10) * 10)); [lia|].
  destruct (Z.ltb_spec max (Z.of_N x)); [lia|done].
Qed.

(** The text of a non-negative integer starts with a digit. *)
Lemma pretty_N_go_head (x : N) (s : string) :
  (0 < x)%N → ∃ d rest, pretty_N_go x s = String (pretty_N_char d) rest ∧ (d < 10)%N.
Proof.
  revert s. induction (N.lt_wf_0 x) as [x _ IH]; intros s Hpos.
  rewrite pretty_N_go_step by done.
  pose proof (N.mod_lt x 10 ltac:(done)) as Hm.
  destruct (N.eq_0_gt_0_cases (x `div` 10)%N) as [E|Hq].
  - rewrite E, pretty_N_go_0. by eexists _, _.
  - apply IH; [by apply N.div_lt|done].
Qed.

Lemma digits_pos_pretty (max x : Z) :
  0 ≤ x ≤ max → digits_pos max 0 (pretty x) = Ok x.
Proof.
  intros Hx. destruct x as [|p|p]; [|..|lia].
  - change (pretty 0) with (String "0"%char EmptyString). cbn [digits_pos].
    change (to_digit "0"%char) with (Some 0). cbn.
    change (0 * 10 + 0) with 0. change (0 * 10) with 0.
    destruct (Z.ltb_spec max 0); [lia|done].
  - change (pretty (Z.pos p)) with (pretty_N_go (N.pos p) "").
    rewrite digits_pos_pretty_go by lia. done.
Qed.

Lemma pretty_head (x : Z) :
  0 ≤ x → ∃ d rest, pretty x = String (pretty_N_char d) rest ∧ (d < 10)%N.
Proof.
  intros Hx. destruct x as [|p|p]; [|..|lia].
  - by exists 0%N, "".
  - change (pretty (Z.pos p)) with (pretty_N_go (N.pos p) "").
    by apply pretty_N_go_head.
Qed.

Lemma pretty_N_char_not_sign (d : N) :
  pretty_N_char d ≠ "+"%char ∧ pretty_N_char d ≠ "-"%char.
Proof. unfold pretty_N_char. by repeat case_match. Qed.

Lemma int_from_str_pretty (signed : bool) (min max x : Z) :
  0 ≤ x ≤ max → int_from_str signed min max (pretty x) = Ok x.
Proof.
  intros Hx. rewrite <- (digits_pos_pretty max x) by done.
  destruct (pretty_head x) as (d & rest & -> & Hd); [lia|].
  destruct (pretty_N_char_not_sign d) as [Hp Hm]. unfold int_from_str.
  destruct rest as [|c rest].
  - by rewrite bool_decide_eq_false_2 by tauto.
  - rewrite !bool_decide_eq_false_2 by done. by rewrite andb_false_r.
Qed.

Lemma digits_pos_range (max acc : Z) (s : string) (n : Z) :
  0 ≤ acc ≤ max → digits_pos max acc s = Ok n → 0 ≤ n ≤ max.
Proof.
  revert acc. induction s as [|c s IH]; intros acc Hacc; cbn.
  - by intros [= <-].
  - destruct (to_digit c) as [d|] eqn:Ed; [|done].
    assert (0 ≤ d) by (unfold to_digit in Ed; case_match; simplify_eq; lia).
    destruct (Z.ltb_spec max (acc * 10)); [done|].
    destruct (Z.ltb_spec max (acc * 10 + d)); [done|].
    apply IH. lia.
Qed.

Lemma digits_neg_range (min acc : Z) (s : string) (n : Z) :
  min ≤ acc ≤ 0 → digits_neg min acc s = Ok n → min ≤ n ≤ 0.
Proof.
  revert acc. induction s as [|c s IH]; intros acc Hacc; cbn.
  - by intros [= <-].
  - destruct (to_digit c) as [d|] eqn:Ed; [|done].
    assert (0 ≤ d) by (unfold to_digit in Ed; case_match; simplify_eq; lia).
    destruct (Z.ltb_spec (acc * 10) min); [done|].
    destruct (Z.ltb_spec (acc * 10 - d) min); [done|].
    apply IH. lia.
Qed.

Lemma int_from_str_range signed min max s n :
  min ≤ 0 ≤ max → int_from_str signed min max s = Ok n → min ≤ n ≤ max.
Proof.
  intros Hr. unfold int_from_str.
  repeat case_match; intros HOk; try done;
    first [apply digits_pos_range in HOk; lia | apply digits_neg_range in HOk; lia].
Qed.

(** ** [PortOrOffset] as text *)

Lemma neg_i16_ret (checks : bool) (x : Z) :
  x ≠ i16_min → neg_i16 checks x = Ret (- x).
Proof. unfold neg_i16. intros Hx. by rewrite (proj2 (Z.eqb_neq _ _) Hx). Qed.

Lemma from_str_unsigned (checks : bool) (c : ascii) (rest : string) :
  c ≠ "+"%char → c ≠ "-"%char →
  port_or_offset_from_str checks (String c rest) = Ret (Port <$> u16_from_str (String c rest)).
Proof.
  intros Hp Hm. unfold port_or_offset_from_str.
  destruct c as [[] [] [] [] [] [] [] []]; try done; exfalso; by (apply Hp || apply Hm).
Qed.

Lemma from_str_plus (checks : bool) (rest : string) :
  port_or_offset_from_str checks ("+" +:+ rest) = Ret (Offset <$> i16_from_str rest).
Proof. done. Qed.

Lemma from_str_minus (checks : bool) (rest : string) :
  port_or_offset_from_str checks ("-" +:+ rest) =
    match i16_from_str rest with
    | Ok n => n' ← neg_i16 checks n; Ret (Ok (Offset n'))
    | Err e => Ret (Err e)
    end.
Proof. done. Qed.

Lemma minus_inj (r r' : string) : "-" +:+ r = "-" +:+ r' → r = r'.
Proof. intros [= E]. exact E. Qed.

(** What [Display] prints for a [PortOrOffset], [FromStr] reads back, in
    a debug and in a release build.  The one value left out is
    [Offset(i16::MIN)] in a build with overflow checks, whose [Display]
    negates it. *)
Theorem port_or_offset_roundtrip (checks : bool) (p : PortOrOffset) :
  wf_port_or_offset p → (checks = true → p ≠ Offset i16_min) →
  ∃ s, port_or_offset_fmt checks p = Ret s ∧ port_or_offset_from_str checks s = Ret (Ok p).
Proof.
  intros Hwf Hmin. destruct p as [port|offset]; cbn in Hwf |- *.
  - exists (pretty port). split; [done|].
    destruct (pretty_head port) as (d & rest & E & Hd); [lia|].
    destruct (pretty_N_char_not_sign d). rewrite E, from_str_unsigned, <- E by done.
    unfold u16_from_str. by rewrite int_from_str_pretty.
  - destruct (Z.leb_spec 0 offset) as [Hpos|Hneg].
    + eexists; split; [done|]. rewrite from_str_plus. unfold i16_from_str.
      by rewrite int_from_str_pretty by (unfold i16_max in *; lia).
    + destruct (decide (offset = i16_min)) as [->|Hne].
      { destruct checks; [by destruct Hmin|]. by exists "--32768". }
      rewrite neg_i16_ret by done. eexists; split; [done|].
      rewrite from_str_minus. unfold i16_from_str.
      rewrite int_from_str_pretty by (unfold i16_min, i16_max in *; lia).
      cbn. rewrite neg_i16_ret by (unfold i16_min; lia). cbn.
      by rewrite Z.opp_involutive.
Qed.

Lemma port_or_offset_roundtrip_witness :
  ∃ s, port_or_offset_fmt true (Offset (-10)) = Ret s ∧
       port_or_offset_from_str true s = Ret (Ok (Offset (-10))).
Proof.
  apply (port_or_offset_roundtrip true (Offset (-10))).
  - split; vm_compute; discriminate.
  - discriminate.
Defined.

(** C40: Every [PortOrOffset] that parsing returns has its number in the range
    of its Rust type, and parsing panics exactly when overflow checks are on
    and the text is a minus sign followed by a spelling of [i16::MIN]. *)
Theorem port_or_offset_from_str_total (checks : bool) (s : string) :
  (∀ p, port_or_offset_from_str checks s = Ret (Ok p) → wf_port_or_offset p) ∧
  (port_or_offset_from_str checks s = Panic ↔
     checks = true ∧ ∃ rest, s = "-" +:+ rest ∧ i16_from_str rest = Ok i16_min).
Proof.
  assert (∀ r n, i16_from_str r = Ok n → i16_min ≤ n ≤ i16_max) as Hi.
  { intros r n. by apply int_from_str_range. }
  assert (∀ r n, u16_from_str r = Ok n → 0 ≤ n ≤ u16_max) as Hu.
  { intros r n. by apply int_from_str_range. }
  assert (s = "" ∨ (∃ r, s = "+" +:+ r) ∨ (∃ r, s = "-" +:+ r) ∨
          ∃ c r, s = String c r ∧ c ≠ "+"%char ∧ c ≠ "-"%char) as Hs.
  { destruct s as [|c r]; [by left|].
    destruct (decide (c = "+"%char)) as [->|]; [right; left; by exists r|].
    destruct (decide (c = "-"%char)) as [->|]; [right; right; left; by exists r|].
    right; right; right. by exists c, r. }
  destruct Hs as [->|[[r ->]|[[r ->]|(c & r & -> & Hp & Hm)]]].
  - split; [by intros|]. split; [done|]. by intros (_ & rest & ? & _).
  - rewrite from_str_plus. split.
    + intros p. destruct (i16_from_str r) eqn:E; [|done]. intros [= <-]. by eapply Hi.
    + split; [done|]. by intros (_ & rest & ? & _).
  - rewrite from_str_minus. destruct (i16_from_str r) as [n|e] eqn:E.
    + pose proof (Hi r n E) as Hn. destruct (decide (n = i16_min)) as [->|Hne].
      * unfold neg_i16. rewrite Z.eqb_refl. destruct checks; cbn.
        -- split; [done|]. split; [intros _|done]. split; [done|]. by exists r.
        -- split; [by intros p [= <-]|]. split; [done|]. by intros [? _].
      * rewrite neg_i16_ret by done. cbn. split.
        -- intros p [= <-]. cbn. unfold i16_min, i16_max in *. lia.
        -- split; [done|]. intros (_ & rest & Er & E'). apply minus_inj in Er as ->. congruence.
    + split; [done|]. split; [done|]. intros (_ & rest & Er & E'). apply minus_inj in Er as ->. congruence.
  - rewrite from_str_unsigned by done. split.
    + intros p. destruct (u16_from_str (String c r)) eqn:E; [|done].
      intros [= <-]. by eapply Hu.
    + split; [done|]. intros (_ & rest & Er & _). injection Er as Ec _. by destruct Hm.
Qed.

(** ** Adjusting ports and addresses *)

(** An adjusted port is a [u16]; an offset moves it by exactly the offset
    when that stays in range, and otherwise to the nearer end of the range. *)
Theorem adjust_port_correct (self : PortOrOffset) (port : Z) :
  wf_port_or_offset self → 0 ≤ port ≤ u16_max →
  0 ≤ adjust_port self port ≤ u16_max ∧
  match self with
  | Port p => adjust_port self port = p
  | Offset o =>
      (port + o < 0 → adjust_port self port = 0) ∧
      (0 ≤ port + o ≤ u16_max → adjust_port self port = port + o) ∧
      (u16_max < port + o → adjust_port self port = u16_max)
  end.
Proof.
  intros Hwf Hport. destruct self as [p|o]; cbn in *; [done|].
  unfold saturating_add_signed, u16_max in *. lia.
Qed.

Lemma adjust_port_correct_witness :
  wf_port_or_offset (Offset 10) ∧ 0 ≤ adjust_port (Offset 10) 30333 ≤ u16_max.
Proof.
  split; [vm_compute; split; discriminate|].
  apply (adjust_port_correct (Offset 10) 30333); vm_compute; split; discriminate.
Defined.

Definition is_transport (p : Protocol) : bool :=
  match p with
  | Udp _ | Tcp _ => true
  | _ => false
  end.

Definition adjust_transport (self : PortOrOffset) (p : Protocol) : Protocol :=
  match p with
  | Udp port => Udp (adjust_port self port)
  | Tcp port => Tcp (adjust_port self port)
  | _ => p
  end.

#[export] Instance list_multiaddr_laws : MultiaddrLaws (list Protocol).
Proof.
  split; cbn; [done|by intros a ->|].
  intros a l p ->. rewrite last_snoc, length_app, take_app_le by (cbn; lia).
  split; [done|]. apply take_ge. cbn. lia.
Qed.

Section AdjustMultiaddrFacts.
Context {Addr : Type} `{MultiaddrLaws Addr}.

Lemma foldl_push (protocols : list Protocol) (a : Addr) :
  addr_iter (foldl (λ a protocol, addr_push protocol a) a protocols) =
  addr_iter a ++ protocols.
Proof.
  revert a. induction protocols as [|p ps IH]; intros a; cbn; [by rewrite app_nil_r|].
  by rewrite IH, addr_iter_push, <- (assoc_L (++)).
Qed.

(** The loop pops the components behind the last transport, last first, and
    then that transport. *)
Lemma pop_to_port_found (self : PortOrOffset) (suf pre : list Protocol) (t : Protocol)
    (fuel : nat) (a : Addr) (acc : list Protocol) :
  addr_iter a = pre ++ t :: suf → is_transport t = true →
  Forall (λ p, is_transport p = false) suf → (length suf < fuel)%nat →
  (pop_to_port fuel self a acc).1 = acc ++ reverse suf ++ [adjust_transport self t] ∧
  addr_iter (pop_to_port fuel self a acc).2 = pre.
Proof.
  revert fuel a acc. induction suf as [|q suf IH] using rev_ind;
    intros fuel a acc Ha Ht Hsuf Hfuel; (destruct fuel as [|fuel]; [lia|]).
  - destruct (addr_pop_snoc a pre t Ha) as [E1 E2]. cbn.
    destruct (addr_pop a) as [o a']. cbn in E1, E2. subst o.
    by destruct t; cbn in *.
  - apply Forall_app in Hsuf as [Hsuf Hq]. rewrite Forall_singleton in Hq.
    rewrite app_comm_cons, (assoc_L (++)) in Ha.
    destruct (addr_pop_snoc a _ q Ha) as [E1 E2].
    destruct (IH fuel (addr_pop a).2 (acc ++ [q]) E2 Ht Hsuf) as [R1 R2];
      [rewrite length_app in Hfuel; cbn in Hfuel; lia|].
    cbn [pop_to_port]. destruct (addr_pop a) as [o a']. cbn in E1, R1, R2. subst o.
    rewrite reverse_snoc. rewrite <- (assoc_L (++)) in R1.
    by destruct q; cbn in *.
Qed.

Lemma pop_to_port_none (self : PortOrOffset) (l : list Protocol) (fuel : nat) (a : Addr)
    (acc : list Protocol) :
  addr_iter a = l → Forall (λ p, is_transport p = false) l → (length l < fuel)%nat →
  (pop_to_port fuel self a acc).1 = acc ++ reverse l ∧
  addr_iter (pop_to_port fuel self a acc).2 = [].
Proof.
  revert fuel a acc. induction l as [|q l IH] using rev_ind;
    intros fuel a acc Ha Hl Hfuel; (destruct fuel as [|fuel]; [lia|]).
  - destruct (addr_pop_nil a Ha) as [E1 E2]. cbn.
    destruct (addr_pop a) as [o a']. cbn in E1, E2. subst o. cbn. by rewrite app_nil_r.
  - apply Forall_app in Hl as [Hl Hq]. rewrite Forall_singleton in Hq.
    destruct (addr_pop_snoc a _ q Ha) as [E1 E2].
    destruct (IH fuel (addr_pop a).2 (acc ++ [q]) E2 Hl) as [R1 R2];
      [rewrite length_app in Hfuel; cbn in Hfuel; lia|].
    cbn [pop_to_port]. destruct (addr_pop a) as [o a']. cbn in E1, R1, R2. subst o.
    rewrite reverse_snoc. rewrite <- (assoc_L (++)) in R1.
    by destruct q; cbn in *.
Qed.

Lemma adjust_multiaddr_found self a pre t suf :
  addr_iter a = pre ++ t :: suf → is_transport t = true →
  Forall (λ p, is_transport p = false) suf →
  addr_iter (adjust_multiaddr self a) = pre ++ reverse suf ++ [adjust_transport self t].
Proof.
  intros Ha Ht Hsuf. unfold adjust_multiaddr.
  destruct (pop_to_port_found self suf pre t (S (length (addr_iter a))) a [] Ha Ht Hsuf)
    as [R1 R2]; [rewrite Ha, length_app; cbn; lia|].
  destruct (pop_to_port _ self a []) as [ps a']. cbn in R1, R2.
  by rewrite foldl_push, R1, R2.
Qed.

(** [adjust_multiaddr] adjusts the last TCP or UDP port of an address and
    moves it to the end, behind the components that followed it, which come
    out in reverse order; an address without a port comes out reversed. *)
Theorem adjust_multiaddr_components (self : PortOrOffset) (a : Addr) :
  (∀ pre t suf, addr_iter a = pre ++ t :: suf → is_transport t = true →
     Forall (λ p, is_transport p = false) suf →
     addr_iter (adjust_multiaddr self a) = pre ++ reverse suf ++ [adjust_transport self t]) ∧
  (Forall (λ p, is_transport p = false) (addr_iter a) →
     addr_iter (adjust_multiaddr self a) = reverse (addr_iter a)).
Proof.
  split; [intros pre t suf; apply adjust_multiaddr_found|]. unfold adjust_multiaddr.
  intros Hl.
  destruct (pop_to_port_none self _ (S (length (addr_iter a))) a [] eq_refl Hl) as [R1 R2]; [lia|].
  destruct (pop_to_port _ self a []) as [ps a']. cbn in R1, R2.
  by rewrite foldl_push, R1, R2.
Qed.

End AdjustMultiaddrFacts.

(** The address of a boot node, with the peer id behind the port. *)
Definition boot_node_addr : list Protocol := [OtherProtocol []; Tcp 30333; P2p []].

Lemma adjust_multiaddr_components_witness :
  addr_iter (adjust_multiaddr (Offset 10) boot_node_addr) =
    [OtherProtocol []] ++ reverse [P2p []] ++ [adjust_transport (Offset 10) (Tcp 30333)] ∧
  adjust_multiaddr (Offset 10) boot_node_addr = [OtherProtocol []; P2p []; Tcp 30343].
Proof.
  split; [|reflexivity].
  apply (proj1 (adjust_multiaddr_components (Offset 10) boot_node_addr)
    [OtherProtocol []] (Tcp 30333) [P2p []]); [reflexivity|reflexivity|].
  repeat constructor.
Defined.
