(* ===== verification/Proofs.v ===== *)
(** * Event proofs: the data and the storage trait

    [consensus/src/proofs/mod.rs]: [WitnessedEvent], the trait
    [EventProofsTrait] as a class, and what an implementation of it promises
    to its clients ([EventProofsSpec]).  The bincode encodings the crate uses
    are an interface with the documented round trips. *)

From stdpp Require Import base decidable countable list gmap strings.
From Stdlib Require Import Strings.Byte ZArith Lia.
From S2P Require Import Prelude Errors.

(** ** Data *)

(** [sp_core::crypto::CryptoTypeId], four bytes. *)
Definition CryptoTypeId : Type := byte * byte * byte * byte.

(** [sp_core::crypto::CryptoTypePublicPair(CryptoTypeId, Vec<u8>)] *)
Record CryptoTypePublicPair := mkPair {
  pair_type : CryptoTypeId;
  pair_public : list byte
}.

#[export] Instance pair_eq_dec : EqDecision CryptoTypePublicPair.
Proof. solve_decision. Defined.
#[export] Program Instance pair_countable : Countable CryptoTypePublicPair :=
  inj_countable' (λ p, (pair_type p, pair_public p)) (λ '(t, b), mkPair t b) _.
Next Obligation. by intros []. Qed.

Record WitnessedEvent := mkWitnessed {
  signature : list byte;
  pub_key : CryptoTypePublicPair;
  event_id : H256
}.

#[export] Instance witnessed_event_eq_dec : EqDecision WitnessedEvent.
Proof. solve_decision. Defined.

(** ** bincode

    [bincode::serialize] and [bincode::deserialize] at the three types the
    crate encodes: a public key, a list of public keys, a witnessed event. *)
Class Bincode := {
  bincode_error : Type;
  bincode_error_display :: Display bincode_error;
  ser_key : CryptoTypePublicPair → result bincode_error (list byte);
  de_key : list byte → result bincode_error CryptoTypePublicPair;
  ser_keys : list CryptoTypePublicPair → result bincode_error (list byte);
  de_keys : list byte → result bincode_error (list CryptoTypePublicPair);
  ser_event : WitnessedEvent → result bincode_error (list byte);
  de_event : list byte → result bincode_error WitnessedEvent
}.

(** Documented behaviour: what was serialized deserializes to the same value;
    the encodings of these types have no size limit and do not fail; a public
    key has a non-empty encoding (four type bytes and a length). *)
Class BincodeLaws `{Bincode} : Prop := {
  ser_key_total k : ∃ b, ser_key k = Ok b;
  ser_key_nonempty k b : ser_key k = Ok b → b ≠ [];
  de_ser_key k b : ser_key k = Ok b → de_key b = Ok k;
  ser_keys_total ks : ∃ b, ser_keys ks = Ok b;
  de_ser_keys ks b : ser_keys ks = Ok b → de_keys b = Ok ks;
  ser_event_total ev : ∃ b, ser_event ev = Ok b;
  de_ser_event ev b : ser_event ev = Ok b → de_event b = Ok ev
}.

(** The key under which the persistent stores keep a signature:
    [[event_id.as_ref(), &bincode].concat()]. *)
Definition proof_key (e : H256) (b : list byte) : list byte := as_bytes e ++ b.

(** ** The storage trait *)

Class EventProofsTrait (Store : Type) := {
  add_event_proof : WitnessedEvent → M Store Error unit;
  get_event_proofs : H256 → list CryptoTypePublicPair →
    M Store Error (gmap CryptoTypePublicPair (list byte));
  get_event_proof_count : H256 → list CryptoTypePublicPair → M Store Error Z;
  purge_event_stale_signatures : H256 → list CryptoTypePublicPair → M Store Error unit
}.

(** The trait's default body of [get_event_proof_count]. *)
Definition default_get_event_proof_count {Store : Type}
    (get_proofs : H256 → list CryptoTypePublicPair →
       M Store Error (gmap CryptoTypePublicPair (list byte)))
    (event : H256) (validators : list CryptoTypePublicPair) : M Store Error Z :=
  proofs ← get_proofs event validators;
  mret (as_u16 (Z.of_nat (size proofs))).

(** ** What a store promises

    The view of a store: which signature it holds for an event and a key. *)
Definition proof_view : Type := H256 → CryptoTypePublicPair → option (list byte).

(** The keys of a list that have a proof. *)
Definition signers (v : proof_view) (e : H256) (validators : list CryptoTypePublicPair) :
    list CryptoTypePublicPair :=
  filter (λ k, is_Some (v e k)) validators.

(** A proof was added: the event's key has a signature afterwards, the new
    one or the one it already had; no other entry changes. *)
Definition added (ev : WitnessedEvent) (v v' : proof_view) : Prop :=
  (v' (event_id ev) (pub_key ev) = Some (signature ev) ∨
   (is_Some (v (event_id ev) (pub_key ev)) ∧
    v' (event_id ev) (pub_key ev) = v (event_id ev) (pub_key ev))) ∧
  ∀ e k, (e, k) ≠ (event_id ev, pub_key ev) → v' e k = v e k.

(** Stale signatures were purged: the event keeps exactly the signatures of
    the validators; of other events only signatures by non-validators may
    disappear.  The trait's documentation speaks of the given event only, and
    the in-memory and off-chain stores do confine a purge to it
    ([StoreHistory.ExactPurge]); the RocksDB store does not
    ([RocksDb.rocksdb_store_correct]), and no client relies on it. *)
Definition purged (e : H256) (validators : list CryptoTypePublicPair) (v v' : proof_view) : Prop :=
  (∀ k, v' e k = if bool_decide (k ∈ validators) then v e k else None) ∧
  (∀ e' k, (v' e' k = v e' k) ∨ (¬ k ∈ validators ∧ v' e' k = None)).

Class EventProofsSpec (Store : Type) `{EventProofsTrait Store} := {
  ep_inv : Store → Prop;
  ep_view : Store → proof_view;
  add_event_proof_spec s ev :
    ep_inv s → ∃ s', add_event_proof ev s = Ret (Ok tt, s') ∧ ep_inv s' ∧
                     added ev (ep_view s) (ep_view s');
  get_event_proofs_spec s e vs :
    ep_inv s → ∃ m, get_event_proofs e vs s = Ret (Ok m, s) ∧
      ∀ k, m !! k = if bool_decide (k ∈ vs) then ep_view s e k else None;
  get_event_proof_count_spec s e vs :
    ep_inv s → NoDup vs →
    get_event_proof_count e vs s = Ret (Ok (len_as_u16 (signers (ep_view s) e vs)), s);
  purge_event_stale_signatures_spec s e vs :
    ep_inv s → ∃ s', purge_event_stale_signatures e vs s = Ret (Ok tt, s') ∧ ep_inv s' ∧
                     purged e vs (ep_view s) (ep_view s')
}.

(** ** Consequences for clients *)

Lemma elem_of_signers v e vs k : k ∈ signers v e vs ↔ k ∈ vs ∧ is_Some (v e k).
Proof. unfold signers. rewrite list_elem_of_filter. tauto. Qed.

Lemma signers_length_le v e vs : length (signers v e vs) ≤ length vs.
Proof. apply length_filter. Qed.

Lemma signers_NoDup v e vs : NoDup vs → NoDup (signers v e vs).
Proof. apply NoDup_filter. Qed.

Lemma signers_ext v v' e vs :
  (∀ k, k ∈ vs → (is_Some (v e k) ↔ is_Some (v' e k))) → signers v e vs = signers v' e vs.
Proof.
  unfold signers. induction vs as [|k vs IH]; intros Hk; [done|].
  rewrite !filter_cons, IH by (intros; apply Hk; by right).
  pose proof (Hk k ltac:(by left)). by repeat case_decide; naive_solver.
Qed.

(** The size of the map of proofs is the number of validators with a proof. *)
Lemma signers_size (m : gmap CryptoTypePublicPair (list byte)) v e vs :
  NoDup vs →
  (∀ k, m !! k = if bool_decide (k ∈ vs) then v e k else None) →
  size m = length (signers v e vs).
Proof.
  intros Hnd Hm. rewrite <- size_dom.
  rewrite <- (size_list_to_set_NoDup (signers v e vs)) by by apply signers_NoDup.
  f_equal. apply set_eq. intros k.
  rewrite elem_of_list_to_set, elem_of_signers, elem_of_dom, Hm.
  case_bool_decide; naive_solver.
Qed.

Lemma added_mono ev v v' e k : added ev v v' → is_Some (v e k) → is_Some (v' e k).
Proof.
  intros [Hat Hother] Hk. destruct (decide ((e, k) = (event_id ev, pub_key ev))) as [[= -> ->]|Hne].
  - destruct Hat as [->|[? ->]]; [by eexists|done].
  - by rewrite Hother.
Qed.

Lemma added_signed ev v v' : added ev v v' → is_Some (v' (event_id ev) (pub_key ev)).
Proof. intros [[->|[? ->]] _]; [by eexists|done]. Qed.

(** An entry after an addition is the added one or an old one. *)
Lemma added_origin ev v v' e k s :
  added ev v v' → v' e k = Some s →
  v e k = Some s ∨ (e = event_id ev ∧ k = pub_key ev ∧ s = signature ev).
Proof.
  intros [Hat Hother] Hs.
  destruct (decide ((e, k) = (event_id ev, pub_key ev))) as [[= -> ->]|Hne].
  - destruct Hat as [Hat|[_ Hat]]; rewrite Hat in Hs; simplify_eq; naive_solver.
  - left. by rewrite <- Hother.
Qed.

Lemma purged_origin e vs v v' e' k s :
  purged e vs v v' → v' e' k = Some s → v e' k = Some s.
Proof. intros [_ Hp] Hs. destruct (Hp e' k) as [E|[_ E]]; congruence. Qed.

(** Purging does not change who among the validators has signed. *)
Lemma purged_signers e vs v v' e' :
  purged e vs v v' → signers v' e' vs = signers v e' vs.
Proof.
  intros [_ Hp]. apply signers_ext. intros k Hk.
  destruct (Hp e' k) as [E|[Hn _]]; [by rewrite E|done].
Qed.

#[export] Hint Resolve added_signed added_mono signers_NoDup signers_length_le : vs.

(** ** Storage keys do not collide

    Event ids have a fixed length, so a key determines its event and its
    encoded public key, and is never the event id alone. *)

Lemma proof_key_inj e b e' b' : proof_key e b = proof_key e' b' → e = e' ∧ b = b'.
Proof.
  unfold proof_key. intros E. apply app_inj_1 in E as [E ->].
  - split; [|done]. by apply h256_ext.
  - by rewrite !as_bytes_length.
Qed.

Lemma proof_key_not_index e b e' : b ≠ [] → proof_key e b ≠ as_bytes e'.
Proof.
  intros Hb E. apply (f_equal length) in E. unfold proof_key in E.
  rewrite length_app, !as_bytes_length in E. destruct b; [done|cbn in E; lia].
Qed.

Lemma length_proof_key e b : 32 ≤ length (proof_key e b).
Proof. unfold proof_key. rewrite length_app, as_bytes_length. lia. Qed.

Lemma drop_proof_key e b : drop 32 (proof_key e b) = b.
Proof. apply drop_app_length'. by rewrite as_bytes_length. Qed.

Lemma ser_key_inj `{BincodeLaws} k k' b : ser_key k = Ok b → ser_key k' = Ok b → k = k'.
Proof. intros E E'. apply de_ser_key in E, E'. congruence. Qed.

(** ** Histories of a store

    Any sequence of additions and purges, as the gossip handler makes them. *)

Inductive store_op : Type :=
| AddOp (ev : WitnessedEvent)
| PurgeOp (e : H256) (validators : list CryptoTypePublicPair).

Section History.
Context {Store : Type} `{EventProofsSpec Store}.

Definition run_op (op : store_op) : M Store Error unit :=
  match op with
  | AddOp ev => add_event_proof ev
  | PurgeOp e vs => purge_event_stale_signatures e vs
  end.

(** On a well-formed store every sequence of operations returns [Ok(())]. *)
Lemma run_op_succeeds op s :
  ep_inv s → ∃ s', run_op op s = Ret (Ok tt, s') ∧ ep_inv s'.
Proof.
  intros Hs. destruct op as [ev|e vs]; cbn.
  - destruct (add_event_proof_spec s ev Hs) as (s' & ? & ? & _). eauto.
  - destruct (purge_event_stale_signatures_spec s e vs Hs) as (s' & ? & ? & _). eauto.
Qed.

Lemma history_succeeds ops s :
  ep_inv s → ∃ s', M_for ops run_op s = Ret (Ok tt, s') ∧ ep_inv s'.
Proof.
  revert s. induction ops as [|op ops IH]; intros s Hs; [by exists s|].
  destruct (run_op_succeeds op s Hs) as (s1 & Hrun & Hinv).
  destruct (IH s1 Hinv) as (s2 & Hrun2 & ?). exists s2. cbn [M_for].
  by rewrite (M_bind_ok _ _ _ _ _ Hrun).
Qed.

End History.

(** ** A concrete codec

    A self-delimiting encoding that satisfies [BincodeLaws]: a byte string is
    written byte by byte behind a continuation mark, and closed by a stop
    mark. *)
Module Codec.

Definition encode_bytes (l : list byte) : list byte := (l ≫= λ b, [x01; b]) ++ [x00].

Fixpoint decode_bytes (l : list byte) : option (list byte * list byte) :=
  match l with
  | x00 :: rest => Some ([], rest)
  | x01 :: b :: rest => (λ '(bs, r), (b :: bs, r)) <$> decode_bytes rest
  | _ => None
  end.

Definition encode_key (k : CryptoTypePublicPair) : list byte :=
  let '(a, b, c, d) := pair_type k in a :: b :: c :: d :: encode_bytes (pair_public k).

Definition decode_key (l : list byte) : option (CryptoTypePublicPair * list byte) :=
  match l with
  | a :: b :: c :: d :: rest => (λ '(p, r), (mkPair (a, b, c, d) p, r)) <$> decode_bytes rest
  | _ => None
  end.

Definition encode_keys (ks : list CryptoTypePublicPair) : list byte :=
  foldr (λ k acc, x01 :: encode_key k ++ acc) [x00] ks.

Fixpoint decode_keys (fuel : nat) (l : list byte) : option (list CryptoTypePublicPair) :=
  match fuel, l with
  | S fuel', x01 :: rest =>
      '(k, r) ← decode_key rest; ks ← decode_keys fuel' r; Some (k :: ks)
  | S _, [x00] => Some []
  | _, _ => None
  end.

Definition encode_event (ev : WitnessedEvent) : list byte :=
  encode_bytes (signature ev) ++ encode_key (pub_key ev) ++ as_bytes (event_id ev).

Definition decode_event (l : list byte) : option WitnessedEvent :=
  '(s, r1) ← decode_bytes l;
  '(k, r2) ← decode_key r1;
  e ← h256_of_list r2;
  Some (mkWitnessed s k e).

Lemma decode_encode_bytes l rest : decode_bytes (encode_bytes l ++ rest) = Some (l, rest).
Proof.
  unfold encode_bytes. induction l as [|b l IH]; [done|]. cbn in *. by rewrite IH.
Qed.

#[local] Arguments encode_bytes : simpl never.
#[local] Arguments decode_bytes : simpl never.

Lemma decode_encode_key k rest : decode_key (encode_key k ++ rest) = Some (k, rest).
Proof.
  destruct k as [[[[a b] c] d] p]. unfold encode_key. cbn.
  by rewrite decode_encode_bytes.
Qed.

#[local] Arguments encode_key : simpl never.
#[local] Arguments decode_key : simpl never.

Lemma decode_encode_keys ks fuel :
  length ks < fuel → decode_keys fuel (encode_keys ks) = Some ks.
Proof.
  revert fuel. induction ks as [|k ks IH]; intros [|fuel] Hf; try (cbn in *; lia); [done|].
  cbn in *. rewrite decode_encode_key. cbn. by rewrite IH by lia.
Qed.

Lemma length_encode_keys ks : length ks < length (encode_keys ks).
Proof.
  unfold encode_keys. induction ks as [|k ks IH]; cbn; [lia|]. rewrite length_app. lia.
Qed.

Lemma decode_encode_event ev : decode_event (encode_event ev) = Some ev.
Proof.
  unfold encode_event, decode_event. rewrite decode_encode_bytes. cbn.
  rewrite decode_encode_key. cbn. rewrite h256_of_as_bytes. by destruct ev.
Qed.

(** The only decoding error. *)
#[local] Instance unit_display : Display unit := λ _, "invalid encoding".

#[export] Instance codec : Bincode := {|
  bincode_error := unit;
  ser_key k := Ok (encode_key k);
  de_key l := match decode_key l with Some (k, []) => Ok k | _ => Err tt end;
  ser_keys ks := Ok (encode_keys ks);
  de_keys l := ok_or (decode_keys (length l) l) tt;
  ser_event ev := Ok (encode_event ev);
  de_event l := ok_or (decode_event l) tt
|}.

#[export] Instance codec_laws : BincodeLaws.
Proof.
  split; cbn; eauto.
  - intros [[[[c1 c2] c3] c4] p] b. by intros [= <-].
  - intros k b [= <-]. rewrite <- (app_nil_r (encode_key k)). by rewrite decode_encode_key.
  - intros ks b [= <-]. by rewrite decode_encode_keys by apply length_encode_keys.
  - intros ev b [= <-]. by rewrite decode_encode_event.
Qed.

End Codec.
