(* ===== verification/InMemory.v ===== *)
(** * The in-memory store of event proofs

    [consensus/src/proofs/in_memory.rs]: a mutex around a map from event ids
    to a map from public keys to signatures.  A [HashMap] is a [gmap]; the
    methods return the [LockFail] error when the mutex is poisoned. *)

From stdpp Require Import base decidable list gmap strings.
From Stdlib Require Import Strings.Byte ZArith Lia.
From S2P Require Import Prelude Errors Proofs.

(** [HashMap<H256, HashMap<CryptoTypePublicPair, Vec<u8>>>] *)
Abbreviation proof_maps := (gmap H256 (gmap CryptoTypePublicPair (list byte))).

Definition InMemoryEventProofs : Type := Mutex proof_maps.

Definition in_memory_new : InMemoryEventProofs := mkMutex false ∅.

Definition in_memory_lock_error : Error := LockFail "InMemoryProofs".

(** [event_proofs.retain(|k, _| validators.contains(k))] *)
Definition in_memory_retain_validators (validators : list CryptoTypePublicPair)
    (event_proofs : gmap CryptoTypePublicPair (list byte)) :
    gmap CryptoTypePublicPair (list byte) :=
  filter (λ kv, kv.1 ∈ validators) event_proofs.

Definition in_memory_add_event_proof (witnessed_event : WitnessedEvent) :
    M InMemoryEventProofs Error unit :=
  with_lock in_memory_lock_error (λ proofs,
    (* proofs.entry(event_id).or_default() *)
    let event_witnesses := default ∅ (proofs !! event_id witnessed_event) in
    let proofs := <[event_id witnessed_event := event_witnesses]> proofs in
    match event_witnesses !! pub_key witnessed_event with
    | None =>
        (Ok tt,
         <[event_id witnessed_event :=
             <[pub_key witnessed_event := signature witnessed_event]> event_witnesses]> proofs)
    | Some _ => (Ok tt, proofs)
    end).

Definition in_memory_get_event_proofs (event : H256) (validators : list CryptoTypePublicPair) :
    M InMemoryEventProofs Error (gmap CryptoTypePublicPair (list byte)) :=
  with_lock in_memory_lock_error (λ proofs,
    (Ok (default ∅ (in_memory_retain_validators validators <$> proofs !! event)), proofs)).

Definition in_memory_purge_event_stale_signatures (event : H256) (validators : list CryptoTypePublicPair) :
    M InMemoryEventProofs Error unit :=
  with_lock in_memory_lock_error (λ proofs,
    match proofs !! event with
    | Some event_proofs => (Ok tt, <[event := in_memory_retain_validators validators event_proofs]> proofs)
    | None => (Ok tt, proofs)
    end).

#[export] Instance in_memory_proofs : EventProofsTrait InMemoryEventProofs := {|
  add_event_proof := in_memory_add_event_proof;
  get_event_proofs := in_memory_get_event_proofs;
  get_event_proof_count := default_get_event_proof_count in_memory_get_event_proofs;
  purge_event_stale_signatures := in_memory_purge_event_stale_signatures
|}.

(** ** The view of the store *)

Definition in_memory_view (s : InMemoryEventProofs) : proof_view := λ e k,
  guarded s !! e ≫= λ event_proofs, event_proofs !! k.

Definition in_memory_inv (s : InMemoryEventProofs) : Prop := poisoned s = false.

Lemma lookup_retain_validators vs m k :
  in_memory_retain_validators vs m !! k = if bool_decide (k ∈ vs) then m !! k else None.
Proof.
  unfold in_memory_retain_validators. apply option_eq. intros s.
  rewrite map_lookup_filter_Some; cbn. case_bool_decide; naive_solver.
Qed.

(** The signature kept for a key is the first one that was added. *)
Lemma in_memory_add_view s ev e k :
  in_memory_inv s →
  ∃ s', in_memory_add_event_proof ev s = Ret (Ok tt, s') ∧ in_memory_inv s' ∧
    in_memory_view s' e k =
      if bool_decide ((e, k) = (event_id ev, pub_key ev))
      then Some (default (signature ev) (in_memory_view s e k))
      else in_memory_view s e k.
Proof.
  unfold in_memory_inv, in_memory_add_event_proof. intros Hs.
  rewrite with_lock_healthy by done. unfold in_memory_view.
  destruct s as [? m]; cbn in *; subst.
  destruct (default ∅ (m !! event_id ev) !! pub_key ev) as [sig|] eqn:E; cbn;
    eexists; (split; [done|]; split; [done|]); cbn.
  - case_bool_decide as Hek; simplify_map_eq.
    + destruct (m !! event_id ev); by simplify_map_eq.
    + destruct (decide (e = event_id ev)) as [->|]; simplify_map_eq; [|done].
      destruct (m !! event_id ev); by simplify_map_eq.
  - case_bool_decide as Hek; simplify_map_eq.
    + destruct (m !! event_id ev); by simplify_map_eq.
    + destruct (decide (e = event_id ev)) as [->|]; simplify_map_eq; [|done].
      rewrite lookup_insert_ne by naive_solver.
      destruct (m !! event_id ev); by simplify_map_eq.
Qed.

Lemma in_memory_purge_view s e vs e' k :
  in_memory_inv s →
  ∃ s', in_memory_purge_event_stale_signatures e vs s = Ret (Ok tt, s') ∧ in_memory_inv s' ∧
    in_memory_view s' e' k =
      if bool_decide (e' = e ∧ ¬ k ∈ vs) then None else in_memory_view s e' k.
Proof.
  unfold in_memory_inv, in_memory_purge_event_stale_signatures. intros Hs.
  rewrite with_lock_healthy by done. unfold in_memory_view.
  destruct s as [? m]; cbn in *; subst.
  destruct (m !! e) as [ps|] eqn:E; cbn; eexists; (split; [done|]; split; [done|]); cbn.
  - destruct (decide (e' = e)) as [->|Hne]; simplify_map_eq.
    + rewrite lookup_retain_validators. repeat case_bool_decide; naive_solver.
    + by rewrite bool_decide_eq_false_2 by naive_solver.
  - case_bool_decide as Hek; [|done]. destruct Hek as [-> _]. by rewrite E.
Qed.

Lemma in_memory_get s e vs :
  in_memory_inv s →
  ∃ m, in_memory_get_event_proofs e vs s = Ret (Ok m, s) ∧
    ∀ k, m !! k = if bool_decide (k ∈ vs) then in_memory_view s e k else None.
Proof.
  unfold in_memory_inv, in_memory_get_event_proofs. intros Hs.
  rewrite with_lock_healthy by done. unfold in_memory_view.
  destruct s as [? m]; cbn in *; subst. eexists; split; [done|].
  intros k. destruct (m !! e) as [ps|]; cbn; [apply lookup_retain_validators|].
  rewrite lookup_empty. by case_bool_decide.
Qed.

#[export] Program Instance in_memory_spec : EventProofsSpec InMemoryEventProofs := {|
  ep_inv := in_memory_inv;
  ep_view := in_memory_view
|}.
Next Obligation.
  intros s ev Hs. destruct (in_memory_add_view s ev (event_id ev) (pub_key ev) Hs)
    as (s' & Hadd & Hinv & Hat).
  exists s'. split; [done|]. split; [done|]. split.
  - rewrite bool_decide_eq_true_2 in Hat by done. rewrite Hat.
    destruct (in_memory_view s (event_id ev) (pub_key ev)); [right|left]; by eauto.
  - intros e k Hne. destruct (in_memory_add_view s ev e k Hs) as (s'' & Hadd' & _ & Hv).
    rewrite bool_decide_eq_false_2 in Hv by done. congruence.
Qed.
Next Obligation. intros s e vs Hs. by apply in_memory_get. Qed.
Next Obligation.
  intros s e vs Hs Hnd. destruct (in_memory_get s e vs Hs) as (m & Hget & Hm).
  cbn. unfold default_get_event_proof_count. rewrite (M_bind_ok _ _ _ _ _ Hget).
  unfold len_as_u16. by rewrite <- (signers_size m _ e vs Hnd Hm).
Qed.
Next Obligation.
  intros s e vs Hs. destruct (in_memory_purge_view s e vs e (mkPair (x00,x00,x00,x00) []) Hs)
    as (s' & Hp & Hinv & _).
  exists s'. split; [done|]. split; [done|].
  assert (∀ e' k, in_memory_view s' e' k =
    if bool_decide (e' = e ∧ ¬ k ∈ vs) then None else in_memory_view s e' k) as Hv.
  { intros e' k. destruct (in_memory_purge_view s e vs e' k Hs) as (s'' & Hp' & _ & Hv).
    congruence. }
  split.
  - intros k. rewrite Hv. repeat case_bool_decide; naive_solver.
  - intros e' k. rewrite Hv. case_bool_decide; [right|left]; naive_solver.
Qed.

(** The in-memory store keeps, for every event and key, the first signature
    it was given: adding a proof succeeds, stores the signature when the key
    has none for that event, and changes nothing otherwise. *)
Theorem in_memory_first_signature_wins (s : InMemoryEventProofs) (ev : WitnessedEvent) :
  poisoned s = false →
  ∃ s', in_memory_add_event_proof ev s = Ret (Ok tt, s') ∧ poisoned s' = false ∧
    ∀ e k, in_memory_view s' e k =
      if bool_decide ((e, k) = (event_id ev, pub_key ev))
      then Some (default (signature ev) (in_memory_view s e k))
      else in_memory_view s e k.
Proof.
  intros Hs. destruct (in_memory_add_view s ev (event_id ev) (pub_key ev) Hs)
    as (s' & Hadd & Hinv & _).
  exists s'. split; [done|]. split; [done|]. intros e k.
  destruct (in_memory_add_view s ev e k Hs) as (s'' & Hadd' & _ & Hv). congruence.
Qed.

Lemma in_memory_first_signature_wins_witness :
  ∃ s', in_memory_add_event_proof
          (mkWitnessed [x01] (mkPair (x00,x00,x00,x00) [x05]) (repeat_byte x07)) in_memory_new
        = Ret (Ok tt, s') ∧ poisoned s' = false.
Proof.
  destruct (in_memory_first_signature_wins in_memory_new
    (mkWitnessed [x01] (mkPair (x00,x00,x00,x00) [x05]) (repeat_byte x07)) eq_refl)
    as (s' & H1 & H2 & _).
  exists s'. split; [exact H1|exact H2].
Defined.

(** When the mutex is poisoned every method of the in-memory store returns
    [LockFail] and leaves the store as it is. *)
Theorem in_memory_poisoned (s : InMemoryEventProofs) (ev : WitnessedEvent)
    (e : H256) (vs : list CryptoTypePublicPair) :
  poisoned s = true →
  add_event_proof ev s = Ret (Err (LockFail "InMemoryProofs"), s) ∧
  get_event_proofs e vs s = Ret (Err (LockFail "InMemoryProofs"), s) ∧
  get_event_proof_count e vs s = Ret (Err (LockFail "InMemoryProofs"), s) ∧
  purge_event_stale_signatures e vs s = Ret (Err (LockFail "InMemoryProofs"), s).
Proof.
  intros Hs. cbn. unfold in_memory_add_event_proof, in_memory_get_event_proofs,
    in_memory_purge_event_stale_signatures, default_get_event_proof_count.
  rewrite !with_lock_poisoned by done. split_and!; try done.
  unfold mbind, M_bind. by rewrite with_lock_poisoned.
Qed.

Lemma in_memory_poisoned_witness :
  add_event_proof (mkWitnessed [x01] (mkPair (x00,x00,x00,x00) [x05]) (repeat_byte x07))
    (mkMutex true (∅ : proof_maps))
  = Ret (Err (LockFail "InMemoryProofs"), mkMutex true ∅).
Proof.
  apply (in_memory_poisoned (mkMutex true ∅)
    (mkWitnessed [x01] (mkPair (x00,x00,x00,x00) [x05]) (repeat_byte x07))
    (repeat_byte x07) [] eq_refl).
Defined.
