(* ===== verification/Offchain.v ===== *)
(** * The store of event proofs in the node's off-chain storage

    [consensus/src/proofs/offchain.rs].  Under the prefix [EventProofs] the
    storage holds, for an event and a key, the signature at
    [event_id ++ bincode(key)], and for an event the list of its signers at
    [event_id], which is updated in a compare-and-set loop.  The storage
    itself ([sp_core::offchain::OffchainStorage]) is an interface. *)

From stdpp Require Import base decidable list gmap strings.
From Stdlib Require Import Strings.Byte ZArith Lia.
From S2P Require Import Prelude Errors Proofs.

(** ** [OffchainStorage] *)

Class OffchainStorage (St : Type) := {
  os_get : St → list byte → list byte → option (list byte);
  os_set : list byte → list byte → list byte → St → St;
  os_remove : list byte → list byte → St → St;
  os_compare_and_set : list byte → list byte → option (list byte) → list byte → St → bool * St
}.

(** Documented behaviour under one prefix, with no other writer between two
    calls: a key reads back what was last set, and the compare-and-set
    replaces the value exactly when it is the expected one. *)
Class OffchainStorageLaws (St : Type) `{OffchainStorage St} : Prop := {
  os_get_set st p k v k' :
    os_get (os_set p k v st) p k' = if bool_decide (k' = k) then Some v else os_get st p k';
  os_get_remove st p k k' :
    os_get (os_remove p k st) p k' = if bool_decide (k' = k) then None else os_get st p k';
  os_cas_success st p k old new :
    os_get st p k = old →
    ∃ st', os_compare_and_set p k old new st = (true, st') ∧
      ∀ k', os_get st' p k' = if bool_decide (k' = k) then Some new else os_get st p k';
  os_cas_failure st p k old new :
    os_get st p k ≠ old → os_compare_and_set p k old new st = (false, st)
}.

Definition OFFCHAIN_PREFIX : list byte := String.list_byte_of_string "EventProofs".

(** Iterations allowed to a compare-and-set loop.  A loop whose storage is not
    written by others between its read and its write needs one. *)
Definition cas_fuel : nat := 1.

Section Offchain.
Context `{Bincode} {St : Type} `{OffchainStorage St}.

(** [existing_bytes.map(deserialize).unwrap_or_else(|| Ok(vec![]))] *)
Definition decode_signers (existing_bytes : option (list byte)) :
    result bincode_error (list CryptoTypePublicPair) :=
  match existing_bytes with
  | Some b => de_keys b
  | None => Ok []
  end.

Fixpoint push_signer_loop (fuel : nat) (ev : WitnessedEvent) : M St Error unit := λ st,
  match fuel with
  | O => Diverge
  | S fuel' =>
      let existing_bytes := os_get st OFFCHAIN_PREFIX (as_bytes (event_id ev)) in
      match decode_signers existing_bytes with
      | Err e => Ret (Err (from_bincode e), st)
      | Ok signers_list =>
          match ser_keys (signers_list ++ [pub_key ev]) with
          | Err e => Ret (Err (from_bincode e), st)
          | Ok new =>
              match os_compare_and_set OFFCHAIN_PREFIX (as_bytes (event_id ev))
                      existing_bytes new st with
              | (true, st') => Ret (Ok tt, st')
              | (false, st') => push_signer_loop fuel' ev st'
              end
          end
      end
  end.

Definition offchain_add_event_proof (ev : WitnessedEvent) : M St Error unit := λ st,
  match ser_key (pub_key ev) with
  | Err e => Ret (Err (from_bincode e), st)
  | Ok b =>
      push_signer_loop cas_fuel ev
        (os_set OFFCHAIN_PREFIX (proof_key (event_id ev) b) (signature ev) st)
  end.

(** The storage read of one validator's signature; the encoding is unwrapped. *)
Definition offchain_lookup (st : St) (e : H256) (k : CryptoTypePublicPair) :
    outcome (option (list byte)) :=
  b ← unwrap_result (ser_key k); Ret (os_get st OFFCHAIN_PREFIX (proof_key e b)).

Definition offchain_get_event_proofs (e : H256) (validators : list CryptoTypePublicPair) :
    M St Error (gmap CryptoTypePublicPair (list byte)) := λ st,
  found ← outcome_map (offchain_lookup st e) validators;
  Ret (Ok (collect_map (omap (λ '(k, o), (λ s, (k, s)) <$> o) (zip validators found))), st).

Definition offchain_get_event_proof_count (e : H256) (validators : list CryptoTypePublicPair) :
    M St Error Z := λ st,
  found ← outcome_map (offchain_lookup st e) validators;
  Ret (Ok (len_as_u16 (filter is_Some found)), st).

(** The [retain] of [purge_event_stale_signatures], with its removals. *)
Fixpoint retain_signers (e : H256) (validators : list CryptoTypePublicPair)
    (signers_list : list CryptoTypePublicPair) (st : St) :
    outcome (list CryptoTypePublicPair * St) :=
  match signers_list with
  | [] => Ret ([], st)
  | k :: rest =>
      if bool_decide (k ∈ validators) then
        '(rest', st') ← retain_signers e validators rest st; Ret (k :: rest', st')
      else
        b ← unwrap_result (ser_key k);
        retain_signers e validators rest (os_remove OFFCHAIN_PREFIX (proof_key e b) st)
  end.

Fixpoint purge_signers_loop (fuel : nat) (e : H256) (validators : list CryptoTypePublicPair) :
    M St Error unit := λ st,
  match fuel with
  | O => Diverge
  | S fuel' =>
      let existing_bytes := os_get st OFFCHAIN_PREFIX (as_bytes e) in
      match decode_signers existing_bytes with
      | Err err => Ret (Err (from_bincode err), st)
      | Ok signers_list =>
          '(signers_list', st1) ← retain_signers e validators signers_list st;
          match ser_keys signers_list' with
          | Err err => Ret (Err (from_bincode err), st1)
          | Ok new =>
              match os_compare_and_set OFFCHAIN_PREFIX (as_bytes e) existing_bytes new st1 with
              | (true, st') => Ret (Ok tt, st')
              | (false, st') => purge_signers_loop fuel' e validators st'
              end
          end
      end
  end.

Definition offchain_purge_event_stale_signatures (e : H256)
    (validators : list CryptoTypePublicPair) : M St Error unit :=
  purge_signers_loop cas_fuel e validators.

#[export] Instance offchain_proofs : EventProofsTrait St := {|
  add_event_proof := offchain_add_event_proof;
  get_event_proofs := offchain_get_event_proofs;
  get_event_proof_count := offchain_get_event_proof_count;
  purge_event_stale_signatures := offchain_purge_event_stale_signatures
|}.

(** ** View and invariant *)

Definition offchain_view (st : St) : proof_view := λ e k,
  match ser_key k with
  | Ok b => os_get st OFFCHAIN_PREFIX (proof_key e b)
  | Err _ => None
  end.

(** The index of every event can be read, and lists every key that has a
    signature for the event. *)
Definition offchain_inv (st : St) : Prop :=
  ∀ e, ∃ ks, decode_signers (os_get st OFFCHAIN_PREFIX (as_bytes e)) = Ok ks ∧
    ∀ k, is_Some (offchain_view st e k) → k ∈ ks.

End Offchain.

(** ** Updates of the storage *)

Section OffchainFacts.
Context `{BincodeLaws} {St : Type} `{OffchainStorageLaws St}.

Abbreviation index st e := (os_get st OFFCHAIN_PREFIX (as_bytes e)).

(** Two stores that agree outside the index keys have the same view. *)
Lemma offchain_view_index st st' e0 :
  (∀ key, key ≠ as_bytes e0 → os_get st' OFFCHAIN_PREFIX key = os_get st OFFCHAIN_PREFIX key) →
  ∀ e k, offchain_view st' e k = offchain_view st e k.
Proof.
  intros Hst e k. unfold offchain_view. destruct (ser_key k) as [b|] eqn:Eb; [|done].
  apply Hst, proof_key_not_index. by apply (ser_key_nonempty k).
Qed.

Lemma offchain_set_view st e k b s :
  ser_key k = Ok b →
  let st' := os_set OFFCHAIN_PREFIX (proof_key e b) s st in
  (∀ e', index st' e' = index st e') ∧
  ∀ e' k', offchain_view st' e' k' =
    if bool_decide ((e', k') = (e, k)) then Some s else offchain_view st e' k'.
Proof.
  intros Hb st'. subst st'. pose proof (ser_key_nonempty k b Hb) as Hne. split.
  - intros e'. rewrite os_get_set, bool_decide_eq_false_2; [done|].
    intros E. by apply (proof_key_not_index e b e').
  - intros e' k'. unfold offchain_view. destruct (ser_key_total k') as [b' Hb'].
    rewrite Hb', os_get_set. case_bool_decide as E.
    + apply proof_key_inj in E as [-> ->]. rewrite (ser_key_inj k k' b Hb Hb').
      by rewrite bool_decide_eq_true_2.
    + rewrite bool_decide_eq_false_2; [done|]. intros [= -> ->]. congruence.
Qed.

Lemma offchain_remove_view st e k b :
  ser_key k = Ok b →
  let st' := os_remove OFFCHAIN_PREFIX (proof_key e b) st in
  (∀ e', index st' e' = index st e') ∧
  ∀ e' k', offchain_view st' e' k' =
    if bool_decide ((e', k') = (e, k)) then None else offchain_view st e' k'.
Proof.
  intros Hb st'. subst st'. pose proof (ser_key_nonempty k b Hb) as Hne. split.
  - intros e'. rewrite os_get_remove, bool_decide_eq_false_2; [done|].
    intros E. by apply (proof_key_not_index e b e').
  - intros e' k'. unfold offchain_view. destruct (ser_key_total k') as [b' Hb'].
    rewrite Hb', os_get_remove. case_bool_decide as E.
    + apply proof_key_inj in E as [-> ->]. rewrite (ser_key_inj k k' b Hb Hb').
      by rewrite bool_decide_eq_true_2.
    + rewrite bool_decide_eq_false_2; [done|]. intros [= -> ->]. congruence.
Qed.

(** ** The compare-and-set loops *)

(** With no other writer, one iteration writes the extended index. *)
Lemma push_signer_loop_once fuel ev st ks :
  decode_signers (index st (event_id ev)) = Ok ks →
  ∃ st', push_signer_loop (S fuel) ev st = Ret (Ok tt, st') ∧
    (∀ e, decode_signers (index st' e) =
       if bool_decide (e = event_id ev) then Ok (ks ++ [pub_key ev])
       else decode_signers (index st e)) ∧
    ∀ e k, offchain_view st' e k = offchain_view st e k.
Proof.
  intros Hks. cbn [push_signer_loop]. rewrite Hks. destruct (ser_keys_total (ks ++ [pub_key ev])) as [new Hnew].
  rewrite Hnew.
  destruct (os_cas_success st OFFCHAIN_PREFIX (as_bytes (event_id ev)) _ new eq_refl)
    as (st' & -> & Hst').
  exists st'. split; [done|]. split.
  - intros e. rewrite Hst'. repeat case_bool_decide; simplify_eq; try done.
    cbn. by apply de_ser_keys.
  - apply (offchain_view_index st st' (event_id ev)). intros key Hkey.
    by rewrite Hst', bool_decide_eq_false_2.
Qed.

Lemma retain_signers_spec e vs l st :
  ∃ st', retain_signers e vs l st = Ret (filter (.∈ vs) l, st') ∧
    (∀ e', index st' e' = index st e') ∧
    ∀ e' k, offchain_view st' e' k =
      if bool_decide (e' = e ∧ k ∈ l ∧ ¬ k ∈ vs) then None else offchain_view st e' k.
Proof.
  revert st. induction l as [|k l IH]; intros st; cbn [retain_signers].
  - exists st. split_and!; [done..|]. intros e' k.
    rewrite bool_decide_eq_false_2; [done|]. set_solver.
  - rewrite filter_cons. case_bool_decide as Hk.
    + rewrite decide_True by done. destruct (IH st) as (st' & -> & Hi & Hv).
      exists st'. split_and!; [done..|]. intros e' k'. rewrite Hv.
      repeat case_bool_decide; set_solver.
    + rewrite decide_False by done. destruct (ser_key_total k) as [b Hb].
      rewrite Hb, unwrap_result_Ok, outcome_ret_bind.
      destruct (offchain_remove_view st e k b Hb) as [Hi1 Hv1].
      destruct (IH (os_remove OFFCHAIN_PREFIX (proof_key e b) st)) as (st' & -> & Hi & Hv).
      exists st'. split_and!; [done|intros e'; by rewrite Hi, Hi1|].
      intros e' k'. rewrite Hv, Hv1. repeat case_bool_decide; set_solver.
Qed.

Lemma purge_signers_loop_once fuel e vs st ks :
  decode_signers (index st e) = Ok ks →
  ∃ st', purge_signers_loop (S fuel) e vs st = Ret (Ok tt, st') ∧
    (∀ e', decode_signers (index st' e') =
       if bool_decide (e' = e) then Ok (filter (.∈ vs) ks) else decode_signers (index st e')) ∧
    ∀ e' k, offchain_view st' e' k =
      if bool_decide (e' = e ∧ k ∈ ks ∧ ¬ k ∈ vs) then None else offchain_view st e' k.
Proof.
  intros Hks. cbn [purge_signers_loop]. rewrite Hks.
  destruct (retain_signers_spec e vs ks st) as (st1 & -> & Hi1 & Hv1). rewrite outcome_ret_bind.
  destruct (ser_keys_total (filter (.∈ vs) ks)) as [new Hnew]. rewrite Hnew.
  destruct (os_cas_success st1 OFFCHAIN_PREFIX (as_bytes e) (index st e) new (Hi1 e))
    as (st' & -> & Hst').
  exists st'. split; [done|]. split.
  - intros e'. rewrite Hst', Hi1. repeat case_bool_decide; simplify_eq; try done.
    cbn. by apply de_ser_keys.
  - intros e' k. rewrite <- Hv1. apply (offchain_view_index st1 st' e). intros key Hkey.
    by rewrite Hst', bool_decide_eq_false_2.
Qed.

(** ** Reads *)

Lemma offchain_lookup_ret st e k : offchain_lookup st e k = Ret (offchain_view st e k).
Proof.
  unfold offchain_lookup, offchain_view. destruct (ser_key_total k) as [b Hb]. by rewrite Hb.
Qed.

Lemma offchain_lookups st e vs :
  outcome_map (offchain_lookup st e) vs = Ret (offchain_view st e <$> vs).
Proof.
  rewrite <- outcome_map_ret. induction vs as [|k vs IH]; [done|]. cbn.
  by rewrite offchain_lookup_ret, IH.
Qed.

Lemma omap_zip_fmap {A B} (f : A → option B) (l : list A) :
  omap (λ '(a, o), (λ s, (a, s)) <$> o) (zip l (f <$> l)) =
  omap (λ a, (λ s, (a, s)) <$> f a) l.
Proof. induction l as [|a l IH]; [done|]. cbn. rewrite IH. by destruct (f a). Qed.

Lemma offchain_get st e vs :
  ∃ m, offchain_get_event_proofs e vs st = Ret (Ok m, st) ∧
    ∀ k, m !! k = if bool_decide (k ∈ vs) then offchain_view st e k else None.
Proof.
  unfold offchain_get_event_proofs. rewrite offchain_lookups. cbn. eexists; split; [done|].
  intros k. rewrite omap_zip_fmap. apply lookup_collect_omap.
Qed.

(** The count is the number of listed validators, with repetitions, that have
    a signature. *)
Lemma offchain_count st e vs :
  offchain_get_event_proof_count e vs st =
  Ret (Ok (len_as_u16 (signers (offchain_view st) e vs)), st).
Proof.
  unfold offchain_get_event_proof_count. rewrite offchain_lookups. cbn. do 3 f_equal.
  unfold len_as_u16, signers. do 2 f_equal.
  induction vs as [|k vs IH]; [done|]. rewrite fmap_cons, !filter_cons.
  by case_decide; cbn; rewrite IH.
Qed.

End OffchainFacts.

(** ** The storage implements the trait's contract *)

Section OffchainSpec.
Context `{BincodeLaws} {St : Type} `{OffchainStorageLaws St}.

(** What an addition does: the key's signature is the last one that was
    added, and the key is appended to the event's index. *)
Lemma offchain_add st ev :
  offchain_inv st →
  ∃ st', offchain_add_event_proof ev st = Ret (Ok tt, st') ∧ offchain_inv st' ∧
    ∀ e k, offchain_view st' e k =
      if bool_decide ((e, k) = (event_id ev, pub_key ev)) then Some (signature ev)
      else offchain_view st e k.
Proof.
  intros Hst. unfold offchain_add_event_proof.
  destruct (ser_key_total (pub_key ev)) as [b Hb]. rewrite Hb.
  destruct (offchain_set_view st (event_id ev) (pub_key ev) b (signature ev) Hb) as [Hi1 Hv1].
  set (st1 := os_set _ _ _ st) in *.
  destruct (Hst (event_id ev)) as (ks & Hks & Hin).
  destruct (push_signer_loop_once 0 ev st1 ks) as (st' & Hrun & Hi & Hv); [by rewrite Hi1|].
  exists st'. split; [exact Hrun|]. split.
  - intros e. rewrite Hi. case_bool_decide as He.
    + subst e. eexists; split; [done|]. intros k. rewrite Hv, Hv1.
      case_bool_decide as Hk; [simplify_eq; set_solver|]. intros ?. apply elem_of_app. eauto.
    + rewrite Hi1. destruct (Hst e) as (ks' & Hks' & Hin'). exists ks'. split; [done|].
      intros k. rewrite Hv, Hv1, bool_decide_eq_false_2 by naive_solver. apply Hin'.
  - intros e k. by rewrite Hv, Hv1.
Qed.

(** What a purge does: exactly the event's signatures by keys that are not
    validators are removed. *)
Lemma offchain_purge st e vs :
  offchain_inv st →
  ∃ st', offchain_purge_event_stale_signatures e vs st = Ret (Ok tt, st') ∧ offchain_inv st' ∧
    ∀ e' k, offchain_view st' e' k =
      if bool_decide (e' = e ∧ ¬ k ∈ vs) then None else offchain_view st e' k.
Proof.
  intros Hst. destruct (Hst e) as (ks & Hks & Hin).
  destruct (purge_signers_loop_once 0 e vs st ks Hks) as (st' & Hrun & Hi & Hv).
  assert (∀ e' k, offchain_view st' e' k =
      if bool_decide (e' = e ∧ ¬ k ∈ vs) then None else offchain_view st e' k) as Hview.
  { intros e' k. rewrite Hv. destruct (decide (e' = e ∧ ¬ k ∈ vs)) as [[-> Hk]|Hn].
    - rewrite (bool_decide_eq_true_2 (e = e ∧ ¬ k ∈ vs)) by done. case_bool_decide as Hd; [done|].
      destruct (offchain_view st e k) eqn:E; [|done].
      destruct Hd. split_and!; [done|apply Hin; by rewrite E|done].
    - rewrite !bool_decide_eq_false_2 by tauto. done. }
  exists st'. split; [exact Hrun|]. split; [|exact Hview].
  intros e'. rewrite Hi. case_bool_decide as He.
  - subst e'. eexists; split; [done|]. intros k. rewrite Hview, list_elem_of_filter.
    case_bool_decide as Hk; [by intros []|]. intros Hsome. split; [|by apply Hin].
    destruct (decide (k ∈ vs)); naive_solver.
  - destruct (Hst e') as (ks' & Hks' & Hin'). exists ks'. split; [done|].
    intros k. rewrite Hview, bool_decide_eq_false_2 by naive_solver. apply Hin'.
Qed.

#[export] Program Instance offchain_spec : EventProofsSpec St := {|
  ep_inv := offchain_inv;
  ep_view := offchain_view
|}.
Next Obligation.
  intros s ev Hs. destruct (offchain_add s ev Hs) as (s' & Hadd & Hinv & Hv).
  exists s'. split; [done|]. split; [done|]. split.
  - left. by rewrite Hv, bool_decide_eq_true_2.
  - intros e k Hne. by rewrite Hv, bool_decide_eq_false_2.
Qed.
Next Obligation. intros s e vs _. apply offchain_get. Qed.
Next Obligation. intros s e vs _ _. apply offchain_count. Qed.
Next Obligation.
  intros s e vs Hs. destruct (offchain_purge s e vs Hs) as (s' & Hp & Hinv & Hv).
  exists s'. split; [done|]. split; [done|]. split.
  - intros k. rewrite Hv. repeat case_bool_decide; naive_solver.
  - intros e' k. rewrite Hv. case_bool_decide; [right|left]; naive_solver.
Qed.

End OffchainSpec.

(** ** A concrete storage *)

Module MapStorage.

Definition map_store : Type := gmap (list byte * list byte) (list byte).

#[export] Instance map_storage : OffchainStorage map_store := {|
  os_get st p k := (st : gmap _ _) !! (p, k);
  os_set p k v st := <[(p, k) := v]> (st : gmap _ _);
  os_remove p k st := delete (p, k) (st : gmap _ _);
  os_compare_and_set p k old new st :=
    if bool_decide ((st : gmap _ _) !! (p, k) = old) then (true, <[(p, k) := new]> (st : gmap _ _))
    else (false, st)
|}.

#[export] Instance map_storage_laws : OffchainStorageLaws map_store.
Proof.
  split; cbn; unfold map_store.
  - intros st p k v k'. rewrite lookup_insert. case_decide; case_bool_decide; naive_solver.
  - intros st p k k'. rewrite lookup_delete. case_decide; case_bool_decide; naive_solver.
  - intros st p k old new Hold. rewrite bool_decide_eq_true_2 by done. eexists; split; [done|].
    intros k'. rewrite lookup_insert. case_decide; case_bool_decide; naive_solver.
  - intros st p k old new Hold. by rewrite bool_decide_eq_false_2.
Qed.

Lemma empty_inv `{BincodeLaws} : offchain_inv (∅ : map_store).
Proof.
  intros e. exists []. split; [done|]. intros k. unfold offchain_view.
  destruct (ser_key k) as [b|]; [|by intros []].
  change (os_get ∅ OFFCHAIN_PREFIX (proof_key e b))
    with ((∅ : gmap (list byte * list byte) (list byte)) !! (OFFCHAIN_PREFIX, proof_key e b)).
  rewrite lookup_empty. by intros [].
Qed.

End MapStorage.

(** ** Properties of the off-chain store *)

Section OffchainProperties.
Context `{BincodeLaws} {St : Type} `{OffchainStorageLaws St}.

(** Adding a proof to the off-chain store succeeds and sets the signature of
    that event and key to the new one, whatever was there; no other signature
    changes, and the store stays well-formed (its index lists every signer). *)
Theorem offchain_last_signature_wins (st : St) (ev : WitnessedEvent) :
  offchain_inv st →
  ∃ st', offchain_add_event_proof ev st = Ret (Ok tt, st') ∧ offchain_inv st' ∧
    ∀ e k, offchain_view st' e k =
      if bool_decide ((e, k) = (event_id ev, pub_key ev)) then Some (signature ev)
      else offchain_view st e k.
Proof. apply offchain_add. Qed.

(** Purging an event removes exactly the signatures of that event by keys
    that are not validators, because the index lists every signer; every
    other signature, of this and of other events, stays. *)
Theorem offchain_purge_exact (st : St) (e : H256) (vs : list CryptoTypePublicPair) :
  offchain_inv st →
  ∃ st', offchain_purge_event_stale_signatures e vs st = Ret (Ok tt, st') ∧ offchain_inv st' ∧
    ∀ e' k, offchain_view st' e' k =
      if bool_decide (e' = e ∧ ¬ k ∈ vs) then None else offchain_view st e' k.
Proof. apply offchain_purge. Qed.

(** A validator list that repeats a key counts that key once per
    occurrence: [get_event_proof_count] then differs from the number of
    entries of [get_event_proofs], to which the trait says it is equivalent. *)
Theorem offchain_count_repetitions (st : St) (e : H256) (k : CryptoTypePublicPair)
    (s : list byte) (n : nat) :
  offchain_view st e k = Some s →
  offchain_get_event_proof_count e (replicate (S n) k) st = Ret (Ok (as_u16 (Z.of_nat (S n))), st) ∧
  ∃ m, offchain_get_event_proofs e (replicate (S n) k) st = Ret (Ok m, st) ∧ size m = 1.
Proof.
  intros Hk. split.
  - rewrite offchain_count. unfold len_as_u16, signers. do 5 f_equal.
    induction n as [|n IH]; cbn; rewrite decide_True by (by rewrite Hk); [done|].
    cbn in *. by rewrite <- IH.
  - destruct (offchain_get st e (replicate (S n) k)) as (m & Hget & Hm).
    exists m. split; [done|].
    assert (m = {[k := s]}) as ->; [|apply map_size_singleton].
    apply map_eq. intros k'. rewrite Hm. case_bool_decide as Hin.
    + apply elem_of_replicate in Hin as [-> _]. by rewrite Hk, lookup_singleton_eq.
    + rewrite lookup_singleton_ne; [done|]. intros ->. apply Hin. left.
Qed.

End OffchainProperties.

Import Codec MapStorage.

(** An event, a key and a signature to evaluate the stores on. *)
Definition example_key : CryptoTypePublicPair := mkPair (x73, x72, x32, x35) [x01].
Definition example_event : WitnessedEvent := mkWitnessed [x2a] example_key (repeat_byte x07).
Definition example_storage : map_store :=
  match offchain_add_event_proof example_event (∅ : map_store) with
  | Ret (_, st) => st
  | _ => ∅
  end.

Lemma offchain_last_signature_wins_witness :
  ∃ st', offchain_add_event_proof example_event (∅ : map_store) =
         Ret (Ok tt, st') ∧ offchain_inv st'.
Proof.
  destruct (offchain_last_signature_wins (∅ : map_store) example_event
    empty_inv) as (st' & H1 & H2 & _).
  exists st'. split; [exact H1|exact H2].
Defined.

Lemma offchain_purge_exact_witness :
  ∃ st', offchain_purge_event_stale_signatures (repeat_byte x07) []
           (∅ : map_store) = Ret (Ok tt, st') ∧ offchain_inv st'.
Proof.
  destruct (offchain_purge_exact (∅ : map_store) (repeat_byte x07) []
    empty_inv) as (st' & H1 & H2 & _).
  exists st'. split; [exact H1|exact H2].
Defined.

Lemma offchain_count_repetitions_witness :
  offchain_get_event_proof_count (repeat_byte x07) [example_key; example_key]
    example_storage = Ret (Ok 2%Z, example_storage).
Proof.
  apply (offchain_count_repetitions example_storage (repeat_byte x07)
    example_key [x2a] 1).
  vm_compute. reflexivity.
Defined.
