(* ===== verification/OffchainConcurrent.v ===== *)
(** * Concurrent writers of the off-chain store

    [consensus/src/proofs/offchain.rs]: the store is shared ([&self] of a [Sync]
    type), and its two writing methods update the index of an event in
    compare-and-set loops.  Here each call is a thread that touches the storage
    in the same order as the code, one storage call at a time, and any number of
    calls interleave at these points.  A thread that runs alone is the
    sequential function of [Offchain]. *)

From stdpp Require Import base decidable list gmap strings relations.
From Stdlib Require Import Strings.Byte ZArith Lia.
From S2P Require Import Prelude Errors Proofs Offchain.

(** ** Threads *)

(** The points of a call between two of its storage operations. *)
Inductive thread `{Bincode} : Type :=
| AddSet (ev : WitnessedEvent)
| AddRead (ev : WitnessedEvent)
| AddCas (ev : WitnessedEvent) (existing_bytes : option (list byte)) (new : list byte)
| PurgeRead (e : H256) (validators : list CryptoTypePublicPair)
| PurgeRetain (e : H256) (validators : list CryptoTypePublicPair)
    (existing_bytes : option (list byte)) (retained rest : list CryptoTypePublicPair)
| PurgeCas (e : H256) (validators : list CryptoTypePublicPair)
    (existing_bytes : option (list byte)) (new : list byte)
| Done (r : result Error unit)
| Panicked.

Section Threads.
Context `{Bincode} {St : Type} `{OffchainStorage St}.

(** One step of [add_event_proof]. *)
Definition add_step (t : thread) (st : St) : option (thread * St) :=
  match t with
  | AddSet ev =>
      match ser_key (pub_key ev) with
      | Err err => Some (Done (Err (from_bincode err)), st)
      | Ok b => Some (AddRead ev,
          os_set OFFCHAIN_PREFIX (proof_key (event_id ev) b) (signature ev) st)
      end
  | AddRead ev =>
      let existing_bytes := os_get st OFFCHAIN_PREFIX (as_bytes (event_id ev)) in
      match decode_signers existing_bytes with
      | Err err => Some (Done (Err (from_bincode err)), st)
      | Ok signers_list =>
          match ser_keys (signers_list ++ [pub_key ev]) with
          | Err err => Some (Done (Err (from_bincode err)), st)
          | Ok new => Some (AddCas ev existing_bytes new, st)
          end
      end
  | AddCas ev existing_bytes new =>
      match os_compare_and_set OFFCHAIN_PREFIX (as_bytes (event_id ev)) existing_bytes new st with
      | (true, st') => Some (Done (Ok tt), st')
      | (false, st') => Some (AddRead ev, st')
      end
  | _ => None
  end.

(** One step of [purge_event_stale_signatures]; the [retain] looks at one signer
    at a time. *)
Definition purge_step (t : thread) (st : St) : option (thread * St) :=
  match t with
  | PurgeRead e vs =>
      let existing_bytes := os_get st OFFCHAIN_PREFIX (as_bytes e) in
      match decode_signers existing_bytes with
      | Err err => Some (Done (Err (from_bincode err)), st)
      | Ok signers_list => Some (PurgeRetain e vs existing_bytes [] signers_list, st)
      end
  | PurgeRetain e vs existing_bytes retained (k :: rest) =>
      if bool_decide (k ∈ vs) then Some (PurgeRetain e vs existing_bytes (retained ++ [k]) rest, st)
      else
        match ser_key k with
        | Err _ => Some (Panicked, st)
        | Ok b => Some (PurgeRetain e vs existing_bytes retained rest,
                        os_remove OFFCHAIN_PREFIX (proof_key e b) st)
        end
  | PurgeRetain e vs existing_bytes retained [] =>
      match ser_keys retained with
      | Err err => Some (Done (Err (from_bincode err)), st)
      | Ok new => Some (PurgeCas e vs existing_bytes new, st)
      end
  | PurgeCas e vs existing_bytes new =>
      match os_compare_and_set OFFCHAIN_PREFIX (as_bytes e) existing_bytes new st with
      | (true, st') => Some (Done (Ok tt), st')
      | (false, st') => Some (PurgeRead e vs, st')
      end
  | _ => None
  end.

Definition thread_step (t : thread) (st : St) : option (thread * St) :=
  match add_step t st with
  | Some r => Some r
  | None => purge_step t st
  end.

(** The thread of a call. *)
Definition start_op (op : store_op) : thread :=
  match op with
  | AddOp ev => AddSet ev
  | PurgeOp e vs => PurgeRead e vs
  end.

(** A thread that runs alone, for at most [fuel] steps. *)
Fixpoint solo (fuel : nat) (t : thread) (st : St) : outcome (result Error unit * St) :=
  match t with
  | Done r => Ret (r, st)
  | Panicked => Panic
  | _ =>
      match fuel with
      | O => Diverge
      | S fuel' =>
          match thread_step t st with
          | Some (t', st') => solo fuel' t' st'
          | None => Diverge
          end
      end
  end.

(** ** Systems of threads *)

Record system := mkSystem {
  storage : St;
  threads : list thread
}.

(** The scheduler lets the thread [i] take its next step. *)
Definition schedule (i : nat) (s : system) : option system :=
  t ← threads s !! i;
  '(t', st') ← thread_step t (storage s);
  Some (mkSystem st' (<[i := t']> (threads s))).

Definition sys_step (s s' : system) : Prop := ∃ i, schedule i s = Some s'.

Fixpoint run_schedule (l : list nat) (s : system) : option system :=
  match l with
  | [] => Some s
  | i :: rest => s' ← schedule i s; run_schedule rest s'
  end.

(** The calls of [ops], all of them at their start. *)
Definition start_system (st : St) (ops : list store_op) : system :=
  mkSystem st (start_op <$> ops).

Definition finished (t : thread) : Prop :=
  match t with
  | Done _ | Panicked => True
  | _ => False
  end.

(** The event of a purge that has read the index and not yet replaced it. *)
Definition purging (t : thread) : option H256 :=
  match t with
  | PurgeRetain e _ _ _ _ | PurgeCas e _ _ _ => Some e
  | _ => None
  end.

(** No two purges of one event overlap. *)
Definition purges_exclusive (s : system) : Prop :=
  ∀ i j t t' e, threads s !! i = Some t → threads s !! j = Some t' →
    purging t = Some e → purging t' = Some e → i = j.

Definition exclusive_step (s s' : system) : Prop := sys_step s s' ∧ purges_exclusive s'.

#[export] Instance finished_dec t : Decision (finished t).
Proof. destruct t; cbn; apply _. Defined.

(** Every index can be read. *)
Definition index_readable (st : St) : Prop :=
  ∀ e, ∃ ks, decode_signers (os_get st OFFCHAIN_PREFIX (as_bytes e)) = Ok ks.

End Threads.

Arguments system {_} St.

(** ** What a step does *)

Section Effects.
Context `{BincodeLaws} {St : Type} `{OffchainStorageLaws St}.

Abbreviation index st e := (os_get st OFFCHAIN_PREFIX (as_bytes e)).
Abbreviation signed st e k := (is_Some (offchain_view st e k)).

(** A write to the index of [e]: the signatures stay. *)
Definition index_written (e : H256) (new : list byte) (st st' : St) : Prop :=
  (∀ e', index st' e' = if bool_decide (e' = e) then Some new else index st e') ∧
  ∀ e' k, offchain_view st' e' k = offchain_view st e' k.

(** A write to the signature of [k] for [e]: the indexes stay. *)
Definition signature_written (e : H256) (k : CryptoTypePublicPair) (v : option (list byte))
    (st st' : St) : Prop :=
  (∀ e', index st' e' = index st e') ∧
  ∀ e' k', offchain_view st' e' k' =
    if bool_decide ((e', k') = (e, k)) then v else offchain_view st e' k'.

Inductive effect (st : St) : thread → thread → St → Prop :=
| EffSet ev st' :
    signature_written (event_id ev) (pub_key ev) (Some (signature ev)) st st' →
    effect st (AddSet ev) (AddRead ev) st'
| EffAddRead ev ks new :
    decode_signers (index st (event_id ev)) = Ok ks → ser_keys (ks ++ [pub_key ev]) = Ok new →
    effect st (AddRead ev) (AddCas ev (index st (event_id ev)) new) st
| EffAddError ev err :
    decode_signers (index st (event_id ev)) = Err err →
    effect st (AddRead ev) (Done (Err (from_bincode err))) st
| EffAddDone ev new st' :
    index_written (event_id ev) new st st' →
    effect st (AddCas ev (index st (event_id ev)) new) (Done (Ok tt)) st'
| EffAddRetry ev existing new :
    index st (event_id ev) ≠ existing →
    effect st (AddCas ev existing new) (AddRead ev) st
| EffPurgeRead e vs ks :
    decode_signers (index st e) = Ok ks →
    effect st (PurgeRead e vs) (PurgeRetain e vs (index st e) [] ks) st
| EffPurgeError e vs err :
    decode_signers (index st e) = Err err →
    effect st (PurgeRead e vs) (Done (Err (from_bincode err))) st
| EffKeep e vs existing retained k rest :
    k ∈ vs →
    effect st (PurgeRetain e vs existing retained (k :: rest))
      (PurgeRetain e vs existing (retained ++ [k]) rest) st
| EffRemove e vs existing retained k rest st' :
    ¬ k ∈ vs → signature_written e k None st st' →
    effect st (PurgeRetain e vs existing retained (k :: rest))
      (PurgeRetain e vs existing retained rest) st'
| EffRetained e vs existing retained new :
    ser_keys retained = Ok new →
    effect st (PurgeRetain e vs existing retained []) (PurgeCas e vs existing new) st
| EffPurgeDone e vs new st' :
    index_written e new st st' →
    effect st (PurgeCas e vs (index st e) new) (Done (Ok tt)) st'
| EffPurgeRetry e vs existing new :
    index st e ≠ existing →
    effect st (PurgeCas e vs existing new) (PurgeRead e vs) st.

(** The compare-and-set of the two loops. *)
Lemma cas_cases st e old new b st' :
  os_compare_and_set OFFCHAIN_PREFIX (as_bytes e) old new st = (b, st') →
  (b = true ∧ index st e = old ∧ index_written e new st st') ∨
  (b = false ∧ index st e ≠ old ∧ st' = st).
Proof.
  intros E. destruct (decide (index st e = old)) as [Hold|Hold].
  - left. destruct (os_cas_success st OFFCHAIN_PREFIX (as_bytes e) old new Hold)
      as (st1 & E1 & Hst1). rewrite E in E1. injection E1 as -> <-. split_and!; [done..|]. split.
    + intros e'. rewrite Hst1. repeat case_bool_decide; simplify_eq; done.
    + apply (offchain_view_index st st' e). intros key Hkey.
      by rewrite Hst1, bool_decide_eq_false_2.
  - right. rewrite (os_cas_failure st OFFCHAIN_PREFIX (as_bytes e) old new Hold) in E.
    by injection E as <- <-.
Qed.

Lemma thread_step_effect t st t' st' :
  thread_step t st = Some (t', st') → effect st t t' st'.
Proof.
  destruct t as [ev|ev|ev old new|e vs|e vs old kept [|k rest]|e vs old new|r|];
    unfold thread_step; cbn [add_step purge_step]; [..|done|done].
  - destruct (ser_key_total (pub_key ev)) as [b Hb]. rewrite Hb. intros [= <- <-].
    apply EffSet. by apply offchain_set_view.
  - destruct (decode_signers _) as [ks|err] eqn:Hks; [|intros [= <- <-]; by constructor].
    destruct (ser_keys_total (ks ++ [pub_key ev])) as [new Hnew]. rewrite Hnew.
    intros [= <- <-]. by econstructor.
  - destruct (os_compare_and_set _ _ _ _ _) as [[] st1] eqn:E; intros [= <- <-];
      apply cas_cases in E as [(? & <- & ?)|(? & ? & ->)]; by try constructor.
  - destruct (decode_signers _) as [ks|err] eqn:Hks; intros [= <- <-]; by constructor.
  - destruct (ser_keys_total kept) as [new Hnew]. rewrite Hnew. intros [= <- <-]. by constructor.
  - case_bool_decide; [intros [= <- <-]; by constructor|].
    destruct (ser_key_total k) as [b Hb]. rewrite Hb. intros [= <- <-].
    constructor; [done|]. by apply offchain_remove_view.
  - destruct (os_compare_and_set _ _ _ _ _) as [[] st1] eqn:E; intros [= <- <-];
      apply cas_cases in E as [(? & <- & ?)|(? & ? & ->)]; by try constructor.
Qed.

(** A thread that has not finished can take a step. *)
Lemma thread_step_total t st : ¬ finished t → is_Some (thread_step t st).
Proof.
  intros Ht. unfold thread_step.
  destruct t as [ev|ev|ev old new|e vs|e vs old kept [|k rest]|e vs old new|r|];
    cbn [add_step purge_step]; [..|by destruct Ht|by destruct Ht];
    repeat case_match; simplify_eq; by eexists.
Qed.

Lemma thread_step_finished t st : finished t → thread_step t st = None.
Proof. by destruct t. Qed.

Lemma sys_step_inv (s s' : system St) :
  sys_step s s' → ∃ i t t', threads s !! i = Some t ∧ effect (storage s) t t' (storage s') ∧
    threads s' = <[i := t']> (threads s).
Proof.
  intros [i Hi]. unfold schedule in Hi. apply bind_Some in Hi as (t & Ht & Hi).
  apply bind_Some in Hi as ([t' st'] & Hstep & [= <-]).
  exists i, t, t'. split_and!; [done| |done]. by apply thread_step_effect.
Qed.

Lemma run_schedule_rtc l (s s' : system St) : run_schedule l s = Some s' → rtc sys_step s s'.
Proof.
  revert s. induction l as [|i l IH]; cbn; intros s; [by intros [= <-]|].
  intros (s1 & Hi & Hl)%bind_Some. eapply rtc_l; [by exists i|]. by apply IH.
Qed.

(** A state from which no thread can go on is one where all have finished. *)
Lemma nf_finished (s : system St) : nf sys_step s → Forall finished (threads s).
Proof.
  intros Hnf. apply Forall_lookup. intros i t Ht. destruct (decide (finished t)) as [?|Hn]; [done|].
  destruct Hnf. destruct (thread_step_total t (storage s) Hn) as [[t' st'] Hstep].
  exists (mkSystem st' (<[i := t']> (threads s))), i. unfold schedule. by rewrite Ht; cbn; rewrite Hstep.
Qed.

End Effects.

(** ** No call fails *)

Section Safety.
Context `{BincodeLaws} {St : Type} `{OffchainStorageLaws St}.

Abbreviation index st e := (os_get st OFFCHAIN_PREFIX (as_bytes e)).
Abbreviation signed st e k := (is_Some (offchain_view st e k)).

(** What a thread knows about what it has read. *)
Definition thread_ok (t : thread) : Prop :=
  match t with
  | AddCas ev existing new =>
      ∃ ks, decode_signers existing = Ok ks ∧ ser_keys (ks ++ [pub_key ev]) = Ok new
  | PurgeRetain _ vs existing retained rest =>
      ∃ seen, decode_signers existing = Ok (seen ++ rest) ∧ retained = filter (.∈ vs) seen
  | PurgeCas _ vs existing new =>
      ∃ ks, decode_signers existing = Ok ks ∧ ser_keys (filter (.∈ vs) ks) = Ok new
  | Done r => r = Ok tt
  | Panicked => False
  | _ => True
  end.

Lemma index_written_decoded e new ks (st st' : St) :
  index_written e new st st' → ser_keys ks = Ok new →
  ∀ e', decode_signers (index st' e') =
    if bool_decide (e' = e) then Ok ks else decode_signers (index st e').
Proof.
  intros [Hi _] Hks e'. rewrite Hi. case_bool_decide; [|done]. cbn. by apply de_ser_keys.
Qed.

Lemma effect_ok st t t' st' :
  effect st t t' st' → index_readable st → thread_ok t → index_readable st' ∧ thread_ok t'.
Proof.
  intros Heff Hst Ht.
  destruct Heff as [ev st' [Hi _]|ev ks new Hks Hnew|ev err Herr|ev new st' Hw|ev old new Hne
    |e vs ks Hks|e vs err Herr|e vs old kept k rest Hk|e vs old kept k rest st' Hk [Hi _]
    |e vs old kept new Hnew|e vs new st' Hw|e vs old new Hne]; cbn [thread_ok] in *.
  - split; [|done]. intros e. rewrite Hi. apply Hst.
  - eauto.
  - destruct (Hst (event_id ev)); congruence.
  - destruct Ht as (ks & _ & Hnew). split; [|done]. intros e.
    rewrite (index_written_decoded _ _ _ _ _ Hw Hnew). case_bool_decide; eauto.
  - done.
  - split; [done|]. by exists [].
  - destruct (Hst e); congruence.
  - split; [done|]. destruct Ht as (seen & Hold & ->). exists (seen ++ [k]).
    rewrite <- app_assoc, filter_app, filter_cons. rewrite decide_True by done. done.
  - split; [intros e'; rewrite Hi; apply Hst|]. destruct Ht as (seen & Hold & ->).
    exists (seen ++ [k]). rewrite <- app_assoc, filter_app, filter_cons.
    rewrite decide_False, filter_nil, app_nil_r by done. done.
  - split; [done|]. destruct Ht as (seen & Hold & ->). rewrite app_nil_r in Hold. eauto.
  - destruct Ht as (ks & _ & Hnew). split; [|done]. intros e'.
    rewrite (index_written_decoded _ _ _ _ _ Hw Hnew). case_bool_decide; eauto.
  - done.
Qed.

Definition system_ok (s : system St) : Prop :=
  index_readable (storage s) ∧ Forall thread_ok (threads s).

Lemma writers_step_ok s s' : sys_step s s' → system_ok s → system_ok s'.
Proof.
  intros (i & t & t' & Ht & Heff & E)%sys_step_inv [Hst Hts].
  pose proof (Forall_lookup_1 _ _ _ _ Hts Ht) as Hok.
  destruct (effect_ok _ _ _ _ Heff Hst Hok) as [Hst' Hok']. split; [done|].
  rewrite E. by apply Forall_insert.
Qed.

Lemma writers_steps_ok s s' : rtc sys_step s s' → system_ok s → system_ok s'.
Proof. induction 1; eauto using writers_step_ok. Qed.

Lemma start_system_ok st ops : index_readable st → system_ok (start_system st ops).
Proof.
  intros Hst. split; [done|]. apply Forall_fmap, Forall_true. by intros [].
Qed.

(** ** Histories of concurrent calls *)

(** A thread of the call [op]. *)
Definition thread_of (op : store_op) (t : thread) : Prop :=
  match op, t with
  | AddOp ev, (AddSet ev' | AddRead ev' | AddCas ev' _ _) => ev' = ev
  | PurgeOp e vs, (PurgeRead e' vs' | PurgeRetain e' vs' _ _ _ | PurgeCas e' vs' _ _) =>
      e' = e ∧ vs' = vs
  | _, Done _ => True
  | _, _ => False
  end.

(** A key that every purge of the event lists as a validator. *)
Definition protected (ops : list store_op) (e : H256) (k : CryptoTypePublicPair) : Prop :=
  ∀ vs, PurgeOp e vs ∈ ops → k ∈ vs.

Record history (st0 : St) (ops : list store_op) (s : system St) : Prop := mkHistory {
  hist_threads : Forall2 thread_of ops (threads s);
  hist_origin e k sig : offchain_view (storage s) e k = Some sig →
    offchain_view st0 e k = Some sig ∨ AddOp (mkWitnessed sig k e) ∈ ops;
  hist_kept e k : protected ops e k → signed st0 e k → signed (storage s) e k;
  hist_added i ev : ops !! i = Some (AddOp ev) → threads s !! i ≠ Some (AddSet ev) →
    protected ops (event_id ev) (pub_key ev) → signed (storage s) (event_id ev) (pub_key ev)
}.

(** The signatures a step leaves behind: none appears that the call does not
    add, none of a protected key disappears. *)
Lemma effect_history ops op t t' st st' :
  effect st t t' st' → op ∈ ops → thread_of op t → thread_ok t' →
  thread_of op t' ∧
  (∀ e k sig, offchain_view st' e k = Some sig →
     offchain_view st e k = Some sig ∨ op = AddOp (mkWitnessed sig k e)) ∧
  (∀ e k, protected ops e k → signed st e k → signed st' e k) ∧
  (∀ ev, op = AddOp ev → t = AddSet ev → signed st' (event_id ev) (pub_key ev)) ∧
  (∀ ev, t' ≠ AddSet ev).
Proof.
  intros Heff Hop Ht Hok.
  destruct Heff as [ev st' [_ Hv]|ev ks new Hks Hnew|ev err Herr|ev new st' [_ Hv]|ev old new Hne
    |e vs ks Hks|e vs err Herr|e vs old kept k rest Hk|e vs old kept k rest st' Hk [_ Hv]
    |e vs old kept new Hnew|e vs new st' [_ Hv]|e vs old new Hne];
    destruct op as [ev0|e0 vs0]; cbn in Ht, Hok; try done; simplify_eq;
    try (split_and!; try setoid_rewrite Hv; by eauto).
  - split_and!; [done|..|done].
    + intros e k sig. rewrite Hv. case_bool_decide; simplify_eq; [|by left].
      intros [= <-]. right. by destruct ev0.
    + intros e k _ Hs. rewrite Hv. by case_bool_decide.
    + intros ev [= <-] _. by rewrite Hv, bool_decide_eq_true_2.
  - destruct Ht as [-> ->]. split_and!; [done|..|done|done].
    + intros e k' sig. rewrite Hv. case_bool_decide; [done|by left].
    + intros e k' Hprot Hs. rewrite Hv. case_bool_decide; [|done]. simplify_eq.
      destruct Hk. by apply Hprot.
Qed.

Lemma history_step st0 ops s s' :
  sys_step s s' → system_ok s → history st0 ops s → history st0 ops s'.
Proof.
  intros Hstep Hok [Hts Horig Hkept Hadd].
  pose proof (writers_step_ok _ _ Hstep Hok) as [_ Hok'].
  apply sys_step_inv in Hstep as (i & t & t' & Ht & Heff & E).
  destruct (Forall2_lookup_r _ _ _ _ _ Hts Ht) as (op & Hop & Hof).
  assert (thread_ok t') as Ht'.
  { eapply (Forall_lookup_1 _ _ i); [exact Hok'|]. rewrite E.
    apply list_lookup_insert_eq. by eapply lookup_lt_Some. }
  destruct (effect_history ops op t t' (storage s) (storage s'))
    as (Hof' & Hnew & Hkeep & Hset & Hstarted); [done|by eapply list_elem_of_lookup_2|done..|].
  split.
  - rewrite E. apply Forall2_lookup. intros j. destruct (decide (i = j)) as [<-|Hne].
    + rewrite Hop, list_lookup_insert_eq by (by eapply lookup_lt_Some). by constructor.
    + rewrite list_lookup_insert_ne by done. by apply Forall2_lookup.
  - intros e k sig Hs. destruct (Hnew e k sig Hs) as [Hs0| ->]; [by apply Horig|].
    right. by eapply list_elem_of_lookup_2.
  - intros e k Hprot Hs. by apply Hkeep, Hkept.
  - intros j ev Hj Hnot Hprot. rewrite E in Hnot. destruct (decide (i = j)) as [<-|Hne].
    + rewrite Hop in Hj. injection Hj as ->.
      assert (t = AddSet ev ∨ t ≠ AddSet ev) as [->|Hn]
        by (destruct t; cbn in Hof; simplify_eq; auto); [by apply Hset|].
      apply Hkeep; [done|]. apply (Hadd i); [done|congruence|done].
    + rewrite list_lookup_insert_ne in Hnot by done. apply Hkeep; [done|]. by eapply Hadd.
Qed.

Lemma history_start st ops : history st ops (start_system st ops).
Proof.
  split; cbn; [|by left|done|].
  - apply Forall2_fmap_r, Forall_Forall2_diag, Forall_true. by intros [].
  - intros i ev Hi Hnot. destruct Hnot. by rewrite list_lookup_fmap, Hi.
Qed.

Lemma history_steps st ops s' :
  index_readable st → rtc sys_step (start_system st ops) s' → history st ops s'.
Proof.
  intros Hst Hsteps. pose proof (start_system_ok st ops Hst) as Hok.
  pose proof (history_start st ops) as Hh.
  induction Hsteps as [|s s1 s' Hstep _ IH]; [done|].
  apply IH; [by eapply writers_step_ok|by eapply history_step].
Qed.

(** C17: concurrent additions and purges of the off-chain store lose and invent
    nothing.  From a storage whose indexes can be read, under every interleaving
    of the storage accesses of any number of calls: the indexes stay readable,
    no call panics or returns an error; a stored signature was there before or
    was added by one of the calls for that event and key; and a key that every
    purge of an event lists as a validator keeps the signature it had for that
    event, and has one as soon as a call that adds one has returned. *)
Theorem concurrent_history (st : St) (ops : list store_op) (s' : system St) :
  index_readable st → rtc sys_step (start_system st ops) s' →
  index_readable (storage s') ∧
  (∀ t, t ∈ threads s' → t ≠ Panicked ∧ ∀ r, t = Done r → r = Ok tt) ∧
  (∀ e k sig, offchain_view (storage s') e k = Some sig →
     offchain_view st e k = Some sig ∨ AddOp (mkWitnessed sig k e) ∈ ops) ∧
  (∀ e k, protected ops e k → signed st e k → signed (storage s') e k) ∧
  (∀ i ev r, ops !! i = Some (AddOp ev) → threads s' !! i = Some (Done r) →
     protected ops (event_id ev) (pub_key ev) → signed (storage s') (event_id ev) (pub_key ev)).
Proof.
  intros Hst Hsteps. destruct (history_steps st ops s' Hst Hsteps) as [_ Horig Hkept Hadd].
  destruct (writers_steps_ok _ _ Hsteps (start_system_ok st ops Hst)) as [Hr Hts].
  split_and!; [done| |done..|].
  - rewrite Forall_forall in Hts. intros t Ht%Hts. destruct t; cbn in Ht; naive_solver.
  - intros i ev r Hi Ht. apply (Hadd i); [done|]. by rewrite Ht.
Qed.

(** ** Termination *)

(** The steps that a thread still takes while the indexes stay as they are: a
    thread that has read another value of the index goes through its loop once
    more. *)
Definition signers_count (st : St) (e : H256) : nat :=
  match decode_signers (index st e) with
  | Ok ks => length ks
  | Err _ => 0
  end.

Definition rank (st : St) (t : thread) : nat :=
  match t with
  | AddSet _ => 3
  | AddRead _ => 2
  | AddCas ev existing _ => if decide (index st (event_id ev) = existing) then 1 else 3
  | PurgeRead e _ => signers_count st e + 3
  | PurgeRetain e _ existing _ rest =>
      length rest + 2 +
      (if decide (index st e = existing) then 0 else signers_count st e + 3)
  | PurgeCas e _ existing _ =>
      1 + (if decide (index st e = existing) then 0 else signers_count st e + 3)
  | Done _ | Panicked => 0
  end.

Definition unfinished (t : thread) : nat := if decide (finished t) then 0 else 1.

(** A step finishes its thread, or leaves the indexes alone and gets nearer to
    its end. *)
Lemma effect_rank st t t' st' :
  effect st t t' st' →
  (unfinished t = 1 ∧ unfinished t' = 0) ∨
  (unfinished t = 1 ∧ unfinished t' = 1 ∧ (∀ e, index st' e = index st e) ∧
   rank st' t' < rank st t).
Proof.
  intros Heff.
  destruct Heff as [ev st' [Hi _]|ev ks new Hks Hnew|ev err Herr|ev new st' Hw|ev old new Hne
    |e vs ks Hks|e vs err Herr|e vs old kept k rest Hk|e vs old kept k rest st' Hk [Hi _]
    |e vs old kept new Hnew|e vs new st' Hw|e vs old new Hne];
    try (left; done); right; (split_and!; [done..|]); cbn [rank length].
  - lia.
  - rewrite decide_True by done. lia.
  - rewrite decide_False by done. lia.
  - rewrite decide_True by done. unfold signers_count. rewrite Hks. lia.
  - lia.
  - unfold signers_count. rewrite !Hi. lia.
  - lia.
  - rewrite decide_False by done. lia.
Qed.

Lemma rank_ext st st' t : (∀ e, index st' e = index st e) → rank st' t = rank st t.
Proof. intros Hi. destruct t; cbn [rank]; unfold signers_count; by rewrite ?Hi. Qed.

Lemma sum_list_with_ext {A} (f g : A → nat) l :
  (∀ x, f x = g x) → sum_list_with f l = sum_list_with g l.
Proof. intros Hfg. induction l as [|x l IH]; cbn; [done|]. by rewrite Hfg, IH. Qed.

Lemma sys_step_measure (s s' : system St) :
  sys_step s s' →
  sum_list_with unfinished (threads s') < sum_list_with unfinished (threads s) ∨
  (sum_list_with unfinished (threads s') = sum_list_with unfinished (threads s) ∧
   sum_list_with (rank (storage s')) (threads s') < sum_list_with (rank (storage s)) (threads s)).
Proof.
  intros (i & t & t' & Ht & Heff & E)%sys_step_inv. rewrite E.
  pose proof (sum_list_with_insert unfinished _ _ _ t' Ht) as Hu.
  pose proof (sum_list_with_insert (rank (storage s')) _ _ _ t' Ht) as Hr.
  destruct (effect_rank _ _ _ _ Heff) as [[Ht1 Ht2]|(Ht1 & Ht2 & Hi & Hrank)]; [left; lia|right].
  rewrite (sum_list_with_ext (rank (storage s')) (rank (storage s)) (threads s)) in Hr
    by (intros; by apply rank_ext).
  rewrite (rank_ext _ _ t Hi) in Hr. lia.
Qed.

Lemma sys_step_sn (s : system St) : sn sys_step s.
Proof.
  remember (sum_list_with unfinished (threads s)) as u eqn:Hu.
  revert s Hu. induction (lt_wf u) as [u _ IHu]. intros s Hu.
  remember (sum_list_with (rank (storage s)) (threads s)) as m eqn:Hm.
  revert s Hu Hm. induction (lt_wf m) as [m _ IHm]. intros s Hu Hm.
  constructor. intros s' Hstep. apply sys_step_measure in Hstep as [Hlt|[Heq Hlt]].
  - eapply IHu; [|done]. lia.
  - eapply IHm; [|by rewrite Heq|done]. lia.
Qed.

(** C16: the compare-and-set loops end.  However the storage accesses of any
    number of concurrent additions and purges interleave, fairly or not, only
    finitely many steps are taken; and where no thread can go on, every call has
    returned [Ok(())]: a call repeats its loop only when another call has
    finished its own. *)
Theorem writers_terminate (st : St) (ops : list store_op) :
  index_readable st →
  sn sys_step (start_system st ops) ∧
  ∀ s', rtc sys_step (start_system st ops) s' → nf sys_step s' →
    threads s' = replicate (length ops) (Done (Ok tt)).
Proof.
  intros Hst. split; [apply sys_step_sn|]. intros s' Hsteps Hnf%nf_finished.
  destruct (writers_steps_ok _ _ Hsteps (start_system_ok st ops Hst)) as [_ Hts].
  destruct (history_steps st ops s' Hst Hsteps) as [Hlen%Forall2_length _ _ _].
  symmetry. apply replicate_as_elem_of. split; [done|]. intros t Ht.
  rewrite Forall_forall in Hnf, Hts. specialize (Hnf t Ht). specialize (Hts t Ht).
  destruct t; cbn in Hnf, Hts; try done. by subst.
Qed.

End Safety.

(** ** The index under concurrent writers *)

Section Index.
Context `{BincodeLaws} {St : Type} `{OffchainStorageLaws St}.

Abbreviation index st e := (os_get st OFFCHAIN_PREFIX (as_bytes e)).
Abbreviation signed st e k := (is_Some (offchain_view st e k)).

(** The signer that a thread has stored a signature of and not yet pushed to
    the index. *)
Definition adding (t : thread) : option (H256 * CryptoTypePublicPair) :=
  match t with
  | AddRead ev | AddCas ev _ _ => Some (event_id ev, pub_key ev)
  | _ => None
  end.

Definition pending (ts : list thread) (e : H256) (k : CryptoTypePublicPair) : Prop :=
  ∃ t, t ∈ ts ∧ adding t = Some (e, k).

(** The index has grown since a purge read it. *)
Definition overtaken (st : St) (e : H256) (existing : option (list byte)) : Prop :=
  ∃ ks ks', decode_signers existing = Ok ks ∧ decode_signers (index st e) = Ok ks' ∧
    length ks < length ks'.

(** A purge that will replace the index has seen every signer that is not a
    validator, unless the signer's own call has yet to push it. *)
Definition purge_inv (st : St) (pend : H256 → CryptoTypePublicPair → Prop) (t : thread) : Prop :=
  match t with
  | PurgeRetain e vs existing _ rest =>
      (index st e = existing ∧ ∀ k, signed st e k → k ∈ vs ∨ k ∈ rest ∨ pend e k) ∨
      overtaken st e existing
  | PurgeCas e vs existing _ =>
      (index st e = existing ∧ ∀ k, signed st e k → k ∈ vs ∨ pend e k) ∨
      overtaken st e existing
  | _ => True
  end.

(** Every signer is in the index, or its call has yet to push it. *)
Definition index_covered (st : St) (ts : list thread) : Prop :=
  ∀ e k ks, decode_signers (index st e) = Ok ks → signed st e k → k ∈ ks ∨ pending ts e k.

Record index_inv (s : system St) : Prop := mkIndexInv {
  ii_ok : system_ok s;
  ii_exclusive : purges_exclusive s;
  ii_index : index_covered (storage s) (threads s);
  ii_purge : Forall (purge_inv (storage s) (pending (threads s))) (threads s)
}.

Lemma purge_inv_mono st st' (pend pend' : H256 → CryptoTypePublicPair → Prop) t :
  (∀ e, index st' e = index st e) →
  (∀ e k, signed st' e k → signed st e k ∨ pend' e k) →
  (∀ e k, pend e k → pend' e k) →
  purge_inv st pend t → purge_inv st' pend' t.
Proof.
  intros Hi Hs Hp. destruct t; cbn [purge_inv]; try done; unfold overtaken; rewrite Hi;
    intros [[-> Hk]|Hover]; [left|by right|left|by right];
    (split; [done|]); intros k [Hk'|?]%Hs; try destruct (Hk k Hk') as [?|[?|?]]; naive_solver.
Qed.

Lemma purge_inv_write e0 new st st' (pend pend' : H256 → CryptoTypePublicPair → Prop) t :
  index_written e0 new st st' → purging t ≠ Some e0 →
  (∀ e k, e ≠ e0 → pend e k → pend' e k) →
  purge_inv st pend t → purge_inv st' pend' t.
Proof.
  intros [Hi Hv] Ht Hp. destruct t; cbn [purge_inv purging] in *; try done; unfold overtaken;
    rewrite Hi, bool_decide_eq_false_2 by congruence;
    (intros [[-> Hk]|Hover]; [left; split; [done|]; intros k; rewrite Hv; intros Hs|by right]);
    destruct (Hk k Hs) as [?|?]; naive_solver.
Qed.

(** Pushing a signer overtakes every purge of its event. *)
Lemma purge_inv_push e0 k0 ks new st st' (pend pend' : H256 → CryptoTypePublicPair → Prop) t :
  index_written e0 new st st' → decode_signers (index st e0) = Ok ks →
  ser_keys (ks ++ [k0]) = Ok new → (∀ e k, e ≠ e0 → pend e k → pend' e k) →
  purge_inv st pend t → purge_inv st' pend' t.
Proof.
  intros Hw Hks Hnew Hp Ht.
  destruct (decide (purging t = Some e0)) as [Hpt|Hpt]; [|by eapply purge_inv_write].
  pose proof (index_written_decoded _ _ _ _ _ Hw Hnew e0) as Hd.
  rewrite bool_decide_eq_true_2 in Hd by done.
  destruct t; cbn [purging purge_inv] in *; simplify_eq; right;
    destruct Ht as [[<- _]|(ks1 & ks2 & E1 & E2 & Hlt)].
  all: [> exists ks, (ks ++ [k0])|exists ks1, (ks ++ [k0])
         |exists ks, (ks ++ [k0])|exists ks1, (ks ++ [k0])].
  all: rewrite length_app; cbn [length]; split_and!; try done; try lia.
  all: rewrite Hks in E2; injection E2 as ->; lia.
Qed.

(** What happens to the pending signers when one thread moves. *)
Lemma pending_insert ts i t t' e k :
  ts !! i = Some t → pending ts e k → adding t = Some (e, k) ∨ pending (<[i := t']> ts) e k.
Proof.
  intros Ht (t1 & [j Hj]%list_elem_of_lookup_1 & Ha). destruct (decide (i = j)) as [<-|Hne].
  - left. congruence.
  - right. exists t1. split; [|done]. apply (list_elem_of_lookup_2 _ j).
    by rewrite list_lookup_insert_ne.
Qed.

Lemma pending_new ts i t t' e k :
  ts !! i = Some t → adding t' = Some (e, k) → pending (<[i := t']> ts) e k.
Proof.
  intros Ht Ha. exists t'. split; [|done]. apply (list_elem_of_lookup_2 _ i).
  apply list_lookup_insert_eq. by eapply lookup_lt_Some.
Qed.

Lemma pending_kept ts i t t' e k :
  ts !! i = Some t → adding t = None ∨ adding t' = adding t →
  pending ts e k → pending (<[i := t']> ts) e k.
Proof.
  intros Ht Ha Hp. destruct (pending_insert ts i t t' e k Ht Hp) as [Hadd|?]; [|done].
  destruct Ha as [Ha|Ha]; [congruence|]. eapply pending_new; [done..|]. by rewrite Ha.
Qed.

(** A step that writes no index. *)
Lemma quiet_step st st' ts ts' :
  (∀ e, index st' e = index st e) →
  (∀ e k, signed st' e k → signed st e k ∨ pending ts' e k) →
  (∀ e k, pending ts e k → pending ts' e k) →
  index_covered st ts → Forall (purge_inv st (pending ts)) ts →
  index_covered st' ts' ∧ Forall (purge_inv st' (pending ts')) ts.
Proof.
  intros Hi Hs Hp Hind Hpur. split.
  - intros e k ks. rewrite Hi. intros Hks [Hk|?]%Hs; [|by right].
    destruct (Hind e k ks Hks Hk); eauto.
  - eapply Forall_impl; [done|]. intros tj. by apply purge_inv_mono.
Qed.

(** A step that replaces the index of [e0]. *)
Lemma covered_write st st' ts ts' e0 ks0 new :
  index_written e0 new st st' → ser_keys ks0 = Ok new →
  (∀ e k, e ≠ e0 → pending ts e k → pending ts' e k) →
  (∀ k, signed st e0 k → k ∈ ks0 ∨ pending ts' e0 k) →
  index_covered st ts → index_covered st' ts'.
Proof.
  intros Hw Hnew Hp He0 Hind e k ks. rewrite (index_written_decoded _ _ _ _ _ Hw Hnew).
  destruct Hw as [_ Hv]. rewrite Hv. case_bool_decide as He.
  - subst e. intros [= <-] Hk. by apply He0.
  - intros Hks Hk. destruct (Hind e k ks Hks Hk); eauto.
Qed.

(** The steps that write no index: every purge in flight keeps its invariant,
    and so does the thread that moved. *)
Lemma quiet_effect st ts i t t' st' :
  ts !! i = Some t → effect st t t' st' → ¬ finished t' →
  index_covered st ts → Forall (purge_inv st (pending ts)) ts →
  index_covered st' (<[i := t']> ts) ∧
  Forall (purge_inv st' (pending (<[i := t']> ts))) (<[i := t']> ts).
Proof.
  intros Ht Heff Hrun Hind Hpur. pose proof (Forall_lookup_1 _ _ _ _ Hpur Ht) as Hpt.
  assert ((∀ e, index st' e = index st e) ∧
    (∀ e k, signed st' e k → signed st e k ∨ pending (<[i := t']> ts) e k) ∧
    (adding t = None ∨ adding t' = adding t)) as (Hi & Hs & Ha).
  { destruct Heff as [ev st' [Hi Hv]| | | | | | | |e vs old kept k rest st' Hk [Hi Hv]| | |];
      try (by destruct Hrun); (split_and!; [done| |by (left + right)]); try by left.
    - intros e k. rewrite Hv. case_bool_decide; simplify_eq; [right|by left]. by eapply pending_new.
    - intros e' k'. rewrite Hv. case_bool_decide; [by intros []|by left]. }
  destruct (quiet_step st st' ts (<[i := t']> ts)) as [Hind' Hpur']; [done..| |done|done|].
  { intros e k. by eapply pending_kept. }
  split; [done|]. apply Forall_insert; [done|].
  eapply purge_inv_mono in Hpt; [|exact Hi|exact Hs|intros e k; by eapply pending_kept].
  destruct Heff as [| | | | |e vs ks Hks| |e vs old kept k rest Hk|e vs old kept k rest st' Hk [_ Hv]
    |e vs old kept new Hnew| |]; cbn [purge_inv] in *; try done.
  - left. split; [done|]. intros k Hk. right. by apply Hind'.
  - destruct Hpt as [[? Hpt]|?]; [left; split; [done|]|by right].
    intros k' Hk'. destruct (Hpt k' Hk') as [?|[?|?]]; set_solver.
  - destruct Hpt as [[? Hpt]|?]; [left; split; [done|]|by right].
    intros k' Hk'. destruct (Hpt k' Hk') as [?|[[->|?]%elem_of_cons|?]]; [by left| |by auto..].
    rewrite Hv, bool_decide_eq_true_2 in Hk' by done. by destruct Hk'.
  - destruct Hpt as [[? Hpt]|?]; [left; split; [done|]|by right].
    intros k' Hk'. destruct (Hpt k' Hk') as [?|[[]%elem_of_nil|?]]; auto.
Qed.

(** The steps that replace an index. *)
Lemma write_effect (s : system St) i t st' :
  threads s !! i = Some t → effect (storage s) t (Done (Ok tt)) st' → index_inv s →
  index_covered st' (<[i := Done (Ok tt)]> (threads s)) ∧
  Forall (purge_inv st' (pending (<[i := Done (Ok tt)]> (threads s)))) (<[i := Done (Ok tt)]> (threads s)).
Proof.
  intros Ht Heff [[Hread Hts] Hex Hind Hpur].
  pose proof (Forall_lookup_1 _ _ _ _ Hts Ht) as Hok.
  pose proof (Forall_lookup_1 _ _ _ _ Hpur Ht) as Hpt.
  set (ts' := <[i := Done (Ok tt)]> (threads s)).
  inversion Heff as [| | |ev new st1 Hw| | | | | | |e vs new st1 Hw|]; subst; cbn [thread_ok] in Hok.
  - destruct Hok as (ks & Hks & Hnew).
    assert (∀ e k, e ≠ event_id ev → pending (threads s) e k → pending ts' e k) as Hpend.
    { intros e k He Hp. destruct (pending_insert _ i _ (Done (Ok tt)) e k Ht Hp) as [Ha|?]; [|done].
      by injection Ha as <- <-. }
    split.
    + eapply covered_write; [done..| |done]. intros k Hk.
      destruct (Hind _ k ks Hks Hk) as [?|Hp]; [left; set_solver|].
      destruct (pending_insert _ i _ (Done (Ok tt)) _ k Ht Hp) as [Ha|?]; [|by right].
      injection Ha as <-. left. set_solver.
    + apply Forall_insert; [|done]. eapply Forall_impl; [exact Hpur|]. intros tj.
      by eapply purge_inv_push.
  - destruct Hok as (ks & Hks & Hnew).
    assert (∀ e k, pending (threads s) e k → pending ts' e k) as Hpend.
    { intros e' k. eapply pending_kept; [done|]. by left. }
    destruct Hpt as [[_ Hpt]|(ks1 & ks2 & E1 & E2 & Hlt)]; [|rewrite E1 in E2; simplify_eq; lia].
    split.
    + eapply covered_write; [done|done|intros e' k _; apply Hpend| |done]. intros k Hk.
      destruct (Hpt k Hk) as [Hvs|?]; [|by auto].
      destruct (Hind _ k ks Hks Hk) as [?|?]; [left|by auto]. by apply list_elem_of_filter.
    + apply Forall_lookup. intros j tj Hj. subst ts'. destruct (decide (i = j)) as [<-|Hne].
      { rewrite list_lookup_insert_eq in Hj by (by eapply lookup_lt_Some). by simplify_eq. }
      rewrite list_lookup_insert_ne in Hj by done.
      eapply (purge_inv_write e); [done|..|by eapply Forall_lookup_1 in Hpur].
      * intros Hp. destruct Hne. by eapply Hex.
      * auto.
Qed.

Lemma index_inv_step (s s' : system St) : exclusive_step s s' → index_inv s → index_inv s'.
Proof.
  intros [Hstep Hex'] Hinv. pose proof Hinv as [Hok _ Hind Hpur].
  pose proof (writers_step_ok _ _ Hstep Hok) as Hok'.
  apply sys_step_inv in Hstep as (i & t & t' & Ht & Heff & E).
  assert (thread_ok t') as Ht'.
  { destruct Hok' as [_ Hok']. eapply (Forall_lookup_1 _ _ i); [exact Hok'|]. rewrite E.
    apply list_lookup_insert_eq. by eapply lookup_lt_Some. }
  assert (index_covered (storage s') (threads s') ∧
    Forall (purge_inv (storage s') (pending (threads s'))) (threads s')) as [? ?]; [|by split].
  rewrite E. destruct (decide (finished t')) as [Hf|Hf]; [|by eapply quiet_effect].
  destruct t'; cbn in Hf, Ht'; try done. subst. by apply write_effect with t.
Qed.

Lemma purging_op op t e : thread_of op t → purging t = Some e → ∃ vs, op = PurgeOp e vs.
Proof. destruct op, t; cbn; try done; intros [-> ->] [= ->]; by eexists. Qed.

(** When each event is purged by at most one call, purges never overlap. *)
Lemma single_purges_exclusive (st : St) (ops : list store_op) (s' : system St) :
  index_readable st →
  (∀ i j e vs vs', ops !! i = Some (PurgeOp e vs) → ops !! j = Some (PurgeOp e vs') → i = j) →
  rtc sys_step (start_system st ops) s' → rtc exclusive_step (start_system st ops) s'.
Proof.
  intros Hst Hone. apply (rtc_ind_r (λ s, rtc exclusive_step (start_system st ops) s));
    [by apply rtc_refl|].
  intros s1 s2 Hsteps Hstep IH. eapply rtc_r; [done|]. split; [done|].
  destruct (history_steps st ops s2 Hst) as [Hts _ _ _]; [by eapply rtc_r|].
  intros i j t t' e Hi Hj Hp Hp'.
  destruct (Forall2_lookup_r _ _ _ _ _ Hts Hi) as (op & Hop & Hof).
  destruct (Forall2_lookup_r _ _ _ _ _ Hts Hj) as (op' & Hop' & Hof').
  destruct (purging_op op t e) as [vs ->]; [done..|].
  destruct (purging_op op' t' e) as [vs' ->]; [done..|]. by eapply Hone.
Qed.

(** C15: with at most one purge of each event in flight, and any number of
    concurrent additions, the index never loses a signer.  At every moment each
    key with a signature for an event is in the event's index or its own call is
    about to push it; so once all calls have returned the storage satisfies the
    invariant of the sequential store, on which the exactness of every later
    purge rests. *)
Theorem exclusive_purges_keep_index (st : St) (ops : list store_op) (s' : system St) :
  offchain_inv st → rtc exclusive_step (start_system st ops) s' →
  (∀ e, ∃ ks, decode_signers (index (storage s') e) = Ok ks ∧
     ∀ k, signed (storage s') e k → k ∈ ks ∨ pending (threads s') e k) ∧
  (Forall finished (threads s') → offchain_inv (storage s')).
Proof.
  intros Hst Hsteps. assert (index_inv s') as [[Hread _] _ Hind _].
  { assert (index_inv (start_system st ops)) as Hinv.
    { split; cbn.
      - apply start_system_ok. intros e. destruct (Hst e) as (ks & ? & _). by exists ks.
      - intros i j t t' e (op & -> & _)%list_lookup_fmap_Some _ Hp. by destruct op.
      - intros e k ks Hks Hk. left. destruct (Hst e) as (ks' & Hks' & Hin).
        rewrite Hks in Hks'. injection Hks' as <-. by apply Hin.
      - apply Forall_fmap, Forall_true. by intros []. }
    clear Hst. induction Hsteps; eauto using index_inv_step. }
  split.
  - intros e. destruct (Hread e) as [ks Hks]. exists ks. split; [done|]. intros k. by apply Hind.
  - intros Hfin e. destruct (Hread e) as [ks Hks]. exists ks. split; [done|]. intros k Hk.
    destruct (Hind e k ks Hks Hk) as [?|(t & Ht & Ha)]; [done|].
    rewrite Forall_forall in Hfin. specialize (Hfin t Ht). by destruct t.
Qed.

End Index.

(** ** A thread alone is the sequential call *)

Section Solo.
Context `{BincodeLaws} {St : Type} `{OffchainStorageLaws St}.

Abbreviation index st e := (os_get st OFFCHAIN_PREFIX (as_bytes e)).

Lemma solo_step fuel (t t' : thread) (st st' : St) :
  thread_step t st = Some (t', st') → solo (S fuel) t st = solo fuel t' st'.
Proof. intros E. destruct t; cbn [solo]; rewrite ?E; try done; discriminate E. Qed.

Lemma solo_done fuel r (st : St) : solo fuel (Done r) st = Ret (r, st).
Proof. by destruct fuel. Qed.

Lemma solo_retain e vs old rest kept fuel (st : St) :
  solo (length rest + fuel) (PurgeRetain e vs old kept rest) st =
  '(l, st1) ← retain_signers e vs rest st; solo fuel (PurgeRetain e vs old (kept ++ l) []) st1.
Proof.
  revert kept st. induction rest as [|k rest IH]; intros kept st; cbn [length Nat.add retain_signers].
  { by rewrite outcome_ret_bind, app_nil_r. }
  destruct (bool_decide (k ∈ vs)) eqn:Hk.
  - erewrite solo_step by (unfold thread_step; cbn [add_step purge_step]; by rewrite Hk).
    rewrite IH. destruct (retain_signers e vs rest st) as [[l st1]| |]; [|done..].
    rewrite !outcome_ret_bind, <- app_assoc. done.
  - destruct (ser_key_total k) as [b Hb].
    erewrite solo_step by (unfold thread_step; cbn [add_step purge_step]; by rewrite Hk, Hb).
    by rewrite Hb, unwrap_result_Ok, outcome_ret_bind, IH.
Qed.

Lemma solo_add ev fuel (st : St) :
  solo (3 + fuel) (AddSet ev) st = offchain_add_event_proof ev st.
Proof.
  destruct (ser_key_total (pub_key ev)) as [b Hb]. unfold offchain_add_event_proof. rewrite Hb.
  cbn [Nat.add]. erewrite solo_step by (unfold thread_step; cbn [add_step]; by rewrite Hb).
  set (st1 := os_set _ _ _ st). unfold cas_fuel. cbn [push_signer_loop].
  destruct (decode_signers (index st1 (event_id ev))) as [ks|err] eqn:Hks.
  2: { erewrite solo_step by (unfold thread_step; cbn [add_step]; by rewrite Hks).
       apply solo_done. }
  destruct (ser_keys_total (ks ++ [pub_key ev])) as [new Hnew].
  erewrite solo_step by (unfold thread_step; cbn [add_step]; by rewrite Hks, Hnew).
  rewrite Hnew.
  destruct (os_cas_success st1 OFFCHAIN_PREFIX (as_bytes (event_id ev)) _ new eq_refl)
    as (st2 & Hcas & _).
  rewrite Hcas. erewrite solo_step by (unfold thread_step; cbn [add_step]; by rewrite Hcas).
  apply solo_done.
Qed.

Lemma solo_purge e vs fuel (st : St) :
  solo (signers_count st e + (3 + fuel)) (PurgeRead e vs) st =
  offchain_purge_event_stale_signatures e vs st.
Proof.
  unfold offchain_purge_event_stale_signatures, cas_fuel, signers_count. cbn [purge_signers_loop].
  destruct (decode_signers (index st e)) as [ks|err] eqn:Hks.
  2: { cbn [Nat.add].
       erewrite solo_step by (unfold thread_step; cbn [add_step purge_step]; by rewrite Hks).
       apply solo_done. }
  replace (length ks + (3 + fuel)) with (S (length ks + (2 + fuel))) by lia.
  erewrite solo_step by (unfold thread_step; cbn [add_step purge_step]; by rewrite Hks).
  rewrite solo_retain. destruct (retain_signers_spec e vs ks st) as (st1 & -> & Hi & _).
  rewrite !outcome_ret_bind. destruct (ser_keys_total (filter (.∈ vs) ks)) as [new Hnew].
  cbn [Nat.add app].
  erewrite solo_step by (unfold thread_step; cbn [add_step purge_step]; by rewrite Hnew).
  destruct (os_cas_success st1 OFFCHAIN_PREFIX (as_bytes e) (index st e) new (Hi e))
    as (st2 & Hcas & _).
  rewrite Hnew, Hcas.
  erewrite solo_step by (unfold thread_step; cbn [add_step purge_step]; by rewrite Hcas).
  apply solo_done.
Qed.

(** C23: the threads are the calls.  A thread that runs with no other thread in
    between returns, for every call and every content of the storage, an index
    that cannot be read included, the result and the storage of the sequential
    method of the trait; any number of steps from a bound on is enough. *)
Theorem solo_refines_call (op : store_op) (st : St) :
  ∃ n, ∀ fuel, n ≤ fuel → solo fuel (start_op op) st = run_op op st.
Proof.
  destruct op as [ev|e vs]; cbn [start_op run_op].
  - exists 3. intros fuel Hfuel. replace fuel with (3 + (fuel - 3)) by lia. apply solo_add.
  - exists (signers_count st e + 3). intros fuel Hfuel.
    replace fuel with (signers_count st e + (3 + (fuel - signers_count st e - 3))) by lia.
    apply solo_purge.
Qed.

End Solo.

(** ** Signatures outside the index *)

Section Stray.
Context `{BincodeLaws} {St : Type} `{OffchainStorageLaws St}.

(** A signature is stored that the index of its event does not list. *)
Record stray (e : H256) (k : CryptoTypePublicPair) (sig : list byte) (st : St) : Prop := mkStray {
  stray_readable : index_readable st;
  stray_stored : offchain_view st e k = Some sig;
  stray_unlisted : ∃ ks, decode_signers (os_get st OFFCHAIN_PREFIX (as_bytes e)) = Ok ks ∧ k ∉ ks
}.

(** Purges read the index only: they do not see the signature, whatever
    validators they are given. *)
Lemma stray_purge e k sig st e' vs :
  stray e k sig st →
  ∃ st', offchain_purge_event_stale_signatures e' vs st = Ret (Ok tt, st') ∧ stray e k sig st'.
Proof.
  intros [Hr Hv (ks & Hks & Hk)]. destruct (Hr e') as [ks' Hks'].
  destruct (purge_signers_loop_once 0 e' vs st ks' Hks') as (st' & Hrun & Hi & Hview).
  exists st'. split; [exact Hrun|]. split.
  - intros e0. rewrite Hi. case_bool_decide; [by eexists|apply Hr].
  - rewrite Hview, bool_decide_eq_false_2; [done|]. intros (<- & Hin & _). congruence.
  - rewrite Hi. case_bool_decide as He; [|by eauto]. subst e'. eexists. split; [done|].
    rewrite list_elem_of_filter. intros [_ ?]. congruence.
Qed.

(** Neither do additions of other proofs change that. *)
Lemma stray_add e k sig st ev :
  (event_id ev, pub_key ev) ≠ (e, k) → stray e k sig st →
  ∃ st', offchain_add_event_proof ev st = Ret (Ok tt, st') ∧ stray e k sig st'.
Proof.
  intros Hne [Hr Hv (ks & Hks & Hk)]. unfold offchain_add_event_proof.
  destruct (ser_key_total (pub_key ev)) as [b Hb]. rewrite Hb.
  destruct (offchain_set_view st (event_id ev) (pub_key ev) b (signature ev) Hb) as [Hi1 Hv1].
  set (st1 := os_set _ _ _ st) in *. destruct (Hr (event_id ev)) as [ks' Hks'].
  destruct (push_signer_loop_once 0 ev st1 ks') as (st' & Hrun & Hi & Hview); [by rewrite Hi1|].
  exists st'. split; [exact Hrun|]. split.
  - intros e0. rewrite Hi, Hi1. case_bool_decide; [by eexists|apply Hr].
  - rewrite Hview, Hv1, bool_decide_eq_false_2 by congruence. done.
  - rewrite Hi, Hi1. case_bool_decide as He; [|by eauto]. subst e. eexists. split; [done|].
    rewrite elem_of_app, list_elem_of_singleton. intros [?| ->]; congruence.
Qed.

Lemma stray_history e k sig ops st :
  (∀ sig', AddOp (mkWitnessed sig' k e) ∉ ops) → stray e k sig st →
  ∃ st', M_for ops run_op st = Ret (Ok tt, st') ∧ stray e k sig st'.
Proof.
  revert st. induction ops as [|op ops IH]; intros st Hno Hst; [by exists st|].
  assert (∃ st1, run_op op st = Ret (Ok tt, st1) ∧ stray e k sig st1) as (st1 & Hrun & Hst1).
  { destruct op as [ev|e' vs]; [apply stray_add; [|done]|by apply stray_purge].
    intros E. apply (Hno (signature ev)), elem_of_cons. left. destruct ev. cbn in *. congruence. }
  destruct (IH st1) as (st2 & Hrun2 & Hst2); [|done|].
  - intros sig' Hin. apply (Hno sig'). by right.
  - exists st2. cbn [M_for]. by rewrite (M_bind_ok _ _ _ _ _ Hrun).
Qed.

End Stray.

(** ** Witnesses, and a race of two purges *)

Import Codec MapStorage.

(** The signer of the example is pushed by one call while two others purge the
    event for an empty list of validators. *)
Definition race_ops : list store_op :=
  [PurgeOp (repeat_byte x07) []; PurgeOp (repeat_byte x07) []; AddOp example_event].

(** The first purge reads the index; the second purges the event; the first
    removes the signature again; the signer is added; the first purge replaces
    the index, which has the bytes it has read. *)
Definition race_schedule : list nat := [0; 1; 1; 1; 1; 0; 0; 2; 2; 2; 0].

Definition race_end : option (system map_store) :=
  run_schedule race_schedule (start_system example_storage race_ops).

Lemma example_storage_inv : offchain_inv example_storage.
Proof.
  destruct (offchain_add (∅ : map_store) example_event empty_inv) as (st' & E & Hinv & _).
  unfold example_storage. by rewrite E.
Qed.

Lemma example_storage_readable : index_readable example_storage.
Proof. intros e. destruct (example_storage_inv e) as (ks & Hks & _). by exists ks. Qed.

Definition returned_ok (t : thread) : bool :=
  match t with Done (Ok _) => true | _ => false end.

(** What the race leaves behind, by evaluation. *)
Lemma race_end_spec :
  ∃ s', race_end = Some s' ∧ threads s' = replicate 3 (Done (Ok tt)) ∧
    decode_signers (os_get (storage s') OFFCHAIN_PREFIX (as_bytes (repeat_byte x07))) = Ok [] ∧
    offchain_view (storage s') (repeat_byte x07) example_key = Some [x2a].
Proof.
  assert (match race_end with
          | Some s => Nat.eqb (length (threads s)) 3 && forallb returned_ok (threads s) &&
                      bool_decide (os_get (storage s) OFFCHAIN_PREFIX
                        (as_bytes (repeat_byte x07)) = Some [x00]) &&
                      bool_decide (offchain_view (storage s) (repeat_byte x07) example_key = Some [x2a])
          | None => false end = true) as E by (vm_compute; reflexivity).
  destruct race_end as [s'|]; [|discriminate E]. exists s'. split; [done|].
  apply andb_true_iff in E as [E Hv%bool_decide_eq_true_1].
  apply andb_true_iff in E as [E Hi%bool_decide_eq_true_1].
  apply andb_true_iff in E as [Hlen%Nat.eqb_eq Hts]. split_and!; [|by rewrite Hi|done].
  symmetry. apply replicate_as_elem_of. split; [done|]. intros t Ht.
  apply list_elem_of_In, (proj1 (forallb_forall _ _) Hts) in Ht.
  by destruct t as [| | | | | |[[]|]|].
Qed.

(** What the race leaves is a stray signature. *)
Lemma race_end_stray :
  ∃ s', rtc sys_step (start_system example_storage race_ops) s' ∧
    threads s' = replicate 3 (Done (Ok tt)) ∧
    stray (repeat_byte x07) example_key [x2a] (storage s').
Proof.
  destruct race_end_spec as (s' & E & Hts & Hi & Hv). exists s'.
  assert (rtc sys_step (start_system example_storage race_ops) s') as Hsteps
    by by eapply run_schedule_rtc.
  split; [done|]. split; [done|]. split; [|done|exists []; by split; [|apply not_elem_of_nil]].
  by apply (writers_steps_ok _ _ Hsteps), start_system_ok, example_storage_readable.
Qed.

(** C37: two overlapping purges of an event can lose a signer for good.  The
    compare-and-set does not notice that the index was emptied and refilled
    between a purge's read and its write: although the storage was well-formed
    and all three calls return [Ok(())], it ends with a stored signature that the
    event's index does not list.  After that, every sequence of calls, purges of
    any events with any lists of validators and additions of other proofs,
    returns [Ok(())] and leaves that signature stored: no purge removes it unless
    the same key's proof of the event is added again. *)
Theorem overlapping_purges_lose_signer :
  offchain_inv example_storage ∧
  ∃ s', rtc sys_step (start_system example_storage race_ops) s' ∧
    threads s' = replicate 3 (Done (Ok tt)) ∧ ¬ offchain_inv (storage s') ∧
    ∀ ops, (∀ sig, AddOp (mkWitnessed sig example_key (repeat_byte x07)) ∉ ops) →
      ∃ st'', M_for ops run_op (storage s') = Ret (Ok tt, st'') ∧
        offchain_view st'' (repeat_byte x07) example_key = Some [x2a].
Proof.
  split; [exact example_storage_inv|]. destruct race_end_stray as (s' & Hsteps & Hts & Hstray).
  exists s'. split_and!; [done..| |].
  - intros Hinv. destruct (Hinv (repeat_byte x07)) as (ks & Hks & Hin).
    destruct Hstray as [_ Hv (ks' & Hks' & Hnot)]. rewrite Hks in Hks'. injection Hks' as <-.
    apply Hnot, Hin. by rewrite Hv.
  - intros ops Hno. destruct (stray_history _ _ _ ops (storage s') Hno Hstray) as (st'' & Hrun & [_ Hv _]).
    by exists st''.
Qed.

(** Two calls that add a proof and purge the event run to their end. *)
Definition example_ops : list store_op :=
  [AddOp (mkWitnessed [x2b] example_key (repeat_byte x08)); PurgeOp (repeat_byte x08) [example_key]].

Definition example_end : option (system map_store) :=
  run_schedule [0; 1; 0; 1; 0; 1; 1; 1; 1; 1] (start_system example_storage example_ops).

Lemma example_run (l : list nat) (s' : system map_store) :
  run_schedule l (start_system example_storage example_ops) = Some s' →
  rtc sys_step (start_system example_storage example_ops) s'.
Proof. apply run_schedule_rtc. Qed.

Lemma example_end_finished :
  match example_end with Some s => forallb (λ t, bool_decide (finished t)) (threads s) | None => false end
  = true.
Proof. vm_compute. reflexivity. Qed.

Lemma concurrent_history_witness :
  ∃ s', example_end = Some s' ∧
    is_Some (offchain_view (storage s') (repeat_byte x07) example_key).
Proof.
  destruct example_end as [s'|] eqn:E.
  - exists s'. split; [reflexivity|].
    destruct (concurrent_history example_storage example_ops s') as (_ & _ & _ & Hk & _).
    + exact example_storage_readable.
    + apply (example_run _ _ E).
    + apply Hk.
      * intros vs Hin. apply list_elem_of_In in Hin as [Hin|[Hin|[]]]; [discriminate Hin|].
        injection Hin as Hin _. discriminate Hin.
      * apply (bool_decide_eq_true_1 (is_Some _)). vm_compute. reflexivity.
  - exfalso. pose proof example_end_finished as Hf. rewrite E in Hf. discriminate Hf.
Defined.

Lemma writers_terminate_witness : sn sys_step (start_system example_storage race_ops).
Proof.
  apply (writers_terminate example_storage race_ops). exact example_storage_readable.
Defined.

Lemma exclusive_purges_keep_index_witness :
  ∃ s', example_end = Some s' ∧ offchain_inv (storage s').
Proof.
  pose proof example_end_finished as Hf. destruct example_end as [s'|] eqn:E; [|discriminate Hf].
  exists s'. split; [reflexivity|].
  apply (exclusive_purges_keep_index example_storage example_ops s').
  - exact example_storage_inv.
  - apply single_purges_exclusive; [exact example_storage_readable| |by eapply example_run].
    intros [|[|i]] [|[|j]] e vs vs' Hi Hj; try reflexivity; discriminate Hi || discriminate Hj.
  - apply Forall_forall. intros t Ht. apply list_elem_of_In, (proj1 (forallb_forall _ _) Hf) in Ht.
    apply (bool_decide_eq_true_1 _ Ht).
Defined.

Lemma solo_refines_call_witness :
  ∃ n, ∀ fuel, n ≤ fuel →
    solo fuel (AddSet example_event) example_storage = offchain_add_event_proof example_event example_storage.
Proof. apply (solo_refines_call (AddOp example_event) example_storage). Defined.
