(* ===== verification/RocksDb.v ===== *)
(** * The store of event proofs in RocksDB

    [consensus/src/proofs/rocksdb.rs]: one database entry per event and key,
    under the key of [proof_key].  The database is an interface whose calls
    may fail; its laws are stated for a database whose calls succeed.

    A purge iterates from the event's id on.  The database is opened with
    the default options, which have no prefix extractor, and then nothing stops
    the iterator at the end of the event's entries: see
    [rocksdb_store_correct]. *)

From stdpp Require Import base decidable list gmap strings.
From Stdlib Require Import Strings.Byte ZArith Lia.
From S2P Require Import Prelude Errors Proofs.

(** ** [rocksdb::DB] *)

Class RocksDB (DB : Type) := {
  rocksdb_error : Type;
  rocksdb_error_display :: Display rocksdb_error;
  db_put : list byte → list byte → DB → result rocksdb_error unit * DB;
  db_delete : list byte → DB → result rocksdb_error unit * DB;
  db_multi_get : list (list byte) → DB → list (result rocksdb_error (option (list byte)));
  db_prefix_iterator : list byte → DB → list (result rocksdb_error (list byte * list byte))
}.

(** The order of the keys (the default comparator): bytewise, a prefix first. *)
Fixpoint bytes_le (l1 l2 : list byte) : bool :=
  match l1, l2 with
  | [], _ => true
  | _ :: _, [] => false
  | b1 :: l1', b2 :: l2' =>
      if bool_decide (b1 = b2) then bytes_le l1' l2' else bool_decide (Byte.to_N b1 < Byte.to_N b2)%N
  end.

Lemma bytes_le_prefix p k : p `prefix_of` k → bytes_le p k = true.
Proof.
  intros [rest ->]. induction p as [|b p IH]; [done|]. cbn. by rewrite bool_decide_eq_true_2.
Qed.

(** Ids have the same length: what follows them does not matter. *)
Lemma bytes_le_app l1 l2 rest : length l1 = length l2 → bytes_le l1 (l2 ++ rest) = bytes_le l1 l2.
Proof.
  revert l2. induction l1 as [|b1 l1 IH]; intros [|b2 l2] Hlen; try done. cbn in *.
  by rewrite IH by lia.
Qed.

(** The id of [e] is not behind the id of [e']. *)
Definition id_le (e e' : H256) : bool := bytes_le (as_bytes e) (as_bytes e').

Lemma bytes_le_proof_key e e' b : bytes_le (as_bytes e) (proof_key e' b) = id_le e e'.
Proof. apply bytes_le_app. by rewrite !as_bytes_length. Qed.

Lemma id_le_refl e : id_le e e = true.
Proof. by apply bytes_le_prefix. Qed.

(** Documented behaviour of a database that works: reads return the stored
    values, one result per key; a prefix iterator yields entries of the
    database as it was when the iterator was made, none in front of the prefix,
    and among them all those whose key starts with the prefix. *)
Class RocksDBLaws (DB : Type) `{RocksDB DB} := {
  db_working : DB → Prop;
  db_content : DB → list byte → option (list byte);
  db_put_law db k v :
    db_working db → ∃ db', db_put k v db = (Ok tt, db') ∧ db_working db' ∧
      ∀ k', db_content db' k' = if bool_decide (k' = k) then Some v else db_content db k';
  db_delete_law db k :
    db_working db → ∃ db', db_delete k db = (Ok tt, db') ∧ db_working db' ∧
      ∀ k', db_content db' k' = if bool_decide (k' = k) then None else db_content db k';
  db_multi_get_law db ks :
    db_working db → db_multi_get ks db = (λ k, Ok (db_content db k)) <$> ks;
  db_prefix_iterator_law db p :
    db_working db → ∃ l, db_prefix_iterator p db = (Ok <$> l) ∧
      (∀ k v, (k, v) ∈ l → db_content db k = Some v ∧ bytes_le p k = true) ∧
      (∀ k v, db_content db k = Some v → p `prefix_of` k → (k, v) ∈ l)
}.

(** A database without a prefix extractor, such as [DB::open_default] opens: the
    option to stop at the end of the prefix has no effect there, and the
    iterator goes on to the last key. *)
Definition no_prefix_extractor {DB : Type} `{RocksDBLaws DB} (db : DB) : Prop :=
  ∀ p l, db_prefix_iterator p db = (Ok <$> l) →
    ∀ k v, db_content db k = Some v → bytes_le p k = true → (k, v) ∈ l.

Section RocksDb.
Context `{Bincode} {DB : Type} `{RocksDB DB}.

Definition rocksdb_add_event_proof (event : WitnessedEvent) : M DB Error unit := λ db,
  match ser_key (pub_key event) with
  | Err e => Ret (Err (from_bincode e), db)
  | Ok b =>
      let '(r, db') := db_put (proof_key (event_id event) b) (signature event) db in
      Ret (map_err from_rocksdb r, db')
  end.

(** The keys of the validators, each encoding unwrapped. *)
Definition rocksdb_keys (e : H256) (validators : list CryptoTypePublicPair) :
    outcome (list (list byte)) :=
  outcome_map (λ k, b ← unwrap_result (ser_key k); Ret (proof_key e b)) validators.

Definition rocksdb_get_event_proofs (e : H256) (validators : list CryptoTypePublicPair) :
    M DB Error (gmap CryptoTypePublicPair (list byte)) := λ db,
  keys ← rocksdb_keys e validators;
  let values := db_multi_get keys db in
  let items :=
    omap (λ '(pub_key, signature_r),
      match signature_r with
      | Ok (Some signature) => Some (Ok (pub_key, signature))
      | Ok None => None
      | Err err => Some (Err (from_rocksdb err))
      end) (zip validators values) in
  Ret (collect_map <$> collect_results items, db).

(** [matches!(r, Ok(Some(_)))] *)
Definition is_ok_some {E A} (r : result E (option A)) : bool :=
  match r with
  | Ok (Some _) => true
  | _ => false
  end.

Definition rocksdb_get_event_proof_count (e : H256) (validators : list CryptoTypePublicPair) :
    M DB Error Z := λ db,
  keys ← rocksdb_keys e validators;
  Ret (Ok (len_as_u16 (filter (λ r, is_ok_some r = true) (db_multi_get keys db))), db).

(** The body of the [for] loop of [purge_event_stale_signatures]. *)
Definition purge_entry (validators : list CryptoTypePublicPair)
    (r : result rocksdb_error (list byte * list byte)) : M DB Error unit := λ db,
  match r with
  | Err e => Ret (Err (from_rocksdb e), db)
  | Ok (key, _) =>
      (* &key[H256::len_bytes()..] *)
      if bool_decide (length key < 32) then Panic
      else
        match de_key (drop 32 key) with
        | Err e => Ret (Err (from_bincode e), db)
        | Ok pub_key =>
            if bool_decide (pub_key ∈ validators) then Ret (Ok tt, db)
            else let '(r, db') := db_delete key db in Ret (map_err from_rocksdb r, db')
        end
  end.

Definition rocksdb_purge_event_stale_signatures (e : H256)
    (validators : list CryptoTypePublicPair) : M DB Error unit := λ db,
  M_for (db_prefix_iterator (as_bytes e) db) (purge_entry validators) db.

#[export] Instance rocksdb_proofs : EventProofsTrait DB := {|
  add_event_proof := rocksdb_add_event_proof;
  get_event_proofs := rocksdb_get_event_proofs;
  get_event_proof_count := rocksdb_get_event_proof_count;
  purge_event_stale_signatures := rocksdb_purge_event_stale_signatures
|}.

End RocksDb.

(** ** View and invariant *)

Section RocksDbFacts.
Context `{BincodeLaws} {DB : Type} `{RocksDBLaws DB}.

Definition rocksdb_view (db : DB) : proof_view := λ e k,
  match ser_key k with
  | Ok b => db_content db (proof_key e b)
  | Err _ => None
  end.

(** The database works and holds only entries of event proofs. *)
Definition rocksdb_inv (db : DB) : Prop :=
  db_working db ∧
  ∀ key v, db_content db key = Some v → ∃ e k b, ser_key k = Ok b ∧ key = proof_key e b.

Lemma rocksdb_view_key db e k b :
  ser_key k = Ok b → rocksdb_view db e k = db_content db (proof_key e b).
Proof. unfold rocksdb_view. by intros ->. Qed.

Lemma rocksdb_keys_ret (e : H256) (vs : list CryptoTypePublicPair) :
  ∃ keys, rocksdb_keys e vs = Ret keys ∧
    Forall2 (λ k key, ∃ b, ser_key k = Ok b ∧ key = proof_key e b) vs keys.
Proof.
  unfold rocksdb_keys.
  destruct (outcome_map_total (λ k, b ← unwrap_result (ser_key k); Ret (proof_key e b)) vs)
    as [keys Hkeys].
  { apply Forall_true. intros k. destruct (ser_key_total k) as [b ->]. by eexists. }
  exists keys. split; [done|]. apply outcome_map_Forall2 in Hkeys.
  eapply Forall2_impl; [exact Hkeys|]. intros k key Hk. cbn in Hk.
  destruct (ser_key_total k) as [b Hb]. rewrite Hb in Hk. cbn in Hk. by simplify_eq; eauto.
Qed.

(** Reading a working database gives the view at every validator. *)
Lemma rocksdb_values db e vs :
  db_working db →
  ∃ keys, rocksdb_keys e vs = Ret keys ∧
    db_multi_get keys db = (λ k, Ok (rocksdb_view db e k)) <$> vs.
Proof.
  intros Hdb. destruct (rocksdb_keys_ret e vs) as (keys & Hkeys & Hall).
  exists keys. split; [done|]. rewrite db_multi_get_law by done. clear Hkeys.
  induction Hall as [|k key vs keys (b & Hb & ->) _ IH]; [done|]. cbn.
  by rewrite (rocksdb_view_key db e k b Hb), IH.
Qed.

Lemma rocksdb_put db ev b :
  rocksdb_inv db → ser_key (pub_key ev) = Ok b →
  ∃ db', db_put (proof_key (event_id ev) b) (signature ev) db = (Ok tt, db') ∧ rocksdb_inv db' ∧
    ∀ e k, rocksdb_view db' e k =
      if bool_decide ((e, k) = (event_id ev, pub_key ev)) then Some (signature ev)
      else rocksdb_view db e k.
Proof.
  intros [Hw Hkeys] Hb.
  destruct (db_put_law db (proof_key (event_id ev) b) (signature ev) Hw) as (db' & Hput & Hw' & Hc).
  exists db'. split; [done|]. split.
  - split; [done|]. intros key v. rewrite Hc. case_bool_decide as E; [by eauto 6|apply Hkeys].
  - intros e k. destruct (ser_key_total k) as [b' Hb'].
    rewrite !(rocksdb_view_key _ e k b' Hb'), Hc. case_bool_decide as E.
    + apply proof_key_inj in E as [-> ->]. rewrite (ser_key_inj _ _ _ Hb' Hb).
      by rewrite bool_decide_eq_true_2.
    + rewrite bool_decide_eq_false_2; [done|]. intros [= -> ->]. congruence.
Qed.

(** One entry of the iterator: an entry of a non-validator is deleted. *)
Lemma purge_entry_spec vs db e k b v :
  rocksdb_inv db → ser_key k = Ok b →
  ∃ db', purge_entry vs (Ok (proof_key e b, v)) db = Ret (Ok tt, db') ∧ rocksdb_inv db' ∧
    ∀ e' k', rocksdb_view db' e' k' =
      if bool_decide ((e', k') = (e, k) ∧ ¬ k ∈ vs) then None else rocksdb_view db e' k'.
Proof.
  intros [Hw Hkeys] Hb. unfold purge_entry.
  pose proof (length_proof_key e b).
  rewrite bool_decide_eq_false_2, drop_proof_key, (de_ser_key k b Hb) by lia.
  case_bool_decide as Hk.
  { exists db. split_and!; [done..|]. intros e' k'. by rewrite bool_decide_eq_false_2 by tauto. }
  destruct (db_delete_law db (proof_key e b) Hw) as (db' & Hdel & Hw' & Hc).
  rewrite Hdel. exists db'. split; [done|]. split.
  - split; [done|]. intros key v'. rewrite Hc. case_bool_decide; [done|apply Hkeys].
  - intros e' k'. destruct (ser_key_total k') as [b' Hb'].
    rewrite !(rocksdb_view_key _ e' k' b' Hb'), Hc. case_bool_decide as E.
    + apply proof_key_inj in E as [-> ->]. rewrite (ser_key_inj _ _ _ Hb' Hb).
      by rewrite bool_decide_eq_true_2.
    + rewrite bool_decide_eq_false_2; [done|]. intros [[= -> ->] _]. congruence.
Qed.

(** The loop: exactly the listed entries of non-validators are deleted. *)
Lemma purge_entries_spec vs l db :
  rocksdb_inv db →
  Forall (λ kv, ∃ e k b, ser_key k = Ok b ∧ kv.1 = proof_key e b) l →
  ∃ db', M_for (Ok <$> l) (purge_entry vs) db = Ret (Ok tt, db') ∧ rocksdb_inv db' ∧
    ∀ e k b, ser_key k = Ok b → rocksdb_view db' e k =
      if bool_decide (proof_key e b ∈ l.*1 ∧ ¬ k ∈ vs) then None else rocksdb_view db e k.
Proof.
  revert db. induction l as [|[key v] l IH]; intros db Hdb Hl; cbn [fmap list_fmap M_for].
  - exists db. split_and!; [done..|]. intros e k b _. rewrite bool_decide_eq_false_2; [done|].
    intros [Hin _]. by apply elem_of_nil in Hin.
  - apply Forall_cons in Hl as [(e0 & k0 & b0 & Hb0 & E) Hl]. cbn in E. subst key.
    destruct (purge_entry_spec vs db e0 k0 b0 v Hdb Hb0) as (db1 & Hrun1 & Hinv1 & Hv1).
    destruct (IH db1 Hinv1 Hl) as (db2 & Hrun2 & Hinv2 & Hv2).
    exists db2. split; [by rewrite (M_bind_ok _ _ _ _ _ Hrun1)|]. split; [done|].
    intros e k b Hb. rewrite (Hv2 e k b Hb), Hv1. cbn.
    destruct (decide (k ∈ vs)) as [Hk|Hk].
    { rewrite !bool_decide_eq_false_2 by naive_solver. done. }
    destruct (decide (proof_key e b = proof_key e0 b0)) as [E|E].
    + apply proof_key_inj in E as [-> ->]. rewrite (ser_key_inj _ _ _ Hb Hb0) in *.
      rewrite (bool_decide_eq_true_2 (proof_key e0 b0 ∈ proof_key e0 b0 :: l.*1 ∧ _))
        by (split; [left|done]).
      rewrite (bool_decide_eq_true_2 ((e0, k0) = (e0, k0) ∧ _)) by done. by case_bool_decide.
    + rewrite (bool_decide_eq_false_2 ((e, k) = (e0, k0) ∧ _))
        by (intros [[= -> ->] _]; congruence).
      assert (proof_key e b ∈ proof_key e0 b0 :: l.*1 ↔ proof_key e b ∈ l.*1) as Hiff.
      { rewrite elem_of_cons. tauto. }
      by rewrite (bool_decide_ext _ _ (and_iff_compat_r (¬ k ∈ vs) Hiff)).
Qed.

End RocksDbFacts.

(** ** The database implements the trait's contract *)

Section RocksDbSpec.
Context `{BincodeLaws} {DB : Type} `{RocksDBLaws DB}.

Lemma rocksdb_add db ev :
  rocksdb_inv db →
  ∃ db', rocksdb_add_event_proof ev db = Ret (Ok tt, db') ∧ rocksdb_inv db' ∧
    ∀ e k, rocksdb_view db' e k =
      if bool_decide ((e, k) = (event_id ev, pub_key ev)) then Some (signature ev)
      else rocksdb_view db e k.
Proof.
  intros Hdb. unfold rocksdb_add_event_proof.
  destruct (ser_key_total (pub_key ev)) as [b Hb]. rewrite Hb.
  destruct (rocksdb_put db ev b Hdb Hb) as (db' & -> & Hinv & Hv). by exists db'.
Qed.

(** The entries a working database returns for the validators. *)
Lemma collect_results_view (v : CryptoTypePublicPair → option (list byte)) vs :
  collect_results (omap (λ '(k, r),
      match r with
      | Ok (Some s) => Some (Ok (k, s))
      | Ok None => None
      | Err err => Some (Err (from_rocksdb err))
      end) (zip vs ((λ k, Ok (v k) : result rocksdb_error (option (list byte))) <$> vs))) =
  Ok (omap (λ k, (λ s, (k, s)) <$> v k) vs).
Proof.
  induction vs as [|k vs IH]; [done|]. cbn in *. destruct (v k); cbn; by rewrite IH.
Qed.

Lemma rocksdb_get db e vs :
  db_working db →
  ∃ m, rocksdb_get_event_proofs e vs db = Ret (Ok m, db) ∧
    ∀ k, m !! k = if bool_decide (k ∈ vs) then rocksdb_view db e k else None.
Proof.
  intros Hdb. unfold rocksdb_get_event_proofs.
  destruct (rocksdb_values db e vs Hdb) as (keys & -> & Hvals).
  rewrite outcome_ret_bind, Hvals, collect_results_view. cbn.
  eexists; split; [done|]. intros k. apply lookup_collect_omap.
Qed.

Lemma rocksdb_count db e vs :
  db_working db →
  rocksdb_get_event_proof_count e vs db =
  Ret (Ok (len_as_u16 (signers (rocksdb_view db) e vs)), db).
Proof.
  intros Hdb. unfold rocksdb_get_event_proof_count.
  destruct (rocksdb_values db e vs Hdb) as (keys & -> & Hvals).
  rewrite outcome_ret_bind, Hvals. unfold len_as_u16, signers. do 5 f_equal. clear.
  induction vs as [|k vs IH]; [done|]. rewrite fmap_cons, !filter_cons.
  destruct (rocksdb_view db e k) as [s|] eqn:E; cbn.
  - rewrite decide_True by done. rewrite decide_True by (by eexists). cbn. by rewrite IH.
  - rewrite decide_False by done. by rewrite decide_False by (by intros []).
Qed.

(** What a purge does: the event keeps exactly its validators' signatures.
    Nothing happens to a validator's signature, nor to an event whose id is in
    front; without a prefix extractor every other signature is deleted. *)
Lemma rocksdb_purge db e vs :
  rocksdb_inv db →
  ∃ db', rocksdb_purge_event_stale_signatures e vs db = Ret (Ok tt, db') ∧ rocksdb_inv db' ∧
    (∀ k, rocksdb_view db' e k = if bool_decide (k ∈ vs) then rocksdb_view db e k else None) ∧
    (∀ e' k, rocksdb_view db' e' k = rocksdb_view db e' k ∨
       (id_le e e' = true ∧ ¬ k ∈ vs ∧ rocksdb_view db' e' k = None)) ∧
    (no_prefix_extractor db → ∀ e' k, rocksdb_view db' e' k =
       if bool_decide (id_le e e' = true ∧ ¬ k ∈ vs) then None else rocksdb_view db e' k).
Proof.
  intros [Hw Hkeys]. unfold rocksdb_purge_event_stale_signatures.
  destruct (db_prefix_iterator_law db (as_bytes e) Hw) as (l & Hl & Hsub & Hall). rewrite Hl.
  destruct (purge_entries_spec vs l db (conj Hw Hkeys)) as (db' & Hrun & Hinv & Hv).
  { apply Forall_forall. intros [key v] Hin. apply Hsub in Hin as [? _]. cbn. by eapply Hkeys. }
  exists db'. do 2 (split; [done|]).
  assert (∀ e' k b, ser_key k = Ok b → proof_key e' b ∈ l.*1 → id_le e e' = true) as Hle.
  { intros e' k b _ ([key v] & E & [_ Hp]%Hsub)%list_elem_of_fmap. cbn in E. subst key.
    by rewrite bytes_le_proof_key in Hp. }
  assert (∀ e' k b, ser_key k = Ok b → ¬ k ∈ vs →
    (∀ s, db_content db (proof_key e' b) = Some s → (proof_key e' b, s) ∈ l) →
    rocksdb_view db' e' k = None) as Hgone.
  { intros e' k b Hb Hk Hlist. rewrite (Hv e' k b Hb). case_bool_decide as Hd; [done|].
    rewrite (rocksdb_view_key db e' k b Hb). destruct (db_content _ _) as [s|] eqn:E; [|done].
    destruct Hd. split; [|done].
    apply list_elem_of_fmap. exists (proof_key e' b, s). by split; [|apply Hlist]. }
  split_and!.
  - intros k. destruct (ser_key_total k) as [b Hb]. case_bool_decide as Hk.
    + rewrite (Hv e k b Hb). by rewrite bool_decide_eq_false_2 by tauto.
    + apply (Hgone e k b); [done..|]. intros s Hs. apply Hall; [done|]. by exists b.
  - intros e' k. destruct (ser_key_total k) as [b Hb]. rewrite (Hv e' k b Hb).
    case_bool_decide as Hd; [right|by left]. destruct Hd. by eauto.
  - intros Hext e' k. destruct (ser_key_total k) as [b Hb]. case_bool_decide as Hd.
    + destruct Hd as [Hid Hk]. apply (Hgone e' k b); [done..|]. intros s Hs.
      apply (Hext (as_bytes e) l Hl); [done|]. by rewrite bytes_le_proof_key.
    + rewrite (Hv e' k b Hb), bool_decide_eq_false_2; [done|]. intros [? ?]. by eauto.
Qed.

#[export] Program Instance rocksdb_spec : EventProofsSpec DB := {|
  ep_inv := rocksdb_inv;
  ep_view := rocksdb_view
|}.
Next Obligation.
  intros s ev Hs. destruct (rocksdb_add s ev Hs) as (s' & Hadd & Hinv & Hv).
  exists s'. split; [done|]. split; [done|]. split.
  - left. by rewrite Hv, bool_decide_eq_true_2.
  - intros e k Hne. by rewrite Hv, bool_decide_eq_false_2.
Qed.
Next Obligation. intros s e vs [Hs _]. by apply rocksdb_get. Qed.
Next Obligation. intros s e vs [Hs _] _. by apply rocksdb_count. Qed.
Next Obligation.
  intros s e vs Hs. destruct (rocksdb_purge s e vs Hs) as (s' & Hp & Hinv & Hat & Hother & _).
  exists s'. split; [done|]. split; [done|]. split; [done|]. intros e' k. destruct (Hother e' k); tauto.
Qed.

End RocksDbSpec.

(** ** A concrete database *)

Module MapDB.

(** A map, and a flag that makes every call fail. *)
Record map_db := mkMapDB { broken : bool; entries : gmap (list byte) (list byte) }.

#[local] Instance string_display : Display string := λ s, s.

#[export] Instance map_rocksdb : RocksDB map_db := {|
  rocksdb_error := string;
  db_put k v db :=
    if broken db then (Err "IO error", db) else (Ok tt, mkMapDB false (<[k := v]> (entries db)));
  db_delete k db :=
    if broken db then (Err "IO error", db) else (Ok tt, mkMapDB false (delete k (entries db)));
  db_multi_get ks db :=
    (λ k, if broken db then Err "IO error" else Ok (entries db !! k)) <$> ks;
  db_prefix_iterator p db :=
    (λ kv, if broken db then Err "IO error" else Ok kv) <$>
      filter (λ kv, bytes_le p kv.1 = true) (map_to_list (entries db))
|}.

#[export] Program Instance map_rocksdb_laws : RocksDBLaws map_db := {|
  db_working db := broken db = false;
  db_content db k := entries db !! k
|}.
Next Obligation.
  intros [? m] k v; cbn. intros ->. eexists; split; [done|]. split; [done|]. intros k'; cbn.
  rewrite lookup_insert. repeat case_decide; case_bool_decide; naive_solver.
Qed.
Next Obligation.
  intros [? m] k; cbn. intros ->. eexists; split; [done|]. split; [done|]. intros k'; cbn.
  rewrite lookup_delete. repeat case_decide; case_bool_decide; naive_solver.
Qed.
Next Obligation. intros [? m] ks; cbn. by intros ->. Qed.
Next Obligation.
  intros [? m] p; cbn. intros ->. eexists. split; [done|].
  split; intros k v; rewrite list_elem_of_filter, elem_of_map_to_list; [tauto|].
  intros ? ?%bytes_le_prefix. done.
Qed.

(** The map has no prefix extractor. *)
Lemma map_db_no_extractor db : broken db = false → no_prefix_extractor db.
Proof.
  destruct db as [? m]. cbn. intros -> p l E k v Hk Hp. cbn in E, Hk.
  apply list_fmap_eq_inj in E; [|by intros ? ? [= ?]]. subst l.
  apply list_elem_of_filter. by rewrite elem_of_map_to_list.
Qed.

Lemma map_db_empty_inv `{BincodeLaws} : rocksdb_inv (mkMapDB false ∅).
Proof. split; [done|]. intros key v. cbn. by rewrite lookup_empty. Qed.

End MapDB.

(** ** Properties of the RocksDB store *)

Section RocksDbProperties.
Context `{BincodeLaws} {DB : Type} `{RocksDBLaws DB}.

(** C39: the RocksDB store on a working database that holds only event proofs.
    An added signature replaces the key's signature for the event, and changes
    nothing else.  Reading returns the stored signatures of the validators asked
    for, and counts them.  A purge leaves the event with exactly its validators'
    signatures; it keeps every signature by a validator and every signature of
    an event whose id comes before.  It is not confined to its event, as
    [EventProofsTrait] says it is: on a database without a prefix extractor, as
    the store opens it, a purge deletes exactly the signatures by non-validators
    of its event and of all events whose ids follow. *)
Theorem rocksdb_store_correct (db : DB) (ev : WitnessedEvent) (e : H256)
    (vs : list CryptoTypePublicPair) :
  rocksdb_inv db →
  (∃ db', rocksdb_add_event_proof ev db = Ret (Ok tt, db') ∧ rocksdb_inv db' ∧
     ∀ e' k, rocksdb_view db' e' k =
       if bool_decide ((e', k) = (event_id ev, pub_key ev)) then Some (signature ev)
       else rocksdb_view db e' k) ∧
  (∃ m, rocksdb_get_event_proofs e vs db = Ret (Ok m, db) ∧
     ∀ k, m !! k = if bool_decide (k ∈ vs) then rocksdb_view db e k else None) ∧
  rocksdb_get_event_proof_count e vs db =
    Ret (Ok (len_as_u16 (signers (rocksdb_view db) e vs)), db) ∧
  (∃ db', rocksdb_purge_event_stale_signatures e vs db = Ret (Ok tt, db') ∧ rocksdb_inv db' ∧
     (∀ k, rocksdb_view db' e k = if bool_decide (k ∈ vs) then rocksdb_view db e k else None) ∧
     (∀ e' k, k ∈ vs ∨ id_le e e' = false → rocksdb_view db' e' k = rocksdb_view db e' k) ∧
     (no_prefix_extractor db → ∀ e' k, rocksdb_view db' e' k =
        if bool_decide (id_le e e' = true ∧ ¬ k ∈ vs) then None else rocksdb_view db e' k)).
Proof.
  intros Hdb. pose proof Hdb as [Hw _].
  split_and!; [by apply rocksdb_add|by apply rocksdb_get|by apply rocksdb_count|].
  destruct (rocksdb_purge db e vs Hdb) as (db' & Hrun & Hinv & Hat & Hother & Hext).
  exists db'. split_and!; [done..| |done].
  intros e' k Hk. destruct (Hother e' k) as [?|(Hid & Hvs & _)]; [done|].
  destruct Hk; [done|congruence].
Qed.

(** A failing read makes [get_event_proofs] return the database error of
    the first read that failed, while [get_event_proof_count], which the
    trait calls equivalent, answers with the number of the reads that
    succeeded and found a signature. *)
Theorem rocksdb_count_ignores_errors (db : DB) (e : H256) (vs : list CryptoTypePublicPair)
    (keys : list (list byte)) (pre : list (result rocksdb_error (option (list byte))))
    (err : rocksdb_error) (post : list (result rocksdb_error (option (list byte)))) :
  rocksdb_keys e vs = Ret keys →
  db_multi_get keys db = pre ++ Err err :: post →
  length keys = length (db_multi_get keys db) →
  Forall (λ r, ∃ o, r = Ok o) pre →
  rocksdb_get_event_proofs e vs db = Ret (Err (Database (to_string err)), db) ∧
  rocksdb_get_event_proof_count e vs db =
    Ret (Ok (len_as_u16 (filter (λ r, is_ok_some r = true) (pre ++ post))), db).
Proof.
  intros Hkeys Hget Hlen Hpre.
  assert (length vs = length keys) as Hvs.
  { unfold rocksdb_keys in Hkeys. apply outcome_map_Forall2 in Hkeys. by eapply Forall2_length. }
  unfold rocksdb_get_event_proofs, rocksdb_get_event_proof_count.
  rewrite Hkeys, !outcome_ret_bind, Hget. split.
  - rewrite Hget in Hlen. rewrite Hlen in Hvs. clear Hkeys Hget Hlen keys.
    assert (∀ (v : list CryptoTypePublicPair), length v = length (pre ++ Err err :: post) →
      collect_results (omap (λ '(k, r),
        match r with
        | Ok (Some s) => Some (Ok (k, s))
        | Ok None => None
        | Err err => Some (Err (from_rocksdb err))
        end) (zip v (pre ++ Err err :: post))) = Err (Database (to_string err))) as Hcr.
    { clear Hvs. induction Hpre as [|r pre [o ->] _ IH]; intros [|k v] Hv; try done; cbn in *.
      destruct o; cbn; by rewrite IH by lia. }
    by rewrite Hcr.
  - unfold len_as_u16. do 5 f_equal. rewrite !filter_app, !length_app, filter_cons.
    by rewrite decide_False.
Qed.

End RocksDbProperties.

Import Codec MapDB.

(** A database with the signature of a key for each of three events. *)
Definition some_key : CryptoTypePublicPair := mkPair (x00,x00,x00,x00) [x05].
Definition three_events : map_db :=
  match M_for ((λ b, mkWitnessed [b] some_key (repeat_byte b)) <$> [x06; x07; x08])
          rocksdb_add_event_proof (mkMapDB false ∅) with
  | Ret (_, db) => db
  | _ => mkMapDB true ∅
  end.

Lemma rocksdb_adds_inv evs (db : map_db) :
  rocksdb_inv db → ∃ db', M_for evs rocksdb_add_event_proof db = Ret (Ok tt, db') ∧ rocksdb_inv db'.
Proof.
  revert db. induction evs as [|ev evs IH]; intros db Hdb; [by exists db|].
  destruct (rocksdb_add db ev Hdb) as (db1 & Hrun & Hinv & _).
  destruct (IH db1 Hinv) as (db2 & Hrun2 & ?). exists db2. cbn [M_for].
  by rewrite (M_bind_ok _ _ _ _ _ Hrun).
Qed.

Lemma three_events_inv : rocksdb_inv three_events.
Proof.
  unfold three_events.
  destruct (rocksdb_adds_inv ((λ b, mkWitnessed [b] some_key (repeat_byte b)) <$> [x06; x07; x08])
    (mkMapDB false ∅) map_db_empty_inv) as (db' & -> & Hinv). exact Hinv.
Qed.

(** A purge of one event that lists no validators deletes the signature of
    the next event too, and keeps that of the event in front. *)
Lemma rocksdb_store_correct_witness :
  ∃ db', rocksdb_purge_event_stale_signatures (repeat_byte x07) [] three_events = Ret (Ok tt, db') ∧
    rocksdb_view three_events (repeat_byte x08) some_key = Some [x08] ∧
    rocksdb_view db' (repeat_byte x08) some_key = None ∧
    rocksdb_view db' (repeat_byte x06) some_key = Some [x06].
Proof.
  destruct (rocksdb_store_correct three_events
    (mkWitnessed [x01] some_key (repeat_byte x07)) (repeat_byte x07) [] three_events_inv)
    as (_ & _ & _ & db' & Hrun & _ & _ & Hkept & Hext).
  exists db'. split; [exact Hrun|]. split; [vm_compute; reflexivity|]. split.
  - rewrite (Hext (map_db_no_extractor three_events ltac:(vm_compute; reflexivity))).
    rewrite bool_decide_eq_true_2; [reflexivity|].
    split; [vm_compute; reflexivity|by intros ?%elem_of_nil].
  - rewrite Hkept; [vm_compute; reflexivity|]. right. vm_compute. reflexivity.
Defined.

Lemma rocksdb_count_ignores_errors_witness :
  rocksdb_get_event_proof_count (repeat_byte x07) [mkPair (x00,x00,x00,x00) [x05]]
    (mkMapDB true ∅) = Ret (Ok 0%Z, mkMapDB true ∅).
Proof.
  apply (rocksdb_count_ignores_errors (mkMapDB true ∅) (repeat_byte x07)
    [mkPair (x00,x00,x00,x00) [x05]]
    [proof_key (repeat_byte x07) (encode_key (mkPair (x00,x00,x00,x00) [x05]))]
    [] ("IO error" : @rocksdb_error map_db map_rocksdb) []); [reflexivity|reflexivity|reflexivity|constructor].
Defined.

(** ** Opening and destroying a database *)

(** [DB::open_default] and [DB::destroy] on the files of the machine. *)
Class RocksDBFiles (DB Files : Type) `{RocksDB DB} := {
  db_open_default : string → Files → result rocksdb_error DB * Files;
  db_destroy : string → Files → result rocksdb_error unit * Files
}.

(** Documented behaviour: a database that opens works, and one that was destroyed
    is empty when it is opened again. *)
Class RocksDBFilesLaws (DB Files : Type) `{RocksDBFiles DB Files} `{!RocksDBLaws DB} : Prop := {
  db_open_works path fs db fs' : db_open_default path fs = (Ok db, fs') → db_working db;
  db_open_destroyed path fs fs1 db fs2 :
    db_destroy path fs = (Ok tt, fs1) → db_open_default path fs1 = (Ok db, fs2) →
    ∀ k, db_content db k = None
}.

Section Files.
Context {DB Files : Type} `{RocksDBFiles DB Files}.

(** [create]: an error of the database panics ([expect]). *)
Definition rocksdb_create (path : string) (fs : Files) : outcome (DB * Files) :=
  let '(r, fs') := db_open_default path fs in
  db ← unwrap_result r; Ret (db, fs').

Definition rocksdb_destroy (path : string) : M Files Error unit := λ fs,
  let '(r, fs') := db_destroy path fs in Ret (map_err from_rocksdb r, fs').

(** A store that is created after its path was cleared holds no proof. *)
Lemma rocksdb_create_destroyed `{BincodeLaws} `{!RocksDBLaws DB} `{!RocksDBFilesLaws DB Files}
    path fs fs1 db fs2 :
  rocksdb_destroy path fs = Ret (Ok tt, fs1) → rocksdb_create path fs1 = Ret (db, fs2) →
  rocksdb_inv db ∧ ∀ e k, rocksdb_view db e k = None.
Proof.
  unfold rocksdb_destroy, rocksdb_create. destruct (db_destroy path fs) as [[[]|err] fs1'] eqn:Ed; [|done].
  intros [= ->]. destruct (db_open_default path fs1) as [[db'|err] fs2'] eqn:Eo; [|done].
  intros [= <- _]. pose proof (db_open_works _ _ _ _ Eo) as Hw.
  pose proof (db_open_destroyed _ _ _ _ _ Ed Eo) as Hempty. split.
  - split; [done|]. intros key v. by rewrite Hempty.
  - intros e k. unfold rocksdb_view. by destruct (ser_key k).
Qed.

End Files.

(** A machine whose files are maps, one for each path. *)
Import MapDB.

#[local] Instance map_files : RocksDBFiles map_db (gmap string map_db) := {|
  db_open_default path fs :=
    let db := default (mkMapDB false ∅) (fs !! path) in
    if broken db then (Err ("IO error" : rocksdb_error), fs) else (Ok db, <[path := db]> fs);
  db_destroy path fs := (Ok tt, delete path fs)
|}.

#[local] Instance map_files_laws : RocksDBFilesLaws map_db (gmap string map_db).
Proof.
  split.
  - intros path fs db fs'. cbn. destruct (broken _) eqn:E; [done|]. by intros [= <- _].
  - intros path fs fs1 db fs2. cbn. intros [= <-]. rewrite lookup_delete_eq. cbn. by intros [= <- _].
Qed.

Example rocksdb_reset :
  match rocksdb_destroy "proofs" {["proofs" := mkMapDB true ∅]} with
  | Ret (Ok tt, fs) => match rocksdb_create "proofs" fs with Ret (db, _) => negb (broken db) | _ => false end
  | _ => false
  end = true.
Proof. vm_compute. reflexivity. Qed.
