(* ===== verification/StoreHistory.v ===== *)
(** * The three stores compared with a set of signers

    The reference is the set of pairs of an event and a key of which a proof is
    held: an addition puts a pair into the set, a purge takes out the pairs of
    its event with other keys than the validators.  Sequences of additions and
    purges of the in-memory and of the off-chain store end with the reference's
    set.  The RocksDB store may hold less, because a purge also reaches events
    behind its own. *)

From stdpp Require Import base decidable list gmap strings.
From Stdlib Require Import Strings.Byte ZArith Lia.
From S2P Require Import Prelude Errors Proofs InMemory Offchain RocksDb.

(** ** The reference *)

Abbreviation signed_pairs := (gset (H256 * CryptoTypePublicPair)).

Definition reference_op (op : store_op) (X : signed_pairs) : signed_pairs :=
  match op with
  | AddOp ev => {[(event_id ev, pub_key ev)]} ∪ X
  | PurgeOp e vs => filter (λ p, ¬ (p.1 = e ∧ ¬ p.2 ∈ vs)) X
  end.

Definition reference (ops : list store_op) (X : signed_pairs) : signed_pairs :=
  foldl (flip reference_op) X ops.

(** The store holds a proof for exactly the pairs of the set. *)
Definition holds (v : proof_view) (X : signed_pairs) : Prop :=
  ∀ e k, is_Some (v e k) ↔ (e, k) ∈ X.

Lemma signers_holds (v : proof_view) (X : signed_pairs) (e : H256) (vs : list CryptoTypePublicPair) :
  holds v X → signers v e vs = filter (λ k, (e, k) ∈ X) vs.
Proof.
  intros Hv. unfold signers. induction vs as [|k vs IH]; [done|]. rewrite !filter_cons, IH.
  pose proof (Hv e k). by repeat case_decide; naive_solver.
Qed.

(** ** One operation, and a sequence, at one pair *)

(** The purge of a store is confined to its event, as the trait documents. *)
Class ExactPurge (Store : Type) `{EventProofsSpec Store} : Prop :=
  purge_exact s e vs s' :
    ep_inv s → purge_event_stale_signatures e vs s = Ret (Ok tt, s') →
    ∀ e' k, ep_view s' e' k = if bool_decide (e' = e ∧ ¬ k ∈ vs) then None else ep_view s e' k.

Section AtPair.
Context {Store : Type} `{EventProofsSpec Store}.
Context (e : H256) (k : CryptoTypePublicPair).

(** The store and the set agree on the pair, or the store holds no more. *)
Abbreviation agrees s X := (is_Some (ep_view s e k) ↔ (e, k) ∈ X).
Abbreviation within s X := (is_Some (ep_view s e k) → (e, k) ∈ X).

Lemma add_agrees (ev : WitnessedEvent) (s s' : Store) (X : signed_pairs) :
  ep_inv s → add_event_proof ev s = Ret (Ok tt, s') →
  (within s X → within s' (reference_op (AddOp ev) X)) ∧
  (agrees s X → agrees s' (reference_op (AddOp ev) X)).
Proof.
  intros Hs Hrun. destruct (add_event_proof_spec s ev Hs) as (s1 & Hrun1 & _ & Hadd).
  rewrite Hrun in Hrun1. injection Hrun1 as <-. cbn [reference_op].
  rewrite elem_of_union, elem_of_singleton.
  destruct (decide ((e, k) = (event_id ev, pub_key ev))) as [[= -> ->]|Hne].
  - pose proof (added_signed ev _ _ Hadd). naive_solver.
  - destruct Hadd as [_ Hother]. rewrite Hother by done. naive_solver.
Qed.

(** The operations that treat the pair as the reference does. *)
Definition confined (op : store_op) : Prop :=
  ∀ e' vs s s', op = PurgeOp e' vs → e' ≠ e → ep_inv s →
    purge_event_stale_signatures e' vs s = Ret (Ok tt, s') → ep_view s' e k = ep_view s e k.

Lemma purge_agrees (e' : H256) (vs : list CryptoTypePublicPair) (s s' : Store) (X : signed_pairs) :
  ep_inv s → purge_event_stale_signatures e' vs s = Ret (Ok tt, s') →
  (within s X → within s' (reference_op (PurgeOp e' vs) X)) ∧
  (confined (PurgeOp e' vs) → agrees s X → agrees s' (reference_op (PurgeOp e' vs) X)).
Proof.
  intros Hs Hrun. destruct (purge_event_stale_signatures_spec s e' vs Hs) as (s1 & Hrun1 & _ & Hp).
  rewrite Hrun in Hrun1. injection Hrun1 as <-. cbn [reference_op]. rewrite elem_of_filter. cbn.
  destruct (decide (e' = e)) as [->|Hne].
  - destruct Hp as [Hat _]. rewrite Hat. case_bool_decide; rewrite ?is_Some_alt; naive_solver.
  - destruct Hp as [_ Hp]. split.
    + destruct (Hp e k) as [->|[_ ->]]; [naive_solver|]. by intros _ [].
    + intros Hc. rewrite (Hc e' vs s s') by done. naive_solver.
Qed.

Lemma history_agrees (ops : list store_op) (s s' : Store) (X : signed_pairs) :
  ep_inv s → M_for ops run_op s = Ret (Ok tt, s') →
  (within s X → within s' (reference ops X)) ∧
  (Forall confined ops → agrees s X → agrees s' (reference ops X)).
Proof.
  revert s X. induction ops as [|op ops IH]; intros s X Hs Hrun.
  { injection Hrun as <-. done. }
  destruct (run_op_succeeds op s Hs) as (s1 & Hrun1 & Hs1). cbn [M_for] in Hrun.
  rewrite (M_bind_ok _ _ _ _ _ Hrun1) in Hrun.
  destruct (IH s1 (reference_op op X) Hs1 Hrun) as [Hw Ha].
  assert ((within s X → within s1 (reference_op op X)) ∧
          (confined op → agrees s X → agrees s1 (reference_op op X))) as [Hw1 Ha1].
  { destruct op as [ev|e' vs]; cbn [run_op] in Hrun1;
      [destruct (add_agrees ev s s1 X Hs Hrun1)|destruct (purge_agrees e' vs s s1 X Hs Hrun1)]; tauto. }
  split; [intros Hws; exact (Hw (Hw1 Hws))|]. intros [??]%Forall_cons ?. by apply Ha, Ha1.
Qed.

End AtPair.

(** A store whose purges are exact holds what the reference holds. *)
Lemma history_holds {Store : Type} `{EventProofsSpec Store} `{!ExactPurge Store}
    (ops : list store_op) (s s' : Store) (X : signed_pairs) :
  ep_inv s → M_for ops run_op s = Ret (Ok tt, s') →
  holds (ep_view s) X → holds (ep_view s') (reference ops X).
Proof.
  intros Hs Hrun HX e k. apply (history_agrees e k ops s s' X); [done..| |apply HX].
  apply Forall_true. intros op e' vs s1 s2 _ Hne Hs1 Hpurge.
  rewrite (purge_exact s1 e' vs s2 Hs1 Hpurge), bool_decide_eq_false_2; [done|].
  intros [-> _]. done.
Qed.

(** ** The stores *)

#[export] Instance in_memory_exact_purge : ExactPurge InMemoryEventProofs.
Proof.
  intros s e vs s' Hs Hrun e' k.
  destruct (in_memory_purge_view s e vs e' k Hs) as (s1 & Hrun1 & _ & Hv). cbn in Hrun.
  rewrite Hrun in Hrun1. injection Hrun1 as <-. exact Hv.
Qed.

#[export] Instance offchain_exact_purge `{BincodeLaws} {St : Type} `{OffchainStorageLaws St} :
  ExactPurge St (H0 := offchain_spec).
Proof.
  intros st e vs st' Hst Hrun e' k.
  destruct (offchain_purge st e vs Hst) as (st1 & Hrun1 & _ & Hv).
  change (offchain_purge_event_stale_signatures e vs st = Ret (Ok tt, st')) in Hrun.
  rewrite Hrun in Hrun1. injection Hrun1 as <-. apply Hv.
Qed.

Section Stores.
Context `{BincodeLaws}.
Context {St : Type} `{!OffchainStorage St} `{!OffchainStorageLaws St}.
Context {DB : Type} `{!RocksDB DB} `{!RocksDBLaws DB}.

(** No purge of an event in front of [e] leaves the key out. *)
Definition spared (ops : list store_op) (e : H256) (k : CryptoTypePublicPair) : Prop :=
  ∀ e' vs, PurgeOp e' vs ∈ ops → e' ≠ e → id_le e' e = true → k ∈ vs.

Lemma rocksdb_confined ops e k :
  spared ops e k → Forall (confined (Store := DB) (H0 := rocksdb_spec) e k) ops.
Proof.
  intros Hsp. apply Forall_forall. intros op Hop e' vs db db' -> Hne Hdb Hrun.
  destruct (rocksdb_purge db e' vs Hdb) as (db1 & Hrun1 & _ & _ & Hother & _).
  change (rocksdb_purge_event_stale_signatures e' vs db = Ret (Ok tt, db')) in Hrun.
  rewrite Hrun in Hrun1. injection Hrun1 as <-.
  destruct (Hother e k) as [?|(Hid & Hvs & _)]; [done|]. destruct Hvs. by apply (Hsp e').
Qed.

(** C29: the stores of event proofs implement a set of signers.  Run the same
    sequence of additions and purges on an in-memory store, an off-chain
    storage and a RocksDB database that are well-formed and hold proofs for the
    same pairs of an event and a key.  Every operation returns [Ok(())] on each of
    them.  Afterwards the in-memory and the off-chain store hold proofs for
    exactly the pairs of the reference, so that both answer
    [get_event_proof_count] with the reference's number.  The RocksDB store holds
    no other pair, and it has each pair of the reference whose key is listed as a
    validator by every purge of an event with a smaller id. *)
Theorem stores_refine_reference (ops : list store_op) (X : signed_pairs)
    (s : InMemoryEventProofs) (st : St) (db : DB) :
  in_memory_inv s → offchain_inv st → rocksdb_inv db →
  holds (in_memory_view s) X → holds (offchain_view st) X → holds (rocksdb_view db) X →
  ∃ s' st' db',
    M_for ops (run_op (H := in_memory_proofs)) s = Ret (Ok tt, s') ∧
    M_for ops (run_op (H := offchain_proofs)) st = Ret (Ok tt, st') ∧
    M_for ops (run_op (H := rocksdb_proofs)) db = Ret (Ok tt, db') ∧
    holds (in_memory_view s') (reference ops X) ∧ holds (offchain_view st') (reference ops X) ∧
    (∀ e vs, NoDup vs →
       let n := len_as_u16 (filter (λ k, (e, k) ∈ reference ops X) vs) in
       default_get_event_proof_count in_memory_get_event_proofs e vs s' = Ret (Ok n, s') ∧
       offchain_get_event_proof_count e vs st' = Ret (Ok n, st')) ∧
    (∀ e k, is_Some (rocksdb_view db' e k) → (e, k) ∈ reference ops X) ∧
    (∀ e k, spared ops e k → (e, k) ∈ reference ops X → is_Some (rocksdb_view db' e k)).
Proof.
  intros Hs Hst Hdb HXs HXst HXdb.
  destruct (history_succeeds (H0 := in_memory_spec) ops s Hs) as (s' & Hrun & Hs').
  destruct (history_succeeds (H0 := offchain_spec) ops st Hst) as (st' & Hrun' & Hst').
  destruct (history_succeeds (H0 := rocksdb_spec) ops db Hdb) as (db' & Hrun'' & _).
  pose proof (history_holds (H0 := in_memory_spec) ops s s' X Hs Hrun HXs) as HXs'.
  pose proof (history_holds (H0 := offchain_spec) ops st st' X Hst Hrun' HXst) as HXst'.
  exists s', st', db'. split_and!; [done..| | |].
  - intros e vs Hnd n. subst n. split.
    + rewrite <- (signers_holds (in_memory_view s') _ e vs HXs').
      exact (get_event_proof_count_spec (Store := InMemoryEventProofs) s' e vs Hs' Hnd).
    + rewrite offchain_count. by rewrite (signers_holds _ (reference ops X)).
  - intros e k. destruct (history_agrees (H0 := rocksdb_spec) e k ops db db' X Hdb Hrun'') as [Hw _].
    apply Hw, HXdb.
  - intros e k Hsp. destruct (history_agrees (H0 := rocksdb_spec) e k ops db db' X Hdb Hrun'') as [_ Ha].
    apply Ha; [by apply rocksdb_confined|apply HXdb].
Qed.

End Stores.

(** ** Witness: three additions and a purge, from empty stores *)

Import Codec MapStorage MapDB.

Definition key_a : CryptoTypePublicPair := mkPair (x00, x00, x00, x00) [x0a].
Definition key_b : CryptoTypePublicPair := mkPair (x00, x00, x00, x00) [x0b].

Definition some_ops : list store_op :=
  [AddOp (mkWitnessed [x01] key_a (repeat_byte x07)); AddOp (mkWitnessed [x02] key_b (repeat_byte x07));
   AddOp (mkWitnessed [x03] key_b (repeat_byte x08)); PurgeOp (repeat_byte x07) [key_a]].

Definition op_event (op : store_op) : H256 :=
  match op with AddOp ev => event_id ev | PurgeOp e _ => e end.

Lemma holds_empty (v : proof_view) : (∀ e k, v e k = None) → holds v ∅.
Proof. intros Hv e k. rewrite Hv. split; [by intros []|by intros ?%not_elem_of_empty]. Qed.

Lemma empty_stores_hold :
  holds (in_memory_view in_memory_new) ∅ ∧ holds (offchain_view (∅ : map_store)) ∅ ∧
  holds (rocksdb_view (mkMapDB false ∅)) ∅.
Proof.
  split_and!; apply holds_empty; intros e k; [done| |].
  - unfold offchain_view. cbn [ser_key codec os_get map_storage]. apply lookup_empty.
  - unfold rocksdb_view. cbn [ser_key codec db_content map_rocksdb_laws entries]. apply lookup_empty.
Qed.

(** The two exact stores count one signer of the purged event and one of the
    other; the database still has the validator's signature. *)
Lemma stores_refine_reference_witness :
  ∃ s' st' db',
    M_for some_ops run_op in_memory_new = Ret (Ok tt, s') ∧
    M_for some_ops (run_op (H := offchain_proofs)) (∅ : map_store) = Ret (Ok tt, st') ∧
    M_for some_ops (run_op (H := rocksdb_proofs)) (mkMapDB false ∅) = Ret (Ok tt, db') ∧
    offchain_get_event_proof_count (repeat_byte x07) [key_a; key_b] st' = Ret (Ok 1%Z, st') ∧
    is_Some (in_memory_view s' (repeat_byte x08) key_b) ∧
    is_Some (rocksdb_view db' (repeat_byte x07) key_a).
Proof.
  destruct (stores_refine_reference some_ops ∅ in_memory_new (∅ : map_store) (mkMapDB false ∅))
    as (s' & st' & db' & H1 & H2 & H3 & Hs & _ & Hcount & _ & Hdb).
  - reflexivity.
  - exact empty_inv.
  - exact map_db_empty_inv.
  - apply empty_stores_hold.
  - apply empty_stores_hold.
  - apply empty_stores_hold.
  - exists s', st', db'. split; [exact H1|]. split; [exact H2|]. split; [exact H3|]. split; [|split].
    + destruct (Hcount (repeat_byte x07) [key_a; key_b]) as [_ ->].
      * apply (bool_decide_eq_true_1 (NoDup _)). vm_compute. reflexivity.
      * reflexivity.
    + apply Hs. apply (bool_decide_eq_true_1 (_ ∈ _)). vm_compute. reflexivity.
    + apply Hdb.
      * intros e' vs Hin Hne _. unfold some_ops in Hin.
        apply list_elem_of_In in Hin as [Hin|[Hin|[Hin|[Hin|[]]]]]; [discriminate Hin..|].
        destruct Hne. exact (f_equal op_event (eq_sym Hin)).
      * apply (bool_decide_eq_true_1 (_ ∈ _)). vm_compute. reflexivity.
Defined.
