(* ===== verification/State.v ===== *)
(** * The state shared by the components of a node, and the interfaces of the
      Substrate client

    [consensus/src/node.rs] hands the same [Arc]s to the gossip handler, the
    witnesser and the block import: the cache of authority lists
    ([BlockStateCache]), the event proofs, the transaction pool and the
    channel to the gossip service.  [node_state] is that shared store, so a
    write by one component is seen by the others. *)

From stdpp Require Import base decidable list gmap strings.
From Stdlib Require Import Strings.Byte ZArith Lia.
From S2P Require Import Prelude Errors Proofs.

(** A [futures::channel::mpsc] channel: the orders sent and not yet received,
    the oldest first, and whether its receiver still exists. *)
Record Channel (Order : Type) := mkChannel {
  receiver_alive : bool;
  queued : list Order
}.

Arguments mkChannel {Order} _ _.
Arguments receiver_alive {Order} _.
Arguments queued {Order} _.

(** [Sender::send]: fails when the receiver was dropped. *)
Definition channel_send {Order} (o : Order) (c : Channel Order) : result unit unit * Channel Order :=
  if receiver_alive c then (Ok tt, mkChannel true (queued c ++ [o])) else (Err tt, c).

Record node_state (Store Cache Pool Order : Type) := mkNode {
  block_state : Mutex Cache;
  event_proofs : Store;
  tx_pool : Pool;
  orders : Channel Order
}.

Arguments mkNode {Store Cache Pool Order} _ _ _ _.
Arguments block_state {Store Cache Pool Order} _.
Arguments event_proofs {Store Cache Pool Order} _.
Arguments tx_pool {Store Cache Pool Order} _.
Arguments orders {Store Cache Pool Order} _.

Section Lenses.
Context {Store Cache Pool Order : Type}.
Abbreviation node := (node_state Store Cache Pool Order).

Definition set_block_state (c : Mutex Cache) (n : node) : node :=
  mkNode c (event_proofs n) (tx_pool n) (orders n).
Definition set_event_proofs (s : Store) (n : node) : node :=
  mkNode (block_state n) s (tx_pool n) (orders n).
Definition set_tx_pool (p : Pool) (n : node) : node :=
  mkNode (block_state n) (event_proofs n) p (orders n).
Definition set_orders (q : Channel Order) (n : node) : node :=
  mkNode (block_state n) (event_proofs n) (tx_pool n) q.

Definition on_block_state {E A} : M (Mutex Cache) E A → M node E A :=
  zoom block_state set_block_state.
Definition on_event_proofs {E A} : M Store E A → M node E A :=
  zoom event_proofs set_event_proofs.
Definition on_tx_pool {E A} : M Pool E A → M node E A :=
  zoom tx_pool set_tx_pool.
Definition on_orders {E A} : M (Channel Order) E A → M node E A :=
  zoom orders set_orders.

End Lenses.

(** ** sr25519

    [sp_core::sr25519]: keys and signatures with their conversions from byte
    slices, and signature verification. *)
Class Sr25519 := {
  Public : Type;
  public_eq_dec :: EqDecision Public;
  public_countable :: Countable Public;
  SrSignature : Type;
  public_from_slice : list byte → option Public;
  public_from_h256 : H256 → Public;
  signature_from_slice : list byte → option SrSignature;
  public_verify : Public → list byte → SrSignature → bool
}.

(** ** The LRU cache *)

Class LruCache (K V Cache : Type) := {
  lru_get : K → Cache → option V * Cache;
  lru_put : K → V → Cache → Cache
}.

(** Documented behaviour: a [get] only changes the recency of entries; after a
    [put] the key has the new value and any other key has the value it had or
    was evicted. *)
Class LruCacheLaws (K V Cache : Type) `{LruCache K V Cache} : Prop := {
  lru_get_get k k' c : (lru_get k' (lru_get k c).2).1 = (lru_get k' c).1;
  lru_get_put_eq k v c : (lru_get k (lru_put k v c)).1 = Some v;
  lru_get_put_ne k k' v v' c :
    k' ≠ k → (lru_get k' (lru_put k v c)).1 = Some v' → (lru_get k' c).1 = Some v'
}.

(** ** The client

    The types of the chain, and what the crate reads through the Substrate
    client: chain information and calls of the runtime API at a block. *)
Class ChainTypes := {
  Hash : Type;
  hash_eq_dec :: EqDecision Hash;
  AuthorityId : Type;
  pair_of_authority : AuthorityId → CryptoTypePublicPair;
  Extrinsic : Type;
  ApiError : Type;
  api_error_display :: Display ApiError
}.

Record Client `{ChainTypes} `{Sr25519} := mkClient {
  best_hash : Hash;
  finalized_hash : Hash;
  finalized_number : Z;
  api_authorities : Hash → result ApiError (list AuthorityId);
  api_get_extrinsic_ids : Hash → list Extrinsic → result ApiError (list H256);
  api_create_unsigned_extrinsic :
    Hash → H256 → option (gmap Public SrSignature) → result ApiError Extrinsic
}.

(** ** The transaction pool *)

(** [sp_runtime::transaction_validity::InvalidTransaction] *)
Inductive InvalidTransaction : Type :=
| InvalidCall
| Payment
| Future
| Stale
| BadProof
| AncientBirthBlock
| ExhaustsResources
| CustomInvalid (code : byte)
| BadMandatory
| MandatoryValidation
| BadSigner.

#[export] Instance invalid_transaction_eq_dec : EqDecision InvalidTransaction.
Proof. solve_decision. Defined.

(** [sc_transaction_pool_api::error::Error], as far as the crate tells its
    cases apart. *)
Inductive PoolError : Type :=
| AlreadyImported
| InvalidTransactionError (i : InvalidTransaction)
| OtherPoolError (text : string).

(** [LocalTransactionPool::submit_local]; a failure is what
    [IntoPoolError::into_pool_error] makes of it: a pool error, or another
    error with its text. *)
Class TxPool (Pool : Type) `{ChainTypes} := {
  submit_local : Hash → Extrinsic → Pool → result (result string PoolError) unit * Pool;
  pool_error_text : PoolError → string
}.
