(* ===== verification/Authorities.v ===== *)
(** * Authorities, quorums and the validity of events

    [consensus/src/events/mod.rs]: the list of authorities at a block, the
    check of a witnessed event's origin, the number of witnesses an event
    needs, the cache of authority lists, and the check that every event of a
    list has enough witnesses. *)

From stdpp Require Import base decidable list gmap strings.
From Stdlib Require Import Strings.Byte ZArith Lia.
From S2P Require Import Prelude Errors Proofs State.

(** ** [AuthoritiesList] *)

Record AuthoritiesList := mkAuthorities { authorities : list CryptoTypePublicPair }.

Section Origin.
Context `{Sr25519}.

Definition verify_witnessed_event_origin (self : AuthoritiesList)
    (witnessed_event : WitnessedEvent) : result Error WitnessedEvent :=
  if bool_decide (pub_key witnessed_event ∈ authorities self) then
    pubkey ← ok_or (public_from_slice (pair_public (pub_key witnessed_event)))
      (BadWitnessedEventSignature "Can't retrieve sr25519 keys from WitnessedEvent");
    sig ← ok_or (signature_from_slice (signature witnessed_event))
      (BadWitnessedEventSignature "Can't create sr25519 signature from witnessed event");
    if public_verify pubkey (as_bytes (event_id witnessed_event)) sig then Ok witnessed_event
    else Err (BadWitnessedEventSignature "Incorrect WitnessedEvent signature")
  else Err (BadWitnessedEventSignature "WitnessedEvent was signed by non-validator").

(** A signature that verifies: the key and the signature have the shape of
    sr25519 and the signature is valid for the event. *)
Definition valid_signature (e : H256) (k : CryptoTypePublicPair) (s : list byte) : Prop :=
  ∃ pk sg, public_from_slice (pair_public k) = Some pk ∧ signature_from_slice s = Some sg ∧
           public_verify pk (as_bytes e) sg = true.

End Origin.

(** [(total * 2 / 3 + 1) as u16] *)
Definition target (self : AuthoritiesList) : Z :=
  let total := Z.of_nat (length (authorities self)) in
  as_u16 (total * 2 / 3 + 1).

(** ** Reading authorities through the cache *)

Section Cache.
Context `{ChainTypes} `{Sr25519}.
Context {Cache : Type} `{LruCache Hash AuthoritiesList Cache}.

Definition get_authorities_list (client : Client) (authorities_block_id : Hash) :
    M (Mutex Cache) Error AuthoritiesList :=
  cached ← with_lock from_poison (λ c, let '(o, c') := lru_get authorities_block_id c in (Ok o, c'));
  match cached with
  | Some list => mret list
  | None =>
      ids ← lift (map_err (λ e, Other (to_string e)) (api_authorities client authorities_block_id));
      let new_block_state := mkAuthorities (pair_of_authority <$> ids) in
      with_lock from_poison (λ c, (Ok tt, lru_put authorities_block_id new_block_state c)) ≫= λ _,
      mret new_block_state
  end.

Definition get_latest_authorities_list (client : Client) : M (Mutex Cache) Error AuthoritiesList :=
  get_authorities_list client (finalized_hash client).

Context {Store Pool Order : Type} `{EventProofsTrait Store}.
Abbreviation node := (node_state Store Cache Pool Order).

(** The loop of [verify_events_validity]. *)
Fixpoint collect_unprepared (target_count : Z) (auths : list CryptoTypePublicPair)
    (ids : list H256) : M node Error (list H256) :=
  match ids with
  | [] => mret []
  | id :: rest =>
      current_count ← on_event_proofs (get_event_proof_count id auths);
      unprepared_ids ← collect_unprepared target_count auths rest;
      mret (if (current_count <? target_count)%Z then id :: unprepared_ids else unprepared_ids)
  end.

Definition verify_events_validity (client : Client) (authorities_block_id : Hash)
    (ids : list H256) : M node Error (list H256) :=
  authorities_list ← on_block_state (get_authorities_list client authorities_block_id);
  collect_unprepared (target authorities_list) (authorities authorities_list) ids.

End Cache.

(** ** The origin of a witnessed event *)

Section OriginFacts.
Context `{Sr25519}.

Lemma verify_origin_Ok self ev ev' :
  verify_witnessed_event_origin self ev = Ok ev' ↔
  ev' = ev ∧ pub_key ev ∈ authorities self ∧
  valid_signature (event_id ev) (pub_key ev) (signature ev).
Proof.
  unfold verify_witnessed_event_origin, valid_signature.
  destruct (decide (pub_key ev ∈ authorities self)) as [Hin|Hin];
    [rewrite bool_decide_eq_true_2 by done|rewrite bool_decide_eq_false_2 by done; naive_solver].
  destruct (public_from_slice _) as [pk|]; cbn; [|naive_solver].
  destruct (signature_from_slice _) as [sg|]; cbn; [|naive_solver].
  destruct (public_verify pk _ sg) eqn:Ev.
  - split; [|by intros (-> & _)]. intros [= <-]. split_and!; [done..|]. by exists pk, sg.
  - split; [done|]. intros (_ & _ & pk' & sg' & [= <-] & [= <-] & E). congruence.
Qed.

(** [verify_witnessed_event_origin] accepts an event, unchanged, exactly
    when its key is an authority and its signature is a valid sr25519
    signature of the event id by that key; it rejects every other event with
    a [BadWitnessedEventSignature] error. *)
Theorem verify_witnessed_event_origin_correct (self : AuthoritiesList) (ev : WitnessedEvent) :
  (∀ ev', verify_witnessed_event_origin self ev = Ok ev' ↔
     ev' = ev ∧ pub_key ev ∈ authorities self ∧
     valid_signature (event_id ev) (pub_key ev) (signature ev)) ∧
  (∀ err, verify_witnessed_event_origin self ev = Err err →
     ∃ msg, err = BadWitnessedEventSignature msg).
Proof.
  split; [intros ev'; apply verify_origin_Ok|].
  intros err. unfold verify_witnessed_event_origin.
  case_bool_decide; [|naive_solver].
  destruct (public_from_slice _); cbn; [|naive_solver].
  destruct (signature_from_slice _); cbn; [|naive_solver].
  destruct (public_verify _ _ _); [done|naive_solver].
Qed.

End OriginFacts.

(** ** The number of witnesses *)

(** The largest number of authorities whose target fits in a [u16]. *)
Definition max_authorities : nat := Z.to_nat 98302.

Lemma target_exact self :
  length (authorities self) ≤ max_authorities →
  target self = (Z.of_nat (length (authorities self)) * 2 / 3 + 1)%Z.
Proof.
  unfold max_authorities, target. intros Hn. apply as_u16_small. unfold u16_max. zdiv.
Qed.

(** The target is the formula of its comment: with [f = n / 3] nodes that
    may vote twice, a strict majority of the others plus those [f]; it is more
    than two thirds of the authorities and never more than all of them. *)
Theorem target_formula (self : AuthoritiesList) :
  let n := Z.of_nat (length (authorities self)) in
  0 < length (authorities self) ≤ max_authorities →
  target self = ((n - n / 3) / 2 + 1 + n / 3)%Z ∧ (2 * n < 3 * target self)%Z ∧
  (target self ≤ n)%Z.
Proof.
  intros n Hn. rewrite target_exact by lia. fold n. subst n. zdiv.
Qed.

Definition key_of_nat (i : nat) : CryptoTypePublicPair :=
  mkPair (x73, x72, x32, x35) (replicate i x00).

Definition four_authorities : AuthoritiesList := mkAuthorities (key_of_nat <$> seq 0 4).

Lemma target_formula_witness : target four_authorities = 3%Z ∧ (3 ≤ 4)%Z.
Proof.
  assert (0 < length (authorities four_authorities) ≤ max_authorities) as Hn.
  { split; [vm_compute; lia|]. unfold max_authorities. cbn [length]. apply Nat2Z.inj_le.
    rewrite Z2Nat.id by lia. vm_compute. discriminate. }
  destruct (target_formula four_authorities Hn) as (H1 & _ & H2).
  split; [exact H1|exact H2].
Defined.

(** Past [max_authorities] the cast to [u16] wraps: with 98304 authorities
    a single witness would meet the target. *)
Theorem target_wraps (self : AuthoritiesList) :
  Z.of_nat (length (authorities self)) = 98304%Z → target self = 1%Z.
Proof. unfold target. by intros ->. Qed.

Lemma target_wraps_witness :
  target (mkAuthorities (replicate (Z.to_nat 98304) (key_of_nat 0))) = 1%Z.
Proof.
  apply (target_wraps (mkAuthorities (replicate (Z.to_nat 98304) (key_of_nat 0)))).
  cbn [authorities]. rewrite length_replicate, Z2Nat.id; [reflexivity|lia].
Defined.

(** Inclusion-exclusion for two subsets of a list. *)
Lemma size_intersection_bound {A} `{Countable A} (l : list A) (X Y : gset A) :
  X ⊆ list_to_set l → Y ⊆ list_to_set l →
  size X + size Y ≤ length l + size (X ∩ Y).
Proof.
  intros HX HY.
  assert (size (X ∪ Y) ≤ length l) as Hu.
  { etransitivity; [|apply (size_list_to_set_le l)]. apply subseteq_size. set_solver. }
  assert (size (Y ∖ X) + size (X ∩ Y) = size Y) as Hy.
  { rewrite <- size_union by set_solver. f_equal. apply set_eq. intros x.
    destruct (decide (x ∈ X)); set_solver. }
  rewrite size_union_alt in Hu. lia.
Qed.

(** A set that is larger than another has an element outside it. *)
Lemma size_lt_exists {A} `{Countable A} (X F : gset A) :
  size F < size X → ∃ x, x ∈ X ∧ ¬ x ∈ F.
Proof.
  intros Hlt. destruct (set_choose_or_empty (X ∖ F)) as [[x Hx]|Hempty]; [exists x; set_solver|].
  assert (X ⊆ F) as Hsub by (intros x Hx; destruct (decide (x ∈ F)); set_solver).
  apply subseteq_size in Hsub. lia.
Qed.

Lemma quorums_intersect (self : AuthoritiesList) (A B F : gset CryptoTypePublicPair) :
  length (authorities self) ≤ max_authorities →
  A ⊆ list_to_set (authorities self) → B ⊆ list_to_set (authorities self) →
  (target self ≤ Z.of_nat (size A))%Z → (target self ≤ Z.of_nat (size B))%Z →
  size F ≤ length (authorities self) `div` 3 →
  ∃ k, k ∈ A ∧ k ∈ B ∧ ¬ k ∈ F.
Proof.
  intros Hn HA HB HtA HtB HF. rewrite target_exact in HtA, HtB by done.
  pose proof (size_intersection_bound _ A B HA HB) as Hie.
  destruct (size_lt_exists (A ∩ B) F) as (k & Hk & HkF); [|exists k; set_solver].
  assert (Z.of_nat (length (authorities self) `div` 3) =
          Z.of_nat (length (authorities self)) / 3)%Z as Hdiv by apply Nat2Z.inj_div.
  zdiv.
Qed.

(** C26: two events that both reach the target have a common witness outside
    any set of at most a third of the authorities: if the other authorities
    witness at most one of the two, they cannot both be validated. *)
Theorem quorum_intersection (self : AuthoritiesList) (A B F : gset CryptoTypePublicPair) :
  length (authorities self) ≤ max_authorities →
  A ⊆ list_to_set (authorities self) → B ⊆ list_to_set (authorities self) →
  (target self ≤ Z.of_nat (size A))%Z → (target self ≤ Z.of_nat (size B))%Z →
  size F ≤ length (authorities self) `div` 3 →
  ∃ k, k ∈ A ∧ k ∈ B ∧ ¬ k ∈ F.
Proof. apply quorums_intersect. Qed.

(** The overlap of a prefix and a suffix of a list without duplicates. *)
Lemma overlap_size {A} `{Countable A} (l : list A) (i j : nat) :
  NoDup l →
  size ((list_to_set (take i l) : gset A) ∩ list_to_set (drop j l)) ≤ i - j.
Proof.
  intros Hnd.
  assert ((list_to_set (take i l) : gset A) ∩ list_to_set (drop j l) ⊆
          list_to_set (take (i - j) (drop j l))) as Hsub.
  { intros x. rewrite elem_of_intersection, !elem_of_list_to_set. intros [Hx Hy].
    apply elem_of_take in Hx as (a & Ha & Hai).
    apply list_elem_of_lookup in Hy as [b Hb]. pose proof Hb as Hb'. rewrite lookup_drop in Hb'.
    pose proof (NoDup_lookup l a (j + b) x Hnd Ha Hb').
    apply elem_of_take. exists b. split; [done|lia]. }
  apply subseteq_size in Hsub. etransitivity; [exact Hsub|].
  etransitivity; [apply size_list_to_set_le|]. rewrite length_take. lia.
Qed.

(** C27: the target is the least such number: with one witness less there are
    two sets of witnesses whose common members are at most a third of the
    authorities. *)
Theorem target_minimal (self : AuthoritiesList) :
  NoDup (authorities self) → 0 < length (authorities self) ≤ max_authorities →
  ∃ A B : gset CryptoTypePublicPair,
    A ⊆ list_to_set (authorities self) ∧ B ⊆ list_to_set (authorities self) ∧
    Z.of_nat (size A) = (target self - 1)%Z ∧ Z.of_nat (size B) = (target self - 1)%Z ∧
    size (A ∩ B) ≤ length (authorities self) `div` 3.
Proof.
  intros Hnd [Hpos Hn]. rewrite target_exact by done.
  set (l := authorities self) in *. set (n := length l) in *.
  set (t := (n * 2) `div` 3).
  assert (Z.of_nat t = Z.of_nat n * 2 / 3)%Z as Ht.
  { subst t. rewrite Nat2Z.inj_div, Nat2Z.inj_mul. done. }
  assert (t ≤ n) as Htn by zdiv. clearbody t.
  exists (list_to_set (take t l)), (list_to_set (drop (n - t) l)).
  assert (NoDup (take t l) ∧ NoDup (drop (n - t) l)) as [Hnd1 Hnd2].
  { split; [rewrite <- (take_drop t l) in Hnd|rewrite <- (take_drop (n - t) l) in Hnd];
      by apply NoDup_app in Hnd as (? & _ & ?). }
  rewrite !size_list_to_set_NoDup by done.
  rewrite length_take, length_drop. fold n. clearbody n. split_and!; [..|lia|lia|].
  - intros k. rewrite !elem_of_list_to_set. apply subseteq_take.
  - intros k. rewrite !elem_of_list_to_set. apply subseteq_drop.
  - etransitivity; [apply (overlap_size l t (n - t) Hnd)|].
    apply Nat2Z.inj_le. rewrite Nat2Z.inj_div. zdiv.
Qed.

Lemma four_authorities_small : length (authorities four_authorities) ≤ max_authorities.
Proof.
  unfold max_authorities. apply Nat2Z.inj_le. rewrite Z2Nat.id by lia. vm_compute. discriminate.
Qed.

Lemma quorum_intersection_witness :
  ∃ k, k ∈ (list_to_set (key_of_nat <$> [0; 1; 2]) : gset CryptoTypePublicPair) ∧
       k ∈ (list_to_set (key_of_nat <$> [1; 2; 3]) : gset CryptoTypePublicPair) ∧
       ¬ k ∈ ({[key_of_nat 1]} : gset CryptoTypePublicPair).
Proof.
  apply (quorum_intersection four_authorities
    (list_to_set (key_of_nat <$> [0; 1; 2])) (list_to_set (key_of_nat <$> [1; 2; 3]))
    {[key_of_nat 1]}).
  - exact four_authorities_small.
  - apply (bool_decide_eq_true_1 (_ ⊆ _)). vm_compute. reflexivity.
  - apply (bool_decide_eq_true_1 (_ ⊆ _)). vm_compute. reflexivity.
  - vm_compute. discriminate.
  - vm_compute. discriminate.
  - vm_compute. lia.
Defined.

Lemma target_minimal_witness :
  ∃ A B : gset CryptoTypePublicPair,
    Z.of_nat (size A) = 2%Z ∧ Z.of_nat (size B) = 2%Z ∧ size (A ∩ B) ≤ 1.
Proof.
  assert (NoDup (authorities four_authorities)) as Hnd
    by (apply NoDup_fmap_2_strong; [|apply NoDup_seq];
        intros x y Hx Hy E; apply (f_equal (length ∘ pair_public)) in E; cbn in E;
        by rewrite !length_replicate in E).
  destruct (target_minimal four_authorities Hnd) as (A & B & _ & _ & H1 & H2 & H3).
  - split; [vm_compute; lia|exact four_authorities_small].
  - exists A, B. split; [exact H1|]. split; [exact H2|exact H3].
Defined.

(** ** The cache is transparent *)

Section CacheFacts.
Context `{ChainTypes} `{Sr25519}.
Context {Cache : Type} `{LruCacheLaws Hash AuthoritiesList Cache}.

(** The authorities at a block, without the cache. *)
Definition authorities_at (client : Client) (h : Hash) : result Error AuthoritiesList :=
  (λ ids, mkAuthorities (pair_of_authority <$> ids)) <$>
    map_err (λ e, Other (to_string e)) (api_authorities client h).

(** Every cached list is the one the runtime returns for that block. *)
Definition cache_coherent (client : Client) (c : Mutex Cache) : Prop :=
  poisoned c = false ∧
  ∀ h l, (lru_get h (guarded c)).1 = Some l → authorities_at client h = Ok l.

Lemma get_authorities_list_spec client h c :
  cache_coherent client c →
  ∃ c', get_authorities_list client h c = Ret (authorities_at client h, c') ∧
        cache_coherent client c'.
Proof.
  destruct c as [p c0]. intros [Hp Hc]. cbn in Hp, Hc. subst p.
  unfold get_authorities_list, mbind, M_bind, with_lock. cbn.
  pose proof (Hc h) as Hch. pose proof (lru_get_get h) as Hgg.
  destruct (lru_get h c0) as [o c1] eqn:Eg.
  assert (cache_coherent client (mkMutex false c1)) as Hc1.
  { split; [done|]. intros h' l'. cbn. specialize (Hgg h' c0). rewrite Eg in Hgg.
    cbn in Hgg. rewrite Hgg. apply Hc. }
  destruct o as [l|].
  { eexists; split; [|exact Hc1]. by rewrite (Hch l eq_refl). }
  unfold authorities_at in *. destruct (api_authorities client h) as [ids|err] eqn:Ea; cbn.
  - eexists; split; [done|]. split; [done|]. cbn. intros h' l' Hl'.
    destruct (decide (h' = h)) as [->|Hne].
    + rewrite lru_get_put_eq in Hl'. simplify_eq. unfold authorities_at. by rewrite Ea.
    + apply lru_get_put_ne in Hl'; [|done]. destruct Hc1 as [_ Hc1]. by apply Hc1.
  - by eexists.
Qed.

(** Reading the authorities of a block through the cache returns what the
    runtime returns for that block, errors included, and keeps the cache
    coherent: the cache never changes an answer. *)
Theorem get_authorities_list_transparent (client : Client) (h : Hash) (c : Mutex Cache) :
  cache_coherent client c →
  ∃ c', get_authorities_list client h c = Ret (authorities_at client h, c') ∧
        cache_coherent client c'.
Proof. apply get_authorities_list_spec. Qed.

(** A poisoned cache fails every read. *)
Lemma get_authorities_list_poisoned client h c :
  poisoned c = true → get_authorities_list client h c = Ret (Err from_poison, c).
Proof.
  intros Hp. unfold get_authorities_list. apply M_bind_err. by apply with_lock_poisoned.
Qed.

Context {Store Pool Order : Type} `{EventProofsSpec Store}.
Abbreviation node := (node_state Store Cache Pool Order).

(** An event has enough witnesses among the authorities. *)
Definition has_quorum (v : proof_view) (auths : AuthoritiesList) (id : H256) : Prop :=
  (target auths ≤ Z.of_nat (length (signers v id (authorities auths))))%Z.

#[export] Instance has_quorum_dec v auths id : Decision (has_quorum v auths id).
Proof. unfold has_quorum. apply _. Defined.

(** The lists the chain produces: no authority twice, and a number of
    authorities that fits in a [u16]. *)
Definition wf_authorities (auths : AuthoritiesList) : Prop :=
  NoDup (authorities auths) ∧ (Z.of_nat (length (authorities auths)) ≤ u16_max)%Z.

Lemma wf_authorities_max auths :
  wf_authorities auths → length (authorities auths) ≤ max_authorities.
Proof. unfold wf_authorities, max_authorities, u16_max. intros [_ ?]. lia. Qed.

Lemma count_exact (s : Store) e auths :
  ep_inv s → wf_authorities auths →
  get_event_proof_count e (authorities auths) s =
  Ret (Ok (Z.of_nat (length (signers (ep_view s) e (authorities auths)))), s).
Proof.
  intros Hs [Hnd Hlen]. rewrite get_event_proof_count_spec by done.
  unfold len_as_u16. rewrite as_u16_small; [done|].
  pose proof (signers_length_le (ep_view s) e (authorities auths)). lia.
Qed.

Lemma collect_unprepared_spec auths ids (n : node) :
  ep_inv (event_proofs n) → wf_authorities auths →
  collect_unprepared (target auths) (authorities auths) ids n =
  Ret (Ok (filter (λ id, ¬ has_quorum (ep_view (event_proofs n)) auths id) ids), n).
Proof.
  intros Hs Hwf. induction ids as [|id ids IH]; [done|].
  assert (on_event_proofs (get_event_proof_count id (authorities auths)) n =
    Ret (Ok (Z.of_nat (length (signers (ep_view (event_proofs n)) id (authorities auths)))), n))
    as Hcount.
  { unfold on_event_proofs. rewrite (zoom_eq _ _ _ _ _ _ (count_exact _ id _ Hs Hwf)).
    by destruct n. }
  cbn [collect_unprepared]. rewrite (M_bind_ok _ _ _ _ _ Hcount), (M_bind_ok _ _ _ _ _ IH).
  rewrite filter_cons. unfold mret, M_ret. do 3 f_equal.
  destruct (Z.ltb_spec (Z.of_nat (length (signers (ep_view (event_proofs n)) id
    (authorities auths)))) (target auths)); case_decide as Hd; unfold has_quorum in Hd; done || lia.
Qed.

(** [verify_events_validity] returns, in order, exactly the events that have
    fewer witnesses among the block's authorities than the target; it changes
    neither the proofs nor the pool, and an error of the runtime is
    returned. *)
Theorem verify_events_validity_correct (client : Client) (h : Hash) (ids : list H256) (n : node) :
  cache_coherent client (block_state n) → ep_inv (event_proofs n) →
  (∀ auths, authorities_at client h = Ok auths → wf_authorities auths) →
  ∃ c', cache_coherent client c' ∧
    verify_events_validity client h ids n =
    Ret (match authorities_at client h with
         | Ok auths =>
             Ok (filter (λ id, ¬ has_quorum (ep_view (event_proofs n)) auths id) ids)
         | Err e => Err e
         end, set_block_state c' n).
Proof.
  intros Hc Hs Hwf. unfold verify_events_validity, on_block_state.
  destruct (get_authorities_list_spec client h (block_state n) Hc) as (c' & Hget & Hc').
  exists c'. split; [done|].
  apply (zoom_eq block_state set_block_state) in Hget.
  destruct (authorities_at client h) as [auths|e].
  - rewrite (M_bind_ok _ _ _ _ _ Hget). apply (collect_unprepared_spec auths ids (set_block_state c' n)); cbn; auto.
  - by rewrite (M_bind_err _ _ _ _ _ Hget).
Qed.

End CacheFacts.
