(* ===== verification/Concrete.v ===== *)
(** * Concrete instances of the interfaces

    Small executable instances of the interfaces of [State]: a signature
    scheme, a chain, a bounded least-recently-used cache and a pool.  They
    show that the laws the theorems assume can hold together, and let the
    model be evaluated on concrete inputs. *)

From stdpp Require Import base decidable list gmap strings.
From Stdlib Require Import Strings.Byte ZArith Lia.
From S2P Require Import Prelude Errors Proofs InMemory State Authorities.

(** ** Signatures: the only valid signature is the key followed by the message *)

#[export] Instance toy_sr25519 : Sr25519 := {|
  Public := list byte;
  SrSignature := list byte;
  public_from_slice l := if bool_decide (length l = 32) then Some l else None;
  public_from_h256 h := as_bytes h;
  signature_from_slice l := if bool_decide (length l = 64) then Some l else None;
  public_verify pk msg sg := bool_decide (sg = pk ++ msg)
|}.

(** ** A chain whose blocks are numbered *)

#[local] Instance string_display : Display string := λ s, s.

#[export] Instance toy_chain : ChainTypes := {|
  Hash := nat;
  AuthorityId := list byte;
  pair_of_authority id := mkPair (x73, x72, x32, x35) id;
  Extrinsic := H256 * option (gmap (list byte) (list byte));
  ApiError := string
|}.

(** ** A least-recently-used cache *)

Section Lru.
Context {K V : Type} `{EqDecision K}.

(** The entries, the most recent first, and a capacity of at least one
    ([NonZeroUsize]). *)
Record lru : Type := mkLru { lru_cap : nat; lru_entries : list (K * V) }.

Fixpoint assoc (k : K) (l : list (K * V)) : option V :=
  match l with
  | [] => None
  | (k', v) :: rest => if bool_decide (k' = k) then Some v else assoc k rest
  end.

Definition remove_key (k : K) (l : list (K * V)) : list (K * V) :=
  filter (λ kv, kv.1 ≠ k) l.

#[export] Instance lru_cache : LruCache K V lru := {|
  lru_get k c :=
    match assoc k (lru_entries c) with
    | Some v => (Some v, mkLru (lru_cap c) ((k, v) :: remove_key k (lru_entries c)))
    | None => (None, c)
    end;
  lru_put k v c := mkLru (lru_cap c) (take (S (lru_cap c)) ((k, v) :: remove_key k (lru_entries c)))
|}.

Lemma assoc_remove_ne k k' l : k' ≠ k → assoc k' (remove_key k l) = assoc k' l.
Proof.
  intros Hne. unfold remove_key. induction l as [|[k0 v0] l IH]; [done|]. rewrite filter_cons. cbn.
  destruct (decide (k0 = k)) as [->|Hk].
  - rewrite decide_False by (by intros Hn; apply Hn). rewrite IH.
    by rewrite bool_decide_eq_false_2 by done.
  - rewrite decide_True by done. cbn. by rewrite IH.
Qed.

Lemma assoc_take n k v l : assoc k (take n l) = Some v → assoc k l = Some v.
Proof.
  revert n. induction l as [|[k0 v0] l IH]; intros [|n]; cbn; [done..|].
  case_bool_decide; [done|]. apply IH.
Qed.

#[export] Instance lru_cache_laws : LruCacheLaws K V lru.
Proof.
  assert (∀ k c, (lru_get k c).1 = assoc k (lru_entries c)) as Hget.
  { intros k c. cbn. by destruct (assoc k (lru_entries c)). }
  split.
  - intros k k' c. rewrite !Hget. cbn. destruct (assoc k (lru_entries c)) as [v|] eqn:E; [|done].
    cbn. case_bool_decide as Hk; [by subst|]. by apply assoc_remove_ne.
  - intros k v c. rewrite Hget. cbn. by rewrite bool_decide_eq_true_2.
  - intros k k' v v' c Hne. rewrite !Hget. cbn. rewrite bool_decide_eq_false_2 by done.
    intros E. apply assoc_take in E. by rewrite assoc_remove_ne in E.
Qed.

End Lru.

Arguments lru K V : clear implicits.

(** ** A pool that keeps what it is given, once *)

#[export] Instance toy_pool : TxPool (list H256) := {|
  submit_local _ ext pool :=
    if bool_decide (ext.1 ∈ pool) then (Err (Ok AlreadyImported), pool) else (Ok tt, pool ++ [ext.1]);
  pool_error_text _ := "pool error"
|}.

(** ** A node with four authorities *)

Definition toy_key (b : byte) : list byte := replicate 32 b.
Definition toy_pair (b : byte) : CryptoTypePublicPair := pair_of_authority (toy_key b).
Definition toy_sign (b : byte) (e : H256) : list byte := toy_key b ++ as_bytes e.

Definition toy_client : Client := {|
  best_hash := 7;
  finalized_hash := 5;
  finalized_number := 5;
  api_authorities h := if bool_decide (h < 9) then Ok (toy_key <$> [x01; x02; x03; x04])
                       else Err "unknown block";
  api_get_extrinsic_ids _ exts := Ok (fst <$> exts);
  api_create_unsigned_extrinsic _ e proofs := Ok (e, proofs)
|}.

Definition toy_cache : Type := lru nat AuthoritiesList.
Definition toy_node : node_state InMemoryEventProofs toy_cache (list H256) (list byte) :=
  mkNode (mkMutex false (mkLru 4 [])) in_memory_new [] (mkChannel true []).

Definition toy_auths : AuthoritiesList := mkAuthorities (toy_pair <$> [x01; x02; x03; x04]).

Lemma toy_cache_coherent : cache_coherent toy_client (block_state toy_node).
Proof. split; [done|]. intros h l. done. Qed.

Lemma toy_auths_wf : wf_authorities toy_auths.
Proof.
  split; [|vm_compute; discriminate].
  apply (bool_decide_eq_true_1 (NoDup _)). vm_compute. reflexivity.
Qed.

Lemma toy_client_wf h auths : authorities_at toy_client h = Ok auths → wf_authorities auths.
Proof.
  unfold authorities_at. cbn. case_bool_decide; cbn; [|done]. intros [= <-].
  exact toy_auths_wf.
Qed.

Lemma get_authorities_list_transparent_witness :
  ∃ c', get_authorities_list toy_client 5 (block_state toy_node) =
        Ret (authorities_at toy_client 5, c') ∧ cache_coherent toy_client c'.
Proof.
  apply (get_authorities_list_transparent toy_client 5 (block_state toy_node)).
  exact toy_cache_coherent.
Defined.

Lemma verify_events_validity_correct_witness :
  ∃ c', cache_coherent toy_client c' ∧
    verify_events_validity toy_client 5 [repeat_byte x2a] toy_node =
    Ret (Ok [repeat_byte x2a], set_block_state c' toy_node).
Proof.
  destruct (verify_events_validity_correct toy_client 5 [repeat_byte x2a] toy_node)
    as (c' & H1 & H2).
  - exact toy_cache_coherent.
  - reflexivity.
  - intros auths. apply toy_client_wf.
  - exists c'. split; [exact H1|]. rewrite H2. reflexivity.
Defined.
