(* ===== verification/EventGossip.v ===== *)
(** * The gossip handler of witnessed events

    [consensus/src/events/gossip.rs]: every message of the [WitnessedEvent]
    topic, the node's own included, is decoded, its origin is checked against
    the authorities at the latest finalized block, its proof is stored and the
    stale proofs of its event are purged; once the event has enough
    witnesses its extrinsic is submitted to the transaction pool.  The crate
    feature [off-chain-proofs] is the parameter [off_chain_proofs]. *)

From stdpp Require Import base decidable list gmap strings.
From Stdlib Require Import Strings.Byte ZArith Lia.
From S2P Require Import Prelude Errors Proofs InMemory State Authorities Concrete.

Definition WITNESSED_EVENTS_TOPIC : string := "WitnessedEvent".

Section Handler.
Context `{Bincode} `{ChainTypes} `{Sr25519}.
Context {Cache : Type} `{LruCache Hash AuthoritiesList Cache}.
Context {Store : Type} `{EventProofsTrait Store}.
Context {Pool : Type} `{!TxPool Pool}.
Context {Order : Type}.
Abbreviation node := (node_state Store Cache Pool Order).

(** The conversion of one stored proof, with its two [unwrap]s. *)
Definition convert_proof (kv : CryptoTypePublicPair * list byte) : outcome (Public * SrSignature) :=
  pubkey ← unwrap_option (public_from_slice (pair_public kv.1));
  sig ← unwrap_option (signature_from_slice kv.2);
  Ret (pubkey, sig).

(** The proofs of the extrinsic.  The order in which a [HashMap] is iterated is
    not specified; here it is that of [map_to_list], and the map that is collected
    does not depend on it unless two keys convert to the same one. *)
Definition convert_proofs (event_proofs : option (gmap CryptoTypePublicPair (list byte))) :
    outcome (option (gmap Public SrSignature)) :=
  match event_proofs with
  | None => Ret None
  | Some x =>
      l ← outcome_map convert_proof (map_to_list x);
      Ret (Some (collect_map l))
  end.

(** The [match] on the result of [submit_local]. *)
Definition submit_result (r : result (result string PoolError) unit) : result Error unit :=
  match r with
  | Ok _ => Ok tt
  | Err (Ok AlreadyImported) => Ok tt
  | Err (Ok (InvalidTransactionError Stale)) => Ok tt
  | Err (Ok e) => Err (Other (pool_error_text e))
  | Err (Err e) => Err (Other e)
  end.

Definition submit_event_extrinsic (client : Client) (event : H256)
    (event_proofs : option (gmap CryptoTypePublicPair (list byte))) : M node Error unit :=
  proofs ← lift_outcome (convert_proofs event_proofs);
  unsigned_extrinsic ← lift (map_err from_api
    (api_create_unsigned_extrinsic client (best_hash client) event proofs));
  on_tx_pool (λ pool,
    let '(r, pool') := submit_local (best_hash client) unsigned_extrinsic pool in
    Ret (submit_result r, pool')).

Definition handle_witnessed_event (off_chain_proofs : bool) (client : Client)
    (witnessed_event : WitnessedEvent) : M node Error bool :=
  block_state ← on_block_state (get_latest_authorities_list client);
  witnessed_event ← lift (verify_witnessed_event_origin block_state witnessed_event);
  on_event_proofs (add_event_proof witnessed_event) ≫= λ _,
  on_event_proofs (purge_event_stale_signatures (event_id witnessed_event)
    (authorities block_state)) ≫= λ _,
  proof_count ← on_event_proofs (get_event_proof_count (event_id witnessed_event)
    (authorities block_state));
  (if (target block_state <=? proof_count)%Z then
     proofs ← (if off_chain_proofs then mret None
               else p ← on_event_proofs (get_event_proofs (event_id witnessed_event)
                      (authorities block_state));
                    mret (Some p));
     submit_event_extrinsic client (event_id witnessed_event) proofs
   else mret tt) ≫= λ _,
  mret true.

(** [GossipHandler::get_topics] *)
Definition get_topics : list string := [WITNESSED_EVENTS_TOPIC].

(** [GossipHandler::handle]: errors are logged and dropped. *)
Definition handle (off_chain_proofs : bool) (client : Client) (message_data : list byte) (n : node) :
    outcome node :=
  match de_event message_data with
  | Ok witnessed_event =>
      '(_, n') ← handle_witnessed_event off_chain_proofs client witnessed_event n; Ret n'
  | Err _ => Ret n
  end.

(** The messages a node receives, one after the other. *)
Fixpoint handle_all (off_chain_proofs : bool) (client : Client) (messages : list (list byte))
    (n : node) : outcome node :=
  match messages with
  | [] => Ret n
  | m :: rest => n' ← handle off_chain_proofs client m n; handle_all off_chain_proofs client rest n'
  end.

End Handler.

(** ** The invariant of a node *)

Section HandlerFacts.
Context `{BincodeLaws} `{ChainTypes} `{Sr25519}.
Context {Cache : Type} `{LruCacheLaws Hash AuthoritiesList Cache}.
Context {Store : Type} `{EventProofsSpec Store}.
Context {Pool : Type} `{!TxPool Pool}.
Context {Order : Type}.
Abbreviation node := (node_state Store Cache Pool Order).

(** Every stored proof is a valid signature of its event by its key. *)
Definition proofs_valid (v : proof_view) : Prop :=
  ∀ e k s, v e k = Some s → valid_signature e k s.

Record node_ok (client : Client) (n : node) : Prop := mkNodeOk {
  node_cache : cache_coherent client (block_state n);
  node_store : ep_inv (event_proofs n);
  node_proofs : proofs_valid (ep_view (event_proofs n))
}.

(** The runtime returns well-formed authority lists. *)
Definition client_ok (client : Client) : Prop :=
  ∀ h auths, authorities_at client h = Ok auths → wf_authorities auths.

(** ** Converting and submitting proofs *)

Lemma convert_proof_valid e k s :
  valid_signature e k s → ∃ p, convert_proof (k, s) = Ret p.
Proof.
  intros (pk & sg & Hpk & Hsg & _). exists (pk, sg). unfold convert_proof. cbn.
  by rewrite Hpk, Hsg.
Qed.

(** Valid proofs are converted without a panic, none is lost and none is made
    up. *)
Lemma convert_proofs_valid e (m : gmap CryptoTypePublicPair (list byte)) :
  (∀ k s, m !! k = Some s → valid_signature e k s) →
  ∃ p, convert_proofs (Some m) = Ret (Some p) ∧
    (∀ pk sg, p !! pk = Some sg → ∃ k s, m !! k = Some s ∧ convert_proof (k, s) = Ret (pk, sg)) ∧
    (∀ k s, m !! k = Some s → ∃ pk, public_from_slice (pair_public k) = Some pk ∧ is_Some (p !! pk)).
Proof.
  intros Hm. unfold convert_proofs.
  destruct (outcome_map_total convert_proof (map_to_list m)) as [l Hl].
  { apply Forall_forall. intros [k s] Hin. apply (convert_proof_valid e), Hm.
    by apply elem_of_map_to_list. }
  exists (collect_map l). rewrite Hl. split_and!; [done|..].
  - intros pk sg Hpk%collect_map_elem_of.
    destruct (outcome_map_elem_r _ _ _ _ Hl Hpk) as ([k s] & Hin & E).
    exists k, s. by rewrite elem_of_map_to_list in Hin.
  - intros k s Hk. rewrite <- elem_of_map_to_list in Hk.
    destruct (outcome_map_elem_l _ _ _ _ Hl Hk) as ([pk sg] & Hin & E).
    exists pk. apply collect_map_is_Some in Hin. split; [|done].
    unfold convert_proof in E. cbn in E. destruct (public_from_slice _); [|done]. cbn in E.
    by destruct (signature_from_slice _); simplify_eq/=.
Qed.

(** What a submission does to the pool. *)
Definition submission (client : Client) (event : H256) (proofs : option (gmap Public SrSignature))
    (pool : Pool) : result Error unit * Pool :=
  match api_create_unsigned_extrinsic client (best_hash client) event proofs with
  | Err e => (Err (from_api e), pool)
  | Ok ext =>
      let '(r, pool') := submit_local (best_hash client) ext pool in (submit_result r, pool')
  end.

Lemma submit_event_extrinsic_spec client event ps proofs (n : node) :
  convert_proofs ps = Ret proofs →
  submit_event_extrinsic client event ps n =
  Ret ((submission client event proofs (tx_pool n)).1,
       set_tx_pool (submission client event proofs (tx_pool n)).2 n).
Proof.
  intros Hps. unfold submit_event_extrinsic, submission.
  erewrite M_bind_ok; [|unfold lift_outcome; by rewrite Hps].
  destruct (api_create_unsigned_extrinsic _ _ _ _) as [ext|e]; cbn [map_err].
  - rewrite (M_bind_ok (lift (Ok ext)) _ n n ext eq_refl).
    unfold on_tx_pool, zoom. by destruct (submit_local _ ext (tx_pool n)).
  - rewrite (M_bind_err (lift (Err (from_api e))) _ n n _ eq_refl). by destruct n.
Qed.

(** ** Recording an accepted proof *)

(** The view after storing a proof and purging the stale ones. *)
Definition recorded (auths : AuthoritiesList) (ev : WitnessedEvent) (v v' : proof_view) : Prop :=
  (∀ k, is_Some (v' (event_id ev) k) ↔
        k ∈ authorities auths ∧ (is_Some (v (event_id ev) k) ∨ k = pub_key ev)) ∧
  (∀ e k s, v' e k = Some s →
     v e k = Some s ∨ (e = event_id ev ∧ k = pub_key ev ∧ s = signature ev)) ∧
  (∀ e k, k ∈ authorities auths → is_Some (v e k) → is_Some (v' e k)).

Lemma record_proof (n : node) auths ev :
  ep_inv (event_proofs n) → pub_key ev ∈ authorities auths →
  ∃ s', ep_inv s' ∧ recorded auths ev (ep_view (event_proofs n)) (ep_view s') ∧
    (on_event_proofs (add_event_proof ev) ≫= λ _,
     on_event_proofs (purge_event_stale_signatures (event_id ev) (authorities auths))) n
    = Ret (Ok tt, set_event_proofs s' n).
Proof.
  intros Hs Hin.
  destruct (add_event_proof_spec _ ev Hs) as (s1 & Hadd & Hs1 & Ha).
  destruct (purge_event_stale_signatures_spec s1 (event_id ev) (authorities auths) Hs1)
    as (s2 & Hpurge & Hs2 & Hp).
  exists s2. split; [done|]. split.
  - split.
    + intros k. destruct Hp as [Hp _]. rewrite Hp. case_bool_decide as Hk; [|naive_solver].
      split.
      * intros [s Hsome]. split; [done|].
        destruct (added_origin _ _ _ _ _ _ Ha Hsome) as [E|(_ & -> & _)]; [left; by eexists|by right].
      * intros [_ [?| ->]]; [by eapply added_mono|by eapply added_signed].
    + split.
      * intros e k s Hk. eapply purged_origin in Hk; [|done]. by eapply added_origin.
      * intros e k Hk Hv. destruct Hp as [_ Hp]. destruct (Hp e k) as [->|[Hn _]]; [|done].
        by eapply added_mono.
  - unfold on_event_proofs. rewrite (M_bind_ok _ _ _ _ _ (zoom_eq _ _ _ _ _ _ Hadd)).
    by erewrite zoom_eq by exact Hpurge.
Qed.

(** ** The handler on an event *)

(** The proofs that go into the extrinsic: none with off-chain proofs;
    otherwise exactly the stored signatures by authorities, converted. *)
Definition gathered (off_chain_proofs : bool) (v : proof_view) (auths : AuthoritiesList) (e : H256)
    (proofs : option (gmap Public SrSignature)) : Prop :=
  if off_chain_proofs then proofs = None
  else ∃ p, proofs = Some p ∧
    (∀ pk sg, p !! pk = Some sg →
       ∃ k s, k ∈ authorities auths ∧ v e k = Some s ∧ convert_proof (k, s) = Ret (pk, sg)) ∧
    (∀ k, k ∈ signers v e (authorities auths) →
       ∃ pk, public_from_slice (pair_public k) = Some pk ∧ is_Some (p !! pk)).

(** What the handler does once the origin is accepted: the new store, and the
    submission if the event now has a quorum. *)
Definition accepted (off_chain_proofs : bool) (client : Client) (auths : AuthoritiesList)
    (ev : WitnessedEvent) (n : node) (r : result Error bool) (n' : node) : Prop :=
  recorded auths ev (ep_view (event_proofs n)) (ep_view (event_proofs n')) ∧
  orders n' = orders n ∧
  if decide (has_quorum (ep_view (event_proofs n')) auths (event_id ev)) then
    ∃ proofs, gathered off_chain_proofs (ep_view (event_proofs n')) auths (event_id ev) proofs ∧
      r = (λ _ : unit, true) <$> (submission client (event_id ev) proofs (tx_pool n)).1 ∧
      tx_pool n' = (submission client (event_id ev) proofs (tx_pool n)).2
  else r = Ok true ∧ tx_pool n' = tx_pool n.

Lemma recorded_valid auths ev v v' :
  proofs_valid v → valid_signature (event_id ev) (pub_key ev) (signature ev) →
  recorded auths ev v v' → proofs_valid v'.
Proof.
  intros Hv Hev (_ & Horig & _) e k s Hk.
  destruct (Horig e k s Hk) as [?|(-> & -> & ->)]; [by apply Hv|done].
Qed.

Lemma gather_proofs (off_chain_proofs : bool) (n : node) auths e :
  ep_inv (event_proofs n) → proofs_valid (ep_view (event_proofs n)) →
  ∃ ps proofs,
    ((if off_chain_proofs then mret None
      else p ← on_event_proofs (get_event_proofs e (authorities auths)); mret (Some p))
     : M node Error (option (gmap CryptoTypePublicPair (list byte)))) n
    = Ret (Ok ps, n) ∧
    convert_proofs ps = Ret proofs ∧
    gathered off_chain_proofs (ep_view (event_proofs n)) auths e proofs.
Proof.
  intros Hs Hv. destruct off_chain_proofs; [by exists None, None|].
  destruct (get_event_proofs_spec _ e (authorities auths) Hs) as (m & Hget & Hm).
  destruct (convert_proofs_valid e m) as (p & Hp & Hl & Hr).
  { intros k s. rewrite Hm. case_bool_decide; [|done]. apply Hv. }
  exists (Some m), (Some p). split_and!; [|done|].
  - unfold on_event_proofs. erewrite M_bind_ok; [|apply zoom_eq, Hget].
    by destruct n.
  - exists p. split_and!; [done|..].
    + intros pk sg Hpk. destruct (Hl pk sg Hpk) as (k & s & Hk & E).
      rewrite Hm in Hk. case_bool_decide; [|done]. by exists k, s.
    + intros k [Hin [s Hk]]%elem_of_signers. apply (Hr k s).
      by rewrite Hm, bool_decide_eq_true_2.
Qed.

Lemma handle_witnessed_event_accepted off_chain_proofs client auths ev (n : node) :
  node_ok client n → wf_authorities auths →
  authorities_at client (finalized_hash client) = Ok auths →
  verify_witnessed_event_origin auths ev = Ok ev →
  ∃ r n', handle_witnessed_event off_chain_proofs client ev n = Ret (r, n') ∧
    node_ok client n' ∧ accepted off_chain_proofs client auths ev n r n'.
Proof.
  intros [Hc Hs Hv] Hwf Hauths Hver.
  pose proof (proj1 (verify_origin_Ok _ _ _) Hver) as (_ & Hin & Hsig).
  destruct (get_authorities_list_spec client (finalized_hash client) _ Hc) as (c' & Hget & Hc').
  rewrite Hauths in Hget. apply (zoom_eq block_state set_block_state) in Hget.
  set (n1 := set_block_state c' n) in *.
  destruct (record_proof n1 auths ev Hs Hin) as (s' & Hs' & Hrec & Hrun).
  pose proof (recorded_valid auths ev _ _ Hv Hsig Hrec) as Hv'.
  set (n2 := set_event_proofs s' n1) in *.
  unfold handle_witnessed_event, on_block_state, get_latest_authorities_list.
  rewrite (M_bind_ok _ _ _ _ _ Hget), Hver, (M_bind_ok (lift (Ok ev)) _ n1 n1 ev eq_refl).
  apply M_bind_ok_inv in Hrun as ([] & n1' & Hadd & Hpurge).
  rewrite (M_bind_ok _ _ _ _ _ Hadd), (M_bind_ok _ _ _ _ _ Hpurge).
  assert (on_event_proofs (get_event_proof_count (event_id ev) (authorities auths)) n2 =
    Ret (Ok (Z.of_nat (length (signers (ep_view s') (event_id ev) (authorities auths)))), n2))
    as Hcount.
  { unfold on_event_proofs. by erewrite zoom_eq by exact (count_exact s' _ auths Hs' Hwf). }
  rewrite (M_bind_ok _ _ _ _ _ Hcount).
  destruct (Z.leb_spec (target auths)
    (Z.of_nat (length (signers (ep_view s') (event_id ev) (authorities auths))))) as [Hq|Hq].
  - destruct (gather_proofs off_chain_proofs n2 auths (event_id ev) Hs' Hv')
      as (ps & proofs & Hps & Hconv & Hgath).
    unfold mbind at 1, M_bind at 1. rewrite (M_bind_ok _ _ _ _ _ Hps).
    rewrite (submit_event_extrinsic_spec client _ ps proofs n2 Hconv). cbn.
    set (sub := submission client (event_id ev) proofs (tx_pool n)).
    exists ((λ _ : unit, true) <$> sub.1), (set_tx_pool sub.2 n2).
    split; [by destruct sub as [[[]|e] p]|]. split; [done|].
    split_and!; [done..|]. rewrite decide_True by exact Hq. by exists proofs.
  - unfold mbind at 1, M_bind at 1. cbn. eexists _, n2. split; [done|]. split; [done|].
    split_and!; [done..|]. by rewrite decide_False by (unfold has_quorum; cbn; lia).
Qed.

Lemma handle_witnessed_event_rejected off_chain_proofs client ev (n : node) err :
  node_ok client n →
  (auths ← authorities_at client (finalized_hash client);
   verify_witnessed_event_origin auths ev) = Err err →
  ∃ c', handle_witnessed_event off_chain_proofs client ev n =
        Ret (Err err, set_block_state c' n) ∧ cache_coherent client c'.
Proof.
  intros [Hc Hs Hv] Herr.
  destruct (get_authorities_list_spec client (finalized_hash client) _ Hc) as (c' & Hget & Hc').
  exists c'. split; [|done]. apply (zoom_eq block_state set_block_state) in Hget.
  unfold handle_witnessed_event, on_block_state, get_latest_authorities_list.
  destruct (authorities_at client (finalized_hash client)) as [auths|e]; cbn in Herr.
  - rewrite (M_bind_ok _ _ _ _ _ Hget). apply M_bind_err. by rewrite Herr.
  - simplify_eq. by apply M_bind_err.
Qed.

(** A message whose signature the handler accepts. *)
Definition acceptable (client : Client) (message_data : list byte) (auths : AuthoritiesList)
    (ev : WitnessedEvent) : Prop :=
  de_event message_data = Ok ev ∧ authorities_at client (finalized_hash client) = Ok auths ∧
  pub_key ev ∈ authorities auths ∧ valid_signature (event_id ev) (pub_key ev) (signature ev).

Lemma handle_acceptable off_chain_proofs client message_data auths ev (n : node) :
  node_ok client n → client_ok client → acceptable client message_data auths ev →
  ∃ r n', handle off_chain_proofs client message_data n = Ret n' ∧ node_ok client n' ∧
    accepted off_chain_proofs client auths ev n r n'.
Proof.
  intros Hn Hwf (Hde & Hauths & Hin & Hsig).
  destruct (handle_witnessed_event_accepted off_chain_proofs client auths ev n)
    as (r & n' & Hrun & Hn' & Hacc); eauto.
  { by apply verify_origin_Ok. }
  exists r, n'. split; [|done]. unfold handle. by rewrite Hde, Hrun.
Qed.

Lemma handle_unacceptable off_chain_proofs client message_data (n : node) :
  node_ok client n → (∀ auths ev, ¬ acceptable client message_data auths ev) →
  ∃ c', handle off_chain_proofs client message_data n = Ret (set_block_state c' n) ∧
    cache_coherent client c'.
Proof.
  intros Hn Hno. unfold handle. destruct (de_event message_data) as [ev|e] eqn:Hde.
  2: { exists (block_state n). split; [by destruct n|]. by destruct Hn. }
  destruct (auths ← authorities_at client (finalized_hash client);
            verify_witnessed_event_origin auths ev) as [ev'|err] eqn:Hver.
  - exfalso. destruct (authorities_at client (finalized_hash client)) as [auths|] eqn:Ha; [|done].
    cbn in Hver. apply verify_origin_Ok in Hver as (_ & ? & ?). by eapply (Hno auths ev).
  - destruct (handle_witnessed_event_rejected off_chain_proofs client ev n err Hn Hver)
      as (c' & Hrun & Hc'). exists c'. by rewrite Hrun.
Qed.

(** Any message is either acceptable or changes nothing but the cache. *)
Lemma handle_cases off_chain_proofs client message_data (n : node) :
  node_ok client n → client_ok client →
  ∃ n', handle off_chain_proofs client message_data n = Ret n' ∧ node_ok client n' ∧
    ((∃ c', n' = set_block_state c' n) ∨
     (∃ auths ev r, acceptable client message_data auths ev ∧
        accepted off_chain_proofs client auths ev n r n')).
Proof.
  intros Hn Hwf.
  assert (Decision (∃ auths ev, acceptable client message_data auths ev)) as [Hacc|Hno].
  { destruct (de_event message_data) as [ev|] eqn:Hde;
      [|right; intros (? & ? & [E _]); congruence].
    destruct (authorities_at client (finalized_hash client)) as [auths|] eqn:Ha;
      [|right; intros (? & ? & (_ & E & _)); congruence].
    destruct (verify_witnessed_event_origin auths ev) as [ev'|] eqn:Hver.
    - left. apply verify_origin_Ok in Hver as (_ & ? & ?). by exists auths, ev.
    - right. intros (auths' & ev' & (E1 & E2 & Hok)). simplify_eq.
      assert (verify_witnessed_event_origin auths' ev' = Ok ev') by by apply verify_origin_Ok.
      congruence. }
  - destruct Hacc as (auths & ev & Hacc).
    destruct (handle_acceptable off_chain_proofs client message_data auths ev n)
      as (r & n' & Hrun & Hn' & Hd); [done..|]. exists n'. split_and!; [done..|]. right. eauto.
  - destruct (handle_unacceptable off_chain_proofs client message_data n) as (c' & Hrun & Hc').
    { done. } { intros auths ev Ha. apply Hno. eauto. }
    exists (set_block_state c' n). split_and!; [done| |left; eauto].
    by destruct Hn.
Qed.

Lemma handle_orders off_chain_proofs client message_data (n n' : node) :
  node_ok client n → client_ok client →
  handle off_chain_proofs client message_data n = Ret n' →
  node_ok client n' ∧ orders n' = orders n.
Proof.
  intros Hn Hwf Hrun.
  destruct (handle_cases off_chain_proofs client message_data n) as (n1 & Hrun1 & Hn1 & Hc);
    [done..|]. rewrite Hrun in Hrun1. injection Hrun1 as <-. split; [done|].
  destruct Hc as [[c' ->]|(auths & ev & r & _ & (_ & Ho & _))]; done.
Qed.

(** ** Sequences of messages *)

(** A message adds the signature it carries, if acceptable, and no signature
    of an authority disappears. *)
Lemma handle_signed off_chain_proofs client message_data auths (n : node) :
  node_ok client n → client_ok client → authorities_at client (finalized_hash client) = Ok auths →
  ∃ n', handle off_chain_proofs client message_data n = Ret n' ∧ node_ok client n' ∧
    ∀ e k, k ∈ authorities auths →
      (is_Some (ep_view (event_proofs n') e k) ↔
       is_Some (ep_view (event_proofs n) e k) ∨
       ∃ ev, acceptable client message_data auths ev ∧ event_id ev = e ∧ pub_key ev = k).
Proof.
  intros Hn Hwf Hauths.
  destruct (handle_cases off_chain_proofs client message_data n) as (n' & Hrun & Hn' & _); [done..|].
  exists n'. split_and!; [done..|]. intros e k Hk.
  destruct (de_event message_data) as [ev|] eqn:Hde.
  - destruct (decide (verify_witnessed_event_origin auths ev = Ok ev)) as [Hver|Hver].
    + assert (acceptable client message_data auths ev) as Hacc.
      { apply verify_origin_Ok in Hver as (_ & ? & ?). by split_and!. }
      destruct (handle_acceptable off_chain_proofs client message_data auths ev n)
        as (r & n1 & Hrun1 & _ & ((Hat & Horig & Hkeep) & _)); [done..|].
      rewrite Hrun in Hrun1. injection Hrun1 as <-. split.
      * intros [s Hs]. destruct (Horig e k s Hs) as [?|(-> & -> & ->)]; [left; by eexists|right; eauto].
      * intros [Hv|(ev' & (Hde' & _) & <- & <-)]; [by apply Hkeep|].
        rewrite Hde in Hde'. injection Hde' as <-. apply Hat. by split; [|right].
    + assert (∀ auths ev, ¬ acceptable client message_data auths ev) as Hno.
      { intros auths' ev' (E1 & E2 & Hok). apply Hver.
        replace auths with auths' by congruence. replace ev with ev' by congruence.
        by apply verify_origin_Ok. }
      destruct (handle_unacceptable off_chain_proofs client message_data n Hn Hno) as (c' & Hrun1 & _).
      rewrite Hrun in Hrun1. injection Hrun1 as ->. cbn. naive_solver.
  - unfold handle in Hrun. rewrite Hde in Hrun. injection Hrun as <-. split; [by left|].
    intros [?|(ev & (E & _) & _)]; [done|congruence].
Qed.

Lemma handle_all_app off_chain_proofs client ms1 ms2 (n : node) :
  handle_all off_chain_proofs client (ms1 ++ ms2) n =
  n' ← handle_all off_chain_proofs client ms1 n; handle_all off_chain_proofs client ms2 n'.
Proof.
  revert n. induction ms1 as [|m ms1 IH]; intros n; [done|]. cbn [handle_all app].
  destruct (handle _ _ m n) as [n'| |]; [|done..]. rewrite !outcome_ret_bind. apply IH.
Qed.

Lemma handle_all_signed off_chain_proofs client messages auths (n : node) :
  node_ok client n → client_ok client → authorities_at client (finalized_hash client) = Ok auths →
  ∃ n', handle_all off_chain_proofs client messages n = Ret n' ∧ node_ok client n' ∧
    ∀ e k, k ∈ authorities auths →
      (is_Some (ep_view (event_proofs n') e k) ↔
       is_Some (ep_view (event_proofs n) e k) ∨
       ∃ m ev, m ∈ messages ∧ acceptable client m auths ev ∧ event_id ev = e ∧ pub_key ev = k).
Proof.
  intros Hn Hwf Hauths. revert n Hn. induction messages as [|m ms IH]; intros n Hn.
  { exists n. split_and!; [done..|]. set_solver. }
  destruct (handle_signed off_chain_proofs client m auths n) as (n1 & Hrun & Hn1 & Hs1); [done..|].
  destruct (IH n1 Hn1) as (n2 & Hrun2 & Hn2 & Hs2). exists n2. split_and!; [|done|].
  - cbn [handle_all]. by rewrite Hrun, outcome_ret_bind.
  - intros e k Hk. rewrite (Hs2 e k Hk), (Hs1 e k Hk). set_solver.
Qed.

(** Whatever bytes a peer sends, with either feature set, the handler
    returns: no input makes one of its [unwrap]s panic.  The cache stays
    coherent, the store well-formed, every stored proof a valid signature, and
    no order is sent. *)
Theorem handle_safe off_chain_proofs client message_data (n : node) :
  node_ok client n → client_ok client →
  ∃ n', handle off_chain_proofs client message_data n = Ret n' ∧
    node_ok client n' ∧ orders n' = orders n.
Proof.
  intros Hn Hwf.
  destruct (handle_cases off_chain_proofs client message_data n) as (n' & Hrun & _); [done..|].
  exists n'. split; [done|]. by eapply handle_orders.
Qed.


(** A message that does not decode, whose signer is no authority or whose
    signature does not verify, and any message while the authorities cannot be
    read, leaves the proofs, the pool and the orders as they were. *)
Theorem handle_rejects off_chain_proofs client message_data (n : node) :
  node_ok client n → (∀ auths ev, ¬ acceptable client message_data auths ev) →
  ∃ n', handle off_chain_proofs client message_data n = Ret n' ∧
    event_proofs n' = event_proofs n ∧ tx_pool n' = tx_pool n ∧ orders n' = orders n.
Proof.
  intros Hn Hno.
  destruct (handle_unacceptable off_chain_proofs client message_data n Hn Hno) as (c' & Hrun & _).
  by eexists.
Qed.

(** C24: the handler touches the pool only for an event with a quorum: if a
    message changes the pool, then at least [target] distinct authorities of
    the latest finalized block have a stored valid signature of its event. *)
Theorem handle_submits_with_quorum off_chain_proofs client message_data (n n' : node) :
  node_ok client n → client_ok client →
  handle off_chain_proofs client message_data n = Ret n' → tx_pool n' ≠ tx_pool n →
  ∃ auths ev ks, acceptable client message_data auths ev ∧ NoDup ks ∧
    (target auths ≤ Z.of_nat (length ks))%Z ∧
    Forall (λ k, k ∈ authorities auths ∧
      ∃ s, ep_view (event_proofs n') (event_id ev) k = Some s ∧ valid_signature (event_id ev) k s) ks.
Proof.
  intros Hn Hwf Hrun Hpool.
  destruct (handle_cases off_chain_proofs client message_data n) as (n1 & Hrun1 & [_ _ Hv] & Hc);
    [done..|]. rewrite Hrun in Hrun1. injection Hrun1 as <-.
  destruct Hc as [[c' ->]|(auths & ev & r & Hacc & (_ & _ & Hq))]; [done|].
  case_decide as Hquorum; [|naive_solver].
  exists auths, ev, (signers (ep_view (event_proofs n')) (event_id ev) (authorities auths)).
  split_and!; [done| |exact Hquorum|].
  - apply signers_NoDup. destruct Hacc as (_ & Ha & _). by apply (Hwf _ _ Ha).
  - apply Forall_forall. intros k [Hin [s Hs]]%elem_of_signers. eauto.
Qed.

End HandlerFacts.

(** ** Agreement between nodes *)

Section Agreement.
Context `{BincodeLaws} `{ChainTypes} `{Sr25519}.
Context {Cache : Type} `{LruCacheLaws Hash AuthoritiesList Cache}.
Context {Store1 : Type} `{EventProofsSpec Store1}.
Context {Store2 : Type} `{EventProofsSpec Store2}.
Context {Pool : Type} `{!TxPool Pool}.
Context {Order : Type}.

(** C14: gossip converges.  Two nodes that have the same finalized authorities and
    started with signatures by the same authorities agree, after receiving the
    same set of messages, in any order, with any repetitions and with any two
    implementations of the proof store, on which authorities have signed each
    event, and so on which events have a quorum.  What they agree on is what was
    sent: an authority has signed an event if it had from the start or if one of
    the messages is a witnessed event of its, with its valid signature. *)
Theorem gossip_agreement off_chain_proofs client1 client2 auths messages1 messages2
    (n1 : node_state Store1 Cache Pool Order) (n2 : node_state Store2 Cache Pool Order) :
  node_ok client1 n1 → node_ok client2 n2 → client_ok client1 → client_ok client2 →
  authorities_at client1 (finalized_hash client1) = Ok auths →
  authorities_at client2 (finalized_hash client2) = Ok auths →
  (∀ e k, k ∈ authorities auths →
     is_Some (ep_view (event_proofs n1) e k) ↔ is_Some (ep_view (event_proofs n2) e k)) →
  (∀ m, m ∈ messages1 ↔ m ∈ messages2) →
  ∃ n1' n2', handle_all off_chain_proofs client1 messages1 n1 = Ret n1' ∧
    handle_all off_chain_proofs client2 messages2 n2 = Ret n2' ∧
    ∀ e, signers (ep_view (event_proofs n1')) e (authorities auths) =
         signers (ep_view (event_proofs n2')) e (authorities auths) ∧
         (has_quorum (ep_view (event_proofs n1')) auths e ↔
          has_quorum (ep_view (event_proofs n2')) auths e) ∧
         (∀ k, k ∈ signers (ep_view (event_proofs n1')) e (authorities auths) ↔
            k ∈ authorities auths ∧
            (is_Some (ep_view (event_proofs n1) e k) ∨
             ∃ m ev, m ∈ messages1 ∧ acceptable client1 m auths ev ∧
                     event_id ev = e ∧ pub_key ev = k)).
Proof.
  intros Hn1 Hn2 Hc1 Hc2 Ha1 Ha2 Hsame Hms.
  destruct (handle_all_signed off_chain_proofs client1 messages1 auths n1) as (n1' & Hr1 & _ & Hs1);
    [done..|].
  destruct (handle_all_signed off_chain_proofs client2 messages2 auths n2) as (n2' & Hr2 & _ & Hs2);
    [done..|].
  exists n1', n2'. split_and!; [done..|]. intros e.
  assert (signers (ep_view (event_proofs n1')) e (authorities auths) =
          signers (ep_view (event_proofs n2')) e (authorities auths)) as E.
  { apply signers_ext. intros k Hk. rewrite (Hs1 e k Hk), (Hs2 e k Hk), (Hsame e k Hk).
    unfold acceptable. rewrite Ha1, Ha2. by setoid_rewrite Hms. }
  split_and!; [done|unfold has_quorum; by rewrite E|].
  intros k. rewrite elem_of_signers. split; intros [Hk Hs]; (split; [done|]); by apply (Hs1 e k Hk).
Qed.

End Agreement.

(** ** Witnesses: a node with four authorities collects signatures *)

Import Codec.

Definition toy_event : H256 := repeat_byte x2a.
Definition toy_message (b : byte) : list byte :=
  encode_event (mkWitnessed (toy_sign b toy_event) (toy_pair b) toy_event).

Abbreviation toy_state := (node_state InMemoryEventProofs toy_cache (list H256) (list byte)).

(** The node after messages signed by the given authorities. *)
Definition toy_run (bs : list byte) : outcome toy_state :=
  handle_all false toy_client (toy_message <$> bs) toy_node.

Lemma toy_node_ok : node_ok toy_client toy_node.
Proof. split; [exact toy_cache_coherent|reflexivity|done]. Qed.

Lemma toy_run_ok bs : ∃ n, toy_run bs = Ret n ∧ node_ok toy_client n.
Proof.
  destruct (handle_all_signed false toy_client (toy_message <$> bs) toy_auths toy_node)
    as (n & Hn & Hok & _); [exact toy_node_ok|exact toy_client_wf|reflexivity|]. by exists n.
Qed.


Lemma handle_safe_witness :
  ∃ n', handle true toy_client [x00; x01] toy_node = Ret n' ∧
    node_ok toy_client n' ∧ orders n' = orders toy_node.
Proof.
  apply (handle_safe true toy_client [x00; x01] toy_node).
  - exact toy_node_ok.
  - exact toy_client_wf.
Defined.


Lemma handle_rejects_witness :
  ∃ n', handle true toy_client (toy_message x09) toy_node = Ret n' ∧
    event_proofs n' = event_proofs toy_node ∧ tx_pool n' = tx_pool toy_node ∧
    orders n' = orders toy_node.
Proof.
  apply (handle_rejects true toy_client (toy_message x09) toy_node).
  - exact toy_node_ok.
  - intros auths ev (Hde & Ha & Hin & _). vm_compute in Hde, Ha.
    injection Ha as <-. injection Hde as <-.
    apply (bool_decide_eq_true_2 (_ ∈ _)) in Hin. vm_compute in Hin. discriminate Hin.
Defined.

(** The pool of a run, by evaluation. *)
Lemma toy_run_pool bs n p :
  toy_run bs = Ret n →
  match toy_run bs with Ret n => bool_decide (tx_pool n = p) | _ => false end = true →
  tx_pool n = p.
Proof. intros ->. apply bool_decide_eq_true_1. Qed.

(** The third signature reaches the target of four authorities: the event is
    in the pool. *)
Lemma handle_submits_with_quorum_witness :
  ∃ n n' auths ev (ks : list CryptoTypePublicPair), toy_run [x01; x02] = Ret n ∧
    handle false toy_client (toy_message x03) n = Ret n' ∧ tx_pool n' = [toy_event] ∧
    acceptable toy_client (toy_message x03) auths ev ∧
    (target auths ≤ Z.of_nat (length ks))%Z.
Proof.
  destruct (toy_run_ok [x01; x02]) as (n & Hn & Hok).
  destruct (toy_run_ok [x01; x02; x03]) as (n' & Hn' & _).
  assert (handle false toy_client (toy_message x03) n = Ret n') as Hrun.
  { change (toy_run [x01; x02; x03])
      with (handle_all false toy_client ((toy_message <$> [x01; x02]) ++ [toy_message x03]) toy_node)
      in Hn'.
    rewrite handle_all_app in Hn'. unfold toy_run in Hn. rewrite Hn in Hn'.
    cbn [handle_all] in Hn'. rewrite outcome_ret_bind in Hn'.
    destruct (handle false toy_client (toy_message x03) n); [exact Hn'|discriminate Hn'..]. }
  assert (tx_pool n = []) as Hp 
    by (apply (toy_run_pool [x01; x02] n [] Hn); vm_compute; reflexivity).
  assert (tx_pool n' = [toy_event]) as Hp'
    by (apply (toy_run_pool [x01; x02; x03] n' [toy_event] Hn'); vm_compute; reflexivity).
  destruct (handle_submits_with_quorum false toy_client (toy_message x03) n n' Hok toy_client_wf Hrun)
    as (auths & ev & ks & Hacc & _ & Hks & _).
  - rewrite Hp, Hp'. discriminate.
  - exists n, n', auths, ev, ks. split; [exact Hn|]. split; [exact Hrun|]. split; [exact Hp'|].
    split; [exact Hacc|exact Hks].
Defined.

(** The same messages in another order and with a repetition, with the
    in-memory store. *)
Lemma gossip_agreement_witness :
  ∃ n1' n2' : toy_state,
    handle_all false toy_client (toy_message <$> [x01; x02; x03]) toy_node = Ret n1' ∧
    handle_all false toy_client (toy_message <$> [x03; x01; x03; x02]) toy_node = Ret n2' ∧
    has_quorum (ep_view (event_proofs n1')) toy_auths toy_event ∧
    has_quorum (ep_view (event_proofs n2')) toy_auths toy_event.
Proof.
  destruct (gossip_agreement false toy_client toy_client toy_auths (toy_message <$> [x01; x02; x03])
    (toy_message <$> [x03; x01; x03; x02]) toy_node toy_node) as (n1' & n2' & H1 & H2 & Hq).
  - exact toy_node_ok.
  - exact toy_node_ok.
  - exact toy_client_wf.
  - exact toy_client_wf.
  - reflexivity.
  - reflexivity.
  - intros e k _. split; intros H; exact H.
  - intros m. cbn [fmap list_fmap]. set_solver.
  - exists n1', n2'. split; [exact H1|]. split; [exact H2|].
    assert (has_quorum (ep_view (event_proofs n1')) toy_auths toy_event) as H.
    { assert (match toy_run [x01; x02; x03] with
              | Ret n => bool_decide (has_quorum (ep_view (event_proofs n)) toy_auths toy_event)
              | _ => false end = true) as E by (vm_compute; reflexivity).
      unfold toy_run in E. rewrite H1 in E. apply (bool_decide_eq_true_1 _ E). }
    split; [exact H|]. apply (proj1 (proj1 (proj2 (Hq toy_event))) H).
Defined.
