(* ===== verification/Gossip.v ===== *)
(** * The gossip service

    [consensus/src/gossip/mod.rs]: the [Gossip] handle sends orders over a
    channel; [GossipService::run] subscribes the handler's topics and then
    serves orders and network events one at a time, in the order in which the
    [select!] picks them.  libp2p's swarm is an interface; the handler is any
    [GossipHandler]. *)

From stdpp Require Import base decidable list strings.
From Stdlib Require Import Strings.Byte.
From S2P Require Import Prelude State.

(** ** Orders and events *)

Inductive GossipOrder (Multiaddr : Type) : Type :=
| SendMessage (topic : string) (message : list byte)
| DialPeers (peers : list Multiaddr)
| Listen (listen_addr : Multiaddr).

Arguments SendMessage {Multiaddr} topic message.
Arguments DialPeers {Multiaddr} peers.
Arguments Listen {Multiaddr} listen_addr.

#[export] Instance gossip_order_eq_dec {Multiaddr} `{EqDecision Multiaddr} :
  EqDecision (GossipOrder Multiaddr).
Proof. solve_decision. Defined.

(** [SwarmEvent], with the cases that [handle_incoming_event] tells apart. *)
Inductive SwarmEvent (PeerId Multiaddr : Type) : Type :=
| NewListenAddr (address : Multiaddr)
| Subscribed (peer_id : PeerId) (topic : string)
| Message (data : list byte)
| IdentifyReceived (peer_id : PeerId) (listen_addrs : list Multiaddr)
| OtherSwarmEvent.

Arguments NewListenAddr {PeerId Multiaddr} address.
Arguments Subscribed {PeerId Multiaddr} peer_id topic.
Arguments Message {PeerId Multiaddr} data.
Arguments IdentifyReceived {PeerId Multiaddr} peer_id listen_addrs.
Arguments OtherSwarmEvent {PeerId Multiaddr}.

(** libp2p's [Swarm] with its behaviours; every call may fail with an error
    that is only logged. *)
Class SwarmOps (Swarm PeerId Multiaddr : Type) := {
  gossipsub_subscribe : string → Swarm → result string bool * Swarm;
  gossipsub_publish : string → list byte → Swarm → result string unit * Swarm;
  swarm_dial : Multiaddr → Swarm → result string unit * Swarm;
  swarm_listen_on : Multiaddr → Swarm → result string unit * Swarm;
  kademlia_add_address : PeerId → Multiaddr → Swarm → Swarm
}.

(** [trait GossipHandler] *)
Class GossipHandler (Handler : Type) := {
  handler_topics : list string;
  handler_handle : list byte → Handler → outcome Handler
}.

(** ** The [Gossip] handle *)

Section Handle.
Context {Multiaddr : Type}.

(** A failed send is only logged. *)
Definition send_order (order : GossipOrder Multiaddr) (tx : Channel (GossipOrder Multiaddr)) :
    Channel (GossipOrder Multiaddr) :=
  (channel_send order tx).2.

Definition publish (topic : string) (message : list byte) :
    Channel (GossipOrder Multiaddr) → Channel (GossipOrder Multiaddr) :=
  send_order (SendMessage topic message).

Definition connect_to (peers : list Multiaddr) :
    Channel (GossipOrder Multiaddr) → Channel (GossipOrder Multiaddr) :=
  send_order (DialPeers peers).

Definition listen (address : Multiaddr) :
    Channel (GossipOrder Multiaddr) → Channel (GossipOrder Multiaddr) :=
  send_order (Listen address).

(** [Gossip::create]: the handle and the service share a new channel. *)
Definition create : Channel (GossipOrder Multiaddr) := mkChannel true [].

End Handle.

(** ** The service *)

Section Service.
Context {Swarm PeerId Multiaddr : Type} `{SwarmOps Swarm PeerId Multiaddr}.
Context {Handler : Type} `{GossipHandler Handler}.

Definition dial_peers (swarm : Swarm) (peers : list Multiaddr) : Swarm :=
  foldl (λ sw peer, (swarm_dial peer sw).2) swarm peers.

Definition handle_incoming_order (order : GossipOrder Multiaddr) (st : Swarm * Handler) :
    outcome (Swarm * Handler) :=
  let '(swarm, handler) := st in
  match order with
  | SendMessage topic message =>
      let '(_, swarm') := gossipsub_publish topic message swarm in
      handler' ← handler_handle message handler;
      Ret (swarm', handler')
  | DialPeers peers => Ret (dial_peers swarm peers, handler)
  | Listen listen_addr => Ret ((swarm_listen_on listen_addr swarm).2, handler)
  end.

Definition handle_incoming_event (event : SwarmEvent PeerId Multiaddr) (st : Swarm * Handler) :
    outcome (Swarm * Handler) :=
  let '(swarm, handler) := st in
  match event with
  | NewListenAddr _ => Ret (swarm, handler)
  | Subscribed _ _ => Ret (swarm, handler)
  | Message data => handler' ← handler_handle data handler; Ret (swarm, handler')
  | IdentifyReceived peer_id listen_addrs =>
      Ret (foldl (λ sw addr, kademlia_add_address peer_id addr sw) swarm listen_addrs, handler)
  | OtherSwarmEvent => Ret (swarm, handler)
  end.

(** What one iteration of the [select!] receives. *)
Inductive gossip_input : Type :=
| OrderInput (o : GossipOrder Multiaddr)
| EventInput (e : SwarmEvent PeerId Multiaddr).

Definition handle_input (i : gossip_input) : Swarm * Handler → outcome (Swarm * Handler) :=
  match i with
  | OrderInput o => handle_incoming_order o
  | EventInput e => handle_incoming_event e
  end.

(** [run_loop] on the inputs it has received so far; the loop itself never
    ends. *)
Fixpoint run_loop (inputs : list gossip_input) (st : Swarm * Handler) : outcome (Swarm * Handler) :=
  match inputs with
  | [] => Ret st
  | i :: rest => st' ← handle_input i st; run_loop rest st'
  end.

(** [GossipService::run]: the topics are subscribed, a failure is dropped
    ([.ok()]). *)
Definition run (swarm : Swarm) (handler : Handler) (inputs : list gossip_input) :
    outcome (Swarm * Handler) :=
  let swarm' := foldl (λ sw topic, (gossipsub_subscribe topic sw).2) swarm handler_topics in
  run_loop inputs (swarm', handler).

(** ** The actor

    The service, its channel and its network: orders are sent and network
    events arrive at any time; the [select!] takes the oldest order or the
    oldest event.  The trace records what happened. *)
Record actor := mkActor {
  rc : list (GossipOrder Multiaddr);
  network : list (SwarmEvent PeerId Multiaddr);
  service : Swarm * Handler
}.

Inductive action : Type :=
| Sent (o : GossipOrder Multiaddr)
| Arrived (e : SwarmEvent PeerId Multiaddr)
| Took (i : gossip_input).

Inductive actor_step : actor → action → actor → Prop :=
| StepSend o a : actor_step a (Sent o) (mkActor (rc a ++ [o]) (network a) (service a))
| StepArrive e a : actor_step a (Arrived e) (mkActor (rc a) (network a ++ [e]) (service a))
| StepOrder o q es st st' :
    handle_incoming_order o st = Ret st' →
    actor_step (mkActor (o :: q) es st) (Took (OrderInput o)) (mkActor q es st')
| StepEvent e q es st st' :
    handle_incoming_event e st = Ret st' →
    actor_step (mkActor q (e :: es) st) (Took (EventInput e)) (mkActor q es st').

Inductive actor_run : actor → list action → actor → Prop :=
| RunNil a : actor_run a [] a
| RunStep a x a' xs a'' :
    actor_step a x a' → actor_run a' xs a'' → actor_run a (x :: xs) a''.

Definition taken (xs : list action) : list gossip_input :=
  omap (λ x, match x with Took i => Some i | _ => None end) xs.
Definition sent (xs : list action) : list (GossipOrder Multiaddr) :=
  omap (λ x, match x with Sent o => Some o | _ => None end) xs.
Definition arrived (xs : list action) : list (SwarmEvent PeerId Multiaddr) :=
  omap (λ x, match x with Arrived e => Some e | _ => None end) xs.

(** ** Messages reach the handler *)

Definition message_of (i : gossip_input) : option (list byte) :=
  match i with
  | OrderInput (SendMessage _ message) => Some message
  | EventInput (Message data) => Some data
  | _ => None
  end.

Definition order_of (i : gossip_input) : option (GossipOrder Multiaddr) :=
  match i with
  | OrderInput o => Some o
  | EventInput _ => None
  end.

Definition event_of (i : gossip_input) : option (SwarmEvent PeerId Multiaddr) :=
  match i with
  | OrderInput _ => None
  | EventInput e => Some e
  end.

Fixpoint handle_messages (ms : list (list byte)) (h : Handler) : outcome Handler :=
  match ms with
  | [] => Ret h
  | m :: rest => h' ← handler_handle m h; handle_messages rest h'
  end.

Lemma handle_input_message i sw h :
  ∃ sw', handle_input i (sw, h) =
    match message_of i with
    | Some m => h' ← handler_handle m h; Ret (sw', h')
    | None => Ret (sw', h)
    end.
Proof.
  destruct i as [[topic m|ps|a]|[a|p t|m|p addrs|]]; cbn; try by eexists.
  destruct (gossipsub_publish topic m sw) as [r sw']. by exists sw'.
Qed.

Lemma run_loop_app xs js st : run_loop (xs ++ js) st = st' ← run_loop xs st; run_loop js st'.
Proof.
  revert st. induction xs as [|i xs IH]; intros st; [done|]. cbn [run_loop app].
  destruct (handle_input i st); [|done..]. rewrite !outcome_ret_bind. apply IH.
Qed.

Lemma run_loop_messages inputs sw h :
  ∃ sw', run_loop inputs (sw, h) =
    h' ← handle_messages (omap message_of inputs) h; Ret (sw', h').
Proof.
  revert sw h. induction inputs as [|i xs IH]; intros sw h; [by exists sw|].
  destruct (handle_input_message i sw h) as [sw1 Hi]. cbn [run_loop omap list_omap]. rewrite Hi.
  destruct (message_of i) as [m|]; [|apply IH]. cbn [handle_messages].
  destruct (handler_handle m h) as [h'| |]; [|by exists sw..]. rewrite !outcome_ret_bind. apply IH.
Qed.

(** The handler gets exactly the messages of the inputs, in order, whether
    they came from peers or were sent by this node, and whether publishing
    them to peers succeeded or not; no other input reaches it, and only the
    handler can stop the loop. *)
Theorem run_loop_delivery (inputs : list gossip_input) (sw : Swarm) (h : Handler) :
  ∃ sw', run_loop inputs (sw, h) =
    h' ← handle_messages (omap message_of inputs) h; Ret (sw', h').
Proof. apply run_loop_messages. Qed.

(** ** Every interleaving *)

Lemma actor_step_spec a x a' :
  actor_step a x a' →
  run_loop (taken [x]) (service a) = Ret (service a') ∧
  rc a ++ sent [x] = omap order_of (taken [x]) ++ rc a' ∧
  network a ++ arrived [x] = omap event_of (taken [x]) ++ network a'.
Proof.
  destruct 1 as [o a|e a|o q es st st' Hst|e q es st st' Hst]; cbn; try rewrite Hst;
    by rewrite ?app_nil_r.
Qed.

Lemma actor_run_spec (a a' : actor) (xs : list action) :
  actor_run a xs a' →
  run_loop (taken xs) (service a) = Ret (service a') ∧
  rc a ++ sent xs = omap order_of (taken xs) ++ rc a' ∧
  network a ++ arrived xs = omap event_of (taken xs) ++ network a'.
Proof.
  induction 1 as [a|a x a' xs a'' Hstep _ (Hrun & Hs2 & Hn2)].
  { by rewrite !app_nil_r. }
  apply actor_step_spec in Hstep as (Hrun1 & Hs1 & Hn1).
  change (x :: xs) with ([x] ++ xs). unfold taken, sent, arrived in *.
  rewrite !omap_app. split_and!.
  - by rewrite run_loop_app, Hrun1, outcome_ret_bind.
  - by rewrite app_assoc, Hs1, <- !app_assoc, Hs2.
  - by rewrite app_assoc, Hn1, <- !app_assoc, Hn2.
Qed.

(** For every interleaving of sends, arrivals and iterations of the
    [select!], the state of the service is that of [run_loop] on the inputs
    taken; the orders taken, followed by those still in the channel, are
    exactly those that were sent, in the order of sending, none lost or
    repeated; and the same holds of the network events. *)
Theorem actor_run_fifo (a a' : actor) (xs : list action) :
  actor_run a xs a' →
  run_loop (taken xs) (service a) = Ret (service a') ∧
  rc a ++ sent xs = omap order_of (taken xs) ++ rc a' ∧
  network a ++ arrived xs = omap event_of (taken xs) ++ network a'.
Proof. apply actor_run_spec. Qed.

(** ** Safety of the loop for a handler with an invariant *)

Context (Inv : Handler → Prop).
Hypothesis handler_safe : ∀ m h, Inv h → ∃ h', handler_handle m h = Ret h' ∧ Inv h'.

Lemma handle_messages_safe ms h :
  Inv h → ∃ h', handle_messages ms h = Ret h' ∧ Inv h'.
Proof.
  revert h. induction ms as [|m ms IH]; intros h Hh; [by exists h|].
  destruct (handler_safe m h Hh) as (h1 & Hrun & Hh1). cbn [handle_messages].
  rewrite Hrun. by apply IH.
Qed.

Lemma run_loop_safe inputs sw h :
  Inv h → ∃ sw' h', run_loop inputs (sw, h) = Ret (sw', h') ∧ Inv h' ∧
    handle_messages (omap message_of inputs) h = Ret h'.
Proof.
  intros Hh. destruct (handle_messages_safe (omap message_of inputs) h Hh) as (h' & Hms & Hh').
  destruct (run_loop_messages inputs sw h) as [sw' ->].
  exists sw', h'. by rewrite Hms.
Qed.

(** From a safe state the service takes whatever is at the head of its
    channel or of its network. *)
Lemma handle_input_safe i sw h :
  Inv h → ∃ sw' h', handle_input i (sw, h) = Ret (sw', h') ∧ Inv h'.
Proof.
  intros Hh. destruct (run_loop_safe [i] sw h Hh) as (sw' & h' & Hrun & Hh' & _).
  exists sw', h'. split; [|done]. cbn [run_loop] in Hrun.
  destruct (handle_input i (sw, h)) as [st| |]; [exact Hrun|done..].
Qed.

Lemma actor_run_safe a xs a' :
  actor_run a xs a' → Inv (service a).2 → Inv (service a').2.
Proof.
  induction 1 as [|a x a' xs a'' Hstep _ IH]; intros Ha; [done|]. apply IH.
  apply actor_step_spec in Hstep as (Hrun & _). destruct (service a) as [sw h].
  destruct (run_loop_safe (taken [x]) sw h Ha) as (sw' & h' & Hrun' & Hh' & _).
  rewrite Hrun' in Hrun. by injection Hrun as <-.
Qed.

End Service.

(** ** Creating the swarm *)

(** The parts of libp2p that the swarm is made of; a peer id is made from a public
    key, and setting up TLS, gossipsub or mDNS can fail. *)
Class SwarmParts (Keypair PublicKey PeerId : Type) := {
  key_public : Keypair → PublicKey;
  peer_id_from : PublicKey → PeerId;
  tls_config_new : Keypair → result string unit;
  gossipsub_new : Keypair → result string unit;
  mdns_new : result string unit
}.

(** [GossipNetworkBehavior]: the key that gossipsub signs messages with, what
    identify tells, and the peer of the Kademlia table; mDNS has no settings. *)
Record GossipNetworkBehavior (Keypair PublicKey PeerId : Type) := mkBehavior {
  gossipsub_author : Keypair;
  identify_protocol : string;
  identify_key : PublicKey;
  kademlia_peer : PeerId
}.

Arguments mkBehavior {Keypair PublicKey PeerId} _ _ _ _.
Arguments gossipsub_author {Keypair PublicKey PeerId} _.
Arguments identify_protocol {Keypair PublicKey PeerId} _.
Arguments identify_key {Keypair PublicKey PeerId} _.
Arguments kademlia_peer {Keypair PublicKey PeerId} _.

(** The swarm: the key of its transport, its behaviour and its peer id. *)
Record new_swarm (Keypair PublicKey PeerId : Type) := mkSwarm {
  transport_key : Keypair;
  behaviour : GossipNetworkBehavior Keypair PublicKey PeerId;
  local_peer_id : PeerId
}.

Arguments mkSwarm {Keypair PublicKey PeerId} _ _ _.
Arguments transport_key {Keypair PublicKey PeerId} _.
Arguments behaviour {Keypair PublicKey PeerId} _.
Arguments local_peer_id {Keypair PublicKey PeerId} _.

Section Create.
Context {Keypair PublicKey PeerId : Type} `{SwarmParts Keypair PublicKey PeerId}.

(** [tls::Config::new(&key).expect(..)]: the key of the transport. *)
Definition get_transport (key : Keypair) : outcome Keypair :=
  unwrap_result (tls_config_new key) ≫= λ _, Ret key.

Definition get_behaviour (key : Keypair) : outcome (GossipNetworkBehavior Keypair PublicKey PeerId) :=
  let peer_id := peer_id_from (key_public key) in
  unwrap_result (gossipsub_new key) ≫= λ _,
  unwrap_result mdns_new ≫= λ _,
  Ret (mkBehavior key "vstreams/1.0.0" (key_public key) peer_id).

(** [create_swarm]; the key is the one that [create_keys] generates. *)
Definition create_swarm (key : Keypair) : outcome (new_swarm Keypair PublicKey PeerId) :=
  transport ← get_transport key;
  behaviour ← get_behaviour key;
  let peer_id := peer_id_from (key_public key) in
  Ret (mkSwarm transport behaviour peer_id).

(** A swarm has one identity: its connections, its messages, what it tells of
    itself and its peer id all go back to the generated key.  It is created
    exactly when TLS, gossipsub and mDNS can be set up, and otherwise the
    service panics. *)
Theorem create_swarm_one_identity (key : Keypair) :
  (∀ sw, create_swarm key = Ret sw →
     transport_key sw = key ∧ gossipsub_author (behaviour sw) = key ∧
     identify_key (behaviour sw) = key_public key ∧
     local_peer_id sw = peer_id_from (key_public key) ∧ kademlia_peer (behaviour sw) = local_peer_id sw) ∧
  (create_swarm key = Panic ↔ ¬ (tls_config_new key = Ok tt ∧ gossipsub_new key = Ok tt ∧ mdns_new = Ok tt)).
Proof.
  unfold create_swarm, get_transport, get_behaviour.
  destruct (tls_config_new key) as [[]|], (gossipsub_new key) as [[]|], mdns_new as [[]|]; cbn;
    (split; [try discriminate; by intros sw [= <-]|]); (split; [discriminate || naive_solver|naive_solver]).
Qed.

End Create.

(** ** A concrete swarm that fails every call, and a handler that keeps its
       messages *)

Definition failing_swarm : SwarmOps nat nat nat := {|
  gossipsub_subscribe _ sw := (Err "failed", sw);
  gossipsub_publish _ _ sw := (Err "failed", sw);
  swarm_dial _ sw := (Err "failed", sw);
  swarm_listen_on _ sw := (Err "failed", sw);
  kademlia_add_address _ _ sw := S sw
|}.

Definition keeping_handler : GossipHandler (list (list byte)) := {|
  handler_topics := [];
  handler_handle m ms := Ret (ms ++ [m])
|}.

Lemma actor_run_fifo_witness :
  run_loop (H := failing_swarm) (H0 := keeping_handler)
    [EventInput (Message [x02]); OrderInput (SendMessage "t" [x01])] (0, []) = Ret (0, [[x02]; [x01]]).
Proof.
  destruct (actor_run_fifo (H := failing_swarm) (H0 := keeping_handler)
    (mkActor [] [] (0, [])) (mkActor [] [] (0, [[x02]; [x01]]))
    [Sent (SendMessage "t" [x01]); Arrived (Message [x02]); Took (EventInput (Message [x02]));
     Took (OrderInput (SendMessage "t" [x01]))]) as (H1 & _ & _).
  - eapply RunStep; [apply StepSend|]. eapply RunStep; [apply StepArrive|].
    eapply RunStep; [apply StepEvent; reflexivity|].
    eapply RunStep; [apply StepOrder; reflexivity|]. apply RunNil.
  - exact H1.
Defined.
