(* ===== verification/Witness.v ===== *)
(** * Witnessing events

    [consensus/src/events/witness.rs]: a trusted client's event is signed with
    the node's authority key and published; the node's own gossip handler
    then stores it like any other. *)

From stdpp Require Import base decidable list gmap strings.
From Stdlib Require Import Strings.Byte ZArith Lia.
From S2P Require Import Prelude Errors Proofs InMemory State Authorities Concrete EventGossip Gossip.

(** [sp_keystore::CryptoStore] at the key type [AURA]. *)
Class CryptoStore (Keystore : Type) := {
  keystore_error : Type;
  keystore_error_display :: Display keystore_error;
  supported_keys : Keystore → list CryptoTypePublicPair →
    result keystore_error (list CryptoTypePublicPair);
  sign_with : Keystore → CryptoTypePublicPair → list byte → result keystore_error (option (list byte))
}.

(** Documented behaviour: the supported keys are among those asked for, and
    signing gives a signature by the key that was asked for. *)
Class CryptoStoreLaws (Keystore : Type) `{CryptoStore Keystore} `{Sr25519} : Prop := {
  supported_keys_subset ks keys keys' :
    supported_keys ks keys = Ok keys' → keys' ⊆ keys;
  sign_with_valid ks k (e : H256) s :
    sign_with ks k (as_bytes e) = Ok (Some s) → valid_signature e k s
}.

Section Witnesser.
Context `{Bincode} `{ChainTypes} `{Sr25519}.
Context {Cache : Type} `{LruCache Hash AuthoritiesList Cache}.
Context {Store Pool Multiaddr : Type}.
Context {Keystore : Type} `{CryptoStore Keystore}.
Abbreviation node := (node_state Store Cache Pool (GossipOrder Multiaddr)).

Definition witness_event (client : Client) (keystore : Keystore) (event_id : H256) :
    M node Error unit :=
  block_state ← on_block_state (get_latest_authorities_list client);
  supported ← lift (map_err from_keystore (supported_keys keystore (authorities block_state)));
  pub_key ← lift (ok_or (head supported) NotAValidator);
  signed ← lift (map_err from_keystore (sign_with keystore pub_key (as_bytes event_id)));
  signature ← lift (ok_or signed (SigningFailure "Failed getting a signature"));
  let witnessed_event := mkWitnessed signature pub_key event_id in
  serilized_event ← lift (map_err from_bincode (ser_event witnessed_event));
  on_orders (λ tx, Ret (Ok tt, publish WITNESSED_EVENTS_TOPIC serilized_event tx)) ≫= λ _,
  mret tt.

(** What the call computes before it publishes: the event to publish, or the
    error it returns. *)
Definition signed_event (client : Client) (keystore : Keystore) (event_id : H256) :
    result Error (WitnessedEvent * list byte) :=
  auths ← authorities_at client (finalized_hash client);
  supported ← map_err from_keystore (supported_keys keystore (authorities auths));
  pub_key ← ok_or (head supported) NotAValidator;
  signed ← map_err from_keystore (sign_with keystore pub_key (as_bytes event_id));
  signature ← ok_or signed (SigningFailure "Failed getting a signature");
  let witnessed_event := mkWitnessed signature pub_key event_id in
  serilized_event ← map_err from_bincode (ser_event witnessed_event);
  Ok (witnessed_event, serilized_event).

End Witnesser.

Section WitnesserFacts.
Context `{BincodeLaws} `{ChainTypes} `{Sr25519}.
Context {Cache : Type} `{LruCacheLaws Hash AuthoritiesList Cache}.
Context {Store Pool Multiaddr : Type}.
Context {Keystore : Type} `{!CryptoStore Keystore} `{!CryptoStoreLaws Keystore}.
Abbreviation node := (node_state Store Cache Pool (GossipOrder Multiaddr)).

Lemma witness_event_spec client keystore e (n : node) :
  cache_coherent client (block_state n) →
  ∃ c', cache_coherent client c' ∧
    witness_event client keystore e n =
    match signed_event client keystore e with
    | Ok (_, bytes) =>
        Ret (Ok tt, set_orders (publish WITNESSED_EVENTS_TOPIC bytes (orders n)) (set_block_state c' n))
    | Err err => Ret (Err err, set_block_state c' n)
    end.
Proof.
  intros Hc. destruct (get_authorities_list_spec client (finalized_hash client) _ Hc)
    as (c' & Hget & Hc').
  exists c'. split; [done|]. apply (zoom_eq block_state set_block_state) in Hget.
  set (n1 := set_block_state c' n) in *.
  unfold witness_event, signed_event, on_block_state, get_latest_authorities_list.
  destruct (authorities_at client (finalized_hash client)) as [auths|err];
    [rewrite (M_bind_ok _ _ _ _ _ Hget)|by rewrite (M_bind_err _ _ _ _ _ Hget)].
  rewrite M_lift_bind, result_ok_bind.
  destruct (supported_keys keystore (authorities auths)) as [ks|err]; [|done].
  cbn [map_err]. rewrite M_lift_bind, result_ok_bind. destruct ks as [|k ks]; [done|].
  cbn [head ok_or]. rewrite M_lift_bind, result_ok_bind.
  destruct (sign_with keystore k (as_bytes e)) as [[s|]|err]; [|done..].
  cbn [map_err]. rewrite M_lift_bind, result_ok_bind. cbn [ok_or].
  rewrite M_lift_bind, result_ok_bind.
  by destruct (ser_event (mkWitnessed s k e)) as [b|err].
Qed.

(** A signed event is one that the handlers of the network accept. *)
Lemma signed_event_acceptable client client' auths keystore e ev bytes :
  signed_event client keystore e = Ok (ev, bytes) →
  authorities_at client (finalized_hash client) = Ok auths →
  authorities_at client' (finalized_hash client') = Ok auths →
  event_id ev = e ∧ acceptable client' bytes auths ev.
Proof.
  unfold signed_event. intros Hs Ha Ha'. rewrite Ha in Hs. cbn in Hs.
  destruct (supported_keys keystore (authorities auths)) as [ks|] eqn:Ek; cbn in Hs; [|done].
  destruct ks as [|k ks]; cbn in Hs; [done|].
  destruct (sign_with keystore k (as_bytes e)) as [[s|]|] eqn:Es; cbn in Hs; [|done..].
  destruct (ser_event (mkWitnessed s k e)) as [b|] eqn:Eb; cbn in Hs; [|done].
  injection Hs as <- <-. split; [done|]. split_and!; cbn.
  - by apply de_ser_event.
  - done.
  - apply (supported_keys_subset _ _ _ Ek). by left.
  - by eapply sign_with_valid.
Qed.

(** The errors of the call, each with its cause. *)
Lemma signed_event_errors client keystore e auths :
  authorities_at client (finalized_hash client) = Ok auths →
  (supported_keys keystore (authorities auths) = Ok [] →
   signed_event client keystore e = Err NotAValidator) ∧
  (∀ k ks, supported_keys keystore (authorities auths) = Ok (k :: ks) →
     sign_with keystore k (as_bytes e) = Ok None →
     signed_event client keystore e = Err (SigningFailure "Failed getting a signature")).
Proof.
  intros Ha. unfold signed_event. rewrite Ha. cbn. split.
  - by intros ->.
  - intros k ks -> E. cbn. by rewrite E.
Qed.

(** C30: [witness_event] always returns.  Without an authority key, or when
    signing or the runtime fails, it returns the error and sends nothing;
    otherwise it sends exactly one order, to publish the signed event under
    the topic of the handler.  It changes neither the proofs nor the pool, and
    keeps the cache coherent. *)
Theorem witness_event_correct client keystore e (n : node) :
  cache_coherent client (block_state n) →
  ∃ r n', witness_event client keystore e n = Ret (r, n') ∧
    cache_coherent client (block_state n') ∧
    event_proofs n' = event_proofs n ∧ tx_pool n' = tx_pool n ∧
    match signed_event client keystore e with
    | Ok (ev, bytes) =>
        r = Ok tt ∧ event_id ev = e ∧ de_event bytes = Ok ev ∧
        orders n' = (channel_send (SendMessage WITNESSED_EVENTS_TOPIC bytes) (orders n)).2
    | Err err => r = Err err ∧ orders n' = orders n
    end.
Proof.
  intros Hc. destruct (witness_event_spec client keystore e n Hc) as (c' & Hc' & Hrun).
  destruct (signed_event client keystore e) as [[ev bytes]|err] eqn:Es.
  - eexists _, _. split; [exact Hrun|]. split_and!; try done.
    all: unfold signed_event in Es; destruct (authorities_at _ _) as [auths|] eqn:Ha; [|done].
    all: destruct (signed_event_acceptable client client auths keystore e ev bytes) as [? (? & _)];
      [unfold signed_event; by rewrite Ha|done..].
  - eexists _, _. split; [exact Hrun|]. done.
Qed.

End WitnesserFacts.

(** ** From one node's witness to another node's store *)

Section EndToEnd.
Context `{BincodeLaws} `{ChainTypes} `{Sr25519}.
Context {Cache : Type} `{LruCacheLaws Hash AuthoritiesList Cache}.
Context {Store : Type} `{EventProofsSpec Store}.
Context {Pool : Type} `{!TxPool Pool}.
Context {Multiaddr : Type}.
Context {Keystore : Type} `{!CryptoStore Keystore} `{!CryptoStoreLaws Keystore}.
Abbreviation node := (node_state Store Cache Pool (GossipOrder Multiaddr)).

(** An event that a node witnesses is recorded wherever its message
    arrives: the published bytes make the handler of any node with the same
    finalized authorities, the witnessing node included, store a signature of
    that event by one of the authorities, and submit the event if that
    completes a quorum. *)
Theorem witness_then_handle off_chain_proofs client client' keystore auths e bytes
    (n1 n1' n2 : node) :
  cache_coherent client (block_state n1) → node_ok client' n2 → client_ok client' →
  authorities_at client (finalized_hash client) = Ok auths →
  authorities_at client' (finalized_hash client') = Ok auths →
  witness_event client keystore e n1 = Ret (Ok tt, n1') →
  queued (orders n1') = queued (orders n1) ++ [SendMessage WITNESSED_EVENTS_TOPIC bytes] →
  ∃ ev r n2', event_id ev = e ∧ pub_key ev ∈ authorities auths ∧
    handle off_chain_proofs client' bytes n2 = Ret n2' ∧
    is_Some (ep_view (event_proofs n2') e (pub_key ev)) ∧
    accepted off_chain_proofs client' auths ev n2 r n2'.
Proof.
  intros Hc Hn2 Hwf Ha Ha' Hrun Hsent.
  destruct (witness_event_spec client keystore e n1 Hc) as (c' & Hc' & Hspec).
  rewrite Hrun in Hspec. destruct (signed_event client keystore e) as [[ev b]|err] eqn:Es; [|done].
  injection Hspec as ->.
  assert (b = bytes) as ->.
  { unfold publish, send_order, channel_send in Hsent. cbn in Hsent.
    destruct (receiver_alive (orders n1)); cbn in Hsent.
    - by apply app_inj_tail in Hsent as [_ [= ->]].
    - apply (f_equal length) in Hsent. rewrite length_app in Hsent. cbn in Hsent. lia. }
  destruct (signed_event_acceptable client client' auths keystore e ev bytes) as [He Hacc];
    [done..|].
  destruct (handle_acceptable off_chain_proofs client' bytes auths ev n2) as (r & n2' & Hh & _ & Hd);
    [done..|].
  exists ev, r, n2'. destruct Hacc as (_ & _ & Hin & _).
  split_and!; [done..| |done]. destruct Hd as ((Hat & _) & _). rewrite <- He. apply Hat.
  by split; [|right].
Qed.

End EndToEnd.

(** ** Witnesses: a keystore that holds a list of keys *)

#[local] Instance no_error_display : Display unit := λ _, "keystore error".

#[export] Instance list_keystore : CryptoStore (list CryptoTypePublicPair) := {|
  keystore_error := unit;
  supported_keys ks keys := Ok (filter (λ k, k ∈ ks) keys);
  sign_with ks k msg :=
    Ok (if bool_decide (k ∈ ks ∧ length (pair_public k) = 32)
        then Some (pair_public k ++ msg) else None)
|}.

#[export] Instance list_keystore_laws : CryptoStoreLaws (list CryptoTypePublicPair).
Proof.
  split.
  - intros ks keys keys' [= <-] k. by intros [_ ?]%list_elem_of_filter.
  - intros ks k e s. cbn. case_bool_decide as Hk; [|done]. intros [= <-].
    exists (pair_public k), (pair_public k ++ as_bytes e). destruct Hk as [_ Hk]. cbn.
    rewrite length_app, as_bytes_length, Hk. split_and!; [done..|].
    by apply bool_decide_eq_true_2.
Qed.

Definition toy_witness_node :
    node_state InMemoryEventProofs toy_cache (list H256) (GossipOrder nat) :=
  mkNode (mkMutex false (mkLru 4 [])) in_memory_new [] (mkChannel true []).

Lemma toy_witness_node_ok : node_ok toy_client toy_witness_node.
Proof. split; [exact toy_cache_coherent|reflexivity|done]. Qed.

Import Codec.

(** The second authority witnesses an event, and its own handler stores it. *)
Definition toy_published : option (list (GossipOrder nat)) :=
  match witness_event toy_client [toy_pair x02] toy_event toy_witness_node with
  | Ret (Ok _, n) => Some (queued (orders n))
  | _ => None
  end.

Lemma toy_published_eq :
  toy_published = Some [SendMessage WITNESSED_EVENTS_TOPIC (toy_message x02)].
Proof. apply (bool_decide_eq_true_1 (_ = _)). vm_compute. reflexivity. Qed.

(** A node without an authority's key gets the error; the second authority
    publishes its signature and changes no proof. *)
Lemma witness_event_correct_witness :
  (∃ n', witness_event toy_client [toy_pair x09] toy_event toy_witness_node =
     Ret (Err NotAValidator, n') ∧ orders n' = mkChannel true []) ∧
  ∃ n', witness_event toy_client [toy_pair x02] toy_event toy_witness_node = Ret (Ok tt, n') ∧
    queued (orders n') = [SendMessage WITNESSED_EVENTS_TOPIC (toy_message x02)] ∧
    event_proofs n' = event_proofs toy_witness_node.
Proof.
  split.
  - destruct (witness_event_correct toy_client [toy_pair x09] toy_event toy_witness_node
      toy_cache_coherent) as (r & n' & Hrun & _ & _ & _ & Hm).
    destruct Hm as [Hr Ho]. exists n'. split; [rewrite Hrun, Hr; reflexivity|exact Ho].
  - destruct (witness_event_correct toy_client [toy_pair x02] toy_event toy_witness_node
      toy_cache_coherent) as (r & n' & Hrun & _ & Hproofs & _).
    pose proof toy_published_eq as E. unfold toy_published in E. rewrite Hrun in E.
    destruct r as [[]|]; [|discriminate E]. injection E as E.
    exists n'. split; [exact Hrun|]. split; [exact E|exact Hproofs].
Defined.

Lemma witness_then_handle_witness :
  ∃ ev r n2', event_id ev = toy_event ∧
    handle true toy_client (toy_message x02) toy_witness_node = Ret n2' ∧
    accepted true toy_client toy_auths ev toy_witness_node r n2'.
Proof.
  pose proof toy_published_eq as E. unfold toy_published in E.
  destruct (witness_event toy_client [toy_pair x02] toy_event toy_witness_node)
    as [[[[]|] n1']| |] eqn:Hrun; [|discriminate E..]. injection E as E.
  destruct (witness_then_handle true toy_client toy_client [toy_pair x02] toy_auths toy_event
    (toy_message x02) toy_witness_node n1' toy_witness_node)
    as (ev & r & n2' & H1 & _ & H2 & _ & H3).
  - exact toy_cache_coherent.
  - exact toy_witness_node_ok.
  - exact toy_client_wf.
  - reflexivity.
  - reflexivity.
  - exact Hrun.
  - exact E.
  - exists ev, r, n2'. split; [exact H1|]. split; [exact H2|exact H3].
Defined.
