(* ===== verification/BlockImport.v ===== *)
(** * The block import

    [consensus/src/block_import.rs] (feature [off-chain-proofs]): a wrapper
    around another block import that lets a block through only when every
    event in it has enough witnesses in the node's own store, unless the node
    is catching up. *)

From stdpp Require Import base decidable list gmap strings.
From Stdlib Require Import Strings.Byte ZArith Lia.
From S2P Require Import Prelude Errors Proofs InMemory State Authorities Concrete EventGossip.

(** ** Data *)

(** [sp_consensus::Error], as far as the wrapper makes it. *)
Inductive ConsensusError : Type :=
| ClientImport (reason : string)
| OtherConsensusError (text : string).

(** The parts of [BlockImportParams] that the wrapper reads. *)
Record BlockImportParams `{ChainTypes} := mkBlock {
  parent_hash : Hash;
  body : option (list Extrinsic)
}.

Arguments mkBlock {_} _ _.

(** [Shared<oneshot::Receiver<Arc<SyncingService>>>]: nothing was sent yet, the
    sender is gone, or the service is there and answers
    [is_major_syncing]. *)
Inductive SyncService : Type :=
| SyncPending
| SyncDropped
| SyncReady (is_major_syncing : bool).

(** The inner [BlockImport]. *)
Class BlockImportOps (I ImportResult CheckParams : Type) `{ChainTypes} := {
  inner_check_block : CheckParams → I → outcome (result ConsensusError ImportResult * I);
  inner_import_block : BlockImportParams → I → outcome (result ConsensusError ImportResult * I)
}.

Record ValidatedStreamsBlockImport (I : Type) := mkBlockImport {
  parent_block_import : I;
  sync_service : SyncService
}.

Arguments mkBlockImport {I} _ _.
Arguments parent_block_import {I} _.
Arguments sync_service {I} _.

(** [ValidatedStreamsBlockImport::new], and the closure it returns: the channel
    is used up by the first call. *)
Definition block_import_new {I} (parent : I) : ValidatedStreamsBlockImport I :=
  mkBlockImport parent SyncPending.

Definition send_sync_service {I} (is_major_syncing : bool) (self : ValidatedStreamsBlockImport I) :
    ValidatedStreamsBlockImport I :=
  mkBlockImport (parent_block_import self) (SyncReady is_major_syncing).

Section ImportOps.
Context `{ChainTypes} `{Sr25519}.
Context {Cache : Type} `{LruCache Hash AuthoritiesList Cache}.
Context {Store Pool Order : Type} `{EventProofsTrait Store}.
Context {I ImportResult CheckParams : Type} `{!BlockImportOps I ImportResult CheckParams}.
Abbreviation node := (node_state Store Cache Pool Order).
Abbreviation importer := (ValidatedStreamsBlockImport I).

Definition forward (call : I → outcome (result ConsensusError ImportResult * I))
    (self : importer) (n : node) : outcome (result ConsensusError ImportResult * (importer * node)) :=
  '(r, i) ← call (parent_block_import self);
  Ret (r, (mkBlockImport i (sync_service self), n)).

Definition check_block (block : CheckParams) (self : importer) (n : node) :
    outcome (result ConsensusError ImportResult * (importer * node)) :=
  forward (inner_check_block block) self n.

Definition import_block (client : Client) (block : BlockImportParams) (self : importer) (n : node) :
    outcome (result ConsensusError ImportResult * (importer * node)) :=
  match sync_service self with
  | SyncPending => Diverge
  | SyncDropped => Panic
  | SyncReady true => forward (inner_import_block block) self n
  | SyncReady false =>
      match body block with
      | Some block_extrinsics =>
          let extrinsic_ids := unwrap_or []
            (api_get_extrinsic_ids client (parent_hash block) block_extrinsics) in
          '(r, n') ← verify_events_validity client (parent_hash block) extrinsic_ids n;
          match r with
          | Ok unwitnessed_ids =>
              if bool_decide (unwitnessed_ids ≠ []) then
                Ret (Err (ClientImport "Block contains unwitnessed events"), (self, n'))
              else forward (inner_import_block block) self n'
          | Err e => Ret (Err (ClientImport (to_string e)), (self, n'))
          end
      | None => forward (inner_import_block block) self n
      end
  end.

End ImportOps.

(** ** What the wrapper lets through *)

Section ImportFacts.
Context `{ChainTypes} `{Sr25519}.
Context {Cache : Type} `{LruCacheLaws Hash AuthoritiesList Cache}.
Context {Store Pool Order : Type} `{EventProofsSpec Store}.
Context {I ImportResult CheckParams : Type} `{!BlockImportOps I ImportResult CheckParams}.
Abbreviation node := (node_state Store Cache Pool Order).
Abbreviation importer := (ValidatedStreamsBlockImport I).

(** The events of a block, as the wrapper reads them. *)
Definition block_events (client : Client) (block : BlockImportParams) : list H256 :=
  match body block with
  | Some exts => unwrap_or [] (api_get_extrinsic_ids client (parent_hash block) exts)
  | None => []
  end.

(** The verdict on a block: nothing to object, or the reason of the rejection. *)
Definition verdict (client : Client) (n : node) (block : BlockImportParams) : result string unit :=
  match body block with
  | None => Ok tt
  | Some _ =>
      match authorities_at client (parent_hash block) with
      | Err e => Err (error_fmt e)
      | Ok auths =>
          if decide (Forall (has_quorum (ep_view (event_proofs n)) auths) (block_events client block))
          then Ok tt else Err "Block contains unwitnessed events"
      end
  end.

Lemma import_block_spec client block (self : importer) (n : node) :
  node_ok client n → client_ok client → sync_service self = SyncReady false →
  ∃ c', cache_coherent client c' ∧
    import_block client block self n =
    match verdict client n block with
    | Ok _ => forward (inner_import_block block) self (set_block_state c' n)
    | Err reason => Ret (Err (ClientImport reason), (self, set_block_state c' n))
    end.
Proof.
  intros [Hc Hs _] Hwf Hsync. unfold import_block, verdict, block_events. rewrite Hsync.
  destruct (body block) as [exts|]; [|exists (block_state n); split; [done|by destruct n]].
  set (ids := unwrap_or [] _). unfold verify_events_validity, on_block_state.
  destruct (get_authorities_list_spec client (parent_hash block) _ Hc) as (c' & Hget & Hc').
  exists c'. split; [done|]. apply (zoom_eq block_state set_block_state) in Hget.
  destruct (authorities_at client (parent_hash block)) as [auths|e] eqn:Ha.
  - rewrite (M_bind_ok _ _ _ _ _ Hget), (collect_unprepared_spec auths ids (set_block_state c' n))
      by (try done; by eapply Hwf).
    rewrite outcome_ret_bind. cbn [event_proofs set_block_state].
    rewrite (bool_decide_ext _ _ (not_iff_compat (filter_nil_Forall _ _))).
    case_decide as Hd; [by rewrite bool_decide_eq_false_2 by tauto|].
    by rewrite bool_decide_eq_true_2 by done.
  - by rewrite (M_bind_err _ _ _ _ _ Hget).
Qed.

(** C22: what the block import does with a block, whatever the state of the
    syncing service.  Until the service is sent the call waits; when the sender
    is gone it panics; while the node is catching up it hands every block over
    unchecked.  Otherwise it hands the block to the inner import exactly when
    the block has no body, or the authorities of its parent are known and every
    event that the runtime reads from it (none, when the runtime call fails)
    has a quorum of them in the node's own store; any other block gets a
    [ClientImport] error and the inner import never sees it.  The wrapper
    changes nothing but the cache of authorities, which stays coherent. *)
Theorem import_block_correct client block (self : importer) (n : node) :
  node_ok client n → client_ok client →
  ∃ c', cache_coherent client c' ∧
    import_block client block self n =
    match sync_service self with
    | SyncPending => Diverge
    | SyncDropped => Panic
    | SyncReady true => forward (inner_import_block block) self n
    | SyncReady false =>
        match verdict client n block with
        | Ok _ => forward (inner_import_block block) self (set_block_state c' n)
        | Err reason => Ret (Err (ClientImport reason), (self, set_block_state c' n))
        end
    end.
Proof.
  intros Hn Hwf. destruct (sync_service self) as [| |[|]] eqn:Hsync; [..|by apply import_block_spec].
  all: exists (block_state n); split; [apply Hn|]; unfold import_block; by rewrite Hsync.
Qed.

Lemma has_quorum_valid client (n : node) auths e :
  node_ok client n → wf_authorities auths → has_quorum (ep_view (event_proofs n)) auths e →
  ∃ ks, NoDup ks ∧ (target auths ≤ Z.of_nat (length ks))%Z ∧
    Forall (λ k, k ∈ authorities auths ∧
      ∃ s, ep_view (event_proofs n) e k = Some s ∧ valid_signature e k s) ks.
Proof.
  intros [_ _ Hv] [Hnd _] Hq. exists (signers (ep_view (event_proofs n)) e (authorities auths)).
  split_and!; [by apply signers_NoDup|exact Hq|].
  apply Forall_forall. intros k [Hin [s Hs]]%elem_of_signers. split; [done|]. exists s. split; [done|]. by apply Hv.
Qed.

Lemma import_block_not_rejected client block (self : importer) (n : node) r self' n' :
  node_ok client n → client_ok client → sync_service self = SyncReady false →
  import_block client block self n = Ret (r, (self', n')) →
  (∀ reason, r ≠ Err (ClientImport reason)) → verdict client n block = Ok tt.
Proof.
  intros Hn Hwf Hsync Hrun Hr.
  destruct (import_block_spec client block self n Hn Hwf Hsync) as (c' & _ & Hspec).
  rewrite Hrun in Hspec. destruct (verdict client n block) as [[]|reason]; [done|].
  injection Hspec as ->. by destruct (Hr reason).
Qed.

(** The signers of an event in an imported block. *)
Lemma imported_event_signers client block (self : importer) (n : node) r self' n' auths e :
  node_ok client n → client_ok client → sync_service self = SyncReady false →
  import_block client block self n = Ret (Ok r, (self', n')) →
  authorities_at client (parent_hash block) = Ok auths → e ∈ block_events client block →
  ∃ ks, NoDup ks ∧ (target auths ≤ Z.of_nat (length ks))%Z ∧
    Forall (λ k, k ∈ authorities auths ∧
      ∃ s, ep_view (event_proofs n) e k = Some s ∧ valid_signature e k s) ks.
Proof.
  intros Hn Hwf Hsync Hrun Ha He.
  pose proof (import_block_not_rejected client block self n (Ok r) self' n' Hn Hwf Hsync Hrun)
    as Hverdict. specialize (Hverdict ltac:(done)). unfold verdict in Hverdict.
  destruct (body block) as [exts|] eqn:Hb;
    [|unfold block_events in He; rewrite Hb in He; by apply elem_of_nil in He].
  rewrite Ha in Hverdict. case_decide as Hall; [|done]. rewrite Forall_forall in Hall.
  apply (has_quorum_valid client n auths e); [done|by eapply Hwf|by apply Hall].
Qed.

(** When a node that is not catching up imports a block, its store holds for
    every event in it valid signatures by at least [target] distinct authorities
    of the parent block; with at most a third of the authorities dishonest, at
    least one of these signers is honest. *)
Theorem imported_block_witnessed client block (self : importer) (n : node) r self' n' auths :
  node_ok client n → client_ok client → sync_service self = SyncReady false →
  import_block client block self n = Ret (Ok r, (self', n')) →
  authorities_at client (parent_hash block) = Ok auths →
  Forall (λ e,
    ∃ ks, NoDup ks ∧ (target auths ≤ Z.of_nat (length ks))%Z ∧
      Forall (λ k, k ∈ authorities auths ∧
        ∃ s, ep_view (event_proofs n) e k = Some s ∧ valid_signature e k s) ks ∧
      ∀ F : gset CryptoTypePublicPair, size F ≤ length (authorities auths) `div` 3 →
        ∃ k, k ∈ ks ∧ ¬ k ∈ F) (block_events client block).
Proof.
  intros Hn Hwf Hsync Hrun Ha. apply Forall_forall. intros e He.
  destruct (imported_event_signers client block self n r self' n' auths e)
    as (ks & Hnd & Hks & Hvalid); [done..|].
  exists ks. split_and!; [done..|]. intros F HF.
  destruct (size_lt_exists (list_to_set ks) F) as (k & Hk & HkF).
  { rewrite size_list_to_set_NoDup by done.
    rewrite target_exact in Hks by (apply wf_authorities_max; by eapply Hwf).
    apply Nat2Z.inj_lt. apply Nat2Z.inj_le in HF. rewrite Nat2Z.inj_div in HF. zdiv. }
  exists k. split; [by apply elem_of_list_to_set in Hk|done].
Qed.

(** While the node is catching up, and for a block whose events the runtime
    cannot extract, nothing is checked: the block goes to the inner import
    whatever the store holds. *)
Theorem import_block_unchecked client block (self : importer) (n : node) auths exts err :
  node_ok client n → client_ok client →
  sync_service self = SyncReady true ∨
  (sync_service self = SyncReady false ∧ body block = Some exts ∧
   api_get_extrinsic_ids client (parent_hash block) exts = Err err ∧
   authorities_at client (parent_hash block) = Ok auths) →
  ∃ n', event_proofs n' = event_proofs n ∧
    import_block client block self n = forward (inner_import_block block) self n'.
Proof.
  intros Hn Hwf [Hsync|(Hsync & Hb & Herr & Ha)].
  { exists n. split; [done|]. unfold import_block. by rewrite Hsync. }
  destruct (import_block_spec client block self n Hn Hwf Hsync) as (c' & _ & ->).
  exists (set_block_state c' n). split; [done|].
  unfold verdict, block_events. rewrite Hb, Herr, Ha. cbn [unwrap_or].
  by rewrite decide_True.
Qed.

End ImportFacts.

(** ** Witnesses: an inner import that accepts every block *)

Import Codec.

#[export] Instance accepting_import : BlockImportOps (list nat) bool nat := {|
  inner_check_block h i := Ret (Ok true, i);
  inner_import_block b i := Ret (Ok true, parent_hash b :: i)
|}.

Definition toy_block : BlockImportParams := mkBlock 5 (Some [(toy_event, None)]).
Definition toy_importer (major : bool) : ValidatedStreamsBlockImport (list nat) :=
  send_sync_service major (block_import_new []).

(** Without witnesses the block is rejected; while catching up it is imported. *)
Lemma import_block_correct_witness :
  (∃ n', import_block toy_client toy_block (toy_importer false) toy_node =
    Ret (Err (ClientImport "Block contains unwitnessed events"), (toy_importer false, n'))) ∧
  import_block toy_client toy_block (toy_importer true) toy_node =
    Ret (Ok true, (mkBlockImport [5] (SyncReady true), toy_node)).
Proof.
  split.
  - destruct (import_block_correct toy_client toy_block (toy_importer false) toy_node
      toy_node_ok toy_client_wf) as (c' & _ & Hrun).
    exists (set_block_state c' toy_node). rewrite Hrun. reflexivity.
  - destruct (import_block_correct toy_client toy_block (toy_importer true) toy_node
      toy_node_ok toy_client_wf) as (c' & _ & Hrun).
    rewrite Hrun. reflexivity.
Defined.

Lemma toy_import_accepts :
  match (n ← toy_run [x01; x02; x03]; import_block toy_client toy_block (toy_importer false) n) with
  | Ret (Ok true, (i, _)) => bool_decide (parent_block_import i = [5])
  | _ => false
  end = true.
Proof. vm_compute. reflexivity. Qed.

(** With the signatures of three of four authorities it is imported. *)
Lemma imported_block_witnessed_witness :
  ∃ n i n', toy_run [x01; x02; x03] = Ret n ∧
    import_block toy_client toy_block (toy_importer false) n = Ret (Ok true, (i, n')) ∧
    Forall (λ e, ∃ ks, NoDup ks ∧ (target toy_auths ≤ Z.of_nat (length ks))%Z ∧
      Forall (λ k, k ∈ authorities toy_auths ∧
        ∃ s, ep_view (event_proofs n) e k = Some s ∧ valid_signature e k s) ks ∧
      ∀ F : gset CryptoTypePublicPair, size F ≤ length (authorities toy_auths) `div` 3 →
        ∃ k, k ∈ ks ∧ ¬ k ∈ F) [toy_event].
Proof.
  destruct (toy_run_ok [x01; x02; x03]) as (n & Hn & Hok).
  pose proof toy_import_accepts as E. rewrite Hn, outcome_ret_bind in E.
  destruct (import_block toy_client toy_block (toy_importer false) n)
    as [[[[]|] [i n']]| |] eqn:Hrun; [|discriminate E..].
  exists n, i, n'. split; [exact Hn|]. split; [exact Hrun|].
  apply (imported_block_witnessed toy_client toy_block (toy_importer false) n true i n' toy_auths).
  - exact Hok.
  - exact toy_client_wf.
  - reflexivity.
  - exact Hrun.
  - reflexivity.
Defined.

(** While catching up the block is imported without any witness. *)
Lemma import_block_unchecked_witness :
  ∃ n', event_proofs n' = event_proofs toy_node ∧
    import_block toy_client toy_block (toy_importer true) toy_node =
    Ret (Ok true, (mkBlockImport [5] (SyncReady true), n')).
Proof.
  destruct (import_block_unchecked toy_client toy_block (toy_importer true) toy_node
    toy_auths [] "error") as (n' & H1 & H2).
  - exact toy_node_ok.
  - exact toy_client_wf.
  - left. reflexivity.
  - exists n'. split; [exact H1|]. rewrite H2. reflexivity.
Defined.
