(* ===== verification/Pallet.v ===== *)
(** * The pallet

    [pallet/src/lib.rs]: the dispatchable [validate_event] records an event in
    the chain's storage, once.  The crate is compiled in one of two modes:
    with the feature [off-chain-proofs] the storage maps an event to the block
    that recorded it; without it the call carries the proofs, which the pallet
    verifies and stores.  [PalletMode] is the interface of the two. *)

From stdpp Require Import base decidable list gmap strings.
From Stdlib Require Import Strings.Byte ZArith Lia.
From S2P Require Import Prelude Errors Proofs State Authorities Concrete.

(** [frame_support::StorageMap] *)
Class StorageMap (K V St : Type) := {
  sm_get : K → St → option V;
  sm_contains_key : K → St → bool;
  sm_insert : K → V → St → St;
  sm_iter : St → list (K * V)
}.

Class StorageMapLaws (K V St : Type) `{StorageMap K V St} : Prop := {
  sm_contains_key_get k s : sm_contains_key k s = bool_decide (is_Some (sm_get k s));
  sm_get_insert_eq k v s : sm_get k (sm_insert k v s) = Some v;
  sm_get_insert_ne k k' v s : k' ≠ k → sm_get k' (sm_insert k v s) = sm_get k' s;
  sm_iter_get k v s : (k, v) ∈ sm_iter s ↔ sm_get k s = Some v;
  sm_iter_NoDup s : NoDup (sm_iter s).*1
}.

(** The parts of the runtime that the pallet calls: [frame_system], and
    [Config::authorities] as raw public keys. *)
Class FrameSystem (Sys : Type) := {
  system_block_number : Sys → Z;
  config_authorities : Sys → list (list byte);
  system_deposit_event : H256 → Sys → Sys
}.

(** [Error<T>] *)
Inductive PalletError : Type :=
| AlreadyValidated
| BadSignature
| InvalidProof
| NoProofs
| NotEnoughProofs
| UnrecognizedAuthority.

#[export] Instance pallet_error_eq_dec : EqDecision PalletError.
Proof. solve_decision. Defined.

(** What the pallet reads and writes. *)
Record pallet_state (St Sys : Type) := mkPallet {
  streams : St;
  system : Sys
}.

Arguments mkPallet {St Sys} _ _.
Arguments streams {St Sys} _.
Arguments system {St Sys} _.

(** [BoundedBTreeMap<Public, Signature, VSMaxAuthorities>]; its bound is checked
    where a map is converted to one, in the runtime. *)
Abbreviation ProofsMap := (gmap Public SrSignature).

Section Pallet.
Context `{Sr25519} {Sys : Type} `{FrameSystem Sys}.

(** ** Off-chain proofs *)

Section OffChain.
Context {St : Type} `{StorageMap H256 Z St}.

Definition off_validate_event_impl (event_id : H256) (_proofs : option ProofsMap) :
    M (pallet_state St Sys) PalletError unit := λ s,
  let current_block := system_block_number (system s) in
  if sm_contains_key event_id (streams s) then Ret (Err AlreadyValidated, s)
  else Ret (Ok tt, mkPallet (sm_insert event_id current_block (streams s))
                            (system_deposit_event event_id (system s))).

Definition off_get_all_events (s : pallet_state St Sys) : list H256 :=
  (sm_iter (streams s)).*1.

Definition off_get_block_events (block_number : Z) (s : pallet_state St Sys) : list H256 :=
  (filter (λ kv, kv.2 = block_number) (sm_iter (streams s))).*1.

Definition off_is_event_valid (event_id : H256) (s : pallet_state St Sys) : bool :=
  sm_contains_key event_id (streams s).

End OffChain.

(** ** On-chain proofs *)

Section OnChain.
Context {St : Type} `{StorageMap H256 ProofsMap St}.

(** [Public::from_h256(H256::from_slice(id.to_raw_vec().as_slice()))] *)
Definition authority_public (raw : list byte) : outcome Public :=
  h ← from_slice raw; Ret (public_from_h256 h).

(** [proof_count += 1] on a [u16] *)
Definition incr_u16 (overflow_checks : bool) (x : Z) : outcome Z :=
  if (x =? u16_max)%Z then if overflow_checks then Panic else Ret 0%Z else Ret (x + 1)%Z.

(** The loop that verifies and counts the proofs. *)
Fixpoint count_proofs (overflow_checks : bool) (event_id : H256)
    (proofs : list (Public * SrSignature)) (proof_count : Z) : outcome (result PalletError Z) :=
  match proofs with
  | [] => Ret (Ok proof_count)
  | (key, signature) :: rest =>
      if public_verify key (as_bytes event_id) signature then
        proof_count' ← incr_u16 overflow_checks proof_count;
        count_proofs overflow_checks event_id rest proof_count'
      else Ret (Err InvalidProof)
  end.

Definition on_validate_event_impl (overflow_checks : bool) (event_id : H256)
    (event_proofs : option ProofsMap) : M (pallet_state St Sys) PalletError unit := λ s,
  authorities ← outcome_map authority_public (config_authorities (system s));
  match event_proofs with
  | Some proofs =>
      if sm_contains_key event_id (streams s) then Ret (Err AlreadyValidated, s)
      else if forallb (λ key, bool_decide (key ∈ authorities)) (map_to_list proofs).*1 then
        let total := Z.of_nat (length authorities) in
        let target := as_u16 (total * 2 / 3 + 1) in
        counted ← count_proofs overflow_checks event_id (map_to_list proofs) 0;
        match counted with
        | Err e => Ret (Err e, s)
        | Ok proof_count =>
            if (proof_count <? target)%Z then Ret (Err NotEnoughProofs, s)
            else Ret (Ok tt, mkPallet (sm_insert event_id proofs (streams s))
                                      (system_deposit_event event_id (system s)))
        end
      else Ret (Err UnrecognizedAuthority, s)
  | None => Ret (Err NoProofs, s)
  end.

Definition on_get_all_events (s : pallet_state St Sys) : list H256 :=
  (sm_iter (streams s)).*1.

Definition on_is_event_valid (event_id : H256) (s : pallet_state St Sys) : bool :=
  sm_contains_key event_id (streams s).

End OnChain.
End Pallet.

(** ** The interface of the two modes *)

Class PalletMode (V St Sys : Type) `{Sr25519} := {
  validate_event_impl : H256 → option ProofsMap → M (pallet_state St Sys) PalletError unit;
  get_all_events : pallet_state St Sys → list H256;
  is_event_valid : H256 → pallet_state St Sys → bool
}.

#[export] Instance off_chain_mode {St Sys} `{Sr25519} `{FrameSystem Sys} `{StorageMap H256 Z St} :
  PalletMode Z St Sys := {|
  validate_event_impl := off_validate_event_impl;
  get_all_events := off_get_all_events;
  is_event_valid := off_is_event_valid
|}.

Definition on_chain_mode (overflow_checks : bool) {St Sys} `{Sr25519} `{FrameSystem Sys}
    `{StorageMap H256 ProofsMap St} : PalletMode ProofsMap St Sys := {|
  validate_event_impl := on_validate_event_impl overflow_checks;
  get_all_events := on_get_all_events;
  is_event_valid := on_is_event_valid
|}.

(** ** Unsigned transactions *)

Inductive TransactionSource : Type :=
| InBlock
| Local
| External.

#[export] Instance transaction_source_eq_dec : EqDecision TransactionSource.
Proof. solve_decision. Defined.

(** [Call<T>]: the dispatchable, and the variant the macro adds. *)
Inductive Call `{Sr25519} : Type :=
| ValidateEvent (event_id : H256) (proofs : option ProofsMap)
| IgnoreCall.

(** What the builder of [ValidTransaction] is given: the tag prefix, the items
    the transaction provides, and whether it is propagated. *)
Inductive Tag : Type :=
| CallTag (encoded : list byte)
| EventTag (event_id : H256).

Record ValidTransaction := mkValidTransaction {
  tag_prefix : string;
  provides : list Tag;
  propagate : bool
}.

Section Unsigned.
Context `{Sr25519} {V St Sys : Type} `{!PalletMode V St Sys}.
Context (encode_call : Call → list byte).

(** [Pallet::validate_event]; the origin is not looked at. *)
Definition validate_event (event_id : H256) (proofs : option ProofsMap) :
    M (pallet_state St Sys) PalletError unit :=
  validate_event_impl event_id proofs.

Definition validate_unsigned (source : TransactionSource) (call : Call) (s : pallet_state St Sys) :
    result InvalidTransaction ValidTransaction :=
  if bool_decide (source ≠ Local) && bool_decide (source ≠ InBlock) then Err InvalidCall
  else match call with
       | ValidateEvent call_data _ =>
           if is_event_valid call_data s then Err Stale
           else Ok (mkValidTransaction "validated_streams"
                      [CallTag (encode_call call); EventTag call_data] false)
       | IgnoreCall => Err InvalidCall
       end.

End Unsigned.

(** ** Histories of the pallet

    Calls, in any order, between arbitrary changes of the rest of the runtime
    (new blocks, new authorities).  A run collects the events validated. *)
Inductive pallet_op (Sys : Type) `{Sr25519} : Type :=
| CallOp (event_id : H256) (proofs : option ProofsMap)
| SystemOp (sys : Sys).

Arguments CallOp {Sys _} event_id proofs.
Arguments SystemOp {Sys _} sys.

Section History.
Context `{Sr25519} {V St Sys : Type} `{!PalletMode V St Sys}.

Fixpoint run_pallet (ops : list (pallet_op Sys)) (s : pallet_state St Sys) :
    outcome (list H256 * pallet_state St Sys) :=
  match ops with
  | [] => Ret ([], s)
  | CallOp e p :: rest =>
      '(r, s') ← validate_event e p s;
      '(trace, s'') ← run_pallet rest s';
      Ret (match r with Ok _ => e :: trace | Err _ => trace end, s'')
  | SystemOp sys :: rest => run_pallet rest (mkPallet (streams s) sys)
  end.

End History.

(** ** What a mode promises

    [admits] is the decision on a call as a function of the state; the call
    records the event with the value admitted, or changes nothing. *)
Class PalletSpec (V St Sys : Type) `{Sr25519} `{!FrameSystem Sys} `{!StorageMap H256 V St}
    `{!PalletMode V St Sys} := {
  sys_wf : Sys → Prop;
  proofs_wf : option ProofsMap → Prop;
  admits : pallet_state St Sys → H256 → option ProofsMap → result PalletError V;
  validate_event_spec s e p :
    sys_wf (system s) → proofs_wf p →
    validate_event_impl e p s =
    match admits s e p with
    | Ok v => Ret (Ok tt, mkPallet (sm_insert e v (streams s)) (system_deposit_event e (system s)))
    | Err err => Ret (Err err, s)
    end;
  admits_fresh s e p v : admits s e p = Ok v → sm_get e (streams s) = None;
  is_event_valid_spec e s : is_event_valid e s = bool_decide (is_Some (sm_get e (streams s)));
  get_all_events_spec s :
    NoDup (get_all_events s) ∧ ∀ e, e ∈ get_all_events s ↔ is_event_valid e s = true
}.

(** ** Both modes keep the promise *)

Lemma sm_iter_keys {V St} `{StorageMapLaws H256 V St} (s : St) e :
  e ∈ (sm_iter s).*1 ↔ is_Some (sm_get e s).
Proof.
  rewrite list_elem_of_fmap. split.
  - intros ([e' v] & -> & Hin). apply sm_iter_get in Hin. by eexists.
  - intros [v Hv]. exists (e, v). split; [done|]. by apply sm_iter_get.
Qed.

Section OffChainFacts.
Context `{Sr25519} {St Sys : Type} `{!FrameSystem Sys} `{StorageMapLaws H256 Z St}.

Definition off_admits (s : pallet_state St Sys) (e : H256) (p : option ProofsMap) :
    result PalletError Z :=
  if decide (is_Some (sm_get e (streams s))) then Err AlreadyValidated
  else Ok (system_block_number (system s)).

#[export] Program Instance off_chain_spec : PalletSpec Z St Sys := {|
  sys_wf _ := True;
  proofs_wf _ := True;
  admits := off_admits
|}.
Next Obligation.
  intros s e p _ _. cbn. unfold off_validate_event_impl, off_admits.
  rewrite sm_contains_key_get. case_decide as Hd.
  - by rewrite bool_decide_eq_true_2.
  - by rewrite bool_decide_eq_false_2.
Qed.
Next Obligation.
  intros s e p v. unfold off_admits. case_decide as Hd; [done|]. intros _.
  by apply eq_None_not_Some.
Qed.
Next Obligation. intros e s. cbn. apply sm_contains_key_get. Qed.
Next Obligation.
  intros s. split; [apply sm_iter_NoDup|]. intros e. cbn. unfold off_get_all_events, off_is_event_valid.
  by rewrite sm_iter_keys, sm_contains_key_get, bool_decide_eq_true.
Qed.

(** [get_block_events] returns exactly the events recorded at that block,
    none twice. *)
Theorem get_block_events_correct (bn : Z) (s : pallet_state St Sys) :
  NoDup (off_get_block_events bn s) ∧
  ∀ e, e ∈ off_get_block_events bn s ↔ sm_get e (streams s) = Some bn.
Proof.
  unfold off_get_block_events. split.
  - eapply sublist_NoDup; [apply (sm_iter_NoDup (streams s))|]. apply fmap_sublist, sublist_filter.
  - intros e. rewrite list_elem_of_fmap. setoid_rewrite list_elem_of_filter. split.
    + intros ([e' v] & -> & <- & Hin). by apply sm_iter_get.
    + intros Hv. exists (e, bn). split_and!; [done..|]. by apply sm_iter_get.
Qed.

End OffChainFacts.

Section OnChainFacts.
Context `{Sr25519} {St Sys : Type} `{!FrameSystem Sys} `{StorageMapLaws H256 ProofsMap St}.
Context (overflow_checks : bool).

(** The authorities as sr25519 keys. *)
Definition authority_publics (raws : list (list byte)) : list Public :=
  omap (λ raw, public_from_h256 <$> h256_of_list raw) raws.

(** Proofs that are enough for an event, given the authorities. *)
Definition enough_proofs (raws : list (list byte)) (e : H256) (proofs : ProofsMap) : Prop :=
  map_Forall (λ k _, k ∈ authority_publics raws) proofs ∧
  map_Forall (λ k sg, public_verify k (as_bytes e) sg = true) proofs ∧
  (as_u16 (Z.of_nat (length raws) * 2 / 3 + 1) ≤ Z.of_nat (size proofs))%Z.

Definition on_admits (s : pallet_state St Sys) (e : H256) (p : option ProofsMap) :
    result PalletError ProofsMap :=
  match p with
  | None => Err NoProofs
  | Some proofs =>
      if decide (is_Some (sm_get e (streams s))) then Err AlreadyValidated
      else if decide (map_Forall (λ k _, k ∈ authority_publics (config_authorities (system s))) proofs)
      then
        if decide (map_Forall (λ k sg, public_verify k (as_bytes e) sg = true) proofs) then
          if decide (as_u16 (Z.of_nat (length (config_authorities (system s))) * 2 / 3 + 1) ≤
                     Z.of_nat (size proofs))%Z
          then Ok proofs else Err NotEnoughProofs
        else Err InvalidProof
      else Err UnrecognizedAuthority
  end.

Lemma on_admits_Ok s e p proofs :
  on_admits s e p = Ok proofs ↔
  p = Some proofs ∧ sm_get e (streams s) = None ∧
  enough_proofs (config_authorities (system s)) e proofs.
Proof.
  unfold on_admits, enough_proofs. destruct p as [proofs'|]; [|naive_solver].
  rewrite eq_None_not_Some. repeat case_decide; naive_solver.
Qed.

(** Authorities are raw 32-byte keys; there are no more proofs than a [u16]
    counts. *)
Definition on_sys_wf (sys : Sys) : Prop := Forall (λ raw, length raw = 32) (config_authorities sys).
Definition on_proofs_wf (p : option ProofsMap) : Prop :=
  ∀ proofs, p = Some proofs → (Z.of_nat (size proofs) ≤ u16_max)%Z.

Lemma authority_publics_map raws :
  Forall (λ raw, length raw = 32) raws →
  outcome_map authority_public raws = Ret (authority_publics raws) ∧
  length (authority_publics raws) = length raws.
Proof.
  induction 1 as [|raw raws Hraw _ [IH1 IH2]]; [done|].
  destruct (h256_of_list_Some raw Hraw) as (h & Hh & _).
  assert (authority_public raw = Ret (public_from_h256 h)) as Hp
    by (unfold authority_public, from_slice; by rewrite Hh).
  assert (authority_publics (raw :: raws) = public_from_h256 h :: authority_publics raws) as ->
    by (unfold authority_publics; cbn [omap list_omap]; by rewrite Hh).
  cbn [outcome_map length]. by rewrite Hp, outcome_ret_bind, IH1, outcome_ret_bind, IH2.
Qed.

Lemma count_proofs_spec e l c :
  (0 ≤ c)%Z → (c + Z.of_nat (length l) ≤ u16_max)%Z →
  count_proofs overflow_checks e l c =
  Ret (if decide (Forall (λ kv, public_verify kv.1 (as_bytes e) kv.2 = true) l)
       then Ok (c + Z.of_nat (length l))%Z else Err InvalidProof).
Proof.
  revert c. induction l as [|[k sg] l IH]; intros c Hc Hl; cbn [count_proofs].
  { rewrite decide_True by done. cbn. by rewrite Z.add_0_r. }
  destruct (public_verify k (as_bytes e) sg) eqn:Ev.
  - unfold incr_u16. cbn [length] in Hl. rewrite (proj2 (Z.eqb_neq c u16_max)) by lia.
    rewrite outcome_ret_bind, IH by lia. f_equal.
    destruct (decide (Forall (λ kv, public_verify kv.1 (as_bytes e) kv.2 = true) l)) as [Hd|Hd].
    + rewrite decide_True by by constructor. f_equal. cbn [length]. lia.
    + rewrite decide_False; [done|]. intros Hf. by apply Hd; inversion Hf.
  - rewrite decide_False; [done|]. intros Hf. inversion Hf; subst; cbn in *. congruence.
Qed.

Lemma forallb_keys_Forall (authorities : list Public) (proofs : ProofsMap) :
  forallb (λ key, bool_decide (key ∈ authorities)) (map_to_list proofs).*1 =
  bool_decide (map_Forall (λ k _, k ∈ authorities) proofs).
Proof.
  apply Bool.eq_iff_eq_true.
  rewrite bool_decide_eq_true, map_Forall_to_list, forallb_forall, Forall_forall. split.
  - intros Hf [k sg] Hin. apply (bool_decide_eq_true_1 (k ∈ authorities)), Hf.
    apply list_elem_of_In, list_elem_of_fmap. by exists (k, sg).
  - intros Hf k Hin. apply list_elem_of_In, list_elem_of_fmap in Hin as ([k' sg] & -> & Hin).
    apply bool_decide_eq_true_2. exact (Hf _ Hin).
Qed.

Lemma on_validate_event_spec s e p :
  on_sys_wf (system s) → on_proofs_wf p →
  on_validate_event_impl overflow_checks e p s =
  match on_admits s e p with
  | Ok v => Ret (Ok tt, mkPallet (sm_insert e v (streams s)) (system_deposit_event e (system s)))
  | Err err => Ret (Err err, s)
  end.
Proof.
  intros Hsys Hp. unfold on_validate_event_impl, on_admits.
  destruct (authority_publics_map _ Hsys) as [-> Hlen]. rewrite outcome_ret_bind.
  destruct p as [proofs|]; [|done]. rewrite sm_contains_key_get.
  case_decide as Hd; [by rewrite bool_decide_eq_true_2|]. rewrite bool_decide_eq_false_2 by done.
  rewrite forallb_keys_Forall. case_decide as Hkeys; [|by rewrite bool_decide_eq_false_2].
  rewrite bool_decide_eq_true_2 by done. rewrite count_proofs_spec, outcome_ret_bind;
    [|lia|rewrite length_map_to_list; specialize (Hp proofs eq_refl); lia].
  rewrite length_map_to_list, Hlen, Z.add_0_l.
  assert (Forall (λ kv, public_verify kv.1 (as_bytes e) kv.2 = true) (map_to_list proofs) ↔
          map_Forall (λ k sg, public_verify k (as_bytes e) sg = true) proofs) as Hiff.
  { rewrite map_Forall_to_list. apply Forall_iff. by intros []. }
  rewrite (decide_ext _ _ _ _ Hiff). case_decide; [|done].
  destruct (Z.ltb_spec (Z.of_nat (size proofs))
    (as_u16 (Z.of_nat (length (config_authorities (system s))) * 2 / 3 + 1)));
    [by rewrite decide_False by lia|by rewrite decide_True].
Qed.

#[local] Instance on_mode : PalletMode ProofsMap St Sys := on_chain_mode overflow_checks.

#[local] Program Instance on_chain_spec : PalletSpec ProofsMap St Sys := {|
  sys_wf := on_sys_wf;
  proofs_wf := on_proofs_wf;
  admits := on_admits
|}.
Next Obligation. intros s e p. apply on_validate_event_spec. Qed.
Next Obligation. by intros s e p v (_ & ? & _)%on_admits_Ok. Qed.
Next Obligation. intros e s. cbn. apply sm_contains_key_get. Qed.
Next Obligation.
  intros s. split; [apply sm_iter_NoDup|]. intros e. cbn. unfold on_get_all_events, on_is_event_valid.
  by rewrite sm_iter_keys, sm_contains_key_get, bool_decide_eq_true.
Qed.

(** C25: on-chain [validate_event] accepts a call exactly when it carries proofs,
    the event is new, every proof is a valid signature of the event by an
    authority, and there are at least [2n/3 + 1] of them; it then stores the
    event with its proofs and deposits its event.  In every other case it
    returns the error of the first check that fails and changes nothing. *)
Theorem on_chain_validate_event_correct (s : pallet_state St Sys) (e : H256) (p : option ProofsMap) :
  on_sys_wf (system s) → on_proofs_wf p →
  validate_event e p s =
  match on_admits s e p with
  | Ok v => Ret (Ok tt, mkPallet (sm_insert e v (streams s)) (system_deposit_event e (system s)))
  | Err err => Ret (Err err, s)
  end ∧
  (∀ proofs, on_admits s e p = Ok proofs ↔
     p = Some proofs ∧ sm_get e (streams s) = None ∧
     enough_proofs (config_authorities (system s)) e proofs).
Proof.
  intros Hsys Hp. split; [by apply on_validate_event_spec|]. intros proofs. apply on_admits_Ok.
Qed.

End OnChainFacts.

(** ** Every history, in either mode *)

Section HistoryFacts.
Context `{Sr25519} {V St Sys : Type} `{!FrameSystem Sys} `{!StorageMap H256 V St}.
Context `{!StorageMapLaws H256 V St} `{!PalletMode V St Sys} `{!PalletSpec V St Sys}.

Definition op_wf (op : pallet_op Sys) : Prop :=
  match op with
  | CallOp _ p => proofs_wf p
  | SystemOp sys => sys_wf sys
  end.

(** The rest of the runtime stays well-formed when an event is deposited. *)
Hypothesis deposit_wf : ∀ e sys, sys_wf sys → sys_wf (system_deposit_event e sys).

(** One call. *)
Lemma validate_event_cases (s : pallet_state St Sys) e p :
  sys_wf (system s) → proofs_wf p →
  ∃ r s', validate_event e p s = Ret (r, s') ∧ sys_wf (system s') ∧
    match r with
    | Ok _ => ∃ v, admits s e p = Ok v ∧ sm_get e (streams s) = None ∧
                   sm_get e (streams s') = Some v ∧
                   ∀ e', e' ≠ e → sm_get e' (streams s') = sm_get e' (streams s)
    | Err err => admits s e p = Err err ∧ s' = s
    end.
Proof.
  intros Hsys Hp. unfold validate_event. rewrite validate_event_spec by done.
  destruct (admits s e p) as [v|err] eqn:Ha; eexists _, _; (split; [done|]).
  - split; [by apply deposit_wf|]. exists v. cbn. split_and!; [done|by eapply admits_fresh|..].
    + apply sm_get_insert_eq.
    + intros e' Hne. by apply sm_get_insert_ne.
  - done.
Qed.

Lemma run_pallet_spec ops (s : pallet_state St Sys) :
  sys_wf (system s) → Forall op_wf ops →
  ∃ trace s', run_pallet ops s = Ret (trace, s') ∧ sys_wf (system s') ∧ NoDup trace ∧
    (∀ e, e ∈ trace → sm_get e (streams s) = None) ∧
    (∀ e, is_Some (sm_get e (streams s')) ↔ is_Some (sm_get e (streams s)) ∨ e ∈ trace) ∧
    (∀ e v, sm_get e (streams s) = Some v → sm_get e (streams s') = Some v).
Proof.
  revert s. induction ops as [|[e p|sys] ops IH]; intros s Hsys Hops.
  { exists [], s. split_and!; [done|done|constructor|set_solver..]. }
  - apply Forall_cons_iff in Hops as [Hp Hops].
    destruct (validate_event_cases s e p Hsys Hp) as (r & s1 & Hrun & Hsys1 & Hr).
    destruct (IH s1 Hsys1 Hops) as (trace & s2 & Hrun2 & Hsys2 & Hnd & Hnew & Hiff & Hkeep).
    cbn [run_pallet]. rewrite Hrun, outcome_ret_bind, Hrun2, outcome_ret_bind.
    eexists _, s2. split; [done|]. split; [done|].
    destruct r as [u|err]; [|destruct Hr as [_ ->]; by split_and!].
    destruct Hr as (v & _ & Hfresh & Hv & Hother).
    assert (∀ e', sm_get e' (streams s1) = if decide (e' = e) then Some v else sm_get e' (streams s))
      as Hget1 by (intros e'; case_decide; [by subst|by apply Hother]).
    split_and!.
    + constructor; [|done]. intros Hin. apply Hnew in Hin. congruence.
    + intros e' [->|Hin]%elem_of_cons; [done|]. apply Hnew in Hin. rewrite Hget1 in Hin.
      by case_decide; simplify_eq.
    + intros e'. rewrite Hiff, Hget1, elem_of_cons. case_decide; subst; [|tauto].
      split; [by right; left|by left; eexists].
    + intros e' v' Hv'. apply Hkeep. rewrite Hget1. case_decide; [congruence|done].
  - apply Forall_cons_iff in Hops as [Hs Hops]. cbn [run_pallet]. by apply (IH (mkPallet (streams s) sys)).
Qed.

(** C20: whatever calls are made, between whatever changes of the rest of the
    runtime, no call panics and each event is validated at most once: the
    events validated by a history are pairwise different and were not
    validated before, and the events valid after it are those valid before and
    those it validated; what was recorded for an event never changes. *)
Theorem pallet_validates_once ops (s : pallet_state St Sys) :
  sys_wf (system s) → Forall op_wf ops →
  ∃ trace s', run_pallet ops s = Ret (trace, s') ∧ NoDup trace ∧
    (∀ e, e ∈ trace → is_event_valid e s = false) ∧
    (∀ e, e ∈ get_all_events s' ↔ e ∈ get_all_events s ∨ e ∈ trace) ∧
    (∀ e v, sm_get e (streams s) = Some v → sm_get e (streams s') = Some v).
Proof.
  intros Hsys Hops. destruct (run_pallet_spec ops s Hsys Hops)
    as (trace & s' & Hrun & _ & Hnd & Hnew & Hiff & Hkeep).
  exists trace, s'. split_and!; [done..| | |done].
  - intros e Hin. rewrite is_event_valid_spec, (Hnew e Hin). by apply bool_decide_eq_false_2, is_Some_None.
  - intros e. destruct (get_all_events_spec s) as [_ ->], (get_all_events_spec s') as [_ ->].
    rewrite !is_event_valid_spec, !bool_decide_eq_true. apply Hiff.
Qed.

(** Every recorded value was admitted by some call of the history. *)
Lemma run_pallet_provenance ops (s : pallet_state St Sys) trace s' e v :
  sys_wf (system s) → Forall op_wf ops → run_pallet ops s = Ret (trace, s') →
  sm_get e (streams s') = Some v → sm_get e (streams s) = None →
  ∃ pre post p trace1 s1, ops = pre ++ CallOp e p :: post ∧
    run_pallet pre s = Ret (trace1, s1) ∧ admits s1 e p = Ok v.
Proof.
  revert s trace. induction ops as [|[e1 p1|sys] ops IH]; intros s trace Hsys Hops Hrun Hv Hnone.
  { injection Hrun as <- <-. congruence. }
  - apply Forall_cons_iff in Hops as [Hp Hops].
    destruct (validate_event_cases s e1 p1 Hsys Hp) as (r & s1 & Hrun1 & Hsys1 & Hr).
    cbn [run_pallet] in Hrun. rewrite Hrun1, outcome_ret_bind in Hrun.
    destruct (run_pallet_spec ops s1 Hsys1 Hops) as (tr2 & s2 & Hrun2 & _ & _ & _ & _ & Hkeep).
    rewrite Hrun2, outcome_ret_bind in Hrun. injection Hrun as <- <-.
    destruct (sm_get e (streams s1)) as [v1|] eqn:Hv1.
    + pose proof (Hkeep e v1 Hv1) as Hv1'. assert (v1 = v) as -> by congruence.
      destruct r as [u|err]; [|destruct Hr as [_ ->]; congruence].
      destruct Hr as (v' & Hadm & _ & Hget & Hother).
      assert (e1 = e) as ->.
      { destruct (decide (e = e1)) as [|Hne]; [done|]. rewrite (Hother e Hne) in Hv1. congruence. }
      exists [], ops, p1, [], s. split_and!; [done..|]. by simplify_eq.
    + destruct (IH s1 tr2 Hsys1 Hops Hrun2 Hv Hv1) as (pre & post & p & tr & s3 & -> & Hpre & Hadm).
      eexists (CallOp e1 p1 :: pre), post, p, _, s3. split_and!; [done| |done].
      cbn [run_pallet]. by rewrite Hrun1, outcome_ret_bind, Hpre, outcome_ret_bind.
  - apply Forall_cons_iff in Hops as [Hs Hops]. cbn [run_pallet] in Hrun.
    destruct (IH (mkPallet (streams s) sys) trace Hs Hops Hrun Hv Hnone)
      as (pre & post & p & tr & s3 & -> & Hpre & Hadm).
    by exists (SystemOp sys :: pre), post, p, tr, s3.
Qed.

End HistoryFacts.

(** ** The chain's guarantee with on-chain proofs *)

Section OnChainHistory.
Context `{Sr25519} {St Sys : Type} `{!FrameSystem Sys} `{StorageMapLaws H256 ProofsMap St}.
Context (overflow_checks : bool).
#[local] Existing Instance on_mode.
#[local] Existing Instance on_chain_spec.

(** C19: with on-chain proofs, every event that a history records is stored with
    proofs that were enough at the call that recorded it: valid signatures of
    that event, each by a different one of the authorities at that moment, and
    at least [2n/3 + 1] of them. *)
Theorem on_chain_events_proved ops (s : pallet_state St Sys) trace s' e proofs :
  (∀ e sys, on_sys_wf sys → on_sys_wf (system_deposit_event e sys)) →
  on_sys_wf (system s) → Forall (op_wf (PalletSpec0 := on_chain_spec overflow_checks)) ops →
  run_pallet (PalletMode0 := on_mode overflow_checks) ops s = Ret (trace, s') →
  sm_get e (streams s) = None → sm_get e (streams s') = Some proofs →
  ∃ pre post trace1 s1, ops = pre ++ CallOp e (Some proofs) :: post ∧
    run_pallet (PalletMode0 := on_mode overflow_checks) pre s = Ret (trace1, s1) ∧
    enough_proofs (config_authorities (system s1)) e proofs.
Proof.
  intros Hdep Hsys Hops Hrun Hnone Hv.
  destruct (run_pallet_provenance (PalletSpec0 := on_chain_spec overflow_checks)
    Hdep ops s trace s' e proofs Hsys Hops Hrun Hv Hnone)
    as (pre & post & p & tr & s1 & -> & Hpre & Hadm).
  apply on_admits_Ok in Hadm as (-> & _ & Henough). by exists pre, post, tr, s1.
Qed.

End OnChainHistory.

(** ** Unsigned transactions *)

Section UnsignedFacts.
Context `{Sr25519} {V St Sys : Type} `{!FrameSystem Sys} `{!StorageMap H256 V St}.
Context `{!StorageMapLaws H256 V St} `{!PalletMode V St Sys} `{!PalletSpec V St Sys}.
Context (encode_call : Call → list byte).

Lemma validate_unsigned_eq source call (s : pallet_state St Sys) :
  validate_unsigned encode_call source call s =
  match call with
  | ValidateEvent e p =>
      if decide (source = External) then Err InvalidCall
      else if decide (is_Some (sm_get e (streams s))) then Err Stale
      else Ok (mkValidTransaction "validated_streams" [CallTag (encode_call call); EventTag e] false)
  | IgnoreCall => Err InvalidCall
  end.
Proof.
  unfold validate_unsigned. destruct call as [e p|]; [|by destruct source].
  rewrite is_event_valid_spec. destruct (decide (is_Some (sm_get e (streams s)))) as [Hd|Hd];
    [rewrite (bool_decide_eq_true_2 _ Hd)|rewrite (bool_decide_eq_false_2 _ Hd)]; by destruct source.
Qed.

(** C35: an unsigned transaction is accepted exactly when it comes from this node
    or from a block and calls [validate_event] on an event that is not
    recorded yet; it is then never propagated, and any two transactions for
    the same event provide a common tag, so that a pool keeps only one.  For an
    event already recorded the answer is [Stale], and otherwise [Call]. *)
Theorem validate_unsigned_correct (source : TransactionSource) (call : Call)
    (s : pallet_state St Sys) :
  (∀ tx, validate_unsigned encode_call source call s = Ok tx ↔
     source ≠ External ∧
     ∃ e p, call = ValidateEvent e p ∧ sm_get e (streams s) = None ∧
       propagate tx = false ∧ tag_prefix tx = "validated_streams" ∧
       provides tx = [CallTag (encode_call call); EventTag e]) ∧
  (validate_unsigned encode_call source call s = Err Stale ↔
     source ≠ External ∧ ∃ e p, call = ValidateEvent e p ∧ is_Some (sm_get e (streams s))) ∧
  (∀ err, validate_unsigned encode_call source call s = Err err → err = Stale ∨ err = InvalidCall).
Proof.
  rewrite validate_unsigned_eq.
  destruct call as [e p|]; [|split_and!; naive_solver].
  destruct (decide (source = External)) as [Hs|Hs]; [split_and!; naive_solver|].
  destruct (sm_get e (streams s)) as [v|] eqn:Hg.
  - rewrite decide_True by by eexists. split_and!.
    + intros tx. split; [done|]. intros (_ & e' & p' & [= <- <-] & Hn & _). congruence.
    + split; [|done]. intros _. split; [done|]. exists e, p. by rewrite Hg.
    + naive_solver.
  - rewrite decide_False by apply is_Some_None. split_and!; [| |done].
    + intros tx. split; [intros [= <-]; split; [done|]; by exists e, p|].
      intros (_ & e' & p' & [= <- <-] & _ & Hp & Ht & Hv). destruct tx; cbn in *; by subst.
    + split; [done|]. intros (_ & e' & p' & [= <- <-] & [v Hv]). congruence.
Qed.

End UnsignedFacts.

(** ** Witnesses: a storage map, and a runtime with four authorities *)

#[export] Instance gmap_storage {V} : StorageMap H256 V (gmap H256 V) := {|
  sm_get k m := m !! k;
  sm_contains_key k m := bool_decide (is_Some (m !! k));
  sm_insert k v m := <[k := v]> m;
  sm_iter m := map_to_list m
|}.

#[export] Instance gmap_storage_laws {V} : StorageMapLaws H256 V (gmap H256 V).
Proof.
  split; cbn.
  - done.
  - intros k v s. apply lookup_insert_eq.
  - intros k k' v s Hne. by apply lookup_insert_ne.
  - intros k v s. apply elem_of_map_to_list.
  - intros s. apply NoDup_fst_map_to_list.
Qed.

Record toy_system := mkToySystem { toy_number : Z; toy_raw : list (list byte); toy_events : list H256 }.

#[export] Instance toy_frame : FrameSystem toy_system := {|
  system_block_number := toy_number;
  config_authorities := toy_raw;
  system_deposit_event e sys := mkToySystem (toy_number sys) (toy_raw sys) (toy_events sys ++ [e])
|}.

Definition toy_sys : toy_system := mkToySystem 1 (toy_key <$> [x01; x02; x03; x04]) [].
Definition toy_proofs (bs : list byte) : ProofsMap :=
  list_to_map ((λ b, (toy_key b, toy_sign b (repeat_byte x2a))) <$> bs).

Lemma toy_sys_wf : on_sys_wf toy_sys.
Proof. repeat constructor. Qed.

Lemma toy_proofs_wf : on_proofs_wf (Some (toy_proofs [x01; x02; x03])).
Proof. intros m [= <-]. vm_compute. discriminate. Qed.

Lemma toy_deposit_wf e sys : on_sys_wf sys → on_sys_wf (system_deposit_event e sys).
Proof. intros Hs. exact Hs. Qed.

(** Two of four proofs are not enough. *)
Lemma on_chain_validate_event_correct_witness :
  validate_event (PalletMode0 := on_mode true) (repeat_byte x2a) (Some (toy_proofs [x01; x02]))
    (mkPallet (∅ : gmap H256 ProofsMap) toy_sys) =
  Ret (Err NotEnoughProofs, mkPallet (∅ : gmap H256 ProofsMap) toy_sys).
Proof.
  destruct (on_chain_validate_event_correct true (mkPallet (∅ : gmap H256 ProofsMap) toy_sys)
    (repeat_byte x2a) (Some (toy_proofs [x01; x02]))) as [E _].
  - exact toy_sys_wf.
  - intros m [= <-]. vm_compute. discriminate.
  - rewrite E. vm_compute. reflexivity.
Defined.

(** The same event twice, in two blocks, with off-chain proofs. *)
Definition toy_ops : list (pallet_op toy_system) :=
  [CallOp (repeat_byte x2a) None; SystemOp (mkToySystem 2 [] []); CallOp (repeat_byte x2a) None;
   CallOp (repeat_byte x2b) None].

Lemma pallet_validates_once_witness :
  ∃ trace s', run_pallet toy_ops (mkPallet (∅ : gmap H256 Z) toy_sys) = Ret (trace, s') ∧
    NoDup trace ∧ length trace = 2.
Proof.
  destruct (pallet_validates_once (PalletSpec0 := off_chain_spec) (λ _ _ H, H) toy_ops
    (mkPallet (∅ : gmap H256 Z) toy_sys)) as (trace & s' & Hrun & Hnd & _).
  - exact I.
  - repeat constructor.
  - exists trace, s'. split; [exact Hrun|]. split; [exact Hnd|].
    assert (match run_pallet toy_ops (mkPallet (∅ : gmap H256 Z) toy_sys) with
            | Ret (tr, _) => length tr | _ => 0 end = 2) as E by (vm_compute; reflexivity).
    rewrite Hrun in E. exact E.
Defined.

(** Three of four proofs are stored. *)
Definition toy_on_ops : list (pallet_op toy_system) :=
  [CallOp (repeat_byte x2a) (Some (toy_proofs [x01; x02; x03]))].
Definition toy_on_genesis : pallet_state (gmap H256 ProofsMap) toy_system := mkPallet ∅ toy_sys.

Lemma toy_on_run :
  match run_pallet (PalletMode0 := on_mode true) toy_on_ops toy_on_genesis with
  | Ret (_, s') => bool_decide (sm_get (repeat_byte x2a) (streams s') =
                                Some (toy_proofs [x01; x02; x03]))
  | _ => false
  end = true.
Proof. vm_compute. reflexivity. Qed.

Lemma on_chain_events_proved_witness :
  ∃ trace s' raws, run_pallet (PalletMode0 := on_mode true) toy_on_ops toy_on_genesis =
      Ret (trace, s') ∧
    sm_get (repeat_byte x2a) (streams s') = Some (toy_proofs [x01; x02; x03]) ∧
    enough_proofs raws (repeat_byte x2a) (toy_proofs [x01; x02; x03]).
Proof.
  assert (Forall (op_wf (PalletSpec0 := on_chain_spec true (St := gmap H256 ProofsMap))) toy_on_ops)
    as Hops by (constructor; [exact toy_proofs_wf|constructor]).
  pose proof toy_on_run as E.
  destruct (run_pallet (PalletMode0 := on_mode true) toy_on_ops toy_on_genesis)
    as [[trace s']| |] eqn:Hrun; [|discriminate E..].
  apply bool_decide_eq_true_1 in E.
  destruct (on_chain_events_proved true toy_on_ops toy_on_genesis trace s' (repeat_byte x2a)
    (toy_proofs [x01; x02; x03]) toy_deposit_wf toy_sys_wf Hops Hrun eq_refl E)
    as (pre & post & tr & s1 & _ & _ & Henough).
  exists trace, s', (config_authorities (system s1)). split; [reflexivity|]. split; [exact E|exact Henough].
Defined.

Lemma get_block_events_correct_witness :
  let s := mkPallet (<[repeat_byte x2a := 7%Z]> (∅ : gmap H256 Z)) toy_sys in
  off_get_block_events 7 s = [repeat_byte x2a] ∧ repeat_byte x2a ∈ off_get_block_events 7 s.
Proof.
  intros s. destruct (get_block_events_correct 7 s) as [_ Hin].
  split; [vm_compute; reflexivity|]. apply (Hin (repeat_byte x2a)). apply lookup_insert_eq.
Defined.

Lemma validate_unsigned_correct_witness :
  validate_unsigned (λ _, [x00]) Local (ValidateEvent (repeat_byte x2a) None)
    (mkPallet (<[repeat_byte x2a := 7%Z]> (∅ : gmap H256 Z)) toy_sys) = Err Stale.
Proof.
  destruct (validate_unsigned_correct (PalletSpec0 := off_chain_spec) (λ _, [x00]) Local
    (ValidateEvent (repeat_byte x2a) None)
    (mkPallet (<[repeat_byte x2a := 7%Z]> (∅ : gmap H256 Z)) toy_sys)) as (_ & [_ Hstale] & _).
  apply Hstale. split; [discriminate|]. exists (repeat_byte x2a), None. split; [reflexivity|].
  exists 7%Z. apply lookup_insert_eq.
Defined.
