(* ===== verification/Runtime.v ===== *)
(** * The runtime

    [runtime/src/lib.rs]: the pallet composed into a runtime: the calls of a
    block and its extrinsics, the runtime API [ValidatedStreamsApi] that the
    node uses to build and to read the extrinsics of events, and the bound on
    the number of authorities.  The last section connects the node and the
    chain: what the gossip handler submits is what the pallet accepts. *)

From stdpp Require Import base decidable list gmap strings.
From Stdlib Require Import Strings.Byte ZArith Lia.
From S2P Require Import Prelude Errors Proofs InMemory State Authorities Concrete EventGossip Pallet.

(** ** Constants *)

Definition MILLISECS_PER_BLOCK : Z := 6000.
Definition SLOT_DURATION : Z := MILLISECS_PER_BLOCK.
Definition MINUTES : Z := 60000 / MILLISECS_PER_BLOCK.
Definition HOURS : Z := MINUTES * 60.
Definition DAYS : Z := HOURS * 24.

(** [type VSMaxAuthorities = ConstU32<32>] *)
Definition VSMaxAuthorities : nat := 32.

(** [RuntimeVersion], without the versions of the APIs that the macro fills in. *)
Record RuntimeVersion := mkVersion {
  spec_name : string;
  impl_name : string;
  authoring_version : Z;
  spec_version : Z;
  impl_version : Z;
  transaction_version : Z;
  state_version : Z
}.

Definition VERSION : RuntimeVersion := {|
  spec_name := "node-template";
  impl_name := "node-template";
  authoring_version := 1;
  spec_version := 100;
  impl_version := 1;
  transaction_version := 1;
  state_version := 1
|}.

(** [NativeVersion]: the version and the others it can author with. *)
Definition native_version : RuntimeVersion * list Z := (VERSION, []).

(** [Perbill::from_percent(75)], in parts per billion. *)
Definition NORMAL_DISPATCH_RATIO : Z := 75 * 10000000.

(** The parameters of [frame_system]. *)
Definition BlockHashCount : Z := 2400.
Definition SS58Prefix : Z := 42.
Definition block_length_max : Z := 5 * 1024 * 1024.

(** [MaxAuthorities] of Aura and of Grandpa, the same [ConstU32<32>]. *)
Definition AuraMaxAuthorities : nat := 32.
Definition GrandpaMaxAuthorities : nat := 32.

(** [type MinimumPeriod = ConstU64<{ SLOT_DURATION / 2 }>] *)
Definition MinimumPeriod : Z := SLOT_DURATION / 2.

Definition EXISTENTIAL_DEPOSIT : Z := 500.

(** The pallets of [construct_runtime!]; the position is the pallet's index. *)
Inductive pallet_name : Type :=
| System | Timestamp | Aura | Grandpa | Balances | TransactionPayment | Sudo | ValidatedStreams.

Definition pallets : list pallet_name :=
  [System; Timestamp; Aura; Grandpa; Balances; TransactionPayment; Sudo; ValidatedStreams].

(** ** Calls and extrinsics *)

(** The calls of [frame_system] and [pallet_balances] that the node builds; the
    others are known by their encoding. *)
Inductive SystemCalls : Type :=
| remark (data : list byte)
| OtherSystemCall (encoded : list byte).

Inductive BalancesCalls : Type :=
| transfer_keep_alive (dest : list byte) (value : Z)
| OtherBalancesCall (encoded : list byte).

(** The calls of [pallet_sudo]: [sudo] dispatches another call as the root; the
    others, such as [set_key], are known by their encoding. *)
Inductive SudoCalls (C : Type) : Type :=
| sudo (call : C)
| OtherSudoCall (encoded : list byte).

Arguments sudo {C} _.
Arguments OtherSudoCall {C} _.

(** [RuntimeCall], as [construct_runtime!] makes it from the pallets that have
    calls; only [Sudo] holds another call. *)
Inductive RuntimeCall `{Sr25519} : Type :=
| SystemCall (call : SystemCalls)
| TimestampCall (encoded : list byte)
| GrandpaCall (encoded : list byte)
| BalancesCall (call : BalancesCalls)
| SudoCall (call : SudoCalls RuntimeCall)
| ValidatedStreamsCall (call : Call).

(** The extensions of [SignedExtra] that carry data, in their order: the era, the
    nonce and the tip. *)
Inductive Era : Type :=
| Immortal
| Mortal (period phase : Z).

Record SignedExtra := mkExtra {
  check_era : Era;
  check_nonce : Z;
  charge_transaction_payment : Z
}.

(** [MultiSignature] *)
Inductive Signature `{Sr25519} : Type :=
| Ed25519Signature (s : list byte)
| Sr25519Signature (s : SrSignature)
| EcdsaSignature (s : list byte).

(** [generic::UncheckedExtrinsic<Address, RuntimeCall, Signature, SignedExtra>] *)
Record UncheckedExtrinsic `{Sr25519} := mkExtrinsic {
  extrinsic_signature : option (list byte * Signature * SignedExtra);
  function : RuntimeCall
}.

Arguments mkExtrinsic {_} _ _.

Section Api.
Context `{Sr25519}.

(** [BoundedBTreeMap::try_from] *)
Definition try_bound (bound : nat) (m : gmap Public SrSignature) : option ProofsMap :=
  if decide (size m ≤ bound) then Some m else None.

Fixpoint get_extrinsic_ids (extrinsics : list UncheckedExtrinsic) : list H256 :=
  match extrinsics with
  | [] => []
  | extrinsic :: rest =>
      match function extrinsic with
      | ValidatedStreamsCall (ValidateEvent call_data _) => call_data :: get_extrinsic_ids rest
      | _ => get_extrinsic_ids rest
      end
  end.

Definition create_unsigned_extrinsic (event_id : H256)
    (event_proofs : option (gmap Public SrSignature)) : UncheckedExtrinsic :=
  let proofs := event_proofs ≫= try_bound VSMaxAuthorities in
  mkExtrinsic None (ValidatedStreamsCall (ValidateEvent event_id proofs)).

(** Events and extrinsics round-trip. *)
Lemma get_extrinsic_ids_app exts1 exts2 :
  get_extrinsic_ids (exts1 ++ exts2) = get_extrinsic_ids exts1 ++ get_extrinsic_ids exts2.
Proof.
  induction exts1 as [|ext exts1 IH]; [done|]. cbn [get_extrinsic_ids app]. rewrite IH.
  destruct (function ext) as [| | | | |[]]; done.
Qed.

(** C36: the ids read back from extrinsics created for a list of events, whatever
    proofs they were created with, are those events, in order; extrinsics of
    other pallets around them add none. *)
Theorem get_extrinsic_ids_roundtrip (events : list (H256 * option (gmap Public SrSignature)))
    (others : list UncheckedExtrinsic) :
  Forall (λ ext, ∀ c, function ext ≠ ValidatedStreamsCall c) others →
  get_extrinsic_ids (others ++ ((λ ep, create_unsigned_extrinsic ep.1 ep.2) <$> events)) = events.*1.
Proof.
  intros Ho. rewrite get_extrinsic_ids_app.
  assert (get_extrinsic_ids others = []) as ->.
  { induction Ho as [|ext others Hext _ IH]; [done|]. cbn [get_extrinsic_ids]. rewrite IH.
    destruct (function ext) as [| | | | |c]; try done. by destruct (Hext c). }
  induction events as [|[e p] events IH]; [done|]. cbn. f_equal. exact IH.
Qed.

(** An event inside a [sudo] call is not among the ids. *)
Lemma get_extrinsic_ids_nested signature e p :
  get_extrinsic_ids [mkExtrinsic signature (SudoCall (sudo (ValidatedStreamsCall (ValidateEvent e p))))] = [].
Proof. done. Qed.

End Api.

(** ** From the gossip handler to the chain *)

(** How the pieces name an authority: the node by a pair made from the
    authority's id, the pallet by its raw key. *)
Class AuthorityKeys `{ChainTypes} `{Sr25519} := {
  crypto_id : CryptoTypeId;
  to_raw_vec : AuthorityId → list byte;
  pair_of_authority_eq id : pair_of_authority id = mkPair crypto_id (to_raw_vec id);
  to_raw_vec_length id : length (to_raw_vec id) = 32;
  public_of_bytes h : public_from_slice (as_bytes h) = Some (public_from_h256 h);
  public_from_h256_inj h h' : public_from_h256 h = public_from_h256 h' → h = h'
}.

Section Submission.
Context `{Bincode} `{AuthorityKeys}.
Context {St Sys : Type} `{!FrameSystem Sys} `{!StorageMap H256 ProofsMap St}.

Lemma public_of_authority id :
  ∃ h, as_bytes h = to_raw_vec id ∧ public_from_slice (pair_public (pair_of_authority id)) =
       Some (public_from_h256 h).
Proof.
  destruct (h256_of_list_Some (to_raw_vec id) (to_raw_vec_length id)) as (h & _ & Hh).
  exists h. split; [done|]. rewrite pair_of_authority_eq. cbn. by rewrite <- Hh, public_of_bytes.
Qed.

Lemma public_of_authority_inj id id' pk :
  public_from_slice (pair_public (pair_of_authority id)) = Some pk →
  public_from_slice (pair_public (pair_of_authority id')) = Some pk →
  pair_of_authority id = pair_of_authority id'.
Proof.
  intros E E'. destruct (public_of_authority id) as (h & Hh & Hp).
  destruct (public_of_authority id') as (h' & Hh' & Hp').
  assert (h = h') as -> by (apply public_from_h256_inj; congruence).
  rewrite !pair_of_authority_eq. congruence.
Qed.

Lemma elem_of_authority_publics ids id pk :
  id ∈ ids → public_from_slice (pair_public (pair_of_authority id)) = Some pk →
  pk ∈ authority_publics (to_raw_vec <$> ids).
Proof.
  intros Hid Hpk. destruct (public_of_authority id) as (h & Hh & E). rewrite Hpk in E.
  injection E as ->. unfold authority_publics. apply list_elem_of_omap. exists (to_raw_vec id).
  split; [by apply list_elem_of_fmap_2|]. by rewrite <- Hh, h256_of_as_bytes.
Qed.

(** As many proofs as signers: different authorities have different keys. *)
Lemma gathered_size ids (ks : list CryptoTypePublicPair) (p : gmap Public SrSignature) :
  NoDup ks → ks ⊆ (pair_of_authority <$> ids) →
  (∀ k, k ∈ ks → ∃ pk, public_from_slice (pair_public k) = Some pk ∧ is_Some (p !! pk)) →
  length ks ≤ size p.
Proof.
  intros Hnd Hks Hp. rewrite <- size_dom.
  set (f := λ k : CryptoTypePublicPair, public_from_slice (pair_public k)).
  assert (NoDup (omap f ks) ∧ length (omap f ks) = length ks) as [Hnd' <-].
  { apply omap_NoDup; [done|..].
    - intros k Hk. destruct (Hp k Hk) as (pk & E & _). by eexists.
    - intros k k' pk Hk%Hks Hk'%Hks. apply list_elem_of_fmap in Hk as (id & -> & _).
      apply list_elem_of_fmap in Hk' as (id' & -> & _). apply public_of_authority_inj. }
  rewrite <- (size_list_to_set_NoDup (omap f ks)) by done.
  apply subseteq_size. intros pk. rewrite elem_of_list_to_set, list_elem_of_omap, elem_of_dom.
  intros (k & Hk & E). destruct (Hp k Hk) as (pk' & E' & Hpk). subst f. cbn in E. congruence.
Qed.

Lemma gathered_in_authorities v ids e (p : gmap Public SrSignature) :
  gathered false v (mkAuthorities (pair_of_authority <$> ids)) e (Some p) →
  proofs_valid v →
  map_Forall (λ k _, k ∈ authority_publics (to_raw_vec <$> ids)) p ∧
  map_Forall (λ k sg, public_verify k (as_bytes e) sg = true) p.
Proof.
  intros (p' & [= <-] & Hfrom & _) Hv. split; intros pk sg Hpk.
  all: destruct (Hfrom pk sg Hpk) as (k & s & Hk & Hs & Hconv);
    apply list_elem_of_fmap in Hk as (id & -> & Hid);
    unfold convert_proof in Hconv; cbn in Hconv;
    destruct (public_from_slice _) as [pk'|] eqn:Epk; [|done]; cbn in Hconv;
    destruct (signature_from_slice s) as [sg'|] eqn:Esg; [|done]; injection Hconv as -> ->.
  - by eapply elem_of_authority_publics.
  - destruct (Hv _ _ _ Hs) as (pk' & sg' & Epk' & Esg' & Hver). congruence.
Qed.

Lemma submission_admitted v ids e (p : gmap Public SrSignature) (s : pallet_state St Sys) :
  let auths := mkAuthorities (pair_of_authority <$> ids) in
  wf_authorities auths → length ids ≤ VSMaxAuthorities →
  config_authorities (system s) = to_raw_vec <$> ids → sm_get e (streams s) = None →
  proofs_valid v → has_quorum v auths e → gathered false v auths e (Some p) →
  create_unsigned_extrinsic e (Some p) =
    mkExtrinsic None (ValidatedStreamsCall (ValidateEvent e (Some p))) ∧
  on_admits s e (Some p) = Ok p.
Proof.
  intros auths Hwf Hlen Hsys Hnew Hv Hq Hg.
  destruct (gathered_in_authorities v ids e p Hg Hv) as [Hkeys Hsigs].
  assert (length (signers v e (authorities auths)) ≤ size p) as Hsize.
  { apply (gathered_size ids); [apply signers_NoDup, Hwf| |].
    - intros k Hk. by apply elem_of_signers in Hk as [? _].
    - destruct Hg as (p' & [= <-] & _ & Hall). exact Hall. }
  assert (size p ≤ VSMaxAuthorities) as Hmax.
  { rewrite <- size_dom. etransitivity; [|exact Hlen].
    rewrite <- (length_fmap to_raw_vec ids).
    destruct (authority_publics_map (to_raw_vec <$> ids)) as [_ <-].
    { apply Forall_fmap, Forall_true. intros id. apply to_raw_vec_length. }
    etransitivity; [|apply size_list_to_set_le]. apply subseteq_size. intros pk.
    rewrite elem_of_dom, elem_of_list_to_set. intros [sg Hpk]. by eapply Hkeys. }
  split.
  - unfold create_unsigned_extrinsic, try_bound. cbn. by rewrite decide_True.
  - apply on_admits_Ok. split_and!; [done..|]. unfold enough_proofs. rewrite Hsys.
    split_and!; [done..|]. rewrite length_fmap. unfold has_quorum, target in Hq. cbn in Hq.
    rewrite length_fmap in Hq. subst auths. cbn in Hsize. lia.
Qed.

(** With on-chain proofs, what the gossip handler submits is what the chain
    accepts.  When an event has a quorum in a node's store, the extrinsic that
    the runtime builds from the proofs the handler gathers keeps all of them,
    and the dispatch of its call on a chain with the same authorities (at most
    32) that has not recorded the event yet succeeds and records the event with
    those proofs. *)
Theorem submitted_event_is_validated (overflow_checks : bool) v ids e
    (p : gmap Public SrSignature) (s : pallet_state St Sys) :
  StorageMapLaws H256 ProofsMap St →
  let auths := mkAuthorities (pair_of_authority <$> ids) in
  wf_authorities auths → length ids ≤ VSMaxAuthorities →
  config_authorities (system s) = to_raw_vec <$> ids → sm_get e (streams s) = None →
  proofs_valid v → has_quorum v auths e → gathered false v auths e (Some p) →
  create_unsigned_extrinsic e (Some p) =
    mkExtrinsic None (ValidatedStreamsCall (ValidateEvent e (Some p))) ∧
  on_validate_event_impl overflow_checks e (Some p) s =
    Ret (Ok tt, mkPallet (sm_insert e p (streams s)) (system_deposit_event e (system s))).
Proof.
  intros Hlaws auths Hwf Hlen Hsys Hnew Hv Hq Hg.
  destruct (submission_admitted v ids e p s) as [Hext Hadm]; [done..|]. split; [done|].
  rewrite on_validate_event_spec, Hadm; [done|..].
  - unfold on_sys_wf. rewrite Hsys. apply Forall_fmap, Forall_true. intros id. apply to_raw_vec_length.
  - intros p' [= <-]. unfold create_unsigned_extrinsic, try_bound in Hext. cbn in Hext.
    case_decide as Hs; [|done]. unfold VSMaxAuthorities, u16_max in *. lia.
Qed.

End Submission.

(** ** Witnesses: authorities named by 32 bytes *)

Lemma get_extrinsic_ids_roundtrip_witness :
  get_extrinsic_ids ([mkExtrinsic None (TimestampCall [x00])] ++
    ((λ ep, create_unsigned_extrinsic ep.1 ep.2) <$> [(repeat_byte x2a, None); (repeat_byte x2b, Some ∅)]))
  = [repeat_byte x2a; repeat_byte x2b].
Proof.
  apply (get_extrinsic_ids_roundtrip [(repeat_byte x2a, None); (repeat_byte x2b, Some ∅)]
    [mkExtrinsic None (TimestampCall [x00])]).
  constructor; [discriminate|constructor].
Defined.

#[local] Instance text_display : Display string := λ s, s.

Definition keyed_chain : ChainTypes := {|
  Hash := nat;
  AuthorityId := H256;
  pair_of_authority id := mkPair (x73, x72, x32, x35) (as_bytes id);
  Extrinsic := UncheckedExtrinsic;
  ApiError := string
|}.

#[local] Existing Instance keyed_chain.

#[local] Program Instance keyed_authorities : AuthorityKeys := {|
  crypto_id := (x73, x72, x32, x35);
  to_raw_vec id := as_bytes id
|}.
Next Obligation. done. Qed.
Next Obligation. intros id. apply as_bytes_length. Qed.
Next Obligation. intros h. cbn. by rewrite as_bytes_length. Qed.
Next Obligation. intros h h'. cbn. apply h256_ext. Qed.

Definition keyed_ids : list (@AuthorityId keyed_chain) := map repeat_byte [x01; x02; x03; x04].
Definition keyed_auths : AuthoritiesList := mkAuthorities (@pair_of_authority keyed_chain <$> keyed_ids).

(** The first three authorities have signed. *)
Definition keyed_view : proof_view := λ e k,
  if bool_decide (e = repeat_byte x2a) && bool_decide (k ∈ take 3 (authorities keyed_auths))
  then Some (pair_public k ++ as_bytes e) else None.

Lemma keyed_view_valid : proofs_valid keyed_view.
Proof.
  intros e k s. unfold keyed_view. destruct (bool_decide (e = repeat_byte x2a)); [|done].
  case_bool_decide as Hk; [|done]. intros [= <-].
  assert (length (pair_public k) = 32) as Hlen.
  { apply (Forall_forall (λ k, length (pair_public k) = 32) (take 3 (authorities keyed_auths)));
      [repeat constructor|done]. }
  exists (pair_public k), (pair_public k ++ as_bytes e). cbn. rewrite length_app, as_bytes_length, Hlen.
  split_and!; [done..|]. by apply bool_decide_eq_true_2.
Qed.

Lemma keyed_gathered :
  gathered false keyed_view keyed_auths (repeat_byte x2a) (Some (toy_proofs [x01; x02; x03])).
Proof.
  exists (toy_proofs [x01; x02; x03]). split; [done|]. split.
  - intros pk sg Hpk%elem_of_list_to_map_2. apply list_elem_of_fmap in Hpk as (b & [= -> ->] & Hb).
    assert (@pair_of_authority keyed_chain (repeat_byte b) ∈ take 3 (authorities keyed_auths)) as Hk.
    { change (take 3 (authorities keyed_auths)) with
        ((λ b, @pair_of_authority keyed_chain (repeat_byte b)) <$> [x01; x02; x03]).
      by apply (list_elem_of_fmap_2 (λ b, @pair_of_authority keyed_chain (repeat_byte b))). }
    exists (@pair_of_authority keyed_chain (repeat_byte b)), (toy_sign b (repeat_byte x2a)). split_and!.
    + by eapply elem_of_take in Hk as (i & Hi & _); apply list_elem_of_lookup_2 in Hi.
    + unfold keyed_view. by rewrite (bool_decide_eq_true_2 _ Hk).
    + reflexivity.
  - apply Forall_forall.
    repeat (constructor; [eexists; split; [reflexivity|]; by apply (bool_decide_eq_true_1 (is_Some _)); vm_compute|]).
    constructor.
Qed.

Lemma keyed_wf : wf_authorities keyed_auths.
Proof.
  split; [|vm_compute; discriminate].
  apply (bool_decide_eq_true_1 (NoDup _)). vm_compute. reflexivity.
Qed.

Lemma submitted_event_is_validated_witness :
  on_validate_event_impl true (repeat_byte x2a) (Some (toy_proofs [x01; x02; x03])) toy_on_genesis =
  Ret (Ok tt, mkPallet (sm_insert (repeat_byte x2a) (toy_proofs [x01; x02; x03]) ∅)
                       (system_deposit_event (repeat_byte x2a) toy_sys)).
Proof.
  destruct (submitted_event_is_validated true keyed_view keyed_ids (repeat_byte x2a)
    (toy_proofs [x01; x02; x03]) toy_on_genesis) as [_ H].
  - exact gmap_storage_laws.
  - exact keyed_wf.
  - vm_compute. lia.
  - reflexivity.
  - reflexivity.
  - exact keyed_view_valid.
  - vm_compute. discriminate.
  - exact keyed_gathered.
  - exact H.
Defined.
