(* ===== verification/RuntimeApi.v ===== *)
(** * The runtime's APIs and the execution of blocks

    [runtime/src/lib.rs]: the configuration of the pallet in the runtime (its
    authorities are those of Aura), the runtime APIs that the node calls at a
    block, and what the extrinsics of a block do to the recorded events.
    [frame_executive] and [pallet_aura] are interfaces with their documented
    behaviour.  The theorems connect the node with the chain: what an imported
    block records was witnessed, and what a node submits is recorded. *)

From stdpp Require Import base decidable list gmap strings.
From Stdlib Require Import Strings.Byte ZArith Lia.
From S2P Require Import Prelude Errors Proofs State Authorities EventGossip BlockImport Pallet Runtime.

(** ** The types of the runtime's chain *)

Class RuntimeTypes := {
  BlockHash : Type;
  block_hash_eq_dec :: EqDecision BlockHash;
  AuraId : Type;
  pair_of_aura : AuraId → CryptoTypePublicPair;
  RuntimeApiError : Type;
  runtime_api_error_display :: Display RuntimeApiError
}.

(** The extrinsics of the chain are those of the runtime. *)
#[export] Instance runtime_chain `{RuntimeTypes} `{Sr25519} : ChainTypes := {|
  Hash := BlockHash;
  AuthorityId := AuraId;
  pair_of_authority := pair_of_aura;
  Extrinsic := UncheckedExtrinsic;
  ApiError := RuntimeApiError
|}.

(** ** The configuration of the pallet *)

(** What the runtime keeps outside this pallet: [frame_system] and [pallet_aura]. *)
Class RuntimeSystem (Sys : Type) `{RuntimeTypes} := {
  frame_block_number : Sys → Z;
  frame_deposit_event : H256 → Sys → Sys;
  aura_authorities : Sys → list AuraId;
  aura_slot_duration : Sys → Z
}.

(** Documented behaviour: [Aura::authorities] is a [BoundedVec] of at most
    [MaxAuthorities] keys, depositing an event does not change it, and
    [Aura::slot_duration] is twice the minimum period of the timestamp. *)
Class RuntimeSystemLaws (Sys : Type) `{RuntimeSystem Sys} : Prop := {
  aura_authorities_bounded s : length (aura_authorities s) ≤ AuraMaxAuthorities;
  aura_authorities_deposit e s : aura_authorities (frame_deposit_event e s) = aura_authorities s;
  aura_slot_duration_eq s : aura_slot_duration s = (MinimumPeriod * 2)%Z
}.

Section Config.
Context `{RuntimeTypes} `{Sr25519} {Sys : Type} `{!RuntimeSystem Sys}.
Context (to_raw_vec : AuraId → list byte).

(** [impl pallet_validated_streams::Config for Runtime]: [authorities] is
    [Aura::authorities()]; the pallet reads the keys as raw bytes. *)
Definition runtime_config : FrameSystem Sys := {|
  system_block_number := frame_block_number;
  config_authorities s := to_raw_vec <$> aura_authorities s;
  system_deposit_event := frame_deposit_event
|}.

End Config.

(** ** The runtime APIs *)

Section Apis.
Context `{RuntimeTypes} `{Sr25519} {St Sys : Type} `{!RuntimeSystem Sys}.

(** [sp_api::Core::version] *)
Definition core_version : RuntimeVersion := VERSION.

(** [AuraApi::slot_duration], in milliseconds, and [AuraApi::authorities]. *)
Definition aura_api_slot_duration (s : pallet_state St Sys) : Z := aura_slot_duration (system s).
Definition aura_api_authorities (s : pallet_state St Sys) : list AuraId := aura_authorities (system s).

(** [GrandpaApi]: equivocations are not reported on chain, and there are no proofs
    of key ownership. *)
Definition submit_report_equivocation_unsigned_extrinsic {P Q : Type} (_equivocation_proof : P)
    (_key_owner_proof : Q) : option unit := None.
Definition generate_key_ownership_proof {Id Proof : Type} (_set_id : Z) (_authority_id : Id) :
    option Proof := None.

End Apis.

(** ** Executing extrinsics *)

Inductive DispatchError : Type :=
| ModuleError (e : PalletError)
| OtherDispatchError.

(** [frame_executive::Executive] *)
Class Executive (St Sys : Type) `{Sr25519} := {
  exec_apply_extrinsic : UncheckedExtrinsic → pallet_state St Sys →
    outcome (result InvalidTransaction (result DispatchError unit) * pallet_state St Sys);
  exec_validate_transaction : TransactionSource → UncheckedExtrinsic → pallet_state St Sys →
    result InvalidTransaction ValidTransaction
}.

Section Executive.
Context `{RuntimeTypes} `{Sr25519} {V St Sys : Type} `{!RuntimeSystem Sys} `{!PalletMode V St Sys}.
Context (encode_call : Call → list byte).
Context `{!Executive St Sys}.

(** [BlockBuilder::apply_extrinsic] and [TaggedTransactionQueue::validate_transaction]
    hand over to the executive. *)
Definition apply_extrinsic (extrinsic : UncheckedExtrinsic) (s : pallet_state St Sys) :
    outcome (result InvalidTransaction (result DispatchError unit) * pallet_state St Sys) :=
  exec_apply_extrinsic extrinsic s.
Definition validate_transaction (source : TransactionSource) (tx : UncheckedExtrinsic)
    (s : pallet_state St Sys) : result InvalidTransaction ValidTransaction :=
  exec_validate_transaction source tx s.

(** The extrinsics of a block, in order; an invalid one makes the block invalid. *)
Fixpoint apply_extrinsics (exts : list UncheckedExtrinsic) (s : pallet_state St Sys) :
    outcome (result InvalidTransaction (pallet_state St Sys)) :=
  match exts with
  | [] => Ret (Ok s)
  | ext :: rest =>
      '(r, s') ← apply_extrinsic ext s;
      match r with
      | Ok _ => apply_extrinsics rest s'
      | Err i => Ret (Err i)
      end
  end.

(** Documented behaviour of the executive, as far as the events on record are
    concerned.  An extrinsic of this pallet that is included was dispatched,
    after the checks and fees that come before a call: an unsigned one only if
    [validate_unsigned] accepts it in a block.  An extrinsic of another pallet,
    made by an account or by none, cannot write this pallet's storage.  (A call
    through [Sudo] has the rights of the root and is not restricted.) *)
Class ExecutiveLaws : Prop := {
  exec_pallet_call ext e p s d s' :
    function ext = ValidatedStreamsCall (ValidateEvent e p) →
    exec_apply_extrinsic ext s = Ret (Ok d, s') →
    ∃ s0 r s1, streams s0 = streams s ∧
      frame_block_number (system s0) = frame_block_number (system s) ∧
      aura_authorities (system s0) = aura_authorities (system s) ∧
      (extrinsic_signature ext = None →
       ∃ v, validate_unsigned encode_call InBlock (ValidateEvent e p) s = Ok v) ∧
      validate_event e p s0 = Ret (r, s1) ∧ d = map_err ModuleError r ∧
      streams s' = streams s1 ∧
      frame_block_number (system s') = frame_block_number (system s1) ∧
      aura_authorities (system s') = aura_authorities (system s1);
  exec_other_call ext s d s' :
    (∀ c, function ext ≠ ValidatedStreamsCall (c : Call)) → (∀ c, function ext ≠ SudoCall c) →
    exec_apply_extrinsic ext s = Ret (Ok d, s') → streams s' = streams s;
  exec_ignore_call ext s d s' :
    function ext = ValidatedStreamsCall IgnoreCall →
    exec_apply_extrinsic ext s = Ret (Ok d, s') → streams s' = streams s
}.

End Executive.

(** ** What a block records *)

Definition no_sudo `{Sr25519} (exts : list UncheckedExtrinsic) : Prop :=
  Forall (λ ext, ∀ c, function ext ≠ SudoCall c) exts.

Section Blocks.
Context `{RuntimeTypes} `{Sr25519} {St Sys : Type} `{!RuntimeSystem Sys}.
Context (to_raw_vec : AuraId → list byte) (encode_call : Call → list byte).
Context `{!StorageMap H256 Z St} `{!StorageMapLaws H256 Z St}.

(** The pallet in this runtime, with off-chain proofs. *)
#[local] Instance off_runtime : PalletMode Z St Sys :=
  off_chain_mode (H0 := runtime_config to_raw_vec).
Context `{!Executive St Sys} `{!ExecutiveLaws encode_call}.

Abbreviation recorded_in s e := (is_Some (sm_get e (streams s))).

(** With off-chain proofs, an included call records its event unless it is on
    record already. *)
Lemma off_call_records e p (s0 : pallet_state St Sys) r s1 :
  validate_event e p s0 = Ret (r, s1) →
  ∀ e', recorded_in s1 e' ↔ recorded_in s0 e' ∨ e' = e.
Proof.
  unfold validate_event. cbn. unfold off_validate_event_impl. rewrite sm_contains_key_get.
  case_bool_decide as Hd; intros [= _ <-] e'; [naive_solver|]. cbn.
  destruct (decide (e' = e)) as [->|Hne].
  - rewrite sm_get_insert_eq. naive_solver.
  - rewrite sm_get_insert_ne by done. naive_solver.
Qed.

Lemma apply_extrinsic_records ext (s : pallet_state St Sys) d s' :
  (∀ c, function ext ≠ SudoCall c) →
  apply_extrinsic ext s = Ret (Ok d, s') →
  ∀ e, recorded_in s' e ↔ recorded_in s e ∨ e ∈ get_extrinsic_ids [ext].
Proof.
  intros Hsudo Hrun e. unfold apply_extrinsic in Hrun. cbn [get_extrinsic_ids].
  destruct (function ext) as [| | | |call|[e0 p|]] eqn:Hf.
  6: { destruct (exec_pallet_call encode_call ext e0 p s d s' Hf Hrun)
         as (s0 & r & s1 & Hs0 & _ & _ & _ & Hcall & _ & Hs' & _).
       rewrite Hs', (off_call_records e0 p s0 r s1 Hcall), Hs0, list_elem_of_singleton. done. }
  6: { rewrite (exec_ignore_call encode_call ext s d s' Hf Hrun), elem_of_nil. tauto. }
  5: by destruct (Hsudo call).
  all: rewrite (exec_other_call encode_call ext s d s'), elem_of_nil; [tauto|..]; try done;
    intros c; rewrite Hf; discriminate.
Qed.

Lemma get_extrinsic_ids_cons ext exts :
  get_extrinsic_ids (ext :: exts) = get_extrinsic_ids [ext] ++ get_extrinsic_ids exts.
Proof. apply (get_extrinsic_ids_app [ext] exts). Qed.

Lemma apply_extrinsics_records exts (s s' : pallet_state St Sys) :
  no_sudo exts → apply_extrinsics exts s = Ret (Ok s') →
  ∀ e, recorded_in s' e ↔ recorded_in s e ∨ e ∈ get_extrinsic_ids exts.
Proof.
  intros Hns. revert s. induction Hns as [|ext exts Hext _ IH]; intros s Hrun e.
  { injection Hrun as <-. cbn. rewrite elem_of_nil. tauto. }
  cbn [apply_extrinsics] in Hrun. destruct (apply_extrinsic ext s) as [[[d|i] s1]| |] eqn:Hext1; [|done..].
  rewrite outcome_ret_bind in Hrun.
  rewrite (IH s1 Hrun e), (get_extrinsic_ids_cons ext exts), elem_of_app,
    (apply_extrinsic_records ext s d s1 Hext Hext1 e).
  tauto.
Qed.

(** C21: with off-chain proofs, executing a block without [Sudo] calls records
    exactly the events that [get_extrinsic_ids] reads from its extrinsics, next to
    those on record before: the list that the block import checks is the list of what
    the block does. *)
Theorem block_records_its_ids (exts : list UncheckedExtrinsic) (s s' : pallet_state St Sys) :
  no_sudo exts → apply_extrinsics exts s = Ret (Ok s') →
  ∀ e, off_is_event_valid e s' = true ↔
       off_is_event_valid e s = true ∨ e ∈ get_extrinsic_ids exts.
Proof.
  intros Hns Hrun e. unfold off_is_event_valid. rewrite !sm_contains_key_get, !bool_decide_eq_true.
  by apply apply_extrinsics_records.
Qed.

(** ** From the record back to the witnesses *)

Context {Cache : Type} `{LruCacheLaws Hash AuthoritiesList Cache}.
Context {Store Pool Order : Type} `{EventProofsSpec Store}.
Context {I ImportResult CheckParams : Type} `{!BlockImportOps I ImportResult CheckParams}.
Abbreviation node := (node_state Store Cache Pool Order).

(** The client calls this runtime at the blocks it knows. *)
Definition serves (client : Client) (state_at : Hash → option (pallet_state St Sys)) : Prop :=
  ∀ h, match state_at h with
       | Some s => api_authorities client h = Ok (aura_api_authorities s) ∧
                   (∀ exts, api_get_extrinsic_ids client h exts = Ok (get_extrinsic_ids exts)) ∧
                   (∀ e p, api_create_unsigned_extrinsic client h e p = Ok (create_unsigned_extrinsic e p))
       | None => ∃ err, api_authorities client h = Err err
       end.

(** The authorities of a state that the node uses. *)
Definition aura_list (s : pallet_state St Sys) : AuthoritiesList :=
  mkAuthorities (pair_of_aura <$> aura_api_authorities s).

Lemma serves_authorities client state_at h s :
  serves client state_at → state_at h = Some s → authorities_at client h = Ok (aura_list s).
Proof.
  intros Hs Hh. specialize (Hs h). rewrite Hh in Hs. destruct Hs as (Ha & _).
  unfold authorities_at. by rewrite Ha.
Qed.

(** Well-formed lists of authorities come from Aura's bound, if no authority is
    listed twice. *)
Lemma serves_client_ok `{!RuntimeSystemLaws Sys} client state_at :
  serves client state_at →
  (∀ h s, state_at h = Some s → NoDup (pair_of_aura <$> aura_authorities (system s))) →
  client_ok client.
Proof.
  intros Hs Hnd h auths Ha. pose proof (Hs h) as Hh. destruct (state_at h) as [s|] eqn:Es.
  - rewrite (serves_authorities client state_at h s Hs Es) in Ha. injection Ha as <-.
    split; [by eapply Hnd|]. cbn. rewrite length_fmap. unfold aura_api_authorities.
    pose proof (aura_authorities_bounded (system s)) as Hb. unfold AuraMaxAuthorities, u16_max in *. lia.
  - destruct Hh as [err E]. unfold authorities_at in Ha. by rewrite E in Ha.
Qed.

(** C8: with off-chain proofs, a node that is not catching up lets onto its chain
    only witnessed events.  When it imports a block (without [Sudo] calls) on a
    parent whose state it knows, each event that the block adds to the record
    has, in the node's own store, valid signatures by at least [target] distinct
    authorities of Aura in the parent's state. *)
Theorem imported_block_records_witnessed `{!RuntimeSystemLaws Sys} client state_at
    (block : BlockImportParams) exts (self : ValidatedStreamsBlockImport I) (n : node) r self' n' s s' :
  serves client state_at →
  (∀ h s, state_at h = Some s → NoDup (pair_of_aura <$> aura_authorities (system s))) →
  node_ok client n → sync_service self = SyncReady false →
  body block = Some exts → no_sudo exts → state_at (parent_hash block) = Some s →
  import_block client block self n = Ret (Ok r, (self', n')) →
  apply_extrinsics exts s = Ret (Ok s') →
  ∀ e, off_is_event_valid e s = false → off_is_event_valid e s' = true →
  ∃ ks, NoDup ks ∧ (target (aura_list s) ≤ Z.of_nat (length ks))%Z ∧
    Forall (λ k, k ∈ authorities (aura_list s) ∧
      ∃ sg, ep_view (event_proofs n) e k = Some sg ∧ valid_signature e k sg) ks.
Proof.
  intros Hs Hnd Hn Hsync Hbody Hns Hstate Himp Hrun e Hnew Hrec.
  unfold off_is_event_valid in Hnew, Hrec. rewrite sm_contains_key_get in Hnew, Hrec.
  apply bool_decide_eq_false_1 in Hnew. apply bool_decide_eq_true_1 in Hrec.
  apply (apply_extrinsics_records exts s s' Hns Hrun) in Hrec as [?|Hin]; [done|].
  eapply imported_event_signers; [done|by eapply serves_client_ok|done|done|..].
  - by eapply serves_authorities.
  - unfold block_events. rewrite Hbody. specialize (Hs (parent_hash block)). rewrite Hstate in Hs.
    destruct Hs as (_ & Hids & _). by rewrite Hids.
Qed.

End Blocks.

(** ** From a quorum to the record, with on-chain proofs *)

Section Submitted.
Context `{Bincode} `{RuntimeTypes} `{Sr25519} `{!AuthorityKeys} {St Sys : Type} `{!RuntimeSystem Sys}.
Context (encode_call : Call → list byte) (overflow_checks : bool).
Context `{!StorageMap H256 ProofsMap St} `{!StorageMapLaws H256 ProofsMap St}.

(** The pallet in this runtime, with on-chain proofs. *)
#[local] Instance on_config : FrameSystem Sys := runtime_config to_raw_vec.
#[local] Instance on_runtime : PalletMode ProofsMap St Sys := on_chain_mode overflow_checks.
Context `{!Executive St Sys} `{!ExecutiveLaws encode_call} `{!RuntimeSystemLaws Sys}.

(** C9: with on-chain proofs, what the gossip handler submits is recorded when it
    is included.  When an event has a quorum among the authorities of the state
    at a node's finalized block, the extrinsic that the runtime at its best
    block builds from the proofs the handler gathers, included in a block whose
    state has the same Aura authorities and does not have the event yet, is
    dispatched successfully and records the event with exactly those proofs. *)
Theorem submitted_event_is_recorded client (state_at : Hash → option (pallet_state St Sys)) sf sb s v e
    (p : gmap Public SrSignature) ext d s' :
  serves client state_at →
  state_at (finalized_hash client) = Some sf → state_at (best_hash client) = Some sb →
  NoDup (pair_of_aura <$> aura_authorities (system sf)) →
  aura_authorities (system s) = aura_authorities (system sf) →
  sm_get e (streams s) = None →
  proofs_valid v → has_quorum v (aura_list sf) e → gathered false v (aura_list sf) e (Some p) →
  api_create_unsigned_extrinsic client (best_hash client) e (Some p) = Ok ext →
  apply_extrinsic ext s = Ret (Ok d, s') →
  d = Ok tt ∧ sm_get e (streams s') = Some p ∧ on_is_event_valid e s' = true.
Proof.
  intros Hserv Hf Hb Hnd Hsame Hnew Hv Hq Hg Hext Hrun.
  pose proof (Hserv (best_hash client)) as Hsb. rewrite Hb in Hsb. destruct Hsb as (_ & _ & Hcreate).
  rewrite Hcreate in Hext. injection Hext as <-.
  pose proof (aura_authorities_bounded (system sf)) as Hlen.
  assert (wf_authorities (aura_list sf)) as Hwf.
  { split; [exact Hnd|]. cbn. rewrite length_fmap. unfold aura_api_authorities.
    unfold AuraMaxAuthorities, u16_max in *. lia. }
  assert (∀ s0, streams s0 = streams s → aura_authorities (system s0) = aura_authorities (system s) →
    create_unsigned_extrinsic e (Some p) =
      mkExtrinsic None (ValidatedStreamsCall (ValidateEvent e (Some p))) ∧
    on_admits s0 e (Some p) = Ok p ∧
    on_sys_wf (system s0)) as Hadm.
  { intros s0 Hs0 Ha0.
    destruct (submission_admitted v
      (aura_authorities (system sf) : list (@AuthorityId runtime_chain)) e p s0) as [Hc Ha]; try done.
    - cbn. by rewrite Ha0, Hsame.
    - by rewrite Hs0.
    - split_and!; [done..|]. unfold on_sys_wf. cbn. apply Forall_fmap, Forall_true.
      intros id. apply to_raw_vec_length. }
  destruct (Hadm s eq_refl eq_refl) as (Hc & _). rewrite Hc in Hrun.
  destruct (exec_pallet_call encode_call
    (mkExtrinsic None (ValidatedStreamsCall (ValidateEvent e (Some p)))) e (Some p) s d s' eq_refl Hrun)
    as (s0 & r & s1 & Hs0 & _ & Ha0 & _ & Hcall & -> & Hs' & _).
  destruct (Hadm s0 Hs0 Ha0) as (_ & Hok & Hsys).
  change (on_validate_event_impl overflow_checks e (Some p) s0 = Ret (r, s1)) in Hcall.
  rewrite on_validate_event_spec, Hok in Hcall; [|done|].
  - injection Hcall as <- <-. split; [done|].
    assert (sm_get e (streams s') = Some p) as Hget by (rewrite Hs'; cbn; apply sm_get_insert_eq).
    split; [done|]. unfold on_is_event_valid. rewrite sm_contains_key_get.
    apply bool_decide_eq_true_2. by rewrite Hget.
  - intros p' [= <-]. unfold create_unsigned_extrinsic, try_bound in Hc. cbn in Hc.
    case_decide as Hsize; [|done]. unfold VSMaxAuthorities, u16_max in *. lia.
Qed.

End Submitted.

(** ** Time *)

Section Time.
Context `{RuntimeTypes} {St Sys : Type} `{RuntimeSystemLaws Sys}.

(** The slot that Aura announces is the intended block time, and the units of
    time, which count blocks, are what their names say. *)
Lemma slot_is_block_time (s : pallet_state St Sys) :
  aura_api_slot_duration s = MILLISECS_PER_BLOCK ∧
  (MINUTES * MILLISECS_PER_BLOCK = 60 * 1000)%Z ∧
  (HOURS * MILLISECS_PER_BLOCK = 3600 * 1000)%Z ∧
  (DAYS * MILLISECS_PER_BLOCK = 24 * 3600 * 1000)%Z.
Proof. unfold aura_api_slot_duration. by rewrite aura_slot_duration_eq. Qed.

End Time.

(** ** Witnesses: a runtime whose executive runs unsigned calls of the pallet *)

From S2P Require Import InMemory Concrete.
Import Codec.

#[local] Instance text_display : Display string := λ s, s.

#[local] Instance toy_runtime : RuntimeTypes := {|
  BlockHash := nat;
  AuraId := H256;
  pair_of_aura id := mkPair (x73, x72, x32, x35) (as_bytes id);
  RuntimeApiError := string
|}.

(** The chain of this runtime, rather than that of [Concrete]. *)
#[local] Existing Instance runtime_chain | 0.

Record toy_sys_state := mkToySys { toy_height : Z; toy_aura : list H256; toy_deposits : list H256 }.

#[local] Instance toy_runtime_system : RuntimeSystem toy_sys_state := {|
  frame_block_number := toy_height;
  frame_deposit_event e s := mkToySys (toy_height s) (toy_aura s) (toy_deposits s ++ [e]);
  aura_authorities s := take 32 (toy_aura s);
  aura_slot_duration _ := (MinimumPeriod * 2)%Z
|}.

#[local] Instance toy_runtime_system_laws : RuntimeSystemLaws toy_sys_state.
Proof. split; [|done..]. intros s. cbn. rewrite length_take. unfold AuraMaxAuthorities. lia. Qed.

Definition aura_raw_vec (id : AuraId) : list byte := as_bytes id.

#[local] Program Instance toy_keys : AuthorityKeys := {|
  crypto_id := (x73, x72, x32, x35);
  to_raw_vec := aura_raw_vec
|}.
Next Obligation. done. Qed.
Next Obligation. intros id. apply as_bytes_length. Qed.
Next Obligation. intros h. cbn. by rewrite as_bytes_length. Qed.
Next Obligation. intros h h'. cbn. apply h256_ext. Qed.

Section ToyExecutive.
Context {V St : Type} `{!PalletMode V St toy_sys_state}.
Context (encode_call : Call → list byte).

#[local] Instance toy_executive : Executive St toy_sys_state := {|
  exec_apply_extrinsic ext s :=
    match function ext, extrinsic_signature ext with
    | ValidatedStreamsCall (ValidateEvent e p), None =>
        match validate_unsigned encode_call InBlock (ValidateEvent e p) s with
        | Ok _ => '(r, s') ← validate_event e p s; Ret (Ok (map_err ModuleError r), s')
        | Err i => Ret (Err i, s)
        end
    | ValidatedStreamsCall _, _ | SudoCall _, _ => Ret (Err InvalidCall, s)
    | _, _ => Ret (Ok (Ok tt), s)
    end;
  exec_validate_transaction source ext s :=
    match function ext with
    | ValidatedStreamsCall c => validate_unsigned encode_call source c s
    | _ => Err InvalidCall
    end
|}.

Lemma toy_executive_laws : ExecutiveLaws encode_call.
Proof.
  split.
  - intros ext e p s d s' Hf. cbn [exec_apply_extrinsic toy_executive]. rewrite Hf.
    destruct (extrinsic_signature ext) eqn:Hsig; [done|].
    destruct (validate_unsigned encode_call InBlock (ValidateEvent e p) s) as [v|] eqn:Hv; [|done].
    destruct (validate_event e p s) as [[r s1]| |] eqn:Hc; [|done..].
    rewrite outcome_ret_bind. intros [= <- <-]. exists s, r, s1. split_and!; try done. by exists v.
  - intros ext s d s' Hp Hs. cbn [exec_apply_extrinsic toy_executive].
    destruct (function ext) as [| | | |c|c]; [by intros [= _ <-]..| |].
    + by destruct (Hs c).
    + by destruct (Hp c).
  - intros ext s d s' Hf. cbn [exec_apply_extrinsic toy_executive]. rewrite Hf. done.
Qed.

End ToyExecutive.

Definition toy_encode (c : Call) : list byte := [x00].
Definition four_ids : list H256 := repeat_byte <$> [x01; x02; x03; x04].
Definition toy_block_state {V} : pallet_state (gmap H256 V) toy_sys_state :=
  mkPallet ∅ (mkToySys 6%Z four_ids []).

Definition toy_state_at {V} (h : nat) : option (pallet_state (gmap H256 V) toy_sys_state) :=
  if bool_decide (h < 9) then Some toy_block_state else None.

Definition runtime_client : Client := {|
  best_hash := (7 : Hash);
  finalized_hash := (5 : Hash);
  finalized_number := 5%Z;
  api_authorities (h : Hash) :=
    if bool_decide (h < 9) then Ok four_ids else Err ("unknown block" : ApiError);
  api_get_extrinsic_ids _ exts := Ok (get_extrinsic_ids exts);
  api_create_unsigned_extrinsic _ e p := Ok (create_unsigned_extrinsic e p)
|}.

Lemma runtime_client_serves {V} : serves runtime_client (toy_state_at (V := V)).
Proof.
  intros h. unfold toy_state_at. cbn. case_bool_decide; [|by eexists]. split_and!; done.
Qed.

Lemma toy_state_NoDup {V} h (s : pallet_state (gmap H256 V) toy_sys_state) :
  toy_state_at h = Some s → NoDup (pair_of_aura <$> aura_authorities (system s)).
Proof.
  unfold toy_state_at. case_bool_decide; [|done]. intros [= <-].
  apply (bool_decide_eq_true_1 (NoDup _)). vm_compute. reflexivity.
Qed.

(** A block that sets the time and records an event. *)
Definition toy_exts : list UncheckedExtrinsic :=
  [mkExtrinsic None (TimestampCall [x07]); create_unsigned_extrinsic (repeat_byte x2a) None].

Lemma toy_exts_no_sudo : no_sudo toy_exts.
Proof. repeat constructor; discriminate. Qed.

#[local] Instance toy_off_mode : PalletMode Z (gmap H256 Z) toy_sys_state := off_runtime aura_raw_vec.
#[local] Instance toy_off_executive : Executive (gmap H256 Z) toy_sys_state := toy_executive toy_encode.
Definition toy_off_laws : ExecutiveLaws (PalletMode0 := toy_off_mode) toy_encode :=
  toy_executive_laws toy_encode.

Lemma toy_exts_applied :
  match apply_extrinsics toy_exts (toy_block_state (V := Z)) with
  | Ret (Ok s') => off_is_event_valid (repeat_byte x2a) s' | _ => false
  end = true.
Proof. vm_compute. reflexivity. Qed.

Lemma block_records_its_ids_witness :
  ∃ s', apply_extrinsics toy_exts (toy_block_state (V := Z)) = Ret (Ok s') ∧
    off_is_event_valid (repeat_byte x2a) s' = true ∧
    ∀ e, off_is_event_valid e s' = true ↔
         off_is_event_valid e (toy_block_state (V := Z)) = true ∨ e ∈ get_extrinsic_ids toy_exts.
Proof.
  pose proof toy_exts_applied as E.
  destruct (apply_extrinsics toy_exts (toy_block_state (V := Z))) as [[s'|]| |] eqn:Hrun;
    [|discriminate E..].
  exists s'. split; [reflexivity|]. split; [exact E|].
  apply (block_records_its_ids (ExecutiveLaws0 := toy_off_laws) aura_raw_vec toy_encode toy_exts
    toy_block_state s').
  - exact toy_exts_no_sudo.
  - exact Hrun.
Defined.

(** A node of this chain that has received the signatures of three authorities. *)
#[local] Instance toy_runtime_pool : TxPool (list H256) := {|
  submit_local _ ext pool := (Ok tt, pool ++ get_extrinsic_ids [ext]);
  pool_error_text _ := "pool error"
|}.

Definition runtime_node : node_state InMemoryEventProofs (lru nat AuthoritiesList) (list H256) (list byte) :=
  mkNode (mkMutex false (mkLru 4 [])) in_memory_new [] (mkChannel true []).

Lemma runtime_node_ok : node_ok runtime_client runtime_node.
Proof. split; [split; done|reflexivity|done]. Qed.

Lemma runtime_client_wf : client_ok runtime_client.
Proof.
  apply (serves_client_ok runtime_client (toy_state_at (V := Z))).
  - exact runtime_client_serves.
  - exact toy_state_NoDup.
Qed.

Definition runtime_message (b : byte) : list byte :=
  encode_event (mkWitnessed (toy_sign b (repeat_byte x2a)) (pair_of_aura (repeat_byte b)) (repeat_byte x2a)).

Definition runtime_run :=
  handle_all true runtime_client (runtime_message <$> [x01; x02; x03]) runtime_node.

#[local] Instance runtime_import : BlockImportOps (list nat) bool nat := {|
  inner_check_block h i := Ret (Ok true, i);
  inner_import_block b i := Ret (Ok true, (parent_hash b : nat) :: i)
|}.

Definition runtime_block : BlockImportParams := mkBlock (5 : Hash) (Some toy_exts).
Definition runtime_importer : ValidatedStreamsBlockImport (list nat) :=
  send_sync_service false (block_import_new []).

Lemma runtime_import_accepts :
  match (n ← runtime_run; import_block runtime_client runtime_block runtime_importer n) with
  | Ret (Ok true, _) => true | _ => false
  end = true.
Proof. vm_compute. reflexivity. Qed.

Lemma imported_block_records_witnessed_witness :
  ∃ n s', runtime_run = Ret n ∧ apply_extrinsics toy_exts (toy_block_state (V := Z)) = Ret (Ok s') ∧
    off_is_event_valid (repeat_byte x2a) s' = true ∧
    ∃ ks, NoDup ks ∧ (target (aura_list (toy_block_state (V := Z))) ≤ Z.of_nat (length ks))%Z ∧
      Forall (λ k, k ∈ authorities (aura_list (toy_block_state (V := Z))) ∧
        ∃ sg, ep_view (event_proofs n) (repeat_byte x2a) k = Some sg ∧
              valid_signature (repeat_byte x2a) k sg) ks.
Proof.
  destruct (handle_all_signed true runtime_client (runtime_message <$> [x01; x02; x03])
    (aura_list (toy_block_state (V := Z))) runtime_node) as (n & Hn & Hok & _);
    [exact runtime_node_ok|exact runtime_client_wf|reflexivity|].
  pose proof runtime_import_accepts as E. change runtime_run with
    (handle_all true runtime_client (runtime_message <$> [x01; x02; x03]) runtime_node) in E.
  rewrite Hn, outcome_ret_bind in E.
  destruct (import_block runtime_client runtime_block runtime_importer n)
    as [[[[]|] [i n']]| |] eqn:Himp; [|discriminate E..].
  pose proof toy_exts_applied as Ex.
  destruct (apply_extrinsics toy_exts (toy_block_state (V := Z))) as [[s'|]| |] eqn:Hrun;
    [|discriminate Ex..].
  exists n, s'. split; [exact Hn|]. split; [reflexivity|]. split; [exact Ex|].
  apply (imported_block_records_witnessed (ExecutiveLaws0 := toy_off_laws) aura_raw_vec toy_encode
    runtime_client toy_state_at runtime_block toy_exts runtime_importer n true i n'
    toy_block_state s').
  - exact runtime_client_serves.
  - exact toy_state_NoDup.
  - exact Hok.
  - reflexivity.
  - reflexivity.
  - exact toy_exts_no_sudo.
  - reflexivity.
  - exact Himp.
  - exact Hrun.
  - reflexivity.
  - exact Ex.
Defined.

(** With on-chain proofs, the same event with the proofs of three authorities. *)
#[local] Instance toy_on_mode : PalletMode ProofsMap (gmap H256 ProofsMap) toy_sys_state :=
  on_runtime true.
#[local] Instance toy_on_executive : Executive (gmap H256 ProofsMap) toy_sys_state :=
  toy_executive toy_encode.
Definition toy_on_laws : ExecutiveLaws (PalletMode0 := toy_on_mode) toy_encode :=
  toy_executive_laws toy_encode.
Definition toy_on_state : pallet_state (gmap H256 ProofsMap) toy_sys_state := toy_block_state.
Definition three_proofs : gmap Public SrSignature := toy_proofs [x01; x02; x03].

Lemma toy_on_applied :
  match apply_extrinsic (create_unsigned_extrinsic (repeat_byte x2a) (Some three_proofs)) toy_on_state with
  | Ret (Ok (Ok tt), s') => bool_decide (sm_get (repeat_byte x2a) (streams s') = Some three_proofs)
  | _ => false
  end = true.
Proof. vm_compute. reflexivity. Qed.

Lemma submitted_event_is_recorded_witness :
  ∃ d s', apply_extrinsic (create_unsigned_extrinsic (repeat_byte x2a) (Some three_proofs)) toy_on_state =
      Ret (Ok d, s') ∧
    d = Ok tt ∧ sm_get (repeat_byte x2a) (streams s') = Some three_proofs ∧
    on_is_event_valid (repeat_byte x2a) s' = true.
Proof.
  pose proof toy_on_applied as E.
  destruct (apply_extrinsic (create_unsigned_extrinsic (repeat_byte x2a) (Some three_proofs)) toy_on_state)
    as [[[d|] s']| |] eqn:Hrun; [|discriminate E..].
  exists d, s'. split; [reflexivity|].
  apply (submitted_event_is_recorded (ExecutiveLaws0 := toy_on_laws) toy_encode true
    runtime_client toy_state_at toy_on_state toy_on_state toy_on_state keyed_view (repeat_byte x2a)
    three_proofs (create_unsigned_extrinsic (repeat_byte x2a) (Some three_proofs)) d s').
  - exact runtime_client_serves.
  - reflexivity.
  - reflexivity.
  - exact (toy_state_NoDup 5 toy_on_state eq_refl).
  - reflexivity.
  - reflexivity.
  - exact keyed_view_valid.
  - vm_compute. discriminate.
  - exact keyed_gathered.
  - reflexivity.
  - exact Hrun.
Defined.
