(* ===== verification/RuntimeServices.v ===== *)
(** * The services of the runtime around the events

    [runtime/src/lib.rs]: the session keys, the fees, the inherents, the offchain
    worker and the metadata, and the APIs of the features [runtime-benchmarks] and
    [try-runtime].  The FRAME pallets and the keystore are interfaces.  What bears
    on events: the extrinsic that a node submits for an event costs nothing, and
    the keys that a validator generates are those that it is known by. *)

From stdpp Require Import base decidable list gmap strings.
From Stdlib Require Import Strings.Byte ZArith Lia.
From S2P Require Import Prelude Errors State Pallet Runtime.

(** ** Session keys *)

(** [opaque::SessionKeys]; both keys are 32 bytes ([sr25519] and [ed25519]). *)
Record SessionKeys := mkSessionKeys {
  aura : H256;
  grandpa : H256
}.

(** The SCALE encoding of a struct is that of its fields, in order, and decoding
    ignores what follows. *)
Definition encode_session (keys : SessionKeys) : list byte :=
  as_bytes (aura keys) ++ as_bytes (grandpa keys).

Definition decode_key (encoded : list byte) : option (H256 * list byte) :=
  key ← h256_of_list (take 32 encoded);
  Some (key, drop 32 encoded).

Definition decode_session (encoded : list byte) : option SessionKeys :=
  '(a, rest) ← decode_key encoded;
  '(g, _) ← decode_key rest;
  Some (mkSessionKeys a g).

(** [KeyTypeId], as text. *)
Definition AURA : string := "aura".
Definition GRANDPA : string := "gran".

Definition into_raw_public_keys (keys : SessionKeys) : list (list byte * string) :=
  [(as_bytes (aura keys), AURA); (as_bytes (grandpa keys), GRANDPA)].

(** [SessionKeys::decode_session_keys] *)
Definition decode_session_keys (encoded : list byte) : option (list (list byte * string)) :=
  into_raw_public_keys <$> decode_session encoded.

(** The keystore of the node, which makes a pair of a type, from a seed if it is
    given one, and tells the public key. *)
Class SessionKeystore (K : Type) := {
  generate_pair : string → option (list byte) → K → H256 * K;
  has_key : string → H256 → K → Prop
}.

(** Documented behaviour: a generated pair is in the keystore, which forgets
    none. *)
Class SessionKeystoreLaws (K : Type) `{SessionKeystore K} : Prop := {
  generate_pair_has ty seed ks : has_key ty (generate_pair ty seed ks).1 (generate_pair ty seed ks).2;
  generate_pair_keeps ty seed ks ty' k :
    has_key ty' k ks → has_key ty' k (generate_pair ty seed ks).2
}.

(** [SessionKeys::generate_session_keys]: both pairs are made from the same seed. *)
Definition generate_session_keys `{SessionKeystore K} (seed : option (list byte)) (ks : K) : list byte * K :=
  let '(a, ks) := generate_pair AURA seed ks in
  let '(g, ks) := generate_pair GRANDPA seed ks in
  (encode_session (mkSessionKeys a g), ks).

Lemma decode_key_short encoded : length encoded < 32 → decode_key encoded = None.
Proof.
  intros Hlen. unfold decode_key. rewrite h256_of_list_None; [done|]. rewrite length_take. lia.
Qed.

Lemma decode_key_long encoded :
  32 ≤ length encoded →
  ∃ key, decode_key encoded = Some (key, drop 32 encoded) ∧ as_bytes key = take 32 encoded.
Proof.
  intros Hlen. destruct (h256_of_list_Some (take 32 encoded)) as (key & Hkey & Hb).
  { rewrite length_take. lia. }
  exists key. unfold decode_key. by rewrite Hkey.
Qed.

Lemma decode_key_app key rest : decode_key (as_bytes key ++ rest) = Some (key, rest).
Proof.
  unfold decode_key. rewrite take_app_length' by (symmetry; apply as_bytes_length).
  rewrite drop_app_length' by (symmetry; apply as_bytes_length). by rewrite h256_of_as_bytes.
Qed.

(** What decodes as session keys: anything with 64 bytes, of which the first 32
    are the key of Aura and the next 32 that of GRANDPA; the rest is ignored. *)
Lemma decode_session_keys_correct encoded :
  decode_session_keys encoded =
    if decide (64 ≤ length encoded)
    then Some [(take 32 encoded, AURA); (take 32 (drop 32 encoded), GRANDPA)]
    else None.
Proof.
  unfold decode_session_keys, decode_session. destruct (decide (32 ≤ length encoded)) as [H32|H32].
  - destruct (decode_key_long encoded H32) as (a & -> & Ha). cbn.
    case_decide as H64.
    + destruct (decode_key_long (drop 32 encoded)) as (g & -> & Hg); [rewrite length_drop; lia|].
      cbn. unfold into_raw_public_keys. cbn. by rewrite Ha, Hg.
    + by rewrite decode_key_short by (rewrite length_drop; lia).
  - rewrite decode_key_short by lia. by rewrite decide_False by lia.
Qed.

Lemma decode_session_roundtrip keys rest : decode_session (encode_session keys ++ rest) = Some keys.
Proof.
  unfold decode_session, encode_session. rewrite <- (assoc_L (++)), decode_key_app. cbn.
  rewrite decode_key_app. by destruct keys.
Qed.

(** Generated session keys decode to the keys that the keystore has made, each
    under its own type; the keystore keeps the keys it had. *)
Theorem generated_keys_decode `{SessionKeystoreLaws K} seed (ks : K) :
  ∃ a g, decode_session_keys (generate_session_keys seed ks).1 =
      Some [(as_bytes a, AURA); (as_bytes g, GRANDPA)] ∧
    has_key AURA a (generate_session_keys seed ks).2 ∧
    has_key GRANDPA g (generate_session_keys seed ks).2 ∧
    ∀ ty k, has_key ty k ks → has_key ty k (generate_session_keys seed ks).2.
Proof.
  unfold generate_session_keys. pose proof (generate_pair_has AURA seed ks) as Ha.
  pose proof (generate_pair_keeps AURA seed ks) as Hk.
  destruct (generate_pair AURA seed ks) as [a ks1]. pose proof (generate_pair_has GRANDPA seed ks1) as Hg.
  pose proof (generate_pair_keeps GRANDPA seed ks1) as Hk1.
  destruct (generate_pair GRANDPA seed ks1) as [g ks2]. cbn in *. exists a, g.
  split_and!; [|eauto..].
  unfold decode_session_keys. rewrite <- (app_nil_r (encode_session _)). by rewrite decode_session_roundtrip.
Qed.

(** ** Fees *)

(** The limit of a block: two seconds of computation, in picoseconds, and any size
    of a proof. *)
Definition WEIGHT_REF_TIME_PER_SECOND : Z := 1000000000000.
Definition max_block : Z * Z := ((2 * WEIGHT_REF_TIME_PER_SECOND)%Z, (2 ^ 64 - 1)%Z).

(** [pallet_transaction_payment::Config], as far as it is about amounts. *)
Record PaymentConfig := mkPayment {
  OperationalFeeMultiplier : Z;
  WeightToFee : Z * Z → Z;
  LengthToFee : Z → Z;
  FeeMultiplier : Z
}.

(** [IdentityFee]: a unit for a picosecond, and a unit for a byte. *)
Definition IdentityFee (amount : Z) : Z := amount.

Definition runtime_payment : PaymentConfig := {|
  OperationalFeeMultiplier := 5;
  WeightToFee w := IdentityFee w.1;
  LengthToFee := IdentityFee;
  FeeMultiplier := 1
|}.

(** [RuntimeDispatchInfo], [InclusionFee] and [FeeDetails] *)
Record RuntimeDispatchInfo := mkDispatchInfo {
  info_weight : Z * Z;
  partial_fee : Z
}.

Record InclusionFee := mkInclusionFee {
  base_fee : Z;
  len_fee : Z;
  adjusted_weight_fee : Z
}.

Record FeeDetails := mkFeeDetails {
  inclusion_fee : option InclusionFee;
  tip : Z
}.

(** [pallet_transaction_payment::Pallet], for a configuration and the limit of a
    block. *)
Class PaymentPallet `{Sr25519} (Sys : Type) := {
  pay_query_info : PaymentConfig → UncheckedExtrinsic → Z → Sys → RuntimeDispatchInfo;
  pay_query_fee_details : PaymentConfig → UncheckedExtrinsic → Z → Sys → FeeDetails;
  pay_query_call_info : PaymentConfig → RuntimeCall → Z → Sys → RuntimeDispatchInfo;
  pay_query_call_fee_details : PaymentConfig → RuntimeCall → Z → Sys → FeeDetails;
  pay_weight_to_fee : PaymentConfig → Z * Z → Z * Z → Z;
  pay_length_to_fee : PaymentConfig → Z → Z
}.

Definition fee_sum (f : InclusionFee) : Z := base_fee f + len_fee f + adjusted_weight_fee f.

(** Documented behaviour: an extrinsic without a signature pays nothing; a signed
    one pays a base fee, the fee of its length and the adjusted fee of its weight,
    and its partial fee is their sum, without the tip.  A weight is charged up to
    the limit of a block. *)
Class PaymentPalletLaws `{Sr25519} (Sys : Type) `{!PaymentPallet Sys} : Prop := {
  pay_unsigned_info c ext len s :
    extrinsic_signature ext = None → partial_fee (pay_query_info c ext len s) = 0%Z;
  pay_unsigned_details c ext len s :
    extrinsic_signature ext = None → pay_query_fee_details c ext len s = mkFeeDetails None 0;
  pay_signed c ext len s :
    extrinsic_signature ext ≠ None →
    ∃ f, inclusion_fee (pay_query_fee_details c ext len s) = Some f ∧
      partial_fee (pay_query_info c ext len s) = fee_sum f ∧ len_fee f = LengthToFee c len;
  pay_weight c limit w :
    pay_weight_to_fee c limit w = WeightToFee c (Z.min w.1 limit.1, Z.min w.2 limit.2);
  pay_length c len : pay_length_to_fee c len = LengthToFee c len
}.

(** [TransactionPaymentApi] and [TransactionPaymentCallApi] *)
Section Fees.
Context `{Sr25519} {St Sys : Type} `{!PaymentPallet Sys}.

Definition query_info (uxt : UncheckedExtrinsic) (len : Z) (s : pallet_state St Sys) : RuntimeDispatchInfo :=
  pay_query_info runtime_payment uxt len (system s).
Definition query_fee_details (uxt : UncheckedExtrinsic) (len : Z) (s : pallet_state St Sys) : FeeDetails :=
  pay_query_fee_details runtime_payment uxt len (system s).
Definition query_weight_to_fee (weight : Z * Z) : Z := pay_weight_to_fee runtime_payment max_block weight.
Definition query_length_to_fee (len : Z) : Z := pay_length_to_fee runtime_payment len.
Definition query_call_info (call : RuntimeCall) (len : Z) (s : pallet_state St Sys) : RuntimeDispatchInfo :=
  pay_query_call_info runtime_payment call len (system s).
Definition query_call_fee_details (call : RuntimeCall) (len : Z) (s : pallet_state St Sys) : FeeDetails :=
  pay_query_call_fee_details runtime_payment call len (system s).

Context `{!PaymentPalletLaws Sys}.

(** Validating an event costs nothing: the extrinsic that the runtime makes for
    it has neither a partial fee nor an inclusion fee, whatever its proofs. *)
Lemma event_extrinsic_free event_id event_proofs len (s : pallet_state St Sys) :
  partial_fee (query_info (create_unsigned_extrinsic event_id event_proofs) len s) = 0%Z ∧
  query_fee_details (create_unsigned_extrinsic event_id event_proofs) len s = mkFeeDetails None 0.
Proof. split; [by apply pay_unsigned_info|by apply pay_unsigned_details]. Qed.

(** A signed extrinsic pays a unit for each of its bytes. *)
Lemma signed_length_fee ext len (s : pallet_state St Sys) :
  extrinsic_signature ext ≠ None →
  ∃ f, inclusion_fee (query_fee_details ext len s) = Some f ∧ len_fee f = len ∧
    partial_fee (query_info ext len s) = fee_sum f.
Proof. intros Hs. destruct (pay_signed runtime_payment ext len (system s) Hs) as (f & ? & ? & ?). by exists f. Qed.

(** The fee of a weight is its computation time, and never more than that of a
    full block, so it is far from the bounds of a balance. *)
Lemma weight_fee_bounded w :
  (0 ≤ w.1)%Z →
  query_weight_to_fee w = Z.min w.1 2000000000000 ∧ (0 ≤ query_weight_to_fee w ≤ 2000000000000)%Z.
Proof.
  intros Hw. unfold query_weight_to_fee. rewrite pay_weight.
  change (WeightToFee runtime_payment (Z.min w.1 max_block.1, Z.min w.2 max_block.2))
    with (Z.min w.1 2000000000000). lia.
Qed.

End Fees.

(** ** The other pallets and the executive *)

(** What the APIs below ask of [frame_system], [pallet_grandpa], the inherents and
    hooks that [construct_runtime!] collects from all pallets, and the executive.
    [InherentData], [Checked], [GrandpaList], [Header], [Account] and the selections
    of checks [Checks] and [Select] stand for the types of those crates. *)
Class Pallets `{Sr25519} (Sys InherentData Checked GrandpaList Header Account Checks Select : Type) := {
  sys_account_nonce : Account → Sys → Z;
  gran_authorities : Sys → GrandpaList;
  gran_current_set_id : Sys → Z;
  create_extrinsics : InherentData → Sys → list UncheckedExtrinsic;
  check_extrinsics : InherentData → Header * list UncheckedExtrinsic → Sys → Checked;
  runtime_metadata : list byte;
  exec_offchain_worker : Header → Sys → Sys;
  exec_try_runtime_upgrade : Checks → Sys → result string (Z * Z) * Sys;
  exec_try_execute_block : Header * list UncheckedExtrinsic → bool → bool → Select → Sys →
    result string (Z * Z) * Sys
}.

Section Services.
Context `{Sr25519} {Sys InherentData Checked GrandpaList Header Account Checks Select : Type}.
Context `{!Pallets Sys InherentData Checked GrandpaList Header Account Checks Select}.

Definition account_nonce (account : Account) (s : Sys) : Z := sys_account_nonce account s.
Definition grandpa_authorities (s : Sys) : GrandpaList := gran_authorities s.
Definition current_set_id (s : Sys) : Z := gran_current_set_id s.
Definition inherent_extrinsics (data : InherentData) (s : Sys) : list UncheckedExtrinsic :=
  create_extrinsics data s.
Definition check_inherents (block : Header * list UncheckedExtrinsic) (data : InherentData) (s : Sys) :
    Checked :=
  check_extrinsics data block s.
Definition metadata : list byte := runtime_metadata.
Definition offchain_worker (header : Header) (s : Sys) : Sys := exec_offchain_worker header s.

(** [TryRuntime]: errors of the migration and of the block are unwrapped. *)
Definition on_runtime_upgrade (checks : Checks) (s : Sys) : outcome (((Z * Z) * (Z * Z)) * Sys) :=
  let '(r, s') := exec_try_runtime_upgrade checks s in
  weight ← unwrap_result r;
  Ret (weight, max_block, s').
Definition try_execute_block (block : Header * list UncheckedExtrinsic)
    (state_root_check signature_check : bool) (select : Select) (s : Sys) : outcome ((Z * Z) * Sys) :=
  let '(r, s') := exec_try_execute_block block state_root_check signature_check select s in
  weight ← unwrap_result r;
  Ret (weight, s').

(** A try-runtime call stops the program exactly when the executive has an error,
    and otherwise tells the weight used, of an upgrade beside the limit. *)
Lemma try_runtime_correct checks block r1 r2 r3 (s : Sys) :
  (on_runtime_upgrade checks s = Panic ↔ ∃ e s', exec_try_runtime_upgrade checks s = (Err e, s')) ∧
  (try_execute_block block r1 r2 r3 s = Panic ↔
     ∃ e s', exec_try_execute_block block r1 r2 r3 s = (Err e, s')) ∧
  (∀ w s', exec_try_runtime_upgrade checks s = (Ok w, s') →
     on_runtime_upgrade checks s = Ret (w, max_block, s')).
Proof.
  unfold on_runtime_upgrade, try_execute_block.
  destruct (exec_try_runtime_upgrade checks s) as [[w|e] s1],
    (exec_try_execute_block block r1 r2 r3 s) as [[w'|e'] s2]; cbn; naive_solver.
Qed.

End Services.

(** ** Benchmarks *)

(** The pallets of [define_benchmarks!]: the crate and the type benchmarked. *)
Definition benches : list (string * string) :=
  [("frame_benchmarking", "BaselineBench::<Runtime>"); ("frame_system", "SystemBench::<Runtime>");
   ("pallet_balances", "Balances"); ("pallet_timestamp", "Timestamp");
   ("pallet_validated_streams", "ValidatedStreams")].

Section Benchmarks.
Context {Config Batch BenchmarkList StorageInfo StorageKey : Type}.

(** What [list_benchmark!] and [add_benchmark!] do for one pallet: its benchmarks,
    and the batches it adds for a configuration, if it is the one asked for. *)
Context (list_benchmark : bool → string * string → list BenchmarkList).
Context (add_benchmark : Config → list StorageKey → string * string → result string (list Batch)).
Context (storage_info : list StorageInfo) (whitelisted_storage_keys : list StorageKey).

Definition benchmark_metadata (extra : bool) : list BenchmarkList * list StorageInfo :=
  (benches ≫= list_benchmark extra, storage_info).

Fixpoint add_benchmarks (config : Config) (pallets : list (string * string)) (batches : list Batch) :
    result string (list Batch) :=
  match pallets with
  | [] => Ok batches
  | pallet :: rest =>
      added ← add_benchmark config whitelisted_storage_keys pallet;
      add_benchmarks config rest (batches ++ added)
  end.

Definition dispatch_benchmark (config : Config) : result string (list Batch) :=
  add_benchmarks config benches [].

Lemma add_benchmarks_one config p pallets batches added :
  NoDup pallets → add_benchmark config whitelisted_storage_keys p = Ok added →
  (∀ q, q ∈ pallets → q ≠ p → add_benchmark config whitelisted_storage_keys q = Ok []) →
  add_benchmarks config pallets batches = Ok (if decide (p ∈ pallets) then batches ++ added else batches).
Proof.
  intros Hnd Hp. revert batches. induction Hnd as [|q pallets Hq Hnd IH]; intros batches Hothers; [done|].
  cbn [add_benchmarks]. destruct (decide (q = p)) as [->|Hne].
  - rewrite Hp, result_ok_bind, IH by (intros; apply Hothers; set_solver).
    by rewrite decide_False, decide_True by set_solver.
  - rewrite Hothers, result_ok_bind, app_nil_r, IH by (try intros; try apply Hothers; set_solver).
    repeat case_decide; set_solver.
Qed.

(** When a configuration asks for this pallet, the result is the batches of this
    pallet and no others. *)
Lemma dispatch_benchmark_streams config added :
  add_benchmark config whitelisted_storage_keys ("pallet_validated_streams", "ValidatedStreams") = Ok added →
  (∀ q, q ≠ ("pallet_validated_streams", "ValidatedStreams") →
     add_benchmark config whitelisted_storage_keys q = Ok []) →
  dispatch_benchmark config = Ok added.
Proof.
  intros Hp Hothers. unfold dispatch_benchmark. rewrite (add_benchmarks_one config
    ("pallet_validated_streams", "ValidatedStreams") benches [] added); [|..|done|].
  - by rewrite decide_True by (apply (bool_decide_unpack _); vm_compute; exact I).
  - apply (bool_decide_unpack _). vm_compute. exact I.
  - intros q _. apply Hothers.
Qed.

End Benchmarks.

(** ** Concrete instances *)

(** A keystore that has one key of each type. *)
#[local] Instance fixed_keystore : SessionKeystore (list (string * H256)) := {|
  generate_pair ty _ ks :=
    let k := repeat_byte (if bool_decide (ty = AURA) then x01 else x02) in (k, (ty, k) :: ks);
  has_key ty k ks := (ty, k) ∈ ks
|}.
#[local] Instance fixed_keystore_laws : SessionKeystoreLaws (list (string * H256)).
Proof. split; cbn; [constructor|by constructor]. Qed.

Example generated_keys_example :
  decode_session_keys ((generate_session_keys None ([] : list (string * H256))).1 ++ [x07]) =
    Some [(replicate 32 x01, AURA); (replicate 32 x02, GRANDPA)].
Proof. vm_compute. reflexivity. Qed.

(** Fees with the base fee 100 and the weight 50. *)
#[local] Instance flat_payment `{Sr25519} : PaymentPallet unit :=
  let details c len := mkInclusionFee 100 (LengthToFee c len) (FeeMultiplier c * WeightToFee c (50%Z, 0%Z)) in {|
  pay_query_info c ext len _ := mkDispatchInfo (50%Z, 0%Z)
    match extrinsic_signature ext with None => 0 | Some _ => fee_sum (details c len) end;
  pay_query_fee_details c ext len _ :=
    match extrinsic_signature ext with
    | None => mkFeeDetails None 0
    | Some (_, extra) => mkFeeDetails (Some (details c len)) (charge_transaction_payment extra)
    end;
  pay_query_call_info c _ len _ := mkDispatchInfo (50%Z, 0%Z) (fee_sum (details c len));
  pay_query_call_fee_details c _ len _ := mkFeeDetails (Some (details c len)) 0;
  pay_weight_to_fee c limit w := WeightToFee c (Z.min w.1 limit.1, Z.min w.2 limit.2);
  pay_length_to_fee c len := LengthToFee c len
|}.

#[local] Instance flat_payment_laws `{Sr25519} : PaymentPalletLaws unit.
Proof.
  split; try done.
  - intros c ext len s Hs. cbn. by rewrite Hs.
  - intros c ext len s Hs. cbn. by rewrite Hs.
  - intros c ext len s Hs. cbn. destruct (extrinsic_signature ext) as [[[? ?] ?]|]; [eauto|done].
Qed.

Example weight_fee_example `{Sr25519} :
  query_weight_to_fee (Sys := unit) (8834000%Z, 3517%Z) = 8834000%Z ∧
  query_weight_to_fee (Sys := unit) (3000000000000%Z, 0%Z) = 2000000000000%Z.
Proof. done. Qed.
