(* ===== verification/PalletTesting.v ===== *)
(** * The pallet's weights, benchmarks and mock runtime

    [pallet/src/weights.rs], [pallet/src/benchmarking.rs] and
    [pallet/src/mock.rs]: the weight charged for a call, the benchmarks it was
    measured with in the two modes, and the runtime that the pallet's tests
    run in, whose authorities are keys of a keystore.  The theorems compare the
    benchmarked code with the dispatchable, and extend the tests on the number
    of proofs from their cases to every number of authorities. *)

From stdpp Require Import base decidable list gmap strings.
From Stdlib Require Import Strings.Byte ZArith Lia.
From S2P Require Import Prelude Errors Proofs State Authorities Concrete Pallet.

(** ** Weights *)

(** [sp_weights]: a weight has two parts, and the database a price for reads and
    writes. *)
Class Weights := {
  Weight : Type;
  from_parts : Z → Z → Weight;
  saturating_add : Weight → Weight → Weight;
  db_reads : Z → Weight;
  db_writes : Z → Weight
}.

(** [SubstrateWeight::validate_event] *)
Definition validate_event_weight `{Weights} : Weight :=
  saturating_add
    (saturating_add
      (saturating_add (from_parts 8834000 0) (from_parts 0 3517))
      (db_reads 1))
    (db_writes 1).

(** ** Keys for tests and benchmarks *)

(** A keystore: [sp_keystore::testing::KeyStore] in the tests, the host's
    keystore behind [sp_io::crypto] in the benchmarks.  [ks_keys] are the keys
    it can sign with, of which it can generate [ks_capacity] different ones. *)
Class KeyStore (KS : Type) `{Sr25519} := {
  ks_keys : KS → list Public;
  ks_capacity : nat;
  sr25519_generate_new : KS → result unit Public * KS;
  sign_with : KS → Public → list byte → result unit (option (list byte));
  as_slice : Public → list byte
}.

(** Documented behaviour: a generated key is a new one (while there are any), and
    the keystore signs with the keys it has generated; a signature has 64 bytes
    and a key 32. *)
Class KeyStoreLaws (KS : Type) `{KeyStore KS} : Prop := {
  generate_new_key ks : length (ks_keys ks) < ks_capacity (KS := KS) →
    ∃ pk ks', sr25519_generate_new ks = (Ok pk, ks') ∧
    pk ∉ ks_keys ks ∧ ks_keys ks' ≡ₚ pk :: ks_keys ks;
  sign_with_key ks pk msg : pk ∈ ks_keys ks →
    ∃ bytes sg, sign_with ks pk msg = Ok (Some bytes) ∧ length bytes = 64 ∧
      signature_from_slice bytes = Some sg ∧ public_verify pk msg sg = true;
  as_slice_key pk : ∃ h, as_slice pk = as_bytes h ∧ public_from_h256 h = pk
}.

(** ** The benchmarks *)

Definition h256_default : H256 := repeat_byte x00.

(** [VSMaxAuthorities] of the mock runtime, and the bound of the benchmark's map. *)
Definition max_proofs : nat := 32.

(** [BenchmarkError]: a text, or the error of the dispatched call. *)
Inductive BenchmarkError : Type :=
| Stop (text : string)
| Dispatch (e : PalletError).

Section OffBenchmark.
Context `{Sr25519} {St Sys : Type} `{!FrameSystem Sys} `{!StorageMap H256 Z St}.

(** With off-chain proofs: dispatch the call, then the [verify] block. *)
Definition bench_validate_event (s : pallet_state St Sys) :
    outcome (result BenchmarkError unit * pallet_state St Sys) :=
  let event_id := h256_default in
  '(r, s') ← validate_event event_id None s;
  match r with
  | Err e => Ret (Err (Dispatch e), s')
  | Ok _ => if is_event_valid event_id s' then Ret (Ok tt, s') else Panic
  end.

End OffBenchmark.

(** The proofs of the benchmark hold their signatures as bounded vectors. *)
Abbreviation bench_proofs := (gmap Public (list byte)).

Section OnBenchmark.
Context `{Sr25519} {KS St Sys : Type} `{!FrameSystem Sys} `{!KeyStore KS}.

Context `{!StorageMap H256 bench_proofs St}.

(** [BoundedVec<u8, ConstU32<64>>::try_from] *)
Definition try_bounded_vec (bytes : list byte) : option (list byte) :=
  if decide (length bytes ≤ 64) then Some bytes else None.

(** [BoundedBTreeMap::try_insert]: fails when the map is full and the key is new. *)
Definition try_insert (key : Public) (signature : list byte) (proofs : bench_proofs) :
    option bench_proofs :=
  if decide (size proofs < max_proofs ∨ is_Some (proofs !! key))
  then Some (<[key := signature]> proofs) else None.

(** The loop that makes the proofs. *)
Fixpoint bench_sign (n : nat) (event_id : H256) (proofs : bench_proofs) (ks : KS) :
    outcome (bench_proofs * KS) :=
  match n with
  | O => Ret (proofs, ks)
  | S n =>
      let '(generated, ks') := sr25519_generate_new ks in
      key ← unwrap_result generated;
      signed ← unwrap_result (sign_with ks' key (as_bytes event_id));
      raw ← unwrap_option signed;
      signature ← unwrap_option (try_bounded_vec raw);
      proofs' ← unwrap_option (try_insert key signature proofs);
      bench_sign n event_id proofs' ks'
  end.

(** [authorities.len() - 1] on a [usize] *)
Definition pred_usize (overflow_checks : bool) (usize_max len : Z) : outcome Z :=
  if (len =? 0)%Z then if overflow_checks then Panic else Ret usize_max else Ret (len - 1)%Z.

(** [(2 * ((authorities.len() - 1) / 3) + 1) as u16] *)
Definition bench_target (overflow_checks : bool) (usize_max len : Z) : outcome Z :=
  pred ← pred_usize overflow_checks usize_max len;
  Ret (as_u16 (2 * (pred / 3) + 1)).

(** The loop that verifies and counts the proofs. *)
Fixpoint bench_count (overflow_checks : bool) (event_id : H256) (proofs : list (Public * list byte))
    (proof_count : Z) : outcome (result BenchmarkError Z) :=
  match proofs with
  | [] => Ret (Ok proof_count)
  | (key, sig) :: rest =>
      match signature_from_slice sig with
      | Some signature =>
          if public_verify key (as_bytes event_id) signature then
            proof_count' ← incr_u16 overflow_checks proof_count;
            bench_count overflow_checks event_id rest proof_count'
          else Ret (Err (Stop "Invalid proof"))
      | None => Ret (Err (Stop "Bad Signature"))
      end
  end.

(** The measured block. *)
Definition bench_body (overflow_checks : bool) (usize_max : Z) (event_proofs : option bench_proofs) :
    M (pallet_state St Sys) BenchmarkError unit := λ s,
  let event_id := h256_default in
  let event_hash := h256_default in
  match event_proofs with
  | Some proofs =>
      authorities ← outcome_map authority_public (config_authorities (system s));
      target ← bench_target overflow_checks usize_max (Z.of_nat (length authorities));
      if sm_contains_key event_hash (streams s) then Ret (Err (Stop "Already validated event"), s)
      else if forallb (λ key, bool_decide (is_Some (proofs !! key))) (map_to_list proofs).*1 then
        counted ← bench_count overflow_checks event_id (map_to_list proofs) 0;
        match counted with
        | Err e => Ret (Err e, s)
        | Ok proof_count =>
            if (proof_count <? target)%Z then Ret (Err (Stop "not enough proofs"), s)
            else Ret (Ok tt, mkPallet (sm_insert event_hash proofs (streams s))
                                      (system_deposit_event event_hash (system s)))
        end
      else Ret (Err (Stop "Unrecognized Authority"), s)
  | None => Ret (Ok tt, s)
  end.

(** [on_chain_proofs]: the setup and the measured block. *)
Definition bench_on_chain_proofs (overflow_checks : bool) (usize_max : Z) (ks : KS) (s : pallet_state St Sys) :
    outcome (result BenchmarkError unit * pallet_state St Sys) :=
  '(proofs, _) ← bench_sign max_proofs h256_default ∅ ks;
  bench_body overflow_checks usize_max (Some proofs) s.

End OnBenchmark.

(** ** The mock runtime *)

(** The statics and the storage parameter of [mock.rs]. *)
Record mock (KS : Type) `{Sr25519} := mkMock {
  KEYSTORE : KS;
  PAIRS : Mutex (list Public);
  AuthoritiesCount : Z
}.

Arguments mkMock {KS _} _ _ _.
Arguments KEYSTORE {KS _} _.
Arguments PAIRS {KS _} _.
Arguments AuthoritiesCount {KS _} _.

(** The rest of the mock runtime: its block number and deposited events. *)
Record mock_system := mkMockSystem { mock_number : Z; mock_events : list H256 }.

Section Mock.
Context `{Sr25519} {KS : Type} `{!KeyStore KS}.

(** [for _ in pairs.len()..count as usize { pairs.push(..) }] *)
Fixpoint push_pairs (n : nat) (pairs : list Public) (ks : KS) : outcome (list Public * KS) :=
  match n with
  | O => Ret (pairs, ks)
  | S n =>
      let '(generated, ks') := sr25519_generate_new ks in
      pair ← unwrap_result generated;
      push_pairs n (pairs ++ [pair]) ks'
  end.

(** [get_pairs(PAIRS.lock().unwrap().as_mut(), count)] *)
Definition get_pairs (count : Z) (m : mock KS) : outcome (list Public * mock KS) :=
  if poisoned (PAIRS m) then Panic else
  let pairs := guarded (PAIRS m) in
  '(pairs', ks') ← push_pairs (Z.to_nat count - length pairs) pairs (KEYSTORE m);
  Ret (take (Z.to_nat count) pairs', mkMock ks' (mkMutex false pairs') (AuthoritiesCount m)).

(** [AuraId::from_slice] *)
Definition aura_from_slice (raw : list byte) : option (list byte) :=
  if decide (length raw = 32) then Some raw else None.

(** [try_into().unwrap()] into a [BoundedVec] *)
Definition bounded {A} (l : list A) : outcome (list A) :=
  if decide (length l ≤ max_proofs) then Ret l else Panic.

(** [Config::authorities] *)
Definition mock_authorities (m : mock KS) : outcome (list (list byte) * mock KS) :=
  '(pairs, m') ← get_pairs (AuthoritiesCount m) m;
  ids ← outcome_map (λ pair, unwrap_option (aura_from_slice (as_slice pair))) pairs;
  bounded_ids ← bounded ids;
  Ret (bounded_ids, m').

(** [proofs_n] and [proofs]; the map is built from its entries, then bounded. *)
Definition sign_proof (ks : KS) (event_id : H256) (key : Public) : outcome (Public * SrSignature) :=
  signed ← unwrap_result (sign_with ks key (as_bytes event_id));
  raw ← unwrap_option signed;
  signature ← unwrap_option (signature_from_slice raw);
  Ret (key, signature).

Definition proofs_n (event_id : H256) (count : Z) (m : mock KS) : outcome (ProofsMap * mock KS) :=
  '(pairs, m') ← get_pairs count m;
  entries ← outcome_map (sign_proof (KEYSTORE m') event_id) pairs;
  let proofs := collect_map entries in
  if decide (size proofs ≤ max_proofs) then Ret (proofs, m') else Panic.

Definition mock_proofs (event_id : H256) (m : mock KS) : outcome (ProofsMap * mock KS) :=
  proofs_n event_id (AuthoritiesCount m) m.

(** The pallet's [Config] for given authorities. *)
Definition mock_config (authorities : list (list byte)) : FrameSystem mock_system := {|
  system_block_number := mock_number;
  config_authorities _ := authorities;
  system_deposit_event e sys := mkMockSystem (mock_number sys) (mock_events sys ++ [e])
|}.

Section MockDispatch.
Context {St : Type} `{!StorageMap H256 ProofsMap St}.

(** [ValidatedStreams::validate_event] in the mock runtime, with on-chain proofs:
    the authorities are asked for first. *)
Definition mock_validate_event (overflow_checks : bool) (event_id : H256) (proofs : option ProofsMap)
    (m : mock KS) (s : pallet_state St mock_system) :
    outcome (result PalletError unit * (mock KS * pallet_state St mock_system)) :=
  '(authorities, m') ← mock_authorities m;
  '(r, s') ← on_validate_event_impl (H0 := mock_config authorities) overflow_checks event_id proofs s;
  Ret (r, (m', s')).

(** [new_test_ext]: the genesis of the mock runtime, with four authorities. *)
Definition new_test_ext (empty : St) : pallet_state St mock_system * Z :=
  (mkPallet empty (mkMockSystem 0 []), 4%Z).

End MockDispatch.
End Mock.

(** ** What the benchmarks measure *)

Section OffBenchmarkFacts.
Context `{Sr25519} {St Sys : Type} `{!FrameSystem Sys} `{StorageMapLaws H256 Z St}.

(** The assertion of the [verify] block never fails: the benchmark panics on no
    state, and stops only when its event is on record already. *)
Lemma bench_validate_event_correct (s : pallet_state St Sys) :
  bench_validate_event s =
  if is_event_valid h256_default s then Ret (Err (Dispatch AlreadyValidated), s)
  else Ret (Ok tt, mkPallet (sm_insert h256_default (system_block_number (system s)) (streams s))
                            (system_deposit_event h256_default (system s))).
Proof.
  unfold bench_validate_event, validate_event. cbn. unfold off_validate_event_impl, off_is_event_valid.
  destruct (sm_contains_key h256_default (streams s)) eqn:E; [done|]. cbn.
  rewrite sm_contains_key_get, sm_get_insert_eq. done.
Qed.

End OffBenchmarkFacts.

Section OnBenchmarkFacts.
Context `{Sr25519} {KS St Sys : Type} `{!FrameSystem Sys}.
Context (overflow_checks : bool) (usize_max : Z).

Lemma bench_target_eq (n : Z) :
  (1 ≤ n ≤ u16_max)%Z → bench_target overflow_checks usize_max n = Ret (2 * ((n - 1) / 3) + 1)%Z.
Proof.
  intros Hn. unfold bench_target, pred_usize. rewrite (proj2 (Z.eqb_neq n 0)) by lia.
  rewrite outcome_ret_bind, as_u16_small; [done|]. unfold u16_max in *. zdiv.
Qed.

(** The number of proofs that the benchmark asks for is at most the number
    that the pallet asks for, and is the same exactly when the number of
    authorities is one more than a multiple of three. *)
Theorem bench_target_at_most (n : Z) :
  (1 ≤ n ≤ u16_max)%Z →
  ∃ t, bench_target overflow_checks usize_max n = Ret t ∧
    (t ≤ as_u16 (n * 2 / 3 + 1))%Z ∧
    (t = as_u16 (n * 2 / 3 + 1) ↔ n mod 3 = 1)%Z.
Proof.
  intros Hn. eexists. split; [by apply bench_target_eq|]. unfold u16_max in Hn.
  rewrite as_u16_small by (unfold u16_max; zdiv). split; zdiv.
Qed.

End OnBenchmarkFacts.

(** ** The mock runtime's authorities and proofs *)

Section MockFacts.
Context `{Sr25519} {KS : Type} `{!KeyStore KS} `{!KeyStoreLaws KS}.

(** The keystore can generate [n] more keys. *)
Definition ks_room (n : nat) (ks : KS) : Prop := length (ks_keys ks) + n ≤ ks_capacity (KS := KS).

(** The keys in use are different, and in the keystore. *)
Definition keys_ok (room : nat) (pairs : list Public) (ks : KS) : Prop :=
  NoDup pairs ∧ pairs ⊆ ks_keys ks ∧ ks_room room ks.

Lemma keys_ok_generate room pairs ks :
  keys_ok (S room) pairs ks → ∃ pk ks', sr25519_generate_new ks = (Ok pk, ks') ∧ pk ∉ pairs ∧
    pk ∈ ks_keys ks' ∧ keys_ok room (pairs ++ [pk]) ks'.
Proof.
  intros (Hnd & Hin & Hroom). unfold ks_room in Hroom.
  destruct (generate_new_key ks) as (pk & ks' & Hgen & Hnew & Hperm); [lia|].
  assert (pk ∉ pairs) as Hpk by (intros ?; by apply Hnew, Hin).
  assert (∀ k, k ∈ ks_keys ks' ↔ k = pk ∨ k ∈ ks_keys ks) as Hks.
  { intros k. by rewrite Hperm, elem_of_cons. }
  exists pk, ks'. split_and!; [done..|apply Hks; by left|]. split_and!.
  - rewrite NoDup_app. split_and!; [done| |apply NoDup_singleton].
    intros k Hk Heq%list_elem_of_singleton. by subst.
  - intros k [Hk|Hk%list_elem_of_singleton]%elem_of_app; apply Hks; [right; by apply Hin|by left].
  - unfold ks_room. rewrite Hperm. cbn. lia.
Qed.

Lemma push_pairs_spec room n pairs ks :
  keys_ok (n + room) pairs ks →
  ∃ new ks', push_pairs n pairs ks = Ret (pairs ++ new, ks') ∧ length new = n ∧
    keys_ok room (pairs ++ new) ks'.
Proof.
  revert pairs ks. induction n as [|n IH]; intros pairs ks Hok.
  { exists [], ks. by rewrite app_nil_r. }
  destruct (keys_ok_generate (n + room) pairs ks Hok) as (pk & ks1 & Hgen & _ & _ & Hok1).
  destruct (IH (pairs ++ [pk]) ks1 Hok1) as (new & ks' & Hrun & Hlen & Hok').
  exists (pk :: new), ks'. rewrite (app_assoc pairs [pk] new : pairs ++ pk :: new = _).
  split_and!; [|cbn; lia|done]. cbn [push_pairs]. rewrite Hgen. exact Hrun.
Qed.

Record mock_ok (room : nat) (m : mock KS) : Prop := mkMockOk {
  mock_healthy : poisoned (PAIRS m) = false;
  mock_keys : keys_ok room (guarded (PAIRS m)) (KEYSTORE m)
}.

Lemma keys_ok_room room room' pairs ks : room' ≤ room → keys_ok room pairs ks → keys_ok room' pairs ks.
Proof. unfold keys_ok, ks_room. intros ? (? & ? & ?). split_and!; [done..|lia]. Qed.

Lemma mock_ok_room room room' m : room' ≤ room → mock_ok room m → mock_ok room' m.
Proof. intros Hr [? ?]. split; [done|]. by eapply keys_ok_room. Qed.

(** The keys handed out are the first ones of a list that only grows. *)
Lemma get_pairs_spec room count m :
  mock_ok (Z.to_nat count + room) m →
  ∃ m', get_pairs count m = Ret (take (Z.to_nat count) (guarded (PAIRS m')), m') ∧ mock_ok room m' ∧
    Z.to_nat count ≤ length (guarded (PAIRS m')) ∧
    guarded (PAIRS m) `prefix_of` guarded (PAIRS m') ∧ AuthoritiesCount m' = AuthoritiesCount m.
Proof.
  intros [Hhealthy Hkeys]. unfold get_pairs. rewrite Hhealthy.
  destruct (push_pairs_spec room (Z.to_nat count - length (guarded (PAIRS m)))
    (guarded (PAIRS m)) (KEYSTORE m)) as (new & ks' & Hrun & Hlen & Hok).
  { eapply keys_ok_room; [|exact Hkeys]. lia. }
  rewrite Hrun, outcome_ret_bind.
  exists (mkMock ks' (mkMutex false (guarded (PAIRS m) ++ new)) (AuthoritiesCount m)).
  split; [done|]. cbn. split_and!; [by split| |by eexists|done]. rewrite length_app. lia.
Qed.

Lemma keys_ok_take room n pairs ks : keys_ok room pairs ks → keys_ok room (take n pairs) ks.
Proof.
  intros (Hnd & Hin & Hroom). split_and!; [by eapply sublist_NoDup; [exact Hnd|apply sublist_take]| |done].
  intros k Hk. apply Hin. by apply (subseteq_take n pairs).
Qed.

Lemma aura_ids (l : list Public) :
  outcome_map (λ pair, unwrap_option (aura_from_slice (as_slice pair))) l = Ret (as_slice <$> l).
Proof.
  induction l as [|pk l IH]; [done|]. cbn [outcome_map].
  assert (aura_from_slice (as_slice pk) = Some (as_slice pk)) as ->.
  { unfold aura_from_slice. destruct (as_slice_key pk) as (h & Hh & _).
    by rewrite decide_True by (rewrite Hh; apply as_bytes_length). }
  cbn [unwrap_option]. by rewrite outcome_ret_bind, IH.
Qed.

Lemma authority_publics_as_slice (l : list Public) : authority_publics (as_slice <$> l) = l.
Proof.
  unfold authority_publics. induction l as [|pk l IH]; [done|]. cbn.
  destruct (as_slice_key pk) as (h & Hh & Hpk). rewrite Hh, h256_of_as_bytes. cbn.
  by rewrite Hpk, IH.
Qed.

(** The authorities: [n] keys, if at most 32 are asked for; otherwise a panic. *)
Lemma mock_authorities_spec room m :
  mock_ok (Z.to_nat (AuthoritiesCount m) + room) m →
  if decide (Z.to_nat (AuthoritiesCount m) ≤ max_proofs) then
    ∃ m', mock_authorities m =
        Ret (as_slice <$> take (Z.to_nat (AuthoritiesCount m)) (guarded (PAIRS m')), m') ∧ mock_ok room m' ∧
      Z.to_nat (AuthoritiesCount m) ≤ length (guarded (PAIRS m')) ∧
      guarded (PAIRS m) `prefix_of` guarded (PAIRS m')
  else mock_authorities m = Panic.
Proof.
  intros Hok. destruct (get_pairs_spec room (AuthoritiesCount m) m Hok) as (m' & Hrun & Hok' & Hlen & Hpre & _).
  unfold mock_authorities. rewrite Hrun, outcome_ret_bind, aura_ids, outcome_ret_bind.
  unfold bounded. rewrite length_fmap, length_take_le by done. case_decide; [|done].
  exists m'. rewrite outcome_ret_bind. done.
Qed.

(** The proofs of a list of keys. *)
Definition proofs_of (l : list Public) (e : H256) (p : ProofsMap) : Prop :=
  dom p = (list_to_set l : gset Public) ∧
  map_Forall (λ k sg, public_verify k (as_bytes e) sg = true) p.

Lemma sign_proofs ks e l :
  l ⊆ ks_keys ks → ∃ entries, outcome_map (sign_proof ks e) l = Ret entries ∧ entries.*1 = l ∧
    Forall (λ kv, public_verify kv.1 (as_bytes e) kv.2 = true) entries.
Proof.
  induction l as [|pk l IH]; intros Hin; [by exists []|].
  destruct IH as (entries & Hrun & Hl & Hver); [intros k Hk; apply Hin; by right|].
  destruct (sign_with_key ks pk (as_bytes e)) as (bytes & sg & Hsign & _ & Hsg & Hv); [apply Hin; by left|].
  exists ((pk, sg) :: entries). cbn [outcome_map].
  assert (sign_proof ks e pk = Ret (pk, sg)) as ->.
  { unfold sign_proof. by rewrite Hsign, unwrap_result_Ok, outcome_ret_bind; cbn; rewrite Hsg. }
  rewrite outcome_ret_bind, Hrun, outcome_ret_bind.
  cbn. rewrite Hl. split_and!; [done..|by constructor].
Qed.

Lemma collect_map_proofs l e entries :
  entries.*1 = l → Forall (λ kv, public_verify kv.1 (as_bytes e) kv.2 = true) entries →
  proofs_of l e (collect_map entries).
Proof.
  intros <- Hver. split.
  - apply set_eq. intros k. rewrite elem_of_dom, elem_of_list_to_set, list_elem_of_fmap. split.
    + intros [sg Hk%collect_map_elem_of]. by exists (k, sg).
    + intros ([k' sg] & -> & Hin). by eapply collect_map_is_Some.
  - intros k sg Hk%collect_map_elem_of. rewrite Forall_forall in Hver. by apply (Hver (k, sg)).
Qed.

Lemma proofs_n_spec room e count m :
  mock_ok (Z.to_nat count + room) m → Z.to_nat count ≤ max_proofs →
  ∃ p m', proofs_n e count m = Ret (p, m') ∧ mock_ok room m' ∧
    proofs_of (take (Z.to_nat count) (guarded (PAIRS m'))) e p ∧ size p = Z.to_nat count ∧
    Z.to_nat count ≤ length (guarded (PAIRS m')) ∧ AuthoritiesCount m' = AuthoritiesCount m.
Proof.
  intros Hok Hcount. destruct (get_pairs_spec room count m Hok) as (m' & Hrun & Hok' & Hlen & _ & Hn).
  destruct (keys_ok_take room (Z.to_nat count) _ _ (mock_keys _ _ Hok')) as (Hnd & Hin & _).
  destruct (sign_proofs (KEYSTORE m') e _ Hin) as (entries & Hsign & Hkeys & Hver).
  pose proof (collect_map_proofs _ e entries Hkeys Hver) as Hp.
  assert (size (collect_map entries) = Z.to_nat count) as Hsize.
  { rewrite <- size_dom, (proj1 Hp), size_list_to_set by done. by apply length_take_le. }
  exists (collect_map entries), m'. unfold proofs_n. rewrite Hrun, outcome_ret_bind, Hsign, outcome_ret_bind.
  rewrite decide_True by lia. by split_and!.
Qed.

End MockFacts.

Section MockDispatchFacts.
Context `{Sr25519} {KS : Type} `{!KeyStore KS} `{!KeyStoreLaws KS}.
Context {St : Type} `{StorageMapLaws H256 ProofsMap St}.
Context (overflow_checks : bool).

(** The decision on the proofs of the first [k] keys, when the first [n] are the
    authorities. *)
Definition mock_verdict (n k : Z) : option PalletError :=
  if (n <? k)%Z then Some UnrecognizedAuthority
  else if (k <? n * 2 / 3 + 1)%Z then Some NotEnoughProofs
  else None.

Lemma keys_recognized (L : list Public) (n k : nat) e (p : ProofsMap) :
  NoDup L → k ≤ length L → proofs_of (take k L) e p → size p = k →
  map_Forall (λ key _, key ∈ take n L) p ↔ k ≤ n.
Proof.
  intros Hnd Hk [Hdom _] Hsize. split.
  - intros Hall. rewrite <- Hsize, <- size_dom.
    etransitivity; [apply (subseteq_size _ (list_to_set (take n L)))|].
    + intros key [sg Hkey]%elem_of_dom. apply elem_of_list_to_set. by eapply Hall.
    + etransitivity; [apply size_list_to_set_le|]. rewrite length_take. lia.
  - intros Hle key sg Hkey. assert (key ∈ dom p) as Hd by (by apply elem_of_dom).
    rewrite Hdom, elem_of_list_to_set in Hd. apply elem_of_take in Hd as (i & Hi & Hik).
    apply elem_of_take. exists i. split; [done|lia].
Qed.

Lemma mock_admits authorities (L : list Public) (n k : nat) e p (s : pallet_state St mock_system) :
  authorities = as_slice <$> take n L → NoDup L → n ≤ length L → n ≤ max_proofs → k ≤ length L →
  proofs_of (take k L) e p → size p = k → sm_get e (streams s) = None →
  on_admits (FrameSystem0 := mock_config authorities) s e (Some p) =
  match mock_verdict (Z.of_nat n) (Z.of_nat k) with Some err => Err err | None => Ok p end.
Proof.
  intros -> Hnd Hn Hmax Hk Hp Hsize Hnew. unfold on_admits.
  rewrite decide_False by (rewrite Hnew; apply is_Some_None). cbn [config_authorities mock_config].
  rewrite (authority_publics_as_slice (take n L)), length_fmap, length_take_le by done.
  rewrite (decide_ext _ _ _ _ (keys_recognized L n k e p Hnd Hk Hp Hsize)), Hsize.
  rewrite (decide_True (P := map_Forall _ p)) by apply Hp.
  rewrite as_u16_small by (unfold max_proofs, u16_max in *; zdiv).
  unfold mock_verdict. destruct (Z.ltb_spec (Z.of_nat n) (Z.of_nat k)).
  - by rewrite decide_False by lia.
  - rewrite decide_True by lia. destruct (Z.ltb_spec (Z.of_nat k) (Z.of_nat n * 2 / 3 + 1)).
    + by rewrite decide_False by lia.
    + by rewrite decide_True by lia.
Qed.

(** In the mock runtime, with [n] authorities and on-chain proofs, a new event
    with the proofs of [proofs_n] for [k] keys is accepted exactly when
    [2n/3 + 1 <= k <= n]; with fewer the call fails with [NotEnoughProofs] and with
    more with [UnrecognizedAuthority], and then changes nothing.  This is the
    pallet's test of the target, for every number of authorities and of proofs
    up to 32 and whatever keys were made before, while the keystore can make the
    keys needed. *)
Theorem mock_validates_exactly e (m : mock KS) k (s : pallet_state St mock_system) :
  mock_ok 64 m → (0 ≤ AuthoritiesCount m ≤ 32)%Z → (0 ≤ k ≤ 32)%Z → sm_get e (streams s) = None →
  ∃ p m1 m2, proofs_n e k m = Ret (p, m1) ∧ mock_ok 0 m2 ∧ size p = Z.to_nat k ∧
    mock_validate_event overflow_checks e (Some p) m1 s =
    Ret match mock_verdict (AuthoritiesCount m) k with
        | Some err => (Err err, (m2, s))
        | None => (Ok tt, (m2, mkPallet (sm_insert e p (streams s))
                    (mkMockSystem (mock_number (system s)) (mock_events (system s) ++ [e]))))
        end.
Proof.
  intros Hok Hn Hk Hnew.
  destruct (proofs_n_spec 32 e k m) as (p & m1 & Hp & Hok1 & Hof & Hsize & Hlen1 & Hcount);
    [eapply mock_ok_room; [|exact Hok]; lia|unfold max_proofs; lia|].
  pose proof (mock_authorities_spec 0 m1) as Ha. rewrite Hcount in Ha.
  specialize (Ha (mock_ok_room 32 (Z.to_nat (AuthoritiesCount m) + 0) m1 ltac:(lia) Hok1)).
  rewrite decide_True in Ha by (unfold max_proofs; lia).
  destruct Ha as (m2 & Ha & Hok2 & Hlen2 & [new Hpre]).
  exists p, m1, m2. split_and!; [done..|]. unfold mock_validate_event. rewrite Ha, outcome_ret_bind.
  assert (take (Z.to_nat k) (guarded (PAIRS m2)) = take (Z.to_nat k) (guarded (PAIRS m1))) as Htake
    by (by rewrite Hpre, take_app_le).
  rewrite on_validate_event_spec.
  - rewrite (mock_admits _ (guarded (PAIRS m2)) (Z.to_nat (AuthoritiesCount m)) (Z.to_nat k) e p s);
      try done; [|apply Hok2|unfold max_proofs; lia|rewrite Hpre, length_app; lia|by rewrite Htake].
    rewrite !Z2Nat.id by lia. by destruct (mock_verdict (AuthoritiesCount m) k).
  - unfold on_sys_wf. cbn. apply Forall_fmap, Forall_forall. intros pk _.
    destruct (as_slice_key pk) as (h & Hh & _). cbn. by rewrite Hh, as_bytes_length.
  - intros p' [= <-]. rewrite Hsize. unfold u16_max. lia.
Qed.

(** More than 32 authorities do not fit the bound: every call panics. *)
Lemma mock_too_many_authorities e p (m : mock KS) (s : pallet_state St mock_system) :
  mock_ok (Z.to_nat (AuthoritiesCount m)) m → (32 < AuthoritiesCount m)%Z →
  mock_validate_event overflow_checks e p m s = Panic.
Proof.
  intros Hok Hn. pose proof (mock_authorities_spec 0 m) as Ha. rewrite Nat.add_0_r in Ha. specialize (Ha Hok).
  rewrite decide_False in Ha by (unfold max_proofs; lia). unfold mock_validate_event. by rewrite Ha.
Qed.

End MockDispatchFacts.

(** ** The measured block against the dispatchable *)

Section OnBenchmarkRun.
Context `{Sr25519} {KS St Sys : Type} `{!KeyStore KS} `{!KeyStoreLaws KS} `{!FrameSystem Sys}.
Context `{!StorageMap H256 bench_proofs St} `{!StorageMapLaws H256 bench_proofs St}.
Context (overflow_checks : bool) (usize_max : Z).

Definition bench_proof_ok (e : H256) (k : Public) (sig : list byte) : Prop :=
  ∃ sg, signature_from_slice sig = Some sg ∧ public_verify k (as_bytes e) sg = true.

Lemma bench_sign_spec n e (proofs : bench_proofs) (ks : KS) :
  dom proofs ⊆ (list_to_set (ks_keys ks) : gset Public) → size proofs + n ≤ max_proofs → ks_room n ks →
  map_Forall (bench_proof_ok e) proofs →
  ∃ proofs' ks', bench_sign n e proofs ks = Ret (proofs', ks') ∧ size proofs' = size proofs + n ∧
    map_Forall (bench_proof_ok e) proofs'.
Proof.
  revert proofs ks. induction n as [|n IH]; intros proofs ks Hdom Hsize Hroom Hok.
  { exists proofs, ks. split_and!; [done|lia|done]. }
  unfold ks_room in Hroom. destruct (generate_new_key ks) as (pk & ks1 & Hgen & Hnew & Hperm); [lia|].
  destruct (sign_with_key ks1 pk (as_bytes e)) as (bytes & sg & Hsign & Hlen & Hsg & Hv);
    [rewrite Hperm; by left|].
  assert (proofs !! pk = None) as Hpk.
  { apply not_elem_of_dom. intros Hin%Hdom%elem_of_list_to_set. done. }
  destruct (IH (<[pk := bytes]> proofs) ks1) as (proofs' & ks' & Hrun & Hsize' & Hok').
  - rewrite dom_insert. intros k [->%elem_of_singleton|Hk%Hdom]%elem_of_union; apply elem_of_list_to_set.
    + rewrite Hperm. by left.
    + rewrite Hperm. right. by apply elem_of_list_to_set in Hk.
  - rewrite map_size_insert_None by done. lia.
  - unfold ks_room. rewrite Hperm. cbn. lia.
  - apply map_Forall_insert_2; [by exists sg|done].
  - exists proofs', ks'. split_and!; [|rewrite Hsize', map_size_insert_None by done; lia|done].
    rewrite <- Hrun. cbn [bench_sign]. rewrite Hgen. cbn [unwrap_result]. rewrite outcome_ret_bind, Hsign.
    cbn [unwrap_result]. rewrite outcome_ret_bind. cbn [unwrap_option]. rewrite outcome_ret_bind.
    unfold try_bounded_vec. rewrite decide_True by lia. cbn [unwrap_option].
    rewrite outcome_ret_bind. unfold try_insert. rewrite decide_True by (left; lia).
    cbn [unwrap_option]. by rewrite outcome_ret_bind.
Qed.

Lemma bench_count_spec e l c :
  Forall (λ kv, bench_proof_ok e kv.1 kv.2) l → (0 ≤ c)%Z → (c + Z.of_nat (length l) ≤ u16_max)%Z →
  bench_count overflow_checks e l c = Ret (Ok (c + Z.of_nat (length l))%Z).
Proof.
  intros Hl. revert c. induction Hl as [|[k sig] l (sg & Hsg & Hv) _ IH]; intros c Hc Hmax; cbn [bench_count].
  { cbn. by rewrite Z.add_0_r. }
  cbn in Hsg, Hv. rewrite Hsg, Hv. unfold incr_u16. cbn [length] in Hmax.
  rewrite (proj2 (Z.eqb_neq c u16_max)) by lia. rewrite outcome_ret_bind, IH by lia. do 2 f_equal. cbn. lia.
Qed.

(** The signatures of the benchmark's proofs, as the pallet takes them. *)
Definition as_signatures (proofs : bench_proofs) : ProofsMap := omap signature_from_slice proofs.

Lemma as_signatures_dom e proofs :
  map_Forall (bench_proof_ok e) proofs → dom (as_signatures proofs) = dom proofs.
Proof.
  intros Hok. apply set_eq. intros k. rewrite !elem_of_dom. unfold as_signatures. rewrite lookup_omap.
  destruct (proofs !! k) as [sig|] eqn:Hk; cbn; [|done]. destruct (Hok k sig Hk) as (sg & -> & _). naive_solver.
Qed.

Lemma own_keys_contained (proofs : bench_proofs) :
  forallb (λ key, bool_decide (is_Some (proofs !! key))) (map_to_list proofs).*1 = true.
Proof.
  apply forallb_forall. intros k Hk%list_elem_of_In. apply bool_decide_eq_true_2.
  apply list_elem_of_fmap in Hk as ([k' sig] & -> & Hin). apply elem_of_map_to_list in Hin. by eexists.
Qed.

(** With a keystore that can make 32 more keys, on a chain with between 1 and 31 authorities that has not recorded the
    default hash, the on-chain benchmark completes: it makes 32 valid proofs and
    records them.  But that is not the path of the call it is to measure: the
    dispatchable, given the signatures of the same proofs on a chain with the
    same authorities, fails with [UnrecognizedAuthority]. *)
Theorem bench_measures_other_path (ks : KS) (s : pallet_state St Sys) :
  ks_room 32 ks → on_sys_wf (system s) → 1 ≤ length (config_authorities (system s)) < 32 →
  sm_get h256_default (streams s) = None →
  ∃ proofs, size proofs = 32 ∧ map_Forall (bench_proof_ok h256_default) proofs ∧
    bench_on_chain_proofs overflow_checks usize_max ks s =
      Ret (Ok tt, mkPallet (sm_insert h256_default proofs (streams s))
                           (system_deposit_event h256_default (system s))) ∧
    ∀ (St' : Type) `(StorageMapLaws H256 ProofsMap St') (s' : pallet_state St' Sys),
      system s' = system s → sm_get h256_default (streams s') = None →
      on_validate_event_impl overflow_checks h256_default (Some (as_signatures proofs)) s' =
      Ret (Err UnrecognizedAuthority, s').
Proof.
  intros Hroom Hsys Hn Hnew. destruct (bench_sign_spec max_proofs h256_default ∅ ks) as (proofs & ks' & Hrun & Hsize & Hok);
    [set_solver|by rewrite map_size_empty|done..|].
  rewrite map_size_empty in Hsize. change (0 + max_proofs) with 32 in Hsize.
  exists proofs. split_and!; [done..| |].
  - unfold bench_on_chain_proofs. rewrite Hrun, outcome_ret_bind. unfold bench_body.
    destruct (authority_publics_map _ Hsys) as [-> Hlen]. rewrite outcome_ret_bind, Hlen.
    rewrite bench_target_eq by (unfold u16_max; lia). rewrite outcome_ret_bind, sm_contains_key_get, Hnew. cbn [is_Some].
    rewrite bool_decide_eq_false_2 by apply is_Some_None. rewrite own_keys_contained.
    rewrite bench_count_spec; [|by apply map_Forall_to_list in Hok; eapply Forall_impl; [exact Hok|intros []]|done|].
    + rewrite outcome_ret_bind, length_map_to_list, Hsize. case_match eqn:Hlt; [|done].
      apply Z.ltb_lt in Hlt. exfalso. zdiv.
    + rewrite length_map_to_list, Hsize. done.
  - intros St' SM HSM s' Hs' Hnew'. pose proof (as_signatures_dom _ _ Hok) as Hdom.
    assert (size (as_signatures proofs) = 32) as Hsize' by (by rewrite <- size_dom, Hdom, size_dom).
    rewrite on_validate_event_spec; [| |intros p' [= <-]; by rewrite Hsize'].
    + unfold on_admits. rewrite decide_False by (rewrite Hnew'; apply is_Some_None).
      rewrite decide_False; [done|]. intros Hall. rewrite Hs' in Hall.
      assert (size (as_signatures proofs) ≤ length (config_authorities (system s))) as Hle; [|lia].
      destruct (authority_publics_map _ Hsys) as [_ <-]. rewrite <- size_dom.
      etransitivity; [|apply size_list_to_set_le]. apply subseteq_size.
      intros k [sg Hk]%elem_of_dom. apply elem_of_list_to_set. by eapply Hall.
    + by rewrite Hs'.
Qed.

(** Without authorities the subtraction underflows. *)
Lemma bench_no_authorities (ks : KS) (s : pallet_state St Sys) :
  ks_room 32 ks → config_authorities (system s) = [] → overflow_checks = true →
  bench_on_chain_proofs overflow_checks usize_max ks s = Panic.
Proof.
  intros Hroom Hnone ->. destruct (bench_sign_spec max_proofs h256_default ∅ ks) as (proofs & ks' & Hrun & _);
    [set_solver|by rewrite map_size_empty|done..|].
  unfold bench_on_chain_proofs. rewrite Hrun, outcome_ret_bind. unfold bench_body. by rewrite Hnone.
Qed.

End OnBenchmarkRun.

(** ** The weight *)

(** Documented behaviour: a weight saturates in each of its two parts, and an
    access to the database costs time and no proof. *)
Class WeightsLaws `{Weights} := {
  ref_time : Weight → Z;
  proof_size : Weight → Z;
  read_time : Z;
  write_time : Z;
  from_parts_time t p : ref_time (from_parts t p) = t;
  from_parts_proof t p : proof_size (from_parts t p) = p;
  saturating_add_time w w' : ref_time (saturating_add w w') = Z.min (2 ^ 64 - 1) (ref_time w + ref_time w');
  saturating_add_proof w w' :
    proof_size (saturating_add w w') = Z.min (2 ^ 64 - 1) (proof_size w + proof_size w');
  db_reads_time : ref_time (db_reads 1) = read_time;
  db_reads_proof : proof_size (db_reads 1) = 0%Z;
  db_writes_time : ref_time (db_writes 1) = write_time;
  db_writes_proof : proof_size (db_writes 1) = 0%Z
}.

(** The weight of a call, which depends neither on its proofs nor on the
    authorities. *)
Lemma validate_event_weight_parts `{WeightsLaws} :
  (0 ≤ read_time)%Z → (0 ≤ write_time)%Z →
  ref_time validate_event_weight = Z.min (2 ^ 64 - 1) (8834000 + read_time + write_time) ∧
  proof_size validate_event_weight = 3517%Z.
Proof.
  intros Hr Hw. unfold validate_event_weight.
  rewrite !saturating_add_time, !saturating_add_proof, !from_parts_time, !from_parts_proof,
    db_reads_time, db_reads_proof, db_writes_time, db_writes_proof. split; lia.
Qed.

(** ** Witnesses: a keystore that numbers its keys *)

Definition pad32 (msg : list byte) : list byte := take 32 (msg ++ replicate 32 x00).

#[local] Instance numbered_sr25519 : Sr25519 := {|
  Public := H256;
  SrSignature := list byte;
  public_from_slice := h256_of_list;
  public_from_h256 h := h;
  signature_from_slice l := if bool_decide (length l = 64) then Some l else None;
  public_verify pk msg sg := bool_decide (sg = as_bytes pk ++ pad32 msg)
|}.

Definition numbered_key (i : nat) : H256 := repeat_byte (default x00 (Byte.of_nat i)).

#[local] Instance numbered_keystore : KeyStore nat := {|
  ks_keys c := numbered_key <$> seq 0 c;
  ks_capacity := 256;
  sr25519_generate_new c := (Ok (numbered_key c), S c);
  sign_with c pk msg :=
    Ok (if bool_decide (pk ∈ numbered_key <$> seq 0 c) then Some (as_bytes pk ++ pad32 msg) else None);
  as_slice pk := as_bytes pk
|}.

Lemma numbered_key_inj i j : i < 256 → j < 256 → numbered_key i = numbered_key j → i = j.
Proof.
  intros Hi Hj Heq. assert (default x00 (Byte.of_nat i) = default x00 (Byte.of_nat j)) as Hb.
  { apply (f_equal as_bytes) in Heq. cbn in Heq. by injection Heq. }
  destruct (Byte.of_nat i) as [b|] eqn:Ei; [|apply Byte.of_nat_None_iff in Ei; lia].
  destruct (Byte.of_nat j) as [b'|] eqn:Ej; [|apply Byte.of_nat_None_iff in Ej; lia].
  cbn in Hb. subst b'. apply Byte.to_of_nat in Ei, Ej. congruence.
Qed.

#[local] Instance numbered_keystore_laws : KeyStoreLaws nat.
Proof.
  split.
  - intros c Hc. cbn in Hc. rewrite length_fmap, length_seq in Hc. exists (numbered_key c), (S c).
    split_and!; [done| |].
    + cbn. intros (i & Heq & Hi)%list_elem_of_fmap. apply elem_of_seq in Hi.
      apply numbered_key_inj in Heq; lia.
    + cbn [ks_keys numbered_keystore]. rewrite seq_S, fmap_app. apply Permutation_app_comm.
  - intros c pk msg Hpk. cbn in Hpk. exists (as_bytes pk ++ pad32 msg), (as_bytes pk ++ pad32 msg).
    assert (length (as_bytes pk ++ pad32 msg) = 64) as Hlen.
    { unfold pad32. rewrite length_app, as_bytes_length, length_take, length_app, length_replicate. lia. }
    cbn. rewrite (bool_decide_eq_true_2 _ Hpk), (bool_decide_eq_true_2 _ Hlen).
    split_and!; [done..|]. by apply bool_decide_eq_true_2.
  - intros pk. exists pk. done.
Qed.

Lemma bench_target_at_most_witness :
  ∃ t, bench_target true (2 ^ 64 - 1) 6 = Ret t ∧
    (t ≤ as_u16 (6 * 2 / 3 + 1))%Z ∧ (t = as_u16 (6 * 2 / 3 + 1) ↔ 6 mod 3 = 1)%Z.
Proof. apply (bench_target_at_most true (2 ^ 64 - 1) 6). unfold u16_max. lia. Defined.

(** Ten authorities, seven proofs. *)
Definition ten_mock : mock nat := mkMock 0 (mkMutex false []) 10.
Definition empty_mock : pallet_state (gmap H256 ProofsMap) mock_system := (new_test_ext ∅).1.

Lemma mock_validates_exactly_witness :
  ∃ p m1 m2, proofs_n (repeat_byte x2a) 7 ten_mock = Ret (p, m1) ∧ mock_ok 0 m2 ∧ size p = Z.to_nat 7 ∧
    mock_validate_event true (repeat_byte x2a) (Some p) m1 empty_mock =
    Ret (Ok tt, (m2, mkPallet (sm_insert (repeat_byte x2a) p ∅) (mkMockSystem 0 [repeat_byte x2a]))).
Proof.
  destruct (mock_validates_exactly true (repeat_byte x2a) ten_mock 7 empty_mock)
    as (p & m1 & m2 & Hp & Hok & Hsize & Hrun).
  - split; [reflexivity|]. split_and!; [apply NoDup_nil_2|apply list_subseteq_nil|unfold ks_room; cbn; lia].
  - cbn. lia.
  - lia.
  - reflexivity.
  - exists p, m1, m2. split; [exact Hp|]. split; [exact Hok|]. split; [exact Hsize|]. exact Hrun.
Defined.

(** The tests of the target, for one number of authorities. *)
Example mock_target_cases :
  (λ nk, mock_verdict nk.1 nk.2) <$>
    [(3, 2); (3, 3); (4, 2); (4, 3); (5, 3); (5, 4); (6, 4); (6, 5); (10, 6); (10, 7)]%Z =
  [Some NotEnoughProofs; None; Some NotEnoughProofs; None; Some NotEnoughProofs; None;
   Some NotEnoughProofs; None; Some NotEnoughProofs; None].
Proof. reflexivity. Qed.

#[local] Instance four_config : FrameSystem mock_system :=
  mock_config (as_bytes <$> (numbered_key <$> [200; 201; 202; 203])).

Definition bench_genesis : pallet_state (gmap H256 (gmap (@Public numbered_sr25519) (list byte))) mock_system :=
  mkPallet ∅ (mkMockSystem 0 []).

Lemma bench_measures_other_path_witness :
  ∃ proofs : gmap (@Public numbered_sr25519) (list byte), size proofs = 32 ∧
    bench_on_chain_proofs true (2 ^ 64 - 1) 0 bench_genesis =
      Ret (Ok tt, mkPallet (sm_insert h256_default proofs ∅) (mkMockSystem 0 [h256_default])) ∧
    on_validate_event_impl true h256_default (Some (as_signatures proofs)) empty_mock =
      Ret (Err UnrecognizedAuthority, empty_mock).
Proof.
  destruct (bench_measures_other_path true (2 ^ 64 - 1) 0 bench_genesis)
    as (proofs & Hsize & _ & Hrun & Hcall).
  - unfold ks_room. cbn. lia.
  - repeat constructor.
  - cbn. lia.
  - reflexivity.
  - exists proofs. split; [exact Hsize|]. split; [exact Hrun|].
    apply (Hcall (gmap H256 ProofsMap) _ _ empty_mock); reflexivity.
Defined.
