(* ===== verification/NodeBenchmarking.v ===== *)
(** * The extrinsics of the node's benchmarks

    [node/src/benchmarking.rs]: the builders of signed extrinsics that the
    [benchmark] commands use.  The signature covers the call, the signed
    extensions and the data that the runtime adds to them when it checks the
    extrinsic; the theorems show that the two agree, so that the extrinsics
    built are valid in the blocks of their era. *)

From stdpp Require Import base decidable list gmap strings.
From Stdlib Require Import Strings.Byte ZArith Lia.
From S2P Require Import Prelude Errors Proofs State Pallet Runtime RuntimeApi.

(** ** The period of an era *)

(** [u32::checked_next_power_of_two] *)
Definition checked_next_power_of_two (x : Z) : option Z :=
  let p := (2 ^ Z.log2_up x)%Z in
  if (p <=? u32_max)%Z then Some p else None.

(** The longest period that fits the number of block hashes kept. *)
Definition mortal_period (block_hash_count : Z) : Z :=
  default 2%Z ((λ c, (c / 2)%Z) <$> checked_next_power_of_two block_hash_count).

(** ** The interfaces *)

(** What the builders read from the client. *)
Record FullClient `{RuntimeTypes} := mkFullClient {
  client_block_hash : Z → result string (option BlockHash);
  info_best_hash : BlockHash;
  info_best_number : Z
}.

Arguments mkFullClient {_} _ _ _.

(** The data that the runtime adds to the signed extensions; the other extensions
    add none. *)
Record AdditionalSigned `{RuntimeTypes} := mkAdditional {
  signed_spec_version : Z;
  signed_transaction_version : Z;
  signed_genesis_hash : BlockHash;
  signed_era_hash : BlockHash
}.

Arguments mkAdditional {_} _ _ _ _.

(** [sp_core::sr25519::Pair], [sp_runtime]'s eras, addresses and signed payloads
    ([payload] is what is signed). *)
Class Signing `{RuntimeTypes} `{Sr25519} := {
  KeyPair : Type;
  public : KeyPair → Public;
  sign : KeyPair → list byte → SrSignature;
  account_id : Public → list byte;
  era_mortal : Z → Z → Era;
  era_birth : Era → Z → Z;
  payload : RuntimeCall → SignedExtra → AdditionalSigned → list byte;
  keyring_alice : KeyPair;
  keyring_bob : KeyPair
}.

(** Documented behaviour: a signature verifies with the key of its pair.  An era
    for a period that is a power of two between 4 and 4096 (beyond, its start is
    rounded) starts at the given block, and is the same at each of the blocks
    of the period. *)
Class SigningLaws `{Signing} : Prop := {
  sign_verifies pair msg : public_verify (public pair) msg (sign pair msg) = true;
  era_birth_mortal k current n :
    (2 ≤ k ≤ 12)%Z → (0 ≤ current)%Z → (current ≤ n < current + 2 ^ k)%Z →
    era_birth (era_mortal (2 ^ k) current) n = current
}.

Section Building.
Context `{Signing}.

(** ** The operations *)

Definition create_benchmark_extrinsic (client : FullClient) (sender : KeyPair) (call : RuntimeCall)
    (nonce : Z) : outcome UncheckedExtrinsic :=
  genesis_hash ← unwrap_option (mjoin (ok (client_block_hash client 0)));
  let best_hash := info_best_hash client in
  let best_block := info_best_number client in
  let period := mortal_period BlockHashCount in
  let extra := mkExtra (era_mortal period best_block) nonce 0 in
  let raw_payload := payload call extra
    (mkAdditional (spec_version VERSION) (transaction_version VERSION) genesis_hash best_hash) in
  let signature := sign sender raw_payload in
  Ret (mkExtrinsic (Some (account_id (public sender), Sr25519Signature signature, extra)) call).

(** [frame_benchmarking_cli::ExtrinsicBuilder] *)
Record ExtrinsicBuilder := mkBuilder {
  builder_pallet : string;
  builder_extrinsic : string;
  build : Z → outcome (result string UncheckedExtrinsic)
}.

Definition RemarkBuilder (client : FullClient) : ExtrinsicBuilder := {|
  builder_pallet := "system";
  builder_extrinsic := "remark";
  build nonce :=
    extrinsic ← create_benchmark_extrinsic client keyring_bob (SystemCall (remark [])) nonce;
    Ret (Ok extrinsic)
|}.

Definition TransferKeepAliveBuilder (client : FullClient) (dest : list byte) (value : Z) :
    ExtrinsicBuilder := {|
  builder_pallet := "balances";
  builder_extrinsic := "transfer_keep_alive";
  build nonce :=
    extrinsic ← create_benchmark_extrinsic client keyring_bob
                  (BalancesCall (transfer_keep_alive dest value)) nonce;
    Ret (Ok extrinsic)
|}.

End Building.

(** [InherentData] and [sp_timestamp::InherentDataProvider] *)
Class Inherents := {
  InherentData : Type;
  InherentError : Type;
  inherent_error_debug : InherentError → string;
  inherent_data_new : InherentData;
  provide_timestamp : Z → InherentData → result InherentError InherentData
}.

(** The inherent data of the benchmarks: the time 0. *)
Definition inherent_benchmark_data `{Inherents} : result string InherentData :=
  map_err (λ e, "creating inherent data: " +:+ inherent_error_debug e)
    (provide_timestamp 0 inherent_data_new).

(** ** How the runtime checks a signed extrinsic *)

(** [Executive]'s check of a signed extrinsic in the block [now] of a chain with
    the given hashes: the account it is from, when it is valid. *)
Class SignedChecks `{Signing} := {
  check_signed : (Z → BlockHash) → Z → UncheckedExtrinsic → option (list byte)
}.

(** The hashes that [frame_system] keeps at block [now]: the genesis and the last
    [BlockHashCount] blocks. *)
Definition hash_kept (now b : Z) : Prop := b = 0%Z ∨ (now - BlockHashCount ≤ b < now)%Z.

(** Documented behaviour: the signature must verify for the payload of the call,
    its extensions, and the runtime's own version, genesis hash and hash of the
    block at which the era starts, which must be kept. *)
Class SignedChecksLaws `{SignedChecks} : Prop := {
  check_signed_ok hash_at now pk sg extra call :
    hash_kept now (era_birth (check_era extra) now) →
    public_verify pk (payload call extra (mkAdditional (spec_version VERSION)
      (transaction_version VERSION) (hash_at 0%Z) (hash_at (era_birth (check_era extra) now)))) sg = true →
    check_signed hash_at now
      (mkExtrinsic (Some (account_id pk, Sr25519Signature sg, extra)) call) = Some (account_id pk)
}.

(** ** The period is as long as the kept hashes allow *)

Lemma checked_next_power_of_two_spec x :
  (1 < x ≤ u32_max)%Z →
  match checked_next_power_of_two x with
  | Some p => ∃ k, (0 < k)%Z ∧ p = (2 ^ k)%Z ∧ (2 ^ (k - 1) < x ≤ 2 ^ k)%Z
  | None => (2 ^ 31 < x)%Z
  end.
Proof.
  intros Hx. unfold checked_next_power_of_two. pose proof (Z.log2_up_spec x ltac:(lia)) as Hs.
  rewrite <- Z.sub_1_r in Hs. assert (0 < Z.log2_up x)%Z as Hpos by (apply Z.log2_up_pos; lia).
  destruct (Z.leb_spec (2 ^ Z.log2_up x) u32_max) as [Hle|Hgt].
  - by exists (Z.log2_up x).
  - assert (31 < Z.log2_up x)%Z as H31.
    { apply (Z.pow_lt_mono_r_iff 2); [lia..|]. unfold u32_max in Hgt. lia. }
    assert (2 ^ 31 ≤ 2 ^ (Z.log2_up x - 1))%Z by (apply Z.pow_le_mono_r; lia). lia.
Qed.

(** For every [u32] number of kept hashes from 2 up to [2^31], the period of
    the benchmark's extrinsics is the longest power of two that is less than
    that number, so the hash of the block at which they start is kept for all of
    it; above, where the next power of two overflows, it is 2. *)
Theorem mortal_period_correct (count : Z) :
  (2 ≤ count ≤ u32_max)%Z →
  ((count ≤ 2 ^ 31)%Z →
   ∃ k, (0 ≤ k < 31)%Z ∧ mortal_period count = (2 ^ k)%Z ∧ (2 ^ k < count ≤ 2 ^ (k + 1))%Z) ∧
  ((2 ^ 31 < count)%Z → mortal_period count = 2%Z).
Proof.
  intros Hc. pose proof (checked_next_power_of_two_spec count ltac:(lia)) as Hs. unfold mortal_period.
  destruct (checked_next_power_of_two count) as [p|] eqn:E; cbn.
  - destruct Hs as (k & Hk & -> & Hlo & Hhi). split.
    + intros H31. exists (k - 1)%Z. replace (2 ^ k)%Z with (2 ^ (k - 1) * 2)%Z in *.
      2: { rewrite Z.mul_comm, <- Z.pow_succ_r by lia. f_equal. lia. }
      rewrite Z.div_mul by done. split; [|split; [done|]].
      * split; [lia|]. apply (Z.pow_lt_mono_r_iff 2); lia.
      * rewrite Z.add_1_r, Z.pow_succ_r by lia. lia.
    + intros H31. exfalso. unfold checked_next_power_of_two in E. case_match eqn:Hle; [|done].
      injection E as E. apply Z.leb_le in Hle. rewrite E in Hle.
      assert (31 < k)%Z by (apply (Z.pow_lt_mono_r_iff 2); lia).
      assert (2 ^ 32 ≤ 2 ^ k)%Z by (apply Z.pow_le_mono_r; lia). unfold u32_max in Hle. lia.
  - split; [lia|done].
Qed.

Section Valid.
Context `{SigningLaws} `{!SignedChecks} `{!SignedChecksLaws}.

Lemma runtime_period : mortal_period BlockHashCount = (2 ^ 11)%Z.
Proof. reflexivity. Qed.

(** The client is at a block of the chain. *)
Record client_at (hash_at : Z → BlockHash) (client : FullClient) : Prop := mkClientAt {
  client_genesis : client_block_hash client 0 = Ok (Some (hash_at 0%Z));
  client_best : info_best_hash client = hash_at (info_best_number client);
  client_height : (0 ≤ info_best_number client)%Z
}.

Lemma created_extrinsic_valid hash_at client sender call nonce now :
  client_at hash_at client →
  (info_best_number client < now < info_best_number client + 2 ^ 11)%Z →
  ∃ ext, create_benchmark_extrinsic client sender call nonce = Ret ext ∧ function ext = call ∧
    (∃ addr sg extra, extrinsic_signature ext = Some (addr, sg, extra) ∧ check_nonce extra = nonce ∧
       charge_transaction_payment extra = 0%Z) ∧
    check_signed hash_at now ext = Some (account_id (public sender)).
Proof.
  intros [Hg Hb Hh] Hnow. unfold create_benchmark_extrinsic. rewrite Hg, runtime_period. cbn [ok mjoin option_join unwrap_option].
  rewrite outcome_ret_bind. eexists. split; [done|]. split; [done|]. split; [by eexists _, _, _|].
  assert (era_birth (era_mortal (2 ^ 11) (info_best_number client)) now = info_best_number client) as Hbirth
    by (apply era_birth_mortal; lia).
  apply check_signed_ok; cbn [check_era]; rewrite Hbirth.
  - right. unfold BlockHashCount. lia.
  - rewrite <- Hb. apply sign_verifies.
Qed.

(** The extrinsics of both benchmark builders are valid: built by a client
    whose best block is block [b] of a chain, for any nonce, each is a call of
    the pallet and function that its builder names, and the runtime accepts its
    signature, as Bob's, in each of the blocks [b + 1] to [b + 2047] of that
    chain. *)
Theorem builders_valid hash_at client dest value nonce now builder :
  client_at hash_at client →
  (info_best_number client < now < info_best_number client + 2048)%Z →
  builder ∈ [RemarkBuilder client; TransferKeepAliveBuilder client dest value] →
  ∃ ext, build builder nonce = Ret (Ok ext) ∧
    check_signed hash_at now ext = Some (account_id (public keyring_bob)) ∧
    (∃ addr sg extra, extrinsic_signature ext = Some (addr, sg, extra) ∧ check_nonce extra = nonce) ∧
    (builder_pallet builder, builder_extrinsic builder, function ext) ∈
      [("system", "remark", SystemCall (remark []));
       ("balances", "transfer_keep_alive", BalancesCall (transfer_keep_alive dest value))].
Proof.
  intros Hc Hnow [->|[->|[]%elem_of_nil]%elem_of_cons]%elem_of_cons; cbn [build RemarkBuilder TransferKeepAliveBuilder].
  all: match goal with |- context [create_benchmark_extrinsic _ _ ?call _] =>
    destruct (created_extrinsic_valid hash_at client keyring_bob call nonce now Hc)
      as (ext & -> & Hf & (addr & sg & extra & Hsig & Hnonce & _) & Hok); [lia|] end.
  all: rewrite outcome_ret_bind; exists ext; split; [done|]; split; [done|];
    split; [by exists addr, sg, extra|]; rewrite Hf; cbn; set_solver.
Qed.

(** Without a genesis block there is nothing to build: the builders panic. *)
Lemma create_without_genesis client sender call nonce :
  (∀ h, client_block_hash client 0 ≠ Ok (Some h)) →
  create_benchmark_extrinsic client sender call nonce = Panic.
Proof.
  intros Hno. unfold create_benchmark_extrinsic.
  destruct (client_block_hash client 0) as [[h|]|] eqn:E; try done. by destruct (Hno h).
Qed.

End Valid.

(** ** Witnesses: keys and payloads of bytes *)

From S2P Require Import InMemory Concrete.

#[local] Existing Instance toy_runtime.

Definition toy_payload `{Sr25519} (call : RuntimeCall) (extra : SignedExtra) (add : AdditionalSigned) :
    list byte :=
  replicate (Z.to_nat (check_nonce extra)) x01 ++ replicate (signed_genesis_hash add) x02 ++
  replicate (signed_era_hash add) x03 ++ replicate (Z.to_nat (signed_spec_version add)) x04.

#[local] Instance toy_signing : Signing := {|
  KeyPair := byte;
  public b := toy_key b;
  sign b msg := toy_key b ++ msg;
  account_id pk := pk;
  era_mortal period current := Mortal period current;
  era_birth era n := match era with Mortal _ birth => birth | Immortal => 0%Z end;
  payload := toy_payload;
  keyring_alice := x0a;
  keyring_bob := x0b
|}.

#[local] Instance toy_signing_laws : SigningLaws.
Proof. split; [|done]. intros b msg. by apply bool_decide_eq_true_2. Qed.

#[local] Instance hash_kept_decision now b : Decision (hash_kept now b).
Proof. unfold hash_kept. apply _. Defined.

#[local] Instance toy_checks : SignedChecks := {|
  check_signed hash_at now ext :=
    match extrinsic_signature ext with
    | Some (addr, Sr25519Signature sg, extra) =>
        let birth := era_birth (check_era extra) now in
        if decide (hash_kept now birth) then
          if public_verify addr (payload (function ext) extra (mkAdditional (spec_version VERSION)
               (transaction_version VERSION) (hash_at 0%Z) (hash_at birth))) sg
          then Some addr else None
        else None
    | _ => None
    end
|}.

#[local] Instance toy_checks_laws : SignedChecksLaws.
Proof.
  split. intros hash_at now pk sg extra call Hkept Hv. cbn [check_signed toy_checks extrinsic_signature].
  cbn zeta. rewrite decide_True by done. cbn [account_id toy_signing function] in *. by rewrite Hv.
Qed.

Lemma mortal_period_correct_witness :
  (2 ≤ BlockHashCount ≤ u32_max)%Z ∧
  ∃ k, (0 ≤ k < 31)%Z ∧ mortal_period BlockHashCount = (2 ^ k)%Z ∧
    (2 ^ k < BlockHashCount ≤ 2 ^ (k + 1))%Z.
Proof.
  assert (2 ≤ BlockHashCount ≤ u32_max)%Z as Hc by (unfold BlockHashCount, u32_max; lia).
  split; [exact Hc|]. destruct (mortal_period_correct BlockHashCount Hc) as [Hk _].
  apply Hk. unfold BlockHashCount. lia.
Defined.

(** The hash of a block is its number. *)
Definition toy_hash_at : Z → BlockHash := Z.to_nat.

Definition toy_full_client : FullClient := mkFullClient (λ n, Ok (Some (Z.to_nat n))) 7 7.

Lemma builders_valid_witness :
  ∃ ext, build (RemarkBuilder toy_full_client) 3 = Ret (Ok ext) ∧
    check_signed toy_hash_at 2000 ext = Some (toy_key x0b).
Proof.
  destruct (builders_valid toy_hash_at toy_full_client [] 500 3 2000 (RemarkBuilder toy_full_client))
    as (ext & Hb & Hok & _).
  - split; reflexivity || (cbn; lia).
  - cbn. lia.
  - left.
  - exists ext. split; [exact Hb|exact Hok].
Defined.
