(* ===== verification/Validate.v ===== *)
(** * Finalized events

    [consensus/src/events/validate.rs]: the events of a block, once the block
    is finalized.  The call watches the chain change under it: its state is
    the sequence of what the client shows, one [chain_view] for each attempt;
    the first is the chain when the call starts, and each next one is the
    chain at a finality notification. *)

From stdpp Require Import base decidable list gmap strings.
From Stdlib Require Import Strings.Byte ZArith Lia.
From S2P Require Import Prelude Errors State Concrete.

(** [trait EventValidatorTrait] *)
Class EventValidatorTrait (Validator : Type) := {
  finalized_block_events : Z → Validator → outcome (result Error (list H256) * Validator);
  latest_finalized_block : Validator → outcome (result Error Z * Validator)
}.

(** What the client answers: the finalized block of this attempt (the chain's
    information, then the notifications), the hash of a block number on the
    best chain, the lowest common ancestor of two blocks, block bodies and
    the runtime API. *)
Record chain_view `{ChainTypes} := mkView {
  last_finalized : Hash;
  last_finalized_number : Z;
  block_hash : Z → result string (option Hash);
  lowest_common_ancestor : Hash → Hash → result string Hash;
  block_body : Hash → result string (option (list Extrinsic));
  extrinsic_ids : Hash → list Extrinsic → result string (list H256)
}.

Section Validator.
Context `{ChainTypes}.

(** One attempt: the block to use, if it is there and finalized. *)
Definition finalized_block (block_num : Z) (view : chain_view) : option Hash :=
  match block_hash view block_num with
  | Ok (Some hash) =>
      match lowest_common_ancestor view (last_finalized view) hash with
      | Ok common_ancestor => if decide (common_ancestor = hash) then Some hash else None
      | Err _ => None
      end
  | _ => None
  end.

(** The loop over attempts; it has not returned while no attempt succeeded. *)
Fixpoint await_finalized (block_num : Z) (views : list chain_view) :
    outcome (Hash * chain_view * list chain_view) :=
  match views with
  | [] => Diverge
  | view :: rest =>
      match finalized_block block_num view with
      | Some block_id => Ret (block_id, view, view :: rest)
      | None => await_finalized block_num rest
      end
  end.

(** The events of a block; a missing body and a failing runtime call count as
    no events. *)
Definition block_event_ids (view : chain_view) (block_id : Hash) : list H256 :=
  let block_extrinsics := default [] (ok (block_body view block_id) ≫= λ b, b) in
  unwrap_or [] (extrinsic_ids view block_id block_extrinsics).

Definition get_finalized_block_events (block_num : Z) (views : list chain_view) :
    outcome (result Error (list H256) * list chain_view) :=
  '(block_id, view, views') ← await_finalized block_num views;
  Ret (Ok (block_event_ids view block_id), views').

Definition get_latest_finalized_block (views : list chain_view) :
    outcome (result Error Z * list chain_view) :=
  match views with
  | [] => Diverge
  | view :: _ => Ret (Ok (last_finalized_number view), views)
  end.

#[export] Instance chain_validator : EventValidatorTrait (list chain_view) := {|
  finalized_block_events := get_finalized_block_events;
  latest_finalized_block := get_latest_finalized_block
|}.

(** ** When a block is finalized *)

(** Documented behaviour of [lowest_common_ancestor], in a view with an ancestry
    relation: the ancestor found is the second block exactly when that block
    is an ancestor of the first, or the first itself. *)
Definition lca_sound (ancestor : Hash → Hash → Prop) (view : chain_view) : Prop :=
  ∀ a b, lowest_common_ancestor view a b = Ok b ↔ ancestor b a.

(** The block with that number is on the best chain and below the last
    finalized block. *)
Definition is_finalized (ancestor : Hash → Hash → Prop) (view : chain_view) (block_num : Z) (h : Hash) :
    Prop :=
  block_hash view block_num = Ok (Some h) ∧ ancestor h (last_finalized view).

Lemma finalized_block_spec ancestor view block_num h :
  lca_sound ancestor view →
  finalized_block block_num view = Some h ↔ is_finalized ancestor view block_num h.
Proof.
  intros Hlca. unfold finalized_block, is_finalized.
  destruct (block_hash view block_num) as [[h'|]|]; [|naive_solver..].
  destruct (lowest_common_ancestor view (last_finalized view) h') as [a|] eqn:E.
  - case_decide as Ha; split.
    + intros [= <-]. split; [done|]. apply Hlca. by rewrite E, Ha.
    + by intros [[= ->] _].
    + done.
    + intros [[= <-] Hanc]. apply Hlca in Hanc. congruence.
  - split; [done|]. intros [[= <-] Hanc]. apply Hlca in Hanc. congruence.
Qed.

Lemma await_finalized_spec block_num views :
  match await_finalized block_num views with
  | Ret (h, view, views') =>
      ∃ earlier, views = earlier ++ views' ∧ head views' = Some view ∧
        finalized_block block_num view = Some h ∧
        Forall (λ v, finalized_block block_num v = None) earlier
  | Panic => False
  | Diverge => Forall (λ v, finalized_block block_num v = None) views
  end.
Proof.
  induction views as [|v views IH]; cbn; [constructor|].
  destruct (finalized_block block_num v) as [h|] eqn:Ef; [by exists []|].
  destruct (await_finalized block_num views) as [[[h view] views']| |].
  - destruct IH as (earlier & -> & ? & ? & ?). exists (v :: earlier). split_and!; [done..|].
    by constructor.
  - done.
  - by constructor.
Qed.

(** C33: [get_finalized_block_events] returns at the first attempt at which the
    block is finalized, with the events of that finalized block, and never
    earlier: it does not return events of a block outside the finalized chain.
    While the block is not finalized it waits, and it never fails or
    panics. *)
Theorem get_finalized_block_events_correct ancestor block_num (views : list chain_view) :
  Forall (lca_sound ancestor) views →
  match get_finalized_block_events block_num views with
  | Ret (r, views') =>
      ∃ earlier view h, views = earlier ++ views' ∧ head views' = Some view ∧
        is_finalized ancestor view block_num h ∧ r = Ok (block_event_ids view h) ∧
        Forall (λ v, ∀ h', ¬ is_finalized ancestor v block_num h') earlier
  | Panic => False
  | Diverge => Forall (λ v, ∀ h', ¬ is_finalized ancestor v block_num h') views
  end.
Proof.
  intros Hl. unfold get_finalized_block_events.
  assert (∀ vs, vs ⊆ views → Forall (λ v, finalized_block block_num v = None) vs →
    Forall (λ v, ∀ h', ¬ is_finalized ancestor v block_num h') vs) as Hnot.
  { intros vs Hvs Hn. rewrite !Forall_forall in *. intros v Hv h' Hfin.
    apply (finalized_block_spec ancestor) in Hfin; [|by apply Hl, Hvs].
    specialize (Hn v Hv). congruence. }
  pose proof (await_finalized_spec block_num views) as Hspec.
  destruct (await_finalized block_num views) as [[[h view] views']| |]; [|done|by apply Hnot].
  rewrite outcome_ret_bind. destruct Hspec as (earlier & -> & Hhead & Hfin & Hearlier).
  exists earlier, view, h. split_and!; [done..| |done|].
  - apply (finalized_block_spec ancestor); [|done].
    apply Forall_app in Hl as [_ Hl]. destruct views'; simplify_eq/=. by inversion Hl.
  - apply Hnot; [|done]. set_solver.
Qed.

End Validator.

(** ** Witness: the block is finalized at the second attempt *)

Definition toy_view (fin : nat) : chain_view := {|
  last_finalized := fin;
  last_finalized_number := Z.of_nat fin;
  block_hash num := Ok (if decide (0 ≤ num ≤ 9)%Z then Some (Z.to_nat num) else None);
  lowest_common_ancestor a b := Ok (Nat.min a b);
  block_body h := Ok (Some [(repeat_byte x2a, None)]);
  extrinsic_ids _ exts := Ok (fst <$> exts)
|}.

Lemma get_finalized_block_events_correct_witness :
  ∃ views' view h, get_finalized_block_events 4 [toy_view 3; toy_view 5] =
      Ret (Ok (block_event_ids view h), views') ∧
    is_finalized (λ b a, b ≤ a) view 4 h.
Proof.
  assert (Forall (lca_sound (λ b a, b ≤ a)) [toy_view 3; toy_view 5]) as Hl.
  { repeat constructor.
    all: try (cbn; intros [= E]; lia). all: cbn; intros; f_equal; lia. }
  pose proof (get_finalized_block_events_correct (λ b a, b ≤ a) 4 [toy_view 3; toy_view 5] Hl) as H.
  assert (match get_finalized_block_events 4 [toy_view 3; toy_view 5] with
          | Ret _ => true | _ => false end = true) as E by (vm_compute; reflexivity).
  destruct (get_finalized_block_events 4 [toy_view 3; toy_view 5]) as [[r views']| |];
    [|discriminate E..].
  destruct H as (_ & view & h & _ & _ & Hfin & Hr & _). exists views', view, h.
  rewrite Hr. split; [reflexivity|exact Hfin].
Defined.
