(* ===== verification/Server.v ===== *)
(** * The gRPC server

    [consensus/src/server.rs]: the trusted client submits event ids with
    [witness_event] and follows the finalized events with [validated_events],
    a stream that a client can resume at any block; the server task runs one
    server for each address. *)

From stdpp Require Import base decidable list gmap strings.
From Stdlib Require Import Strings.Byte ZArith Lia.
From S2P Require Import Prelude Errors State Validate.

(** [tonic::Status], with the codes the server uses. *)
Inductive Status : Type :=
| InvalidArgument (message : string)
| Aborted (message : string).

Record ValidatedEventsRequest := mkRequest { from_block : Z; from_latest : bool }.
Record ValidatedEventsResponse := mkResponse { next_block : Z; events : list (list byte) }.

(** [trait EventWitnesserTrait] *)
Class EventWitnesserTrait (Witnesser : Type) := {
  witness : H256 → M Witnesser Error unit
}.

(** ** Running the server *)

Section RunServer.
Context {SocketAddr : Type} (show : SocketAddr → string).

(** The addresses in the log line, each with a comma in front. *)
Definition grpc_addrs_text (grpc_addrs : list SocketAddr) : string :=
  foldl (λ acc arg, acc +:+ ", " +:+ show arg) "" grpc_addrs.

(** [future::try_join_all] on the servers that have ended so far, in the order in
    which they ended: the first error, or success when all have ended; otherwise
    it is still running. *)
Fixpoint try_join_all (running : nat) (ended : list (result string unit)) : option (result string unit) :=
  match running, ended with
  | O, _ => Some (Ok tt)
  | S _, [] => None
  | S running', Ok _ :: rest => try_join_all running' rest
  | S _, Err e :: _ => Some (Err e)
  end.

(** [run]: one server for each address. *)
Definition server_run (grpc_addrs : list SocketAddr) (ended : list (result string unit)) :
    option (result Error unit) :=
  map_err Other <$> try_join_all (length grpc_addrs) ended.

(** The server task fails as soon as one of its servers has failed, with the error
    of the first, ends well only when all of them have, and runs otherwise. *)
Theorem server_run_correct (grpc_addrs : list SocketAddr) (ended : list (result string unit)) :
  length ended ≤ length grpc_addrs →
  (∀ err, server_run grpc_addrs ended = Some (Err err) ↔
     ∃ pre e post, ended = pre ++ Err e :: post ∧ Forall (.= Ok tt) pre ∧ err = Other e) ∧
  (server_run grpc_addrs ended = Some (Ok tt) ↔
     length ended = length grpc_addrs ∧ Forall (.= Ok tt) ended).
Proof.
  unfold server_run. generalize (length grpc_addrs) as n. intros n. revert n.
  induction ended as [|[[]|e] ended IH]; intros [|n] Hlen; cbn in *; try lia.
  - split; [|by split]. intros err. split; [done|]. by intros ([] & ? & ? & [=] & _).
  - split; [|by split; [done|intros [? _]]]. intros err. split; [done|]. by intros ([] & ? & ? & [=] & _).
  - destruct (IH n ltac:(lia)) as [IHe IHo]. split.
    + intros err. rewrite IHe. split.
      * intros (pre & e & post & -> & Hpre & ->). exists (Ok tt :: pre), e, post. by rewrite Forall_cons.
      * intros ([|r pre] & e & post & [= <- ->] & Hpre & ->). apply Forall_cons in Hpre as [_ Hpre].
        by exists pre, e, post.
    + rewrite IHo, Forall_cons. naive_solver lia.
  - split.
    + intros err. split.
      * intros [= <-]. by exists [], e, ended.
      * intros ([|r pre] & e' & post & Heq & Hpre & ->); [by injection Heq as -> _|].
        injection Heq as <- ->. by apply Forall_cons in Hpre as [? _].
    + split; [done|]. intros [_ Hall]. by apply Forall_cons in Hall as [? _].
Qed.

End RunServer.

Section Server.
Context {Witnesser : Type} `{EventWitnesserTrait Witnesser}.
Context {Validator : Type} `{EventValidatorTrait Validator}.

(** [Streams::witness_event] *)
Definition rpc_witness_event (event_id : list byte) : M Witnesser Status unit :=
  event_id ← (if (length event_id =? 32)%nat then lift_outcome (from_slice event_id)
              else throw (InvalidArgument "invalid event_id length (expected 32 bytes)")
              : M Witnesser Status H256);
  M_map_err (λ e, Aborted (to_string e)) (witness event_id) ≫= λ _,
  mret tt.

(** [block_num + 1] on a [u32] *)
Definition incr_u32 (overflow_checks : bool) (x : Z) : outcome Z :=
  if (x =? u32_max)%Z then if overflow_checks then Panic else Ret 0%Z else Ret (x + 1)%Z.

(** One step of the stream: an item and the next block number. *)
Definition stream_step (overflow_checks : bool) (block_num : Z) (v : Validator) :
    outcome (result Status ValidatedEventsResponse * Z * Validator) :=
  next ← incr_u32 overflow_checks block_num;
  '(r, v') ← finalized_block_events block_num v;
  match r with
  | Err e => Ret (Err (Aborted (to_string e)), next, v')
  | Ok evs => Ret (Ok (mkResponse next (as_bytes <$> evs)), next, v')
  end.

(** The first [n] items of [stream::unfold]. *)
Fixpoint stream_items (overflow_checks : bool) (n : nat) (block_num : Z) (v : Validator) :
    outcome (list (result Status ValidatedEventsResponse) * Validator) :=
  match n with
  | O => Ret ([], v)
  | S n' =>
      '(item, next, v') ← stream_step overflow_checks block_num v;
      '(items, v'') ← stream_items overflow_checks n' next v';
      Ret (item :: items, v'')
  end.

(** Where the stream starts: [from_latest] only counts when no block is given. *)
Definition stream_start (request : ValidatedEventsRequest) (v : Validator) : outcome (Z * Validator) :=
  if (from_block request =? 0)%Z && from_latest request then
    '(r, v') ← latest_finalized_block v; Ret (unwrap_or 0%Z r, v')
  else Ret (from_block request, v).

(** [Streams::validated_events], as the first [n] items of the stream it
    returns. *)
Definition rpc_validated_events (overflow_checks : bool) (request : ValidatedEventsRequest) (n : nat)
    (v : Validator) : outcome (list (result Status ValidatedEventsResponse) * Validator) :=
  '(start, v') ← stream_start request v;
  stream_items overflow_checks n start v'.

(** ** Submitting events *)

(** An event id that is not exactly 32 bytes long is refused with
    [InvalidArgument] and nothing happens; a 32-byte id is passed to the
    witnesser as it is, without a panic, and an error of the witnesser is
    returned as [Aborted] with its text. *)
Theorem rpc_witness_event_correct (bytes : list byte) (w : Witnesser) :
  (length bytes ≠ 32 →
   rpc_witness_event bytes w =
   Ret (Err (InvalidArgument "invalid event_id length (expected 32 bytes)"), w)) ∧
  (length bytes = 32 → ∃ e, as_bytes e = bytes ∧
   ∀ r w', witness e w = Ret (r, w') →
     rpc_witness_event bytes w = Ret (map_err (λ err, Aborted (error_fmt err)) r, w')).
Proof.
  unfold rpc_witness_event. split; intros Hlen.
  - by rewrite (proj2 (Nat.eqb_neq _ _) Hlen).
  - destruct (h256_of_list_Some bytes Hlen) as (e & He & Hbytes). exists e. split; [done|].
    intros r w' Hw. rewrite (proj2 (Nat.eqb_eq _ _) Hlen).
    erewrite M_bind_ok; [|unfold lift_outcome, from_slice; by rewrite He].
    unfold mbind, M_bind, M_map_err. rewrite Hw. by destruct r as [[]|].
Qed.

(** ** The stream *)

(** The item for a block whose events, or error, are [r]. *)
Definition stream_item (block_num : Z) (r : result Error (list H256)) :
    result Status ValidatedEventsResponse :=
  match r with
  | Ok evs => Ok (mkResponse (block_num + 1) (as_bytes <$> evs))
  | Err e => Err (Aborted (error_fmt e))
  end.

Lemma stream_step_spec checks b v r v' :
  (0 ≤ b < u32_max)%Z → finalized_block_events b v = Ret (r, v') →
  stream_step checks b v = Ret (stream_item b r, (b + 1)%Z, v').
Proof.
  intros Hb Hev. unfold stream_step, incr_u32. rewrite (proj2 (Z.eqb_neq b u32_max)) by lia.
  rewrite outcome_ret_bind, Hev, outcome_ret_bind. by destruct r.
Qed.

(** What the validator answers for consecutive blocks. *)
Inductive answers : Z → Validator → list (result Error (list H256)) → Validator → Prop :=
| answers_nil b v : answers b v [] v
| answers_cons b v r v' rs v'' :
    finalized_block_events b v = Ret (r, v') → answers (b + 1) v' rs v'' →
    answers b v (r :: rs) v''.

(** C34: the stream delivers one item for each block from its start on, in order,
    none skipped or repeated, an error included: item [i] carries the events of
    block [start + i] as bytes and names the next block; an error of the
    validator does not end the stream. *)
Theorem stream_items_correct checks (b : Z) (v v' : Validator) rs :
  (0 ≤ b)%Z → (b + Z.of_nat (length rs) ≤ u32_max)%Z → answers b v rs v' →
  ∃ items, stream_items checks (length rs) b v = Ret (items, v') ∧ length items = length rs ∧
    ∀ i r, rs !! i = Some r → items !! i = Some (stream_item (b + Z.of_nat i) r).
Proof.
  intros Hb Hlen Hans. induction Hans as [b v|b v r v1 rs v' Hev _ IH].
  { by exists []. }
  cbn [length] in Hlen. destruct IH as (items & Hrun & Hl & Hitems); [lia..|].
  exists (stream_item b r :: items). split_and!.
  - cbn [stream_items length]. rewrite (stream_step_spec checks b v r v1) by (done || lia).
    rewrite outcome_ret_bind, Hrun. done.
  - cbn. by rewrite Hl.
  - intros [|i] r' Hr; simplify_eq/=; [by rewrite Z.add_0_r|].
    rewrite (Hitems i r' Hr). do 2 f_equal. lia.
Qed.

Lemma stream_items_split checks n m b v :
  (0 ≤ b)%Z → (b + Z.of_nat n ≤ u32_max)%Z →
  stream_items checks (n + m) b v =
  '(items, v') ← stream_items checks n b v;
  '(items', v'') ← stream_items checks m (b + Z.of_nat n) v';
  Ret (items ++ items', v'').
Proof.
  revert b v. induction n as [|n IH]; intros b v Hb Hn.
  { cbn. rewrite Z.add_0_r. by destruct (stream_items checks m b v) as [[items' v'']| |]. }
  cbn [stream_items Nat.add]. unfold stream_step, incr_u32.
  rewrite (proj2 (Z.eqb_neq b u32_max)) by lia. rewrite outcome_ret_bind.
  destruct (finalized_block_events b v) as [[r v1]| |]; [|done..].
  rewrite !outcome_ret_bind. replace (b + Z.of_nat (S n))%Z with (b + 1 + Z.of_nat n)%Z by lia.
  destruct r as [evs|e]; rewrite !outcome_ret_bind, IH by lia;
    (destruct (stream_items checks n (b + 1) v1) as [[items v']| |]; [|done..]);
    rewrite !outcome_ret_bind;
    by destruct (stream_items checks m (b + 1 + Z.of_nat n) v') as [[items' v'']| |].
Qed.

(** A client that lost its connection resumes without a gap or a
    repetition: [n + m] items of a stream are its first [n], followed by the
    first [m] of a stream requested from the [next_block] after them. *)
Theorem stream_resumes checks n m (b : Z) (v : Validator) :
  (0 < b)%Z → (b + Z.of_nat n ≤ u32_max)%Z →
  rpc_validated_events checks (mkRequest b false) (n + m) v =
  '(items, v') ← rpc_validated_events checks (mkRequest b false) n v;
  '(items', v'') ← rpc_validated_events checks (mkRequest (b + Z.of_nat n) true) m v';
  Ret (items ++ items', v'').
Proof.
  intros Hb Hn. unfold rpc_validated_events, stream_start. cbn [from_block from_latest].
  rewrite Bool.andb_false_r, !outcome_ret_bind.
  replace (b + Z.of_nat n =? 0)%Z with false by (symmetry; apply Z.eqb_neq; lia).
  rewrite (stream_items_split checks n m) by lia.
  by destruct (stream_items checks n b v) as [[items v']| |].
Qed.

End Server.

(** ** Witnesses *)

#[local] Instance counting_validator : EventValidatorTrait nat := {|
  finalized_block_events b v :=
    Ret (if (b =? 6)%Z then Err NotAValidator else Ok [repeat_byte x2a], S v);
  latest_finalized_block v := Ret (Ok 9%Z, v)
|}.

#[local] Instance recording_witnesser : EventWitnesserTrait (list H256) := {|
  witness e := λ w, Ret (Ok tt, w ++ [e])
|}.

Lemma stream_items_correct_witness :
  ∃ items, stream_items true 2 5 0 = Ret (items, 2) ∧
    items !! 1 = Some (Err (Aborted "Not a validator")).
Proof.
  destruct (stream_items_correct true 5 0 2 [Ok [repeat_byte x2a]; Err NotAValidator])
    as (items & Hrun & _ & Hitems).
  - lia.
  - vm_compute. discriminate.
  - eapply answers_cons; [reflexivity|]. eapply answers_cons; [reflexivity|]. apply answers_nil.
  - exists items. split; [exact Hrun|]. exact (Hitems 1 (Err NotAValidator) eq_refl).
Defined.

Lemma stream_resumes_witness :
  rpc_validated_events true (mkRequest 5 false) (1 + 1) 0 =
  '(items, v') ← rpc_validated_events true (mkRequest 5 false) 1 0;
  '(items', v'') ← rpc_validated_events true (mkRequest 6 true) 1 v';
  Ret (items ++ items', v'').
Proof.
  apply (stream_resumes true 1 1 5 0).
  - lia.
  - vm_compute. discriminate.
Defined.
