(* ===== verification/Node.v ===== *)
(** * The node

    [consensus/src/node.rs]: [start] wires the components together over shared
    state and tells the gossip service where to listen and whom to dial.  A
    running node is a transition system: gossip messages, orders, witnessed
    events, imported blocks and the progress of the chain, in any order. *)

From stdpp Require Import base decidable list gmap strings relations.
From Stdlib Require Import Strings.Byte ZArith Lia.
From S2P Require Import Prelude Errors Config Proofs InMemory State Authorities Concrete EventGossip Gossip Witness BlockImport Server.

(** ** Starting the gossip *)

Record ValidatedStreamsNetworkParams (Addr SocketAddr : Type) := mkNetworkParams {
  grpc_addr : list SocketAddr;
  gossip_port : PortOrOffset;
  gossip_bootnodes : list Addr
}.

Arguments mkNetworkParams {Addr SocketAddr} _ _ _.
Arguments grpc_addr {Addr SocketAddr} _.
Arguments gossip_port {Addr SocketAddr} _.
Arguments gossip_bootnodes {Addr SocketAddr} _.

(** The parts of the Substrate network configuration that [start] reads; a boot
    node is given by its address. *)
Record NetworkConfiguration (Addr : Type) := mkNetworkConfig {
  listen_addresses : list Addr;
  boot_nodes : list Addr
}.

Arguments mkNetworkConfig {Addr} _ _.
Arguments listen_addresses {Addr} _.
Arguments boot_nodes {Addr} _.

Section Start.
Context {Addr SocketAddr : Type} `{MultiaddrOps Addr}.
Abbreviation vs_config := (ValidatedStreamsNetworkParams Addr SocketAddr).
Abbreviation net_config := (NetworkConfiguration Addr).

Definition gossip_listen_addresses (vs : vs_config) (net : net_config) : list Addr :=
  adjust_multiaddr (gossip_port vs) <$> listen_addresses net.

(** The adjusted address of a boot node, without its final [/p2p/..] part. *)
Definition boot_node_peer (vs : vs_config) (multiaddr : Addr) : Addr :=
  let addr := adjust_multiaddr (gossip_port vs) multiaddr in
  match addr_pop addr with
  | (Some (P2p _), addr') => addr'
  | (Some x, addr') => addr_push x addr'
  | (None, addr') => addr'
  end.

Definition gossip_peers (vs : vs_config) (net : net_config) : list Addr :=
  match gossip_bootnodes vs with
  | [] => boot_node_peer vs <$> boot_nodes net
  | peers => peers
  end.

(** The orders of [start]: listen on every address, then dial the peers. *)
Definition start_gossip (vs : vs_config) (net : net_config) (tx : Channel (GossipOrder Addr)) :
    Channel (GossipOrder Addr) :=
  connect_to (gossip_peers vs net)
    (foldl (λ tx a, listen a tx) tx (gossip_listen_addresses vs net)).

Lemma foldl_listen addrs (q : list (GossipOrder Addr)) :
  foldl (λ tx a, listen a tx) (mkChannel true q) addrs = mkChannel true (q ++ (Listen <$> addrs)).
Proof.
  revert q. induction addrs as [|a addrs IH]; intros q; cbn; [by rewrite app_nil_r|].
  unfold listen, send_order, channel_send in *. cbn. rewrite IH. by rewrite <- app_assoc.
Qed.

Lemma start_gossip_spec vs net :
  start_gossip vs net create =
  mkChannel true ((Listen <$> gossip_listen_addresses vs net) ++ [DialPeers (gossip_peers vs net)]).
Proof. unfold start_gossip, create. by rewrite foldl_listen. Qed.

Context `{!MultiaddrLaws Addr}.

(** The last component after a push and a pop. *)
Lemma boot_node_peer_iter (vs : vs_config) a l p :
  addr_iter (adjust_multiaddr (gossip_port vs) a) = l ++ [p] →
  addr_iter (boot_node_peer vs a) =
    match p with P2p _ => l | _ => l ++ [p] end.
Proof.
  intros E. unfold boot_node_peer. destruct (addr_pop_snoc _ l p E) as [E1 E2].
  destruct (addr_pop (adjust_multiaddr (gossip_port vs) a)) as [o a']. cbn in E1, E2. subst o.
  destruct p; rewrite ?addr_iter_push; by rewrite E2.
Qed.

End Start.

Section StartFacts.
Context {Addr SocketAddr : Type} `{MultiaddrLaws Addr}.

(** The gossip service is told to listen on every adjusted listen address and
    then, once, to dial the peers: the configured gossip boot nodes if there
    are any, and otherwise the boot nodes of the network.  A boot node's
    address with a TCP or UDP port keeps every component: its port is
    adjusted and moved to the end, so that a [/p2p/..] part behind the port is
    not the last one any more and is not removed. *)
Theorem start_gossip_correct (vs : ValidatedStreamsNetworkParams Addr SocketAddr)
    (net : NetworkConfiguration Addr) :
  start_gossip vs net create =
    mkChannel true ((Listen <$> gossip_listen_addresses vs net) ++ [DialPeers (gossip_peers vs net)]) ∧
  (gossip_bootnodes vs ≠ [] → gossip_peers vs net = gossip_bootnodes vs) ∧
  (gossip_bootnodes vs = [] → gossip_peers vs net = boot_node_peer vs <$> boot_nodes net) ∧
  (∀ a pre t suf, addr_iter a = pre ++ t :: suf → is_transport t = true →
     Forall (λ p, is_transport p = false) suf →
     addr_iter (boot_node_peer vs a) = pre ++ reverse suf ++ [adjust_transport (gossip_port vs) t]).
Proof.
  split_and!.
  - apply start_gossip_spec.
  - unfold gossip_peers. by destruct (gossip_bootnodes vs).
  - unfold gossip_peers. by intros ->.
  - intros a pre t suf Ha Ht Hsuf.
    pose proof (adjust_multiaddr_found (gossip_port vs) a pre t suf Ha Ht Hsuf) as E.
    rewrite app_assoc in E. rewrite (boot_node_peer_iter vs a _ _ E), <- app_assoc.
    by destruct t.
Qed.

End StartFacts.

Definition toy_params : ValidatedStreamsNetworkParams (list Protocol) nat :=
  mkNetworkParams [] (Offset 10) [].
Definition toy_network : NetworkConfiguration (list Protocol) :=
  mkNetworkConfig [[OtherProtocol []; Tcp 30333]] [boot_node_addr].

Lemma start_gossip_correct_witness :
  queued (start_gossip toy_params toy_network create) =
  [Listen [OtherProtocol []; Tcp 30343]; DialPeers [[OtherProtocol []; P2p []; Tcp 30343]]].
Proof.
  destruct (start_gossip_correct toy_params toy_network) as [E _].
  rewrite E. reflexivity.
Defined.

(** ** The tasks of a node *)

(** A task spawned by [start]: the server on its addresses, or the gossip service
    with the handler of witnessed events. *)
Inductive node_task {SocketAddr : Type} : Type :=
| GrpcTask (grpc_addrs : list SocketAddr)
| GossipTask.

Arguments node_task SocketAddr : clear implicits.

(** The gRPC task unwraps the result of the server: it panics when a server fails. *)
Definition grpc_task {SocketAddr} (grpc_addrs : list SocketAddr) (ended : list (result string unit)) :
    option (outcome unit) :=
  unwrap_result <$> server_run grpc_addrs ended.

(** ** A running node *)

Section Running.
Context `{BincodeLaws} `{ChainTypes} `{Sr25519}.
Context {Cache : Type} `{LruCacheLaws Hash AuthoritiesList Cache}.
Context {Store : Type} `{EventProofsSpec Store}.
Context {Pool : Type} `{!TxPool Pool}.
Context {Swarm PeerId Multiaddr : Type} `{!SwarmOps Swarm PeerId Multiaddr}.
Context {Keystore : Type} `{!CryptoStore Keystore} `{!CryptoStoreLaws Keystore}.
Context {I ImportResult CheckParams : Type} `{!BlockImportOps I ImportResult CheckParams}.
Context (off_chain_proofs : bool) (keystore : Keystore).
Abbreviation node := (node_state Store Cache Pool (GossipOrder Multiaddr)).

(** The gossip service calls the handler of witnessed events, which shares the
    state of the node. *)
Definition event_gossip_handler (client : Client) : GossipHandler node := {|
  handler_topics := get_topics;
  handler_handle := handle off_chain_proofs client
|}.

(** The client's view of the chain, the shared state of the components, the
    swarm of the gossip service, and the block import. *)
Record running := mkRunning {
  r_client : Client;
  r_node : node;
  r_swarm : Swarm;
  r_import : ValidatedStreamsBlockImport I
}.

(** The chain progresses: whatever the best and finalized blocks become, the
    authorities of a block, once known, stay what they are, and the runtime
    returns well-formed lists. *)
Definition client_extends (c c' : Client) : Prop :=
  ∀ h auths, authorities_at c h = Ok auths → authorities_at c' h = Ok auths.

Inductive node_action : Type :=
| ActChain
| ActSync (major : bool)
| ActWitness (e : H256)
| ActInput (i : gossip_input (PeerId := PeerId) (Multiaddr := Multiaddr))
| ActImport (block : BlockImportParams).

Inductive node_step : running → node_action → running → Prop :=
| StepChain c n sw i c' :
    client_extends c c' → client_ok c' →
    node_step (mkRunning c n sw i) ActChain (mkRunning c' n sw i)
| StepSync c n sw i major :
    node_step (mkRunning c n sw i) (ActSync major) (mkRunning c n sw (send_sync_service major i))
| StepWitness c n sw i e r n' :
    witness_event c keystore e n = Ret (r, n') →
    node_step (mkRunning c n sw i) (ActWitness e) (mkRunning c n' sw i)
| StepTakeOrder c n sw i o q sw' n' :
    queued (orders n) = o :: q →
    handle_incoming_order (H0 := event_gossip_handler c) o
      (sw, set_orders (mkChannel (receiver_alive (orders n)) q) n) = Ret (sw', n') →
    node_step (mkRunning c n sw i) (ActInput (OrderInput o)) (mkRunning c n' sw' i)
| StepTakeEvent c n sw i ev sw' n' :
    handle_incoming_event (H0 := event_gossip_handler c) ev (sw, n) = Ret (sw', n') →
    node_step (mkRunning c n sw i) (ActInput (EventInput ev)) (mkRunning c n' sw' i)
| StepImport c n sw i block r i' n' :
    import_block c block i n = Ret (r, (i', n')) →
    node_step (mkRunning c n sw i) (ActImport block) (mkRunning c n' sw i').

Definition some_step (s s' : running) : Prop := ∃ a, node_step s a s'.

Definition running_ok (s : running) : Prop :=
  node_ok (r_client s) (r_node s) ∧ client_ok (r_client s).

Lemma node_ok_extends c c' (n : node) : client_extends c c' → node_ok c n → node_ok c' n.
Proof.
  intros Hext [[Hp Hc] Hs Hv]. split; [|done..]. split; [done|]. intros h l Hl. by apply Hext, Hc.
Qed.

Lemma node_ok_set_orders c (n : node) q : node_ok c n → node_ok c (set_orders q n).
Proof. by intros []. Qed.

Lemma node_ok_set_block_state c (n : node) b :
  cache_coherent c b → node_ok c n → node_ok c (set_block_state b n).
Proof. by intros Hb []. Qed.

(** An input of the gossip service changes the node by the handler's reaction
    to its message, if it has one. *)
Lemma take_input_node c i sw (n : node) sw' n' :
  handle_input (H0 := event_gossip_handler c) i (sw, n) = Ret (sw', n') →
  match message_of i with
  | Some m => handle off_chain_proofs c m n = Ret n'
  | None => n' = n
  end.
Proof.
  destruct (handle_input_message (H0 := event_gossip_handler c) i sw n) as [sw1 ->].
  destruct (message_of i) as [m|]; [|by intros [= _ <-]]. cbn [handler_handle event_gossip_handler].
  destruct (handle off_chain_proofs c m n) as [n1| |]; [|done..]. by intros [= _ <-].
Qed.

Lemma take_input_ok c i sw (n : node) sw' n' :
  handle_input (H0 := event_gossip_handler c) i (sw, n) = Ret (sw', n') →
  node_ok c n → client_ok c → node_ok c n' ∧ orders n' = orders n.
Proof.
  intros Hrun%take_input_node Hn Hwf. destruct (message_of i); [by eapply handle_orders|by subst].
Qed.

Lemma forward_node (call : I → outcome (result ConsensusError ImportResult * I)) self n r self' n' :
  forward (Cache := Cache) (Store := Store) (Pool := Pool) (Order := GossipOrder Multiaddr)
    call self n = Ret (r, (self', n')) → n' = n.
Proof.
  unfold forward. destruct (call (parent_block_import self)) as [[r1 i1]| |]; [|done..].
  by intros [= _ _ <-].
Qed.

(** An import changes at most the cache of authorities. *)
Lemma import_block_keeps client block (self : ValidatedStreamsBlockImport I) (n : node) r self' n' :
  node_ok client n → client_ok client →
  import_block client block self n = Ret (r, (self', n')) →
  ∃ c', cache_coherent client c' ∧ n' = set_block_state c' n.
Proof.
  intros Hn Hwf Hrun.
  assert (∃ c', cache_coherent client c' ∧ n = set_block_state c' n) as Hsame.
  { exists (block_state n). destruct Hn. split; [done|]. by destruct n. }
  destruct (sync_service self) as [| |[]] eqn:Hsync.
  - unfold import_block in Hrun. by rewrite Hsync in Hrun.
  - unfold import_block in Hrun. by rewrite Hsync in Hrun.
  - unfold import_block in Hrun. rewrite Hsync in Hrun. by apply forward_node in Hrun as ->.
  - destruct (import_block_spec client block self n Hn Hwf Hsync) as (c' & Hc' & E).
    rewrite E in Hrun. exists c'. split; [done|]. destruct (verdict client n block).
    + by apply forward_node in Hrun as ->.
    + by injection Hrun as _ _ <-.
Qed.

(** Witnessing changes the cache and sends at most the signed event. *)
Lemma witness_event_keeps client e (n : node) r n' :
  node_ok client n → witness_event client keystore e n = Ret (r, n') →
  ∃ c', cache_coherent client c' ∧
    n' = match signed_event client keystore e with
         | Ok (_, bytes) =>
             set_orders (publish WITNESSED_EVENTS_TOPIC bytes (orders n)) (set_block_state c' n)
         | Err _ => set_block_state c' n
         end.
Proof.
  intros [Hc _ _] Hrun. destruct (witness_event_spec client keystore e n Hc) as (c' & Hc' & E).
  exists c'. split; [done|]. rewrite E in Hrun.
  by destruct (signed_event client keystore e) as [[ev b]|]; injection Hrun as _ <-.
Qed.

Lemma node_step_ok s a s' : node_step s a s' → running_ok s → running_ok s'.
Proof.
  intros Hstep [Hn Hwf]. destruct Hstep as [c n sw i c' Hext Hwf'|c n sw i major|c n sw i e r n' Hrun
    |c n sw i o q sw' n' _ Hrun|c n sw i ev sw' n' Hrun|c n sw i block r i' n' Hrun];
    cbn [r_client r_node] in *; (split; cbn [r_client r_node]; [|done]).
  - by eapply node_ok_extends.
  - done.
  - destruct (witness_event_keeps c e n r n' Hn Hrun) as (c' & Hc' & ->).
    destruct (signed_event c keystore e) as [[ev b]|];
      [apply node_ok_set_orders|]; by apply node_ok_set_block_state.
  - apply (take_input_ok c (OrderInput o)) in Hrun as [? _]; [done| |done].
    by apply node_ok_set_orders.
  - by apply (take_input_ok c (EventInput ev)) in Hrun as [? _].
  - destruct (import_block_keeps c block i n r i' n' Hn Hwf Hrun) as (c' & Hc' & ->).
    by apply node_ok_set_block_state.
Qed.

Lemma node_steps_ok s s' : rtc some_step s s' → running_ok s → running_ok s'.
Proof. induction 1 as [|s s1 s' [a Hstep] _ IH]; eauto using node_step_ok. Qed.

(** [start]: the tasks it spawns, and the node they run: the components share
    the given store, cache and pool, the orders of [start_gossip] are queued for
    the gossip service, which has subscribed the topics of the handler. *)
Definition start `{!MultiaddrOps Multiaddr} {SocketAddr}
    (vs : ValidatedStreamsNetworkParams Multiaddr SocketAddr) (net : NetworkConfiguration Multiaddr)
    (client : Client) (block_state : Mutex Cache) (event_proofs : Store) (tx_pool : Pool)
    (swarm : Swarm) (import : ValidatedStreamsBlockImport I) : list (string * node_task SocketAddr) * running :=
  ([("Validated Streams gRPC server", GrpcTask (grpc_addr vs)); ("Validated Streams gossip", GossipTask)],
   mkRunning client (mkNode block_state event_proofs tx_pool (start_gossip vs net create))
     (foldl (λ sw topic, (gossipsub_subscribe topic sw).2) swarm get_topics) import).

(** A node starts in a good state, and the orders that wait for the gossip service
    are to listen and to dial. *)
Lemma start_ok `{!MultiaddrOps Multiaddr} {SocketAddr}
    (vs : ValidatedStreamsNetworkParams Multiaddr SocketAddr) net client block_state store pool sw imp :
  cache_coherent client block_state → ep_inv store → proofs_valid (ep_view store) → client_ok client →
  let s := (start vs net client block_state store pool sw imp).2 in
  running_ok s ∧
  queued (orders (r_node s)) =
    (Listen <$> gossip_listen_addresses vs net) ++ [DialPeers (gossip_peers vs net)].
Proof.
  intros Hc Hs Hv Hwf s. split; [by split; [split|]|]. subst s. cbn [start r_node orders snd].
  by rewrite start_gossip_spec.
Qed.

(** C13: the invariant of a running node.  In every state it can reach, by any
    interleaving of chain progress, witnessed events, orders and network events
    of the gossip service (messages of arbitrary bytes included) and block
    imports, the cache of authorities is coherent with the chain, the store is
    well-formed and every proof in it is a valid signature; and from every such
    state witnessing an event returns, and the gossip service takes the oldest
    order and any network event, without a panic. *)
Theorem node_invariant (s s' : running) :
  rtc some_step s s' → running_ok s →
  running_ok s' ∧
  (∀ e, ∃ s'', node_step s' (ActWitness e) s'') ∧
  (∀ o q, queued (orders (r_node s')) = o :: q → ∃ s'', node_step s' (ActInput (OrderInput o)) s'') ∧
  (∀ ev, ∃ s'', node_step s' (ActInput (EventInput ev)) s'').
Proof.
  intros Hsteps Hok. pose proof (node_steps_ok s s' Hsteps Hok) as Hok'.
  split; [done|]. destruct s' as [c n sw i], Hok' as [Hn Hwf]. cbn in Hn, Hwf.
  assert (∀ j (n1 : node), node_ok c n1 →
    ∃ sw' n', handle_input (H0 := event_gossip_handler c) j (sw, n1) = Ret (sw', n')) as Hin.
  { intros j n1 Hn1. destruct (handle_input_message (H0 := event_gossip_handler c) j sw n1) as [sw1 ->].
    destruct (message_of j) as [m|]; [|by eexists _, _]. cbn [handler_handle event_gossip_handler].
    destruct (handle_cases off_chain_proofs c m n1) as (n2 & -> & _); [done..|]. by eexists _, _. }
  split_and!.
  - intros e. destruct Hn as [Hc _ _].
    destruct (witness_event_spec c keystore e n Hc) as (c' & _ & E).
    destruct (signed_event c keystore e) as [[ev b]|]; eexists; by eapply StepWitness.
  - intros o q Ho.
    destruct (Hin (OrderInput o) (set_orders (mkChannel (receiver_alive (orders n)) q) n))
      as (sw' & n' & E); [by apply node_ok_set_orders|]. eexists. by eapply StepTakeOrder.
  - intros ev. destruct (Hin (EventInput ev) n) as (sw' & n' & E); [done|].
    eexists. by eapply StepTakeEvent.
Qed.

End Running.

(** ** Two nodes *)

Section TwoNodes.
Context `{ChainTypes} `{Sr25519}.
Context {Cache : Type} `{LruCacheLaws Hash AuthoritiesList Cache}.
Context {Store1 : Type} `{EventProofsSpec Store1}.
Context {Store2 : Type} `{EventProofsSpec Store2}.
Context {Pool Order : Type}.
Context {I ImportResult CheckParams : Type} `{!BlockImportOps I ImportResult CheckParams}.

(** Let all but at most a third of the authorities sign at most one of two
    events, as far as two nodes know.  Once the one node, not catching up, has
    imported a block with the first event, the other node rejects every block
    with the second event under the same authorities. *)
Lemma conflicting_block_rejected (auths : AuthoritiesList)
    (F : gset CryptoTypePublicPair) (e1 e2 : H256) client1 client2
    (i1 i1' i2 : ValidatedStreamsBlockImport I)
    (n1 n1' : node_state Store1 Cache Pool Order) (n2 : node_state Store2 Cache Pool Order)
    block1 block2 r1 :
  size F ≤ length (authorities auths) `div` 3 →
  (∀ k, k ∈ authorities auths → is_Some (ep_view (event_proofs n1) e1 k) →
        is_Some (ep_view (event_proofs n2) e2 k) → k ∈ F) →
  node_ok client1 n1 → client_ok client1 → node_ok client2 n2 → client_ok client2 →
  sync_service i1 = SyncReady false → sync_service i2 = SyncReady false →
  authorities_at client1 (parent_hash block1) = Ok auths →
  authorities_at client2 (parent_hash block2) = Ok auths →
  e1 ∈ block_events client1 block1 → e2 ∈ block_events client2 block2 →
  import_block client1 block1 i1 n1 = Ret (Ok r1, (i1', n1')) →
  ∃ n2', import_block client2 block2 i2 n2 =
    Ret (Err (ClientImport "Block contains unwitnessed events"), (i2, n2')).
Proof.
  intros HF Hhonest Hn1 Hc1 Hn2 Hc2 Hs1 Hs2 Ha1 Ha2 He1 He2 Hrun1.
  destruct (imported_event_signers client1 block1 i1 n1 r1 i1' n1' auths e1)
    as (ks1 & Hnd1 & Hlen1 & Hks1); [done..|].
  destruct (import_block_spec client2 block2 i2 n2 Hn2 Hc2 Hs2) as (c' & _ & ->).
  exists (set_block_state c' n2).
  unfold verdict. destruct (body block2) as [exts|] eqn:Hb;
    [|unfold block_events in He2; rewrite Hb in He2; by apply elem_of_nil in He2].
  rewrite Ha2. case_decide as Hall; [exfalso|done].
  rewrite Forall_forall in Hall. apply Hall in He2.
  destruct (has_quorum_valid client2 n2 auths e2) as (ks2 & Hnd2 & Hlen2 & Hks2);
    [done|by eapply Hc2|done|].
  rewrite Forall_forall in Hks1, Hks2.
  destruct (quorums_intersect auths (list_to_set ks1) (list_to_set ks2) F) as (k & Hk1 & Hk2 & HkF).
  - eapply wf_authorities_max, Hc1, Ha1.
  - intros k. rewrite !elem_of_list_to_set. apply Hks1.
  - intros k. rewrite !elem_of_list_to_set. apply Hks2.
  - by rewrite size_list_to_set_NoDup.
  - by rewrite size_list_to_set_NoDup.
  - done.
  - rewrite elem_of_list_to_set in Hk1, Hk2. apply HkF.
    destruct (Hks1 k Hk1) as [Hk [s1 [Hv1 _]]], (Hks2 k Hk2) as [_ [s2 [Hv2 _]]].
    apply Hhonest; [done|by eexists..].
Qed.

End TwoNodes.

(** ** Witnesses *)

Import Codec.

Definition toy_running : running (Store := InMemoryEventProofs) (Cache := toy_cache)
    (Pool := list H256) (Swarm := nat) (Multiaddr := nat) (I := list nat) :=
  mkRunning toy_client toy_witness_node 0 (toy_importer false).

#[local] Existing Instance failing_swarm.

(** A message from a peer, and the syncing service. *)
Lemma node_invariant_witness :
  ∃ n1, handle true toy_client (toy_message x01) toy_witness_node = Ret n1 ∧
    running_ok (mkRunning toy_client n1 0 (toy_importer true)).
Proof.
  destruct (handle_cases true toy_client (toy_message x01) toy_witness_node) as (n1 & Hrun & _);
    [exact toy_witness_node_ok|exact toy_client_wf|].
  exists n1. split; [exact Hrun|].
  refine (proj1 (node_invariant true [toy_pair x02] toy_running
    (mkRunning toy_client n1 0 (toy_importer true)) _ _)).
  - eapply rtc_l; [exists (ActInput (EventInput (Message (toy_message x01)))); eapply StepTakeEvent|].
    { cbn [handle_incoming_event handler_handle event_gossip_handler]. rewrite Hrun. reflexivity. }
    eapply rtc_l; [eexists; apply StepSync|]. apply rtc_refl.
  - split; [exact toy_witness_node_ok|exact toy_client_wf].
Defined.
