(* ===== verification/GossipChannel.v ===== *)
(** * The channel of orders, with its bound

    [Gossip::create] of [consensus/src/gossip/mod.rs] makes a channel with a buffer
    of 64 orders; [send_order] waits until its order is flushed; and the gossip
    task of [start] in [consensus/src/node.rs] sends its own orders, and waits for
    them, before it runs the service that takes orders out of the channel.  The
    system of this file has the gossip task, any number of publishing calls of
    the gRPC server and the service, interleaved poll by poll.  It refines the
    actor of [Gossip], whose channel has no bound; and the start succeeds exactly
    when the orders that are queued before it has sent its last one fit the
    buffer. *)

From stdpp Require Import base decidable gmap strings sets relations list.
From Stdlib Require Import Strings.Byte Lia.
From S2P Require Import Prelude Errors Config State Gossip Node.

(** ** The channel of [futures] *)

(** [futures::channel::mpsc]; a sender is known by a number, and a clone is a new
    number. *)
Class Mpsc (A C : Type) := {
  mpsc_channel : nat → C;
  poll_ready : nat → C → bool;
  start_send : nat → A → C → C;
  poll_flush : nat → C → bool;
  poll_next : C → option (A * C)
}.

(** Documented behaviour: the channel is a queue; beside the buffer every sender
    has one slot of its own, so that a sender that is ready can always send; a
    sender whose message went into its own slot is not ready, and not flushed,
    until the receiver has made room for it, one sender for a message taken. *)
Class MpscLaws (A C : Type) `{Mpsc A C} := {
  items : C → list A;
  buffer : C → nat;
  parked : C → gset nat;
  mpsc_channel_new b :
    items (mpsc_channel b) = [] ∧ buffer (mpsc_channel b) = b ∧ parked (mpsc_channel b) = ∅;
  poll_ready_eq s c : poll_ready s c = bool_decide (s ∉ parked c);
  poll_flush_eq s c : poll_flush s c = bool_decide (s ∉ parked c);
  start_send_eq s a c :
    poll_ready s c = true →
    items (start_send s a c) = items c ++ [a] ∧ buffer (start_send s a c) = buffer c ∧
    parked (start_send s a c) =
      if decide (length (items c) < buffer c) then parked c else {[s]} ∪ parked c;
  poll_next_nil c : items c = [] → poll_next c = None;
  poll_next_cons c a q :
    items c = a :: q →
    ∃ c', poll_next c = Some (a, c') ∧ items c' = q ∧ buffer c' = buffer c ∧
      (parked c = ∅ ∧ parked c' = ∅ ∨ ∃ s, s ∈ parked c ∧ parked c' = parked c ∖ {[s]})
}.

(** ** Calls of [send_order], the gossip task and the system *)

(** A call of [send_order] and where it is: the order is still to be sent, it was
    sent and is being flushed, or the call has returned. *)
Inductive send_state (A : Type) : Type :=
| Sending (order : A)
| Flushing (order : A)
| Returned (order : A).

Arguments Sending {A} order.
Arguments Flushing {A} order.
Arguments Returned {A} order.

Definition is_returned {A} (call : send_state A) : bool :=
  match call with Returned _ => true | _ => false end.

(** The gossip task of [start]: all listening addresses at once ([join_all]), then
    the peers, then the service. *)
Inductive start_phase (A : Type) : Type :=
| Listening (calls : list (nat * send_state A))
| Connecting (sender : nat) (call : send_state A)
| Serving.

Arguments Listening {A} calls.
Arguments Connecting {A} sender call.
Arguments Serving {A}.

Section Channel.
Context {Swarm PeerId Multiaddr : Type} `{SwarmOps Swarm PeerId Multiaddr}.
Context {Handler : Type} `{GossipHandler Handler}.
Context {C : Type} `{!Mpsc (GossipOrder Multiaddr) C}.
Abbreviation order := (GossipOrder Multiaddr).

(** One poll of [self.tx.send(order)].  A poll in which the order is sent goes on
    to the flush at once; here the flush is a poll of its own, so that other
    tasks may run in between: every run of the code is a run of the system.  A
    call that is dropped before it returns is not modelled. *)
Definition poll_send (sender : nat) (call : send_state order) (c : C) : send_state order * C :=
  match call with
  | Sending o => if poll_ready sender c then (Flushing o, start_send sender o c) else (Sending o, c)
  | Flushing o => (if poll_flush sender c then Returned o else Flushing o, c)
  | Returned o => (Returned o, c)
  end.

(** The channel, the number of senders cloned so far, the gossip task, the calls
    of [publish] that the gRPC server has made, the network events that wait, and
    the service. *)
Record gossip_system := mkGossip {
  chan : C;
  clones : nat;
  task : start_phase order;
  publishing : list (nat * send_state order);
  events : list (SwarmEvent PeerId Multiaddr);
  serving : Swarm * Handler
}.

(** [Gossip::create], with the calls of [listen] on clones. *)
Definition gossip_start (addrs : list Multiaddr) (st : Swarm * Handler) : gossip_system :=
  mkGossip (mpsc_channel 64) (length addrs)
    (Listening (imap (λ i a, (i, Sending (Listen a))) addrs)) [] [] st.

Definition set_publishing (j : nat) (call : nat * send_state order) (c : C) (x : gossip_system) :
    gossip_system :=
  mkGossip c (clones x) (task x) (<[j := call]> (publishing x)) (events x) (serving x).
Definition set_task (t : start_phase order) (c : C) (x : gossip_system) : gossip_system :=
  mkGossip c (clones x) t (publishing x) (events x) (serving x).

(** What the gossip task does; [peers] are the peers to dial. *)
Inductive start_step (peers : list Multiaddr) : gossip_system → gossip_system → Prop :=
| StartListen x calls j s call call' c' :
    task x = Listening calls → calls !! j = Some (s, call) → poll_send s call (chan x) = (call', c') →
    start_step peers x (set_task (Listening (<[j := (s, call')]> calls)) c' x)
| StartListened x calls :
    task x = Listening calls → Forall (λ sc, is_returned sc.2) calls →
    start_step peers x (mkGossip (chan x) (S (clones x)) (Connecting (clones x) (Sending (DialPeers peers)))
      (publishing x) (events x) (serving x))
| StartConnect x s call call' c' :
    task x = Connecting s call → poll_send s call (chan x) = (call', c') →
    start_step peers x (set_task (Connecting s call') c' x)
| StartServe x s o :
    task x = Connecting s (Returned o) → start_step peers x (set_task Serving (chan x) x).

(** The whole system: the gRPC server publishes at any time, from a new clone for
    each call, network events arrive, and the service, once it runs, takes the
    oldest order or the oldest event. *)
Inductive gossip_step (peers : list Multiaddr) : gossip_system → gossip_system → Prop :=
| GossipTask x x' : start_step peers x x' → gossip_step peers x x'
| GossipPublish x topic message :
    gossip_step peers x (mkGossip (chan x) (S (clones x)) (task x)
      (publishing x ++ [(clones x, Sending (SendMessage topic message))]) (events x) (serving x))
| GossipPoll x j s call call' c' :
    publishing x !! j = Some (s, call) → poll_send s call (chan x) = (call', c') →
    gossip_step peers x (set_publishing j (s, call') c' x)
| GossipArrive x e :
    gossip_step peers x (mkGossip (chan x) (clones x) (task x) (publishing x) (events x ++ [e]) (serving x))
| GossipTake x o c' st' :
    task x = Serving → poll_next (chan x) = Some (o, c') → handle_incoming_order o (serving x) = Ret st' →
    gossip_step peers x (mkGossip c' (clones x) Serving (publishing x) (events x) st')
| GossipEvent x e es st' :
    task x = Serving → events x = e :: es → handle_incoming_event e (serving x) = Ret st' →
    gossip_step peers x (mkGossip (chan x) (clones x) Serving (publishing x) es st').

End Channel.

Arguments gossip_system Swarm PeerId Multiaddr Handler C : clear implicits.

(** ** What the calls and the task still have to do *)

Section Facts.
Context {Swarm PeerId Multiaddr : Type} `{SwarmOps Swarm PeerId Multiaddr}.
Context {Handler : Type} `{GossipHandler Handler}.
Context {C : Type} `{MpscLaws (GossipOrder Multiaddr) C}.
Context (peers : list Multiaddr).
Abbreviation order := (GossipOrder Multiaddr).
Abbreviation system := (gossip_system Swarm PeerId Multiaddr Handler C).

(** The calls of [send_order] that the gossip task waits for. *)
Definition start_calls (t : start_phase order) : list (nat * send_state order) :=
  match t with
  | Listening calls => calls
  | Connecting s call => [(s, call)]
  | Serving => []
  end.

Definition order_in (call : send_state order) : order :=
  match call with Sending o | Flushing o | Returned o => o end.

(** The senders whose orders are being flushed. *)
Definition flushing (calls : list (nat * send_state order)) : list nat :=
  omap (λ sc, match sc.2 with Flushing _ => Some sc.1 | _ => None end) calls.

Lemma elem_of_flushing s calls : s ∈ flushing calls ↔ ∃ o, (s, Flushing o) ∈ calls.
Proof.
  unfold flushing. rewrite list_elem_of_omap. split.
  - intros ([s' [o|o|o]] & Hin & Hs); try done. injection Hs as ->. by exists o.
  - intros [o Hin]. by exists (s, Flushing o).
Qed.

Definition is_unsent (sc : nat * send_state order) : nat :=
  match sc.2 with Sending _ => 1 | _ => 0 end.

(** The orders that the task has not sent yet. *)
Definition unsent (t : start_phase order) : nat :=
  match t with
  | Listening calls => S (sum_list_with is_unsent calls)
  | Connecting s call => is_unsent (s, call)
  | Serving => 0
  end.

Lemma poll_send_spec s call c call' c' :
  poll_send s call c = (call', c') →
  (c' = c ∧ (call' = call ∨ ∃ o, call = Flushing o ∧ call' = Returned o ∧ s ∉ parked c)) ∨
  (∃ o, call = Sending o ∧ call' = Flushing o ∧ items c' = items c ++ [o] ∧ buffer c' = buffer c ∧
    s ∉ parked c ∧
    parked c' = if decide (length (items c) < buffer c) then parked c else {[s]} ∪ parked c).
Proof.
  destruct call as [o|o|o]; cbn.
  - destruct (poll_ready s c) eqn:Hr; intros [= <- <-]; [|by left; auto].
    right. exists o. destruct (start_send_eq s o c Hr) as (? & ? & ?).
    rewrite poll_ready_eq, bool_decide_eq_true in Hr. done.
  - rewrite poll_flush_eq. case_bool_decide; intros [= <- <-]; left; eauto 6.
  - intros [= <- <-]. left; auto.
Qed.

Lemma poll_send_order s call c call' c' : poll_send s call c = (call', c') → order_in call' = order_in call.
Proof. by intros [[-> [->|(o & -> & -> & _)]]|(o & -> & -> & _)]%poll_send_spec. Qed.

(** *** The channel *)

(** The senders in their own slots are as many as the orders beyond the buffer, and
    their calls are being flushed. *)
Record channel_ok (x : system) : Prop := mkChannelOk {
  ok_buffer : buffer (chan x) = 64;
  ok_parked : size (parked (chan x)) = length (items (chan x)) - 64;
  ok_flushing s : s ∈ parked (chan x) → s ∈ flushing (start_calls (task x)) ∨ s ∈ flushing (publishing x)
}.

Lemma poll_send_size s call c call' c' :
  poll_send s call c = (call', c') → buffer c = 64 → size (parked c) = length (items c) - 64 →
  buffer c' = 64 ∧ size (parked c') = length (items c') - 64.
Proof.
  intros [[-> _]|(o & -> & -> & Hi & Hb & Hs & Hp)]%poll_send_spec Hbuf Hsize; [done|].
  split; [congruence|]. rewrite Hp, Hi, length_app, Hbuf. change (length [o]) with 1.
  destruct (decide (length (items c) < 64)) as [Hlt|Hge].
  - lia.
  - rewrite size_union, size_singleton by set_solver. lia.
Qed.

(** A poll of one of the calls keeps the others that are parked, and its own. *)
Lemma poll_send_flushing s call c call' c' j calls :
  poll_send s call c = (call', c') → calls !! j = Some (s, call) →
  ∀ s', s' ∈ parked c' → (s' ∈ parked c → s' ∈ flushing calls) →
  s' ∈ flushing (<[j := (s, call')]> calls).
Proof.
  intros Hpoll Hj s' Hs' Hf.
  assert ((s, call') ∈ <[j := (s, call')]> calls) as Hnew.
  { apply list_elem_of_lookup. exists j. apply list_lookup_insert_eq. by eapply lookup_lt_Some. }
  apply elem_of_flushing. apply poll_send_spec in Hpoll as [[-> Hc]|(o & -> & -> & _ & _ & Hn & Hp)].
  - destruct (proj1 (elem_of_flushing s' calls) (Hf Hs')) as [o Hin]. exists o.
    apply list_elem_of_lookup in Hin as [k Hk]. destruct (decide (k = j)) as [->|Hkj].
    + rewrite Hj in Hk. injection Hk as -> ->. by destruct Hc as [->|(o' & _ & _ & ?)].
    + apply list_elem_of_lookup. exists k. by rewrite list_lookup_insert_ne.
  - destruct (decide (s' = s)) as [->|Hne]; [by exists o|].
    destruct (proj1 (elem_of_flushing s' calls)) as [o' Hin].
    { apply Hf. rewrite Hp in Hs'. destruct (decide (length (items c) < buffer c)); [done|]. set_solver. }
    exists o'. apply list_elem_of_lookup in Hin as [k Hk]. apply list_elem_of_lookup. exists k.
    rewrite list_lookup_insert_ne; [done|]. intros ->. rewrite Hj in Hk. by injection Hk as -> _.
Qed.

Lemma flushing_returned calls : Forall (λ sc, is_returned sc.2) calls → flushing calls = [].
Proof. induction 1 as [|[s [o|o|o]] calls Hr _ IH]; [done|done|done|exact IH]. Qed.

Lemma gossip_start_ok addrs st : channel_ok (gossip_start addrs st).
Proof.
  destruct (mpsc_channel_new (A := order) (C := C) 64) as (Hi & Hb & Hp).
  split; cbn; rewrite ?Hi, ?Hb, ?Hp; set_solver.
Qed.

(** What is left to check of the invariant after a poll. *)
Lemma poll_send_parked s call c call' c' j calls (others : list nat) :
  poll_send s call c = (call', c') → calls !! j = Some (s, call) →
  (∀ s', s' ∈ parked c → s' ∈ flushing calls ∨ s' ∈ others) →
  ∀ s', s' ∈ parked c' → s' ∈ flushing (<[j := (s, call')]> calls) ∨ s' ∈ others.
Proof.
  intros Hpoll Hj Hf s' Hs'. destruct (decide (s' ∈ others)) as [|Hno]; [by right|left].
  eapply poll_send_flushing; [done..|]. intros Hp. by destruct (Hf s' Hp).
Qed.

Lemma start_step_ok x x' : start_step peers x x' → channel_ok x → channel_ok x'.
Proof.
  destruct 1 as [x calls j s call call' c' Ht Hj Hpoll|x calls Ht Hall|x s call call' c' Ht Hpoll|x s o Ht];
    intros [Hb Hs Hf]; rewrite Ht in Hf; cbn [start_calls] in Hf.
  - destruct (poll_send_size _ _ _ _ _ Hpoll Hb Hs). split; [done..|].
    exact (poll_send_parked _ _ _ _ _ j calls _ Hpoll Hj Hf).
  - split; [done..|]. intros s Hin. cbn. specialize (Hf s Hin).
    rewrite (flushing_returned calls Hall) in Hf. by destruct Hf as [?%elem_of_nil|]; [|right].
  - destruct (poll_send_size _ _ _ _ _ Hpoll Hb Hs). split; [done..|].
    exact (poll_send_parked _ _ _ _ _ 0 [(s, call)] _ Hpoll eq_refl Hf).
  - by split.
Qed.

Lemma poll_next_items c o c' :
  poll_next c = Some (o, c') →
  items c = o :: items c' ∧ buffer c' = buffer c ∧
  (parked c = ∅ ∧ parked c' = ∅ ∨ ∃ s, s ∈ parked c ∧ parked c' = parked c ∖ {[s]}).
Proof.
  intros Hn. destruct (items c) as [|a q] eqn:Hi.
  - by rewrite (poll_next_nil c Hi) in Hn.
  - destruct (poll_next_cons c a q Hi) as (c1 & Hc1 & <- & ? & ?).
    rewrite Hn in Hc1. by injection Hc1 as -> ->.
Qed.

Lemma gossip_step_ok x x' : gossip_step peers x x' → channel_ok x → channel_ok x'.
Proof.
  destruct 1 as [x x' Hstep|x topic message|x j s call call' c' Hj Hpoll|x e|x o c' st' Ht Hn _|x e es st' Ht _ _].
  - by apply start_step_ok.
  - intros [Hb Hs Hf]. split; [done..|]. intros s Hin. cbn in *. destruct (Hf s Hin); [by left|right].
    unfold flushing. rewrite omap_app, elem_of_app. by left.
  - intros [Hb Hs Hf]. destruct (poll_send_size _ _ _ _ _ Hpoll Hb Hs). split; [done..|].
    setoid_rewrite (comm or) in Hf. intros s' Hs'. apply or_comm.
    exact (poll_send_parked _ _ _ _ _ j _ _ Hpoll Hj Hf s' Hs').
  - by intros [Hb Hs Hf].
  - intros [Hb Hs Hf]. destruct (poll_next_items _ _ _ Hn) as (Hi & Hb' & Hp). rewrite Hi in Hs. cbn in Hs.
    rewrite Ht in Hf. split; cbn; [congruence| |].
    + destruct Hp as [[Hp Hp']|(s & Hin & Hp')]; rewrite Hp'.
      * rewrite Hp in Hs. rewrite size_empty in *. lia.
      * rewrite size_difference, size_singleton by set_solver. lia.
    + intros s Hin. apply Hf. destruct Hp as [[-> Hp']|(s' & _ & Hp')]; set_solver.
  - intros [Hb Hs Hf]. rewrite Ht in Hf. by split.
Qed.

Lemma gossip_steps_ok x x' : rtc (gossip_step peers) x x' → channel_ok x → channel_ok x'.
Proof. induction 1; eauto using gossip_step_ok. Qed.

(** *** Refinement of the actor *)

Definition actor_of (x : system) : actor := mkActor (items (chan x)) (events x) (serving x).

(** The orders of the calls that have sent theirs. *)
Definition accepted (calls : list (nat * send_state order)) : list order :=
  omap (λ sc, match sc.2 with Sending _ => None | call => Some (order_in call) end) calls.

(** The orders that the gossip task has sent, if it listens on [addrs]. *)
Definition start_sent (addrs : list Multiaddr) (t : start_phase order) : list order :=
  match t with
  | Listening calls => accepted calls
  | Connecting s call => (Listen <$> addrs) ++ accepted [(s, call)]
  | Serving => (Listen <$> addrs) ++ [DialPeers peers]
  end.

(** The calls of the gossip task are for these addresses and peers. *)
Definition start_for (addrs : list Multiaddr) (t : start_phase order) : Prop :=
  match t with
  | Listening calls => (λ sc, order_in sc.2) <$> calls = Listen <$> addrs
  | Connecting _ call => order_in call = DialPeers peers
  | Serving => True
  end.

Lemma accepted_returned calls :
  Forall (λ sc, is_returned sc.2) calls → accepted calls = (λ sc, order_in sc.2) <$> calls.
Proof. induction 1 as [|[s [o|o|o]] calls Hr _ IH]; [done|done|done|]. cbn. by rewrite <- IH. Qed.

(** A poll sends nothing, or the order of its call. *)
Lemma poll_send_actor s call c call' c' calls j (es : list (SwarmEvent PeerId Multiaddr)) (st : Swarm * Handler) :
  poll_send s call c = (call', c') → calls !! j = Some (s, call) →
  ∃ xs, actor_run (mkActor (items c) es st) xs (mkActor (items c') es st) ∧
    accepted (<[j := (s, call')]> calls) ≡ₚ sent xs ++ accepted calls.
Proof.
  intros Hpoll Hj. pose proof (lookup_lt_Some _ _ _ Hj) as Hlt.
  assert (∀ l, accepted [(s, call')] = l ++ accepted [(s, call)] →
    accepted (<[j := (s, call')]> calls) ≡ₚ l ++ accepted calls) as Hins.
  { intros l Hl. rewrite insert_take_drop by done. rewrite <- (take_drop_middle _ _ _ Hj) at 3.
    rewrite !(cons_middle _ (take j calls)). unfold accepted in *. rewrite !omap_app, Hl. solve_Permutation. }
  apply poll_send_spec in Hpoll as [[-> Hc]|(o & -> & -> & -> & _)].
  - exists []. split; [constructor|]. apply (Hins []). by destruct Hc as [->|(o & -> & -> & _)].
  - exists [Sent o]. split; [|by apply (Hins [o])].
    econstructor; [apply (StepSend o (mkActor (items c) es st))|constructor].
Qed.

Lemma start_step_actor addrs x x' :
  start_step peers x x' → start_for addrs (task x) →
  start_for addrs (task x') ∧
  ∃ xs, actor_run (actor_of x) xs (actor_of x') ∧
    start_sent addrs (task x') ++ accepted (publishing x') ≡ₚ
    sent xs ++ start_sent addrs (task x) ++ accepted (publishing x).
Proof.
  destruct 1 as [x calls j s call call' c' Ht Hj Hpoll|x calls Ht Hall|x s call call' c' Ht Hpoll|x s o Ht];
    rewrite Ht; cbn [start_for task set_task start_sent publishing]; intros Hfor.
  - split.
    + rewrite <- Hfor, list_fmap_insert. cbn. rewrite (poll_send_order _ _ _ _ _ Hpoll).
      apply list_insert_id. by rewrite list_lookup_fmap, Hj.
    + destruct (poll_send_actor _ _ _ _ _ calls j (events x) (serving x) Hpoll Hj) as (xs & Hrun & Hperm).
      exists xs. split; [done|]. by rewrite Hperm, app_assoc.
  - split; [done|]. exists []. split; [constructor|]. cbn.
    by rewrite (accepted_returned calls Hall), Hfor, app_nil_r.
  - split; [by rewrite (poll_send_order _ _ _ _ _ Hpoll)|].
    destruct (poll_send_actor _ _ _ _ _ [(s, call)] 0 (events x) (serving x) Hpoll eq_refl) as (xs & Hrun & Hperm).
    exists xs. split; [done|]. cbn [insert list_insert] in Hperm. rewrite Hperm. solve_Permutation.
  - split; [done|]. exists []. split; [constructor|]. cbn in *. by rewrite Hfor.
Qed.

Lemma gossip_step_actor addrs x x' :
  gossip_step peers x x' → start_for addrs (task x) →
  start_for addrs (task x') ∧
  ∃ xs, actor_run (actor_of x) xs (actor_of x') ∧
    start_sent addrs (task x') ++ accepted (publishing x') ≡ₚ
    sent xs ++ start_sent addrs (task x) ++ accepted (publishing x).
Proof.
  destruct 1 as [x x' Hstep|x topic message|x j s call call' c' Hj Hpoll|x e|x o c' st' Ht Hn Hh|x e es st' Ht He Hh];
    intros Hfor; [by apply start_step_actor|split; [exact Hfor || done|]..].
  - exists []. split; [constructor|]. cbn. unfold accepted. by rewrite omap_app, app_nil_r.
  - destruct (poll_send_actor _ _ _ _ _ _ j (events x) (serving x) Hpoll Hj) as (xs & Hrun & Hperm).
    exists xs. split; [done|]. cbn [set_publishing task publishing]. rewrite Hperm. solve_Permutation.
  - exists [Arrived e]. split; [econstructor; [apply (StepArrive e (actor_of x))|constructor]|done].
  - exists [Took (OrderInput o)]. destruct (poll_next_items _ _ _ Hn) as (Hi & _). rewrite Ht. split; [|done].
    unfold actor_of. cbn. rewrite Hi. econstructor; [by apply StepOrder|constructor].
  - exists [Took (EventInput e)]. rewrite Ht. split; [|done]. unfold actor_of. cbn. rewrite He.
    econstructor; [by apply StepEvent|constructor].
Qed.

Lemma actor_run_app (a a' a'' : actor (Swarm := Swarm) (PeerId := PeerId) (Multiaddr := Multiaddr) (Handler := Handler))
    xs ys :
  actor_run a xs a' → actor_run a' ys a'' → actor_run a (xs ++ ys) a''.
Proof. induction 1; intros ?; [done|]. cbn. econstructor; eauto. Qed.

Lemma gossip_steps_actor addrs x x' :
  rtc (gossip_step peers) x x' → start_for addrs (task x) →
  ∃ xs, actor_run (actor_of x) xs (actor_of x') ∧
    start_sent addrs (task x') ++ accepted (publishing x') ≡ₚ
    sent xs ++ start_sent addrs (task x) ++ accepted (publishing x).
Proof.
  induction 1 as [x|x y x' Hstep _ IH]; intros Hfor; [by exists []; split; [constructor|]|].
  destruct (gossip_step_actor addrs _ _ Hstep Hfor) as (Hfor' & zs & Hzs & Hp1).
  destruct (IH Hfor') as (ys & Hys & Hp2). exists (zs ++ ys). split; [by eapply actor_run_app|].
  unfold sent in *. rewrite Hp2, Hp1, omap_app. solve_Permutation.
Qed.

Lemma gossip_start_actor addrs st x :
  rtc (gossip_step peers) (gossip_start addrs st) x →
  ∃ xs, actor_run (mkActor [] [] st) xs (actor_of x) ∧
    sent xs ≡ₚ start_sent addrs (task x) ++ accepted (publishing x).
Proof.
  intros Hsteps. destruct (gossip_steps_actor addrs _ _ Hsteps) as (xs & Hrun & Hperm).
  { cbn. apply list_eq. intros i. rewrite !list_lookup_fmap, list_lookup_imap. by destruct (addrs !! i). }
  unfold actor_of at 1 in Hrun. cbn in Hrun. rewrite (proj1 (mpsc_channel_new 64)) in Hrun.
  exists xs. split; [done|]. rewrite Hperm. cbn.
  assert (accepted (imap (λ i a, (i, Sending (Listen a))) addrs) = []) as ->; [|by rewrite !app_nil_r].
  enough (∀ f : nat → nat, accepted (imap (λ i a, (f i, Sending (Listen a))) addrs) = []) as Hf by apply (Hf (λ i, i)).
  clear. induction addrs as [|a addrs IH]; intros f; [done|]. apply (IH (f ∘ S)).
Qed.

(** C12: The bounded channel loses, repeats and reorders nothing.  Every run of the
    system, poll by poll, is a run of the actor whose channel has no bound: what
    the service has taken, followed by what is in the channel, is what was sent;
    and what was sent is, once each, the orders of the gossip task and of the
    calls of [publish] that have got past their first poll. *)
Theorem channel_refines_actor addrs st x :
  rtc (gossip_step peers) (gossip_start addrs st) x →
  ∃ xs, actor_run (mkActor [] [] st) xs (actor_of x) ∧
    run_loop (taken xs) st = Ret (serving x) ∧
    sent xs = omap order_of (taken xs) ++ items (chan x) ∧
    sent xs ≡ₚ start_sent addrs (task x) ++ accepted (publishing x).
Proof.
  intros Hsteps. destruct (gossip_start_actor addrs st x Hsteps) as (xs & Hrun & Hperm).
  exists xs. split; [done|]. by destruct (actor_run_spec _ _ _ Hrun) as (? & ? & _).
Qed.

(** *** The bound *)

(** C28: The channel never holds more than its buffer and one order for each call that
    still waits for its flush; no call waits as long as the orders fit the buffer;
    and while a call waits there is an order to take. *)
Theorem channel_bounded addrs st x :
  rtc (gossip_step peers) (gossip_start addrs st) x →
  length (items (chan x)) ≤ 64 + length (flushing (start_calls (task x)) ++ flushing (publishing x)) ∧
  (parked (chan x) = ∅ ↔ length (items (chan x)) ≤ 64).
Proof.
  intros Hsteps. destruct (gossip_steps_ok _ _ Hsteps (gossip_start_ok addrs st)) as [_ Hs Hf]. split.
  - assert (size (parked (chan x)) ≤
      length (flushing (start_calls (task x)) ++ flushing (publishing x))) as Hle; [|lia].
    etrans; [|apply size_list_to_set_le].
    apply subseteq_size. intros s Hin. apply elem_of_list_to_set, elem_of_app. by apply Hf.
  - rewrite <- leibniz_equiv_iff, <- size_empty_iff. lia.
Qed.

(** *** The start of the service *)

(** No call that the task waits for is in its sender's own slot, and the orders
    that the task still has to send fit the buffer together with those queued. *)
Definition can_serve (x : system) : Prop :=
  (∀ s, s ∈ flushing (start_calls (task x)) → s ∉ parked (chan x)) ∧
  (unsent (task x) = 0 ∨ length (items (chan x)) + unsent (task x) ≤ 64).

Definition serves_orders (x : system) : Prop := task x = Serving.

(** What a poll changes, for one of the calls of the gossip task. *)
Lemma poll_send_start s call c call' c' calls j :
  poll_send s call c = (call', c') → calls !! j = Some (s, call) →
  parked c ⊆ parked c' ∧
  length (items c') + sum_list_with is_unsent (<[j := (s, call')]> calls) =
    length (items c) + sum_list_with is_unsent calls ∧
  (∀ s', s' ∈ parked c → s' ∈ flushing calls → s' ∈ flushing (<[j := (s, call')]> calls)).
Proof.
  intros Hpoll Hj. pose proof (sum_list_with_insert is_unsent calls j _ (s, call') Hj) as Hsum.
  split_and!.
  - apply poll_send_spec in Hpoll as [[-> _]|(o & _ & _ & _ & _ & _ & ->)]; [done|].
    destruct (decide (length (items c) < buffer c)); set_solver.
  - apply poll_send_spec in Hpoll as [[-> [->|(o & -> & -> & _)]]|(o & -> & -> & -> & _)];
      rewrite ?length_app; cbn in *; lia.
  - intros s' Hs' Hin. eapply poll_send_flushing; [done..| |done].
    apply poll_send_spec in Hpoll as [[-> _]|(o & _ & _ & _ & _ & _ & ->)]; [done|].
    destruct (decide (length (items c) < buffer c)); set_solver.
Qed.

(** A start that cannot succeed. *)
Definition stuck (x : system) : Prop :=
  task x ≠ Serving ∧ buffer (chan x) = 64 ∧
  ((∃ s, s ∈ flushing (start_calls (task x)) ∧ s ∈ parked (chan x)) ∨
   0 < unsent (task x) ∧ 64 < length (items (chan x)) + unsent (task x)).

Lemma start_step_stuck x x' : start_step peers x x' → stuck x → stuck x'.
Proof.
  destruct 1 as [x calls j s call call' c' Ht Hj Hpoll|x calls Ht Hall|x s call call' c' Ht Hpoll|x s o Ht];
    unfold stuck; rewrite Ht; cbn [task set_task chan start_calls unsent]; intros (_ & Hb & Hst).
  - destruct (poll_send_start _ _ _ _ _ _ _ Hpoll Hj) as (Hp & Hsum & Hkeep).
    split_and!; [done|by apply poll_send_spec in Hpoll as [[-> _]|(o & _ & _ & _ & -> & _)]|].
    destruct Hst as [(s' & ? & ?)|[_ Hlt]]; [left; exists s'; split; [by apply Hkeep|set_solver]|right; lia].
  - split_and!; [done..|]. rewrite (flushing_returned calls Hall) in Hst.
    destruct Hst as [(s' & []%elem_of_nil & _)|[_ Hlt]]. right.
    split; [cbn; lia|]. replace (sum_list_with is_unsent calls) with 0 in Hlt; [cbn; lia|].
    clear -Hall. induction Hall as [|[s [o|o|o]] calls Hcall _ IH]; [done|done|done|exact IH].
  - split_and!; [done|by apply poll_send_spec in Hpoll as [[-> _]|(o & _ & _ & _ & -> & _)]|].
    apply poll_send_spec in Hpoll as [[-> [->|(o & -> & -> & Hn)]]|(o & -> & -> & Hi & _ & Hn & Hp)]; [done| |].
    + destruct Hst as [(s' & Hin & Hs')|[Hlt _]]; [|cbn in Hlt; lia].
      apply list_elem_of_singleton in Hin as ->. done.
    + left. exists s. split; [by left|]. rewrite Hp.
      destruct Hst as [(s' & []%elem_of_nil & _)|[_ Hlt]].
      cbn in Hlt. rewrite decide_False by lia. set_solver.
  - destruct Hst as [(s' & []%elem_of_nil & _)|[Hlt _]]. cbn in Hlt. lia.
Qed.

Lemma gossip_step_stuck x x' : gossip_step peers x x' → stuck x → stuck x'.
Proof.
  destruct 1 as [x x' Hstep|x topic message|x j s call call' c' Hj Hpoll|x e|x o c' st' Ht|x e es st' Ht];
    [by apply start_step_stuck|done| |done|by intros [? _]..].
  intros (Ht & Hb & Hst). unfold stuck. cbn.
  destruct (poll_send_start _ _ _ _ _ _ _ Hpoll Hj) as (Hp & _).
  apply poll_send_spec in Hpoll as [[-> _]|(o & _ & _ & -> & -> & _)]; [done|].
  split_and!; [done..|]. rewrite length_app.
  destruct Hst as [(s' & ? & ?)|[? Hlt]]; [left; exists s'; set_solver|right; lia].
Qed.

Lemma stuck_never_serves x x' : rtc (gossip_step peers) x x' → stuck x → task x' ≠ Serving.
Proof. induction 1 as [x|x y x' Hstep _ IH]; [by intros [? _]|]. eauto using gossip_step_stuck. Qed.

(** The polls that the gossip task still needs. *)
Definition weight (sc : nat * send_state order) : nat :=
  match sc.2 with Sending _ => 2 | Flushing _ => 1 | Returned _ => 0 end.
Definition remaining (t : start_phase order) : nat :=
  match t with
  | Listening calls => 4 + sum_list_with weight calls
  | Connecting s call => 1 + weight (s, call)
  | Serving => 0
  end.

Lemma all_returned (calls : list (nat * send_state order)) :
  Forall (λ sc, is_returned sc.2) calls ∨
  ∃ j s call, calls !! j = Some (s, call) ∧ is_returned call = false.
Proof.
  induction calls as [|[s call] calls IH]; [by left|].
  destruct (is_returned call) eqn:Hr; [|right; by exists 0, s, call].
  destruct IH as [?|(j & s' & call' & ? & ?)]; [left; constructor; [by apply Is_true_true|done]|right; by exists (S j), s', call'].
Qed.

(** A call that may go on does, and is closer to its end. *)
Lemma poll_send_moves s call c :
  buffer c = 64 → size (parked c) = length (items c) - 64 → is_returned call = false →
  (is_unsent (s, call) = 0 → s ∉ parked c) → (is_unsent (s, call) = 0 ∨ length (items c) < 64) →
  ∃ call' c', poll_send s call c = (call', c') ∧ weight (s, call') < weight (s, call) ∧ parked c' = parked c.
Proof.
  intros Hb Hs Hne Hf Hlt. destruct call as [o|o|o]; [| |done].
  - destruct Hlt as [|Hlt]; [done|]. assert (poll_ready s c = true) as Hr.
    { rewrite poll_ready_eq. apply bool_decide_eq_true. replace (parked c) with (∅ : gset nat); [set_solver|].
      symmetry. apply leibniz_equiv, size_empty_iff. lia. }
    exists (Flushing o), (start_send s o c). cbn. rewrite Hr. split_and!; [done|lia|].
    destruct (start_send_eq s o c Hr) as (_ & _ & ->). by rewrite decide_True by lia.
  - exists (Returned o), c. cbn. rewrite poll_flush_eq, bool_decide_eq_true_2 by auto. split_and!; [done|lia|done].
Qed.

Lemma channel_ok_room x : channel_ok x → length (items (chan x)) ≤ 64 → parked (chan x) = ∅.
Proof. intros [_ Hs _] Hle. apply leibniz_equiv, size_empty_iff. lia. Qed.

Lemma start_moves x :
  channel_ok x → can_serve x → task x ≠ Serving →
  ∃ x', start_step peers x x' ∧ remaining (task x') < remaining (task x) ∧ can_serve x'.
Proof.
  intros Hok [Hfl Hroom] Hne. pose proof Hok as [Hb Hs _]. destruct (task x) as [calls|s call|] eqn:Ht; [..|done].
  - destruct Hroom as [|Hroom]; [done|]. cbn in Hroom.
    assert (parked (chan x) = ∅) as Hnone by (apply channel_ok_room; [done|lia]).
    destruct (all_returned calls) as [Hall|(j & s & call & Hj & Hcall)].
    + eexists. split; [by eapply StartListened|]. split; [cbn; lia|]. split; [|right; cbn; lia].
      cbn. rewrite Hnone. set_solver.
    + destruct (poll_send_moves s call (chan x)) as (call' & c' & Hpoll & Hw & Hp); [done..| |right; lia|].
      { rewrite Hnone. set_solver. }
      destruct (poll_send_start _ _ _ _ _ _ _ Hpoll Hj) as (_ & Hsum & _).
      eexists. split; [by eapply StartListen|]. split.
      * pose proof (sum_list_with_insert weight calls j _ (s, call') Hj). cbn -[weight] in *. lia.
      * split; cbn; [rewrite Hp, Hnone; set_solver|right; lia].
  - destruct call as [o|o|o].
    + destruct Hroom as [|Hroom]; [done|]. cbn in Hroom.
      assert (parked (chan x) = ∅) as Hnone by (apply channel_ok_room; [done|lia]).
      destruct (poll_send_moves s (Sending o) (chan x)) as (call' & c' & Hpoll & Hw & Hp); [done..|right; lia|].
      destruct (poll_send_start _ _ _ _ _ [(s, Sending o)] 0 Hpoll eq_refl) as (_ & Hsum & _).
      eexists. split; [by eapply StartConnect|]. split; [cbn in *; lia|].
      split; cbn in *; [rewrite Hp, Hnone; set_solver|right; lia].
    + destruct (poll_send_moves s (Flushing o) (chan x)) as (call' & c' & Hpoll & Hw & Hp); [done..| |by left|].
      { intros _. apply Hfl. by left. }
      destruct call'; cbn in Hw; [lia..|]. eexists. split; [by eapply StartConnect|]. split; [cbn; lia|].
      split; cbn; [set_solver|by left].
    + eexists. split; [by eapply StartServe|]. split; [cbn; lia|]. split; cbn; [set_solver|by left].
Qed.

Lemma start_serves x :
  channel_ok x → can_serve x → ∃ x', rtc (start_step peers) x x' ∧ task x' = Serving.
Proof.
  remember (remaining (task x)) as n eqn:Hn. revert x Hn.
  induction n as [n IH] using lt_wf_ind. intros x -> Hok Hcan.
  destruct (task x) as [calls|s call|] eqn:Ht; [| |by exists x].
  all: destruct (start_moves x Hok Hcan) as (x1 & Hstep & Hlt & Hcan1); [by rewrite Ht|]; rewrite Ht in Hlt;
    destruct (IH _ Hlt x1) as (x' & Hsteps & ?); [done|by eapply start_step_ok|done|];
    exists x'; split; [by eapply rtc_l|done].
Qed.

Lemma serves_can_serve x x' :
  channel_ok x → task x ≠ Serving → rtc (gossip_step peers) x x' → task x' = Serving → can_serve x.
Proof.
  intros [Hb _ _] Ht Hsteps Ht'. split.
  - intros s Hin Hp. apply (stuck_never_serves _ _ Hsteps); [|done]. split_and!; [done..|]. left. by exists s.
  - destruct (decide (0 < unsent (task x) ∧ 64 < length (items (chan x)) + unsent (task x))) as [Hr|Hr]; [|lia].
    exfalso. apply (stuck_never_serves _ _ Hsteps); [|done]. split_and!; [done..|]. by right.
Qed.

Lemma start_step_steps x x' : rtc (start_step peers) x x' → rtc (gossip_step peers) x x'.
Proof. induction 1; [done|]. eapply rtc_l; [by apply GossipTask|done]. Qed.

(** C11: When the gossip service starts.  In every state that a node can reach before,
    the service can still be started exactly when no order of the gossip task
    waits for its flush and the orders that the task has yet to send fit the
    buffer of 64 together with those in the channel; it is then enough that the
    task runs.  Otherwise it never starts, whatever happens: the task waits for
    the service to take orders, and the service for the task. *)
Theorem start_serves_iff addrs st x :
  rtc (gossip_step peers) (gossip_start addrs st) x → task x ≠ Serving →
  (can_serve x → ∃ x', rtc (start_step peers) x x' ∧ task x' = Serving) ∧
  ((∃ x', rtc (gossip_step peers) x x' ∧ task x' = Serving) → can_serve x).
Proof.
  intros Hsteps Ht. pose proof (gossip_steps_ok _ _ Hsteps (gossip_start_ok addrs st)) as Hok. split.
  - by apply start_serves.
  - intros (x' & Hx' & Ht'). by eapply serves_can_serve.
Qed.

Lemma unsent_start (addrs : list Multiaddr) :
  unsent (Listening (imap (λ i a, (i, Sending (Listen a))) addrs)) = S (length addrs).
Proof.
  cbn. f_equal.
  enough (∀ f : nat → nat, sum_list_with is_unsent (imap (λ i a, (f i, Sending (Listen a))) addrs) =
    length addrs) as Hf by apply (Hf (λ i, i)).
  induction addrs as [|a addrs IH]; intros f; [done|]. simpl. f_equal. apply (IH (f ∘ S)).
Qed.

(** A node with 64 or more addresses to listen on never starts its gossip; with
    fewer it can, if nothing is published before. *)
Lemma start_addresses addrs st :
  (∃ x, rtc (gossip_step peers) (gossip_start addrs st) x ∧ task x = Serving) ↔ length addrs < 64.
Proof.
  destruct (mpsc_channel_new (A := order) (C := C) 64) as (Hi & _ & Hp).
  pose proof (gossip_start_ok addrs st) as Hok. split.
  - intros (x & Hsteps & Hx). destruct (serves_can_serve _ _ Hok ltac:(done) Hsteps Hx) as [_ [Hu|Hu]];
      cbn [gossip_start task chan] in Hu; rewrite unsent_start in Hu; [done|]. rewrite Hi in Hu. cbn in Hu. lia.
  - intros Hlt. destruct (start_serves _ Hok) as (x & Hsteps & Hx); [|exists x; eauto using start_step_steps].
    split; cbn [gossip_start task chan]; [rewrite Hp; set_solver|]. right. rewrite unsent_start, Hi. cbn. lia.
Qed.

(** One more event is published, and the call returns, when the channel has room. *)
Lemma publish_one x topic message :
  channel_ok x → length (items (chan x)) < 64 →
  ∃ x', rtc (gossip_step peers) x x' ∧ task x' = task x ∧
    items (chan x') = items (chan x) ++ [SendMessage topic message] ∧
    publishing x' = publishing x ++ [(clones x, Returned (SendMessage topic message))].
Proof.
  intros Hok Hlt. pose proof Hok as [Hb Hs _]. set (s := clones x). set (o := SendMessage topic message : order).
  assert (parked (chan x) = ∅) as Hnone by (apply channel_ok_room; [done|lia]).
  assert (poll_ready s (chan x) = true) as Hr.
  { rewrite poll_ready_eq, Hnone. apply bool_decide_eq_true. set_solver. }
  destruct (start_send_eq s o (chan x) Hr) as (Hi & _ & Hp). rewrite decide_True, Hnone in Hp by lia.
  set (y := mkGossip (start_send s o (chan x)) (S s) (task x) (publishing x ++ [(s, Flushing o)]) (events x) (serving x)).
  exists (mkGossip (chan y) (S s) (task x) (publishing x ++ [(s, Returned o)]) (events x) (serving x)).
  assert (∀ call : nat * send_state order, (publishing x ++ [call]) !! length (publishing x) = Some call) as Hlast.
  { intros call. by apply list_lookup_middle. }
  assert (∀ call call' : nat * send_state order,
    <[length (publishing x) := call']> (publishing x ++ [call]) = publishing x ++ [call']) as Hins.
  { intros call call'. by rewrite insert_app_r_alt, Nat.sub_diag by lia. }
  split_and!; [|done|exact Hi|done].
  eapply rtc_l; [apply (GossipPublish peers x topic message)|].
  eapply (rtc_l _ _ y).
  { eapply eq_rect; [eapply (GossipPoll peers _ (length (publishing x)) s (Sending o) (Flushing o))|].
    - apply Hlast.
    - cbn. by rewrite Hr.
    - unfold set_publishing. cbn. by rewrite Hins. }
  apply rtc_once. eapply eq_rect; [eapply (GossipPoll peers y (length (publishing x)) s (Flushing o) (Returned o) (chan y))|].
  - apply Hlast.
  - cbn. by rewrite poll_flush_eq, Hp.
  - unfold set_publishing. cbn. by rewrite Hins.
Qed.

Lemma publish_many addrs st topic (message : list byte) n :
  n ≤ 64 →
  ∃ x, rtc (gossip_step peers) (gossip_start addrs st) x ∧ task x = task (gossip_start addrs st : system) ∧
    items (chan x) = replicate n (SendMessage topic message) ∧ length (publishing x) = n ∧ Forall (λ sc, is_returned sc.2) (publishing x).
Proof.
  induction n as [|n IH]; intros Hn.
  - exists (gossip_start addrs st). cbn. by rewrite (proj1 (mpsc_channel_new 64)).
  - destruct IH as (x & Hsteps & Ht & Hi & Hl & Hr); [lia|].
    pose proof (gossip_steps_ok _ _ Hsteps (gossip_start_ok addrs st)) as Hok.
    destruct (publish_one x topic message Hok) as (x' & Hx' & Ht' & Hi' & Hp'); [rewrite Hi, length_replicate; lia|].
    exists x'. rewrite Hp', Ht', Hi', length_app, Nat.add_comm, Hl, Hi, <- replicate_S_end.
    split_and!; [by etrans|done..|]. apply Forall_app. by repeat constructor.
Qed.

(** The gRPC server runs before the gossip service does.  When clients have had 64
    events witnessed before the gossip task has sent its orders, every such call
    has returned, and the service never starts: no event of this node is ever
    gossiped, and none is received. *)
Theorem flooded_start_blocks addrs st topic message :
  ∃ x, rtc (gossip_step peers) (gossip_start addrs st) x ∧
    items (chan x) = replicate 64 (SendMessage topic message) ∧
    length (publishing x) = 64 ∧ Forall (λ sc, is_returned sc.2) (publishing x) ∧
    ∀ x', rtc (gossip_step peers) x x' → task x' ≠ Serving.
Proof.
  destruct (publish_many addrs st topic message 64) as (x & Hsteps & Ht & Hi & Hl & Hr); [lia|].
  exists x. split_and!; [done..|]. intros x' Hx' Hserve.
  pose proof (gossip_steps_ok _ _ Hsteps (gossip_start_ok addrs st)) as Hok.
  destruct (serves_can_serve x x' Hok) as [_ Hroom]; [by rewrite Ht|done..|].
  rewrite Ht, Hi, length_replicate in Hroom. cbn [gossip_start task] in Hroom. rewrite unsent_start in Hroom. lia.
Qed.

(** *** While the service runs, calls return *)

Context (Inv : Handler → Prop).
Context (handler_safe : ∀ m h, Inv h → ∃ h', handler_handle m h = Ret h' ∧ Inv h').

Lemma drain x :
  task x = Serving → Inv (serving x).2 →
  ∃ x', rtc (gossip_step peers) x x' ∧ task x' = Serving ∧ items (chan x') = [] ∧ publishing x' = publishing x.
Proof.
  remember (length (items (chan x))) as n eqn:Hn. revert x Hn.
  induction n as [|n IH]; intros x Hn Ht HInv.
  - exists x. split_and!; [done..|by apply nil_length_inv|done].
  - destruct (items (chan x)) as [|o q] eqn:Hi; [done|]. cbn in Hn.
    destruct (poll_next_cons _ _ _ Hi) as (c' & Hc' & Hq & _).
    destruct (serving x) as [sw h] eqn:Hsv.
    destruct (handle_input_safe Inv handler_safe (OrderInput o) sw h HInv) as (sw' & h' & Hh & HInv').
    change (handle_incoming_order o (sw, h) = Ret (sw', h')) in Hh. rewrite <- Hsv in Hh.
    destruct (IH (mkGossip c' (clones x) Serving (publishing x) (events x) (sw', h'))) as (x' & ? & ? & ? & ?);
      [cbn; rewrite Hq; lia|done..|].
    exists x'. split_and!; [|done..]. eapply rtc_l; [by eapply GossipTake|done].
Qed.

(** A call whose order fits the buffer returns when it is polled. *)
Lemma call_returns n x j s call :
  weight (s, call) = n → channel_ok x → length (items (chan x)) + is_unsent (s, call) ≤ 64 →
  publishing x !! j = Some (s, call) →
  ∃ x', rtc (gossip_step peers) x x' ∧ publishing x' !! j = Some (s, Returned (order_in call)).
Proof.
  revert x call. induction n as [n IH] using lt_wf_ind. intros x call <- Hok Hroom Hj.
  destruct (is_returned call) eqn:Hne; [by destruct call; [..|exists x]|].
  pose proof Hok as [Hb Hs _].
  destruct (poll_send_moves s call (chan x)) as (call1 & c1 & Hpoll & Hw & _); [done..| | |].
  { rewrite (channel_ok_room x Hok) by lia. set_solver. }
  { destruct call; cbn in *; [right; lia|by left..]. }
  destruct (poll_send_start _ _ _ _ _ _ _ Hpoll Hj) as (_ & Hsum & _).
  pose proof (sum_list_with_insert is_unsent _ _ _ (s, call1) Hj) as Hsum'.
  destruct (IH _ Hw (set_publishing j (s, call1) c1 x) call1) as (x' & ? & ?).
  - done.
  - eapply gossip_step_ok; [by eapply GossipPoll|done].
  - change (length (items c1) + is_unsent (s, call1) ≤ 64). lia.
  - apply list_lookup_insert_eq. by eapply lookup_lt_Some.
  - exists x'. split; [eapply rtc_l; [by eapply GossipPoll|done]|].
    by rewrite <- (poll_send_order _ _ _ _ _ Hpoll).
Qed.

(** C31: No call of [publish] is ever locked out of a running service: from every state
    that the system can reach with the service running, it can go on so that the
    call returns; the handler is any that keeps an invariant and does not panic. *)
Theorem publish_returns addrs st x j s call :
  Inv st.2 → rtc (gossip_step peers) (gossip_start addrs st) x → task x = Serving →
  publishing x !! j = Some (s, call) →
  ∃ x', rtc (gossip_step peers) x x' ∧ publishing x' !! j = Some (s, Returned (order_in call)).
Proof.
  intros HInv Hsteps Ht Hj. assert (Inv (serving x).2) as HInv'.
  { destruct (gossip_start_actor addrs st x Hsteps) as (xs & Hrun & _).
    exact (actor_run_safe Inv handler_safe _ _ _ Hrun HInv). }
  destruct (drain x Ht HInv') as (x1 & Hs1 & Ht1 & Hi1 & Hp1). rewrite <- Hp1 in Hj.
  pose proof (gossip_steps_ok _ _ (rtc_trans _ _ _ Hsteps Hs1) (gossip_start_ok addrs st)) as Hok1.
  destruct (call_returns _ x1 j s call eq_refl Hok1) as (x' & ? & ?); [|done|].
  - rewrite Hi1. by destruct call; cbn; lia.
  - exists x'. split; [by etrans|done].
Qed.

End Facts.

(** ** A concrete channel *)

(** The senders that wait are a set, of which the first is released. *)
Record set_channel (A : Type) := mkSetChannel {
  set_items : list A;
  set_buffer : nat;
  set_parked : gset nat
}.

Arguments mkSetChannel {A} _ _ _.
Arguments set_items {A} _.
Arguments set_buffer {A} _.
Arguments set_parked {A} _.

#[export] Instance set_mpsc A : Mpsc A (set_channel A) := {|
  mpsc_channel b := mkSetChannel [] b ∅;
  poll_ready s c := bool_decide (s ∉ set_parked c);
  start_send s a c := mkSetChannel (set_items c ++ [a]) (set_buffer c)
    (if decide (length (set_items c) < set_buffer c) then set_parked c else {[s]} ∪ set_parked c);
  poll_flush s c := bool_decide (s ∉ set_parked c);
  poll_next c :=
    match set_items c with
    | [] => None
    | a :: q => Some (a, mkSetChannel q (set_buffer c)
        match elements (set_parked c) with [] => ∅ | s :: _ => set_parked c ∖ {[s]} end)
    end
|}.

#[export] Program Instance set_mpsc_laws A : MpscLaws A (set_channel A) := {|
  items := set_items; buffer := set_buffer; parked := set_parked
|}.
Next Obligation. done. Qed.
Next Obligation. done. Qed.
Next Obligation. done. Qed.
Next Obligation. done. Qed.
Next Obligation. intros A c Hc. cbn. by rewrite Hc. Qed.
Next Obligation.
  intros A c a q Hc. cbn. rewrite Hc. eexists. split_and!; [done..|]. cbn.
  destruct (elements (set_parked c)) as [|s l] eqn:He.
  - left. split; [|done]. apply leibniz_equiv, elements_empty_iff. by rewrite He.
  - right. exists s. split; [|done]. apply elem_of_elements. rewrite He. by left.
Qed.

(** ** Concrete runs *)

Abbreviation toy_gossip_step := (gossip_step (H := failing_swarm) (H0 := keeping_handler)
  (C := set_channel (GossipOrder nat)) [7]).
Definition toy_gossip : gossip_system nat nat nat (list (list byte)) (set_channel (GossipOrder nat)) :=
  gossip_start [5] (0, []).

Definition toy_channel (l : list (GossipOrder nat)) : set_channel (GossipOrder nat) := mkSetChannel l 64 ∅.
Definition toy_system l n t p : gossip_system nat nat nat (list (list byte)) (set_channel (GossipOrder nat)) :=
  mkGossip (toy_channel l) n t p [] (0, []).

Lemma toy_send s o l : length l < 64 → poll_send s (Sending o) (toy_channel l) = (Flushing o, toy_channel (l ++ [o])).
Proof. intros Hl. cbn. by rewrite decide_True by done. Qed.

(** The task listens and connects, the service starts, an event is published and
    both of the first orders are taken. *)
Lemma toy_gossip_runs :
  rtc toy_gossip_step toy_gossip
    (toy_system [SendMessage "t" [x01]] 3 Serving [(2, Flushing (SendMessage "t" [x01]))]).
Proof.
  apply (rtc_l _ _ (toy_system [Listen 5] 1 (Listening [(0, Flushing (Listen 5))]) [])).
  { apply GossipTask. apply (StartListen _ toy_gossip [(0, Sending (Listen 5))] 0 0 (Sending (Listen 5)));
      [reflexivity..|]. by apply (toy_send 0 _ []); cbn; lia. }
  apply (rtc_l _ _ (toy_system [Listen 5] 1 (Listening [(0, Returned (Listen 5))]) [])).
  { apply GossipTask. by apply (StartListen _ (toy_system [Listen 5] 1 _ []) [(0, Flushing (Listen 5))] 0 0 (Flushing (Listen 5))). }
  apply (rtc_l _ _ (toy_system [Listen 5] 2 (Connecting 1 (Sending (DialPeers [7]))) [])).
  { apply GossipTask. apply (StartListened _ (toy_system [Listen 5] 1 _ []) [(0, Returned (Listen 5))]); [done|].
    by repeat constructor. }
  apply (rtc_l _ _ (toy_system [Listen 5; DialPeers [7]] 2 (Connecting 1 (Flushing (DialPeers [7]))) [])).
  { apply GossipTask. apply (StartConnect _ (toy_system [Listen 5] 2 _ []) 1 (Sending (DialPeers [7]))); [done|].
    apply (toy_send 1 _ [Listen 5]). cbn; lia. }
  apply (rtc_l _ _ (toy_system [Listen 5; DialPeers [7]] 2 (Connecting 1 (Returned (DialPeers [7]))) [])).
  { apply GossipTask. by apply (StartConnect _ (toy_system [Listen 5; DialPeers [7]] 2 _ []) 1 (Flushing (DialPeers [7]))). }
  apply (rtc_l _ _ (toy_system [Listen 5; DialPeers [7]] 2 Serving [])).
  { apply GossipTask. by apply (StartServe _ (toy_system [Listen 5; DialPeers [7]] 2 _ []) 1 (DialPeers [7])). }
  eapply rtc_l; [apply (GossipPublish _ _ "t" [x01])|].
  apply (rtc_l _ _ (toy_system [Listen 5; DialPeers [7]; SendMessage "t" [x01]] 3 Serving [(2, Flushing (SendMessage "t" [x01]))])).
  { apply (GossipPoll _ (toy_system [Listen 5; DialPeers [7]] 3 Serving [(2, Sending (SendMessage "t" [x01]))]) 0 2
      (Sending (SendMessage "t" [x01]))); [done|]. apply (toy_send 2 _ [Listen 5; DialPeers [7]]). cbn; lia. }
  apply (rtc_l _ _ (toy_system [DialPeers [7]; SendMessage "t" [x01]] 3 Serving [(2, Flushing (SendMessage "t" [x01]))])).
  { by apply (GossipTake _ (toy_system [Listen 5; DialPeers [7]; SendMessage "t" [x01]] 3 Serving [(2, Flushing (SendMessage "t" [x01]))])
      (Listen 5)). }
  apply rtc_once.
  by apply (GossipTake _ (toy_system [DialPeers [7]; SendMessage "t" [x01]] 3 Serving [(2, Flushing (SendMessage "t" [x01]))]) (DialPeers [7])).
Qed.

Lemma channel_refines_actor_witness :
  ∃ xs, actor_run (H := failing_swarm) (H0 := keeping_handler) (mkActor [] [] (0, [])) xs
      (mkActor [SendMessage "t" [x01]] [] (0, [])) ∧
    sent xs = omap order_of (taken xs) ++ [SendMessage "t" [x01]] ∧
    sent xs ≡ₚ [Listen 5; DialPeers [7]; SendMessage "t" [x01]].
Proof.
  destruct (channel_refines_actor (H := failing_swarm) (H0 := keeping_handler) [7] [5] (0, []) _ toy_gossip_runs)
    as (xs & Hrun & _ & Hsent & Hperm).
  exists xs. exact (conj Hrun (conj Hsent Hperm)).
Defined.

Lemma channel_bounded_witness :
  length (items (toy_channel [SendMessage "t" [x01]])) ≤ 64 + 1.
Proof.
  exact (proj1 (channel_bounded (H := failing_swarm) (H0 := keeping_handler) [7] [5] (0, []) _ toy_gossip_runs)).
Defined.

Lemma publish_returns_witness :
  ∃ x', rtc toy_gossip_step (toy_system [SendMessage "t" [x01]] 3 Serving [(2, Flushing (SendMessage "t" [x01]))]) x' ∧
    publishing x' !! 0 = Some (2, Returned (SendMessage "t" [x01])).
Proof.
  exact (publish_returns (H := failing_swarm) (H0 := keeping_handler) [7] (λ _, True)
    (λ m h _, ex_intro _ (h ++ [m]) (conj eq_refl I)) [5] (0, []) _ 0 2 (Flushing (SendMessage "t" [x01])) I toy_gossip_runs eq_refl eq_refl).
Defined.

(** With one address to listen on the service starts; with 64 it never does. *)
Lemma start_serves_iff_witness :
  (∃ x', rtc (start_step (C := set_channel (GossipOrder nat)) [7]) toy_gossip x' ∧ task x' = Serving) ∧
  ¬ (∃ x', rtc toy_gossip_step (gossip_start (replicate 64 5) (0, [])) x' ∧ task x' = Serving).
Proof.
  split.
  - destruct (start_serves_iff (H := failing_swarm) (H0 := keeping_handler) (C := set_channel (GossipOrder nat))
      [7] [5] (0, []) toy_gossip) as [Hserve _]; [apply rtc_refl|discriminate|].
    apply Hserve. split; [intros s Hin; cbn in *; set_solver|right; cbn; lia].
  - intros Hx. destruct (start_serves_iff (H := failing_swarm) (H0 := keeping_handler)
      (C := set_channel (GossipOrder nat)) [7] (replicate 64 5) (0, []) (gossip_start (replicate 64 5) (0, [])))
      as [_ Hcan]; [apply rtc_refl|discriminate|].
    destruct (Hcan Hx) as [_ [Hu|Hu]]; vm_compute in Hu; [discriminate|lia].
Defined.
