(* ===== verification/Network.v ===== *)
(** * A network of nodes

    Any number of nodes as [consensus/src/node.rs] starts them, each with its own
    view of the chain, keystore, store of proofs, gossip service and block
    import, connected by an arbitrary network: messages are lost, delayed,
    repeated and reordered, and peers outside the list send what they like, as
    long as they do not forge signatures of keys they do not hold. *)

From stdpp Require Import base decidable list gmap strings relations.
From Stdlib Require Import Strings.Byte ZArith Lia.
From S2P Require Import Prelude Errors Proofs InMemory State Authorities Concrete EventGossip Gossip Witness BlockImport Node.

Section Network.
Context `{BincodeLaws} `{ChainTypes} `{Sr25519}.
Context {Cache : Type} `{LruCacheLaws Hash AuthoritiesList Cache}.
Context {Store : Type} `{EventProofsSpec Store}.
Context {Pool : Type} `{!TxPool Pool}.
Context {Swarm PeerId Multiaddr : Type} `{!SwarmOps Swarm PeerId Multiaddr}.
Context {Keystore : Type} `{!CryptoStore Keystore} `{!CryptoStoreLaws Keystore}.
Context {I ImportResult CheckParams : Type} `{!BlockImportOps I ImportResult CheckParams}.
Context (off_chain_proofs : bool).
Abbreviation node := (node_state Store Cache Pool (GossipOrder Multiaddr)).
Abbreviation peer_state := (running (Store := Store) (Cache := Cache) (Pool := Pool)
  (Swarm := Swarm) (Multiaddr := Multiaddr) (I := I)).

Abbreviation action := (node_action (PeerId := PeerId) (Multiaddr := Multiaddr)).

(** The keystore of each node, and the keys that are not used by these nodes
    alone: their signatures may appear on anything. *)
Context (keystore_of : nat → Keystore) (byzantine : gset CryptoTypePublicPair).

(** The nodes, and which key has witnessed which event at one of them. *)
Record network := mkNetwork {
  peers : list peer_state;
  witnessed : list (CryptoTypePublicPair * H256)
}.

(** Signatures are not forged: a message with a valid signature of a key that is
    not Byzantine is only delivered after that key has witnessed the event. *)
Definition deliverable (net : network) (m : list byte) : Prop :=
  ∀ ev, de_event m = Ok ev → valid_signature (event_id ev) (pub_key ev) (signature ev) →
    pub_key ev ∉ byzantine → (pub_key ev, event_id ev) ∈ witnessed net.

Definition allowed (net : network) (a : action) : Prop :=
  match a with
  | ActInput (EventInput (Message m)) => deliverable net m
  | _ => True
  end.

(** The event that a step signs. *)
Definition signs (i : nat) (s : peer_state) (a : action) :
    list (CryptoTypePublicPair * H256) :=
  match a with
  | ActWitness e =>
      match signed_event (r_client s) (keystore_of i) e with
      | Ok (ev, _) => [(pub_key ev, event_id ev)]
      | Err _ => []
      end
  | _ => []
  end.

Inductive net_step : network → network → Prop :=
| NetStep i s a s' net :
    peers net !! i = Some s → node_step off_chain_proofs (keystore_of i) s a s' →
    allowed net a →
    net_step net (mkNetwork (<[i := s']> (peers net)) (signs i s a ++ witnessed net)).

(** ** What the nodes know was witnessed *)

Definition known (w : list (CryptoTypePublicPair * H256)) (k : CryptoTypePublicPair) (e : H256) : Prop :=
  k ∈ byzantine ∨ (k, e) ∈ w.

Record peer_ok (w : list (CryptoTypePublicPair * H256)) (s : peer_state) : Prop := mkPeerOk {
  peer_running : running_ok s;
  peer_proofs e k sig : ep_view (event_proofs (r_node s)) e k = Some sig → known w k e;
  peer_orders topic m ev : SendMessage topic m ∈ queued (orders (r_node s)) →
    de_event m = Ok ev → known w (pub_key ev) (event_id ev)
}.

Definition net_ok (net : network) : Prop := Forall (peer_ok (witnessed net)) (peers net).

Lemma known_mono w w' k e : known w k e → known (w' ++ w) k e.
Proof. intros [?|?]; [by left|right]. apply elem_of_app. by right. Qed.

Lemma peer_ok_mono w w' s : peer_ok w s → peer_ok (w' ++ w) s.
Proof. intros []. split; eauto using known_mono. Qed.

(** A message whose signers are known leaves the proofs known. *)
Lemma handle_known w c m (n n' : node) :
  node_ok c n → client_ok c → handle off_chain_proofs c m n = Ret n' →
  (∀ ev, de_event m = Ok ev → valid_signature (event_id ev) (pub_key ev) (signature ev) →
     known w (pub_key ev) (event_id ev)) →
  (∀ e k sig, ep_view (event_proofs n) e k = Some sig → known w k e) →
  ∀ e k sig, ep_view (event_proofs n') e k = Some sig → known w k e.
Proof.
  intros Hn Hwf Hrun Hm Hv e k sig Hk.
  destruct (handle_cases off_chain_proofs c m n) as (n1 & Hrun1 & _ & Hc); [done..|].
  rewrite Hrun in Hrun1. injection Hrun1 as <-.
  destruct Hc as [[c' ->]|(auths & ev & r & (Hde & _ & _ & Hsig) & ((_ & Horig & _) & _))].
  - by eapply Hv.
  - destruct (Horig e k sig Hk) as [?|(-> & -> & _)]; [by eapply Hv|by apply Hm].
Qed.

Lemma publish_queued topic m (q : Channel (GossipOrder Multiaddr)) o :
  o ∈ queued (publish topic m q) → o ∈ queued q ∨ o = SendMessage topic m.
Proof.
  unfold publish, send_order, channel_send. destruct (receiver_alive q); cbn; [|by left].
  rewrite elem_of_app, list_elem_of_singleton. tauto.
Qed.

(** A node's own signature is over the event it was asked to witness. *)
Lemma signed_event_decodes c ks e ev bytes :
  signed_event c ks e = Ok (ev, bytes) → de_event bytes = Ok ev.
Proof.
  intros Hs. pose proof Hs as Hs'. unfold signed_event in Hs'.
  destruct (authorities_at c (finalized_hash c)) as [auths|] eqn:Ha; [|done].
  by destruct (signed_event_acceptable c c auths ks e ev bytes Hs Ha Ha) as [_ (? & _)].
Qed.

Lemma input_peer_ok w c (n0 : node) sw (i : ValidatedStreamsBlockImport I) j sw' n' :
  handle_input (H0 := event_gossip_handler off_chain_proofs c) j (sw, n0) = Ret (sw', n') →
  (∀ m ev, message_of j = Some m → de_event m = Ok ev →
     valid_signature (event_id ev) (pub_key ev) (signature ev) → known w (pub_key ev) (event_id ev)) →
  peer_ok w (mkRunning c n0 sw i) → peer_ok w (mkRunning c n' sw' i).
Proof.
  intros Hrun Hm [[Hn Hwf] Hv Ho]. cbn in *.
  destruct (take_input_ok off_chain_proofs c j sw n0 sw' n') as [Hn' Hord]; [done..|].
  apply take_input_node in Hrun. split; cbn; [done| |by rewrite Hord].
  destruct (message_of j) as [m|] eqn:Hj; [|by subst].
  apply (handle_known w c m n0 n'); [done..| |done]. intros ev. by apply Hm.
Qed.

Lemma net_step_ok net net' : net_step net net' → net_ok net → net_ok net'.
Proof.
  intros Hstep Hnet. destruct Hstep as [j s a s' net Hj Hstep Hallow]. unfold net_ok in *.
  cbn [peers witnessed].
  pose proof (Forall_lookup_1 _ _ _ _ Hnet Hj) as Hs.
  apply Forall_insert; [eapply Forall_impl; [done|]; intros ?; by apply peer_ok_mono|].
  destruct Hstep as [c n sw i c' Hext Hwf'|c n sw i major|c n sw i e r n' Hrun
    |c n sw i o q sw' n' Ho Hrun|c n sw i ev sw' n' Hrun|c n sw i block r i' n' Hrun];
    pose proof Hs as [[Hn Hwf] Hv Hq]; cbn [r_client r_node r_swarm r_import] in *;
    try (cbn [signs app]).
  - split; [|done..]. split; [by eapply node_ok_extends|done].
  - by split.
  - assert (running_ok (mkRunning c n' sw i)) as Hok'.
    { by apply (node_step_ok off_chain_proofs (keystore_of j) (mkRunning c n sw i) (ActWitness e));
        [eapply StepWitness|]. }
    destruct (witness_event_keeps (keystore_of j) c e n r n' Hn Hrun) as (c' & _ & ->).
    cbn [signs r_client]. split; [done|..]; cbn [r_node];
      destruct (signed_event c (keystore_of j) e) as [[ev b]|] eqn:Es; cbn.
    + intros e' k sig Hk. apply (known_mono _ [_]). by eapply Hv.
    + done.
    + intros topic m ev' Hin Hde. apply publish_queued in Hin as [Hin|[= -> ->]].
      * apply (known_mono _ [_]). by eapply Hq.
      * rewrite (signed_event_decodes _ _ _ _ _ Es) in Hde. injection Hde as <-. right. by left.
    + done.
  - eapply (input_peer_ok _ c _ sw i (OrderInput o)); [exact Hrun| |].
    + intros m ev Hm Hde _. destruct o as [topic m'| |]; cbn in Hm; [|done..].
      injection Hm as ->. apply (Hq topic m); [rewrite Ho; by left|done].
    + split; cbn; [|done|].
      * split; [by apply node_ok_set_orders|done].
      * intros topic m ev Hin. apply (Hq topic m). rewrite Ho. by right.
  - eapply (input_peer_ok _ c _ sw i (EventInput ev)); [exact Hrun| |done].
    intros m ev' Hm Hde Hsig. destruct ev as [| |m'| |]; cbn in Hm; try done. injection Hm as ->.
    destruct (decide (pub_key ev' ∈ byzantine)) as [?|Hhonest]; [by left|right].
    by apply (Hallow ev').
  - destruct (import_block_keeps c block i n r i' n' Hn Hwf Hrun) as (c' & Hc' & ->).
    split; cbn; [|done..]. split; [by apply node_ok_set_block_state|done].
Qed.

Lemma net_steps_ok net net' : rtc net_step net net' → net_ok net → net_ok net'.
Proof. induction 1; eauto using net_step_ok. Qed.

Lemma net_steps_witnessed net net' : rtc net_step net net' → witnessed net ⊆ witnessed net'.
Proof.
  induction 1 as [|net net1 net' Hstep _ IH]; [done|].
  destruct Hstep; cbn [witnessed] in IH. intros x Hx. apply IH, elem_of_app. by right.
Qed.

(** Conflicting events are never both imported in the network.  Let at most
    a third of the authorities be Byzantine, and let no other authority witness
    both of two events, at any of the nodes.  Whatever the network does with
    the messages, once one node, not catching up, has imported a block with the
    first event, every node rejects, then and later, each block with the second
    event under the same authorities. *)
Theorem network_safety (net0 net1 net2 : network) (auths : AuthoritiesList) (e1 e2 : H256)
    (i j : nat) (s1 s2 : peer_state) block1 block2 r i1' n1' :
  net_ok net0 → rtc net_step net0 net1 → rtc net_step net1 net2 →
  size byzantine ≤ length (authorities auths) `div` 3 →
  (∀ k, k ∉ byzantine → (k, e1) ∈ witnessed net2 → (k, e2) ∈ witnessed net2 → False) →
  peers net1 !! i = Some s1 → peers net2 !! j = Some s2 →
  sync_service (r_import s1) = SyncReady false → sync_service (r_import s2) = SyncReady false →
  authorities_at (r_client s1) (parent_hash block1) = Ok auths →
  authorities_at (r_client s2) (parent_hash block2) = Ok auths →
  e1 ∈ block_events (r_client s1) block1 → e2 ∈ block_events (r_client s2) block2 →
  import_block (r_client s1) block1 (r_import s1) (r_node s1) = Ret (Ok r, (i1', n1')) →
  ∃ n2', import_block (r_client s2) block2 (r_import s2) (r_node s2) =
    Ret (Err (ClientImport "Block contains unwitnessed events"), (r_import s2, n2')).
Proof.
  intros Hnet0 H01 H12 HF Hone Hi Hj Hs1 Hs2 Ha1 Ha2 He1 He2 Hrun.
  pose proof (net_steps_ok _ _ H01 Hnet0) as Hnet1. pose proof (net_steps_ok _ _ H12 Hnet1) as Hnet2.
  destruct (Forall_lookup_1 _ _ _ _ Hnet1 Hi) as [[Hn1 Hc1] Hv1 _].
  destruct (Forall_lookup_1 _ _ _ _ Hnet2 Hj) as [[Hn2 Hc2] Hv2 _].
  apply (conflicting_block_rejected auths byzantine e1 e2 (r_client s1) (r_client s2) (r_import s1) i1'
    (r_import s2) (r_node s1) n1' (r_node s2) block1 block2 r); try done.
  intros k _ [g1 Hg1] [g2 Hg2]. destruct (decide (k ∈ byzantine)) as [?|Hk]; [done|exfalso].
  destruct (Hv1 e1 k g1 Hg1) as [?|Hw1]; [done|]. destruct (Hv2 e2 k g2 Hg2) as [?|Hw2]; [done|].
  apply (Hone k); [done| |done]. by apply (net_steps_witnessed net1 net2).
Qed.

(** ** From the witnesses' keystores to a node's pool *)

(** The message that a step hands to the gossip handler. *)
Definition message_taken (a : action) : option (list byte) :=
  match a with
  | ActInput j => message_of j
  | _ => None
  end.

(** A run of one node during which its latest finalized block has the given
    authorities. *)
Inductive node_run (keystore : Keystore) (auths : AuthoritiesList) :
    peer_state → list action → peer_state → Prop :=
| NodeRunNil s : node_run keystore auths s [] s
| NodeRunSnoc s acts s1 a s' :
    node_run keystore auths s acts s1 →
    authorities_at (r_client s1) (finalized_hash (r_client s1)) = Ok auths →
    node_step off_chain_proofs keystore s1 a s' →
    node_run keystore auths s (acts ++ [a]) s'.

(** A message that carries a valid signature of an authority. *)
Definition signed_message (auths : AuthoritiesList) (m : list byte) (ev : WitnessedEvent) : Prop :=
  de_event m = Ok ev ∧ pub_key ev ∈ authorities auths ∧
  valid_signature (event_id ev) (pub_key ev) (signature ev).

Abbreviation view s := (ep_view (event_proofs (r_node s))).

(** The step that submits an event with the proofs of its quorum. *)
Definition submits (auths : AuthoritiesList) (e : H256) (s1 s' : peer_state) : Prop :=
  has_quorum (view s') auths e ∧
  ∃ proofs, gathered off_chain_proofs (view s') auths e proofs ∧
    tx_pool (r_node s') = (submission (r_client s1) e proofs (tx_pool (r_node s1))).2.

Lemma input_signed auths c (n0 n1 : node) m :
  node_ok c n0 → client_ok c → authorities_at c (finalized_hash c) = Ok auths →
  handle off_chain_proofs c m n0 = Ret n1 →
  (∀ e k, k ∈ authorities auths →
     (is_Some (ep_view (event_proofs n1) e k) ↔
      is_Some (ep_view (event_proofs n0) e k) ∨
      ∃ ev, signed_message auths m ev ∧ event_id ev = e ∧ pub_key ev = k)) ∧
  ∀ ev, signed_message auths m ev → has_quorum (ep_view (event_proofs n1)) auths (event_id ev) →
    ∃ proofs, gathered off_chain_proofs (ep_view (event_proofs n1)) auths (event_id ev) proofs ∧
      tx_pool n1 = (submission c (event_id ev) proofs (tx_pool n0)).2.
Proof.
  intros Hn Hwf Ha Hrun. split.
  - destruct (handle_signed off_chain_proofs c m auths n0) as (n2 & Hrun2 & _ & Hiff); [done..|].
    rewrite Hrun in Hrun2. injection Hrun2 as <-. intros e k Hk. rewrite (Hiff e k Hk).
    unfold acceptable, signed_message. naive_solver.
  - intros ev (Hde & Hin & Hsig) Hq.
    destruct (handle_acceptable off_chain_proofs c m auths ev n0) as (r & n2 & Hrun2 & _ & (_ & _ & Hsub));
      [done..|]. rewrite Hrun in Hrun2. injection Hrun2 as <-. rewrite decide_True in Hsub by done.
    naive_solver.
Qed.

(** What a step of a node does to the proofs and to the pool. *)
Lemma node_step_signed keystore auths s1 a s' :
  running_ok s1 → authorities_at (r_client s1) (finalized_hash (r_client s1)) = Ok auths →
  node_step off_chain_proofs keystore s1 a s' →
  (∀ e k, k ∈ authorities auths →
     (is_Some (view s' e k) ↔ is_Some (view s1 e k) ∨
      ∃ m ev, message_taken a = Some m ∧ signed_message auths m ev ∧ event_id ev = e ∧ pub_key ev = k)) ∧
  ∀ m ev, message_taken a = Some m → signed_message auths m ev →
    has_quorum (view s') auths (event_id ev) → submits auths (event_id ev) s1 s'.
Proof.
  intros [Hn Hwf] Ha Hstep.
  assert (∀ (n0 n1 : node) c sw' i (j : gossip_input (PeerId := PeerId) (Multiaddr := Multiaddr)),
    node_ok c n0 → client_ok c → authorities_at c (finalized_hash c) = Ok auths →
    match message_of j with Some m => handle off_chain_proofs c m n0 = Ret n1 | None => n1 = n0 end →
    (∀ e k, k ∈ authorities auths →
     (is_Some (view (mkRunning c n1 sw' i : peer_state) e k) ↔ is_Some (ep_view (event_proofs n0) e k) ∨
      ∃ m ev, message_of j = Some m ∧ signed_message auths m ev ∧ event_id ev = e ∧ pub_key ev = k)) ∧
    ∀ m ev, message_of j = Some m → signed_message auths m ev →
      has_quorum (ep_view (event_proofs n1)) auths (event_id ev) →
      ∃ proofs, gathered off_chain_proofs (ep_view (event_proofs n1)) auths (event_id ev) proofs ∧
        tx_pool n1 = (submission c (event_id ev) proofs (tx_pool n0)).2) as Hinput.
  { intros n0 n1 c sw' i j Hn0 Hwf0 Ha0 Hm. cbn. destruct (message_of j) as [m|].
    - destruct (input_signed auths c n0 n1 m) as [Hiff Hsub]; [done..|]. split.
      + intros e k Hk. rewrite (Hiff e k Hk). naive_solver.
      + intros m' ev [= <-]. apply Hsub.
    - subst. split; [naive_solver|done]. }
  destruct Hstep as [c n sw i c' Hext Hwf'|c n sw i major|c n sw i e r n' Hrun
    |c n sw i o q sw' n' Ho Hrun|c n sw i ev sw' n' Hrun|c n sw i block r i' n' Hrun];
    cbn [r_client r_node message_taken] in *.
  - split; [naive_solver|done].
  - split; [naive_solver|done].
  - destruct (witness_event_keeps keystore c e n r n' Hn Hrun) as (c' & _ & ->).
    destruct (signed_event c keystore e) as [[ev b]|]; cbn; (split; [naive_solver|done]).
  - apply (take_input_node off_chain_proofs c (OrderInput o)) in Hrun.
    destruct (Hinput _ _ c sw' i (OrderInput o) (node_ok_set_orders c n _ Hn) Hwf Ha Hrun) as [Hiff Hsub].
    split; [exact Hiff|]. intros m ev Hm Hs Hq. split; [done|]. by eapply Hsub.
  - apply (take_input_node off_chain_proofs c (EventInput ev)) in Hrun.
    destruct (Hinput _ _ c sw' i (EventInput ev) Hn Hwf Ha Hrun) as [Hiff Hsub].
    split; [exact Hiff|]. intros m ev' Hm Hs Hq. split; [done|]. by eapply Hsub.
  - destruct (import_block_keeps c block i n r i' n' Hn Hwf Hrun) as (c' & _ & ->).
    cbn. split; [naive_solver|done].
Qed.

Lemma node_run_ok keystore auths s acts s' :
  node_run keystore auths s acts s' → running_ok s → running_ok s'.
Proof. induction 1; eauto using node_step_ok. Qed.

Lemma message_taken_snoc acts a m :
  m ∈ omap message_taken (acts ++ [a]) ↔ m ∈ omap message_taken acts ∨ message_taken a = Some m.
Proof.
  rewrite omap_app, elem_of_app. cbn [omap list_omap]. destruct (message_taken a) as [m'|].
  - rewrite list_elem_of_singleton. naive_solver.
  - rewrite elem_of_nil. naive_solver.
Qed.

(** The signatures that a run collects. *)
Lemma node_run_signed keystore auths s acts s' e k m ev :
  node_run keystore auths s acts s' → running_ok s →
  m ∈ omap message_taken acts → signed_message auths m ev → event_id ev = e → pub_key ev = k →
  is_Some (view s' e k).
Proof.
  intros Hrun Hok Hin Hs <- <-. pose proof Hs as (_ & Hk & _).
  induction Hrun as [s|s acts s1 a s' Hrun IH Ha Hstep]; [by apply elem_of_nil in Hin|].
  destruct (node_step_signed keystore auths s1 a s') as [Hiff _];
    [by eapply node_run_ok|done..|].
  apply Hiff; [done|]. apply message_taken_snoc in Hin as [Hin|Hin]; [left; by apply IH|].
  right. by exists m, ev.
Qed.

(** Whether a step takes a signed message of an event. *)
Lemma signed_message_dec auths (o : option (list byte)) e :
  Decision (∃ m ev, o = Some m ∧ signed_message auths m ev ∧ event_id ev = e).
Proof.
  destruct o as [m|]; [|by right; intros (? & ? & [=] & _)].
  destruct (de_event m) as [ev|] eqn:Hde; [|by right; intros (? & ? & [= <-] & (? & _) & _); congruence].
  destruct (decide (verify_witnessed_event_origin auths ev = Ok ev ∧ event_id ev = e)) as [[Hv He]|Hn].
  - left. exists m, ev. apply verify_origin_Ok in Hv as (_ & ? & ?). by split_and!.
  - right. intros (m1 & ev1 & [= <-] & (Hde1 & ? & ?) & He). apply Hn.
    replace ev with ev1 by congruence. split; [|done]. by apply verify_origin_Ok.
Qed.

(** If a run ends with a quorum for an event of which it took a signed message,
    one of its steps submitted the event. *)
Lemma node_run_submits keystore auths s acts s' m ev :
  node_run keystore auths s acts s' → running_ok s →
  m ∈ omap message_taken acts → signed_message auths m ev →
  has_quorum (view s') auths (event_id ev) →
  ∃ acts1 a acts2 s1 s2, acts = acts1 ++ a :: acts2 ∧ node_run keystore auths s acts1 s1 ∧
    node_step off_chain_proofs keystore s1 a s2 ∧ submits auths (event_id ev) s1 s2.
Proof.
  intros Hrun Hok. revert m ev.
  induction Hrun as [s|s acts s1 a s' Hrun IH Ha Hstep]; intros m ev Hin Hs Hq;
    [by apply elem_of_nil in Hin|].
  destruct (node_step_signed keystore auths s1 a s') as [Hiff Hsub];
    [by eapply node_run_ok|done..|].
  destruct (signed_message_dec auths (message_taken a) (event_id ev)) as [(m' & ev' & Hm' & Hs' & He)|Hno].
  - exists acts, a, [], s1, s'. split_and!; [done..|]. rewrite <- He in Hq |- *. by eapply Hsub.
  - apply message_taken_snoc in Hin as [Hin|Hin].
    + destruct (IH Hok m ev Hin Hs) as (acts1 & b & acts2 & t1 & t2 & -> & Hr & Hst & Hsubm).
      { unfold has_quorum in *. erewrite signers_ext; [exact Hq|]. intros k Hk.
        rewrite (Hiff (event_id ev) k Hk). split; [by left|]. intros [?|(m' & ev' & ? & ? & ? & _)];
          [done|]. destruct Hno. by exists m', ev'. }
      exists acts1, b, (acts2 ++ [a]), t1, t2. split_and!; [|done..]. by rewrite <- app_assoc.
    + exfalso. apply Hno. by exists m, ev.
Qed.

(** The messages of a quorum of authorities, collected in a run. *)
Lemma quorum_collected keystore auths s acts s' (e : H256) (ks : list CryptoTypePublicPair) :
  running_ok s → node_run keystore auths s acts s' → wf_authorities auths →
  NoDup ks → (target auths ≤ Z.of_nat (length ks))%Z →
  Forall (λ k, k ∈ authorities auths ∧ ∃ client keystore' ev bytes,
    authorities_at client (finalized_hash client) = Ok auths ∧
    signed_event client keystore' e = Ok (ev, bytes) ∧ pub_key ev = k ∧
    bytes ∈ omap message_taken acts) ks →
  has_quorum (view s') auths e ∧
  ∃ acts1 a acts2 s1 s2, acts = acts1 ++ a :: acts2 ∧ node_run keystore auths s acts1 s1 ∧
    node_step off_chain_proofs keystore s1 a s2 ∧ submits auths e s1 s2.
Proof.
  intros Hok Hrun Hwf Hnd Hlen Hks. rewrite Forall_forall in Hks.
  assert (∀ k, k ∈ ks → ∃ m ev, m ∈ omap message_taken acts ∧ signed_message auths m ev ∧
    event_id ev = e ∧ pub_key ev = k) as Hmsg.
  { intros k (Hk & c & ks' & ev & bytes & Ha & Hsig & Hpk & Hin)%Hks.
    destruct (signed_event_acceptable c c auths ks' e ev bytes Hsig Ha Ha) as [He (? & _ & ? & ?)].
    exists bytes, ev. by split_and!. }
  assert (has_quorum (view s') auths e) as Hq.
  { unfold has_quorum. etrans; [exact Hlen|]. apply inj_le, submseteq_length, NoDup_submseteq; [done|].
    intros k Hk. apply elem_of_signers. destruct (Hks k Hk) as [? _]. split; [done|].
    destruct (Hmsg k Hk) as (m & ev & ? & ? & ? & ?). by eapply node_run_signed. }
  split; [done|]. destruct ks as [|k ks].
  - exfalso. rewrite target_exact in Hlen by by apply wf_authorities_max. cbn in Hlen. zdiv.
  - destruct (Hmsg k) as (m & ev & Hin & Hs & He & _); [by left|]. subst e.
    by eapply node_run_submits.
Qed.

(** C5: an event that a quorum of authorities witnesses reaches the pool of every
    node that their messages reach.  Let [ks] be at least [target] distinct
    authorities, each of which has signed the event with its own keystore at a
    node that knows the same finalized authorities.  A node that has taken all
    their messages, whatever else it took and did in between, has a quorum of
    the event, and in one of its steps it has submitted the event's extrinsic to
    its pool, with the proofs that its mode of operation requires. *)
Theorem quorum_reaches_pool keystore auths s acts s' (e : H256) (ks : list CryptoTypePublicPair) :
  running_ok s → node_run keystore auths s acts s' → wf_authorities auths →
  NoDup ks → (target auths ≤ Z.of_nat (length ks))%Z →
  Forall (λ k, k ∈ authorities auths ∧ ∃ client keystore' ev bytes,
    authorities_at client (finalized_hash client) = Ok auths ∧
    signed_event client keystore' e = Ok (ev, bytes) ∧ pub_key ev = k ∧
    bytes ∈ omap message_taken acts) ks →
  has_quorum (view s') auths e ∧
  ∃ acts1 a acts2 s1 s2, acts = acts1 ++ a :: acts2 ∧ node_run keystore auths s acts1 s1 ∧
    node_step off_chain_proofs keystore s1 a s2 ∧ submits auths e s1 s2.
Proof. apply quorum_collected. Qed.

End Network.

(** ** Witnesses: two nodes, one of which collects three of four signatures *)

Import Codec.
#[local] Existing Instance failing_swarm.

Abbreviation toy_peer_state := (running (Store := InMemoryEventProofs) (Cache := toy_cache)
  (Pool := list H256) (Swarm := nat) (Multiaddr := nat) (I := list nat)).

Definition toy_peer (n : node_state InMemoryEventProofs toy_cache (list H256) (GossipOrder nat)) :
    toy_peer_state :=
  mkRunning toy_client n 0 (toy_importer false).

Definition toy_net (n : node_state InMemoryEventProofs toy_cache (list H256) (GossipOrder nat)) :
    network :=
  mkNetwork [toy_peer n; toy_peer toy_witness_node]
    ((λ b, (toy_pair b, toy_event)) <$> [x01; x02; x03]).

Definition toy_keystores (_ : nat) : list CryptoTypePublicPair := [].

Lemma toy_receives ks b n n' :
  handle true toy_client (toy_message b) n = Ret n' →
  node_step true ks (toy_peer n) (ActInput (EventInput (Message (toy_message b)))) (toy_peer n').
Proof.
  intros Hrun. apply StepTakeEvent. cbn [handle_incoming_event handler_handle event_gossip_handler].
  by rewrite Hrun.
Qed.

Lemma toy_de_message b :
  de_event (toy_message b) = Ok (mkWitnessed (toy_sign b toy_event) (toy_pair b) toy_event).
Proof. by apply de_ser_event. Qed.

Lemma toy_net_receives b n n' :
  b ∈ [x01; x02; x03] → handle true toy_client (toy_message b) n = Ret n' →
  net_step true toy_keystores ∅ (toy_net n) (toy_net n').
Proof.
  intros Hb Hrun.
  apply (NetStep true toy_keystores ∅ 0 (toy_peer n) (ActInput (EventInput (Message (toy_message b))))
    (toy_peer n') (toy_net n)); [done|by apply toy_receives|].
  intros ev Hde _ _. rewrite toy_de_message in Hde. injection Hde as <-. cbn [pub_key event_id].
  apply list_elem_of_fmap. by exists b.
Qed.

Lemma toy_net_ok : net_ok ∅ (toy_net toy_witness_node).
Proof.
  assert (∀ w, peer_ok ∅ w (toy_peer toy_witness_node)) as Hp.
  { intros w. split; cbn.
    - split; [exact toy_witness_node_ok|exact toy_client_wf].
    - done.
    - intros topic m ev []%elem_of_nil. }
  constructor; [apply Hp|]. constructor; [apply Hp|]. constructor.
Qed.

(** Three messages, received one after the other. *)
Lemma toy_three_messages :
  ∃ n1 n2 n3, handle true toy_client (toy_message x01) toy_witness_node = Ret n1 ∧
    handle true toy_client (toy_message x02) n1 = Ret n2 ∧
    handle true toy_client (toy_message x03) n2 = Ret n3 ∧
    match import_block toy_client toy_block (toy_importer false) n3 with
    | Ret (Ok true, _) => true
    | _ => false
    end = true.
Proof.
  assert (match (n1 ← handle true toy_client (toy_message x01) toy_witness_node;
                 n2 ← handle true toy_client (toy_message x02) n1;
                 n3 ← handle true toy_client (toy_message x03) n2;
                 import_block toy_client toy_block (toy_importer false) n3) with
          | Ret (Ok true, _) => true
          | _ => false
          end = true) as E by (vm_compute; reflexivity).
  destruct (handle true toy_client (toy_message x01) toy_witness_node) as [n1| |] eqn:E1; [|discriminate E..].
  rewrite outcome_ret_bind in E.
  destruct (handle true toy_client (toy_message x02) n1) as [n2| |] eqn:E2; [|discriminate E..].
  rewrite outcome_ret_bind in E.
  destruct (handle true toy_client (toy_message x03) n2) as [n3| |] eqn:E3; [|discriminate E..].
  exists n1, n2, n3. split; [exact eq_refl|]. split; [exact E2|]. split; [exact E3|]. exact E.
Qed.

Definition toy_other_block : BlockImportParams := mkBlock 5 (Some [(repeat_byte x2b, None)]).

(** One node has three of four signatures of an event and imports it; the other
    rejects a block with another event. *)
Lemma network_safety_witness :
  ∃ n2', import_block toy_client toy_other_block (toy_importer false) toy_witness_node =
    Ret (Err (ClientImport "Block contains unwitnessed events"), (toy_importer false, n2')).
Proof.
  destruct toy_three_messages as (n1 & n2 & n3 & H1 & H2 & H3 & Himp).
  destruct (import_block toy_client toy_block (toy_importer false) n3)
    as [[[[]|] [i n']]| |] eqn:Hrun; [|discriminate Himp..].
  apply (network_safety true toy_keystores ∅ (toy_net toy_witness_node) (toy_net n3) (toy_net n3)
    toy_auths toy_event (repeat_byte x2b) 0 1 (toy_peer n3) (toy_peer toy_witness_node)
    toy_block toy_other_block true i n').
  - exact toy_net_ok.
  - eapply rtc_l; [apply (toy_net_receives x01 _ _ ltac:(by left) H1)|].
    eapply rtc_l; [apply (toy_net_receives x02 _ _ ltac:(by right; left) H2)|].
    eapply rtc_l; [apply (toy_net_receives x03 _ _ ltac:(by right; right; left) H3)|]. apply rtc_refl.
  - apply rtc_refl.
  - rewrite size_empty. lia.
  - intros k _ _ Hin. apply list_elem_of_fmap in Hin as (b & Hb & _). discriminate Hb.
  - reflexivity.
  - reflexivity.
  - reflexivity.
  - reflexivity.
  - reflexivity.
  - reflexivity.
  - left.
  - left.
  - exact Hrun.
Defined.

Lemma toy_signed_event b :
  b ∈ [x01; x02; x03] →
  signed_event toy_client [toy_pair b] toy_event =
  Ok (mkWitnessed (toy_sign b toy_event) (toy_pair b) toy_event, toy_message b).
Proof.
  intros Hb. apply list_elem_of_In in Hb as [<-|[<-|[<-|[]]]]; vm_compute; reflexivity.
Qed.

(** The node that received the messages of three authorities has submitted the
    event. *)
Lemma quorum_reaches_pool_witness :
  ∃ n3 : node_state InMemoryEventProofs toy_cache (list H256) (GossipOrder nat),
    has_quorum (ep_view (event_proofs n3)) toy_auths toy_event ∧
    ∃ s1 s2 : toy_peer_state, submits true toy_auths toy_event s1 s2.
Proof.
  destruct toy_three_messages as (n1 & n2 & n3 & H1 & H2 & H3 & _). exists n3.
  destruct (quorum_reaches_pool true [] toy_auths (toy_peer toy_witness_node)
    ((λ b, ActInput (EventInput (Message (toy_message b)))) <$> [x01; x02; x03]) (toy_peer n3) toy_event
    (toy_pair <$> [x01; x02; x03])) as (Hq & acts1 & a & acts2 & s1 & s2 & _ & _ & _ & Hsub).
  - split; [exact toy_witness_node_ok|exact toy_client_wf].
  - apply (NodeRunSnoc true [] toy_auths _ [_; _] (toy_peer n2)); [|reflexivity|by apply toy_receives].
    apply (NodeRunSnoc true [] toy_auths _ [_] (toy_peer n1)); [|reflexivity|by apply toy_receives].
    apply (NodeRunSnoc true [] toy_auths _ [] (toy_peer toy_witness_node)); [|reflexivity|by apply toy_receives].
    apply NodeRunNil.
  - exact toy_auths_wf.
  - apply (bool_decide_eq_true_1 (NoDup _)). vm_compute. reflexivity.
  - vm_compute. discriminate.
  - apply Forall_fmap, Forall_forall. intros b Hb. split.
    + apply (list_elem_of_fmap_2 toy_pair), (elem_of_app [x01; x02; x03] [x04]). left. exact Hb.
    + exists toy_client, [toy_pair b], (mkWitnessed (toy_sign b toy_event) (toy_pair b) toy_event), (toy_message b).
      split; [reflexivity|]. split; [by apply toy_signed_event|]. split; [reflexivity|].
      apply list_elem_of_omap. exists (ActInput (EventInput (Message (toy_message b)))).
      split; [|reflexivity]. apply list_elem_of_fmap. exists b. split; [exact eq_refl|exact Hb].
  - split; [exact Hq|]. exists s1, s2. exact Hsub.
Defined.
