(* ===== verification/Ledger.v ===== *)
(** * The specification of the network: a ledger of attested events

    What Validated Streams promises, without messages, stores, blocks or tasks:
    authorities attest events, and a node records an event only when enough
    authorities have attested it.  Dishonest authorities count for everything.
    The README calls this validating events by a quorum of witnesses; the comment
    of [target] in [consensus/src/events/mod.rs] says what it is for: of two
    events, each of which every honest authority attests at most one, at most one
    is recorded anywhere. *)

From stdpp Require Import base decidable gmap relations fin list.
From Stdlib Require Import ZArith Lia.
From S2P Require Import Prelude Proofs Authorities Network.

Section Quorums.
Context (byzantine : gset CryptoTypePublicPair).

(** Enough authorities have witnessed an event, or are Byzantine. *)
Definition attested_quorum (auths : AuthoritiesList) (w : list (CryptoTypePublicPair * H256))
    (e : H256) : Prop :=
  ∃ ks, NoDup ks ∧ (target auths ≤ Z.of_nat (length ks))%Z ∧
    Forall (λ k, k ∈ authorities auths ∧ known byzantine w k e) ks.

Lemma known_subseteq w w' k e : w ⊆ w' → known byzantine w k e → known byzantine w' k e.
Proof. intros Hw [?|?]; [by left|right; by apply Hw]. Qed.

Lemma attested_quorum_mono auths w w' e :
  w ⊆ w' → attested_quorum auths w e → attested_quorum auths w' e.
Proof.
  intros Hw (ks & Hnd & Hlen & Hks). exists ks. split_and!; [done..|].
  eapply Forall_impl; [exact Hks|]. intros k [? ?]. split; [done|]. by eapply known_subseteq.
Qed.

(** Two quorums of witnesses share one that is not Byzantine. *)
Lemma attested_quorums_share auths w e1 e2 :
  wf_authorities auths → size byzantine ≤ length (authorities auths) `div` 3 →
  attested_quorum auths w e1 → attested_quorum auths w e2 →
  ∃ k, k ∉ byzantine ∧ (k, e1) ∈ w ∧ (k, e2) ∈ w.
Proof.
  intros Hwf HF (ks1 & Hnd1 & Hlen1 & Hks1) (ks2 & Hnd2 & Hlen2 & Hks2).
  rewrite Forall_forall in Hks1, Hks2.
  destruct (quorums_intersect auths (list_to_set ks1) (list_to_set ks2) byzantine) as (k & Hk1 & Hk2 & Hk).
  - by apply wf_authorities_max.
  - intros k. rewrite !elem_of_list_to_set. intros Hin. by apply Hks1.
  - intros k. rewrite !elem_of_list_to_set. intros Hin. by apply Hks2.
  - by rewrite size_list_to_set_NoDup.
  - by rewrite size_list_to_set_NoDup.
  - done.
  - rewrite elem_of_list_to_set in Hk1, Hk2. exists k. split; [done|].
    destruct (Hks1 k Hk1) as [_ [?|?]], (Hks2 k Hk2) as [_ [?|?]]; by try split.
Qed.

End Quorums.

Section Ledger.
Context (auths : AuthoritiesList) (byzantine : gset CryptoTypePublicPair) {N : nat}.

(** Which key has attested which event, and which node has recorded which. *)
Record ledger := mkLedger {
  attestations : list (CryptoTypePublicPair * H256);
  records : list (fin N * H256)
}.

Inductive ledger_step : ledger → ledger → Prop :=
| LedgerAttest k e l :
    ledger_step l (mkLedger ((k, e) :: attestations l) (records l))
| LedgerRecord i e l :
    attested_quorum byzantine auths (attestations l) e →
    ledger_step l (mkLedger (attestations l) ((i, e) :: records l)).

(** Whatever is recorded has a quorum. *)
Definition ledger_ok (l : ledger) : Prop :=
  ∀ i e, (i, e) ∈ records l → attested_quorum byzantine auths (attestations l) e.

Lemma ledger_step_ok l l' : ledger_step l l' → ledger_ok l → ledger_ok l'.
Proof.
  intros [k e l1|i e l1 Hq] Hok j e'; cbn [records attestations].
  - intros Hin. eapply attested_quorum_mono; [|by eapply Hok]. set_solver.
  - rewrite elem_of_cons. intros [[= -> ->]|Hin]; [done|by eapply Hok].
Qed.

Lemma ledger_steps_ok l l' : rtc ledger_step l l' → ledger_ok l → ledger_ok l'.
Proof. induction 1; eauto using ledger_step_ok. Qed.

(** The promise: of two events that no honest authority attests both, at most one
    is recorded. *)
Lemma ledger_exclusive l e1 e2 i j :
  ledger_ok l → wf_authorities auths → size byzantine ≤ length (authorities auths) `div` 3 →
  (∀ k, k ∉ byzantine → (k, e1) ∈ attestations l → (k, e2) ∉ attestations l) →
  (i, e1) ∈ records l → (j, e2) ∉ records l.
Proof.
  intros Hok Hwf HF Hone H1 H2.
  destruct (attested_quorums_share byzantine auths (attestations l) e1 e2) as (k & Hk & Hk1 & Hk2);
    [done..|by eapply Hok|by eapply Hok|]. by apply (Hone k).
Qed.

(** Several attestations, and several records, one after the other. *)
Lemma ledger_attests w l : rtc ledger_step l (mkLedger (w ++ attestations l) (records l)).
Proof.
  induction w as [|[k e] w IH]; [by destruct l|].
  eapply rtc_r; [exact IH|]. apply (LedgerAttest k e (mkLedger (w ++ attestations l) (records l))).
Qed.

Lemma ledger_records i es l :
  Forall (attested_quorum byzantine auths (attestations l)) es →
  rtc ledger_step l (mkLedger (attestations l) ((pair i <$> es) ++ records l)).
Proof.
  induction es as [|e es IH]; [by destruct l|]. intros [He Hes]%Forall_cons_1.
  rewrite fmap_cons. eapply rtc_r; [by apply IH|].
  by apply (LedgerRecord i e (mkLedger (attestations l) ((pair i <$> es) ++ records l))).
Qed.

End Ledger.

Arguments ledger N : clear implicits.
