(* ===== verification/NodeTasks.v ===== *)
(** * The tasks of the nodes, access by access

    The gossip service with its handler, the witnessing of events and the block
    import as the asynchronous tasks that they are: each access to an object that
    the tasks of a node share (the client, the cache of authorities behind its
    mutex, the store of proofs, the transaction pool, the channel of orders, the
    inner block import) is a step of its own, and between two of them any other
    task of any node may run.  A cluster has a fixed number of nodes, and every
    node any number of tasks. *)

From stdpp Require Import base decidable list gmap strings vector relations.
From Stdlib Require Import Strings.Byte ZArith Lia.
From S2P Require Import Prelude Errors Tasks Proofs InMemory State Authorities Concrete EventGossip Gossip Witness BlockImport Node Network Ledger.

Section Cluster.
Context `{Bincode} `{ChainTypes} `{Sr25519}.
Context {Cache : Type} `{LruCache Hash AuthoritiesList Cache}.
Context {Store : Type} `{EventProofsTrait Store}.
Context {Pool : Type} `{!TxPool Pool}.
Context {Swarm PeerId Multiaddr : Type} `{!SwarmOps Swarm PeerId Multiaddr}.
Context {Keystore : Type} `{!CryptoStore Keystore}.
Context {I ImportResult CheckParams : Type} `{!BlockImportOps I ImportResult CheckParams}.
Context (off_chain_proofs : bool).
Abbreviation node := (node_state Store Cache Pool (GossipOrder Multiaddr)).
Abbreviation peer_state := (running (Store := Store) (Cache := Cache) (Pool := Pool)
  (Swarm := Swarm) (Multiaddr := Multiaddr) (I := I)).

(** The number of nodes, and their keystores. *)
Context {N : nat} (keystore_of : fin N → Keystore).

(** A block that a node has handed to its inner import, and whether it was
    catching up. *)
Record handed := mkHanded {
  h_node : fin N;
  h_block : BlockImportParams;
  h_major : bool
}.

(** The state that the tasks share.  The last two fields are the history of the
    calls of the keystores and of the inner imports. *)
Record cluster := mkCluster {
  nodes : vec peer_state N;
  attested : list (CryptoTypePublicPair * H256);
  handed_over : list handed
}.

Definition set_node (i : fin N) (s : peer_state) (c : cluster) : cluster :=
  mkCluster (vinsert i s (nodes c)) (attested c) (handed_over c).

Definition with_node (n : node) (s : peer_state) : peer_state :=
  mkRunning (r_client s) n (r_swarm s) (r_import s).
Definition with_swarm (sw : Swarm) (s : peer_state) : peer_state :=
  mkRunning (r_client s) (r_node s) sw (r_import s).
Definition with_import (imp : ValidatedStreamsBlockImport I) (s : peer_state) : peer_state :=
  mkRunning (r_client s) (r_node s) (r_swarm s) imp.

(** ** Accesses *)

Definition client_of (c : cluster) (i : fin N) : Client := r_client (nodes c !!! i).

(** A question to the client of a node. *)
Definition ask {E A} (i : fin N) (f : Client → result E A) : M cluster E A := λ c,
  Ret (f (client_of c i), c).

(** A call on one of the shared objects of a node. *)
Definition on_node {E A} (i : fin N) (m : M node E A) : M cluster E A :=
  zoom (λ c, r_node (nodes c !!! i)) (λ n c, set_node i (with_node n (nodes c !!! i)) c) m.

(** A call on the swarm, which only the gossip service uses. *)
Definition on_swarm {E} (i : fin N) (f : Swarm → Swarm) : M cluster E unit := λ c,
  Ret (Ok tt, set_node i (with_swarm (f (r_swarm (nodes c !!! i))) (nodes c !!! i)) c).

(** [keystore.sign_with]: a signature that was made can be seen by anyone. *)
Definition sign (i : fin N) (pub_key : CryptoTypePublicPair) (event_id : H256) :
    M cluster Error (option (list byte)) := λ c,
  let r := sign_with (keystore_of i) pub_key (as_bytes event_id) in
  Ret (map_err from_keystore r,
       match r with
       | Ok (Some _) => mkCluster (nodes c) ((pub_key, event_id) :: attested c) (handed_over c)
       | _ => c
       end).

(** [self.sync_service.clone().await.unwrap()] and [is_major_syncing()] of the
    service. *)
Definition await_sync {E} (i : fin N) : M cluster E bool := λ c,
  match sync_service (r_import (nodes c !!! i)) with
  | SyncPending => Diverge
  | SyncDropped => Panic
  | SyncReady is_major_syncing => Ret (Ok is_major_syncing, c)
  end.

(** [self.parent_block_import.import_block(block)] *)
Definition hand_over (i : fin N) (block : BlockImportParams) (major : bool) :
    M cluster ConsensusError ImportResult := λ c,
  let s := nodes c !!! i in
  '(r, inner) ← inner_import_block block (parent_block_import (r_import s));
  Ret (r, mkCluster (vinsert i (with_import (mkBlockImport inner (sync_service (r_import s))) s) (nodes c))
            (attested c) (mkHanded i block major :: handed_over c)).

(** ** The tasks *)

Definition get_authorities_list_task (i : fin N) (authorities_block_id : Hash) :
    T cluster Error AuthoritiesList :=
  cached ← access (on_node i (on_block_state (with_lock from_poison
    (λ c, let '(o, c') := lru_get authorities_block_id c in (Ok o, c')))));
  match cached with
  | Some list => mret list
  | None =>
      ids ← access (ask i (λ client,
        map_err (λ e, Other (to_string e)) (api_authorities client authorities_block_id)));
      let new_block_state := mkAuthorities (pair_of_authority <$> ids) in
      access (on_node i (on_block_state (with_lock from_poison
        (λ c, (Ok tt, lru_put authorities_block_id new_block_state c))))) ≫= λ _,
      mret new_block_state
  end.

Definition get_latest_authorities_list_task (i : fin N) : T cluster Error AuthoritiesList :=
  finalized ← access (ask i (λ client, Ok (finalized_hash client)));
  get_authorities_list_task i finalized.

Definition submit_event_extrinsic_task (i : fin N) (event : H256)
    (event_proofs : option (gmap CryptoTypePublicPair (list byte))) : T cluster Error unit :=
  proofs ← access (lift_outcome (convert_proofs event_proofs));
  best ← access (ask i (λ client, Ok (best_hash client)));
  unsigned_extrinsic ← access (ask i (λ client,
    map_err from_api (api_create_unsigned_extrinsic client best event proofs)));
  access (on_node i (on_tx_pool (λ pool,
    let '(r, pool') := submit_local best unsigned_extrinsic pool in
    Ret (submit_result r, pool')))).

Definition handle_witnessed_event_task (i : fin N) (witnessed_event : WitnessedEvent) :
    T cluster Error bool :=
  block_state ← get_latest_authorities_list_task i;
  witnessed_event ← t_lift (verify_witnessed_event_origin block_state witnessed_event);
  access (on_node i (on_event_proofs (add_event_proof witnessed_event))) ≫= λ _,
  access (on_node i (on_event_proofs (purge_event_stale_signatures (event_id witnessed_event)
    (authorities block_state)))) ≫= λ _,
  proof_count ← access (on_node i (on_event_proofs (get_event_proof_count (event_id witnessed_event)
    (authorities block_state))));
  (if (target block_state <=? proof_count)%Z then
     proofs ← (if off_chain_proofs then mret None
               else p ← access (on_node i (on_event_proofs (get_event_proofs
                      (event_id witnessed_event) (authorities block_state))));
                    mret (Some p));
     submit_event_extrinsic_task i (event_id witnessed_event) proofs
   else mret tt) ≫= λ _,
  mret true.

Definition handle_task (i : fin N) (message_data : list byte) : task cluster unit :=
  match de_event message_data with
  | Ok witnessed_event => t_ignore (handle_witnessed_event_task i witnessed_event)
  | Err _ => Done tt
  end.

(** One iteration of the loop of the gossip service. *)
Definition swarm_task (i : fin N) (f : Swarm → Swarm) (next : task cluster unit) : task cluster unit :=
  task_bind (access (on_swarm (E := Error) i f)) (λ _, next).

Definition handle_incoming_order_task (i : fin N) (order : GossipOrder Multiaddr) : task cluster unit :=
  match order with
  | SendMessage topic message =>
      swarm_task i (λ swarm, (gossipsub_publish topic message swarm).2) (handle_task i message)
  | DialPeers peers => swarm_task i (λ swarm, dial_peers swarm peers) (Done tt)
  | Listen listen_addr => swarm_task i (λ swarm, (swarm_listen_on listen_addr swarm).2) (Done tt)
  end.

Definition handle_incoming_event_task (i : fin N) (event : SwarmEvent PeerId Multiaddr) :
    task cluster unit :=
  match event with
  | NewListenAddr _ => Done tt
  | Subscribed _ _ => Done tt
  | Message data => handle_task i data
  | IdentifyReceived peer_id listen_addrs =>
      swarm_task i (λ swarm, foldl (λ sw addr, kademlia_add_address peer_id addr sw) swarm listen_addrs)
        (Done tt)
  | OtherSwarmEvent => Done tt
  end.

Definition witness_event_task (i : fin N) (event_id : H256) : T cluster Error unit :=
  block_state ← get_latest_authorities_list_task i;
  supported ← t_lift (map_err from_keystore (supported_keys (keystore_of i) (authorities block_state)));
  pub_key ← t_lift (ok_or (head supported) NotAValidator);
  signed ← access (sign i pub_key event_id);
  signature ← t_lift (ok_or signed (SigningFailure "Failed getting a signature"));
  let witnessed_event := mkWitnessed signature pub_key event_id in
  serilized_event ← t_lift (map_err from_bincode (ser_event witnessed_event));
  access (on_node i (on_orders (λ tx,
    Ret (Ok tt, publish WITNESSED_EVENTS_TOPIC serilized_event tx)))) ≫= λ _,
  mret tt.

(** The loop of [verify_events_validity]. *)
Fixpoint collect_unprepared_task (i : fin N) (target_count : Z) (auths : list CryptoTypePublicPair)
    (ids : list H256) : T cluster Error (list H256) :=
  match ids with
  | [] => mret []
  | id :: rest =>
      current_count ← access (on_node i (on_event_proofs (get_event_proof_count id auths)));
      unprepared_ids ← collect_unprepared_task i target_count auths rest;
      mret (if (current_count <? target_count)%Z then id :: unprepared_ids else unprepared_ids)
  end.

Definition verify_events_validity_task (i : fin N) (authorities_block_id : Hash) (ids : list H256) :
    T cluster Error (list H256) :=
  authorities_list ← get_authorities_list_task i authorities_block_id;
  collect_unprepared_task i (target authorities_list) (authorities authorities_list) ids.

Definition import_block_task (i : fin N) (block : BlockImportParams) :
    T cluster ConsensusError ImportResult :=
  is_major_syncing ← access (await_sync i);
  if (is_major_syncing : bool) then access (hand_over i block true)
  else
    match body block with
    | Some block_extrinsics =>
        extrinsic_ids ← access (ask i (λ client, Ok (unwrap_or []
          (api_get_extrinsic_ids client (parent_hash block) block_extrinsics))));
        task_bind (verify_events_validity_task i (parent_hash block) extrinsic_ids) (λ r,
          match r with
          | Ok unwitnessed_ids =>
              if bool_decide (unwitnessed_ids ≠ []) then
                Done (Err (ClientImport "Block contains unwitnessed events"))
              else access (hand_over i block false)
          | Err e => Done (Err (ClientImport (to_string e)))
          end)
    | None => access (hand_over i block false)
    end.

End Cluster.

(** ** A task that runs alone is the sequential call *)

(** A view of a part of a state, with its update. *)
Record lens {S A} (get : S → A) (put : A → S → S) : Prop := mkLens {
  lens_get a s : get (put a s) = a;
  lens_put a b s : put a (put b s) = put a s;
  lens_id s : put (get s) s = s
}.

Lemma zoom_bind {S A E B C} (get : S → A) put (m : M A E B) (f : B → M A E C) s :
  lens get put → zoom get put (m ≫= f) s = (zoom get put m ≫= λ b, zoom get put (f b)) s.
Proof.
  intros L. unfold zoom, mbind, M_bind, outcome_bind.
  destruct (m (get s)) as [[[b|e] a]| |]; [|done..]. cbn. rewrite (lens_get get put L).
  destruct (f b a) as [[r a']| |]; [|done..]. by rewrite (lens_put get put L).
Qed.

Lemma zoom_lift {S A E B} (get : S → A) put (r : result E B) s :
  lens get put → zoom get put (lift r) s = Ret (r, s).
Proof. intros L. unfold zoom, lift. cbn. by rewrite (lens_id get put L). Qed.

Section Alone.
Context `{Bincode} `{ChainTypes} `{Sr25519}.
Context {Cache : Type} `{LruCache Hash AuthoritiesList Cache}.
Context {Store : Type} `{EventProofsTrait Store}.
Context {Pool : Type} `{!TxPool Pool}.
Context {Swarm PeerId Multiaddr : Type} `{!SwarmOps Swarm PeerId Multiaddr}.
Context {Keystore : Type} `{!CryptoStore Keystore}.
Context {I ImportResult CheckParams : Type} `{!BlockImportOps I ImportResult CheckParams}.
Context (off_chain_proofs : bool) {N : nat} (keystore_of : fin N → Keystore).
Abbreviation node := (node_state Store Cache Pool (GossipOrder Multiaddr)).
Abbreviation state := (cluster (Store := Store) (Cache := Cache) (Pool := Pool)
  (Swarm := Swarm) (Multiaddr := Multiaddr) (I := I) (N := N)).

Lemma block_state_lens : lens block_state (set_block_state (Store := Store) (Cache := Cache)
  (Pool := Pool) (Order := GossipOrder Multiaddr)).
Proof. by split; intros; repeat match goal with x : node |- _ => destruct x end. Qed.

(** The state after a call of node [i]: its shared objects, and the signatures
    that the call has made. *)
Definition after_call (i : fin N) (c : state) (n : node) (w : list (CryptoTypePublicPair * H256)) :
    state :=
  mkCluster (vinsert i (with_node n (nodes c !!! i)) (nodes c)) (w ++ attested c) (handed_over c).

(** A task of node [i], alone, does what the call [m] does, and signs only what
    [P] allows. *)
Definition refines {E A} (i : fin N) (client : Client) (P : CryptoTypePublicPair * H256 → Prop)
    (t : T state E A) (m : M node E A) : Prop :=
  ∀ c, client_of c i = client →
  match m (r_node (nodes c !!! i)) with
  | Ret (r, n') => ∃ w, Forall P w ∧ run_alone t c = Ret (r, after_call i c n' w)
  | Panic => run_alone t c = Panic
  | Diverge => run_alone t c = Diverge
  end.

Section Rules.
Context (i : fin N) (client : Client) (P : CryptoTypePublicPair * H256 → Prop).

Lemma after_call_id (c : state) : after_call i c (r_node (nodes c !!! i)) [] = c.
Proof.
  unfold after_call. destruct c as [v w h]. cbn. f_equal.
  transitivity (vinsert i (v !!! i) v); [|apply vlookup_insert_self]. f_equal. by destruct (v !!! i).
Qed.

Lemma after_call_node (c : state) n w : nodes (after_call i c n w) !!! i = with_node n (nodes c !!! i).
Proof. apply vlookup_insert. Qed.

Lemma vinsert_vinsert {A} {k} (j : fin k) (x y : A) (v : vec A k) :
  vinsert j x (vinsert j y v) = vinsert j x v.
Proof.
  apply vec_eq. intros j'. destruct (decide (j = j')) as [<-|Hne].
  - by rewrite !vlookup_insert.
  - by rewrite !vlookup_insert_ne.
Qed.

Lemma after_call_twice (c : state) n n' w w' :
  after_call i (after_call i c n w) n' w' = after_call i c n' (w' ++ w).
Proof.
  unfold after_call at 1. rewrite after_call_node. unfold after_call. cbn.
  by rewrite vinsert_vinsert, app_assoc.
Qed.

Lemma refines_ret {E A} (r : result E A) : refines i client P (Done r) (lift r).
Proof. intros c _. exists []. split; [done|]. cbn. by rewrite after_call_id. Qed.

Lemma refines_access {E A} (m : M node E A) : refines i client P (access (on_node i m)) m.
Proof.
  intros c _. rewrite run_alone_access. unfold on_node, zoom.
  destruct (m (r_node (nodes c !!! i))) as [[r n]| |]; [|done..]. by exists [].
Qed.

Lemma refines_ask {E A} (f : Client → result E A) :
  refines i client P (access (ask i f)) (lift (f client)).
Proof. intros c <-. exists []. split; [done|]. cbn. by rewrite after_call_id. Qed.

Lemma refines_outcome {E A} (o : outcome A) :
  refines i client P (access (lift_outcome o) : T state E A) (lift_outcome o).
Proof.
  intros c _. rewrite run_alone_access. unfold lift_outcome. destruct o; [|done..].
  exists []. split; [done|]. cbn. by rewrite after_call_id.
Qed.

Lemma refines_bind {E A B} (t : T state E A) (f : A → T state E B) m g :
  refines i client P t m → (∀ a, refines i client P (f a) (g a)) →
  refines i client P (t ≫= f) (m ≫= g).
Proof.
  intros Ht Hf c Hc. specialize (Ht c Hc). rewrite run_alone_bind. unfold mbind, M_bind, outcome_bind.
  destruct (m (r_node (nodes c !!! i))) as [[[a|e] n]| |].
  - destruct Ht as (w & Hw & ->). rewrite !outcome_ret_bind. specialize (Hf a (after_call i c n w)).
    unfold client_of in Hf. rewrite after_call_node in Hf. cbn [r_client r_node with_node] in Hf.
    destruct (g a n) as [[r n']| |]; [|by apply Hf..]. destruct Hf as (w' & Hw' & ->); [done|].
    exists (w' ++ w). split; [by apply Forall_app|]. by rewrite after_call_twice.
  - destruct Ht as (w & Hw & ->). by exists w.
  - by rewrite Ht.
  - by rewrite Ht.
Qed.

Lemma refines_ext {E A} (t : T state E A) m m' :
  (∀ n, m n = m' n) → refines i client P t m → refines i client P t m'.
Proof. intros Hm Ht c Hc. rewrite <- Hm. by apply Ht. Qed.

(** Calls on the cache of authorities. *)
Lemma refines_cache_bind {E A B} (t : T state E A) (f : A → T state E B) m g :
  refines i client P t (on_block_state m) → (∀ a, refines i client P (f a) (on_block_state (g a))) →
  refines i client P (t ≫= f) (on_block_state (m ≫= g)).
Proof.
  intros Ht Hf. apply (refines_ext _ (on_block_state m ≫= λ a, on_block_state (g a))).
  - intros n. symmetry. apply zoom_bind, block_state_lens.
  - by apply refines_bind.
Qed.

Lemma refines_cache_ret {E A} (r : result E A) : refines i client P (Done r) (on_block_state (lift r)).
Proof.
  apply (refines_ext _ (lift r)); [|apply refines_ret].
  intros n. symmetry. apply zoom_lift, block_state_lens.
Qed.

Lemma refines_cache_ask {E A} (f : Client → result E A) :
  refines i client P (access (ask i f)) (on_block_state (lift (f client))).
Proof.
  apply (refines_ext _ (lift (f client))); [|apply refines_ask].
  intros n. symmetry. apply zoom_lift, block_state_lens.
Qed.

(** Reading a value of the client first. *)
Lemma refines_ask_bind {E A B} (f : Client → A) (g : A → T state E B) m :
  refines i client P (g (f client)) m →
  refines i client P (access (ask i (λ client, Ok (f client))) ≫= g) m.
Proof.
  intros Hg c Hc. specialize (Hg c Hc). rewrite <- Hc in Hg. exact Hg.
Qed.

(** The keystore signs, and the signature is seen. *)
Lemma refines_sign k e :
  P (k, e) →
  refines i client P (access (sign keystore_of i k e))
    (lift (map_err from_keystore (sign_with (keystore_of i) k (as_bytes e)))).
Proof.
  intros HP c _. rewrite run_alone_access. unfold lift, sign.
  destruct (sign_with (keystore_of i) k (as_bytes e)) as [[s|]|err].
  - exists [(k, e)]. split; [by constructor|]. cbn. rewrite <- (after_call_id c) at 1. done.
  - exists []. split; [done|]. by rewrite after_call_id.
  - exists []. split; [done|]. by rewrite after_call_id.
Qed.

End Rules.

(** One rule for each form of a task. *)
Ltac refine_step :=
  match goal with
  | |- refines _ _ _ (access (ask _ (λ _, Ok _)) ≫= _) _ => apply refines_ask_bind
  | |- refines _ _ _ (_ ≫= _) (_ ≫= _) => apply refines_bind; [|intros ?]
  | |- refines _ _ _ (access (on_node _ _)) _ => apply refines_access
  | |- refines _ _ _ (access (ask _ _)) _ => apply refines_ask
  | |- refines _ _ _ (access (lift_outcome _)) _ => apply refines_outcome
  | |- refines _ _ _ (t_lift _) _ => apply refines_ret
  | |- refines _ _ _ (mret _) _ => apply refines_ret
  | |- refines _ _ _ (match ?x with _ => _ end) _ => destruct x
  end.

Section Calls.
Context (i : fin N) (client : Client) (P : CryptoTypePublicPair * H256 → Prop).

Lemma get_authorities_list_alone h :
  refines i client P (get_authorities_list_task i h) (on_block_state (get_authorities_list client h)).
Proof.
  apply refines_cache_bind; [apply refines_access|]. intros [l|]; [apply refines_cache_ret|].
  apply refines_cache_bind; [apply refines_cache_ask|]. intros ids.
  apply refines_cache_bind; [apply refines_access|]. intros []. apply refines_cache_ret.
Qed.

Lemma get_latest_authorities_list_alone :
  refines i client P (get_latest_authorities_list_task i)
    (on_block_state (get_latest_authorities_list client)).
Proof. apply refines_ask_bind, get_authorities_list_alone. Qed.

Lemma submit_event_extrinsic_alone e ps :
  refines i client P (submit_event_extrinsic_task i e ps) (submit_event_extrinsic client e ps).
Proof. unfold submit_event_extrinsic_task, submit_event_extrinsic. repeat refine_step. Qed.

Lemma handle_witnessed_event_alone ev :
  refines i client P (handle_witnessed_event_task off_chain_proofs i ev)
    (handle_witnessed_event off_chain_proofs client ev).
Proof.
  unfold handle_witnessed_event_task, handle_witnessed_event.
  refine_step; [apply get_latest_authorities_list_alone|].
  do 4 (refine_step; [refine_step|]). refine_step; [|refine_step]. refine_step; [|refine_step].
  refine_step; [|apply submit_event_extrinsic_alone].
  destruct off_chain_proofs; repeat refine_step.
Qed.

Lemma witness_event_alone e :
  (∀ k, P (k, e)) →
  refines i client P (witness_event_task keystore_of i e) (witness_event client (keystore_of i) e).
Proof.
  intros HP. unfold witness_event_task, witness_event.
  refine_step; [apply get_latest_authorities_list_alone|].
  do 2 (refine_step; [refine_step|]). refine_step; [by apply refines_sign|]. repeat refine_step.
Qed.

Lemma collect_unprepared_alone t auths ids :
  refines i client P (collect_unprepared_task i t auths ids) (collect_unprepared t auths ids).
Proof.
  induction ids as [|id ids IH]; cbn [collect_unprepared_task collect_unprepared]; [refine_step|].
  refine_step; [refine_step|]. refine_step; [exact IH|refine_step].
Qed.

Lemma verify_events_validity_alone h ids :
  refines i client P (verify_events_validity_task i h ids) (verify_events_validity client h ids).
Proof. apply refines_bind; [apply get_authorities_list_alone|intros l; apply collect_unprepared_alone]. Qed.

End Calls.
(** *** The gossip service *)

Lemma after_call_nil_inv (w : list (CryptoTypePublicPair * H256)) : Forall (λ _, False) w → w = [].
Proof. by destruct 1. Qed.

Lemma handle_alone i (c : state) m :
  run_alone (handle_task off_chain_proofs i m) c =
  n' ← handle off_chain_proofs (client_of c i) m (r_node (nodes c !!! i)); Ret (tt, after_call i c n' []).
Proof.
  unfold handle_task, handle. destruct (de_event m) as [ev|e].
  2: { cbn. by rewrite after_call_id. }
  unfold t_ignore. rewrite run_alone_task_bind.
  pose proof (handle_witnessed_event_alone i (client_of c i) (λ _, False) ev c eq_refl) as Hrun.
  destruct (handle_witnessed_event _ _ _ _) as [[r n']| |]; [|by rewrite Hrun..].
  destruct Hrun as (w & ->%after_call_nil_inv & ->). done.
Qed.

(** The state after an iteration of the gossip service. *)
Definition after_gossip (i : fin N) (c : state) (sw : Swarm) (n : node) : state :=
  set_node i (mkRunning (client_of c i) n sw (r_import (nodes c !!! i))) c.

Lemma swarm_alone i (c : state) f t :
  run_alone (swarm_task i f t) c = run_alone t (set_node i (with_swarm (f (r_swarm (nodes c !!! i))) (nodes c !!! i)) c).
Proof. done. Qed.

Lemma handle_after_swarm i (c : state) sw m :
  run_alone (handle_task off_chain_proofs i m) (set_node i (with_swarm sw (nodes c !!! i)) c) =
  n' ← handle off_chain_proofs (client_of c i) m (r_node (nodes c !!! i)); Ret (tt, after_gossip i c sw n').
Proof.
  rewrite handle_alone. unfold client_of, set_node. cbn [nodes]. rewrite vlookup_insert. cbn [with_swarm r_client r_node].
  destruct (handle _ _ _ _) as [n'| |]; [|done..]. cbn. f_equal. f_equal. unfold after_call, after_gossip, set_node.
  cbn. by rewrite vlookup_insert, vinsert_vinsert.
Qed.

Lemma incoming_order_alone i (c : state) o :
  run_alone (handle_incoming_order_task off_chain_proofs i o) c =
  '(sw', n') ← handle_incoming_order (H0 := event_gossip_handler off_chain_proofs (client_of c i)) o
    (r_swarm (nodes c !!! i), r_node (nodes c !!! i));
  Ret (tt, after_gossip i c sw' n').
Proof.
  destruct o as [topic m|ps|a]; cbn [handle_incoming_order_task handle_incoming_order]; rewrite swarm_alone; [|done..].
  rewrite handle_after_swarm. destruct (gossipsub_publish topic m _) as [r sw]. cbn [handler_handle event_gossip_handler snd].
  by destruct (handle _ _ _ _).
Qed.

Lemma incoming_event_alone i (c : state) ev :
  run_alone (handle_incoming_event_task off_chain_proofs i ev) c =
  '(sw', n') ← handle_incoming_event (H0 := event_gossip_handler off_chain_proofs (client_of c i)) ev
    (r_swarm (nodes c !!! i), r_node (nodes c !!! i));
  Ret (tt, after_gossip i c sw' n').
Proof.
  assert (∀ n, after_call i c n [] = after_gossip i c (r_swarm (nodes c !!! i)) n) as Hafter by done.
  destruct ev as [a|p t|m|p addrs|]; cbn [handle_incoming_event_task handle_incoming_event];
    try (cbn; by rewrite <- Hafter, after_call_id).
  - rewrite handle_alone. cbn [handler_handle event_gossip_handler]. by destruct (handle _ _ _ _).
  - done.
Qed.

(** *** The block import *)

(** The state after an import: what it handed over is in the history. *)
Definition after_import (i : fin N) (c : state) (imp : ValidatedStreamsBlockImport I) (n : node)
    (h : list handed) : state :=
  mkCluster (vinsert i (mkRunning (client_of c i) n (r_swarm (nodes c !!! i)) imp) (nodes c))
    (attested c) (h ++ handed_over c).

Lemma hand_over_alone i block major (c : state) n :
  run_alone (access (hand_over i block major)) (after_call i c n []) =
  '(r, (imp', n')) ← forward (inner_import_block block) (r_import (nodes c !!! i)) n;
  Ret (r, after_import i c imp' n' [mkHanded i block major]).
Proof.
  rewrite run_alone_access. unfold hand_over, forward. rewrite after_call_node. cbn [r_import with_node].
  destruct (inner_import_block _ _) as [[r inner]| |]; [|done..]. cbn. f_equal. f_equal.
  unfold after_import. f_equal. by rewrite vinsert_vinsert.
Qed.

(** What a task does alone agrees with what an import returns: it hands over its
    block at most once, and nothing else. *)
Definition same_import (i : fin N) (block : BlockImportParams) (c : state)
    (o : outcome (result ConsensusError ImportResult * (ValidatedStreamsBlockImport I * node)))
    (o' : outcome (result ConsensusError ImportResult * state)) : Prop :=
  match o with
  | Ret (r, (imp', n')) => ∃ h, (h = [] ∨ ∃ major, h = [mkHanded i block major]) ∧
      o' = Ret (r, after_import i c imp' n' h)
  | Panic => o' = Panic
  | Diverge => o' = Diverge
  end.

Lemma same_forward i block (c : state) major n :
  same_import i block c (forward (inner_import_block block) (r_import (nodes c !!! i)) n)
    (run_alone (access (hand_over i block major)) (after_call i c n [])).
Proof.
  rewrite hand_over_alone. unfold same_import. destruct (forward _ _ n) as [[r [imp' n']]| |]; [|done..].
  exists [mkHanded i block major]. eauto.
Qed.

Lemma same_rejected i block (c : state) n r :
  same_import i block c (Ret (r, (r_import (nodes c !!! i), n))) (Ret (r, after_call i c n [])).
Proof. exists []. split; [by left|]. done. Qed.

Lemma import_block_alone i block (c : state) :
  same_import i block c
    (import_block (client_of c i) block (r_import (nodes c !!! i)) (r_node (nodes c !!! i)))
    (run_alone (import_block_task i block) c).
Proof.
  pose proof (λ major, same_forward i block c major (r_node (nodes c !!! i))) as Hfwd.
  assert (∀ major, run_alone (access (hand_over i block major))
    (after_call i c (r_node (nodes c !!! i)) []) = run_alone (access (hand_over i block major)) c) as Hid
    by (intros; by rewrite after_call_id).
  unfold import_block_task, import_block. rewrite run_alone_bind.
  assert (run_alone (access (await_sync (E := ConsensusError) i)) c =
    match sync_service (r_import (nodes c !!! i)) with
    | SyncPending => Diverge
    | SyncDropped => Panic
    | SyncReady major => Ret (Ok major, c)
    end) as Hawait by apply run_alone_access.
  destruct (sync_service (r_import (nodes c !!! i))) as [| |major].
  - unfold mbind, M_bind. by rewrite Hawait.
  - unfold mbind, M_bind. by rewrite Hawait.
  - rewrite (M_bind_ok _ _ _ _ _ Hawait). destruct major; [rewrite <- Hid; apply Hfwd|].
    destruct (body block) as [exts|]; [|rewrite <- Hid; apply Hfwd].
    rewrite run_alone_bind, (M_bind_ok _ _ c c _ (run_alone_access _ c)), run_alone_task_bind.
    set (ids := unwrap_or [] _).
    pose proof (verify_events_validity_alone i (client_of c i) (λ _, False) (parent_hash block) ids c eq_refl)
      as Hver.
    destruct (verify_events_validity _ _ ids _) as [[[us|err] n']| |]; [..|by rewrite Hver|by rewrite Hver];
      destruct Hver as (w & ->%after_call_nil_inv & ->); rewrite !outcome_ret_bind; [|apply same_rejected].
    destruct (bool_decide (us ≠ [])); [apply same_rejected|apply same_forward].
Qed.

(** C7: each task, when no other runs in between, does what the sequential call
    does: the same result, the same panics and waits, the same change of the
    node's shared objects; the gossip service and its handler sign nothing, a
    witnessing signs at most the event it was asked to witness, and an import
    hands over at most its own block, once. *)
Theorem tasks_refine_calls (i : fin N) (c : state) :
  let s := nodes c !!! i in
  (∀ o, run_alone (handle_incoming_order_task off_chain_proofs i o) c =
     '(sw', n') ← handle_incoming_order (H0 := event_gossip_handler off_chain_proofs (r_client s)) o
       (r_swarm s, r_node s);
     Ret (tt, after_gossip i c sw' n')) ∧
  (∀ ev, run_alone (handle_incoming_event_task off_chain_proofs i ev) c =
     '(sw', n') ← handle_incoming_event (H0 := event_gossip_handler off_chain_proofs (r_client s)) ev
       (r_swarm s, r_node s);
     Ret (tt, after_gossip i c sw' n')) ∧
  (∀ e, match witness_event (r_client s) (keystore_of i) e (r_node s) with
        | Ret (r, n') => ∃ w, Forall (λ ke, ke.2 = e) w ∧
            run_alone (witness_event_task keystore_of i e) c = Ret (r, after_call i c n' w)
        | Panic => run_alone (witness_event_task keystore_of i e) c = Panic
        | Diverge => run_alone (witness_event_task keystore_of i e) c = Diverge
        end) ∧
  (∀ block, same_import i block c (import_block (r_client s) block (r_import s) (r_node s))
     (run_alone (import_block_task i block) c)).
Proof.
  split_and!.
  - apply incoming_order_alone.
  - apply incoming_event_alone.
  - intros e. by apply (witness_event_alone i (client_of c i) (λ ke, ke.2 = e)).
  - intros block. apply import_block_alone.
Qed.

End Alone.

(** ** The cluster as a system of tasks *)

Section Interleaving.
Context `{BincodeLaws} `{ChainTypes} `{Sr25519}.
Context {Cache : Type} `{LruCacheLaws Hash AuthoritiesList Cache}.
Context {Store : Type} `{EventProofsSpec Store}.
Context {Pool : Type} `{!TxPool Pool}.
Context {Swarm PeerId Multiaddr : Type} `{!SwarmOps Swarm PeerId Multiaddr}.
Context {Keystore : Type} `{!CryptoStore Keystore} `{!CryptoStoreLaws Keystore}.
Context {I ImportResult CheckParams : Type} `{!BlockImportOps I ImportResult CheckParams}.
Context (off_chain_proofs : bool) {N : nat} (keystore_of : fin N → Keystore).
Context (byzantine : gset CryptoTypePublicPair).
Abbreviation node := (node_state Store Cache Pool (GossipOrder Multiaddr)).
Abbreviation peer_state := (running (Store := Store) (Cache := Cache) (Pool := Pool)
  (Swarm := Swarm) (Multiaddr := Multiaddr) (I := I)).
Abbreviation state := (cluster (Store := Store) (Cache := Cache) (Pool := Pool)
  (Swarm := Swarm) (Multiaddr := Multiaddr) (I := I) (N := N)).

(** The chain of a node progresses: what the runtime answers about a block that
    the node knows does not change. *)
Definition client_grows (cl cl' : Client) : Prop :=
  ∀ h auths, authorities_at cl h = Ok auths →
    authorities_at cl' h = Ok auths ∧
    ∀ exts, api_get_extrinsic_ids cl' h exts = api_get_extrinsic_ids cl h exts.

Definition set_client (i : fin N) (cl : Client) (c : state) : state :=
  let s := nodes c !!! i in set_node i (mkRunning cl (r_node s) (r_swarm s) (r_import s)) c.

(** What happens outside the tasks: a chain progresses, or a synchronisation
    service is started or changes its answer. *)
Inductive cluster_env : state → state → Prop :=
| EnvChain c i cl' :
    client_grows (client_of c i) cl' → client_ok cl' →
    cluster_env c (set_client i cl' c)
| EnvSync c i major :
    cluster_env c (set_node i (with_import
      (send_sync_service major (r_import (nodes c !!! i))) (nodes c !!! i)) c).

(** A message that the network may deliver: no signature of a key that is not
    Byzantine is forged. *)
Definition unforged (w : list (CryptoTypePublicPair * H256)) (m : list byte) : Prop :=
  ∀ ev, de_event m = Ok ev → valid_signature (event_id ev) (pub_key ev) (signature ev) →
    known byzantine w (pub_key ev) (event_id ev).

(** Taking the oldest order from the channel. *)
Definition pop_order (i : fin N) (q : list (GossipOrder Multiaddr)) (c : state) : state :=
  let s := nodes c !!! i in
  set_node i (with_node (set_orders (mkChannel (receiver_alive (orders (r_node s))) q) (r_node s)) s) c.

(** The tasks that are started: a remote call to witness an event; an iteration
    of the gossip service, for an order or for an event of the network (the code
    has one at a time, here there may be several); an import, which the import
    queue starts after the inner import has checked that the parent is known. *)
Inductive cluster_spawn : state → task state unit → state → Prop :=
| SpawnWitness c i e :
    cluster_spawn c (t_ignore (witness_event_task keystore_of i e)) c
| SpawnOrder c i o q :
    queued (orders (r_node (nodes c !!! i))) = o :: q →
    cluster_spawn c (handle_incoming_order_task off_chain_proofs i o) (pop_order i q c)
| SpawnEvent c i ev :
    (∀ m, ev = Message m → unforged (attested c) m) →
    cluster_spawn c (handle_incoming_event_task off_chain_proofs i ev) c
| SpawnImport c i block auths :
    authorities_at (client_of c i) (parent_hash block) = Ok auths →
    cluster_spawn c (t_ignore (import_block_task i block)) c.

Abbreviation cluster_step := (sys_step cluster_env cluster_spawn).

(** *** The invariant *)

(** A block that a node handed over without catching up has a quorum for each of
    its events. *)
Definition handed_ok (c : state) (h : handed) : Prop :=
  h_major h = false →
  ∃ auths, authorities_at (client_of c (h_node h)) (parent_hash (h_block h)) = Ok auths ∧
    Forall (attested_quorum byzantine auths (attested c)) (block_events (client_of c (h_node h)) (h_block h)).

Record cluster_ok (c : state) : Prop := mkClusterOk {
  cluster_peers i : peer_ok byzantine (attested c) (nodes c !!! i);
  cluster_sync i : sync_service (r_import (nodes c !!! i)) ≠ SyncDropped;
  cluster_handed : Forall (handed_ok c) (handed_over c)
}.

(** How the state evolves. *)
Record evolves (c c' : state) : Prop := mkEvolves {
  evolves_attested : attested c ⊆ attested c';
  evolves_handed : handed_over c ⊆ handed_over c';
  evolves_client i : client_grows (client_of c i) (client_of c' i)
}.

(** What the tasks do: they do not change the chains. *)
Record acts (c c' : state) : Prop := mkActs {
  acts_evolves : evolves c c';
  acts_client i : client_of c' i = client_of c i
}.

(** An import waits until its node has a synchronisation service. *)
Definition waits (c : state) : Prop := ∃ i, sync_service (r_import (nodes c !!! i)) = SyncPending.

#[export] Instance client_grows_preorder : PreOrder client_grows.
Proof.
  split; [done|]. intros c1 c2 c3 H12 H23 h auths Ha.
  destruct (H12 h auths Ha) as [Ha2 Hid2]. destruct (H23 h auths Ha2) as [Ha3 Hid3].
  split; [done|]. intros exts. by rewrite Hid3.
Qed.

#[export] Instance evolves_preorder : PreOrder evolves.
Proof.
  split; [by split|]. intros c1 c2 c3 [? ? ?] [? ? ?]. split; [set_solver..|].
  intros i. by transitivity (client_of c2 i).
Qed.

#[export] Instance acts_reflexive : Reflexive acts.
Proof. by split. Qed.

#[export] Instance acts_subrelation : subrelation acts evolves.
Proof. by intros c c' []. Qed.

Abbreviation holds := (wp cluster_ok evolves acts waits).

Lemma unforged_mono w w' m : w ⊆ w' → unforged w m → unforged w' m.
Proof. intros Hw Hm ev ? ?. by eapply known_subseteq, Hm. Qed.

Lemma peer_ok_subseteq w w' (s : peer_state) : w ⊆ w' → peer_ok byzantine w s → peer_ok byzantine w' s.
Proof. intros Hw [? ? ?]. split; eauto using known_subseteq. Qed.

Lemma client_grows_extends cl cl' : client_grows cl cl' → client_extends cl cl'.
Proof. intros Hg h auths Ha. by destruct (Hg h auths Ha). Qed.

Lemma block_events_grows cl cl' block auths :
  client_grows cl cl' → authorities_at cl (parent_hash block) = Ok auths →
  block_events cl' block = block_events cl block.
Proof.
  intros Hg Ha. unfold block_events. destruct (body block); [|done].
  destruct (Hg _ _ Ha) as [_ Hid]. by rewrite Hid.
Qed.

Lemma handed_ok_evolves c c' h : evolves c c' → handed_ok c h → handed_ok c' h.
Proof.
  intros [Hw _ Hg] Hh Hmajor. destruct (Hh Hmajor) as (auths & Ha & Hq). exists auths.
  specialize (Hg (h_node h)). split; [by apply (client_grows_extends _ _ Hg)|].
  rewrite (block_events_grows _ _ _ _ Hg Ha). eapply Forall_impl; [exact Hq|].
  intros e. by apply attested_quorum_mono.
Qed.

(** A step that replaces one node keeps the invariant, if it keeps the node's. *)
Lemma set_node_ok i (s : peer_state) (c : state) :
  cluster_ok c → client_grows (client_of c i) (r_client s) →
  peer_ok byzantine (attested c) s → sync_service (r_import s) ≠ SyncDropped →
  evolves c (set_node i s c) ∧ cluster_ok (set_node i s c).
Proof.
  intros [Hp Hsync Hh] Hg Hs Hd.
  assert (evolves c (set_node i s c)) as Hev.
  { split; [done..|]. intros j. unfold client_of, set_node. cbn [nodes].
    destruct (decide (i = j)) as [<-|Hne]; [by rewrite vlookup_insert|by rewrite vlookup_insert_ne]. }
  split; [done|]. split.
  - intros j. cbn [set_node nodes attested].
    destruct (decide (i = j)) as [<-|Hne]; [by rewrite vlookup_insert|by rewrite vlookup_insert_ne].
  - intros j. cbn [set_node nodes].
    destruct (decide (i = j)) as [<-|Hne]; [by rewrite vlookup_insert|by rewrite vlookup_insert_ne].
  - eapply Forall_impl; [exact Hh|]. intros h. by apply handed_ok_evolves.
Qed.

Lemma set_node_acts i (s : peer_state) (c : state) :
  evolves c (set_node i s c) → r_client s = client_of c i → acts c (set_node i s c).
Proof.
  intros Hev Hs. split; [done|]. intros j. unfold client_of, set_node. cbn [nodes].
  destruct (decide (i = j)) as [<-|Hne]; [by rewrite vlookup_insert|by rewrite vlookup_insert_ne].
Qed.

(** *** Rules for the accesses *)

Abbreviation t_bind := (wp_bind cluster_ok evolves acts waits).
Abbreviation t_read := (wp_read cluster_ok evolves acts waits).
Abbreviation t_mono := (wp_mono cluster_ok evolves acts waits).


Lemma wp_on_node {E A} i (m : M node E A) (Q : result E A → state → Prop) c0 :
  (∀ c, evolves c0 c → cluster_ok c → ∃ r n',
     m (r_node (nodes c !!! i)) = Ret (r, n') ∧
     peer_ok byzantine (attested c) (with_node n' (nodes c !!! i)) ∧
     ∀ c1, evolves c c1 → cluster_ok c1 → Q r c1) →
  holds (access (on_node i m)) Q c0.
Proof.
  intros Hm. apply wp_access_ret. intros c Hc Hok.
  destruct (Hm c Hc Hok) as (r & n' & Hrun & Hpeer & HQ).
  exists r, (set_node i (with_node n' (nodes c !!! i)) c). unfold on_node, zoom. split; [by rewrite Hrun|].
  destruct (set_node_ok i (with_node n' (nodes c !!! i)) c) as [Hev Hok']; [done..|by apply (cluster_sync c Hok)|].
  split_and!; [by apply set_node_acts|done|]. intros c1 Hc1 Hok1. apply HQ; [by transitivity (set_node i (with_node n' (nodes c !!! i)) c)|done].
Qed.

(** The node keeps its promise when a call changes the cache, the store or the
    pool only. *)
Lemma peer_ok_cache w (s : peer_state) b :
  peer_ok byzantine w s → cache_coherent (r_client s) b →
  peer_ok byzantine w (with_node (set_block_state b (r_node s)) s).
Proof. intros [[[? ? ?] ?] ? ?] Hb. by split; [split; [split|]|..]. Qed.

Lemma peer_ok_store w (s : peer_state) st :
  peer_ok byzantine w s → ep_inv st →
  (∀ e k sig, ep_view st e k = Some sig → valid_signature e k sig ∧ known byzantine w k e) →
  peer_ok byzantine w (with_node (set_event_proofs st (r_node s)) s).
Proof.
  intros [[[? ? ?] ?] ? ?] Hst Hv. split; [split; [split|]|..]; try done.
  - intros e k sig Hk. by apply (Hv e k sig).
  - intros e k sig Hk. by apply (Hv e k sig).
Qed.

Lemma peer_ok_pool w (s : peer_state) p :
  peer_ok byzantine w s → peer_ok byzantine w (with_node (set_tx_pool p (r_node s)) s).
Proof. intros [[[? ? ?] ?] ? ?]. by split; [split; [split|]|..]. Qed.

Lemma peer_ok_view w (s : peer_state) e k sig :
  peer_ok byzantine w s → ep_view (event_proofs (r_node s)) e k = Some sig →
  valid_signature e k sig ∧ known byzantine w k e.
Proof. intros [[[? ? Hv] ?] Hk ?] Hs. split; [by apply Hv|by eapply Hk]. Qed.

(** A call on the store that keeps its contract. *)
Lemma wp_store {E A} i (m : M Store E A) (Q : result E A → state → Prop) c0 :
  (∀ c st, evolves c0 c → cluster_ok c → ep_inv st → st = event_proofs (r_node (nodes c !!! i)) →
     (∀ e k sig, ep_view st e k = Some sig → valid_signature e k sig ∧ known byzantine (attested c) k e) →
     ∃ r st', m st = Ret (r, st') ∧ ep_inv st' ∧
       (∀ e k sig, ep_view st' e k = Some sig → valid_signature e k sig ∧ known byzantine (attested c) k e) ∧
       ∀ c1, evolves c c1 → cluster_ok c1 → Q r c1) →
  holds (access (on_node i (on_event_proofs m))) Q c0.
Proof.
  intros Hm. apply wp_on_node. intros c Hc Hok. pose proof (cluster_peers c Hok i) as Hp.
  pose proof Hp as [[[_ Hinv _] _] _ _].
  destruct (Hm c _ Hc Hok Hinv eq_refl) as (r & st' & Hrun & Hinv' & Hv & HQ).
  { intros e k sig. by apply peer_ok_view. }
  exists r, (set_event_proofs st' (r_node (nodes c !!! i))).
  split; [by apply (zoom_eq _ _ _ _ _ _ Hrun)|]. split; [by apply peer_ok_store|done].
Qed.

(** *** The authorities of a block *)

(** The list is the one that the runtime of the node's chain returns. *)
Definition is_authorities (i : fin N) (h : Hash) (r : result Error AuthoritiesList) (c : state) : Prop :=
  match r with
  | Ok auths => authorities_at (client_of c i) h = Ok auths
  | Err _ => True
  end.

Lemma authorities_evolves c c' i h auths :
  evolves c c' → authorities_at (client_of c i) h = Ok auths →
  authorities_at (client_of c' i) h = Ok auths.
Proof. intros [_ _ Hg]. apply client_grows_extends, Hg. Qed.

Lemma authorities_wf c i h auths :
  cluster_ok c → authorities_at (client_of c i) h = Ok auths → wf_authorities auths.
Proof. intros [Hp _ _]. destruct (Hp i) as [[_ Hwf] _ _]. apply Hwf. Qed.

Lemma cache_get_coherent cl h (b : Mutex Cache) :
  cache_coherent cl b →
  ∃ o b', with_lock from_poison (λ c, let '(o, c') := lru_get h c in (Ok o, c')) b = Ret (Ok o, b') ∧
    cache_coherent cl b' ∧ (∀ l, o = Some l → authorities_at cl h = Ok l).
Proof.
  destruct b as [p b]. intros [Hp Hc]. cbn in Hp, Hc. subst p.
  pose proof (lru_get_get h) as Hgg. specialize (Hc h) as Hch. unfold with_lock. cbn.
  destruct (lru_get h b) as [o b'] eqn:Eg. exists o, (mkMutex false b'). split; [done|]. split.
  - split; [done|]. intros h' l. cbn. specialize (Hgg h' b). rewrite Eg in Hgg. cbn in Hgg. rewrite Hgg. apply Hc.
  - intros l ->. by apply Hch.
Qed.

Lemma cache_put_coherent cl h l (b : Mutex Cache) :
  cache_coherent cl b → authorities_at cl h = Ok l →
  ∃ b', with_lock from_poison (λ c, (Ok tt, lru_put h l c)) b = Ret (Ok tt, b') ∧ cache_coherent cl b'.
Proof.
  destruct b as [p b]. intros [Hp Hc] Ha. cbn in Hp, Hc. subst p.
  exists (mkMutex false (lru_put h l b)). split; [done|]. split; [done|]. cbn. intros h' l' Hl'.
  destruct (decide (h' = h)) as [->|Hne].
  - rewrite lru_get_put_eq in Hl'. by injection Hl' as <-.
  - apply lru_get_put_ne in Hl'; [|done]. by apply Hc.
Qed.

Lemma wp_get_authorities_list i h c0 :
  holds (get_authorities_list_task i h) (is_authorities i h) c0.
Proof.
  apply t_bind, wp_on_node. intros c Hc Hok. pose proof (cluster_peers c Hok i) as Hp.
  pose proof Hp as [[[Hcache _ _] _] _ _].
  destruct (cache_get_coherent _ h _ Hcache) as (o & b & Hrun & Hb & Ho).
  exists (Ok o), (set_block_state b (r_node (nodes c !!! i))).
  split; [by apply (zoom_eq _ _ _ _ _ _ Hrun)|]. split; [by apply peer_ok_cache|].
  intros c1 Hc1 Hok1. destruct o as [l|].
  { apply wp_ret. intros c2 Hc2 _. apply (authorities_evolves c1); [done|].
    by apply (authorities_evolves c), Ho. }
  apply t_bind, t_read. intros c2 Hc2 Hok2 c3 Hc3 Hok3.
  destruct (api_authorities (client_of c2 i) h) as [ids|err] eqn:Ea; cbn [map_err]; [|done].
  assert (authorities_at (client_of c2 i) h = Ok (mkAuthorities (pair_of_authority <$> ids))) as Ha
    by (unfold authorities_at; by rewrite Ea).
  apply t_bind, wp_on_node. intros c4 Hc4 Hok4. pose proof (cluster_peers c4 Hok4 i) as Hp4.
  pose proof Hp4 as [[[Hcache4 _ _] _] _ _].
  assert (authorities_at (client_of c4 i) h = Ok (mkAuthorities (pair_of_authority <$> ids))) as Ha4
    by by apply (authorities_evolves c3), (authorities_evolves c2).
  destruct (cache_put_coherent _ h _ _ Hcache4 Ha4) as (b' & Hrun' & Hb').
  exists (Ok tt), (set_block_state b' (r_node (nodes c4 !!! i))).
  split; [by apply (zoom_eq _ _ _ _ _ _ Hrun')|]. split; [by apply peer_ok_cache|].
  intros c5 Hc5 _. apply wp_ret. intros c6 Hc6 _.
  by apply (authorities_evolves c5), (authorities_evolves c4).
Qed.

(** The latest authorities are those of some block of the chain. *)
Lemma wp_get_latest_authorities_list i c0 :
  holds (get_latest_authorities_list_task i)
    (λ r c, match r with Ok auths => wf_authorities auths | Err _ => True end) c0.
Proof.
  apply t_bind, t_read. intros c Hc Hok c1 Hc1 Hok1.
  eapply t_mono; [apply wp_get_authorities_list|].
  intros [auths|err] c2 Hc2 Hok2 Hr; [|done]. by eapply authorities_wf.
Qed.

(** *** The calls on the store *)

Lemma wp_add_event_proof i ev c0 :
  valid_signature (event_id ev) (pub_key ev) (signature ev) →
  known byzantine (attested c0) (pub_key ev) (event_id ev) →
  holds (access (on_node i (on_event_proofs (add_event_proof ev)))) (λ _ _, True) c0.
Proof.
  intros Hsig Hk. apply wp_store. intros c st Hc _ Hinv _ Hv.
  destruct (add_event_proof_spec st ev Hinv) as (st' & Hrun & Hinv' & Hadd).
  exists (Ok tt), st'. split_and!; [done..| |done]. intros e k sig Hs.
  destruct (added_origin _ _ _ _ _ _ Hadd Hs) as [?|(-> & -> & ->)]; [by apply Hv|].
  split; [done|]. by eapply known_subseteq, Hk; apply (evolves_attested _ _ Hc).
Qed.

Lemma wp_purge i e auths c0 :
  holds (access (on_node i (on_event_proofs (purge_event_stale_signatures e auths)))) (λ _ _, True) c0.
Proof.
  apply wp_store. intros c st _ _ Hinv _ Hv.
  destruct (purge_event_stale_signatures_spec st e auths Hinv) as (st' & Hrun & Hinv' & Hp).
  exists (Ok tt), st'. split_and!; [done..| |done]. intros e' k sig Hs. by eapply Hv, purged_origin.
Qed.

(** A quorum of the store is a quorum of witnesses. *)
Lemma signers_attested (w : list (CryptoTypePublicPair * H256)) (v : proof_view) auths e :
  wf_authorities auths → (∀ k sig, v e k = Some sig → known byzantine w k e) →
  has_quorum v auths e → attested_quorum byzantine auths w e.
Proof.
  intros [Hnd _] Hv Hq. exists (signers v e (authorities auths)). split_and!; [by apply signers_NoDup|exact Hq|].
  apply Forall_forall. intros k [Hin [sig Hs]]%elem_of_signers. split; [done|by eapply Hv].
Qed.

Lemma wp_count i e auths c0 :
  wf_authorities auths →
  holds (access (on_node i (on_event_proofs (get_event_proof_count e (authorities auths)))))
    (λ r c, match r with
            | Ok count => (target auths ≤ count)%Z → attested_quorum byzantine auths (attested c) e
            | Err _ => True
            end) c0.
Proof.
  intros Hwf. apply wp_store. intros c st _ _ Hinv _ Hv. eexists _, st.
  split; [by apply count_exact|]. split_and!; [done..|]. intros c1 Hc1 _ Hq.
  eapply attested_quorum_mono; [apply (evolves_attested _ _ Hc1)|].
  apply (signers_attested _ (ep_view st)); [done| |exact Hq]. intros k sig Hs. by eapply Hv.
Qed.

Lemma wp_get_event_proofs i e auths c0 :
  holds (access (on_node i (on_event_proofs (get_event_proofs e auths))))
    (λ r _, match r with
            | Ok m => ∀ k s, m !! k = Some s → valid_signature e k s
            | Err _ => True
            end) c0.
Proof.
  apply wp_store. intros c st _ _ Hinv _ Hv.
  destruct (get_event_proofs_spec st e auths Hinv) as (m & Hrun & Hm).
  exists (Ok m), st. split_and!; [done..|]. intros c1 _ _ k s. rewrite Hm.
  case_bool_decide; [|done]. apply Hv.
Qed.

(** *** The gossip handler *)

Lemma wp_submit i e ps proofs c0 :
  convert_proofs ps = Ret proofs →
  holds (submit_event_extrinsic_task i e ps) (λ _ _, True) c0.
Proof.
  intros Hps. apply t_bind, wp_access_ret. intros c Hc Hok. exists (Ok proofs), c.
  unfold lift_outcome. rewrite Hps. split_and!; [done..|]. intros c1 _ _.
  apply t_bind, t_read. intros c2 _ _ c3 _ _. apply t_bind, t_read. intros c4 _ _ c5 _ _.
  destruct (map_err _ _) as [ext|err]; [|done]. apply wp_on_node. intros c6 _ Hok6.
  destruct (submit_local (best_hash (client_of c2 i)) ext (tx_pool (r_node (nodes c6 !!! i)))) as [r p] eqn:Es.
  exists (submit_result r), (set_tx_pool p (r_node (nodes c6 !!! i))). unfold on_tx_pool, zoom. rewrite Es.
  split_and!; [done| |done]. by apply peer_ok_pool, (cluster_peers c6 Hok6).
Qed.

(** The proofs that are gathered convert without a panic. *)
Lemma wp_gather i e auths c0 :
  holds ((if off_chain_proofs then mret None
          else p ← access (on_node i (on_event_proofs (get_event_proofs e auths))); mret (Some p))
          : T state Error (option (gmap CryptoTypePublicPair (list byte))))
    (λ r _, match r with
            | Ok ps => ∃ proofs, convert_proofs ps = Ret proofs
            | Err _ => True
            end) c0.
Proof.
  destruct off_chain_proofs; [by apply wp_ret; eexists|].
  apply t_bind. eapply t_mono; [apply wp_get_event_proofs|]. intros [m|err] c _ _ Hm; [|done].
  apply wp_ret. intros c1 _ _. destruct (convert_proofs_valid e m Hm) as (p & Hp & _). by eexists.
Qed.

Lemma wp_handle_witnessed_event i ev c0 :
  (valid_signature (event_id ev) (pub_key ev) (signature ev) →
   known byzantine (attested c0) (pub_key ev) (event_id ev)) →
  holds (handle_witnessed_event_task off_chain_proofs i ev) (λ _ _, True) c0.
Proof.
  intros Hk. apply t_bind. eapply t_mono; [apply wp_get_latest_authorities_list|].
  intros [auths|err] c Hc _ Hwf; [|done]. apply t_bind, wp_lift. intros c1 Hc1 _.
  destruct (verify_witnessed_event_origin auths ev) as [ev'|err] eqn:Hver; [|done].
  apply verify_origin_Ok in Hver as (-> & Hin & Hsig).
  apply t_bind. eapply t_mono; [apply wp_add_event_proof; [done|]|].
  { eapply known_subseteq, Hk, Hsig. etrans; [apply (evolves_attested _ _ Hc)|apply (evolves_attested _ _ Hc1)]. }
  intros [[]|err] c2 _ _ _; [|done]. apply t_bind. eapply t_mono; [apply wp_purge|].
  intros [[]|err] c3 _ _ _; [|done]. apply t_bind. eapply t_mono; [by apply wp_count|].
  intros [count|err] c4 _ _ _; [|done]. apply t_bind.
  destruct (target auths <=? count)%Z; [|by apply wp_ret; intros; apply wp_ret].
  apply t_bind. eapply t_mono; [apply wp_gather|]. intros [ps|err] c5 _ _ Hps; [|done].
  destruct Hps as [proofs Hps]. eapply t_mono; [by eapply wp_submit|].
  intros [[]|err] c6 _ _ _; [by apply wp_ret|done].
Qed.

Lemma wp_handle i m c0 :
  unforged (attested c0) m → holds (handle_task off_chain_proofs i m) (λ _ _, True) c0.
Proof.
  intros Hm. unfold handle_task. destruct (de_event m) as [ev|err] eqn:Hde; [|done].
  eapply (wp_ignore cluster_ok evolves acts waits), wp_handle_witnessed_event. intros Hsig. by apply Hm.
Qed.

Lemma wp_swarm_task i f t c0 :
  (∀ c, evolves c0 c → cluster_ok c → holds t (λ _ _, True) c) → holds (swarm_task i f t) (λ _ _, True) c0.
Proof.
  intros Ht. apply (wp_task_bind cluster_ok evolves acts waits), wp_access_ret. intros c Hc Hok.
  eexists _, _. split; [done|].
  destruct (set_node_ok i (with_swarm (f (r_swarm (nodes c !!! i))) (nodes c !!! i)) c) as [Hev Hok'];
    [done..| |by apply (cluster_sync c Hok)|].
  { destruct (cluster_peers c Hok i) as [? ? ?]. by split. }
  split_and!; [by apply set_node_acts|done|]. intros c1 Hc1 Hok1. apply Ht; [|done]. by do 2 (etrans; [done|]).
Qed.

(** *** Witnessing *)

Lemma attest_ok (c : state) k e :
  cluster_ok c →
  let c' := mkCluster (nodes c) ((k, e) :: attested c) (handed_over c) in
  evolves c c' ∧ cluster_ok c'.
Proof.
  intros [Hp Hsync Hh] c'.
  assert (evolves c c') as Hev by (split; [set_solver|done..]).
  split; [done|]. split; [|done|].
  - intros i. apply (peer_ok_subseteq (attested c)); [set_solver|apply Hp].
  - eapply Forall_impl; [exact Hh|]. intros h. by apply handed_ok_evolves.
Qed.

Lemma wp_sign i k e c0 :
  holds (access (sign keystore_of i k e))
    (λ r c, match r with Ok (Some _) => (k, e) ∈ attested c | _ => True end) c0.
Proof.
  apply wp_access_ret. intros c Hc Hok. unfold sign.
  destruct (sign_with (keystore_of i) k (as_bytes e)) as [[s|]|err]; eexists _, _;
    (split; [done|]); [|by split_and!..].
  destruct (attest_ok c k e Hok) as [Hev Hok']. split_and!; [by split|done|].
  intros c1 Hc1 _. apply (evolves_attested _ _ Hc1). by left.
Qed.

Lemma peer_ok_publish w (s : peer_state) topic m :
  peer_ok byzantine w s → (∀ ev, de_event m = Ok ev → known byzantine w (pub_key ev) (event_id ev)) →
  peer_ok byzantine w (with_node (set_orders (publish topic m (orders (r_node s))) (r_node s)) s).
Proof.
  intros [[? ?] Hv Hq] Hm. split; [split; [by apply node_ok_set_orders|done]|done|].
  intros topic' m' ev Hin Hde. apply publish_queued in Hin as [Hin|[= -> ->]]; [by eapply Hq|by apply Hm].
Qed.

Lemma wp_witness_event i e c0 :
  holds (witness_event_task keystore_of i e) (λ _ _, True) c0.
Proof.
  apply t_bind. eapply t_mono; [apply wp_get_latest_authorities_list|].
  intros [auths|err] c _ _ _; [|done]. apply t_bind, wp_lift. intros c1 _ _.
  destruct (map_err _ (supported_keys _ _)) as [ks|err]; [|done]. apply t_bind, wp_lift. intros c2 _ _.
  destruct (ok_or (head ks) NotAValidator) as [k|err]; [|done].
  apply t_bind. eapply t_mono; [apply wp_sign|]. intros [[s|]|err] c3 _ _ Hk; [|done..].
  apply t_bind, wp_lift. intros c4 Hc4 _. cbn [ok_or]. apply t_bind, wp_lift. intros c5 Hc5 _.
  destruct (ser_event (mkWitnessed s k e)) as [b|err] eqn:Es; [|done]. cbn [map_err].
  apply t_bind, wp_on_node. intros c6 Hc6 Hok6.
  eexists _, _. split; [done|]. split; [|by intros; apply wp_ret].
  apply peer_ok_publish; [apply (cluster_peers c6 Hok6)|]. intros ev Hde.
  rewrite (de_ser_event _ _ Es) in Hde. injection Hde as <-. right. cbn [pub_key event_id].
  by apply (evolves_attested _ _ Hc6), (evolves_attested _ _ Hc5), (evolves_attested _ _ Hc4).
Qed.

(** *** The block import *)

Lemma wp_collect_unprepared i auths ids c0 :
  wf_authorities auths →
  holds (collect_unprepared_task i (target auths) (authorities auths) ids)
    (λ r c, r = Ok [] → Forall (attested_quorum byzantine auths (attested c)) ids) c0.
Proof.
  intros Hwf. revert c0. induction ids as [|id ids IH]; intros c0; [by apply wp_ret; constructor|].
  apply t_bind. eapply t_mono; [by apply wp_count|]. intros [count|err] c _ _ Hq; [|done].
  apply t_bind. eapply t_mono; [apply IH|]. intros [us|err] c1 Hc1 _ Hall; [|done].
  apply wp_ret. intros c2 Hc2 _. destruct (Z.ltb_spec count (target auths)) as [?|Hle]; [done|].
  intros [= ->]. constructor.
  - eapply attested_quorum_mono, Hq, Hle. etrans; [apply (evolves_attested _ _ Hc1)|apply (evolves_attested _ _ Hc2)].
  - eapply Forall_impl; [by apply Hall|]. intros e. apply attested_quorum_mono, (evolves_attested _ _ Hc2).
Qed.

Lemma wp_verify_events_validity i h ids c0 :
  holds (verify_events_validity_task i h ids)
    (λ r c, r = Ok [] → ∃ auths, authorities_at (client_of c i) h = Ok auths ∧
       Forall (attested_quorum byzantine auths (attested c)) ids) c0.
Proof.
  apply t_bind. eapply t_mono; [apply wp_get_authorities_list|].
  intros [auths|err] c Hc Hok Ha; [|done].
  eapply t_mono; [apply wp_collect_unprepared; by eapply authorities_wf|].
  intros r c1 Hc1 _ Hr Hnil. exists auths. split; [by eapply authorities_evolves|by apply Hr].
Qed.

(** The inner import returns: it is the client's, which is not modelled. *)
Context (inner_returns : ∀ block inner, ∃ r inner', inner_import_block block inner = Ret (r, inner')).

Lemma wp_hand_over i block major c0 :
  (∀ c, evolves c0 c → cluster_ok c → handed_ok c (mkHanded i block major)) →
  holds (access (hand_over i block major)) (λ _ _, True) c0.
Proof.
  intros Hh. apply wp_access_ret. intros c Hc Hok. unfold hand_over.
  destruct (inner_returns block (parent_block_import (r_import (nodes c !!! i)))) as (r & inner & ->).
  eexists _, _. split; [done|]. set (s' := with_import _ _).
  destruct (set_node_ok i s' c) as [Hev Hok']; [done..| |by apply (cluster_sync c Hok)|].
  { destruct (cluster_peers c Hok i) as [? ? ?]. by split. }
  assert (evolves (set_node i s' c) (mkCluster (vinsert i s' (nodes c)) (attested c)
    (mkHanded i block major :: handed_over c))) as Hev2 by (split; [done|set_solver|done]).
  split_and!; [by split; [etrans|apply (acts_client _ _ (set_node_acts i s' c Hev eq_refl))]| |done]. destruct Hok' as [? ? Hh']. split; [done..|]. constructor.
  - apply (handed_ok_evolves c); [by etrans|by apply Hh].
  - eapply Forall_impl; [exact Hh'|]. intros h. by apply handed_ok_evolves.
Qed.

Lemma wp_import_block i block auths c0 :
  authorities_at (client_of c0 i) (parent_hash block) = Ok auths →
  holds (import_block_task i block) (λ _ _, True) c0.
Proof.
  intros Ha. apply t_bind, wp_access. intros c Hc Hok. unfold await_sync.
  destruct (sync_service _) as [| |major] eqn:Hs; [by exists i|by destruct (cluster_sync c Hok i)|].
  split_and!; [done..|]. intros c1 Hc1 _. assert (evolves c0 c1) as Hc01 by by transitivity c.
  destruct major; [by apply wp_hand_over|]. destruct (body block) as [exts|] eqn:Hb.
  2: { apply wp_hand_over. intros c2 Hc2 _ _. exists auths. split.
       - apply (authorities_evolves c0); [by transitivity c1|done].
       - cbn [h_node h_block]. unfold block_events. by rewrite Hb. }
  apply t_bind, t_read. intros c2 Hc2 _ c3 Hc3 _. set (ids := unwrap_or [] _).
  assert (evolves c0 c2) as Hc02 by by transitivity c1.
  apply (wp_task_bind cluster_ok evolves acts waits). eapply t_mono; [apply wp_verify_events_validity|].
  intros [us|err] c4 Hc4 _ Hr; [|done]. case_bool_decide as Hus; [done|]. apply wp_hand_over.
  intros c5 Hc5 _ _. destruct Hr as (auths' & Ha' & Hq); [by destruct us; [|destruct Hus]|]. exists auths'.
  split; [by eapply authorities_evolves|]. cbn [h_node h_block].
  rewrite (block_events_grows (client_of c2 i) _ block auths);
    [|transitivity (client_of c4 i); [transitivity (client_of c3 i)|]; by apply evolves_client
     |by apply (authorities_evolves c0)].
  unfold block_events. rewrite Hb. eapply Forall_impl; [exact Hq|].
  intros e. apply attested_quorum_mono, (evolves_attested _ _ Hc5).
Qed.

(** *** Every interleaving *)

Lemma cluster_env_ok c c' : cluster_env c c' → cluster_ok c → evolves c c' ∧ cluster_ok c'.
Proof.
  intros Henv Hok. destruct Henv as [c i cl' Hg Hwf|c i major].
  - apply set_node_ok; [done..| |by apply (cluster_sync c Hok)].
    destruct (cluster_peers c Hok i) as [[Hn _] Hv Hq]. split; [|done..]. split; [|done].
    by eapply node_ok_extends, Hn; apply client_grows_extends.
  - apply set_node_ok; [done..| |done]. destruct (cluster_peers c Hok i) as [? ? ?]. by split.
Qed.

Lemma cluster_spawn_ok c t c' :
  cluster_spawn c t c' → cluster_ok c → evolves c c' ∧ cluster_ok c' ∧ holds t (λ _ _, True) c'.
Proof.
  intros Hspawn Hok. destruct Hspawn as [c i e|c i o q Ho|c i ev Hm|c i block auths Ha].
  - split_and!; [done..|]. eapply (wp_ignore cluster_ok evolves acts waits), wp_witness_event.
  - pose proof (cluster_peers c Hok i) as [[Hn Hwf] Hv Hq].
    destruct (set_node_ok i (with_node (set_orders (mkChannel (receiver_alive (orders
      (r_node (nodes c !!! i)))) q) (r_node (nodes c !!! i))) (nodes c !!! i)) c) as [Hev Hok'];
      [done..| |by apply (cluster_sync c Hok)|].
    { split; [split; [by apply node_ok_set_orders|done]|done|].
      intros topic m ev Hin. apply (Hq topic m). rewrite Ho. by right. }
    split_and!; [done..|]. destruct o as [topic m|ps|a]; apply wp_swarm_task; [|done..].
    intros c1 Hc1 _. apply wp_handle. intros ev Hde _.
    eapply known_subseteq, (Hq topic m ev); [|rewrite Ho; by left|done].
    etrans; [apply (evolves_attested _ _ Hev)|apply (evolves_attested _ _ Hc1)].
  - split_and!; [done..|]. destruct ev as [a|p t|m|p addrs|]; cbn [handle_incoming_event_task]; try done.
    + by apply wp_handle, Hm.
    + by apply wp_swarm_task.
  - split_and!; [done..|]. eapply (wp_ignore cluster_ok evolves acts waits). by eapply wp_import_block.
Qed.

Lemma cluster_steps_ok c ts c' :
  cluster_ok c → rtc cluster_step (c, []) (c', ts) → cluster_ok c' ∧ evolves c c'.
Proof.
  intros Hok Hsteps.
  destruct (sys_steps_ok cluster_ok evolves acts waits cluster_env cluster_spawn cluster_env_ok
    cluster_spawn_ok _ _ Hsteps) as [[? _] ?]; [|done]. by split; [|apply Forall_nil_2].
Qed.

(** C6: any number of gossip iterations, witnessings and imports at any number of
    nodes, interleaved access by access with each other and with the progress of
    the chains.  In every state they reach, the caches are coherent, the stores
    are well-formed and hold only valid signatures whose keys have witnessed the
    event or are Byzantine, and every block that a node handed over while not
    catching up has a quorum of witnesses for each of its events.  No task is
    about to panic; each is finished, can make its next access, or waits for a
    node that has no synchronisation service yet; and however the tasks are
    scheduled, they end. *)
Theorem interleavings_safe (c c' : state) (ts : list (task state unit)) :
  cluster_ok c → rtc cluster_step (c, []) (c', ts) →
  cluster_ok c' ∧
  Forall (λ t, ¬ panics c' t ∧ (finished t ∨ (∃ s' t', task_moves c' t s' t') ∨ waits c')) ts ∧
  Acc (flip moves) ts.
Proof.
  intros Hok Hsteps.
  destruct (sys_progress cluster_ok evolves acts waits cluster_env cluster_spawn cluster_env_ok
    cluster_spawn_ok _ _ Hsteps) as [? ?]; [by split; [|apply Forall_nil_2]|].
  split_and!; [done..|apply moves_acc].
Qed.

(** C10: conflicting events are never both imported, under every interleaving of
    the tasks of all nodes.  Let at most a third of the authorities be Byzantine
    and let no other authority sign both of two events.  If a node, not catching
    up, has handed over a block with the first event, then no block that any node
    hands over, not catching up and under the same authorities, has the second. *)
Theorem interleaved_imports_agree (c c' : state) (ts : list (task state unit)) auths e1 e2 h1 h2 :
  cluster_ok c → rtc cluster_step (c, []) (c', ts) →
  size byzantine ≤ length (authorities auths) `div` 3 →
  (∀ k, k ∉ byzantine → (k, e1) ∈ attested c' → (k, e2) ∉ attested c') →
  h1 ∈ handed_over c' → h_major h1 = false → h2 ∈ handed_over c' → h_major h2 = false →
  authorities_at (client_of c' (h_node h1)) (parent_hash (h_block h1)) = Ok auths →
  authorities_at (client_of c' (h_node h2)) (parent_hash (h_block h2)) = Ok auths →
  e1 ∈ block_events (client_of c' (h_node h1)) (h_block h1) →
  e2 ∉ block_events (client_of c' (h_node h2)) (h_block h2).
Proof.
  intros Hok Hsteps HF Hone Hh1 Hm1 Hh2 Hm2 Ha1 Ha2 He1 He2.
  destruct (cluster_steps_ok _ _ _ Hok Hsteps) as [Hok' _].
  pose proof (cluster_handed c' Hok') as Hh. rewrite Forall_forall in Hh.
  destruct (Hh h1 Hh1 Hm1) as (auths1 & Ha1' & Hq1), (Hh h2 Hh2 Hm2) as (auths2 & Ha2' & Hq2).
  rewrite Ha1 in Ha1'. rewrite Ha2 in Ha2'. injection Ha1' as <-. injection Ha2' as <-.
  rewrite Forall_forall in Hq1, Hq2.
  destruct (attested_quorums_share byzantine auths (attested c') e1 e2) as (k & Hk & Hk1 & Hk2);
    [by eapply authorities_wf|done|by apply Hq1|by apply Hq2|]. by apply (Hone k).
Qed.

End Interleaving.

(** ** Witnesses: two nodes, one of which receives three messages and imports *)

Import Codec.
#[local] Existing Instance failing_swarm.

Abbreviation toy_cluster_state := (cluster (Store := InMemoryEventProofs) (Cache := toy_cache)
  (Pool := list H256) (Swarm := nat) (Multiaddr := nat) (I := list nat) (N := 2)).

Definition toy_cluster : toy_cluster_state :=
  mkCluster [# toy_peer toy_witness_node; toy_peer toy_witness_node]
    ((λ b, (toy_pair b, toy_event)) <$> [x01; x02; x03]) [].

Definition toy_keystores_of (_ : fin 2) : list CryptoTypePublicPair := [].

Lemma accepting_import_returns (block : BlockImportParams) (inner : list nat) :
  ∃ r inner', inner_import_block block inner = Ret (r, inner').
Proof. by eexists _, _. Qed.

Lemma toy_cluster_ok : cluster_ok ∅ toy_cluster.
Proof.
  assert (∀ i, nodes toy_cluster !!! i = toy_peer toy_witness_node) as Hn.
  { intros i. inv_fin i; [done|]. intros i. inv_fin i; [done|]. intros i. inv_fin i. }
  split.
  - intros i. rewrite Hn. split; cbn.
    + split; [exact toy_witness_node_ok|exact toy_client_wf].
    + done.
    + intros topic m ev []%elem_of_nil.
  - intros i. by rewrite Hn.
  - constructor.
Qed.

(** The iteration of the gossip service for the message of an authority. *)
Definition toy_gossip (b : byte) : task toy_cluster_state unit :=
  handle_incoming_event_task true 0%fin (Message (toy_message b)).

Definition toy_import : task toy_cluster_state unit := t_ignore (import_block_task 0%fin toy_block).

Definition toy_schedule : outcome (unit * toy_cluster_state) :=
  '(_, c1) ← run_alone (toy_gossip x01) toy_cluster;
  '(_, c2) ← run_alone (toy_gossip x02) c1;
  '(_, c3) ← run_alone (toy_gossip x03) c2;
  run_alone toy_import c3.

Abbreviation toy_steps := (rtc (sys_step cluster_env (cluster_spawn true toy_keystores_of ∅))).

(** A task that is started and runs to its end. *)
Lemma toy_spawn_runs t ts (c c' : toy_cluster_state) :
  cluster_spawn true toy_keystores_of ∅ c t c → run_alone t c = Ret (tt, c') →
  toy_steps (c, ts) (c', ts ++ [Done tt]).
Proof.
  intros Hspawn Hrun. eapply rtc_l; [by apply SysSpawn|].
  replace (ts ++ [Done tt]) with (<[length ts := Done tt]> (ts ++ [t]))
    by (rewrite insert_app_r_alt, Nat.sub_diag by lia; done).
  apply (run_alone_steps _ _ _ _ t); [|exact Hrun]. by rewrite lookup_app_r, Nat.sub_diag.
Qed.

Lemma toy_gossip_keeps b (c c' : toy_cluster_state) :
  run_alone (toy_gossip b) c = Ret (tt, c') →
  attested c' = attested c ∧ handed_over c' = handed_over c ∧ client_of c' 0%fin = client_of c 0%fin.
Proof.
  unfold toy_gossip. rewrite incoming_event_alone.
  destruct (handle_incoming_event _ _) as [[sw n]| |]; [|done..]. intros [= <-].
  unfold after_gossip. split_and!; [done..|]. unfold client_of, set_node. cbn [nodes]. by rewrite vlookup_insert.
Qed.

Lemma toy_gossip_spawns b (c : toy_cluster_state) :
  b ∈ [x01; x02; x03] → attested c = attested toy_cluster →
  cluster_spawn true toy_keystores_of ∅ c (toy_gossip b) c.
Proof.
  intros Hb Hw. apply SpawnEvent. intros m [= <-] ev Hde _. rewrite toy_de_message in Hde.
  injection Hde as <-. right. rewrite Hw. apply list_elem_of_fmap. by exists b.
Qed.

(** After three messages the import hands the block over. *)
Lemma toy_schedule_steps :
  ∃ c', toy_steps (toy_cluster, []) (c', replicate 4 (Done tt)) ∧
    attested c' = attested toy_cluster ∧ client_of c' 0%fin = toy_client ∧
    handed_over c' = [mkHanded 0%fin toy_block false].
Proof.
  assert (match toy_schedule with
          | Ret (_, c) => match handed_over c with [h] => negb (h_major h) | _ => false end
          | _ => false
          end = true) as E by (vm_compute; reflexivity).
  unfold toy_schedule in E.
  destruct (run_alone (toy_gossip x01) toy_cluster) as [[[] c1]| |] eqn:E1; [|discriminate E..].
  rewrite outcome_ret_bind in E. destruct (toy_gossip_keeps _ _ _ E1) as (Hw1 & Hh1 & Hc1).
  destruct (run_alone (toy_gossip x02) c1) as [[[] c2]| |] eqn:E2; [|discriminate E..].
  rewrite outcome_ret_bind in E. destruct (toy_gossip_keeps _ _ _ E2) as (Hw2 & Hh2 & Hc2).
  destruct (run_alone (toy_gossip x03) c2) as [[[] c3]| |] eqn:E3; [|discriminate E..].
  rewrite outcome_ret_bind in E. destruct (toy_gossip_keeps _ _ _ E3) as (Hw3 & Hh3 & Hc3).
  destruct (run_alone toy_import c3) as [[[] c4]| |] eqn:E4; [|discriminate E..].
  assert (client_of c3 0%fin = toy_client) as Hcl by (rewrite Hc3, Hc2, Hc1; reflexivity).
  assert (attested c4 = attested c3 ∧ client_of c4 0%fin = client_of c3 0%fin ∧
    (handed_over c4 = handed_over c3 ∨ ∃ major, handed_over c4 = mkHanded 0%fin toy_block major :: handed_over c3))
    as (Hw4 & Hc4 & Hh4).
  { unfold toy_import, t_ignore in E4. rewrite run_alone_task_bind in E4.
    pose proof (import_block_alone 0%fin toy_block c3) as Hi. unfold same_import in Hi.
    destruct (import_block _ _ _ _) as [[r [imp n]]| |]; [|rewrite Hi in E4; discriminate E4..].
    destruct Hi as (h & Hh & Hi). rewrite Hi in E4. injection E4 as <-.
    split; [reflexivity|]. split; [unfold client_of, after_import; cbn [nodes]; by rewrite vlookup_insert|].
    destruct Hh as [->|[major ->]]; [by left|right; by exists major]. }
  rewrite Hh3, Hh2, Hh1 in Hh4. exists c4. split; [|split_and!].
  - etrans; [apply (toy_spawn_runs _ [] _ _ (toy_gossip_spawns x01 _ ltac:(by left) eq_refl) E1)|].
    etrans; [apply (toy_spawn_runs _ [Done tt] _ _ (toy_gossip_spawns x02 c1 ltac:(by right; left) Hw1) E2)|].
    etrans; [apply (toy_spawn_runs _ [Done tt; Done tt] _ _
      (toy_gossip_spawns x03 c2 ltac:(by right; right; left) (eq_trans Hw2 Hw1)) E3)|].
    refine (toy_spawn_runs _ [Done tt; Done tt; Done tt] _ _ (SpawnImport _ _ _ c3 0%fin toy_block toy_auths _) E4).
    rewrite Hcl. reflexivity.
  - by rewrite Hw4, Hw3, Hw2.
  - by rewrite Hc4.
  - destruct Hh4 as [Hh4|[major Hh4]]; rewrite Hh4 in E |- *; cbn in E; [discriminate E|].
    by destruct major.
Qed.

Lemma interleavings_safe_witness :
  ∃ c' : toy_cluster_state, handed_over c' = [mkHanded 0%fin toy_block false] ∧ cluster_ok ∅ c' ∧
    Acc (flip moves) (replicate 4 (Done tt : task toy_cluster_state unit)).
Proof.
  destruct toy_schedule_steps as (c' & Hsteps & _ & _ & Hh). exists c'. split; [exact Hh|].
  destruct (interleavings_safe true toy_keystores_of ∅ accepting_import_returns toy_cluster c'
    (replicate 4 (Done tt)) toy_cluster_ok Hsteps) as (Hok & _ & Hacc).
  split; [exact Hok|exact Hacc].
Defined.

Lemma interleaved_imports_agree_witness :
  ∃ c' : toy_cluster_state, handed_over c' = [mkHanded 0%fin toy_block false] ∧
    repeat_byte x2b ∉ block_events (client_of c' 0%fin) toy_block.
Proof.
  destruct toy_schedule_steps as (c' & Hsteps & Hw & Hc & Hh). exists c'. split; [exact Hh|].
  apply (interleaved_imports_agree true toy_keystores_of ∅ accepting_import_returns toy_cluster c'
    (replicate 4 (Done tt)) toy_auths toy_event (repeat_byte x2b)
    (mkHanded 0%fin toy_block false) (mkHanded 0%fin toy_block false)).
  - exact toy_cluster_ok.
  - exact Hsteps.
  - rewrite size_empty. lia.
  - intros k _ _ Hin. rewrite Hw in Hin. apply list_elem_of_fmap in Hin as (b & Hb & _). discriminate Hb.
  - rewrite Hh. left.
  - reflexivity.
  - rewrite Hh. left.
  - reflexivity.
  - cbn [h_node h_block]. rewrite Hc. reflexivity.
  - cbn [h_node h_block]. rewrite Hc. reflexivity.
  - cbn [h_node h_block]. rewrite Hc. left.
Defined.
