(* ===== verification/ChainCluster.v ===== *)
(** * Nodes with chains, and the ledger that they implement

    The tasks of [NodeTasks] together with the chains of their nodes: a block that
    a node's block import has handed over, once executed by the runtime
    ([sp_api::Core::execute_block] of [runtime/src/lib.rs]), is a new block of
    that node's chain, whose state the client then serves to the tasks.  Every
    run of this network, with off-chain proofs, is a run of the abstract
    [ledger]: so conflicting events are never both on chains. *)

From stdpp Require Import base decidable list gmap strings vector relations.
From Stdlib Require Import Strings.Byte ZArith Lia.
From S2P Require Import Prelude Errors Tasks Proofs State Authorities EventGossip Gossip Witness BlockImport Pallet Runtime RuntimeApi Node Network Ledger NodeTasks.

(** ** Executing a block *)

(** [frame_executive::Executive] on whole blocks. *)
Class BlockExecutive (Header St Sys : Type) `{Sr25519} := {
  exec_initialize_block : Header → pallet_state St Sys → pallet_state St Sys;
  exec_finalize_block : pallet_state St Sys → Header * pallet_state St Sys;
  exec_execute_block : Header → list UncheckedExtrinsic → pallet_state St Sys →
    outcome (pallet_state St Sys)
}.

Section BlockApis.
Context `{Sr25519} {Header St Sys : Type} `{!BlockExecutive Header St Sys}.

(** [Core::execute_block], [Core::initialize_block], [BlockBuilder::finalize_block] *)
Definition execute_block (header : Header) (exts : list UncheckedExtrinsic) (s : pallet_state St Sys) :
    outcome (pallet_state St Sys) :=
  exec_execute_block header exts s.
Definition initialize_block (header : Header) (s : pallet_state St Sys) : pallet_state St Sys :=
  exec_initialize_block header s.
Definition finalize_block (s : pallet_state St Sys) : Header * pallet_state St Sys :=
  exec_finalize_block s.

End BlockApis.

(** Documented behaviour: a block that executes was initialized, had all its
    extrinsics included and was finalized; neither end of a block writes the
    storage of this pallet, which has no hooks.  The runtime has no session
    pallet, so Aura's authorities are those of the genesis: neither the ends of a
    block nor the calls of other pallets, [Sudo] apart, change them. *)
Class BlockExecutiveLaws (Header : Type) {St Sys : Type} `{RuntimeTypes} `{Sr25519}
    `{!RuntimeSystem Sys} `{!Executive St Sys} `{!BlockExecutive Header St Sys} : Prop := {
  execute_block_steps (header : Header) exts (s s' : pallet_state St Sys) :
    execute_block header exts s = Ret s' →
    ∃ s1, apply_extrinsics exts (initialize_block header s) = Ret (Ok s1) ∧
      s' = (finalize_block (Header := Header) s1).2;
  initialize_block_keeps (header : Header) (s : pallet_state St Sys) :
    streams (initialize_block header s) = streams s ∧
    aura_authorities (system (initialize_block header s)) = aura_authorities (system s);
  finalize_block_keeps (s : pallet_state St Sys) :
    streams (finalize_block (Header := Header) s).2 = streams s ∧
    aura_authorities (system (finalize_block (Header := Header) s).2) = aura_authorities (system s);
  other_call_aura ext (s : pallet_state St Sys) d s' :
    (∀ e p, function ext ≠ ValidatedStreamsCall (ValidateEvent e p)) →
    (∀ c, function ext ≠ SudoCall c) →
    exec_apply_extrinsic ext s = Ret (Ok d, s') →
    aura_authorities (system s') = aura_authorities (system s)
}.

Section Executed.
Context `{RuntimeTypes} `{Sr25519} {Header St Sys : Type} `{!RuntimeSystem Sys}.
Context (to_raw_vec : AuraId → list byte) (encode_call : Call → list byte).
Context `{!StorageMap H256 Z St} `{!StorageMapLaws H256 Z St}.
#[local] Instance off_chain_runtime : PalletMode Z St Sys := off_runtime to_raw_vec.
Context `{!Executive St Sys} `{!ExecutiveLaws encode_call} `{!RuntimeSystemLaws Sys}.
Context `{!BlockExecutive Header St Sys} `{!BlockExecutiveLaws Header}.

Lemma apply_extrinsic_aura ext (s : pallet_state St Sys) d s' :
  (∀ c, function ext ≠ SudoCall c) → apply_extrinsic ext s = Ret (Ok d, s') →
  aura_authorities (system s') = aura_authorities (system s).
Proof.
  intros Hsudo Hrun.
  destruct (function ext) as [| | | |c|[e p|]] eqn:Hf;
    try (eapply other_call_aura; [..|exact Hrun]; rewrite ?Hf; done).
  destruct (exec_pallet_call encode_call ext e p s d s' Hf Hrun)
    as (s0 & r & s1 & _ & _ & Ha0 & _ & Hcall & _ & _ & _ & Ha').
  rewrite Ha', <- Ha0. revert Hcall. unfold validate_event. cbn. unfold off_validate_event_impl.
  destruct (sm_contains_key e (streams s0)); intros [= _ <-]; [done|]. cbn.
  apply aura_authorities_deposit.
Qed.

Lemma apply_extrinsics_aura exts (s s' : pallet_state St Sys) :
  no_sudo exts → apply_extrinsics exts s = Ret (Ok s') →
  aura_authorities (system s') = aura_authorities (system s).
Proof.
  intros Hns. revert s. induction Hns as [|ext exts Hext _ IH]; intros s Hrun; [by injection Hrun as <-|].
  cbn [apply_extrinsics] in Hrun. destruct (apply_extrinsic ext s) as [[[d|i] s1]| |] eqn:E; [|done..].
  rewrite outcome_ret_bind in Hrun. rewrite (IH s1 Hrun). by eapply apply_extrinsic_aura.
Qed.

(** A block adds its events to the record, and changes no authorities. *)
Lemma execute_block_records (header : Header) exts (s s' : pallet_state St Sys) :
  no_sudo exts → execute_block header exts s = Ret s' →
  (∀ e, off_is_event_valid e s' = true ↔
        off_is_event_valid e s = true ∨ e ∈ get_extrinsic_ids exts) ∧
  aura_authorities (system s') = aura_authorities (system s).
Proof.
  intros Hns Hrun. destruct (execute_block_steps header exts s s' Hrun) as (s1 & Happ & ->).
  destruct (initialize_block_keeps header s) as [Hs0 Ha0], (finalize_block_keeps (Header := Header) s1) as [Hs1 Ha1].
  split.
  - intros e. unfold off_is_event_valid. rewrite Hs1, !sm_contains_key_get, !bool_decide_eq_true, <- Hs0.
    by apply (apply_extrinsics_records to_raw_vec encode_call).
  - rewrite Ha1, <- Ha0. by apply (apply_extrinsics_aura exts).
Qed.

End Executed.

(** ** The network with its chains *)

Section ChainNet.
Context `{BincodeLaws} `{RuntimeTypes} `{Sr25519} {Header St Sys : Type} `{!RuntimeSystem Sys}.
Context (to_raw_vec : AuraId → list byte) (encode_call : Call → list byte).
Context `{!StorageMap H256 Z St} `{!StorageMapLaws H256 Z St}.
#[local] Existing Instance off_chain_runtime.
Context `{!Executive St Sys} `{!ExecutiveLaws (PalletMode0 := off_chain_runtime to_raw_vec) encode_call}.
Context `{!RuntimeSystemLaws Sys} `{!BlockExecutive Header St Sys} `{!BlockExecutiveLaws Header}.
Context {Cache : Type} `{LruCacheLaws Hash AuthoritiesList Cache}.
Context {Store : Type} `{EventProofsSpec Store}.
Context {Pool : Type} `{!TxPool Pool}.
Context {Swarm PeerId Multiaddr : Type} `{!SwarmOps Swarm PeerId Multiaddr}.
Context {Keystore : Type} `{!CryptoStore Keystore} `{!CryptoStoreLaws Keystore}.
Context {I ImportResult CheckParams : Type} `{!BlockImportOps I ImportResult CheckParams}.
Context (inner_returns : ∀ block inner, ∃ r inner', inner_import_block block inner = Ret (r, inner')).
Context {N : nat} (keystore_of : fin N → Keystore) (byzantine : gset CryptoTypePublicPair).

Abbreviation state := (cluster (Store := Store) (Cache := Cache) (Pool := Pool)
  (Swarm := Swarm) (Multiaddr := Multiaddr) (I := I) (N := N)).
Abbreviation chain := (Hash → option (pallet_state St Sys)).

(** The states of the blocks that each node has executed, and the tasks of the
    nodes. *)
Record chain_net := mkChainNet {
  chains : vec chain N;
  tasks : state * list (task state unit)
}.

(** A chain with one more block. *)
Definition extend (ch : chain) (h : Hash) (s : pallet_state St Sys) : chain := λ h',
  if decide (h' = h) then Some s else ch h'.

(** What happens outside the tasks and the chains. *)
Definition sync_env (c c' : state) : Prop :=
  ∃ i major, c' = set_node i (with_import
    (send_sync_service major (r_import (nodes c !!! i))) (nodes c !!! i)) c.

(** A task moves or starts, or a synchronisation service answers; a node executes
    a block that its import has handed over, on a parent that it knows (no block
    has a [Sudo] call); or the best or the finalized block of a node changes.
    The client serves the states of the chain. *)
Inductive chain_step : chain_net → chain_net → Prop :=
| ChainTasks ch x x' :
    sys_step sync_env (cluster_spawn true keystore_of byzantine) x x' →
    chain_step (mkChainNet ch x) (mkChainNet ch x')
| ChainBlock ch c ts i h (header : Header) block major exts s s' cl' :
    mkHanded i block major ∈ handed_over c → body block = Some exts → no_sudo exts →
    (ch !!! i) (parent_hash block) = Some s → execute_block header exts s = Ret s' →
    (ch !!! i) h = None → serves cl' (extend (ch !!! i) h s') →
    chain_step (mkChainNet ch (c, ts))
      (mkChainNet (vinsert i (extend (ch !!! i) h s') ch) (set_client i cl' c, ts))
| ChainHead ch c ts i cl' :
    serves cl' (ch !!! i) →
    chain_step (mkChainNet ch (c, ts)) (mkChainNet ch (set_client i cl' c, ts)).

(** *** The chains *)

(** Every client serves its node's chain, and all states have the authorities of
    the genesis. *)
Definition chains_ok (auths : AuthoritiesList) (x : chain_net) : Prop :=
  ∀ i, serves (client_of (tasks x).1 i) (chains x !!! i) ∧
    ∀ h s, (chains x !!! i) h = Some s → aura_list s = auths.

Lemma chain_client_ok auths cl (ch : chain) :
  wf_authorities auths → serves cl ch → (∀ h s, ch h = Some s → aura_list s = auths) → client_ok cl.
Proof.
  intros [Hnd _] Hs Ha. apply (serves_client_ok cl ch Hs). intros h s Hh.
  rewrite <- (Ha h s Hh) in Hnd. exact Hnd.
Qed.

(** A client that serves a longer chain has grown. *)
Lemma chain_client_grows cl cl' (ch ch' : chain) :
  serves cl ch → serves cl' ch' → (∀ h s, ch h = Some s → ch' h = Some s) → client_grows cl cl'.
Proof.
  intros Hs Hs' Hext h auths Ha. pose proof (Hs h) as Hh. destruct (ch h) as [s|] eqn:Eh.
  - destruct Hh as (_ & Hid & _). pose proof (Hs' h) as Hh'. rewrite (Hext h s Eh) in Hh'.
    destruct Hh' as (_ & Hid' & _). rewrite (serves_authorities cl ch h s Hs Eh) in Ha. injection Ha as <-.
    split; [by apply (serves_authorities cl' ch'), Hext|]. intros exts. by rewrite Hid, Hid'.
  - destruct Hh as [err E]. unfold authorities_at in Ha. by rewrite E in Ha.
Qed.

Lemma extend_known (ch : chain) h s h' s' :
  ch h = None → ch h' = Some s' → extend ch h s h' = Some s'.
Proof. unfold extend. intros Hh Hh'. case_decide as E; [|done]. subst. congruence. Qed.

Lemma extend_inv (ch : chain) h s h' s' :
  extend ch h s h' = Some s' → s' = s ∨ ch h' = Some s'.
Proof. unfold extend. case_decide; [intros [= <-]; by left|by right]. Qed.

Lemma client_of_set i j cl (c : state) :
  client_of (set_client i cl c) j = if decide (i = j) then cl else client_of c j.
Proof.
  unfold client_of, set_client, set_node. cbn [nodes].
  case_decide as E; [subst; by rewrite vlookup_insert|by rewrite vlookup_insert_ne].
Qed.

Abbreviation cluster_step := (sys_step cluster_env (cluster_spawn true keystore_of byzantine)).

Abbreviation sys_fine := (sys_ok (cluster_ok byzantine) evolves acts waits).

Lemma sys_fine_step x x' : cluster_step x x' → sys_fine x → sys_fine x' ∧ evolves x.1 x'.1.
Proof.
  apply (sys_step_ok (cluster_ok byzantine) evolves acts waits).
  - apply cluster_env_ok.
  - by apply cluster_spawn_ok.
Qed.

(** A step of the tasks is one of the cluster that leaves the clients alone. *)
Lemma tasks_step x x' :
  sys_step sync_env (cluster_spawn true keystore_of byzantine) x x' → sys_fine x →
  cluster_step x x' ∧ ∀ i, client_of x'.1 i = client_of x.1 i.
Proof.
  intros Hstep Hok. split.
  { destruct Hstep as [|s ts t s' Hspawn|s ts s' (i & major & ->)];
      [by eapply SysTask|by apply SysSpawn|by apply SysEnv, EnvSync]. }
  assert (∀ i s (c : state), r_client s = client_of c i →
    ∀ j, client_of (set_node i s c) j = client_of c j) as Hset.
  { intros i s c Hs j. unfold client_of, set_node. cbn [nodes].
    destruct (decide (i = j)) as [<-|Hne]; [by rewrite vlookup_insert|by rewrite vlookup_insert_ne]. }
  destruct (sys_step_does (cluster_ok byzantine) evolves acts waits _ _ _ _ Hstep Hok)
    as [[_ ?]|[(i & major & ->)|[t Hspawn]]]; [done|by apply Hset|].
  destruct Hspawn; [done|by apply Hset|done..].
Qed.

Lemma chain_step_ok auths x x' :
  wf_authorities auths → chain_step x x' → sys_fine (tasks x) → chains_ok auths x →
  sys_fine (tasks x') ∧ chains_ok auths x' ∧ evolves (tasks x).1 (tasks x').1.
Proof.
  intros Hwf Hstep Hfine Hch.
  assert (∀ (c : state) ts cl' i (ch ch' : chain), sys_fine (c, ts) → serves (client_of c i) ch → serves cl' ch' →
    (∀ h s, ch h = Some s → ch' h = Some s) → (∀ h s, ch' h = Some s → aura_list s = auths) →
    sys_fine (set_client i cl' c, ts) ∧ evolves c (set_client i cl' c)) as Hclient.
  { intros c ts cl' i ch ch' Hc Hs Hs' Hext Ha. apply (sys_fine_step (c, ts) (set_client i cl' c, ts)); [|done].
    apply SysEnv, EnvChain; [by eapply chain_client_grows|by eapply chain_client_ok]. }
  destruct Hstep as [ch x x' Hstep|ch c ts i h hd block major exts s s' cl' Hh Hb Hns Hp Hexec Hfresh Hs'
    |ch c ts i cl' Hs']; cbn [tasks chains fst] in *.
  - destruct (tasks_step x x' Hstep Hfine) as [Hcl Hsame].
    destruct (sys_fine_step x x' Hcl Hfine) as [? ?]. split_and!; [done| |done].
    intros i. cbn [tasks chains]. rewrite Hsame. apply (Hch i).
  - destruct (Hch i) as [Hs Ha]. cbn [tasks chains fst] in Hs, Ha.
    destruct (execute_block_records to_raw_vec encode_call hd exts s s' Hns Hexec) as [_ Haura].
    assert (∀ h1 s1, extend (ch !!! i) h s' h1 = Some s1 → aura_list s1 = auths) as Ha'.
    { intros h1 s1 [->|Hs1]%extend_inv; [|by eapply Ha]. rewrite <- (Ha _ _ Hp).
      unfold aura_list, aura_api_authorities. by rewrite Haura. }
    destruct (Hclient c ts cl' i (ch !!! i) (extend (ch !!! i) h s')) as [? ?]; [done..| |done|].
    { intros h1 s1. by apply extend_known. }
    split_and!; [done| |done]. intros j. cbn [tasks chains fst]. rewrite client_of_set.
    case_decide as E; [subst; by rewrite vlookup_insert|rewrite vlookup_insert_ne by done; apply (Hch j)].
  - destruct (Hch i) as [Hs Ha]. cbn [tasks chains fst] in Hs, Ha.
    destruct (Hclient c ts cl' i (ch !!! i) (ch !!! i)) as [? ?]; [done..|].
    split_and!; [done| |done]. intros j. cbn [tasks chains fst]. rewrite client_of_set.
    case_decide as E; [subst; done|apply (Hch j)].
Qed.

(** *** The ledger *)

(** An event is on record at a block of a node's chain. *)
Definition on_chain (x : chain_net) (i : fin N) (e : H256) : Prop :=
  ∃ h s, (chains x !!! i) h = Some s ∧ off_is_event_valid e s = true.

(** The ledger that a network stands for. *)
Definition represents (x : chain_net) (l : ledger N) : Prop :=
  (∀ ke, ke ∈ attestations l ↔ ke ∈ attested (tasks x).1) ∧
  ∀ i e, (i, e) ∈ records l ↔ on_chain x i e.

(** No node has handed over a block while it was catching up. *)
Definition none_catching_up (c : state) : Prop := Forall (λ h, h_major h = false) (handed_over c).

Lemma none_catching_up_evolves c c' : evolves c c' → none_catching_up c' → none_catching_up c.
Proof. unfold none_catching_up. rewrite !Forall_forall. intros [_ Hh _] Hc h Hin. by apply Hc, Hh. Qed.

(** The events of a block that a node executes have their quorums. *)
Lemma executed_quorums auths (x : chain_net) i block exts s :
  cluster_ok byzantine (tasks x).1 → chains_ok auths x → none_catching_up (tasks x).1 →
  (∃ major, mkHanded i block major ∈ handed_over (tasks x).1) → body block = Some exts →
  (chains x !!! i) (parent_hash block) = Some s →
  Forall (attested_quorum byzantine auths (attested (tasks x).1)) (get_extrinsic_ids exts).
Proof.
  intros Hok Hch Hnone [major Hin] Hb Hp. destruct (Hch i) as [Hs Ha].
  pose proof (cluster_handed _ _ Hok) as Hh. unfold none_catching_up in Hnone.
  rewrite Forall_forall in Hh, Hnone. pose proof (Hnone _ Hin) as Hmajor. cbn in Hmajor. subst major.
  destruct (Hh _ Hin eq_refl) as (auths' & Ha' & Hq). cbn [h_node h_block] in Ha', Hq.
  rewrite (serves_authorities _ _ _ _ Hs Hp), (Ha _ _ Hp) in Ha'. injection Ha' as <-.
  unfold block_events in Hq. rewrite Hb in Hq. specialize (Hs (parent_hash block)). rewrite Hp in Hs.
  destruct Hs as (_ & Hids & _). by rewrite Hids in Hq.
Qed.

(** What is on a chain after a block. *)
Lemma on_chain_block ch c ts c' ts' i h s s' (es : list H256) :
  (ch !!! i) h = None → (∃ h0, (ch !!! i) h0 = Some s) →
  (∀ e, off_is_event_valid e s' = true ↔ off_is_event_valid e s = true ∨ e ∈ es) →
  ∀ j e, on_chain (mkChainNet (vinsert i (extend (ch !!! i) h s') ch) (c', ts')) j e ↔
         on_chain (mkChainNet ch (c, ts)) j e ∨ (j = i ∧ e ∈ es).
Proof.
  intros Hfresh [h0 Hh0] Hrec j e. unfold on_chain. cbn [chains].
  destruct (decide (i = j)) as [<-|Hne]; [|rewrite vlookup_insert_ne by done; naive_solver].
  rewrite vlookup_insert. split.
  - intros (h1 & s1 & Hs1 & Hv). apply extend_inv in Hs1 as [->|Hs1]; [|by eauto].
    apply Hrec in Hv as [Hv|Hv]; [left; by eauto|by right].
  - intros [(h1 & s1 & Hs1 & Hv)|[_ He]].
    + exists h1, s1. split; [by apply extend_known|done].
    + exists h, s'. unfold extend. rewrite decide_True by done. split; [done|]. apply Hrec. by right.
Qed.

(** Every step of the network is none or several of the ledger. *)
Lemma chain_step_simulated auths x x' (l : ledger N) :
  wf_authorities auths → chain_step x x' → sys_fine (tasks x) → chains_ok auths x →
  none_catching_up (tasks x').1 → represents x l →
  ∃ l', rtc (ledger_step auths byzantine) l l' ∧ represents x' l'.
Proof.
  intros Hwf Hstep Hfine Hch Hnone' [Hatt Hrec].
  destruct (chain_step_ok auths x x' Hwf Hstep Hfine Hch) as (_ & _ & Hev).
  pose proof (none_catching_up_evolves _ _ Hev Hnone') as Hnone.
  destruct Hstep as [ch x x' Hstep|ch c ts i h hd block major exts s s' cl' Hh Hb Hns Hp Hexec Hfresh Hs'
    |ch c ts i cl' Hs'].
  - eexists. split; [apply (ledger_attests auths byzantine (attested x'.1))|]. split; [|exact Hrec].
    cbn [attestations tasks fst]. intros ke. rewrite elem_of_app, (Hatt ke).
    pose proof (evolves_attested _ _ Hev) as Hsub. cbn [tasks fst] in *. set_solver.
  - destruct (execute_block_records to_raw_vec encode_call hd exts s s' Hns Hexec) as [Hev' _].
    pose proof (executed_quorums auths _ i block exts s (proj1 Hfine) Hch Hnone
      (ex_intro _ major Hh) Hb Hp) as Hq.
    eexists. split; [apply (ledger_records auths byzantine i (get_extrinsic_ids exts) l)|split].
    + eapply Forall_impl; [exact Hq|]. intros e. apply attested_quorum_mono. intros ke. by rewrite Hatt.
    + exact Hatt.
    + intros j e. cbn [records]. rewrite elem_of_app, Hrec, list_elem_of_fmap.
      rewrite (on_chain_block ch c ts _ ts i h s s' (get_extrinsic_ids exts) Hfresh (ex_intro _ _ Hp) Hev').
      naive_solver.
  - exists l. split; [done|]. by split.
Qed.

(** A network before its nodes start: the clients serve their chains, which have
    no events yet, and the authorities of the genesis. *)
Record chain_init (auths : AuthoritiesList) (x : chain_net) : Prop := mkChainInit {
  init_cluster : cluster_ok byzantine (tasks x).1;
  init_tasks : (tasks x).2 = [];
  init_chains : chains_ok auths x;
  init_no_events i e : ¬ on_chain x i e
}.

Definition init_ledger (x : chain_net) : ledger N := mkLedger (attested (tasks x).1) [].

Lemma chain_steps_ok auths x x' :
  wf_authorities auths → rtc chain_step x x' → sys_fine (tasks x) → chains_ok auths x →
  sys_fine (tasks x') ∧ chains_ok auths x' ∧ evolves (tasks x).1 (tasks x').1.
Proof.
  intros Hwf. induction 1 as [x|x y x' Hstep _ IH]; intros Hfine Hch; [split_and!; [done..|reflexivity]|].
  destruct (chain_step_ok auths x y Hwf Hstep Hfine Hch) as (Hfine' & Hch' & Hev).
  destruct (IH Hfine' Hch') as (? & ? & ?). split_and!; [done..|]. by transitivity (tasks y).1.
Qed.

Lemma chain_steps_simulated auths x x' :
  wf_authorities auths → rtc chain_step x x' → ∀ l : ledger N, sys_fine (tasks x) → chains_ok auths x →
  none_catching_up (tasks x').1 → represents x l →
  ∃ l', rtc (ledger_step auths byzantine) l l' ∧ represents x' l'.
Proof.
  intros Hwf. induction 1 as [x|x y x' Hstep Hsteps IH]; intros l Hfine Hch Hnone Hrep; [by exists l|].
  destruct (chain_step_ok auths x y Hwf Hstep Hfine Hch) as (Hfine' & Hch' & _).
  destruct (chain_steps_ok auths y x' Hwf Hsteps Hfine' Hch') as (_ & _ & Hev).
  destruct (chain_step_simulated auths x y l) as (l1 & Hl1 & Hrep1); [done..| |done|].
  { by eapply none_catching_up_evolves. }
  destruct (IH l1) as (l' & Hl' & Hrep'); [done..|]. exists l'. split; [by etrans|done].
Qed.

Lemma chain_init_fine auths x : chain_init auths x → sys_fine (tasks x).
Proof. intros [? Ht _ _]. split; [done|]. rewrite Ht. by apply Forall_nil_2. Qed.

Lemma chain_init_represents auths x : chain_init auths x → represents x (init_ledger x).
Proof. intros [_ _ _ He]. split; [done|]. intros i e. split; [by intros ?%elem_of_nil|by intros ?%He]. Qed.

(** C2: with off-chain proofs, the network implements the ledger.  Take any run
    of any number of nodes, all their tasks interleaved access by access, blocks
    executed after the block import has handed them over, in which no node is
    catching up while it imports, blocks have no [Sudo] calls and the runtime API
    answers at the blocks that the node knows.  There is a run of the ledger that ends with exactly the
    signatures that the keystores have made and exactly the events that are on
    record on each node's chain: no event reaches a chain without a quorum of
    attestations. *)
Theorem network_refines_ledger auths x x' :
  wf_authorities auths → chain_init auths x → rtc chain_step x x' → none_catching_up (tasks x').1 →
  ∃ l, rtc (ledger_step auths byzantine) (init_ledger x) l ∧ represents x' l.
Proof.
  intros Hwf Hinit Hsteps Hnone. pose proof (chain_init_fine auths x Hinit).
  pose proof (chain_init_represents auths x Hinit).
  apply (chain_steps_simulated auths x x'); try done. by apply (init_chains auths x).
Qed.

(** C1: conflicting events are never both on chains.  Let at most a third of the
    authorities be Byzantine, let no other authority sign both of two events, and
    let no node be catching up when it imports; blocks have no [Sudo] calls, and
    the runtime API answers at known blocks.  Once the first event is on record
    at some block of some node's chain, the second is at no block of any node's
    chain, whatever the network and the schedulers of the nodes do. *)
Theorem chain_safety auths x x' e1 e2 i j :
  wf_authorities auths → chain_init auths x → rtc chain_step x x' → none_catching_up (tasks x').1 →
  size byzantine ≤ length (authorities auths) `div` 3 →
  (∀ k, k ∉ byzantine → (k, e1) ∈ attested (tasks x').1 → (k, e2) ∉ attested (tasks x').1) →
  on_chain x' i e1 → ¬ on_chain x' j e2.
Proof.
  intros Hwf Hinit Hsteps Hnone HF Hone Hon1 Hon2. pose proof (chain_init_fine auths x Hinit).
  pose proof (chain_init_represents auths x Hinit).
  destruct (chain_steps_simulated auths x x' Hwf Hsteps (init_ledger x)) as (l & Hl & Hatt & Hrec);
    [done|by apply (init_chains auths x)|done|done|].
  assert (ledger_ok auths byzantine l) as Hok.
  { eapply ledger_steps_ok; [exact Hl|]. by intros ? ? ?%elem_of_nil. }
  apply (ledger_exclusive auths byzantine l e1 e2 i j); [done..| |by apply Hrec|by apply Hrec].
  intros k Hk. rewrite !Hatt. by apply Hone.
Qed.

End ChainNet.

(** ** Witnesses: a node that receives three messages, imports and executes *)

From S2P Require Import InMemory Concrete.
Import Codec.
#[local] Existing Instance toy_runtime.
#[local] Existing Instance runtime_chain | 0.
#[local] Existing Instance toy_runtime_system.
#[local] Existing Instance toy_runtime_system_laws.
#[local] Existing Instance toy_runtime_pool.
#[local] Existing Instance runtime_import.
#[local] Existing Instance failing_swarm.

(** An executive that counts blocks, and panics on an invalid block. *)
Section ToyBlocks.
Context {V : Type} `{!PalletMode V (gmap H256 V) toy_sys_state}.
#[local] Instance toy_apply : Executive (gmap H256 V) toy_sys_state := toy_executive toy_encode.

Definition toy_initialize (s : pallet_state (gmap H256 V) toy_sys_state) :
    pallet_state (gmap H256 V) toy_sys_state :=
  mkPallet (streams s)
    (mkToySys (toy_height (system s) + 1) (toy_aura (system s)) (toy_deposits (system s))).

#[local] Instance toy_blocks : BlockExecutive unit (gmap H256 V) toy_sys_state := {|
  exec_initialize_block _ s := toy_initialize s;
  exec_finalize_block s := (tt, s);
  exec_execute_block _ exts s := r ← apply_extrinsics exts (toy_initialize s); unwrap_result r
|}.

Lemma toy_blocks_laws : BlockExecutiveLaws unit (St := gmap H256 V) (Sys := toy_sys_state).
Proof.
  split.
  - intros [] exts s s' Hrun. unfold execute_block in Hrun. cbn [exec_execute_block toy_blocks] in Hrun.
    unfold initialize_block. cbn [exec_initialize_block toy_blocks].
    destruct (apply_extrinsics exts _) as [[s1|]| |] eqn:E; [|done..].
    injection Hrun as <-. by exists s1.
  - done.
  - done.
  - intros ext s d s' Hp Hs. cbn [exec_apply_extrinsic toy_apply toy_executive].
    destruct (function ext) as [| | | |c|[e p|]]; [by intros [= _ <-]..| | |].
    + by destruct (Hs c).
    + by destruct (Hp e p).
    + done.
Qed.

End ToyBlocks.

#[local] Existing Instance toy_off_mode.
#[local] Existing Instance toy_off_executive.
#[local] Instance toy_block_executive : BlockExecutive unit (gmap H256 Z) toy_sys_state := toy_blocks.
Definition toy_block_laws : BlockExecutiveLaws unit (Executive0 := toy_off_executive)
    (BlockExecutive0 := toy_block_executive) := toy_blocks_laws.

Abbreviation rt_state := (cluster (Store := InMemoryEventProofs)
  (Cache := lru nat AuthoritiesList) (Pool := list H256) (Swarm := nat) (Multiaddr := nat) (I := list nat) (N := 2)).
Abbreviation rt_net := (chain_net (St := gmap H256 Z) (Sys := toy_sys_state) (Store := InMemoryEventProofs)
  (Cache := lru nat AuthoritiesList) (Pool := list H256) (Swarm := nat) (Multiaddr := nat) (I := list nat) (N := 2)).

Definition rt_node : node_state InMemoryEventProofs (lru nat AuthoritiesList) (list H256) (GossipOrder nat) :=
  mkNode (mkMutex false (mkLru 4 [])) in_memory_new [] (mkChannel true []).

Definition rt_cluster : rt_state :=
  mkCluster (vreplicate 2 (mkRunning runtime_client rt_node 0 runtime_importer))
    ((λ b, (pair_of_aura (repeat_byte b), repeat_byte x2a)) <$> [x01; x02; x03]) [].

Definition rt_init : rt_net := mkChainNet (vreplicate 2 (toy_state_at (V := Z))) (rt_cluster, []).

Definition rt_auths : AuthoritiesList := aura_list (toy_block_state (V := Z)).

Lemma rt_auths_wf : wf_authorities rt_auths.
Proof. apply (runtime_client_wf 5). reflexivity. Qed.

Lemma rt_chain_init : chain_init ∅ rt_auths rt_init.
Proof.
  assert (∀ i, nodes rt_cluster !!! i = mkRunning runtime_client rt_node 0 runtime_importer) as Hn
    by (intros i; apply vlookup_replicate).
  assert (∀ i, (chains rt_init !!! i) = toy_state_at (V := Z)) as Hch
    by (intros i; apply vlookup_replicate).
  assert (∀ h s, toy_state_at (V := Z) h = Some s → s = toy_block_state (V := Z)) as Hst.
  { intros h s. unfold toy_state_at. case_bool_decide; [by intros [= <-]|done]. }
  split.
  - split.
    + intros i. cbn [rt_init tasks fst]. rewrite Hn. split; cbn.
      * split; [split; [by split|reflexivity|done]|exact runtime_client_wf].
      * done.
      * intros topic m ev []%elem_of_nil.
    + intros i. cbn [rt_init tasks fst]. by rewrite Hn.
    + constructor.
  - reflexivity.
  - intros i. cbn [rt_init tasks fst]. unfold client_of. rewrite Hn, Hch. split; [exact runtime_client_serves|].
    intros h s Hs. by rewrite (Hst h s Hs).
  - intros i e (h & s & Hs & Hv). rewrite Hch in Hs. rewrite (Hst h s Hs) in Hv. discriminate Hv.
Qed.

(** The iteration of the gossip service for the message of an authority. *)
Definition rt_gossip (b : byte) : task rt_state unit :=
  handle_incoming_event_task true 0%fin (Message (runtime_message b)).

Definition rt_import : task rt_state unit := t_ignore (import_block_task 0%fin runtime_block).

Definition rt_keystores (_ : fin 2) : list CryptoTypePublicPair := [].

Abbreviation rt_steps := (rtc (chain_step (Header := unit) rt_keystores ∅)).

Lemma rt_spawn_runs ch t ts (c c' : rt_state) :
  cluster_spawn true rt_keystores ∅ c t c → run_alone t c = Ret (tt, c') →
  rt_steps (mkChainNet ch (c, ts)) (mkChainNet ch (c', ts ++ [Done tt])).
Proof.
  intros Hspawn Hrun.
  assert (rtc (sys_step sync_env (cluster_spawn true rt_keystores ∅)) (c, ts) (c', ts ++ [Done tt])) as Hs.
  { eapply rtc_l; [by apply SysSpawn|].
    replace (ts ++ [Done tt]) with (<[length ts := Done tt]> (ts ++ [t]))
      by (rewrite insert_app_r_alt, Nat.sub_diag by lia; done).
    apply (run_alone_steps _ _ _ _ t); [|exact Hrun]. by rewrite lookup_app_r, Nat.sub_diag. }
  induction Hs as [x|x y z Hxy _ IH]; [apply rtc_refl|]. eapply rtc_l; [by apply ChainTasks|exact IH].
Qed.

Lemma rt_gossip_keeps b (c c' : rt_state) :
  run_alone (rt_gossip b) c = Ret (tt, c') →
  attested c' = attested c ∧ handed_over c' = handed_over c ∧ client_of c' 0%fin = client_of c 0%fin.
Proof.
  unfold rt_gossip. rewrite incoming_event_alone.
  destruct (handle_incoming_event _ _) as [[sw n]| |]; [|done..]. intros [= <-].
  unfold after_gossip. split_and!; [done..|]. unfold client_of, set_node. cbn [nodes]. by rewrite vlookup_insert.
Qed.

Lemma rt_gossip_spawns b (c : rt_state) :
  b ∈ [x01; x02; x03] → attested c = attested rt_cluster →
  cluster_spawn true rt_keystores ∅ c (rt_gossip b) c.
Proof.
  intros Hb Hw. apply SpawnEvent. intros m [= <-] ev Hde _.
  assert (de_event (runtime_message b) = Ok (mkWitnessed (toy_sign b (repeat_byte x2a))
    (pair_of_aura (repeat_byte b)) (repeat_byte x2a))) as Hde' by by apply de_ser_event.
  rewrite Hde' in Hde. injection Hde as <-. right. rewrite Hw. apply list_elem_of_fmap. by exists b.
Qed.

Definition rt_schedule : outcome (unit * rt_state) :=
  '(_, c1) ← run_alone (rt_gossip x01) rt_cluster;
  '(_, c2) ← run_alone (rt_gossip x02) c1;
  '(_, c3) ← run_alone (rt_gossip x03) c2;
  run_alone rt_import c3.

Lemma rt_schedule_steps ch :
  ∃ c', rt_steps (mkChainNet ch (rt_cluster, [])) (mkChainNet ch (c', replicate 4 (Done tt))) ∧
    attested c' = attested rt_cluster ∧ handed_over c' = [mkHanded 0%fin runtime_block false].
Proof.
  assert (match rt_schedule with
          | Ret (_, c) => match handed_over c with [h] => negb (h_major h) | _ => false end
          | _ => false
          end = true) as E by (vm_compute; reflexivity).
  unfold rt_schedule in E.
  destruct (run_alone (rt_gossip x01) rt_cluster) as [[[] c1]| |] eqn:E1; [|discriminate E..].
  rewrite outcome_ret_bind in E. destruct (rt_gossip_keeps _ _ _ E1) as (Hw1 & Hh1 & Hc1).
  destruct (run_alone (rt_gossip x02) c1) as [[[] c2]| |] eqn:E2; [|discriminate E..].
  rewrite outcome_ret_bind in E. destruct (rt_gossip_keeps _ _ _ E2) as (Hw2 & Hh2 & Hc2).
  destruct (run_alone (rt_gossip x03) c2) as [[[] c3]| |] eqn:E3; [|discriminate E..].
  rewrite outcome_ret_bind in E. destruct (rt_gossip_keeps _ _ _ E3) as (Hw3 & Hh3 & Hc3).
  destruct (run_alone rt_import c3) as [[[] c4]| |] eqn:E4; [|discriminate E..].
  assert (client_of c3 0%fin = runtime_client) as Hcl by (rewrite Hc3, Hc2, Hc1; reflexivity).
  assert (attested c4 = attested c3 ∧
    (handed_over c4 = handed_over c3 ∨ ∃ major, handed_over c4 = mkHanded 0%fin runtime_block major :: handed_over c3))
    as (Hw4 & Hh4).
  { unfold rt_import, t_ignore in E4. rewrite run_alone_task_bind in E4.
    pose proof (import_block_alone 0%fin runtime_block c3) as Hi. unfold same_import in Hi.
    destruct (import_block _ _ _ _) as [[r [imp n]]| |]; [|rewrite Hi in E4; discriminate E4..].
    destruct Hi as (h & Hh & Hi). rewrite Hi in E4. injection E4 as <-. split; [reflexivity|].
    destruct Hh as [->|[major ->]]; [by left|right; by exists major]. }
  rewrite Hh3, Hh2, Hh1 in Hh4. exists c4. split; [|split].
  - etrans; [apply (rt_spawn_runs ch _ [] _ _ (rt_gossip_spawns x01 _ ltac:(by left) eq_refl) E1)|].
    etrans; [apply (rt_spawn_runs ch _ [Done tt] _ _ (rt_gossip_spawns x02 c1 ltac:(by right; left) Hw1) E2)|].
    etrans; [apply (rt_spawn_runs ch _ [Done tt; Done tt] _ _
      (rt_gossip_spawns x03 c2 ltac:(by right; right; left) (eq_trans Hw2 Hw1)) E3)|].
    refine (rt_spawn_runs ch _ [Done tt; Done tt; Done tt] _ _
      (SpawnImport _ _ _ c3 0%fin runtime_block rt_auths _) E4).
    rewrite Hcl. reflexivity.
  - by rewrite Hw4, Hw3, Hw2.
  - destruct Hh4 as [Hh4|[major Hh4]]; rewrite Hh4 in E |- *; cbn in E; [discriminate E|].
    by destruct major.
Qed.

(** The client after the block. *)
Definition rt_hash : Hash := (9 : nat).

Definition rt_client : Client := {|
  best_hash := rt_hash;
  finalized_hash := (5 : Hash);
  finalized_number := 5%Z;
  api_authorities (h : Hash) :=
    if bool_decide (h < 10) then Ok four_ids else Err ("unknown block" : ApiError);
  api_get_extrinsic_ids _ exts := Ok (get_extrinsic_ids exts);
  api_create_unsigned_extrinsic _ e p := Ok (create_unsigned_extrinsic e p)
|}.

Lemma rt_execute :
  ∃ s', execute_block tt toy_exts (toy_block_state (V := Z)) = Ret s' ∧
    off_is_event_valid (repeat_byte x2a) s' = true ∧ aura_authorities (system s') = four_ids.
Proof.
  assert (match execute_block tt toy_exts (toy_block_state (V := Z)) with
          | Ret s' => off_is_event_valid (repeat_byte x2a) s' | _ => false end = true) as E
    by (vm_compute; reflexivity).
  destruct (execute_block tt toy_exts (toy_block_state (V := Z))) as [s'| |] eqn:Hrun; [|discriminate E..].
  exists s'. split; [reflexivity|]. split; [exact E|].
  destruct (execute_block_records (ExecutiveLaws0 := toy_off_laws) (BlockExecutiveLaws0 := toy_block_laws)
    aura_raw_vec toy_encode tt toy_exts toy_block_state s' toy_exts_no_sudo Hrun) as [_ ->]. reflexivity.
Qed.

Lemma rt_client_serves s' :
  aura_authorities (system s') = four_ids → serves rt_client (extend (toy_state_at (V := Z)) rt_hash s').
Proof.
  intros Ha h. unfold extend, toy_state_at. cbn [rt_client api_authorities].
  case_decide as Hne; [subst h|unfold rt_hash in Hne].
  - split_and!; [|done..]. unfold aura_api_authorities. by rewrite Ha.
  - case_bool_decide as Hlt.
    + split_and!; [|done..]. rewrite bool_decide_eq_true_2 by (cbn in *; lia). reflexivity.
    + exists "unknown block".
      rewrite bool_decide_eq_false_2; [reflexivity|]. cbn in *. lia.
Qed.

(** The event is on the chain of the first node. *)
Lemma rt_run :
  ∃ x' : rt_net, rt_steps rt_init x' ∧ none_catching_up (tasks x').1 ∧
    attested (tasks x').1 = attested rt_cluster ∧ on_chain x' 0%fin (repeat_byte x2a).
Proof.
  destruct (rt_schedule_steps (vreplicate 2 (toy_state_at (V := Z)))) as (c' & Hsteps & Hw & Hh).
  destruct rt_execute as (s' & Hexec & Hev & Ha).
  eexists. split; [|split; [|split]].
  - eapply rtc_r; [exact Hsteps|].
    apply (ChainBlock rt_keystores ∅ _ c' _ 0%fin rt_hash tt runtime_block false toy_exts
      toy_block_state s' rt_client).
    + rewrite Hh. left.
    + reflexivity.
    + exact toy_exts_no_sudo.
    + reflexivity.
    + exact Hexec.
    + reflexivity.
    + exact (rt_client_serves s' Ha).
  - change (Forall (λ h, h_major h = false) (handed_over c')). rewrite Hh. by repeat constructor.
  - exact Hw.
  - exists rt_hash, s'. split; [|exact Hev]. cbn [chains]. rewrite vlookup_insert. reflexivity.
Qed.

Lemma network_refines_ledger_witness :
  ∃ (x' : rt_net) (l : ledger 2), on_chain x' 0%fin (repeat_byte x2a) ∧
    rtc (ledger_step rt_auths ∅) (init_ledger rt_init) l ∧ represents x' l.
Proof.
  destruct rt_run as (x' & Hsteps & Hnone & _ & Hon).
  destruct (network_refines_ledger (ExecutiveLaws0 := toy_off_laws) (BlockExecutiveLaws0 := toy_block_laws)
    aura_raw_vec toy_encode ltac:(intros; by eexists _, _) rt_keystores ∅ rt_auths rt_init x'
    rt_auths_wf rt_chain_init Hsteps Hnone) as (l & Hl & Hrep).
  exists x', l. split; [exact Hon|]. split; [exact Hl|exact Hrep].
Defined.

Lemma chain_safety_witness :
  ∃ x' : rt_net, on_chain x' 0%fin (repeat_byte x2a) ∧ ¬ on_chain x' 1%fin (repeat_byte x2b).
Proof.
  destruct rt_run as (x' & Hsteps & Hnone & Hw & Hon). exists x'. split; [exact Hon|].
  apply (chain_safety (ExecutiveLaws0 := toy_off_laws) (BlockExecutiveLaws0 := toy_block_laws)
    aura_raw_vec toy_encode ltac:(intros; by eexists _, _) rt_keystores ∅ rt_auths rt_init x'
    (repeat_byte x2a) (repeat_byte x2b) 0%fin 1%fin).
  - exact rt_auths_wf.
  - exact rt_chain_init.
  - exact Hsteps.
  - exact Hnone.
  - rewrite size_empty. lia.
  - intros k _ _ Hin. assert ((k, repeat_byte x2b) ∈ attested rt_cluster) as Hin' by (rewrite <- Hw; exact Hin).
    apply list_elem_of_fmap in Hin' as (b & Hb & _). discriminate Hb.
  - exact Hon.
Defined.
