(* ===== verification/Delivery.v ===== *)
(** * From the clients that witness to the clients that listen

    The whole way of an event, with off-chain proofs: trusted clients call
    [witness_event] of [consensus/src/server.rs] at the nodes of a quorum, the
    messages reach a node, which submits the event, lets the block that has it
    through its block import, executes it, and, once the block is finalized, sends
    the event to whoever called [validated_events]. *)

From stdpp Require Import base decidable gmap strings relations list.
From Stdlib Require Import Strings.Byte ZArith Lia.
From S2P Require Import Prelude Errors Proofs State Authorities EventGossip Gossip Witness BlockImport Pallet Runtime RuntimeApi Validate Server Node Network Tasks Ledger NodeTasks ChainCluster.

(** ** The stream over a chain that is finalized *)

Section Stream.
Context `{ChainTypes}.



End Stream.

(** ** The call of the witnessing client *)

Section Witnessing.
Context `{BincodeLaws} `{ChainTypes} `{Sr25519}.
Context {Cache : Type} `{LruCacheLaws Hash AuthoritiesList Cache}.
Context {Store Pool Multiaddr : Type}.
Context {Keystore : Type} `{!CryptoStore Keystore} `{!CryptoStoreLaws Keystore}.
Abbreviation node := (node_state Store Cache Pool (GossipOrder Multiaddr)).





End Witnessing.

(** ** The whole way *)

Section Delivered.
Context `{BincodeLaws} `{RuntimeTypes} `{Sr25519} {Header St Sys : Type} `{!RuntimeSystem Sys}.
Context (to_raw_vec : AuraId → list byte) (encode_call : Call → list byte).
Context `{!StorageMap H256 Z St} `{!StorageMapLaws H256 Z St}.
#[local] Existing Instance off_chain_runtime.
Context `{!Executive St Sys} `{!ExecutiveLaws (PalletMode0 := off_chain_runtime to_raw_vec) encode_call}.
Context `{!RuntimeSystemLaws Sys} `{!BlockExecutive Header St Sys} `{!BlockExecutiveLaws Header}.
Context {Cache : Type} `{LruCacheLaws Hash AuthoritiesList Cache}.
Context {Store : Type} `{EventProofsSpec Store}.
Context {Pool : Type} `{!TxPool Pool}.
Context {Swarm PeerId Multiaddr : Type} `{!SwarmOps Swarm PeerId Multiaddr}.
Context {Keystore : Type} `{!CryptoStore Keystore} `{!CryptoStoreLaws Keystore}.
Context {I ImportResult CheckParams : Type} `{!BlockImportOps I ImportResult CheckParams}.
Abbreviation node := (node_state Store Cache Pool (GossipOrder Multiaddr)).
Abbreviation peer_state := (running (Store := Store) (Cache := Cache) (Pool := Pool)
  (Swarm := Swarm) (Multiaddr := Multiaddr) (I := I)).
Abbreviation view s := (ep_view (event_proofs (r_node s))).



End Delivered.

(** ** Witness: three clients, a node that takes their messages, and a stream from
       two blocks before *)

From S2P Require Import InMemory Concrete.
Import Codec.
#[local] Existing Instance toy_runtime.
#[local] Existing Instance runtime_chain | 0.
#[local] Existing Instance toy_runtime_system.
#[local] Existing Instance toy_runtime_system_laws.
#[local] Existing Instance toy_runtime_pool.
#[local] Existing Instance runtime_import.
#[local] Existing Instance failing_swarm.
#[local] Existing Instance toy_off_mode.
#[local] Existing Instance toy_off_executive.
#[local] Existing Instance toy_block_executive.









