(* ===== verification/OnChainLedger.v ===== *)
(** * With on-chain proofs the chain itself implements the ledger

    Without the feature [off-chain-proofs] no block import checks the events of a
    block: the proofs are in the extrinsics, and the pallet of
    [pallet/src/lib.rs], run by [execute_block] of [runtime/src/lib.rs], checks
    them.  Blocks may come from anyone and nodes may be catching up; as long as
    signatures are not forged, every run of the chains is a run of the abstract
    [ledger]. *)

From stdpp Require Import base decidable list gmap strings vector relations.
From Stdlib Require Import Strings.Byte ZArith Lia.
From S2P Require Import Prelude Errors Proofs State Authorities Pallet Runtime RuntimeApi Network Ledger ChainCluster.

Section OnChain.
Context `{RuntimeTypes} `{Sr25519} `{!AuthorityKeys} {Header St Sys : Type} `{!RuntimeSystem Sys}.
Context (encode_call : Call → list byte) (overflow_checks : bool).
Context `{!StorageMap H256 ProofsMap St} `{!StorageMapLaws H256 ProofsMap St}.
#[local] Existing Instance on_config.
#[local] Instance on_chain_runtime : PalletMode ProofsMap St Sys := on_runtime overflow_checks.
Context `{!Executive St Sys} `{!ExecutiveLaws encode_call} `{!RuntimeSystemLaws Sys}.
Context `{!BlockExecutive Header St Sys} `{!BlockExecutiveLaws Header}.
Context (byzantine : gset CryptoTypePublicPair).

(** ** Proofs in extrinsics *)

(** The authorities whose signatures in an extrinsic's proofs verify have witnessed
    the event, or are Byzantine: signatures are not forged.  The map of proofs is
    bounded by its type ([BoundedBTreeMap]). *)
Definition unforged_proofs (auths : AuthoritiesList) (w : list (CryptoTypePublicPair * H256))
    (ext : UncheckedExtrinsic) : Prop :=
  ∀ e p, function ext = ValidatedStreamsCall (ValidateEvent e (Some p)) →
    size p ≤ VSMaxAuthorities ∧
    ∀ k pk sg, k ∈ authorities auths → public_from_slice (pair_public k) = Some pk →
      p !! pk = Some sg → public_verify pk (as_bytes e) sg = true → known byzantine w k e.

(** The authorities that are among the keys of a map of proofs. *)
Definition proof_signers (auths : AuthoritiesList) (p : ProofsMap) : list CryptoTypePublicPair :=
  filter (λ k, is_Some (public_from_slice (pair_public k) ≫= λ pk, p !! pk)) (authorities auths).

(** As many authorities as proofs. *)
Lemma proof_signers_length (s : pallet_state St Sys) (p : ProofsMap) :
  map_Forall (λ k _, k ∈ authority_publics (to_raw_vec <$> aura_authorities (system s))) p →
  size p ≤ length (proof_signers (aura_list s) p).
Proof.
  intros Hp. rewrite <- size_dom.
  set (f := λ k : CryptoTypePublicPair, public_from_slice (pair_public k)).
  etransitivity; [|etransitivity; [apply (size_list_to_set_le (omap f (proof_signers (aura_list s) p)))|]].
  - apply subseteq_size. intros pk. rewrite elem_of_dom, elem_of_list_to_set. intros [sg Hpk].
    pose proof (Hp pk sg Hpk) as Hin. unfold authority_publics in Hin.
    apply list_elem_of_omap in Hin as (raw & Hraw & E). apply list_elem_of_fmap in Hraw as (id & -> & Hid).
    destruct (public_of_authority (id : @AuthorityId runtime_chain)) as (h & Hh & Hpub).
    rewrite <- Hh, h256_of_as_bytes in E. injection E as <-.
    apply list_elem_of_omap. exists (pair_of_aura id). split; [|exact Hpub].
    apply list_elem_of_filter. split.
    + change (pair_of_aura id) with (pair_of_authority (id : @AuthorityId runtime_chain)).
      rewrite Hpub. by exists sg.
    + apply list_elem_of_fmap_2. exact Hid.
  - generalize (proof_signers (aura_list s) p). intros l. induction l as [|k l IH]; [done|].
    cbn [omap list_omap length]. destruct (f k); cbn [length]; lia.
Qed.

(** Enough proofs are a quorum of witnesses. *)
Lemma enough_proofs_quorum w ext e p (s : pallet_state St Sys) :
  unforged_proofs (aura_list s) w ext → function ext = ValidatedStreamsCall (ValidateEvent e (Some p)) →
  wf_authorities (aura_list s) →
  enough_proofs (to_raw_vec <$> aura_authorities (system s)) e p →
  attested_quorum byzantine (aura_list s) w e.
Proof.
  intros Hun Hf [Hnd _] (Hkeys & Hsigs & Hsize). destruct (Hun e p Hf) as [_ Hknown].
  exists (proof_signers (aura_list s) p). split_and!.
  - by apply NoDup_filter.
  - pose proof (proof_signers_length s p Hkeys) as Hlen. rewrite length_fmap in Hsize.
    assert (length (authorities (aura_list s)) = length (aura_authorities (system s))) as Hn by apply length_fmap.
    unfold target. rewrite Hn. etransitivity; [exact Hsize|]. by apply inj_le.
  - apply Forall_forall. intros k (Hpk & Hin)%list_elem_of_filter. split; [done|].
    destruct (public_from_slice (pair_public k)) as [pk|] eqn:Epk; [|by destruct Hpk].
    destruct Hpk as [sg Hsg]. cbn in Hsg. apply (Hknown k pk sg); [done..|]. by apply (Hsigs pk).
Qed.

(** ** What an extrinsic records *)

(** What was recorded stays, what is new has a quorum, and the authorities are the
    same. *)
Definition quorum_step (w : list (CryptoTypePublicPair * H256)) (s s' : pallet_state St Sys) : Prop :=
  aura_authorities (system s') = aura_authorities (system s) ∧
  (∀ e, is_Some (sm_get e (streams s)) → is_Some (sm_get e (streams s'))) ∧
  ∀ e, is_Some (sm_get e (streams s')) →
       is_Some (sm_get e (streams s)) ∨ attested_quorum byzantine (aura_list s) w e.

Lemma aura_list_eq (s s' : pallet_state St Sys) :
  aura_authorities (system s') = aura_authorities (system s) → aura_list s' = aura_list s.
Proof. unfold aura_list, aura_api_authorities. by intros ->. Qed.

Lemma quorum_step_trans w s1 s2 s3 : quorum_step w s1 s2 → quorum_step w s2 s3 → quorum_step w s1 s3.
Proof.
  intros (Ha1 & Hm1 & Hn1) (Ha2 & Hm2 & Hn2). split_and!; [congruence|auto|].
  intros e He. destruct (Hn2 e He) as [He2|Hq]; [by apply Hn1|]. right. by rewrite <- (aura_list_eq s1 s2).
Qed.

Lemma quorum_step_same w (s s' : pallet_state St Sys) :
  streams s' = streams s → aura_authorities (system s') = aura_authorities (system s) → quorum_step w s s'.
Proof. intros Hs Ha. split_and!; [done|..]; intros e; rewrite Hs; auto. Qed.

Lemma apply_extrinsic_quorum w ext (s : pallet_state St Sys) d s' :
  (∀ c, function ext ≠ SudoCall c) → unforged_proofs (aura_list s) w ext → wf_authorities (aura_list s) →
  apply_extrinsic ext s = Ret (Ok d, s') → quorum_step w s s'.
Proof.
  intros Hsudo Hun Hwf Hrun.
  destruct (function ext) as [| | | |c|[e p|]] eqn:Hf.
  6: { destruct (exec_pallet_call encode_call ext e p s d s' Hf Hrun)
         as (s0 & r & s1 & Hs0 & _ & Ha0 & _ & Hcall & _ & Hs' & _ & Ha').
       apply (quorum_step_trans w s s0); [by apply quorum_step_same|].
       apply (quorum_step_trans w s0 s1); [|by apply quorum_step_same].
       change (on_validate_event_impl overflow_checks e p s0 = Ret (r, s1)) in Hcall.
       rewrite on_validate_event_spec in Hcall.
       - destruct (on_admits s0 e p) as [v|err] eqn:Hadm;
           [|injection Hcall as _ <-; by apply quorum_step_same].
         apply on_admits_Ok in Hadm as (-> & _ & Henough). injection Hcall as _ <-.
         rewrite <- (aura_list_eq s s0) in Hwf, Hun by done.
         split_and!; [cbn; apply aura_authorities_deposit|..]; cbn [streams]; intros e';
           (destruct (decide (e' = e)) as [->|Hne]; [|rewrite sm_get_insert_ne by done; auto]).
         + rewrite sm_get_insert_eq. by eexists.
         + intros _. right. by eapply enough_proofs_quorum.
       - apply Forall_fmap, Forall_true. intros id. apply to_raw_vec_length.
       - intros p' ->. destruct (Hun e p' Hf) as [Hsize _]. unfold VSMaxAuthorities, u16_max in *. lia. }
  6: { apply quorum_step_same; [by eapply (exec_ignore_call encode_call)|].
       eapply other_call_aura; [..|exact Hrun]; rewrite ?Hf; done. }
  5: by destruct (Hsudo c).
  all: apply quorum_step_same;
    [eapply (exec_other_call encode_call); [..|exact Hrun]; rewrite ?Hf; done
    |eapply other_call_aura; [..|exact Hrun]; rewrite ?Hf; done].
Qed.

Lemma apply_extrinsics_quorum w exts (s s' : pallet_state St Sys) :
  no_sudo exts → Forall (unforged_proofs (aura_list s) w) exts → wf_authorities (aura_list s) →
  apply_extrinsics exts s = Ret (Ok s') → quorum_step w s s'.
Proof.
  intros Hns. revert s. induction Hns as [|ext exts Hext _ IH]; intros s Hun Hwf Hrun.
  { injection Hrun as <-. by apply quorum_step_same. }
  apply Forall_cons_1 in Hun as [Hun1 Hun]. cbn [apply_extrinsics] in Hrun.
  destruct (apply_extrinsic ext s) as [[[d|i] s1]| |] eqn:E; [|done..]. rewrite outcome_ret_bind in Hrun.
  pose proof (apply_extrinsic_quorum w ext s d s1 Hext Hun1 Hwf E) as Hstep.
  apply (quorum_step_trans w s s1); [done|].
  apply IH; [..|done]; by rewrite (aura_list_eq s s1) by apply Hstep.
Qed.

Lemma execute_block_quorum w (header : Header) exts (s s' : pallet_state St Sys) :
  no_sudo exts → Forall (unforged_proofs (aura_list s) w) exts → wf_authorities (aura_list s) →
  execute_block header exts s = Ret s' → quorum_step w s s'.
Proof.
  intros Hns Hun Hwf Hrun. destruct (execute_block_steps header exts s s' Hrun) as (s1 & Happ & ->).
  destruct (initialize_block_keeps header s) as [Hs0 Ha0], (finalize_block_keeps (Header := Header) s1) as [Hs1 Ha1].
  apply (quorum_step_trans w s (initialize_block header s)); [by apply quorum_step_same|].
  apply (quorum_step_trans w _ s1); [|by apply quorum_step_same].
  apply (apply_extrinsics_quorum w exts); [done|..|done]; by rewrite (aura_list_eq s) by done.
Qed.

(** ** The chains of a network *)

Context {N : nat}.
Abbreviation chain := (Hash → option (pallet_state St Sys)).

Record proof_net := mkProofNet {
  proof_chains : vec chain N;
  signed : list (CryptoTypePublicPair * H256)
}.

(** An authority signs an event; or a node executes a block, whoever made it, on a
    parent that it knows. *)
Inductive proof_step : proof_net → proof_net → Prop :=
| ProofSign ch w k e :
    proof_step (mkProofNet ch w) (mkProofNet ch ((k, e) :: w))
| ProofBlock ch w i parent h (header : Header) exts s s' :
    (ch !!! i) parent = Some s → no_sudo exts → Forall (unforged_proofs (aura_list s) w) exts →
    execute_block header exts s = Ret s' → (ch !!! i) h = None →
    proof_step (mkProofNet ch w) (mkProofNet (vinsert i (extend (ch !!! i) h s') ch) w).

(** An event is on record at a block of a node's chain. *)
Definition on_record (x : proof_net) (i : fin N) (e : H256) : Prop :=
  ∃ h s, (proof_chains x !!! i) h = Some s ∧ on_is_event_valid e s = true.

(** The authorities of every state are those of the genesis. *)
Definition same_authorities (auths : AuthoritiesList) (x : proof_net) : Prop :=
  ∀ i h s, (proof_chains x !!! i) h = Some s → aura_list s = auths.

(** The ledger that the chains stand for. *)
Definition accounts (x : proof_net) (l : ledger N) : Prop :=
  attestations l = signed x ∧ ∀ i e, (i, e) ∈ records l ↔ on_record x i e.

Lemma on_is_event_valid_get e (s : pallet_state St Sys) :
  on_is_event_valid e s = true ↔ is_Some (sm_get e (streams s)).
Proof. unfold on_is_event_valid. by rewrite sm_contains_key_get, bool_decide_eq_true. Qed.

(** The events that a block adds, as a list. *)
Definition new_events (s s' : pallet_state St Sys) : list H256 :=
  filter (λ e, ¬ is_Some (sm_get e (streams s))) (sm_iter (streams s')).*1.

Lemma elem_of_new_events (s s' : pallet_state St Sys) e :
  e ∈ new_events s s' ↔ is_Some (sm_get e (streams s')) ∧ ¬ is_Some (sm_get e (streams s)).
Proof. unfold new_events. rewrite list_elem_of_filter, sm_iter_keys. tauto. Qed.

(** What is on record after a block. *)
Lemma on_record_block ch w i parent h s s' :
  (ch !!! i) h = None → (ch !!! i) parent = Some s → quorum_step w s s' →
  ∀ j e, on_record (mkProofNet (vinsert i (extend (ch !!! i) h s') ch) w) j e ↔
         on_record (mkProofNet ch w) j e ∨ (j = i ∧ e ∈ new_events s s').
Proof.
  intros Hfresh Hp (_ & _ & Hnew) j e. unfold on_record. cbn [proof_chains].
  setoid_rewrite on_is_event_valid_get. rewrite elem_of_new_events.
  destruct (decide (i = j)) as [<-|Hne]; [|rewrite vlookup_insert_ne by done; naive_solver].
  rewrite vlookup_insert. split.
  - intros (h1 & s1 & Hs1 & Hv). apply extend_inv in Hs1 as [->|Hs1]; [|by eauto].
    destruct (decide (is_Some (sm_get e (streams s)))) as [Hs|Hs]; [left; by eauto|by right].
  - intros [(h1 & s1 & Hs1 & Hv)|(_ & He & _)].
    + exists h1, s1. split; [by apply extend_known|done].
    + exists h, s'. unfold extend. by rewrite decide_True.
Qed.

Lemma proof_step_simulated auths x x' (l : ledger N) :
  wf_authorities auths → proof_step x x' → same_authorities auths x → accounts x l →
  same_authorities auths x' ∧
  ∃ l', rtc (ledger_step auths byzantine) l l' ∧ accounts x' l'.
Proof.
  intros Hwf Hstep Hsame [Hatt Hrec].
  destruct Hstep as [ch w k e|ch w i parent h hd exts s s' Hp Hns Hun Hexec Hfresh]; cbn [signed proof_chains] in *.
  - split; [exact Hsame|]. exists (mkLedger ((k, e) :: attestations l) (records l)). split.
    + apply rtc_once, LedgerAttest.
    + split; [by cbn; rewrite Hatt|exact Hrec].
  - pose proof (Hsame i _ _ Hp) as Ha. rewrite <- Ha in Hwf.
    pose proof (execute_block_quorum w hd exts s s' Hns Hun Hwf Hexec) as Hq.
    pose proof (on_record_block ch w i parent h s s' Hfresh Hp Hq) as Hon.
    destruct Hq as (Haura & _ & Hnew). split.
    + intros j h1 s1. cbn [proof_chains]. destruct (decide (i = j)) as [<-|Hne].
      * rewrite vlookup_insert. intros [->|Hs1]%extend_inv; [by rewrite (aura_list_eq s)|by eapply (Hsame i)].
      * rewrite vlookup_insert_ne by done. apply (Hsame j).
    + eexists. split; [apply (ledger_records auths byzantine i (new_events s s') l)|split; [exact Hatt|]].
      * apply Forall_forall. intros e [He Hno]%elem_of_new_events. rewrite Hatt, <- Ha.
        by destruct (Hnew e He).
      * intros j e. cbn [records]. rewrite elem_of_app, Hrec, list_elem_of_fmap, Hon. naive_solver.
Qed.

(** C3: with on-chain proofs, the chains implement the ledger.  Whoever makes the
    blocks, in whatever order nodes execute them, and whether or not nodes are
    catching up: as long as the signatures in the extrinsics are not forged and
    the blocks have no [Sudo] calls, there is a run of the ledger that ends with exactly the signatures made and
    exactly the events on record on each node's chain. *)
Theorem on_chain_refines_ledger auths x x' :
  wf_authorities auths → same_authorities auths x → (∀ i e, ¬ on_record x i e) →
  rtc proof_step x x' →
  ∃ l, rtc (ledger_step auths byzantine) (mkLedger (signed x) []) l ∧ accounts x' l.
Proof.
  intros Hwf Hsame Hno Hsteps.
  assert (accounts x (mkLedger (signed x) [])) as Hrep.
  { split; [done|]. intros i e. split; [by intros ?%elem_of_nil|by intros ?%Hno]. }
  generalize dependent (mkLedger (signed x) [] : ledger N). clear Hno.
  induction Hsteps as [x|x y x' Hstep _ IH]; intros l Hrep; [by exists l|].
  destruct (proof_step_simulated auths x y l Hwf Hstep Hsame Hrep) as (Hsame' & l1 & Hl1 & Hrep1).
  destruct (IH Hsame' l1 Hrep1) as (l' & Hl' & Hrep'). exists l'. split; [by etrans|done].
Qed.

End OnChain.

(** ** Witness: a block with the proofs of three of four authorities *)

From S2P Require Import InMemory Concrete BlockImport.
Import Codec.
#[local] Existing Instance toy_runtime.
#[local] Existing Instance runtime_chain | 0.
#[local] Existing Instance toy_runtime_system.
#[local] Existing Instance toy_runtime_system_laws.
#[local] Existing Instance toy_keys.
#[local] Existing Instance toy_on_mode.
#[local] Existing Instance toy_on_executive.
#[local] Instance toy_on_blocks : BlockExecutive unit (gmap H256 ProofsMap) toy_sys_state := toy_blocks.
Definition toy_on_block_laws : BlockExecutiveLaws unit (Executive0 := toy_on_executive)
    (BlockExecutive0 := toy_on_blocks) := toy_blocks_laws.

Definition proved_exts : list UncheckedExtrinsic :=
  [create_unsigned_extrinsic (repeat_byte x2a) (Some three_proofs)].

Definition proof_init : proof_net (St := gmap H256 ProofsMap) (Sys := toy_sys_state) (N := 2) :=
  mkProofNet (vreplicate 2 (toy_state_at (V := ProofsMap)))
    ((λ b, (pair_of_aura (repeat_byte b), repeat_byte x2a)) <$> [x01; x02; x03]).

Lemma toy_state_at_eq {V} h (s : pallet_state (gmap H256 V) toy_sys_state) :
  toy_state_at h = Some s → s = toy_block_state.
Proof. unfold toy_state_at. case_bool_decide; [by intros [= <-]|done]. Qed.

Lemma proof_init_same : same_authorities (aura_list toy_on_state) proof_init.
Proof.
  intros i h s. cbn [proof_init proof_chains]. rewrite vlookup_replicate. intros Hs.
  by rewrite (toy_state_at_eq h s Hs).
Qed.

Lemma proof_init_empty i e : ¬ on_record proof_init i e.
Proof.
  intros (h & s & Hs & Hv). cbn [proof_init proof_chains] in Hs. rewrite vlookup_replicate in Hs.
  rewrite (toy_state_at_eq h s Hs) in Hv. discriminate Hv.
Qed.

Lemma three_proofs_small : size three_proofs ≤ VSMaxAuthorities.
Proof. apply (bool_decide_eq_true_1 (_ ≤ _)). vm_compute. reflexivity. Qed.

Lemma three_proofs_unforged :
  Forall (unforged_proofs ∅ (aura_list toy_on_state) (signed proof_init)) proved_exts.
Proof.
  assert (proved_exts = [mkExtrinsic None (ValidatedStreamsCall (ValidateEvent (repeat_byte x2a) (Some three_proofs)))])
    as ->.
  { unfold proved_exts, create_unsigned_extrinsic, try_bound. cbn [mbind option_bind].
    by rewrite decide_True by exact three_proofs_small. }
  constructor; [|constructor]. intros e p [= <- <-]. split; [exact three_proofs_small|].
  intros k pk sg Hk Hpk Hsg _. right. cbn [signed proof_init].
  assert (k ∈ (λ b, pair_of_aura (repeat_byte b)) <$> [x01; x02; x03; x04]) as Hk' by exact Hk.
  apply list_elem_of_fmap in Hk' as (b & -> & Hb). apply list_elem_of_fmap. exists b. split; [exact eq_refl|].
  apply list_elem_of_In in Hb as [<-|[<-|[<-|[<-|[]]]]].
  - left.
  - right. left.
  - right. right. left.
  - exfalso. assert (match public_from_slice (pair_public (pair_of_aura (repeat_byte x04))) with
                     | Some pk => bool_decide (three_proofs !! pk = None)
                     | None => true
                     end = true) as E by (vm_compute; reflexivity).
    rewrite Hpk in E. apply bool_decide_eq_true_1 in E. congruence.
Qed.

Lemma proved_execute :
  match execute_block tt proved_exts toy_on_state with
  | Ret s' => on_is_event_valid (repeat_byte x2a) s'
  | _ => false
  end = true.
Proof. vm_compute. reflexivity. Qed.

Lemma on_chain_refines_ledger_witness :
  ∃ (x' : proof_net (St := gmap H256 ProofsMap) (Sys := toy_sys_state) (N := 2)) (l : ledger 2), on_record x' 0%fin (repeat_byte x2a) ∧
    rtc (ledger_step (aura_list toy_on_state) ∅) (mkLedger (signed proof_init) []) l ∧ accounts x' l.
Proof.
  pose proof proved_execute as E.
  destruct (execute_block tt proved_exts toy_on_state) as [s'| |] eqn:Hexec; [|discriminate E..].
  set (ch := proof_chains proof_init).
  set (x' := mkProofNet (vinsert 0%fin (extend (ch !!! 0%fin) rt_hash s') ch) (signed proof_init)).
  assert (proof_step (Header := unit) ∅ proof_init x') as Hstep.
  { apply (ProofBlock ∅ ch (signed proof_init) 0%fin (parent_hash runtime_block) rt_hash tt proved_exts toy_on_state s').
    - reflexivity.
    - repeat constructor; discriminate.
    - exact three_proofs_unforged.
    - exact Hexec.
    - reflexivity. }
  destruct (on_chain_refines_ledger (ExecutiveLaws0 := toy_on_laws)
    (BlockExecutiveLaws0 := toy_on_block_laws) toy_encode true ∅ (aura_list toy_on_state) proof_init x')
    as (l & Hl & Hacc).
  - apply (runtime_client_wf 5). reflexivity.
  - exact proof_init_same.
  - exact proof_init_empty.
  - apply rtc_once, Hstep.
  - exists x', l. split; [|split; [exact Hl|exact Hacc]].
    exists rt_hash, s'. split; [|exact E]. subst x'. cbn [proof_chains]. rewrite vlookup_insert. reflexivity.
Defined.
