(* ===== verification/TpsBenchmark.v ===== *)
(** * The throughput benchmark

    [samples/tps-benchmark/src/main.rs]: a client of the gRPC server that sends
    numbered events and watches them come back.  Event numbers travel in the
    first four bytes of the event ids; the loop over finalized blocks adapts
    the number of events it sends, in [u32] and [f32] arithmetic, up to a
    limit. *)

From stdpp Require Import base decidable list strings.
From Stdlib Require Import Strings.Byte ZArith Lia Floats.SpecFloat.
From S2P Require Import Prelude Config.

(** ** Machine arithmetic *)

(** [+] and [-] on [u32]: with overflow checks an overflow panics, without them it
    wraps. *)
Definition wrap_u32 (overflow_checks : bool) (x : Z) : outcome Z :=
  if (0 <=? x)%Z && (x <=? u32_max)%Z then Ret x
  else if overflow_checks then Panic else Ret (x mod 4294967296)%Z.

(** [+= 1] on an [i32]. *)
Definition incr_i32 (overflow_checks : bool) (x : Z) : outcome Z :=
  if (x =? 2147483647)%Z then if overflow_checks then Panic else Ret (-2147483648)%Z
  else Ret (x + 1)%Z.

(** ** Event ids *)

(** [u32::to_be_bytes] and [u32::from_be_bytes] *)
Definition byte_of_Z (z : Z) : byte := default x00 (Byte.of_N (Z.to_N (z mod 256))).
Definition Z_of_byte (b : byte) : Z := Z.of_N (Byte.to_N b).

Definition to_be_bytes (n : Z) : list byte :=
  [byte_of_Z (Z.shiftr n 24); byte_of_Z (Z.shiftr n 16); byte_of_Z (Z.shiftr n 8); byte_of_Z n].

Definition from_be_bytes (l : list byte) : Z := foldl (λ acc b, acc * 256 + Z_of_byte b)%Z 0%Z l.

Section EventIds.
(** SHA-256, whose digests have 32 bytes. *)
Context (sha256 : list byte → list byte).

(** The digest of the number, its first four bytes overwritten by the number
    ([write_all] on the slice fails when the slice is shorter). *)
Definition event_num_to_event_id (event_num : Z) : outcome (list byte) :=
  let num_bytes := to_be_bytes event_num in
  let event_id := sha256 num_bytes in
  if (length num_bytes <=? length event_id)%nat
  then Ret (num_bytes ++ drop (length num_bytes) event_id) else Panic.

(** Indexing [0..4] panics on a shorter slice. *)
Definition event_id_to_event_num (event_id : list byte) : outcome Z :=
  if (4 <=? length event_id)%nat then Ret (from_be_bytes (take 4 event_id)) else Panic.

(** The requests of [send_events]: one for each number of
    [from_num + 1 .. to_num + 1]. *)
Definition send_events (overflow_checks : bool) (from_num to_num : Z) : outcome (list (list byte)) :=
  lo ← wrap_u32 overflow_checks (from_num + 1);
  hi ← wrap_u32 overflow_checks (to_num + 1);
  outcome_map event_num_to_event_id ((λ i, lo + Z.of_nat i)%Z <$> seq 0 (Z.to_nat (hi - lo))).

End EventIds.

(** [f32], as the binary32 format of the standard library's specification of
    floating-point numbers: 24 bits of precision, exponents up to 128. *)
Definition f32 : Type := spec_float.
Definition f32_of_Z (x : Z) : f32 := binary_normalize 24 128 x 0 false.
Definition f32_mul : f32 → f32 → f32 := SFmul 24 128.
Definition f32_div : f32 → f32 → f32 := SFdiv 24 128.
Definition f32_le : f32 → f32 → bool := SFleb.

(** [x as u32]: truncated, saturating, and zero for a NaN. *)
Definition f32_as_u32 (x : f32) : Z :=
  match x with
  | S754_finite false m e =>
      Z.min u32_max (if (0 <=? e)%Z then Z.shiftl (Zpos m) e else Z.shiftr (Zpos m) (- e))
  | S754_infinity false => u32_max
  | _ => 0%Z
  end.

(** ** The loop of [witness_events] *)

Record tps_state := mkTps {
  max_block_events : Z;
  received_events : Z;
  num_blocks : Z;
  max_received_event_id : Z;
  sent_events : Z;
  events_per_block : Z
}.

Definition tps_init : tps_state := mkTps 0 0 0 0 0 1.

(** The largest event number of a response, if it has any. *)
Definition max_event_num (events : list (list byte)) : outcome (option Z) :=
  nums ← outcome_map event_id_to_event_num events;
  Ret (match nums with [] => None | n :: rest => Some (foldl Z.max n rest) end).

(** The adapted number of events for a block. *)
Definition adapt (increase_factor decrease_factor : f32) (unprocessed blocks epb : Z) : Z :=
  let average_unprocessed_events := f32_div (f32_of_Z unprocessed) (f32_of_Z blocks) in
  if f32_le average_unprocessed_events (f32_of_Z epb) then f32_as_u32 (f32_mul (f32_of_Z epb) increase_factor)
  else if (1 <? epb)%Z then f32_as_u32 (f32_div (f32_of_Z epb) decrease_factor)
  else epb.

(** One response: the new state, the range of event numbers to send, and
    whether the loop ends. *)
Definition tps_step (overflow_checks : bool) (limit : Z) (increase_factor decrease_factor : f32)
    (events : list (list byte)) (st : tps_state) : outcome (tps_state * option (Z * Z) * bool) :=
  let current_block_events := (Z.of_nat (length events) mod 4294967296)%Z in
  max_id ← max_event_num events;
  let max_received := match max_id with
                      | Some m => if (max_received_event_id st <? m)%Z then m
                                  else max_received_event_id st
                      | None => max_received_event_id st
                      end in
  blocks ← incr_i32 overflow_checks (num_blocks st);
  received ← wrap_u32 overflow_checks (received_events st + current_block_events);
  let max_events := if (max_block_events st <? current_block_events)%Z then current_block_events
                    else max_block_events st in
  '(sent, epb, batch) ←
    (if (sent_events st <? limit)%Z then
       unprocessed ← wrap_u32 overflow_checks (sent_events st - received);
       let epb := adapt increase_factor decrease_factor unprocessed blocks (events_per_block st) in
       new_sent ← wrap_u32 overflow_checks (sent_events st + epb);
       let new_sent := if (limit <=? new_sent)%Z then limit else new_sent in
       Ret (new_sent, epb, Some (sent_events st, new_sent))
     else Ret (sent_events st, events_per_block st, None));
  Ret (mkTps max_events received blocks max_received sent epb, batch, (limit <=? received)%Z).

(** The loop over the responses of the stream; the ranges sent, in order. *)
Fixpoint tps_run (overflow_checks : bool) (limit : Z) (increase_factor decrease_factor : f32)
    (responses : list (list (list byte))) (st : tps_state) : outcome (tps_state * list (Z * Z)) :=
  match responses with
  | [] => Ret (st, [])
  | events :: rest =>
      '(st', batch, stop) ← tps_step overflow_checks limit increase_factor decrease_factor events st;
      if (stop : bool) then Ret (st', option_list batch)
      else '(st'', batches) ← tps_run overflow_checks limit increase_factor decrease_factor rest st';
           Ret (st'', option_list batch ++ batches)
  end.

(** ** The arguments of the program *)

Inductive main_args : Type :=
| Usage
| RunWith (validator_addr : string) (increase_factor decrease_factor : f32) (limit : Z).

Definition u32_from_str : string → result IntErrorKind Z := int_from_str false 0 u32_max.

Definition parse_args (parse_f32 : string → result unit f32) (args : list string) :
    outcome main_args :=
  if (length args <? 4)%nat then Ret Usage
  else
    validator_addr ← unwrap_option (args !! 1);
    arg2 ← unwrap_option (args !! 2);
    increase_factor ← unwrap_result (parse_f32 arg2);
    arg3 ← unwrap_option (args !! 3);
    decrease_factor ← unwrap_result (parse_f32 arg3);
    arg4 ← unwrap_option (args !! 4);
    limit ← unwrap_result (u32_from_str arg4);
    Ret (RunWith validator_addr increase_factor decrease_factor limit).

(** ** Event ids carry their number *)

Lemma Z_of_byte_of_Z z : Z_of_byte (byte_of_Z z) = (z mod 256)%Z.
Proof.
  unfold Z_of_byte, byte_of_Z.
  assert (Z.to_N (z mod 256) < 256)%N as Hlt by (pose proof (Z.mod_pos_bound z 256); lia).
  destruct (Byte.of_N (Z.to_N (z mod 256))) as [b|] eqn:E.
  - apply Byte.to_of_N in E. cbn. rewrite E, Z2N.id; [done|]. by apply Z.mod_pos_bound.
  - exfalso. apply Byte.of_N_None_iff in E. lia.
Qed.

Lemma from_to_be_bytes n : (0 ≤ n ≤ u32_max)%Z → from_be_bytes (to_be_bytes n) = n.
Proof.
  intros Hn. unfold from_be_bytes, to_be_bytes, u32_max in *. cbn [foldl].
  rewrite !Z_of_byte_of_Z, !Z.shiftr_div_pow2 by lia.
  change (2 ^ 24)%Z with 16777216%Z. change (2 ^ 16)%Z with 65536%Z. change (2 ^ 8)%Z with 256%Z.
  zdiv.
Qed.

(** The id of an event number has the 32 bytes that the server requires, and
    the number is read back from it. *)
Theorem event_id_roundtrip (sha256 : list byte → list byte) (n : Z) :
  (0 ≤ n ≤ u32_max)%Z → length (sha256 (to_be_bytes n)) = 32 →
  ∃ id, event_num_to_event_id sha256 n = Ret id ∧ length id = 32 ∧
        event_id_to_event_num id = Ret n.
Proof.
  intros Hn Hlen. exists (to_be_bytes n ++ drop 4 (sha256 (to_be_bytes n))).
  unfold event_num_to_event_id, event_id_to_event_num. rewrite Hlen. split_and!.
  - done.
  - rewrite length_app, length_drop, Hlen. done.
  - change (take 4 (to_be_bytes n ++ drop 4 (sha256 (to_be_bytes n)))) with (to_be_bytes n).
    rewrite from_to_be_bytes by done. done.
Qed.

Lemma event_id_roundtrip_witness :
  ∃ id, event_num_to_event_id (λ _, replicate 32 xff) 258 = Ret id ∧ length id = 32 ∧
        event_id_to_event_num id = Ret 258%Z.
Proof.
  apply (event_id_roundtrip (λ _, replicate 32 xff) 258).
  - split; vm_compute; discriminate.
  - reflexivity.
Defined.

(** ** Every event is sent once, up to the limit *)

Lemma f32_as_u32_range x : (0 ≤ f32_as_u32 x ≤ u32_max)%Z.
Proof.
  unfold f32_as_u32, u32_max. destruct x as [| [] | | [] m e]; try lia.
  assert (0 ≤ if 0 <=? e then Z.shiftl (Zpos m) e else Z.shiftr (Zpos m) (- e))%Z.
  { destruct (0 <=? e)%Z; [apply Z.shiftl_nonneg|apply Z.shiftr_nonneg]; lia. }
  lia.
Qed.

Lemma adapt_nonneg inc dec unprocessed blocks epb :
  (0 ≤ epb)%Z → (0 ≤ adapt inc dec unprocessed blocks epb)%Z.
Proof.
  intros Hepb. unfold adapt. repeat case_match; try done; apply f32_as_u32_range.
Qed.

(** The event numbers of a range that is sent. *)
Definition numbers (batch : Z * Z) : list Z :=
  (λ i, batch.1 + 1 + Z.of_nat i)%Z <$> seq 0 (Z.to_nat (batch.2 - batch.1)).

Lemma numbers_app a b c :
  (a ≤ b ≤ c)%Z → numbers (a, b) ++ numbers (b, c) = numbers (a, c).
Proof.
  intros Habc. unfold numbers. cbn.
  replace (Z.to_nat (c - a)) with (Z.to_nat (b - a) + Z.to_nat (c - b)) by lia.
  assert (∀ k n, seq k n = Nat.add k <$> seq 0 n) as Hseq
    by (intros; by rewrite fmap_add_seq, Nat.add_0_r).
  rewrite seq_app, fmap_app. f_equal. cbn. rewrite (Hseq (Z.to_nat (b - a))), <- list_fmap_compose.
  apply list_fmap_ext. intros i x Hx. cbn. lia.
Qed.

Definition tps_inv (limit : Z) (st : tps_state) : Prop :=
  (0 ≤ sent_events st ≤ limit)%Z ∧ (0 ≤ events_per_block st)%Z.

Lemma wrap_u32_checked x y : wrap_u32 true x = Ret y → y = x ∧ (0 ≤ x ≤ u32_max)%Z.
Proof.
  unfold wrap_u32. destruct (Z.leb_spec 0 x); cbn; [|done].
  destruct (Z.leb_spec x u32_max); cbn; [|done]. by intros [= <-].
Qed.

Lemma tps_step_sent limit inc dec events st st' batch stop :
  tps_inv limit st → tps_step true limit inc dec events st = Ret (st', batch, stop) →
  tps_inv limit st' ∧ (sent_events st ≤ sent_events st')%Z ∧
  option_list batch ≫= numbers = numbers (sent_events st, sent_events st').
Proof.
  intros [Hsent Hepb]. unfold tps_step.
  destruct (max_event_num events) as [m| |]; [|done..]. rewrite outcome_ret_bind.
  destruct (incr_i32 true (num_blocks st)) as [blocks| |]; [|done..]. rewrite outcome_ret_bind.
  destruct (wrap_u32 true (received_events st + _)) as [received| |]; [|done..].
  rewrite outcome_ret_bind. destruct (Z.ltb_spec (sent_events st) limit) as [Hlt|Hge].
  - destruct (wrap_u32 true (sent_events st - received)) as [unp| |]; [|done..].
    rewrite outcome_ret_bind.
    pose proof (adapt_nonneg inc dec unp blocks (events_per_block st) Hepb) as Hn.
    set (epb := adapt inc dec unp blocks (events_per_block st)) in *.
    destruct (wrap_u32 true (sent_events st + epb)) as [sent| |] eqn:Es; [|done..].
    apply wrap_u32_checked in Es as [-> _]. rewrite !outcome_ret_bind.
    intros [= <- <- _]. unfold tps_inv. cbn.
    destruct (Z.leb_spec limit (sent_events st + epb)); (split; [lia|]); (split; [lia|]);
      by rewrite app_nil_r.
  - rewrite !outcome_ret_bind. intros [= <- <- _]. unfold tps_inv. cbn. split; [lia|].
    split; [lia|]. unfold numbers. cbn. by rewrite Z.sub_diag.
Qed.

Lemma tps_run_sent limit inc dec responses st st' batches :
  tps_inv limit st → tps_run true limit inc dec responses st = Ret (st', batches) →
  tps_inv limit st' ∧ (sent_events st ≤ sent_events st')%Z ∧
  batches ≫= numbers = numbers (sent_events st, sent_events st').
Proof.
  revert st batches. induction responses as [|events rest IH]; intros st batches Hst; cbn [tps_run].
  { intros [= <- <-]. split_and!; [done|done|]. unfold numbers. cbn. by rewrite Z.sub_diag. }
  destruct (tps_step true limit inc dec events st) as [[[st1 batch] stop]| |] eqn:Estep; [|done..].
  rewrite outcome_ret_bind. apply (tps_step_sent limit inc dec events st st1 batch stop Hst) in Estep
    as (Hst1 & Hle1 & Hnum1).
  destruct stop; [intros [= <- <-]; by split_and!|].
  destruct (tps_run true limit inc dec rest st1) as [[st2 bs]| |] eqn:Erun; [|done..].
  rewrite outcome_ret_bind. intros [= <- <-].
  destruct (IH st1 bs Hst1 Erun) as (Hst2 & Hle2 & Hnum2). split_and!; [done|lia|].
  rewrite bind_app, Hnum1, Hnum2. apply numbers_app. lia.
Qed.

(** In a build with overflow checks, whatever the finalized blocks contain and
    whatever the two factors are, the ranges sent are the numbers from 1 up to
    the count of events sent, each exactly once and in order, and that count
    never exceeds the limit. *)
Theorem tps_sends_each_once limit inc dec responses st batches :
  (0 ≤ limit)%Z → tps_run true limit inc dec responses tps_init = Ret (st, batches) →
  (sent_events st ≤ limit)%Z ∧
  batches ≫= numbers = (λ i, 1 + Z.of_nat i)%Z <$> seq 0 (Z.to_nat (sent_events st)).
Proof.
  intros Hlimit E.
  destruct (tps_run_sent limit inc dec responses tps_init st batches) as ([Hs _] & _ & Hn);
    [split; cbn; lia|done|].
  split; [lia|]. rewrite Hn. unfold numbers. cbn. by rewrite Z.sub_0_r.
Qed.

(** Two empty blocks with the factors 2 and 3: the second sends two more events. *)
Definition toy_tps : outcome (tps_state * list (Z * Z)) :=
  tps_run true 5 (f32_of_Z 2) (f32_of_Z 3) [[]; []] tps_init.

Lemma tps_sends_each_once_witness :
  ∃ st batches, toy_tps = Ret (st, batches) ∧ batches ≫= numbers = [1; 2; 3; 4; 5]%Z.
Proof.
  destruct toy_tps as [[st batches]| |] eqn:E; [|vm_compute in E; discriminate E..].
  exists st, batches. split; [reflexivity|].
  destruct (tps_sends_each_once 5 (f32_of_Z 2) (f32_of_Z 3) [[]; []] st batches) as [_ Hb].
  - lia.
  - exact E.
  - rewrite Hb. vm_compute in E. injection E as <- _. reflexivity.
Defined.

(** ** A stalled benchmark *)

Lemma adapt_zero inc dec unprocessed blocks : adapt inc dec unprocessed blocks 0 = 0%Z.
Proof.
  unfold adapt. destruct (f32_le _ _); [|done]. by destruct inc as [[]|[]| |[] m e].
Qed.

(** Once a block's share has been rounded down to zero events it stays zero:
    nothing more is sent. *)
Lemma tps_stalls limit inc dec responses st st' batches :
  (0 ≤ sent_events st < limit)%Z → events_per_block st = 0%Z →
  tps_run true limit inc dec responses st = Ret (st', batches) →
  sent_events st' = sent_events st ∧ batches ≫= numbers = [].
Proof.
  intros Hs Hz Hrun. assert (sent_events st' = sent_events st) as E.
  { revert st batches Hs Hz Hrun. induction responses as [|events rest IH]; intros st batches Hs Hz;
      cbn [tps_run]; [by intros [= <- _]|].
    destruct (tps_step true limit inc dec events st) as [[[st1 batch] stop]| |] eqn:Estep; [|done..].
    rewrite outcome_ret_bind.
    assert (sent_events st1 = sent_events st ∧ events_per_block st1 = 0%Z) as [Hs1 Hz1].
    { revert Estep. unfold tps_step. destruct (max_event_num events) as [m| |]; [|done..].
      rewrite outcome_ret_bind. destruct (incr_i32 true (num_blocks st)) as [bl| |]; [|done..].
      rewrite outcome_ret_bind. destruct (wrap_u32 true (received_events st + _)) as [rc| |]; [|done..].
      rewrite outcome_ret_bind, (proj2 (Z.ltb_lt _ _) (proj2 Hs)).
      destruct (wrap_u32 true (sent_events st - rc)) as [unp| |]; [|done..].
      rewrite outcome_ret_bind, Hz, adapt_zero, Z.add_0_r.
      destruct (wrap_u32 true (sent_events st)) as [sn| |] eqn:Es; [|done..].
      apply wrap_u32_checked in Es as [-> _]. rewrite !outcome_ret_bind. intros [= <- _ _]. cbn.
      by destruct (Z.leb_spec limit (sent_events st)); [lia|]. }
    destruct stop; [by intros [= <- _]|].
    destruct (tps_run true limit inc dec rest st1) as [[st2 bs]| |] eqn:Erun; [|done..].
    rewrite outcome_ret_bind. intros [= <- _]. rewrite <- Hs1.
    apply (IH st1 bs); [by rewrite Hs1|done|done]. }
  split; [done|].
  destruct (tps_run_sent limit inc dec responses st st' batches) as (_ & _ & Hn);
    [split; [lia|by rewrite Hz]|done|].
  rewrite Hn, E. unfold numbers. cbn. by rewrite Z.sub_diag.
Qed.

(** Two events per block divided by three are none. *)
Example adapt_to_zero : adapt (f32_of_Z 2) (f32_of_Z 3) 100 10 2 = 0%Z.
Proof. vm_compute. reflexivity. Qed.

(** Four arguments pass the check of the usage, but the fifth is read. *)
Lemma parse_args_four parse_f32 a0 a1 a2 a3 inc dec :
  parse_f32 a2 = Ok inc → parse_f32 a3 = Ok dec → parse_args parse_f32 [a0; a1; a2; a3] = Panic.
Proof. intros H2 H3. unfold parse_args. cbn. by rewrite H2, H3. Qed.

(** ** The program *)

Section Main.
Context (sha256 : list byte → list byte).

(** The loop that connects, on the attempts made so far. *)
Fixpoint connect_loop {Client} (attempts : list (result unit Client)) : outcome Client :=
  match attempts with
  | [] => Diverge
  | Ok client :: _ => Ret client
  | Err _ :: rest => connect_loop rest
  end.

(** [wait_validators], on the replies so far: the probe, event number zero, is
    sent until a reply is not an error; the ids that were sent. *)
Fixpoint wait_replies (request : list byte) (replies : list (result unit unit)) :
    outcome (list (list byte)) :=
  match replies with
  | [] => Diverge
  | Err _ :: rest => sent ← wait_replies request rest; Ret (request :: sent)
  | Ok _ :: _ => Ret [request]
  end.

Definition wait_validators (replies : list (result unit unit)) : outcome (list (list byte)) :=
  request ← event_num_to_event_id sha256 0;
  wait_replies request replies.

(** How the program ends: with the usage, or with the probes it has sent, the
    final counts and the ranges of the batches. *)
Inductive main_end : Type :=
| PrintedUsage
| Finished (probes : list (list byte)) (st : tps_state) (batches : list (Z * Z)).

(** [main], on the attempts to connect, the replies to the probes, the reply to
    the request of the stream (unwrapped) and the responses of the stream. *)
Definition tps_main {Client} (overflow_checks : bool) (parse_f32 : string → result unit f32)
    (args : list string) (attempts : list (result unit Client)) (replies : list (result unit unit))
    (subscribed : result unit unit) (responses : list (list (list byte))) : outcome main_end :=
  a ← parse_args parse_f32 args;
  match a with
  | Usage => Ret PrintedUsage
  | RunWith validator_addr increase_factor decrease_factor limit =>
      _ ← connect_loop attempts;
      probes ← wait_validators replies;
      _ ← unwrap_result subscribed;
      '(st, batches) ← tps_run overflow_checks limit increase_factor decrease_factor responses tps_init;
      Ret (Finished probes st batches)
  end.

(** The waits end with the first success, after one request for each reply. *)
Lemma wait_replies_ends request replies fails rest :
  replies = (Err <$> replicate fails tt) ++ Ok tt :: rest →
  wait_replies request replies = Ret (replicate (S fails) request).
Proof.
  intros ->. induction fails as [|n IH]; [done|]. cbn [replicate fmap list_fmap app wait_replies].
  cbn [fmap] in IH. rewrite IH. done.
Qed.

Lemma connect_loop_ends {Client} (client : Client) fails rest :
  connect_loop ((Err <$> replicate fails tt) ++ Ok client :: rest) = Ret client.
Proof. induction fails as [|n IH]; [done|exact IH]. Qed.

(** The events of the first block count as received although nothing was sent
    yet: with overflow checks the difference overflows. *)
Lemma first_events_panic limit inc dec events rest nums :
  (0 < limit)%Z → events ≠ [] → (Z.of_nat (length events) ≤ u32_max)%Z →
  outcome_map event_id_to_event_num events = Ret nums →
  tps_run true limit inc dec (events :: rest) tps_init = Panic.
Proof.
  intros Hl Hne Hlen Hnums. cbn [tps_run]. unfold tps_step, max_event_num. rewrite Hnums, !outcome_ret_bind.
  cbn [num_blocks received_events sent_events tps_init]. unfold incr_i32. cbn [Z.eqb]. rewrite outcome_ret_bind.
  assert (0 < Z.of_nat (length events))%Z as Hpos by (destruct events; [done|cbn; lia]).
  unfold u32_max in Hlen. set (n := Z.of_nat (length events)) in *.
  assert (wrap_u32 true (0 + n mod 4294967296) = Ret n) as ->.
  { rewrite Z.mod_small by lia. unfold wrap_u32.
    by rewrite (proj2 (Z.leb_le 0 _)), (proj2 (Z.leb_le _ u32_max)) by (unfold u32_max; lia). }
  assert (wrap_u32 true (0 - n) = Panic) as Hsub
    by (unfold wrap_u32; by rewrite (proj2 (Z.leb_gt 0 _)) by lia).
  by rewrite outcome_ret_bind, (proj2 (Z.ltb_lt 0 limit) Hl), Hsub.
Qed.

(** The benchmark waits for its validator by witnessing event number zero, and
    counts every event of every finalized block as one of its own.  In a build
    with overflow checks, when the first block that the stream delivers has that
    probe (or any other event), the program panics: it subtracts the events
    received from the events sent, which are none. *)
Theorem probe_breaks_benchmark {Client} parse_f32 args addr inc dec limit (client : Client) f1 f2 r1 r2
    probe events rest nums :
  parse_args parse_f32 args = Ret (RunWith addr inc dec limit) → (0 < limit)%Z →
  event_num_to_event_id sha256 0 = Ret probe → probe ∈ events →
  (Z.of_nat (length events) ≤ u32_max)%Z → outcome_map event_id_to_event_num events = Ret nums →
  wait_validators ((Err <$> replicate f2 tt) ++ Ok tt :: r2) = Ret (replicate (S f2) probe) ∧
  tps_main true parse_f32 args ((Err <$> replicate f1 tt) ++ Ok client :: r1)
    ((Err <$> replicate f2 tt) ++ Ok tt :: r2) (Ok tt) (events :: rest) = Panic.
Proof.
  intros Hargs Hl Hprobe Hin Hlen Hnums.
  assert (wait_validators ((Err <$> replicate f2 tt) ++ Ok tt :: r2) = Ret (replicate (S f2) probe)) as Hw.
  { unfold wait_validators. rewrite Hprobe, outcome_ret_bind. by eapply wait_replies_ends. }
  split; [done|]. unfold tps_main. rewrite Hargs, outcome_ret_bind, connect_loop_ends, outcome_ret_bind, Hw,
    outcome_ret_bind. cbn [unwrap_result]. rewrite outcome_ret_bind.
  rewrite (first_events_panic limit inc dec events rest nums); [done|done| |done..].
  intros ->. by apply elem_of_nil in Hin.
Qed.

End Main.

Lemma probe_breaks_benchmark_witness :
  tps_main (λ _, replicate 32 x00) true (λ _, Ok (f32_of_Z 2)) ["bench"; "addr"; "2"; "2"; "10"]
    [Ok tt] [Err tt; Ok tt] (Ok tt) [[replicate 32 x00]] = Panic.
Proof.
  destruct (probe_breaks_benchmark (λ _, replicate 32 x00) (λ _, Ok (f32_of_Z 2))
    ["bench"; "addr"; "2"; "2"; "10"] "addr" (f32_of_Z 2) (f32_of_Z 2) 10 tt 0 1 [] []
    (replicate 32 x00) [replicate 32 x00] [] [0%Z]) as [_ Hp].
  - vm_compute. reflexivity.
  - lia.
  - vm_compute. reflexivity.
  - left.
  - vm_compute. discriminate.
  - vm_compute. reflexivity.
  - exact Hp.
Defined.
