(* ===== verification/ChainSpec.v ===== *)
(** * Chain specifications

    [node/src/chain_spec.rs] and [load_spec] of [node/src/command.rs]: the
    development and local chains with their genesis configuration.  Key
    derivation is an interface; a failing derivation panics ([expect]). *)

From stdpp Require Import base decidable list gmap strings.
From Stdlib Require Import Strings.Byte ZArith Lia.
From S2P Require Import Prelude Errors Proofs State Authorities Runtime.

(** Key derivation from a secret string ([Pair::from_string]) for the two kinds
    of authority keys and for accounts. *)
Class SeedKeys := {
  AuraId : Type;
  GrandpaId : Type;
  AccountId : Type;
  aura_from_string : string → option AuraId;
  grandpa_from_string : string → option GrandpaId;
  account_from_string : string → option AccountId
}.

Inductive ChainType : Type := Development | LocalChain.

(** [GenesisConfig]; the transaction payment's part is its default. *)
Record GenesisConfig `{SeedKeys} := mkGenesis {
  system_code : list byte;
  balances : list (AccountId * Z);
  aura_authorities : list AuraId;
  grandpa_authorities : list (GrandpaId * Z);
  sudo_key : option AccountId
}.

(** [ChainSpec::from_genesis] keeps the closure that builds the genesis. *)
Record ChainSpec `{SeedKeys} := mkChainSpec {
  spec_name : string;
  spec_id : string;
  chain_type : ChainType;
  genesis : outcome GenesisConfig;
  spec_boot_nodes : list string
}.

Arguments mkGenesis {_} _ _ _ _ _.
Arguments mkChainSpec {_} _ _ _ _ _.

Section ChainSpecs.
Context `{SeedKeys}.

(** [get_from_seed]: [Pair::from_string(&format!("//{seed}"), None).expect(..)] *)
Definition get_from_seed {K} (from_string : string → option K) (seed : string) : outcome K :=
  unwrap_option (from_string ("//" +:+ seed)).

Definition get_account_id_from_seed (seed : string) : outcome AccountId :=
  get_from_seed account_from_string seed.

Definition authority_keys_from_seed (s : string) : outcome (AuraId * GrandpaId) :=
  a ← get_from_seed aura_from_string s;
  g ← get_from_seed grandpa_from_string s;
  Ret (a, g).

Definition testnet_genesis (wasm_binary : list byte) (initial_authorities : list (AuraId * GrandpaId))
    (root_key : AccountId) (endowed_accounts : list AccountId) (_enable_println : bool) :
    GenesisConfig :=
  mkGenesis wasm_binary ((λ k, (k, Z.shiftl 1 60)) <$> endowed_accounts)
    (fst <$> initial_authorities) ((λ x, (x.2, 1%Z)) <$> initial_authorities) (Some root_key).

(** The closure of both configurations, from the seeds they name. *)
Definition genesis_from_seeds (wasm_binary : list byte) (authority_seeds : list string)
    (root_seed : string) (endowed_seeds : list string) : outcome GenesisConfig :=
  auths ← outcome_map authority_keys_from_seed authority_seeds;
  root ← get_account_id_from_seed root_seed;
  endowed ← outcome_map get_account_id_from_seed endowed_seeds;
  Ret (testnet_genesis wasm_binary auths root endowed true).

Definition dev_authorities : list string := ["Alice"].
Definition dev_endowed : list string := ["Alice"; "Bob"; "Alice//stash"; "Bob//stash"].

Definition development_config (WASM_BINARY : option (list byte)) : result string ChainSpec :=
  wasm_binary ← ok_or WASM_BINARY "Development wasm not available";
  Ok (mkChainSpec "Development" "dev" Development
        (genesis_from_seeds wasm_binary dev_authorities "Alice" dev_endowed) []).

Definition local_authorities : list string := ["Alice"; "Bob"; "Charlie"; "Dave"].
Definition local_endowed : list string :=
  ["Alice"; "Bob"; "Charlie"; "Dave"; "Eve"; "Ferdie"; "Alice//stash"; "Bob//stash";
   "Charlie//stash"; "Dave//stash"; "Eve//stash"; "Ferdie//stash"].

Definition local_testnet_config (WASM_BINARY : option (list byte)) : result string ChainSpec :=
  wasm_binary ← ok_or WASM_BINARY "Development wasm not available";
  Ok (mkChainSpec "Local Testnet" "local_testnet" LocalChain
        (genesis_from_seeds wasm_binary local_authorities "Alice" local_endowed) []).

(** [SubstrateCli::load_spec]; reading a file is an argument. *)
Definition load_spec (WASM_BINARY : option (list byte))
    (from_json_file : string → result string ChainSpec) (id : string) : result string ChainSpec :=
  if bool_decide (id = "dev") then development_config WASM_BINARY
  else if bool_decide (id = "" ∨ id = "local") then local_testnet_config WASM_BINARY
  else from_json_file id.

(** ** The genesis of the two chains *)

(** A chain that can start: every authority has both keys, the chain's pallet
    can hold its authorities, no authority is listed twice, the sudo account has
    funds and the issuance fits a [u128]. *)
Definition genesis_ok (g : GenesisConfig) : Prop :=
  length (aura_authorities g) = length (grandpa_authorities g) ∧
  length (aura_authorities g) ≤ VSMaxAuthorities ∧ NoDup (aura_authorities g) ∧
  (∃ root, sudo_key g = Some root ∧ root ∈ (balances g).*1) ∧
  (foldr (λ b acc, b.2 + acc) 0 (balances g) < 2 ^ 128)%Z.

Lemma authority_keys_aura seeds auths :
  outcome_map authority_keys_from_seed seeds = Ret auths →
  Forall2 (λ s a, aura_from_string ("//" +:+ s) = Some a) seeds (fst <$> auths).
Proof.
  rewrite outcome_map_Forall2, Forall2_fmap_r. intros Hf.
  eapply Forall2_impl; [exact Hf|]. intros s [a g].
  unfold authority_keys_from_seed, get_from_seed. cbn.
  destruct (aura_from_string _); [|done]. cbn. destruct (grandpa_from_string _); [|done]. naive_solver.
Qed.

Lemma issuance (endowed : list AccountId) :
  foldr (λ b acc, b.2 + acc)%Z 0%Z ((λ k, (k, Z.shiftl 1 60)) <$> endowed) =
  (Z.of_nat (length endowed) * 2 ^ 60)%Z.
Proof.
  induction endowed as [|k l IH]; [done|]. cbn [fmap list_fmap foldr length]. rewrite IH.
  cbn [snd]. change (Z.shiftl 1 60) with (2 ^ 60)%Z. rewrite Nat2Z.inj_succ. lia.
Qed.

Lemma genesis_from_seeds_ok wasm authority_seeds root_seed endowed_seeds g :
  NoDup authority_seeds → length authority_seeds ≤ VSMaxAuthorities → root_seed ∈ endowed_seeds →
  length endowed_seeds ≤ 1000 →
  (∀ s s' a, aura_from_string ("//" +:+ s) = Some a → aura_from_string ("//" +:+ s') = Some a → s = s') →
  genesis_from_seeds wasm authority_seeds root_seed endowed_seeds = Ret g →
  genesis_ok g ∧ length (aura_authorities g) = length authority_seeds ∧ system_code g = wasm.
Proof.
  intros Hnd Hmax Hroot Hlen Hinj. unfold genesis_from_seeds.
  destruct (outcome_map authority_keys_from_seed authority_seeds) as [auths| |] eqn:Ea; [|done..].
  rewrite outcome_ret_bind.
  destruct (get_account_id_from_seed root_seed) as [root| |] eqn:Er; [|done..]. rewrite outcome_ret_bind.
  destruct (outcome_map get_account_id_from_seed endowed_seeds) as [endowed| |] eqn:Ee; [|done..].
  rewrite outcome_ret_bind. intros [= <-].
  pose proof (proj1 (outcome_map_Forall2 _ _ _) Ea) as Hla. apply Forall2_length in Hla.
  pose proof (proj1 (outcome_map_Forall2 _ _ _) Ee) as Hle. apply Forall2_length in Hle.
  unfold genesis_ok, testnet_genesis. cbn. rewrite !length_fmap. split_and!; try (done || lia).
  - apply NoDup_alt. intros i j a Hi Hj. apply authority_keys_aura in Ea.
    destruct (Forall2_lookup_r _ _ _ i a Ea Hi) as (s & Hs & Es).
    destruct (Forall2_lookup_r _ _ _ j a Ea Hj) as (s' & Hs' & Es').
    assert (s = s') as -> by by eapply Hinj. by eapply NoDup_lookup.
  - exists root. split; [done|]. apply (outcome_map_elem_l _ _ _ _ Ee) in Hroot as (root' & Hin & E).
    rewrite Er in E. injection E as ->. rewrite <- list_fmap_compose, list_fmap_id. done.
  - rewrite issuance, <- Hle. change (2 ^ 60)%Z with 1152921504606846976%Z.
    change (2 ^ 128)%Z with 340282366920938463463374607431768211456%Z. lia.
Qed.

(** When the runtime's code is there, key derivation succeeds and different
    seeds give different authority keys, the development and the local chain
    have a genesis that can start: as many Aura as Grandpa authorities, all
    different and at most 32, a sudo account with funds and an issuance that fits
    a [u128].  The local chain has four authorities, so an event needs three
    witnesses and one authority may fail; the development chain needs its only
    one. *)
Theorem chain_specs_start wasm id spec g from_json_file :
  (∀ s s' a, aura_from_string ("//" +:+ s) = Some a → aura_from_string ("//" +:+ s') = Some a → s = s') →
  id ∈ ["dev"; ""; "local"] →
  load_spec (Some wasm) from_json_file id = Ok spec → genesis spec = Ret g →
  genesis_ok g ∧ system_code g = wasm ∧
  (∀ auths, length (authorities auths) = length (aura_authorities g) →
     target auths = if bool_decide (id = "dev") then 1%Z else 3%Z).
Proof.
  intros Hinj Hid Hload Hg.
  assert ((id = "dev" ∧ genesis_from_seeds wasm dev_authorities "Alice" dev_endowed = Ret g) ∨
          (id ≠ "dev" ∧ genesis_from_seeds wasm local_authorities "Alice" local_endowed = Ret g))
    as [[-> Hgen]|[Hne Hgen]].
  { rewrite !elem_of_cons, elem_of_nil in Hid.
    destruct Hid as [->|[->|[->|[]]]]; injection Hload as <-; [by left|by right..]. }
  all: apply genesis_from_seeds_ok in Hgen as (Hok & Hlen & Hcode);
    [|solve [apply (bool_decide_eq_true_1 (NoDup _)); vm_compute; reflexivity]
     |vm_compute; lia
     |left|vm_compute; lia|done].
  all: split_and!; [done..|]; intros auths Ha; unfold target; rewrite Ha, Hlen.
  - done.
  - by rewrite bool_decide_eq_false_2.
Qed.

End ChainSpecs.

(** ** Witness: keys named by their seeds *)

#[local] Instance text_keys : SeedKeys := {|
  AuraId := string;
  GrandpaId := string;
  AccountId := string;
  aura_from_string := Some;
  grandpa_from_string := Some;
  account_from_string := Some
|}.

Lemma chain_specs_start_witness :
  ∃ spec g, load_spec (Some [x00]) (λ _, Err "no file") "local" = Ok spec ∧ genesis spec = Ret g ∧
    genesis_ok g.
Proof.
  destruct (load_spec (Some [x00]) (λ _, Err "no file") "local") as [spec|] eqn:El; [|discriminate El].
  destruct (genesis spec) as [g| |] eqn:Eg.
  - exists spec, g. split; [reflexivity|]. split; [exact Eg|].
    apply (chain_specs_start [x00] "local" spec g (λ _, Err "no file")).
    + intros s s' a [= <-] [= E]. symmetry. exact E.
    + right. right. left.
    + exact El.
    + exact Eg.
  - injection El as <-. discriminate Eg.
  - injection El as <-. discriminate Eg.
Defined.
