(* ===== verification/Rpc.v ===== *)
(** * The RPC modules of the node

    [node/src/rpc.rs]: the methods of the system and of the transaction payment,
    merged into one module.  [jsonrpsee] and the two modules are interfaces. *)

From stdpp Require Import base decidable list gmap strings sets.
From S2P Require Import Prelude.

(** [jsonrpsee::RpcModule] *)
Class RpcModules (Module : Type) := {
  rpc_module_new : Module;
  rpc_merge : Module → Module → result string Module
}.

(** Documented behaviour: a new module has no methods; merging fails if a method
    of the other module is there already, and adds all of them otherwise. *)
Class RpcModulesLaws (Module : Type) `{RpcModules Module} := {
  rpc_methods : Module → gset string;
  rpc_methods_new : rpc_methods rpc_module_new = ∅;
  rpc_merge_ok m m' m'' :
    rpc_merge m m' = Ok m'' → rpc_methods m ## rpc_methods m' ∧
      rpc_methods m'' = rpc_methods m ∪ rpc_methods m';
  rpc_merge_err m m' e : rpc_merge m m' = Err e → ¬ (rpc_methods m ## rpc_methods m')
}.

(** [sc_rpc_api::DenyUnsafe] *)
Inductive DenyUnsafe : Type :=
| DenyUnsafeNo
| DenyUnsafeYes.

Record FullDeps (C P : Type) := mkFullDeps {
  client : C;
  pool : P;
  deny_unsafe : DenyUnsafe
}.

Arguments mkFullDeps {C P} _ _ _.
Arguments client {C P} _.
Arguments pool {C P} _.
Arguments deny_unsafe {C P} _.

Section Rpc.
Context {Module C P : Type} `{RpcModules Module}.

(** [System::new(..).into_rpc()] and [TransactionPayment::new(..).into_rpc()] *)
Context (system_rpc : C → P → DenyUnsafe → Module) (payment_rpc : C → Module).

Definition create_full (deps : FullDeps C P) : result string Module :=
  let module := rpc_module_new in
  module ← rpc_merge module (system_rpc (client deps) (pool deps) (deny_unsafe deps));
  module ← rpc_merge module (payment_rpc (client deps));
  Ok module.

(** The node offers the methods of both modules, and fails to start its RPC only
    if the two share one. *)
Lemma create_full_correct `{!RpcModulesLaws Module} (deps : FullDeps C P) :
  let system := rpc_methods (system_rpc (client deps) (pool deps) (deny_unsafe deps)) in
  let payment := rpc_methods (payment_rpc (client deps)) in
  match create_full deps with
  | Ok module => system ## payment ∧ rpc_methods module = system ∪ payment
  | Err _ => ¬ (system ## payment)
  end.
Proof.
  intros system payment. unfold create_full.
  destruct (rpc_merge rpc_module_new _) as [m1|e] eqn:E1.
  - rewrite result_ok_bind. destruct (rpc_merge_ok _ _ _ E1) as [_ Hm1].
    rewrite rpc_methods_new, (left_id_L ∅ (∪)) in Hm1. destruct (rpc_merge m1 _) as [m2|e] eqn:E2.
    + rewrite result_ok_bind. destruct (rpc_merge_ok _ _ _ E2) as [Hd Hm2]. by rewrite Hm1 in Hd, Hm2.
    + cbn. apply rpc_merge_err in E2. by rewrite Hm1 in E2.
  - apply rpc_merge_err in E1. rewrite rpc_methods_new in E1. destruct E1. set_solver.
Qed.

End Rpc.

(** Modules as sets of methods, with the methods of the two crates. *)
#[local] Instance set_rpc : RpcModules (gset string) := {|
  rpc_module_new := ∅;
  rpc_merge m m' := if decide (m ## m') then Ok (m ∪ m') else Err "method already registered"
|}.

#[local] Program Instance set_rpc_laws : RpcModulesLaws (gset string) := {| rpc_methods m := m |}.
Next Obligation. done. Qed.
Next Obligation. intros m m' m''. cbn. case_decide; [by intros [= <-]|done]. Qed.
Next Obligation. intros m m' e. cbn. by case_decide. Qed.

Example create_full_serves :
  match create_full (λ _ _ _, {["system_accountNextIndex"; "system_dryRun"]})
          (λ _, {["payment_queryInfo"; "payment_queryFeeDetails"]}) (mkFullDeps tt tt DenyUnsafeYes) with
  | Ok m => bool_decide ("system_dryRun" ∈ m ∧ "payment_queryInfo" ∈ m)
  | Err _ => false
  end = true.
Proof. vm_compute. reflexivity. Qed.
