(* ===== verification/Service.v ===== *)
(** * The node's service

    [node/src/service.rs] and the import commands of [node/src/command.rs]: how
    the parts of a node are built and in which order its tasks are started.
    The calls of the Substrate framework succeed or fail as the interface says;
    the state records what has been started, and which of the shared objects each
    part was given: the store of proofs, the cache of authorities and the block
    import.  The block import's syncing service is provided only by
    [new_full]. *)

From stdpp Require Import base decidable list gmap strings.
From Stdlib Require Import Strings.Byte ZArith Lia.
From S2P Require Import Prelude Errors Proofs InMemory State Authorities Concrete EventGossip BlockImport.

(** ** Configuration *)

Record Configuration := mkConfiguration {
  keystore_remote : option string;
  telemetry_endpoints : option (list string);
  is_authority : bool;
  disable_grandpa : bool;
  offchain_worker_enabled : bool
}.

(** [ServiceError], by its text. *)
Definition ServiceError : Type := string.

(** Whether the fallible calls of the framework succeed. *)
Class Framework := {
  telemetry_worker_new : result ServiceError unit;
  new_full_parts : result ServiceError unit;
  grandpa_block_import : result ServiceError unit;
  offchain_storage : option unit;
  slot_duration : result ServiceError Z;
  import_queue : result ServiceError unit;
  genesis_hash : option unit;
  build_network : result ServiceError bool;
  spawn_tasks : result ServiceError unit;
  start_aura : result ServiceError unit;
  run_grandpa_voter : result ServiceError unit
}.

(** [const CACHE_CAPACITY: usize = 4] *)
Definition CACHE_CAPACITY : nat := 4.

(** A block import: that of GRANDPA, or the wrapper of this program around another
    one, with its store of proofs and its cache.  Shared objects ([Arc]s) are known
    by a number. *)
Inductive block_import_object : Type :=
| GrandpaBlockImport
| WrappedBlockImport (inner : block_import_object) (event_proofs block_state : nat).

(** What the parts of a node were given. *)
Inductive wiring : Type :=
| ImportQueueUses (block_import justification_import : block_import_object)
| GossipHandlerUses (event_proofs block_state : nat)
| WitnesserUses (block_state : nat)
| AuraUses (block_import : block_import_object).

(** What has been started: the tasks spawned by name, the syncing service that
    the block import waits for, the off-chain workers and the network; what the
    parts share, and how many shared objects were made. *)
Record service := mkService {
  tasks : list string;
  sync : SyncService;
  offchain_workers : bool;
  network_started : bool;
  wired : list wiring;
  objects : nat
}.

Definition no_service : service := mkService [] SyncPending false false [] 0.

Definition spawn (name : string) : M service ServiceError unit := λ s,
  Ret (Ok tt, mkService (tasks s ++ [name]) (sync s) (offchain_workers s) (network_started s)
                (wired s) (objects s)).
Definition provide_sync_service (major : bool) : M service ServiceError unit := λ s,
  Ret (Ok tt, mkService (tasks s) (SyncReady major) (offchain_workers s) (network_started s)
                (wired s) (objects s)).
Definition build_offchain_workers : M service ServiceError unit := λ s,
  Ret (Ok tt, mkService (tasks s) (sync s) true (network_started s) (wired s) (objects s)).
Definition start_network : M service ServiceError unit := λ s,
  Ret (Ok tt, mkService (tasks s) (sync s) (offchain_workers s) true (wired s) (objects s)).
Definition wire (w : wiring) : M service ServiceError unit := λ s,
  Ret (Ok tt, mkService (tasks s) (sync s) (offchain_workers s) (network_started s)
                (wired s ++ [w]) (objects s)).
(** [Arc::new] *)
Definition arc_new : M service ServiceError nat := λ s,
  Ret (Ok (objects s), mkService (tasks s) (sync s) (offchain_workers s) (network_started s)
                         (wired s) (S (objects s))).
Definition when (b : bool) (m : M service ServiceError unit) : M service ServiceError unit :=
  if b then m else mret tt.

(** The part of [PartialComponents] that is this program's own. *)
Record partial := mkPartial {
  p_block_import : block_import_object;
  p_event_proofs : nat;
  p_block_state : nat;
  p_capacity : nat
}.

Section Service.
Context `{Framework} (off_chain_proofs : bool).

(** Telemetry is on when there is a non-empty list of endpoints. *)
Definition telemetry_on (config : Configuration) : bool :=
  match telemetry_endpoints config with
  | Some (_ :: _) => true
  | _ => false
  end.

(** [new_partial]; the cache is made with [NonZeroUsize::new(..).unwrap()]. *)
Definition new_partial (config : Configuration) : M service ServiceError partial :=
  match keystore_remote config with
  | Some _ => throw "Remote Keystores are not supported."
  | None =>
      when (telemetry_on config) (lift telemetry_worker_new) ≫= λ _,
      lift new_full_parts ≫= λ _,
      when (telemetry_on config) (spawn "telemetry") ≫= λ _,
      lift grandpa_block_import ≫= λ _,
      lift (ok_or offchain_storage "Offchain storage is required.") ≫= λ _,
      event_proofs ← arc_new;
      capacity ← lift_outcome (if (CACHE_CAPACITY =? 0)%nat then Panic else Ret CACHE_CAPACITY);
      block_state ← arc_new;
      let block_import := if off_chain_proofs
                          then WrappedBlockImport GrandpaBlockImport event_proofs block_state
                          else GrandpaBlockImport in
      lift slot_duration ≫= λ _,
      lift import_queue ≫= λ _,
      wire (ImportQueueUses block_import GrandpaBlockImport) ≫= λ _,
      mret (mkPartial block_import event_proofs block_state capacity)
  end.

(** [remote_keystore] *)
Definition remote_keystore (_url : string) : result string unit :=
  Err "Remote Keystore not supported.".

(** The end of [new_full]: authoring and finality. *)
Definition start_consensus_tasks (config : Configuration) (p : partial) : M service ServiceError unit :=
  when (is_authority config)
    (lift slot_duration ≫= λ _, lift start_aura ≫= λ _, wire (AuraUses (p_block_import p)) ≫= λ _,
     spawn "aura") ≫= λ _,
  when (negb (disable_grandpa config))
    (lift run_grandpa_voter ≫= λ _, spawn "grandpa-voter") ≫= λ _,
  start_network.

Definition new_full (config : Configuration) : M service ServiceError unit :=
  p ← new_partial config;
  wire (GossipHandlerUses (p_event_proofs p) (p_block_state p)) ≫= λ _,
  wire (WitnesserUses (p_block_state p)) ≫= λ _,
  spawn "Validated Streams gRPC server" ≫= λ _,
  spawn "Validated Streams gossip" ≫= λ _,
  match keystore_remote config with
  | Some url => lift (map_err (λ e, "Error hooking up remote keystore for " +:+ url +:+ ": " +:+ e)
                              (remote_keystore url))
  | None => mret tt
  end ≫= λ _,
  lift_outcome (unwrap_option genesis_hash) ≫= λ _,
  syncing ← lift build_network;
  when off_chain_proofs (provide_sync_service syncing) ≫= λ _,
  when (offchain_worker_enabled config) build_offchain_workers ≫= λ _,
  lift spawn_tasks ≫= λ _,
  start_consensus_tasks config p.

(** What is left of a service when its components go out of scope: with off-chain
    proofs, the closure that was not called drops its sender. *)
Definition drop_rest (s : service) : service :=
  match off_chain_proofs, sync s with
  | true, SyncPending => mkService (tasks s) SyncDropped (offchain_workers s) (network_started s)
                           (wired s) (objects s)
  | _, _ => s
  end.

(** The commands [check-block] and [import-blocks]: they build the partial
    components, keep the client and the import queue, and drop the others. *)
Definition import_command (config : Configuration) : M service ServiceError unit := λ s,
  '(r, s') ← new_partial config s;
  Ret (match r with Ok _ => Ok tt | Err e => Err e end, drop_rest s').

(** ** What a started node runs *)

(** The tasks of a node, by its configuration, in the order of starting. *)
Definition node_tasks (config : Configuration) : list string :=
  (if telemetry_on config then ["telemetry"] else []) ++
  ["Validated Streams gRPC server"; "Validated Streams gossip"] ++
  (if is_authority config then ["aura"] else []) ++
  (if disable_grandpa config then [] else ["grandpa-voter"]).

Lemma when_ok (c : bool) m s s' u :
  when c m s = Ret (Ok u, s') → if c then m s = Ret (Ok u, s') else s' = s.
Proof. destruct c; [done|]. by intros [= _ <-]. Qed.

(** Taking apart a start that succeeded. *)
Ltac start_inv H :=
  repeat (let H1 := fresh "Hstep" in let u := fresh "u" in let s1 := fresh "s" in
          apply M_bind_ok_inv in H as (u & s1 & H1 & H);
          try (let E := fresh "Hres" in apply lift_ret in H1 as [E ->]);
          try (apply when_ok in H1)).

(** The block import of a node. *)
Definition the_import (event_proofs block_state : nat) : block_import_object :=
  if off_chain_proofs then WrappedBlockImport GrandpaBlockImport event_proofs block_state
  else GrandpaBlockImport.

(** The state with more tasks, more parts and more objects. *)
Definition more (l : list string) (ws : list wiring) (n : nat) (s : service) : service :=
  mkService (tasks s ++ l) (sync s) (offchain_workers s) (network_started s) (wired s ++ ws) (objects s + n).

Lemma more_nil s : more [] [] 0 s = s.
Proof. destruct s. unfold more. cbn. by rewrite !app_nil_r, Nat.add_0_r. Qed.

Lemma new_partial_ok config s p s' :
  new_partial config s = Ret (Ok p, s') →
  keystore_remote config = None ∧
  p = mkPartial (the_import (objects s) (S (objects s))) (objects s) (S (objects s)) CACHE_CAPACITY ∧
  s' = more (if telemetry_on config then ["telemetry"] else [])
         [ImportQueueUses (p_block_import p) GrandpaBlockImport] 2 s.
Proof.
  unfold new_partial. destruct (keystore_remote config); [done|]. intros Hr. start_inv Hr.
  injection Hr as <- <-.
  assert (s0 = s) as ->.
  { destruct (telemetry_on config); [|done]. by apply lift_ret in Hstep as [_ ->]. }
  repeat match goal with Hw : arc_new _ = _ |- _ => injection Hw as <- <- end.
  repeat match goal with Hw : wire _ _ = _ |- _ => injection Hw as _ <- end.
  simplify_eq/=. destruct (telemetry_on config).
  - injection Hstep0 as _ <-. split_and!; [done..|]. unfold more. cbn. do 2 f_equal; lia.
  - subst. split_and!; [done..|]. unfold more. cbn. by rewrite app_nil_r; do 2 f_equal; lia.
Qed.

Lemma aura_started config p s s' u :
  when (is_authority config)
    (lift slot_duration ≫= λ _, lift start_aura ≫= λ _, wire (AuraUses (p_block_import p)) ≫= λ _,
     spawn "aura") s = Ret (Ok u, s') →
  s' = if is_authority config then more ["aura"] [AuraUses (p_block_import p)] 0 s else s.
Proof.
  intros Hr%when_ok. destruct (is_authority config); [|done].
  start_inv Hr. injection Hr as _ <-.
  unfold more. cbn. by rewrite Nat.add_0_r.
Qed.

Lemma grandpa_started config s s' u :
  when (negb (disable_grandpa config))
    (lift run_grandpa_voter ≫= λ _, spawn "grandpa-voter") s = Ret (Ok u, s') →
  s' = more (if disable_grandpa config then [] else ["grandpa-voter"]) [] 0 s.
Proof.
  intros Hr%when_ok. destruct (disable_grandpa config); cbn in Hr; [by rewrite more_nil|].
  start_inv Hr. injection Hr as _ <-. unfold more. cbn. by rewrite app_nil_r, Nat.add_0_r.
Qed.

Lemma start_consensus_tasks_ok config p s s' u :
  start_consensus_tasks config p s = Ret (Ok u, s') →
  tasks s' = tasks s ++ (if is_authority config then ["aura"] else []) ++
               (if disable_grandpa config then [] else ["grandpa-voter"]) ∧
  wired s' = wired s ++ (if is_authority config then [AuraUses (p_block_import p)] else []) ∧
  sync s' = sync s ∧ offchain_workers s' = offchain_workers s ∧ network_started s' = true.
Proof.
  intros Hr. unfold start_consensus_tasks in Hr.
  apply M_bind_ok_inv in Hr as (u1 & s1 & Haura%aura_started & Hr).
  apply M_bind_ok_inv in Hr as (u2 & s2 & Hgrandpa%grandpa_started & Hr).
  injection Hr as _ <-. subst. destruct (is_authority config); cbn; by rewrite ?app_nil_r, <- ?app_assoc.
Qed.

(** The parts of a started node. *)
Lemma new_full_ok config u s' :
  new_full config no_service = Ret (Ok u, s') →
  tasks s' = node_tasks config ∧ network_started s' = true ∧
  offchain_workers s' = offchain_worker_enabled config ∧
  (off_chain_proofs = true → ∃ syncing, sync s' = SyncReady syncing) ∧
  wired s' = [ImportQueueUses (the_import 0 1) GrandpaBlockImport; GossipHandlerUses 0 1; WitnesserUses 1] ++
             (if is_authority config then [AuraUses (the_import 0 1)] else []).
Proof.
  intros Hr. unfold new_full in Hr. apply M_bind_ok_inv in Hr as (p & s1 & Hpart & Hr).
  apply new_partial_ok in Hpart as (Hks & -> & ->). rewrite Hks in Hr.
  remember (start_consensus_tasks config) as finish eqn:Hfinish.
  start_inv Hr. subst finish. cbn in *.
  repeat match goal with Hw : wire _ _ = _ |- _ => injection Hw as _ <- end.
  repeat match goal with Hw : spawn _ _ = _ |- _ => injection Hw as _ <- end.
  match goal with Hg : lift_outcome (unwrap_option genesis_hash) _ = _ |- _ =>
    cbn in Hg; destruct genesis_hash; [injection Hg as _ <-|done] end.
  apply start_consensus_tasks_ok in Hr as (Ht & Hw & Hs & Ho & Hn).
  rewrite Ht, Hw, Hs, Ho, Hn. unfold node_tasks.
  destruct off_chain_proofs, (offchain_worker_enabled config), (telemetry_on config); simplify_eq/=;
    unfold provide_sync_service, build_offchain_workers in *; simplify_eq/=; split_and!; eauto; done.
Qed.

(** When [new_full] succeeds, the node runs the gRPC server and the gossip
    service, Aura exactly on an authority and the Grandpa voter exactly when it is
    not disabled, each once and in this order; the network has started, and with
    off-chain proofs the block import has its syncing service before any of Aura,
    Grandpa and the network runs, so that importing a block waits for nothing and
    does not panic.  A remote keystore is refused before anything starts. *)
Theorem new_full_correct config :
  (∀ u s', new_full config no_service = Ret (Ok u, s') →
     tasks s' = node_tasks config ∧ network_started s' = true ∧
     offchain_workers s' = offchain_worker_enabled config ∧
     (off_chain_proofs = true → ∃ syncing, sync s' = SyncReady syncing)) ∧
  (∀ url, keystore_remote config = Some url →
     new_full config no_service = Ret (Err "Remote Keystores are not supported.", no_service)).
Proof.
  split.
  - intros u s' Hr. by destruct (new_full_ok config u s' Hr) as (? & ? & ? & ? & _).
  - intros url Hks. unfold new_full, new_partial. by rewrite Hks.
Qed.

(** C32: The parts of a started node share what they must: there is one store of proofs
    and one cache of authorities; the gossip handler adds signatures to the store
    that the block import reads, and every way of a block into the chain, from the
    network through the import queue and from Aura on an authority, goes through
    the same block import.  With off-chain proofs that import is the wrapper that
    checks events; without, it is the import of GRANDPA. *)
Theorem new_full_wiring config u s' :
  new_full config no_service = Ret (Ok u, s') →
  ∃ event_proofs block_state, event_proofs ≠ block_state ∧
    (∀ ep bs, GossipHandlerUses ep bs ∈ wired s' ↔ ep = event_proofs ∧ bs = block_state) ∧
    (∀ bs, WitnesserUses bs ∈ wired s' ↔ bs = block_state) ∧
    (∀ i, (∃ j, ImportQueueUses i j ∈ wired s') ∨ AuraUses i ∈ wired s' →
       i = if off_chain_proofs then WrappedBlockImport GrandpaBlockImport event_proofs block_state
           else GrandpaBlockImport) ∧
    (∃ i j, ImportQueueUses i j ∈ wired s') ∧
    ((∃ i, AuraUses i ∈ wired s') ↔ is_authority config = true).
Proof.
  intros Hr. destruct (new_full_ok config u s' Hr) as (_ & _ & _ & _ & ->). exists 0, 1.
  fold (the_import 0 1). destruct (is_authority config); cbn [app]; set_unfold; naive_solver.
Qed.

End Service.

(** ** The import commands drop the syncing service *)

Section ImportCommands.
Context `{Framework} `{ChainTypes} `{Sr25519}.
Context {Cache : Type} `{LruCache Hash AuthoritiesList Cache}.
Context {Store Pool Order : Type} `{EventProofsTrait Store}.
Context {I ImportResult CheckParams : Type} `{!BlockImportOps I ImportResult CheckParams}.

(** With off-chain proofs, the commands [check-block] and [import-blocks] never
    provide the syncing service: once they have built the components, importing
    any block panics, whatever the client, the store and the inner import. *)
Theorem import_command_panics config u s' client block (inner : I)
    (n : node_state Store Cache Pool Order) :
  import_command true config no_service = Ret (Ok u, s') →
  import_block client block (mkBlockImport inner (sync s')) n = Panic.
Proof.
  unfold import_command. destruct (new_partial true config no_service) as [[[p|e] s1]| |] eqn:E; [|done..].
  apply new_partial_ok in E as (_ & _ & ->). rewrite outcome_ret_bind. by intros [= _ <-].
Qed.

End ImportCommands.

(** ** Witnesses: a framework whose calls succeed *)

#[local] Instance working_framework : Framework := {|
  telemetry_worker_new := Ok tt;
  new_full_parts := Ok tt;
  grandpa_block_import := Ok tt;
  offchain_storage := Some tt;
  slot_duration := Ok 6000%Z;
  import_queue := Ok tt;
  genesis_hash := Some tt;
  build_network := Ok false;
  spawn_tasks := Ok tt;
  start_aura := Ok tt;
  run_grandpa_voter := Ok tt
|}.

Lemma import_command_panics_witness :
  ∃ s', import_command true (mkConfiguration None None false false false) no_service = Ret (Ok tt, s') ∧
    import_block toy_client toy_block (mkBlockImport ([] : list nat) (sync s')) toy_node = Panic.
Proof.
  eexists. split; [reflexivity|].
  eapply (import_command_panics (mkConfiguration None None false false false) tt _
    toy_client toy_block [] toy_node).
  reflexivity.
Defined.

(** An authority starts with all its tasks, and both its ways into the chain go
    through the wrapper. *)
Definition authority_config : Configuration := mkConfiguration None None true false false.

Example authority_starts :
  match new_full true authority_config no_service with
  | Ret (Ok _, s) => tasks s
  | _ => []
  end = ["Validated Streams gRPC server"; "Validated Streams gossip"; "aura"; "grandpa-voter"].
Proof. reflexivity. Qed.

Definition authority_service : service :=
  mkService ["Validated Streams gRPC server"; "Validated Streams gossip"; "aura"; "grandpa-voter"]
    (SyncReady false) false true
    [ImportQueueUses (WrappedBlockImport GrandpaBlockImport 0 1) GrandpaBlockImport;
     GossipHandlerUses 0 1; WitnesserUses 1; AuraUses (WrappedBlockImport GrandpaBlockImport 0 1)] 2.

Lemma new_full_wiring_witness :
  ∃ ep bs, new_full true authority_config no_service = Ret (Ok tt, authority_service) ∧
    ∀ i, AuraUses i ∈ wired authority_service → i = WrappedBlockImport GrandpaBlockImport ep bs.
Proof.
  destruct (new_full_wiring true authority_config tt authority_service) as (ep & bs & _ & _ & _ & Himp & _).
  - reflexivity.
  - exists ep, bs. split; [reflexivity|]. intros i Hi. apply Himp. right. exact Hi.
Defined.
