(* ===== verification/Command.v ===== *)
(** * The node's command line

    [node/src/cli.rs] and [node/src/command.rs]: the subcommands and what [run]
    does for each: the configuration it creates, the components it builds from
    it, and the command it hands them to.  The commands themselves are the
    framework's; the state records which of them ran, with what, and which
    syncing service the block import had by then. *)

From stdpp Require Import base decidable list gmap strings.
From Stdlib Require Import Strings.Byte ZArith Lia.
From S2P Require Import Prelude Errors Proofs State Authorities BlockImport Pallet Runtime RuntimeApi NodeBenchmarking Service.

(** ** [impl SubstrateCli for Cli] *)

Definition cli_impl_name : string := "Substrate Node".
Definition support_url : string := "support.anonymous.an".
Definition copyright_start_year : Z := 2017.
Definition native_runtime_version : RuntimeVersion := VERSION.

(** ** The command line *)

(** [frame_benchmarking_cli::BenchmarkCmd] *)
Inductive BenchmarkCmd : Type :=
| BenchPallet | BenchBlock | BenchStorage | BenchOverhead | BenchExtrinsic | BenchMachine.

Inductive Subcommand : Type :=
| Key | BuildSpec | CheckBlock | ExportBlocks | ExportState | ImportBlocks | PurgeChain | Revert
| Benchmark (cmd : BenchmarkCmd)
| TryRuntime | ChainInfo.

(** [Cli]; the parameters of [RunCmd] are those of the network, in [Config]. *)
Record Cli := mkCli { subcommand : option Subcommand }.

(** The cargo features that [run] asks for, and that of the block import. *)
Record features := mkFeatures { runtime_benchmarks : bool; try_runtime : bool; off_chain_proofs : bool }.

(** ** Running *)

(** [sc_cli::Error] *)
Inductive CliError : Type :=
| CliService (e : ServiceError)
| CliPrometheus (e : string)
| Input (text : string).

(** What a command is given. *)
Inductive argument `{Signing} `{Inherents} : Type :=
| ArgCli | ArgConfig | ArgChainSpec | ArgNetwork | ArgDatabase
| ArgClient | ArgImportQueue | ArgBackend | ArgAuxRevert | ArgDb | ArgStorage
| ArgInherents (data : InherentData)
| ArgDigestItems (items : list (list byte))
| ArgBuilders (builders : list ExtrinsicBuilder)
| ArgReferenceHardware
| ArgBlockTime (millis : Z).

(** A command that ran, with the state of the block import's syncing service. *)
Record invocation `{Signing} `{Inherents} := mkInvocation {
  command : Subcommand;
  arguments : list argument;
  sync_then : SyncService
}.

Arguments mkInvocation {_ _ _ _} _ _ _.

Record cli_state `{Signing} `{Inherents} := mkCliState {
  cli_service : service;
  invoked : list invocation
}.

Arguments mkCliState {_ _ _ _} _ _.

(** The framework behind the commands: the runner's configuration (for a
    subcommand or for the node), the commands themselves, the client that the
    builders read, and the task manager of [try-runtime]. *)
Class Commands `{Signing} `{Inherents} := {
  create_runner : option Subcommand → result CliError Configuration;
  cmd_run : Subcommand → list argument → result CliError unit;
  full_client : FullClient;
  task_manager_new : result string unit
}.

Section Run.
Context `{Framework} `{Commands} (cfg : features).
Abbreviation C := (M cli_state CliError).

(** Run a command with its arguments. *)
Definition invoke (cmd : Subcommand) (args : list argument) : C unit := λ s,
  Ret (cmd_run cmd args,
       mkCliState (cli_service s) (invoked s ++ [mkInvocation cmd args (sync (cli_service s))])).

(** [let PartialComponents { .., .. } = service::new_partial(&config)?]: the
    components that are not named are dropped. *)
Definition partial_components (config : Configuration) : C unit := λ s,
  '(r, sv) ← new_partial (off_chain_proofs cfg) config (cli_service s);
  Ret (match r with Ok _ => Ok tt | Err e => Err (CliService e) end,
       mkCliState (drop_rest (off_chain_proofs cfg) sv) (invoked s)).

Definition extrinsic_builders : list ExtrinsicBuilder :=
  [RemarkBuilder full_client;
   TransferKeepAliveBuilder full_client (account_id (public keyring_alice)) EXISTENTIAL_DEPOSIT].

(** [Subcommand::Benchmark]: which commands are supported. *)
Definition run_benchmark (cmd : BenchmarkCmd) (config : Configuration) : C unit :=
  match cmd with
  | BenchPallet =>
      if negb (runtime_benchmarks cfg) then
        throw (Input ("Runtime benchmarking wasn't enabled when building the node. " +:+
                      "You can enable it with `--features runtime-benchmarks`."))
      else invoke (Benchmark BenchPallet) [ArgConfig]
  | BenchBlock => partial_components config ≫= λ _, invoke (Benchmark BenchBlock) [ArgClient]
  | BenchStorage =>
      if negb (runtime_benchmarks cfg) then
        throw (Input "Storage benchmarking can be enabled with `--features runtime-benchmarks`.")
      else partial_components config ≫= λ _,
           invoke (Benchmark BenchStorage) [ArgConfig; ArgClient; ArgDb; ArgStorage]
  | BenchOverhead =>
      partial_components config ≫= λ _,
      data ← lift (map_err Input inherent_benchmark_data);
      invoke (Benchmark BenchOverhead)
        [ArgConfig; ArgClient; ArgInherents data; ArgDigestItems []; ArgBuilders [RemarkBuilder full_client]]
  | BenchExtrinsic =>
      partial_components config ≫= λ _,
      data ← lift (map_err Input inherent_benchmark_data);
      invoke (Benchmark BenchExtrinsic)
        [ArgClient; ArgInherents data; ArgDigestItems []; ArgBuilders extrinsic_builders]
  | BenchMachine => invoke (Benchmark BenchMachine) [ArgConfig; ArgReferenceHardware]
  end.

Definition run_subcommand (cmd : Subcommand) : C unit :=
  match cmd with
  | Key => invoke Key [ArgCli]
  | BuildSpec => lift (create_runner (Some cmd)) ≫= λ _, invoke BuildSpec [ArgChainSpec; ArgNetwork]
  | CheckBlock =>
      config ← lift (create_runner (Some cmd));
      partial_components config ≫= λ _, invoke CheckBlock [ArgClient; ArgImportQueue]
  | ExportBlocks =>
      config ← lift (create_runner (Some cmd));
      partial_components config ≫= λ _, invoke ExportBlocks [ArgClient; ArgDatabase]
  | ExportState =>
      config ← lift (create_runner (Some cmd));
      partial_components config ≫= λ _, invoke ExportState [ArgClient; ArgChainSpec]
  | ImportBlocks =>
      config ← lift (create_runner (Some cmd));
      partial_components config ≫= λ _, invoke ImportBlocks [ArgClient; ArgImportQueue]
  | PurgeChain => lift (create_runner (Some cmd)) ≫= λ _, invoke PurgeChain [ArgDatabase]
  | Revert =>
      config ← lift (create_runner (Some cmd));
      partial_components config ≫= λ _, invoke Revert [ArgClient; ArgBackend; ArgAuxRevert]
  | Benchmark bench => lift (create_runner (Some cmd)) ≫= run_benchmark bench
  | TryRuntime =>
      if try_runtime cfg then
        lift (create_runner (Some cmd)) ≫= λ _,
        lift (map_err CliPrometheus task_manager_new) ≫= λ _,
        invoke TryRuntime [ArgBlockTime 6000]
      else throw (Input ("TryRuntime wasn't enabled when building the node. " +:+
                         "You can enable it with `--features try-runtime`."))
  | ChainInfo => lift (create_runner (Some cmd)) ≫= λ _, invoke ChainInfo [ArgConfig]
  end.

(** Without a subcommand the node runs until it exits. *)
Definition run_node : C unit :=
  config ← lift (create_runner None);
  M_map_err CliService (zoom cli_service (λ sv s, mkCliState sv (invoked s)) (new_full (off_chain_proofs cfg) config)).

Definition run (cli : Cli) : C unit :=
  match subcommand cli with
  | Some cmd => run_subcommand cmd
  | None => run_node
  end.

End Run.

(** ** Invariants of a sequence of calls *)

(** A call that keeps an invariant, whatever its result, and does not panic. *)
Definition keeps {S E A} (P : S → Prop) (m : M S E A) : Prop :=
  ∀ s, P s → runs m s (λ _ s', P s').

Lemma keeps_bind {S E A B} (P : S → Prop) (m : M S E A) (f : A → M S E B) :
  keeps P m → (∀ a, keeps P (f a)) → keeps P (m ≫= f).
Proof.
  intros Hm Hf s Hs. apply runs_bind. eapply runs_mono; [by apply Hm|].
  intros [a|e] s' Hs'; [by apply Hf|done].
Qed.

Lemma keeps_lift {S E A} (P : S → Prop) (r : result E A) : keeps P (lift r).
Proof. by intros s Hs. Qed.

Lemma keeps_ret {S E A} (P : S → Prop) (a : A) : keeps (E := E) P (mret a).
Proof. by intros s Hs. Qed.

Lemma keeps_outcome {S E A} (P : S → Prop) (a : A) : keeps (E := E) P (lift_outcome (Ret a)).
Proof. by intros s Hs. Qed.

Create HintDb keeps.
#[local] Hint Resolve keeps_bind keeps_lift keeps_ret keeps_outcome : keeps.

(** ** Subcommands do not run the node *)

(** Nothing of a running node: no network, no off-chain workers, no syncing
    service and no task but the telemetry. *)
Definition not_running (sv : service) : Prop :=
  network_started sv = false ∧ offchain_workers sv = false ∧ Forall (.= "telemetry") (tasks sv) ∧
  ∀ major, sync sv ≠ SyncReady major.

Lemma not_running_drop off sv : not_running sv → not_running (drop_rest off sv).
Proof.
  intros (Hn & Ho & Ht & Hs). unfold drop_rest. destruct off, (sync sv) eqn:E; split_and!; try done.
  all: intros major; cbn; rewrite ?E; try done; apply Hs.
Qed.

Lemma drop_rest_dropped sv : not_running sv → sync (drop_rest true sv) = SyncDropped.
Proof.
  intros (_ & _ & _ & Hs). unfold drop_rest. destruct (sync sv) as [| |major] eqn:E; [done|done|].
  by destruct (Hs major).
Qed.

Section RunFacts.
Context `{Framework} `{Commands}.

Lemma keeps_telemetry b : keeps not_running (when b (spawn "telemetry")).
Proof.
  destruct b; [|apply keeps_ret]. intros sv (Hn & Ho & Ht & Hs). split_and!; [done..| |done].
  apply Forall_app. split; [done|]. by constructor.
Qed.

Lemma keeps_when_lift b (r : result ServiceError unit) : keeps not_running (when b (lift r)).
Proof. destruct b; [apply keeps_lift|apply keeps_ret]. Qed.

Lemma keeps_wire w : keeps not_running (wire w).
Proof. by intros sv Hsv. Qed.

Lemma keeps_arc_new : keeps not_running arc_new.
Proof. by intros sv Hsv. Qed.

Lemma new_partial_not_running off config : keeps not_running (new_partial off config).
Proof.
  unfold new_partial. destruct (keystore_remote config); [by intros sv Hsv|].
  change ((CACHE_CAPACITY =? 0)%nat) with false. cbn iota.
  repeat (apply keeps_bind; [auto using keeps_telemetry, keeps_when_lift, keeps_wire, keeps_arc_new with keeps|intros ?]); auto with keeps.
Qed.

(** A subcommand that has ended: its command ran once and this is its result, or
    it did not run and there was an error. *)
Definition ended (cmd : Subcommand) (r : result CliError unit) (s : cli_state) : Prop :=
  not_running (cli_service s) ∧
  ((∃ args sy, invoked s = [mkInvocation cmd args sy] ∧ r = cmd_run cmd args) ∨
   (invoked s = [] ∧ ∃ e, r = Err e)).

(** A subcommand that has not reached its command yet. *)
Definition waiting (s : cli_state) : Prop := not_running (cli_service s) ∧ invoked s = [].

Lemma waiting_invoke cmd args s : waiting s → runs (invoke cmd args) s (ended cmd).
Proof.
  intros [Hs Hi]. split; [done|]. left. exists args, (sync (cli_service s)). cbn. by rewrite Hi.
Qed.

Lemma waiting_partial cfg config : keeps waiting (partial_components cfg config).
Proof.
  intros s [Hs Hi]. unfold runs, partial_components.
  pose proof (new_partial_not_running (off_chain_proofs cfg) config (cli_service s) Hs) as Hp. unfold runs in Hp.
  destruct (new_partial (off_chain_proofs cfg) config (cli_service s)) as [[r sv]| |]; [|done..].
  rewrite outcome_ret_bind. split; [by apply not_running_drop|done].
Qed.

Lemma waiting_bind {A} cmd (m : M cli_state CliError A) f s :
  waiting s → keeps waiting m → (∀ a s', waiting s' → runs (f a) s' (ended cmd)) →
  runs (m ≫= f) s (ended cmd).
Proof.
  intros Hs Hm Hf. apply runs_bind. eapply runs_mono; [by apply Hm|].
  intros [a|e] s' Hs'; [by apply Hf|]. destruct Hs' as [Hn Hi]. split; [done|]. right. eauto.
Qed.

Lemma waiting_throw cmd e s : waiting s → runs (throw e) s (ended cmd).
Proof. intros [Hs Hi]. split; [done|]. right. eauto. Qed.

#[local] Hint Resolve waiting_invoke waiting_partial waiting_throw : keeps.

(** Stepping through the code of a subcommand. *)
Ltac cli_step :=
  match goal with
  | |- runs (_ ≫= _) _ _ => apply waiting_bind; [done|auto with keeps|intros ? ? ?]
  | |- runs (if ?b then _ else _) _ _ => destruct b
  | |- runs _ _ _ => by auto with keeps
  end.

Lemma run_subcommand_ended cfg cmd s : waiting s → runs (run_subcommand cfg cmd) s (ended cmd).
Proof.
  intros Hs. destruct cmd as [| | | | | | | |bench| |]; cbn [run_subcommand]; repeat cli_step.
  destruct bench; cbn [run_benchmark]; repeat cli_step.
Qed.


Definition fresh_cli : cli_state := mkCliState no_service [].

Lemma fresh_waiting : waiting fresh_cli.
Proof. split; [|done]. split_and!; [done..|constructor|done]. Qed.

(** Whether the node was built with the features a subcommand needs. *)
Definition supported (cfg : features) (cmd : Subcommand) : bool :=
  match cmd with
  | Benchmark BenchPallet | Benchmark BenchStorage => runtime_benchmarks cfg
  | TryRuntime => try_runtime cfg
  | _ => true
  end.

Lemma unsupported_subcommand cfg cmd r s s' :
  supported cfg cmd = false → run_subcommand cfg cmd s = Ret (r, s') → s' = s ∧ ∃ e, r = Err e.
Proof.
  destruct cmd as [| | | | | | | |bench| |]; try done; [destruct bench; try done|].
  all: cbn [supported run_subcommand]; intros Hf; rewrite ?M_lift_bind; try destruct (create_runner _);
    cbn [run_benchmark]; rewrite ?Hf; intros [= <- <-]; eauto.
Qed.

Lemma run_node_spec cfg s r s' :
  run cfg (mkCli None) s = Ret (r, s') →
  invoked s' = invoked s ∧
  (r = Ok tt → cli_service s = no_service →
   ∃ config, create_runner None = Ok config ∧ tasks (cli_service s') = node_tasks config ∧
     network_started (cli_service s') = true ∧
     (off_chain_proofs cfg = true → ∃ syncing, sync (cli_service s') = SyncReady syncing)).
Proof.
  unfold run, run_node. cbn [subcommand]. rewrite M_lift_bind. destruct (create_runner None) as [config|e].
  2: { intros [= <- <-]. split; [done|]. done. }
  unfold M_map_err, zoom. destruct (new_full (off_chain_proofs cfg) config (cli_service s)) as [[r0 sv]| |] eqn:E; [|done..].
  rewrite !outcome_ret_bind. intros [= <- <-]. split; [done|]. intros Hr Hs. rewrite Hs in E. exists config.
  destruct r0 as [u|e]; [|done]. destruct (new_full_correct (off_chain_proofs cfg) config) as [Hok _].
  destruct (Hok u sv E) as (Ht & Hn & _ & Hsync). done.
Qed.

(** The command line runs one thing.  With a subcommand, [run] returns; it
    starts nothing of a node, and either the subcommand's command ran exactly
    once and its result is the result, or there was an error before it could
    run; without the features it needs it always is an error, and nothing is
    built.  Without a subcommand no command runs, and success means that the
    node's tasks and its network have started. *)
Theorem run_correct cfg (cli : Cli) :
  (∀ cmd, subcommand cli = Some cmd →
     ∃ r s', run cfg cli fresh_cli = Ret (r, s') ∧ not_running (cli_service s') ∧
       ((∃ args sy, invoked s' = [mkInvocation cmd args sy] ∧ r = cmd_run cmd args) ∨
        (invoked s' = [] ∧ ∃ e, r = Err e)) ∧
       (supported cfg cmd = false → s' = fresh_cli ∧ ∃ e, r = Err e)) ∧
  (subcommand cli = None →
     ∀ r s', run cfg cli fresh_cli = Ret (r, s') →
       invoked s' = [] ∧
       (r = Ok tt → ∃ config, create_runner None = Ok config ∧
          tasks (cli_service s') = node_tasks config ∧ network_started (cli_service s') = true ∧
          (off_chain_proofs cfg = true → ∃ syncing, sync (cli_service s') = SyncReady syncing))).
Proof.
  split.
  - intros cmd Hcmd. unfold run. rewrite Hcmd.
    destruct (runs_returns _ _ _ (run_subcommand_ended cfg cmd fresh_cli fresh_waiting))
      as (r & s' & Hrun & Hn & Hinv).
    exists r, s'. split_and!; [done..|]. intros Hsup. by eapply unsupported_subcommand.
  - destruct cli as [[cmd|]]; [done|]. intros _ r s' Hrun.
    destruct (run_node_spec cfg fresh_cli r s' Hrun) as [Hi Hok]. split; [done|]. by intros Hr; apply Hok.
Qed.

(** ** The import commands *)

Lemma partial_then_invoke cfg config cmd args s r s' :
  off_chain_proofs cfg = true → waiting s → (partial_components cfg config ≫= λ _, invoke cmd args) s = Ret (r, s') →
  Forall (λ i, arguments i = args ∧ sync_then i = SyncDropped) (invoked s').
Proof.
  intros Hoff [Hs Hi] Hrun. pose proof (new_partial_not_running true config (cli_service s) Hs) as Hp.
  unfold runs in Hp. unfold mbind, M_bind, partial_components in Hrun. rewrite Hoff in Hrun.
  destruct (new_partial true config (cli_service s)) as [[[cap|e] sv]| |]; [..|done|done].
  all: rewrite outcome_ret_bind in Hrun; injection Hrun as _ <-; cbn; rewrite Hi.
  - repeat constructor. by apply drop_rest_dropped.
  - constructor.
Qed.

End RunFacts.

Section ImportCommands.
Context `{Framework} `{Commands}.
Context {Cache : Type} `{!LruCache (@Hash runtime_chain) AuthoritiesList Cache}.
Context {Store Pool Order : Type} `{!EventProofsTrait Store}.
Context {I ImportResult CheckParams : Type} `{!BlockImportOps I ImportResult CheckParams}.

(** C38: with off-chain proofs, [check-block] and [import-blocks] cannot import a
    block.  They hand the import queue to their command after the sender of the
    syncing service was dropped: importing any block then panics, whatever the
    client, the store and the inner import. *)
Theorem import_commands_panic cfg cmd r s' inv client block (inner : I)
    (n : node_state Store Cache Pool Order) :
  off_chain_proofs cfg = true → cmd = CheckBlock ∨ cmd = ImportBlocks →
  run cfg (mkCli (Some cmd)) fresh_cli = Ret (r, s') → inv ∈ invoked s' →
  ArgImportQueue ∈ arguments inv ∧
  import_block client block (mkBlockImport inner (sync_then inv)) n = Panic.
Proof.
  intros Hoff Hcmd Hrun Hinv.
  assert (arguments inv = [ArgClient; ArgImportQueue] ∧ sync_then inv = SyncDropped) as [Hargs ->].
  { revert inv Hinv. apply Forall_forall. destruct Hcmd as [-> | ->]; revert Hrun; unfold run;
      cbn [subcommand run_subcommand]; rewrite M_lift_bind.
    all: destruct (create_runner _) as [config|e]; [|by intros [= _ <-]].
    all: by apply partial_then_invoke; [|apply fresh_waiting]. }
  split; [rewrite Hargs; right; left|done].
Qed.

End ImportCommands.

(** ** Witnesses: commands that succeed *)

From S2P Require Import InMemory Concrete EventGossip.

#[local] Existing Instance toy_runtime.
#[local] Existing Instance runtime_chain | 0.
#[local] Existing Instance toy_signing.
#[local] Existing Instance runtime_import.
#[local] Existing Instance working_framework.

#[local] Instance toy_inherents : Inherents := {|
  InherentData := list Z;
  InherentError := string;
  inherent_error_debug e := e;
  inherent_data_new := [];
  provide_timestamp t data := Ok (data ++ [t])
|}.

#[local] Instance toy_commands : Commands := {|
  create_runner _ := Ok (mkConfiguration None None true false false);
  cmd_run _ _ := Ok tt;
  full_client := toy_full_client;
  task_manager_new := Ok tt
|}.

Definition import_blocks_service : service :=
  mkService [] SyncDropped false false
    [ImportQueueUses (WrappedBlockImport GrandpaBlockImport 0 1) GrandpaBlockImport] 2.

Definition import_blocks_run : invocation :=
  mkInvocation ImportBlocks [ArgClient; ArgImportQueue] SyncDropped.

Lemma import_commands_panic_witness :
  run (mkFeatures false false true) (mkCli (Some ImportBlocks)) fresh_cli =
    Ret (Ok tt, mkCliState import_blocks_service [import_blocks_run]) ∧
  import_block runtime_client runtime_block (mkBlockImport ([] : list nat) SyncDropped) runtime_node = Panic.
Proof.
  split; [reflexivity|].
  destruct (import_commands_panic (mkFeatures false false true) ImportBlocks (Ok tt)
    (mkCliState import_blocks_service [import_blocks_run]) import_blocks_run
    runtime_client runtime_block ([] : list nat) runtime_node) as [_ Hpanic].
  - reflexivity.
  - right. reflexivity.
  - reflexivity.
  - left.
  - exact Hpanic.
Defined.

(** The extrinsic benchmark runs with both builders; without the feature the
    storage benchmark does not run. *)
Example benchmark_runs :
  match run (mkFeatures false false true) (mkCli (Some (Benchmark BenchExtrinsic))) fresh_cli with
  | Ret (Ok _, s) => length (invoked s)
  | _ => 0
  end = 1 ∧
  match run (mkFeatures false false true) (mkCli (Some (Benchmark BenchStorage))) fresh_cli with
  | Ret (Err (Input e), s) => (e, length (invoked s))
  | _ => ("", 1)
  end = ("Storage benchmarking can be enabled with `--features runtime-benchmarks`.", 0).
Proof. split; reflexivity. Qed.
